(* ===== verification/_CoqProject ===== *)
-Q . S2P
Prelude.v
Machine.v
HeapLogic.v
Piece.v
Buffer.v
BufferSpec.v
ConnBuffers.v
Streams.v
Utf8.v
Varint.v
CodedOutput.v
CodedInput.v
WireFormat.v
Echo.v
AnyBytes.v
Codec.v
CodecSpec.v
AnyFrame.v
Logging.v
EventLoop.v
LoopThread.v
ThreadPool.v
TcpConn.v
TcpConnSpec.v
TcpConnIO.v
TcpServer.v
ServerStop.v
Contract.v
TcpClient.v
CodecConn.v
Chunks.v
Dispatcher.v
EchoApp.v
Party.v
EchoServer.v
EchoClient.v
EchoMain.v
Session.v
ShortSend.v
EchoSession.v
