(* ===== verification/Prelude.v ===== *)
(** * libnetpp: a verification development

    libnetpp is a small C++ network library over boost::asio: byte buffers made
    of pooled pieces, TCP connections, a server and a client, event loops with a
    thread pool, and a protobuf codec; the echo example puts it together.  This
    library translates that code into executable Rocq definitions and proves
    what makes it correct, and what does not hold of it.

    ** The program and its model

    A server ([TCPServer]) accepts connections on its loop and gives each to a
    loop of its pool ([EventLoopThreadPool::getNextLoop]); a client
    ([TCPClient]) makes one.  A connection ([TCPConn]) always has one read
    outstanding; what it receives goes into its [InputBuffer], which the
    application's message callback reads; what the application sends goes
    through its [OutputBuffer], one piece at a time.  The application of the
    example is [ProtobufCodec]: it cuts the input into frames, parses each from
    the buffer through a zero-copy stream and calls [ProtobufDispatcher], which
    calls the handler of the message's type.

    The files, in the order in which they depend on one another (paths are under
    src/):

    - Prelude: automation, machine integers, byte lists, generic lemmas;
    - Machine: the heap of pieces, the pool and the atomics, the ways an access
      goes wrong ([Error]), and the state-and-error monad [M];
    - HeapLogic: a linear separation logic for [M] on Iris's proof mode, with
      [wp_adequacy] back to running the model;
    - Piece: netpp/net/piece (queue.h, piece_allocator.cpp);
    - Buffer, BufferSpec: netpp/net/buffer.h, buffer.cpp;
    - ConnBuffers: [TCPConn::InputBuffer] and [OutputBuffer] of
      netpp/net/tcp_conn.cpp;
    - Streams: netpp/net/protobuf/buffer_input_stream.h, buffer_output_stream.h;
    - Varint, CodedOutput, CodedInput, WireFormat: what the program uses of
      thirdparty/protobuf-3.4.1 (coded_stream, wire_format_lite, wire_format,
      message_lite);
    - Utf8: the UTF-8 scanner of thirdparty/protobuf-3.4.1
      (stubs/structurally_valid.cc);
    - Echo: examples/echo/proto/echo.pb.cc, and the interface [LinkedTypes] of the
      other message types in the program; AnyBytes: the parsers on any bytes;
    - Codec, CodecSpec: netpp/net/protobuf/codec.h, codec.cpp, over any message
      type with the interfaces [MessageLite] and [Registry]; AnyFrame: [parse]
      on any bytes;
    - Logging: netpp/base/logging.h, logging.cpp;
    - EventLoop: netpp/net/event_loop.cpp, server_status.h;
    - LoopThread: netpp/net/event_loop_thread.cpp, one thread with any functors
      and any calls; ThreadPool: netpp/net/event_loop_thread_pool.cpp, the pool
      with all its threads;
    - TcpConn, TcpConnSpec, TcpConnIO: netpp/net/tcp_conn.h, tcp_conn.cpp: the
      operations, the life cycle of a connection, and its input and output;
    - TcpServer, ServerStop: netpp/net/tcp_server.cpp;
    - Contract: the interface [ConnContract] between a connection and its owner;
    - TcpClient: netpp/net/tcp_client.cpp;
    - CodecConn: the codec as a connection's callback; Chunks: frames that arrive
      in parts; Dispatcher: netpp/net/protobuf/dispatcher.h;
    - EchoApp, EchoServer, EchoClient: examples/echo/echo_server and echo_client;
      EchoMain: their [_tmain];
    - Party, Session, ShortSend, EchoSession: two processes joined by a TCP
      connection, each with a connection and an application ([Application],
      [ApplicationLaws]); such a session after the network has taken only a part of
      a send; and the echo client and server as such a pair.

    Definitions have the names of the code.  An operation on buffers is a
    computation in [M]: explicit memory, [Err] where the code would dereference
    null, use a freed piece, write out of bounds or fail an assertion
    ([m_ndebug] chooses the Debug or the Release build).  An operation of a
    connection is a computation in [TcpConn.H], which adds the connection, the
    handlers asio holds for it and a log of what was done to the outside.
    Servers and clients are step systems over the tasks that asio holds; they
    see a connection through its phase.

    ** What the theorems show

    - Buffers: any run of buffer operations behaves as a FIFO of bytes and
      leaks nothing (BufferSpec.buffer_refines_fifo); the allocator never hands a
      piece out twice and bounds its cache; moving bytes to another buffer and
      peeking at integers work within the first piece and not across pieces
      (BufferSpec.read_buffer_by_pieces, peekInt32_contiguous_or_overflow).
    - Protobuf: varint decoders agree with a reference and invert the encoder;
      parsing inverts serializing for the two messages, whatever pieces the
      bytes are in; the streams deliver and take back exactly the bytes; the
      UTF-8 scanner with its word-at-a-time paths accepts exactly the encodings
      of Unicode scalar values (Utf8.scanner_accepts_exactly_utf8).  On any other
      bytes the parsers return as well and give back what they have not read
      (AnyBytes.echo_parse_survives_any_bytes); only an assertion can fail, in a
      Debug build (AnyBytes.parse_nothing_asserts).
    - Codec: the exact frame built, its delivery, every way of not delivering,
      that a message of a known type is delivered whatever its bytes are
      (AnyFrame.parse_accepts_any_body), and that two frames arriving together
      break (CodecSpec.onMessage_breaks_pipelined_frames).
    - Connections: callbacks in order and once, one read and one write in
      flight, what send, a completed write and a completed read do (the last one
      while the pool's free list has room, see ConnBuffers.writePiece_use_after_free);
      a close that the peer overtakes fails an assertion, in every schedule
      (TcpConnSpec.close_and_peer_close_assert).
    - Server, client, pool, logging: the invariants of their tables, that stop
      calls back once and last and does complete, that the pool starts, stops
      and joins without a failed assertion and in bounded time, that logging is
      configured once; and the races that break stop and disconnect.
    - One thread with its loop: used as it is meant to be, no assertion fails, no
      race on its name, and it ends (LoopThread); a failing [pre] breaks it.
    - The echo program: a request read from the network is answered by exactly
      the frame of its response (EchoServer.echo_server_answers), a response by
      the next request; and the two processes together keep in step for ever,
      however the network cuts the streams (EchoSession), as long as [async_send]
      transmits all it is given; from the first time it does not, nothing more is
      sent and the session stops (EchoSession.short_send_stalls_session).
    - The two programs as processes: they start as they should, and the timer of
      [runEvery] ends both with an exception at its second expiry
      (EchoMain.echo_programs_end_at_second_tick); the theorems about sessions
      are about what happens before that.

    Where the code has a defect the theorem about it says what happens; the
    lemmas named after a defect ([writePiece_use_after_free],
    [input_stream_back_up_last_piece], [late_handlers_use_null_socket] and the
    like) are concrete runs.

    ** Bounds and fuel

    Loops over the pieces of a queue take as fuel one more than the number of
    objects on the heap ([mem_bound]), which a queue cannot exceed; loops over
    bytes take the length, those of the protobuf parsers twice the length, since an
    unknown group takes two calls for its first byte: AnyBytes proves that to be
    enough for any bytes.  The specifications are total: [wp] and [wp_build] hold
    only of a run that returns or ends in one of the errors they name, which
    [OutOfFuel] never is, so no theorem depends on fuel running out.  [kMaxUsing],
    the field of the class [Peak], bounds the pieces there are: at most 2^32 - 9,
    because the pool's counters are 32 bits wide; a client that knows its peak
    takes a smaller one (EchoSession).  Lengths are below 2^64, or 2^63 where the
    code needs it.  The echo theorems take
    texts of at most 4000 bytes, so that a frame fits in one piece: a longer
    send loses bytes (ConnBuffers.writePieceQueue_keeps_first_piece).

    ** What is not modelled

    The message types of the protobuf library itself ([google.protobuf.*]) that
    the linker keeps: the generated pool finds them too, so that the codec can
    parse and deliver them.  They are the parameter [LinkedTypes] of everything
    above Echo, with the laws of names the pool guarantees; concrete runs take a
    program without any.

    asio, the operating system and Boost.Log: they are the environment, which
    runs any handler it holds at any time with any result the code can see.
    Calls of other threads on a connection take effect between the handlers of
    its loop, not inside them; the accesses of LoopThread, ThreadPool and Logging interleave
    one by one, but as sequentially consistent ones.  A session has one connection
    and delivers what was sent in order, as TCP does; closing it is modelled for
    each side (TcpConnSpec), not for the pair.  Names of servers and clients,
    console output, floating-point rounding in [runAfter] beyond its
    exact value, protobuf arenas, reflection, text format and the parts of
    protobuf that the messages of the example do not reach, and the build
    files. *)

From stdpp Require Import base tactics list numbers.
From Stdlib Require Import ZArith Lia.

#[global] Open Scope Z_scope.

(** ** Automation

    [netpp] collects the rewriting lemmas that normalise lengths and byte
    lists; [znat] moves a goal about [Z.to_nat]/[Z.of_nat] to [lia]. *)
Create HintDb netpp.
Create Rewrite HintDb netpp.

Ltac znat := repeat rewrite ?Nat2Z.id, ?Z2Nat.id in * by lia; lia.

(** Case analysis on the boolean comparisons of the source. *)
Ltac bool_cases :=
  repeat match goal with
  | H : _ && _ = true |- _ => apply andb_true_iff in H as [? ?]
  | H : _ || _ = false |- _ => apply orb_false_iff in H as [? ?]
  | H : negb _ = true |- _ => apply negb_true_iff in H
  | H : negb _ = false |- _ => apply negb_false_iff in H
  | H : (_ <? _) = true |- _ => apply Z.ltb_lt in H
  | H : (_ <? _) = false |- _ => apply Z.ltb_ge in H
  | H : (_ <=? _) = true |- _ => apply Z.leb_le in H
  | H : (_ <=? _) = false |- _ => apply Z.leb_gt in H
  | H : (_ =? _) = true |- _ => apply Z.eqb_eq in H
  | H : (_ =? _) = false |- _ => apply Z.eqb_neq in H
  end.

(** ** Machine integers

    A [w]-bit unsigned integer is a [Z] in [[0, 2^w)]; arithmetic wraps. *)
Definition wrap (w : Z) (z : Z) : Z := z mod 2 ^ w.
Abbreviation wrap8 := (wrap 8).
Abbreviation wrap16 := (wrap 16).
Abbreviation wrap32 := (wrap 32).
Abbreviation wrap64 := (wrap 64).

(** Two's complement reading of a [w]-bit pattern. *)
Definition swrap (w : Z) (z : Z) : Z := (z + 2 ^ (w - 1)) mod 2 ^ w - 2 ^ (w - 1).
Abbreviation int8 := (swrap 8).
Abbreviation int16 := (swrap 16).
Abbreviation int32 := (swrap 32).
Abbreviation int64 := (swrap 64).

(** [size_t] is 64 bits wide (the x64 configurations of the project). *)
Abbreviation size_t := (wrap 64).

Lemma wrap_id w z : 0 <= z < 2 ^ w -> wrap w z = z.
Proof. intros H. unfold wrap. by apply Z.mod_small. Qed.

Lemma wrap_bound w z : 0 <= w -> 0 <= wrap w z < 2 ^ w.
Proof. intros H. apply Z.mod_pos_bound. by apply Z.pow_pos_nonneg. Qed.

Lemma wrap_add_l w a b : wrap w (wrap w a + b) = wrap w (a + b).
Proof. unfold wrap. apply Zplus_mod_idemp_l. Qed.

Lemma wrap_sub_l w a b : wrap w (wrap w a - b) = wrap w (a - b).
Proof. unfold wrap. apply Zminus_mod_idemp_l. Qed.

Lemma wrap_wrap w a : wrap w (wrap w a) = wrap w a.
Proof. unfold wrap. apply Zmod_mod. Qed.

Lemma swrap_id w z : 0 < w -> - 2 ^ (w - 1) <= z < 2 ^ (w - 1) -> swrap w z = z.
Proof.
  intros Hw H. unfold swrap.
  assert (2 ^ w = 2 * 2 ^ (w - 1)) as E.
  { rewrite <- Z.pow_succ_r by lia. f_equal. lia. }
  rewrite Z.mod_small; lia.
Qed.

Lemma swrap_bound w z : 0 < w -> - 2 ^ (w - 1) <= swrap w z < 2 ^ (w - 1).
Proof.
  intros Hw. unfold swrap.
  assert (2 ^ w = 2 * 2 ^ (w - 1)) as E.
  { rewrite <- Z.pow_succ_r by lia. f_equal. lia. }
  pose proof (Z.mod_pos_bound (z + 2 ^ (w - 1)) (2 ^ w)) as B.
  assert (0 < 2 ^ (w - 1)) by (apply Z.pow_pos_nonneg; lia). lia.
Qed.

Lemma swrap_wrap w z : swrap w (wrap w z) = swrap w z.
Proof. unfold swrap, wrap. by rewrite Zplus_mod_idemp_l. Qed.

Lemma wrap_swrap w z : wrap w (swrap w z) = wrap w z.
Proof.
  unfold swrap, wrap. rewrite Zminus_mod_idemp_l. f_equal. lia.
Qed.

(** ** Lists indexed by integers *)
Definition zlen {A} (l : list A) : Z := Z.of_nat (length l).

Lemma zlen_nonneg {A} (l : list A) : 0 <= zlen l.
Proof. unfold zlen. lia. Qed.

Lemma zlen_nil {A} : zlen (@nil A) = 0.
Proof. done. Qed.

Lemma zlen_cons {A} (x : A) l : zlen (x :: l) = 1 + zlen l.
Proof. unfold zlen. cbn [length]. lia. Qed.

Lemma zlen_app {A} (l k : list A) : zlen (l ++ k) = zlen l + zlen k.
Proof. unfold zlen. rewrite length_app. lia. Qed.

Lemma zlen_0 {A} (l : list A) : zlen l = 0 -> l = [].
Proof. unfold zlen. destruct l; cbn [length]; [done | lia]. Qed.

Lemma zlen_take {A} k (l : list A) : 0 <= k <= zlen l -> zlen (take (Z.to_nat k) l) = k.
Proof. unfold zlen. intros. rewrite length_take. lia. Qed.

Lemma zlen_drop {A} k (l : list A) :
  0 <= k <= zlen l -> zlen (drop (Z.to_nat k) l) = zlen l - k.
Proof. unfold zlen. intros. rewrite length_drop. lia. Qed.

(** [slice pos n d]: the [n] elements from index [pos] on, what a [memcpy]
    out of [d + pos] reads; [splice pos bs d]: [d] after a [memcpy] of [bs]
    to [d + pos]. *)
Definition slice {A} (pos n : Z) (d : list A) : list A :=
  take (Z.to_nat n) (drop (Z.to_nat pos) d).
Definition splice {A} (pos : Z) (bs d : list A) : list A :=
  take (Z.to_nat pos) d ++ bs ++ drop (Z.to_nat (pos + zlen bs)) d.

Lemma zlen_slice {A} pos n (d : list A) :
  0 <= pos -> 0 <= n -> pos + n <= zlen d -> zlen (slice pos n d) = n.
Proof.
  unfold zlen, slice. intros. rewrite length_take, length_drop. lia.
Qed.

Lemma zlen_splice {A} pos (bs d : list A) :
  0 <= pos -> pos + zlen bs <= zlen d -> zlen (splice pos bs d) = zlen d.
Proof.
  unfold zlen, splice. intros.
  rewrite !length_app, length_take, length_drop. unfold zlen. lia.
Qed.

Lemma slice_zero {A} pos (d : list A) : slice pos 0 d = [].
Proof. done. Qed.

Lemma slice_all {A} (d : list A) : slice 0 (zlen d) d = d.
Proof. unfold slice, zlen. rewrite drop_0, take_ge; [done | lia]. Qed.

Lemma slice_app {A} pos n m (d : list A) :
  0 <= pos -> 0 <= n -> 0 <= m ->
  slice pos (n + m) d = slice pos n d ++ slice (pos + n) m d.
Proof.
  intros. unfold slice.
  rewrite !Z2Nat.inj_add by lia.
  by rewrite <- drop_drop, take_take_drop.
Qed.

Lemma slice_slice {A} a n b m (d : list A) :
  0 <= a -> 0 <= b -> 0 <= m -> b + m <= n ->
  slice b m (slice a n d) = slice (a + b) m d.
Proof.
  intros. unfold slice.
  rewrite skipn_firstn_comm, take_take, drop_drop. f_equal; [lia|].
  f_equal. lia.
Qed.

(** What a [memcpy] of [bs] to the end of [[off, off+len)] leaves there. *)
Lemma slice_splice_append {A} off len (bs d : list A) :
  0 <= off -> 0 <= len -> off + len + zlen bs <= zlen d ->
  slice off (len + zlen bs) (splice (off + len) bs d) = slice off len d ++ bs.
Proof.
  intros. unfold slice, splice, zlen in *.
  rewrite drop_app_le by (rewrite length_take; lia).
  rewrite skipn_firstn_comm.
  rewrite take_app, length_take, length_drop.
  rewrite take_ge by (rewrite length_take, length_drop; lia).
  f_equal; [f_equal; lia|].
  rewrite take_app_length' by lia. done.
Qed.

(** What a [memcpy] of [bs] just before [[off, off+len)] leaves there. *)
Lemma slice_splice_prepend {A} off len (bs d : list A) :
  zlen bs <= off -> 0 <= len -> off + len <= zlen d ->
  slice (off - zlen bs) (zlen bs + len) (splice (off - zlen bs) bs d)
    = bs ++ slice off len d.
Proof.
  intros. pose proof (zlen_nonneg bs). unfold slice, splice, zlen in *.
  rewrite drop_app_length' by (rewrite length_take; lia).
  rewrite take_app, take_ge by lia.
  do 2 f_equal; [lia | f_equal; lia].
Qed.

(** A [memcpy] leaves what lies before it unchanged. *)
Lemma slice_splice_before {A} pos n at_ (bs d : list A) :
  0 <= pos -> 0 <= n -> pos + n <= at_ -> at_ <= zlen d ->
  slice pos n (splice at_ bs d) = slice pos n d.
Proof.
  intros. unfold slice, splice, zlen in *.
  rewrite drop_app_le by (rewrite length_take; lia).
  rewrite skipn_firstn_comm, take_app_le by (rewrite length_take, length_drop; lia).
  rewrite take_take. f_equal. lia.
Qed.

Lemma slice_splice_same {A} pos (bs d : list A) :
  0 <= pos -> pos + zlen bs <= zlen d ->
  slice pos (zlen bs) (splice pos bs d) = bs.
Proof.
  intros. pose proof (slice_splice_append pos 0 bs d) as E.
  rewrite !Z.add_0_r, Z.add_0_l in E. rewrite E by lia. done.
Qed.

(** A [memcpy] leaves what lies behind it unchanged. *)
Lemma slice_splice_after {A} pos n at_ (bs d : list A) :
  0 <= at_ -> at_ + zlen bs <= pos -> at_ + zlen bs <= zlen d ->
  slice pos n (splice at_ bs d) = slice pos n d.
Proof.
  intros. unfold slice, splice, zlen in *. f_equal.
  rewrite app_assoc, drop_app_ge by (rewrite length_app, length_take; lia).
  rewrite drop_drop, length_app, length_take. f_equal. lia.
Qed.

Lemma Forall_slice {A} (P : A -> Prop) pos n d : Forall P d -> Forall P (slice pos n d).
Proof. intros. unfold slice. by apply Forall_take, Forall_drop. Qed.

Lemma Forall_splice {A} (P : A -> Prop) pos bs d :
  Forall P d -> Forall P bs -> Forall P (splice pos bs d).
Proof.
  intros. unfold splice. rewrite !Forall_app.
  repeat split; auto using Forall_take, Forall_drop.
Qed.

#[global] Arguments wrap : simpl never.
#[global] Arguments swrap : simpl never.
#[global] Arguments zlen {_} _ : simpl never.
#[global] Arguments slice {_} _ _ _ : simpl never.
#[global] Arguments splice {_} _ _ _ : simpl never.

(** ** Bytes in host order

    The target is little-endian: [le_bytes n z] is the memory image of the
    [n]-byte integer [z]; [of_le] reads one back. *)
Definition is_byte (b : Z) : Prop := 0 <= b < 256.

Fixpoint le_bytes (n : nat) (z : Z) : list Z :=
  match n with
  | O => []
  | S n => z mod 256 :: le_bytes n (z / 256)
  end.

Fixpoint of_le (bs : list Z) : Z :=
  match bs with
  | [] => 0
  | b :: bs => b + 256 * of_le bs
  end.

(** [htonl], [ntohl], [htons], [ntohs] of a little-endian host: the bytes of
    the memory image reversed. *)
Definition htonl (x : Z) : Z := of_le (reverse (le_bytes 4 x)).
Definition ntohl (x : Z) : Z := htonl x.
Definition htons (x : Z) : Z := of_le (reverse (le_bytes 2 x)).
Definition ntohs (x : Z) : Z := htons x.

(** The big-endian bytes of an [n]-byte integer, the wire format. *)
Definition be_bytes (n : nat) (z : Z) : list Z := reverse (le_bytes n z).

Lemma length_le_bytes n z : length (le_bytes n z) = n.
Proof. revert z. induction n; intros; cbn; [done | by rewrite IHn]. Qed.

Lemma le_bytes_byte n z : Forall is_byte (le_bytes n z).
Proof.
  revert z. induction n; intros; cbn; constructor; [|done].
  apply Z.mod_pos_bound. lia.
Qed.

Lemma of_le_le_bytes n z : of_le (le_bytes n z) = z mod 256 ^ Z.of_nat n.
Proof.
  revert z. induction n; intros.
  - cbn. by rewrite Z.mod_1_r.
  - rewrite Nat2Z.inj_succ, Z.pow_succ_r by lia. cbn [le_bytes of_le].
    rewrite IHn. rewrite Z.rem_mul_r by (try apply Z.pow_nonzero; lia). done.
Qed.

Lemma le_bytes_of_le bs : Forall is_byte bs -> le_bytes (length bs) (of_le bs) = bs.
Proof.
  induction 1 as [|b bs Hb _ IH]; [done|]. cbn [length le_bytes of_le].
  unfold is_byte in Hb. f_equal.
  - rewrite Z.mul_comm, Z_mod_plus_full. by apply Z.mod_small.
  - rewrite Z.mul_comm, Z_div_plus_full by lia. rewrite Z.div_small by done. done.
Qed.

Lemma le_bytes_mod n z : le_bytes n (z mod 256 ^ Z.of_nat n) = le_bytes n z.
Proof.
  rewrite <- of_le_le_bytes. rewrite <- (length_le_bytes n z) at 1.
  apply le_bytes_of_le, le_bytes_byte.
Qed.

Lemma le_bytes_wrap32 z : le_bytes 4 (wrap32 z) = le_bytes 4 z.
Proof. exact (le_bytes_mod 4 z). Qed.

Lemma le_bytes_wrap16 z : le_bytes 2 (wrap16 z) = le_bytes 2 z.
Proof. exact (le_bytes_mod 2 z). Qed.

Lemma le_bytes_htonl z : le_bytes 4 (htonl z) = be_bytes 4 z.
Proof.
  unfold htonl. change 4%nat with (length (reverse (le_bytes 4 z))) at 1.
  apply le_bytes_of_le. apply Forall_reverse, le_bytes_byte.
Qed.

Lemma le_bytes_htons z : le_bytes 2 (htons z) = be_bytes 2 z.
Proof.
  unfold htons. change 2%nat with (length (reverse (le_bytes 2 z))) at 1.
  apply le_bytes_of_le. apply Forall_reverse, le_bytes_byte.
Qed.

Lemma be_bytes_byte n z : Forall is_byte (be_bytes n z).
Proof. apply Forall_reverse, le_bytes_byte. Qed.

Lemma zlen_be_bytes n z : zlen (be_bytes n z) = Z.of_nat n.
Proof. unfold zlen, be_bytes. by rewrite length_reverse, length_le_bytes. Qed.

(** Reading back a big-endian integer: [ntohl] of the memory image. *)
Lemma ntohl_of_le bs : length bs = 4%nat -> Forall is_byte bs ->
  ntohl (of_le bs) = of_le (reverse bs).
Proof.
  intros L H. unfold ntohl, htonl. rewrite <- L, le_bytes_of_le; done.
Qed.

Lemma ntohs_of_le bs : length bs = 2%nat -> Forall is_byte bs ->
  ntohs (of_le bs) = of_le (reverse bs).
Proof.
  intros L H. unfold ntohs, htons. rewrite <- L, le_bytes_of_le; done.
Qed.

Lemma of_le_reverse_be n z : of_le (reverse (be_bytes n z)) = z mod 256 ^ Z.of_nat n.
Proof. unfold be_bytes. rewrite reverse_involutive. apply of_le_le_bytes. Qed.

(** ** Counting *)

Definition count {A} (p : A -> bool) (l : list A) : nat := length (List.filter p l).
#[global] Arguments count : simpl never.

Lemma count_nil {A} (p : A -> bool) : count p [] = 0%nat.
Proof. done. Qed.

Lemma count_cons {A} (p : A -> bool) x l :
  count p (x :: l) = ((if p x then 1 else 0) + count p l)%nat.
Proof. unfold count. cbn. by destruct (p x). Qed.

Lemma count_app {A} (p : A -> bool) l k : count p (l ++ k) = (count p l + count p k)%nat.
Proof. unfold count. by rewrite List.filter_app, length_app. Qed.

(** One element taken out of the middle. *)
Lemma count_taken {A} (p : A -> bool) before x after :
  count p (before ++ x :: after) = (count p (before ++ after) + if p x then 1 else 0)%nat.
Proof. rewrite !count_app, count_cons. destruct (p x); lia. Qed.

Lemma count_insert {A} (p : A -> bool) l i x y : l !! i = Some x ->
  (count p (<[i := y]> l) + (if p x then 1 else 0) = count p l + (if p y then 1 else 0))%nat.
Proof.
  revert i. induction l as [|z l IH]; intros [|i] Hi; [done|done| |]; cbn in Hi.
  - injection Hi as ->. change (<[0%nat := y]> (x :: l)) with (y :: l). rewrite !count_cons. lia.
  - change (<[S i := y]> (z :: l)) with (z :: <[i := y]> l). rewrite !count_cons. specialize (IH i Hi). lia.
Qed.

Lemma count_all {A} (p : A -> bool) l : Forall (λ x, p x = true) l -> count p l = length l.
Proof. induction 1 as [|x l Hx _ IH]; [done|]. rewrite count_cons, Hx, IH. done. Qed.

Lemma count_pos {A} (p : A -> bool) l : count p l <> 0%nat ->
  exists before x after, l = before ++ x :: after /\ p x = true.
Proof.
  induction l as [|x l IH]; [done|]. rewrite count_cons. destruct (p x) eqn:E; intros Hc.
  - by exists [], x, l.
  - destruct IH as (before & y & after & -> & Hy); [done|]. by exists (x :: before), y, after.
Qed.

#[export] Hint Rewrite @zlen_app @zlen_cons @zlen_nil @zlen_be_bytes
  @length_le_bytes : netpp.
#[export] Hint Resolve le_bytes_byte be_bytes_byte zlen_nonneg
  Forall_slice Forall_splice : netpp.

Lemma sum_list_with_insert {A} (f : A -> nat) l i x y : l !! i = Some x ->
  (sum_list_with f (<[i := y]> l) + f x = sum_list_with f l + f y)%nat.
Proof.
  revert i. induction l as [|z l IH]; intros [|i] Hi; [done|done| |]; cbn in Hi.
  - injection Hi as ->. change (<[0%nat := y]> (x :: l)) with (y :: l). cbn. lia.
  - change (<[S i := y]> (z :: l)) with (z :: <[i := y]> l). cbn [sum_list_with]. specialize (IH i Hi). lia.
Qed.
