(* ===== verification/Machine.v ===== *)
(** * The memory and the effects of the buffer layer

    The C++ code of [netpp/net/piece], [netpp/net/buffer.cpp] and of what is
    built on it manipulates a heap of [Piece] objects through raw pointers.
    This file models that heap, the ways in which an access can go wrong, and
    the state-and-error monad [M] in which the operations are written.

    - a location is a [positive]; a pointer is an [option loc], [None] being
      [nullptr];
    - an object is a [Piece], the one global [PiecePool] (the variable
      [pool_] of [piece_allocator.cpp], at [pool_loc]), a [std::atomic] of the
      application or a [std::string] on the heap; a deleted object leaves the heap and locations are never
      reused, so that every access through a dangling pointer is seen as
      [UseAfterFree];
    - the contents of a [new Piece] are indeterminate: they are drawn from
      [m_fill], which every theorem quantifies over;
    - [assert] aborts in the Debug configurations and is compiled out under
      [NDEBUG] in the Release ones; [m_ndebug] says which is modelled. *)

From stdpp Require Import base tactics list numbers gmap.
From Stdlib Require Import ZArith Lia.
From S2P Require Import Prelude.

Abbreviation loc := positive.
Abbreviation ptr := (option loc).

(** [const uint16_t kPieceCapacity = 1024 * 4;] *)
Definition kPieceCapacity : Z := 1024 * 4.

(** [struct Piece]: [data] is the array of [kPieceCapacity] bytes. *)
Record Piece := mkPiece {
  p_next : ptr;
  p_off : Z;
  p_len : Z;
  p_data : list Z
}.

(** [template<typename T> class Queue] at [T = Piece]. *)
Record Queue := mkQueue {
  head_ : ptr;
  tail_ : ptr;
  size_ : Z
}.

(** [class PiecePool]; its [mutex_] makes each operation atomic. *)
Record PiecePool := mkPool {
  queue_ : Queue;
  using_count_ : Z
}.

Inductive Obj :=
  | OPiece (p : Piece)
  | OPool (q : PiecePool)
  | OAtomic (v : Z)
  | OString (s : list Z).

Record Mem := mkMem {
  m_heap : gmap loc Obj;
  m_next : loc;
  m_fill : loc -> nat -> Z;
  m_ndebug : bool
}.

(** Field updates, [item->f = v]; the 16-bit fields truncate. *)
Definition set_next (p : Piece) (n : ptr) : Piece :=
  mkPiece n (p_off p) (p_len p) (p_data p).
Definition set_off (p : Piece) (o : Z) : Piece :=
  mkPiece (p_next p) (wrap16 o) (p_len p) (p_data p).
Definition set_len (p : Piece) (l : Z) : Piece :=
  mkPiece (p_next p) (p_off p) (wrap16 l) (p_data p).
Definition set_data (p : Piece) (d : list Z) : Piece :=
  mkPiece (p_next p) (p_off p) (p_len p) d.
Definition set_heap (m : Mem) (h : gmap loc Obj) : Mem :=
  mkMem h (m_next m) (m_fill m) (m_ndebug m).

(** ** Errors and the monad *)
Inductive Error :=
  | AssertionFailed
  | NullDeref
  | UseAfterFree
  | OutOfBounds
  | BadFunctionCall
  | Fatal
  | SystemError
  | OutOfFuel.

#[export] Instance Error_eq_dec : EqDecision Error.
Proof. solve_decision. Defined.

Inductive Res (A : Type) :=
  | Ok (a : A) (m : Mem)
  | Err (e : Error).
Arguments Ok {A} _ _.
Arguments Err {A} _.

(** What a run ends with, without the memory. *)
Definition value {A} (r : Res A) : A + Error :=
  match r with Ok a _ => inl a | Err e => inr e end.

Definition M (A : Type) : Type := Mem -> Res A.

#[export] Instance M_ret : MRet M := λ A a m, Ok a m.
#[export] Instance M_bind : MBind M := λ A B f c m,
  match c m with
  | Ok a m' => f a m'
  | Err e => Err e
  end.

Definition throw {A} (e : Error) : M A := λ _, Err e.

(** [assert(b)] *)
Definition assert_ (b : bool) : M unit := λ m,
  if b || m_ndebug m then Ok tt m else Err AssertionFailed.

(** Dereferencing a pointer that may be null. *)
Definition deref (p : ptr) : M loc :=
  match p with
  | Some l => mret l
  | None => throw NullDeref
  end.

Definition load (l : loc) : M Piece := λ m,
  match m_heap m !! l with
  | Some (OPiece p) => Ok p m
  | _ => Err UseAfterFree
  end.

Definition store (l : loc) (p : Piece) : M unit := λ m,
  match m_heap m !! l with
  | Some (OPiece _) => Ok tt (set_heap m (<[l := OPiece p]> (m_heap m)))
  | _ => Err UseAfterFree
  end.

(** [new Piece]: indeterminate contents. *)
Definition fresh_piece (m : Mem) : Piece :=
  let junk i := m_fill m (m_next m) i in
  mkPiece None (wrap16 (junk 0%nat)) (wrap16 (junk 1%nat))
    ((λ i, wrap8 (junk i)) <$> seq 2 (Z.to_nat kPieceCapacity)).

Definition new_Piece : M loc := λ m,
  Ok (m_next m)
     (mkMem (<[m_next m := OPiece (fresh_piece m)]> (m_heap m))
            (Pos.succ (m_next m)) (m_fill m) (m_ndebug m)).

(** [delete item] of a non-null pointer *)
Definition delete_Piece (l : loc) : M unit := λ m,
  match m_heap m !! l with
  | Some (OPiece _) => Ok tt (set_heap m (delete l (m_heap m)))
  | _ => Err UseAfterFree
  end.

(** The global [PiecePool pool_]. *)
Definition pool_loc : loc := 1%positive.

Definition load_pool : M PiecePool := λ m,
  match m_heap m !! pool_loc with
  | Some (OPool q) => Ok q m
  | _ => Err UseAfterFree
  end.

Definition store_pool (q : PiecePool) : M unit := λ m,
  match m_heap m !! pool_loc with
  | Some (OPool _) => Ok tt (set_heap m (<[pool_loc := OPool q]> (m_heap m)))
  | _ => Err UseAfterFree
  end.

(** A [std::atomic] integer; [wrap] is the conversion to its type ([int32],
    [int64] or [wrap64]), arithmetic on atomics wraps around. *)
Definition new_atomic (v : Z) : M loc := λ m,
  Ok (m_next m)
     (mkMem (<[m_next m := OAtomic v]> (m_heap m)) (Pos.succ (m_next m)) (m_fill m) (m_ndebug m)).

Definition load_atomic (l : loc) : M Z := λ m,
  match m_heap m !! l with
  | Some (OAtomic v) => Ok v m
  | _ => Err UseAfterFree
  end.

Definition store_atomic (l : loc) (v : Z) : M unit := λ m,
  match m_heap m !! l with
  | Some (OAtomic _) => Ok tt (set_heap m (<[l := OAtomic v]> (m_heap m)))
  | _ => Err UseAfterFree
  end.

(** [a.fetch_add(d)], also [a++] and [a--]: the old value. *)
Definition fetch_add (wrap : Z -> Z) (l : loc) (d : Z) : M Z :=
  v ← load_atomic l;
  store_atomic l (wrap (v + d));;
  mret v.

(** A [std::string] on the heap: [new std::string(s)], [*p], [*p = s] and
    [delete p]. *)
Definition new_string (s : list Z) : M loc := λ m,
  Ok (m_next m)
     (mkMem (<[m_next m := OString s]> (m_heap m)) (Pos.succ (m_next m)) (m_fill m) (m_ndebug m)).

Definition load_string (l : loc) : M (list Z) := λ m,
  match m_heap m !! l with
  | Some (OString s) => Ok s m
  | _ => Err UseAfterFree
  end.

Definition store_string (l : loc) (s : list Z) : M unit := λ m,
  match m_heap m !! l with
  | Some (OString _) => Ok tt (set_heap m (<[l := OString s]> (m_heap m)))
  | _ => Err UseAfterFree
  end.

Definition delete_string (l : loc) : M unit := λ m,
  match m_heap m !! l with
  | Some (OString _) => Ok tt (set_heap m (delete l (m_heap m)))
  | _ => Err UseAfterFree
  end.

(** [memcpy] out of and into [item->data]; both ends of the range must lie
    inside the array. *)
Definition memcpy_from (p : Piece) (pos n : Z) : M (list Z) :=
  if (0 <=? pos) && (0 <=? n) && (pos + n <=? zlen (p_data p))
  then mret (slice pos n (p_data p))
  else throw OutOfBounds.

Definition memcpy_to (p : Piece) (pos : Z) (bs : list Z) : M Piece :=
  if (0 <=? pos) && (pos + zlen bs <=? zlen (p_data p))
  then mret (set_data p (splice pos bs (p_data p)))
  else throw OutOfBounds.

(** A bound on the number of distinct objects, used as the fuel of the loops
    that walk a chain of pieces. *)
Definition mem_bound : M nat := λ m, Ok (S (size (m_heap m))) m.

(** The state of a process at start-up: only the pool exists, and it is
    empty. *)
Definition init_mem (fill : loc -> nat -> Z) (ndebug : bool) : Mem :=
  mkMem {[ pool_loc := OPool (mkPool (mkQueue None None 0) 0) ]} 2%positive fill ndebug.

(** Locations at or above [m_next] are unused. *)
Definition mem_wf (m : Mem) : Prop :=
  forall l, (m_next m <= l)%positive -> m_heap m !! l = None.

Lemma init_mem_wf fill ndebug : mem_wf (init_mem fill ndebug).
Proof.
  intros l Hl. cbn [init_mem m_next m_heap] in *. rewrite lookup_singleton_ne; [done|].
  unfold pool_loc. lia.
Qed.

(** ** Well-formed pieces

    The window [[off, off+len)] lies inside the array of bytes. *)
Definition piece_wf (p : Piece) : Prop :=
  zlen (p_data p) = kPieceCapacity /\ Forall is_byte (p_data p) /\
  0 <= p_off p /\ 0 <= p_len p /\ p_off p + p_len p <= kPieceCapacity.

(** The bytes a piece holds. *)
Definition piece_bytes (p : Piece) : list Z := slice (p_off p) (p_len p) (p_data p).

Lemma kPieceCapacity_eq : kPieceCapacity = 4096.
Proof. done. Qed.

#[global] Opaque kPieceCapacity.

Lemma wrap16_capacity z : 0 <= z <= kPieceCapacity -> wrap16 z = z.
Proof. rewrite kPieceCapacity_eq. intros. apply wrap_id. lia. Qed.

Lemma zlen_piece_bytes p : piece_wf p -> zlen (piece_bytes p) = p_len p.
Proof.
  intros (L & _ & ? & ? & ?). unfold piece_bytes. apply zlen_slice; lia.
Qed.

Lemma piece_bytes_byte p : piece_wf p -> Forall is_byte (piece_bytes p).
Proof. intros (_ & ? & _). by apply Forall_slice. Qed.

Lemma fresh_piece_data m :
  zlen (p_data (fresh_piece m)) = kPieceCapacity /\
  Forall is_byte (p_data (fresh_piece m)).
Proof.
  unfold fresh_piece. cbn [p_data]. split.
  - unfold zlen. rewrite length_fmap, length_seq. rewrite kPieceCapacity_eq. lia.
  - apply Forall_fmap, Forall_forall. intros i _. apply (wrap_bound 8). lia.
Qed.
