(* ===== verification/HeapLogic.v ===== *)
(** * A linear separation logic for the memory of [Machine]

    An assertion [hProp] is a predicate on finite heaps of objects; the
    separating conjunction splits the heap.  The logic is linear (nothing can
    be dropped), so a specification also accounts for every object: a piece
    that an operation leaks stays visible in its postcondition.

    [wp E m Φ]: run from any memory that contains the owned heap, [m] returns
    a result satisfying [Φ], leaves everything it does not own unchanged, and
    may otherwise only fail with an error in [E] (none by default).  The
    assertions form an Iris [bi], so the proofs of the buffer layer use the
    Iris proof mode; [wp_adequacy] turns a specification back into a statement
    about running the model. *)

From stdpp Require Import base tactics list numbers gmap.
From iris.bi Require Import interface.
From iris.proofmode Require Import proofmode.
From Stdlib Require Import ZArith Lia.
From S2P Require Import Prelude Machine.

Abbreviation heap := (gmap loc Obj).

(** ** Assertions *)
Record hProp := HProp { hprop_holds : heap -> Prop }.
Arguments hprop_holds : simpl never.
Add Printing Constructor hProp.

Section ofe.
Inductive hprop_equiv_ (P Q : hProp) : Prop :=
  { hprop_in_equiv : forall h, hprop_holds P h <-> hprop_holds Q h }.
#[local] Instance hprop_equiv : Equiv hProp := hprop_equiv_.
#[local] Instance hprop_equivalence : Equivalence (≡@{hProp}).
Proof.
  split.
  - intros P. constructor. done.
  - intros P Q [H]. constructor. intros h. by rewrite H.
  - intros P Q R [H1] [H2]. constructor. intros h. by rewrite H1 H2.
Qed.
Canonical Structure hPropO := discreteO hProp.
End ofe.

Section connectives.
Inductive hentails (P Q : hProp) : Prop :=
  HEntails { hentails_at : forall h, hprop_holds P h -> hprop_holds Q h }.
Local Definition hemp : hProp := HProp (λ h, h = ∅).
Local Definition hpure (φ : Prop) : hProp := HProp (λ _, φ).
Local Definition hand (P Q : hProp) : hProp :=
  HProp (λ h, hprop_holds P h /\ hprop_holds Q h).
Local Definition hor (P Q : hProp) : hProp :=
  HProp (λ h, hprop_holds P h \/ hprop_holds Q h).
Local Definition himpl (P Q : hProp) : hProp :=
  HProp (λ h, hprop_holds P h -> hprop_holds Q h).
Local Definition hforall {A} (Φ : A -> hProp) : hProp :=
  HProp (λ h, forall a, hprop_holds (Φ a) h).
Local Definition hexist {A} (Φ : A -> hProp) : hProp :=
  HProp (λ h, exists a, hprop_holds (Φ a) h).
Local Definition hsep (P Q : hProp) : hProp :=
  HProp (λ h, exists h1 h2, h = h1 ∪ h2 /\ h1 ##ₘ h2 /\
                            hprop_holds P h1 /\ hprop_holds Q h2).
Local Definition hwand (P Q : hProp) : hProp :=
  HProp (λ h, forall h', h ##ₘ h' -> hprop_holds P h' -> hprop_holds Q (h ∪ h')).
Local Definition hpersistently (P : hProp) : hProp := hpure (hentails hemp P).
End connectives.

Section mixins.
#[local] Existing Instance hprop_equiv.

Lemma hprop_bi_mixin :
  BiMixin hentails hemp hpure hand hor himpl (@hforall) (@hexist) hsep hwand.
Proof.
  split.
  - split; [by intros P; split | intros P Q R [H1] [H2]; split; auto].
  - intros P Q. split.
    + intros [E]. split; split; intros h; apply E.
    + intros [[H1] [H2]]. constructor. intros h. split; [apply H1 | apply H2].
  - intros n φ1 φ2 E. constructor. intros h. exact E.
  - intros n P P' [E1] Q Q' [E2]. constructor. intros h. cbn. by rewrite /hprop_holds /= E1 E2.
  - intros n P P' [E1] Q Q' [E2]. constructor. intros h. by rewrite /hprop_holds /= E1 E2.
  - intros n P P' [E1] Q Q' [E2]. constructor. intros h. by rewrite /hprop_holds /= E1 E2.
  - intros A n Φ Ψ E. constructor. intros h. split; intros H a; apply (E a), H.
  - intros A n Φ Ψ E. constructor. intros h. split; intros [a H]; exists a; apply (E a), H.
  - intros n P P' [E1] Q Q' [E2]. constructor. intros h.
    split; intros (h1 & h2 & ? & ? & ? & ?); exists h1, h2; repeat split; try done;
      by (apply E1 || apply E2).
  - intros n P P' [E1] Q Q' [E2]. constructor. intros h.
    split; intros H h' ? ?; apply E2, H; try done; by apply E1.
  - intros φ P Hφ. by split.
  - intros φ P H. split. intros h Hφ. by apply (H Hφ).
  - intros P Q. split. by intros h [H _].
  - intros P Q. split. by intros h [_ H].
  - intros P Q R [H1] [H2]. split. intros h HP. split; auto.
  - intros P Q. split. intros h H. by left.
  - intros P Q. split. intros h H. by right.
  - intros P Q R [H1] [H2]. split. intros h [H|H]; auto.
  - intros P Q R [H]. split. intros h HP HQ. by apply H.
  - intros P Q R [H]. split. intros h [HP HQ]. by apply (H h HP).
  - intros A P Ψ H. split. intros h HP a. by apply H.
  - intros A Ψ a. split. intros h H. apply H.
  - intros A Ψ a. split. intros h H. by exists a.
  - intros A Φ Q H. split. intros h [a Ha]. by apply (H a).
  - intros P P' Q Q' [H1] [H2]. split. intros h (h1 & h2 & ? & ? & ? & ?).
    exists h1, h2. repeat split; auto.
  - intros P. split. intros h HP. exists ∅, h. rewrite left_id_L.
    repeat split; try done. by apply map_disjoint_empty_l.
  - intros P. split. intros h (h1 & h2 & -> & ? & -> & ?). by rewrite left_id_L.
  - intros P Q. split. intros h (h1 & h2 & -> & Hd & ? & ?). exists h2, h1.
    rewrite map_union_comm //.
  - intros P Q R. split.
    intros h (h12 & h3 & -> & Hd & (h1 & h2 & -> & Hd' & ? & ?) & ?).
    apply map_disjoint_union_l in Hd as [? ?].
    exists h1, (h2 ∪ h3). rewrite assoc_L. repeat split; try done.
    { by apply map_disjoint_union_r. }
    exists h2, h3. done.
  - intros P Q R [H]. split. intros h HP h' ? HQ. apply H. exists h, h'. done.
  - intros P Q R [H]. split. intros h (h1 & h2 & -> & ? & ? & ?). by apply (H h1).
Qed.

Lemma hprop_bi_persistently_mixin :
  BiPersistentlyMixin hentails hemp hand (@hexist) hsep hpersistently.
Proof.
  eapply bi_persistently_mixin_discrete, hprop_bi_mixin; [done|..].
  - intros A Φ [H]. destruct (H ∅) as [a Ha]; [done|].
    exists a. split. by intros h ->.
  - done.
Qed.

Lemma hprop_bi_later_mixin :
  BiLaterMixin hentails hpure hor himpl (@hforall) (@hexist) hsep hpersistently id.
Proof. eapply bi_later_mixin_id, hprop_bi_mixin. done. Qed.
End mixins.

Canonical Structure hPropI : bi :=
  {| bi_ofe_mixin := ofe_mixin_of hProp;
     bi_bi_mixin := hprop_bi_mixin;
     bi_bi_persistently_mixin := hprop_bi_persistently_mixin;
     bi_bi_later_mixin := hprop_bi_later_mixin |}.

#[export] Instance hprop_pure_forall : BiPureForall hPropI.
Proof. intros A φ. split. intros h H a. exact (H a). Qed.

(** A pure fact that owns nothing. *)
Notation "⟪ φ ⟫" := (<affine> ⌜φ⌝)%I (at level 0, φ at level 200) : bi_scope.

(** Ownership of one object. *)
Definition obj_at (l : loc) (o : Obj) : hProp := HProp (λ h, h = {[l := o]}).
Notation "l ↦ p" := (obj_at l (OPiece p)) (at level 20) : bi_scope.
Notation "l ↦ₐ v" := (obj_at l (OAtomic v)) (at level 20) : bi_scope.
Notation "l ↦ₛ s" := (obj_at l (OString s)) (at level 20) : bi_scope.

(** ** Weakest preconditions *)
Definition no_error (_ : Error) : Prop := False.

Definition wp_post {A} (E : Error -> Prop) (Φ : A -> hProp) (s : Mem) (hf : heap)
    (r : Res A) : Prop :=
  match r with
  | Ok a s' =>
      mem_wf s' /\ m_ndebug s' = m_ndebug s /\ m_fill s' = m_fill s /\
      exists h', m_heap s' = h' ∪ hf /\ h' ##ₘ hf /\ hprop_holds (Φ a) h'
  | Err e => E e
  end.

Definition wp {A} (E : Error -> Prop) (m : M A) (Φ : A -> hProp) : hProp :=
  HProp (λ h, forall s hf, mem_wf s -> m_heap s = h ∪ hf -> h ##ₘ hf ->
              wp_post E Φ s hf (m s)).

(** A triple, in continuation form so that it can be used with [iApply]. *)
Notation "'{{' P '}}' m '{{' x , Q '}}'" :=
  (∀ Φ, P -∗ (bi_forall (λ x, Q -∗ Φ x)) -∗ wp no_error m Φ)
  (at level 20, x name, P at level 200, Q at level 200,
   format "'[hv' {{  P  }}  '/  ' m  '/' {{  x ,  Q  }} ']'") : stdpp_scope.

(** ** Rules *)
Section rules.
Context {A : Type}.
Implicit Types (E : Error -> Prop) (h hf : heap).

Lemma wp_ret E (a : A) (Φ : A -> hProp) : Φ a ⊢ wp E (mret a) Φ.
Proof. split. intros h HΦ s hf Hwf Hs Hd. repeat split; try done. by exists h. Qed.

Lemma wp_bind {B} E (m : M A) (f : A -> M B) (Φ : B -> hProp) :
  wp E m (λ a, wp E (f a) Φ) ⊢ wp E (m ≫= f) Φ.
Proof.
  split. intros h H s hf Hwf Hs Hd. specialize (H s hf Hwf Hs Hd).
  rewrite /mbind /M_bind. destruct (m s) as [a s'|e]; [|done].
  destruct H as (Hwf' & Hn & Hf & h' & Hs' & Hd' & HΦ).
  specialize (HΦ s' hf Hwf' Hs' Hd').
  destruct (f a s') as [b s''|e]; [|done]. cbn in *.
  destruct HΦ as (? & -> & -> & ?). done.
Qed.

Lemma wp_wand E (m : M A) (Φ Ψ : A -> hProp) :
  wp E m Φ ∗ (∀ a, Φ a -∗ Ψ a) ⊢ wp E m Ψ.
Proof.
  split. intros h (h1 & h2 & -> & Hd12 & H & HW) s hf Hwf Hs Hd.
  apply map_disjoint_union_l in Hd as [Hd1 Hd2].
  specialize (H s (h2 ∪ hf) Hwf).
  rewrite -assoc_L in Hs. specialize (H Hs).
  assert (h1 ##ₘ h2 ∪ hf) as Hd by by apply map_disjoint_union_r.
  specialize (H Hd). destruct (m s) as [a s'|e]; [|done].
  destruct H as (? & ? & ? & h1' & Hs' & Hd' & HΦ).
  apply map_disjoint_union_r in Hd' as [? ?].
  repeat split; try done. exists (h2 ∪ h1').
  repeat split.
  - rewrite Hs' assoc_L (map_union_comm h1' h2) //.
  - by apply map_disjoint_union_l.
  - by apply (HW a h1').
Qed.

Lemma wp_error_mono E E' (m : M A) (Φ : A -> hProp) :
  (forall e, E e -> E' e) -> wp E m Φ ⊢ wp E' m Φ.
Proof.
  intros HE. split. intros h H s hf Hwf Hs Hd. specialize (H s hf Hwf Hs Hd).
  destruct (m s); [done | by apply HE].
Qed.

Lemma wp_throw E e (P : hProp) (Φ : A -> hProp) : E e -> P ⊢ wp E (throw e) Φ.
Proof. intros He. split. intros h _ s hf Hwf Hs Hd. exact He. Qed.
End rules.

Lemma wp_assert E b (Φ : unit -> hProp) : b = true -> Φ tt ⊢ wp E (assert_ b) Φ.
Proof.
  intros ->. split. intros h HΦ s hf Hwf Hs Hd. repeat split; try done. by exists h.
Qed.

Lemma wp_deref E l (Φ : loc -> hProp) : Φ l ⊢ wp E (deref (Some l)) Φ.
Proof. apply wp_ret. Qed.

Lemma obj_at_holds l o h : hprop_holds (obj_at l o) h -> h = {[l := o]}.
Proof. intros H. exact H. Qed.

(** Splitting an owned object off the heap of a [wp] goal. *)
Lemma obj_at_split l o (Q : hProp) h :
  hprop_holds (obj_at l o ∗ Q)%I h ->
  exists h2, h = <[l := o]> h2 /\ h2 !! l = None /\ hprop_holds Q h2.
Proof.
  intros (h1 & h2 & -> & Hd & H1 & HQ). rewrite (obj_at_holds _ _ _ H1) in Hd |- *.
  apply map_disjoint_singleton_l in Hd.
  exists h2. by rewrite -insert_union_singleton_l.
Qed.

Lemma obj_at_join l o (Q : hProp) h2 :
  h2 !! l = None -> hprop_holds Q h2 ->
  hprop_holds (obj_at l o ∗ Q)%I (<[l := o]> h2).
Proof.
  intros Hl HQ. exists {[l := o]}, h2. rewrite insert_union_singleton_l.
  repeat split; try done. by apply map_disjoint_singleton_l.
Qed.

(** A step that only inspects an owned object. *)
Lemma wp_read_step {A} E (m : M A) l o a (Φ : A -> hProp) :
  (forall s, m_heap s !! l = Some o -> m s = Ok a s) ->
  obj_at l o ∗ (obj_at l o -∗ Φ a) ⊢ wp E m Φ.
Proof.
  intros Hm. split. intros h H s hf Hwf Hs Hd.
  destruct H as (h1 & h2 & -> & Hd' & H1 & HW).
  rewrite Hm.
  - repeat split; try done. exists (h1 ∪ h2). repeat split; try done.
    rewrite map_union_comm //. by apply HW.
  - rewrite Hs (obj_at_holds _ _ _ H1) -assoc_L.
    apply lookup_union_Some_l. by simplify_map_eq.
Qed.

(** A step that replaces an owned object. *)
Lemma wp_write_step {A} E (m : M A) l o o' a (Φ : A -> hProp) :
  (forall s, m_heap s !! l = Some o ->
     m s = Ok a (set_heap s (<[l := o']> (m_heap s)))) ->
  obj_at l o ∗ (obj_at l o' -∗ Φ a) ⊢ wp E m Φ.
Proof.
  intros Hm. split. intros h H s hf Hwf Hs Hd.
  apply obj_at_split in H as (h2 & -> & Hl & HW).
  assert (m_heap s !! l = Some o) as Hl'.
  { rewrite Hs. apply lookup_union_Some_l. by simplify_map_eq. }
  rewrite Hm //. split_and!; try done.
  - intros l' Hle. cbn. destruct (decide (l = l')) as [<-|].
    + rewrite Hwf // in Hl'.
    + rewrite lookup_insert_ne //. by apply Hwf.
  - apply map_disjoint_insert_l in Hd as [? ?].
    exists (<[l := o']> h2). cbn. split_and!.
    + by rewrite Hs insert_union_l insert_insert_eq -insert_union_l.
    + by apply map_disjoint_insert_l.
    + rewrite insert_union_singleton_r //. apply HW; [|done].
      by apply map_disjoint_singleton_r.
Qed.

Lemma wp_load E l p (Φ : Piece -> hProp) :
  l ↦ p -∗ (l ↦ p -∗ Φ p) -∗ wp E (load l) Φ.
Proof.
  iIntros "H HΦ". iApply (wp_read_step _ _ l (OPiece p)).
  { intros s Hl. rewrite /load Hl //. }
  iFrame.
Qed.

Lemma wp_store E l p p' (Φ : unit -> hProp) :
  l ↦ p -∗ (l ↦ p' -∗ Φ tt) -∗ wp E (store l p') Φ.
Proof.
  iIntros "H HΦ". iApply (wp_write_step _ _ l (OPiece p) (OPiece p')).
  { intros s Hl. rewrite /store Hl //. }
  iFrame.
Qed.

(** A step that deletes an owned object. *)
Lemma wp_delete_step {A} E (m : M A) l o a (Φ : A -> hProp) :
  (forall s, m_heap s !! l = Some o -> m s = Ok a (set_heap s (delete l (m_heap s)))) ->
  obj_at l o ∗ Φ a ⊢ wp E m Φ.
Proof.
  intros Hm. split. intros h H s hf Hwf Hs Hd.
  apply obj_at_split in H as (h2 & -> & Hl & HΦ).
  assert (m_heap s !! l = Some o) as Hl'.
  { rewrite Hs. apply lookup_union_Some_l. by simplify_map_eq. }
  rewrite Hm //. apply map_disjoint_insert_l in Hd as [? ?].
  split_and!; try done.
  - intros l' Hle. cbn. apply lookup_delete_None. right. by apply Hwf.
  - exists h2. cbn. split_and!; try done.
    rewrite Hs delete_union delete_insert_id // delete_id //.
Qed.

(** A step that makes an object at the next location. *)
Lemma wp_new_step E (m : M loc) (o : Mem -> Obj) (Φ : loc -> hProp) :
  (forall s, m s = Ok (m_next s)
     (mkMem (<[m_next s := o s]> (m_heap s)) (Pos.succ (m_next s)) (m_fill s) (m_ndebug s))) ->
  (∀ l s, obj_at l (o s) -∗ Φ l) ⊢ wp E m Φ.
Proof.
  intros Hm. split. intros h HΦ s hf Hwf Hs Hd.
  assert (m_heap s !! m_next s = None) as Hl by (apply Hwf; lia).
  rewrite Hs in Hl. apply lookup_union_None in Hl as [Hl1 Hl2]. rewrite Hm.
  split_and!; try done.
  - intros l Hle. cbn in *. rewrite lookup_insert_ne; [|lia]. apply Hwf. lia.
  - exists (<[m_next s := o s]> h). cbn. split_and!.
    + by rewrite Hs insert_union_l.
    + by apply map_disjoint_insert_l.
    + rewrite insert_union_singleton_r //. apply (HΦ (m_next s) s).
      * by apply map_disjoint_singleton_r.
      * done.
Qed.

Lemma wp_delete_Piece E l p (Φ : unit -> hProp) :
  l ↦ p -∗ Φ tt -∗ wp E (delete_Piece l) Φ.
Proof.
  iIntros "H HΦ". iApply (wp_delete_step _ _ l (OPiece p)).
  { intros s Hl. rewrite /delete_Piece Hl //. }
  iFrame.
Qed.

Lemma wp_load_pool E q (Φ : PiecePool -> hProp) :
  obj_at pool_loc (OPool q) -∗ (obj_at pool_loc (OPool q) -∗ Φ q) -∗ wp E load_pool Φ.
Proof.
  iIntros "H HΦ". iApply (wp_read_step _ _ pool_loc (OPool q)).
  { intros s Hl. rewrite /load_pool Hl //. }
  iFrame.
Qed.

Lemma wp_store_pool E q q' (Φ : unit -> hProp) :
  obj_at pool_loc (OPool q) -∗ (obj_at pool_loc (OPool q') -∗ Φ tt) -∗
  wp E (store_pool q') Φ.
Proof.
  iIntros "H HΦ". iApply (wp_write_step _ _ pool_loc (OPool q) (OPool q')).
  { intros s Hl. rewrite /store_pool Hl //. }
  iFrame.
Qed.

Lemma wp_new_Piece E (Φ : loc -> hProp) :
  (∀ l s, l ↦ fresh_piece s -∗ Φ l) ⊢ wp E new_Piece Φ.
Proof. by apply (wp_new_step E new_Piece (λ s, OPiece (fresh_piece s))). Qed.

Lemma wp_new_atomic E v (Φ : loc -> hProp) : (∀ l, l ↦ₐ v -∗ Φ l) ⊢ wp E (new_atomic v) Φ.
Proof. iIntros "HΦ". iApply (wp_new_step E _ (λ _, OAtomic v)); [done|]. iIntros (l _). iApply "HΦ". Qed.

Lemma wp_new_string E v (Φ : loc -> hProp) : (∀ l, l ↦ₛ v -∗ Φ l) ⊢ wp E (new_string v) Φ.
Proof. iIntros "HΦ". iApply (wp_new_step E _ (λ _, OString v)); [done|]. iIntros (l _). iApply "HΦ". Qed.

Lemma wp_load_string E l v (Φ : list Z -> hProp) :
  l ↦ₛ v -∗ (l ↦ₛ v -∗ Φ v) -∗ wp E (load_string l) Φ.
Proof.
  iIntros "H HΦ". iApply (wp_read_step _ _ l (OString v)).
  { intros s Hl. rewrite /load_string Hl //. }
  iFrame.
Qed.

Lemma wp_store_string E l v v' (Φ : unit -> hProp) :
  l ↦ₛ v -∗ (l ↦ₛ v' -∗ Φ tt) -∗ wp E (store_string l v') Φ.
Proof.
  iIntros "H HΦ". iApply (wp_write_step _ _ l (OString v) (OString v')).
  { intros s Hl. rewrite /store_string Hl //. }
  iFrame.
Qed.

Lemma wp_delete_string E l v (Φ : unit -> hProp) :
  l ↦ₛ v -∗ Φ tt -∗ wp E (delete_string l) Φ.
Proof.
  iIntros "H HΦ". iApply (wp_delete_step _ _ l (OString v)).
  { intros s Hl. rewrite /delete_string Hl //. }
  iFrame.
Qed.

(** Two owned objects are distinct. *)
Lemma obj_at_ne l1 l2 o1 o2 : obj_at l1 o1 ∗ obj_at l2 o2 ⊢ ⟪l1 <> l2⟫ ∗ obj_at l1 o1 ∗ obj_at l2 o2.
Proof.
  split. intros h (h1 & h2 & -> & Hd & H1 & H2).
  assert (l1 <> l2) as Hne.
  { intros ->. rewrite (obj_at_holds _ _ _ H1) (obj_at_holds _ _ _ H2) in Hd.
    apply map_disjoint_singleton_l in Hd. by simplify_map_eq. }
  exists ∅, (h1 ∪ h2). rewrite left_id_L. split_and!; [done|apply map_disjoint_empty_l| |].
  - by split.
  - exists h1, h2. done.
Qed.

Lemma wp_load_atomic E l v (Φ : Z -> hProp) :
  l ↦ₐ v -∗ (l ↦ₐ v -∗ Φ v) -∗ wp E (load_atomic l) Φ.
Proof.
  iIntros "H HΦ". iApply (wp_read_step _ _ l (OAtomic v)).
  { intros s Hl. rewrite /load_atomic Hl //. }
  iFrame.
Qed.

Lemma wp_store_atomic E l v v' (Φ : unit -> hProp) :
  l ↦ₐ v -∗ (l ↦ₐ v' -∗ Φ tt) -∗ wp E (store_atomic l v') Φ.
Proof.
  iIntros "H HΦ". iApply (wp_write_step _ _ l (OAtomic v) (OAtomic v')).
  { intros s Hl. rewrite /store_atomic Hl //. }
  iFrame.
Qed.

Lemma wp_fetch_add E wrap l v d (Φ : Z -> hProp) :
  l ↦ₐ v -∗ (l ↦ₐ wrap (v + d) -∗ Φ v) -∗ wp E (fetch_add wrap l d) Φ.
Proof.
  iIntros "H HΦ". iApply wp_bind. iApply (wp_load_atomic with "H"). iIntros "H".
  iApply wp_bind. iApply (wp_store_atomic with "H"). iIntros "H". iApply wp_ret. by iApply "HΦ".
Qed.

Lemma wp_memcpy_from E p pos n (Φ : list Z -> hProp) :
  0 <= pos -> 0 <= n -> pos + n <= zlen (p_data p) ->
  Φ (slice pos n (p_data p)) ⊢ wp E (memcpy_from p pos n) Φ.
Proof.
  intros. rewrite /memcpy_from.
  rewrite (proj2 (Z.leb_le _ _)) // (proj2 (Z.leb_le _ _)) // (proj2 (Z.leb_le _ _)) //.
  apply wp_ret.
Qed.

Lemma wp_memcpy_to E p pos bs (Φ : Piece -> hProp) :
  0 <= pos -> pos + zlen bs <= zlen (p_data p) ->
  Φ (set_data p (splice pos bs (p_data p))) ⊢ wp E (memcpy_to p pos bs) Φ.
Proof.
  intros. rewrite /memcpy_to.
  rewrite (proj2 (Z.leb_le _ _)) // (proj2 (Z.leb_le _ _)) //.
  apply wp_ret.
Qed.

(** Owning [n] objects bounds the size of the heap from below. *)
Lemma owned_size (ls : list loc) h :
  hprop_holds ([∗ list] l ∈ ls, ∃ o, obj_at l o)%I h -> (length ls <= size h)%nat.
Proof.
  revert h. induction ls as [|l ls IH]; intros h H; [cbn; lia|].
  destruct H as (h1 & h2 & -> & Hd & [o H1] & H2).
  rewrite (obj_at_holds _ _ _ H1) in Hd |- *.
  rewrite map_size_disj_union // map_size_singleton.
  apply IH in H2. cbn. lia.
Qed.

Lemma wp_mem_bound E (ls : list loc) (P : hProp) (Φ : nat -> hProp) :
  (P ⊢ ([∗ list] l ∈ ls, ∃ o, obj_at l o) ∗ True) ->
  P -∗ (∀ n, ⟪(length ls < n)%nat⟫ -∗ P -∗ Φ n) -∗ wp E mem_bound Φ.
Proof.
  intros HP. apply bi.entails_wand, bi.wand_intro_r. split.
  intros h H s hf Hwf Hs Hd.
  assert (length ls < S (size (m_heap s)))%nat as Hb.
  { destruct H as (h1 & h2 & -> & Hd' & H1 & H2).
    apply HP in H1 as (h11 & h12 & -> & Hd'' & H1 & _).
    apply owned_size in H1. rewrite Hs.
    rewrite map_size_disj_union // map_size_disj_union // map_size_disj_union //.
    lia. }
  assert ((P ∗ (∀ n, ⟪(length ls < n)%nat⟫ -∗ P -∗ Φ n))
            ⊢ Φ (S (size (m_heap s))))%I as HΦ.
  { iIntros "[HP H]". iApply ("H" with "[] HP"). by iPureIntro. }
  split_and!; try done. exists h. split_and!; try done. by apply HΦ.
Qed.

(** Owned pieces are distinct and live. *)
Lemma owned_pieces (ls : list loc) h :
  hprop_holds ([∗ list] l ∈ ls, ∃ p, l ↦ p)%I h ->
  NoDup ls /\ (forall l, l ∈ ls -> exists p, h !! l = Some (OPiece p)) /\
  (forall l, l ∉ ls -> h !! l = None).
Proof.
  revert h. induction ls as [|l ls IH]; intros h H.
  - rewrite (H : h = ∅). split_and!; [constructor|set_solver|done].
  - destruct H as (h1 & h2 & -> & Hd & [p H1] & H2).
    rewrite (obj_at_holds _ _ _ H1) in Hd |- *. apply map_disjoint_singleton_l in Hd.
    apply IH in H2 as (Hnd & Hin & Hout). rewrite -insert_union_singleton_l. split_and!.
    + constructor; [|done]. intros Hl. destruct (Hin l Hl) as [p' Hp']. congruence.
    + intros l' Hl'. destruct (decide (l' = l)) as [->|]; [exists p; by simplify_map_eq|].
      rewrite lookup_insert_ne //. apply Hin. set_solver.
    + intros l' Hl'. rewrite lookup_insert_ne; [|set_solver]. apply Hout. set_solver.
Qed.

(** ** Adequacy: a [wp] is a statement about running the model. *)
Lemma wp_adequacy {A} E (m : M A) (P : hProp) (Φ : A -> hProp) s h hf :
  (P ⊢ wp E m Φ) ->
  mem_wf s -> m_heap s = h ∪ hf -> h ##ₘ hf -> hprop_holds P h ->
  wp_post E Φ s hf (m s).
Proof. intros [H] ?? ? ?. by eapply H. Qed.

(** A memory in which [P] is owned, next to whatever else there is. *)
Definition owns (s : Mem) (P : hProp) : Prop :=
  mem_wf s /\ exists h hf, m_heap s = h ∪ hf /\ h ##ₘ hf /\ hprop_holds P h.

Lemma owns_run {A} (m : M A) (P : hProp) (Φ : A -> hProp) s :
  owns s P -> (P ⊢ wp no_error m Φ) -> exists a s', m s = Ok a s' /\ owns s' (Φ a).
Proof.
  intros (Hwf & h & hf & Hs & Hd & HP) Hm. pose proof (wp_adequacy _ _ _ _ s h hf Hm Hwf Hs Hd HP) as Hpost.
  destruct (m s) as [a s'|e]; [|done]. destruct Hpost as (Hwf' & _ & _ & h' & Hs' & Hd' & HΦ).
  exists a, s'. split; [done|]. split; [done|]. by exists h', hf.
Qed.

Lemma owns_mono s (P Q : hProp) : (P ⊢ Q) -> owns s P -> owns s Q.
Proof. intros [HPQ] (Hwf & h & hf & Hs & Hd & HP). split; [done|]. exists h, hf. auto. Qed.

Lemma owns_exist {A} s (Φ : A -> hProp) : owns s (∃ x, Φ x)%I -> exists x, owns s (Φ x).
Proof. intros (Hwf & h & hf & Hs & Hd & [x Hx]). exists x. split; [done|]. by exists h, hf. Qed.

Lemma owns_pure s (φ : Prop) (P : hProp) : owns s (⟪φ⟫ ∗ P)%I -> φ /\ owns s P.
Proof.
  intros (Hwf & h & hf & Hs & Hd & h1 & h2 & -> & Hd' & [H1 Hφ] & HP). split; [exact Hφ|].
  rewrite (H1 : h1 = ∅) left_id_L in Hs Hd. split; [done|]. by exists h2, hf.
Qed.

Lemma owns_lookup s l o (P : hProp) : owns s (obj_at l o ∗ P)%I -> m_heap s !! l = Some o.
Proof.
  intros (Hwf & h & hf & -> & Hd & HP). apply obj_at_split in HP as (h2 & -> & _ & _).
  apply lookup_union_Some_l. by simplify_map_eq.
Qed.

(** ** One build

    [wp] is about Debug and Release builds at once; [wp_build ndebug] is [wp] for
    one of them, where a failing [assert] can be told from one that is compiled
    out. *)
Definition wp_build {A} (ndebug : bool) (E : Error -> Prop) (m : M A) (Φ : A -> hProp) : hProp :=
  HProp (λ h, forall s hf, mem_wf s -> m_ndebug s = ndebug -> m_heap s = h ∪ hf -> h ##ₘ hf ->
              wp_post E Φ s hf (m s)).

Section build.
Context {A : Type} (ndebug : bool).

Lemma wp_build_any E (m : M A) (Φ : A -> hProp) : wp no_error m Φ ⊢ wp_build ndebug E m Φ.
Proof.
  split. intros h H s hf Hwf _ Hs Hd. specialize (H s hf Hwf Hs Hd). by destruct (m s).
Qed.

Lemma wp_build_bind {B} E (m : M A) (f : A -> M B) (Φ : B -> hProp) :
  wp_build ndebug E m (λ a, wp_build ndebug E (f a) Φ) ⊢ wp_build ndebug E (m ≫= f) Φ.
Proof.
  split. intros h H s hf Hwf Hn Hs Hd. specialize (H s hf Hwf Hn Hs Hd).
  rewrite /mbind /M_bind. destruct (m s) as [a s'|e]; [|done].
  destruct H as (Hwf' & Hn' & Hf & h' & Hs' & Hd' & HΦ).
  specialize (HΦ s' hf Hwf' (eq_trans Hn' Hn) Hs' Hd').
  destruct (f a s') as [b s''|e]; [|done]. cbn in *.
  destruct HΦ as (? & -> & -> & ?). done.
Qed.

Lemma wp_build_assert E b (Φ : unit -> hProp) :
  (b = false -> ndebug = false -> E AssertionFailed) -> Φ tt ⊢ wp_build ndebug E (assert_ b) Φ.
Proof.
  intros Hb. split. intros h HΦ s hf Hwf Hn Hs Hd. rewrite /assert_ Hn.
  destruct b; cbn; [|destruct ndebug; [|by apply Hb]]; repeat split; try done; by exists h.
Qed.

Lemma owns_run_build E (m : M A) (P : hProp) (Φ : A -> hProp) s :
  owns s P -> m_ndebug s = ndebug -> (P ⊢ wp_build ndebug E m Φ) ->
  match m s with Ok a s' => owns s' (Φ a) | Err e => E e end.
Proof.
  intros (Hwf & h & hf & Hs & Hd & HP) Hn [Hm]. specialize (Hm h HP s hf Hwf Hn Hs Hd).
  destruct (m s) as [a s'|e]; [|done]. destruct Hm as (Hwf' & _ & _ & h' & Hs' & Hd' & HΦ).
  split; [done|]. by exists h', hf.
Qed.
End build.

(** ** Proof automation

    [wp_bind] focuses the first command of a sequence, [wp_pures] runs the
    commands that do not touch the heap. *)
Ltac wp_bind := iApply wp_bind.
Ltac wp_ret := iApply wp_ret.
Ltac wp_assert_true := iApply wp_assert; [first [done | lia | idtac]|].
Tactic Notation "wp_load" constr(H) :=
  iApply (wp_load with H); iIntros H.
Tactic Notation "wp_store" constr(H) :=
  iApply (wp_store with H); iIntros H.
