(* ===== verification/Piece.v ===== *)
(** * Pieces: the intrusive queue and the allocator

    [netpp/net/piece/queue.h] ([Queue<Piece>]: a singly linked queue threaded
    through the pieces' own [next] fields) and
    [netpp/net/piece/piece_allocator.cpp] ([PiecePool]: a cache of pieces
    bounded by the number of pieces in use).

    [queue_rep q ls] says that the object [q] represents the sequence [ls];
    [pool u] says that the pool is in a consistent state with [u] pieces handed
    out.  The theorems show that [push] and [pop] refine the operations on
    sequences, and that [newPiece] and [deletePiece] account for every piece. *)

From stdpp Require Import base tactics list numbers gmap.
From iris.proofmode Require Import proofmode.
From Stdlib Require Import ZArith Lia.
From S2P Require Import Prelude Machine HeapLogic.

(** ** Operations of [Queue] *)

(** [Queue()] *)
Definition queue_new : Queue := mkQueue None None 0.

Definition empty (q : Queue) : bool := size_ q =? 0.
Definition front (q : Queue) : ptr := head_ q.
Definition back (q : Queue) : ptr := tail_ q.

Definition push (q : Queue) (item : ptr) : M Queue :=
  assert_ (bool_decide (item ≠ None));;
  l ← deref item;
  p ← load l;
  store l (set_next p None);;
  head' ← match tail_ q with
          | Some t => tp ← load t; store t (set_next tp (Some l));; mret (head_ q)
          | None => assert_ (bool_decide (head_ q = None));; mret (Some l)
          end;
  mret (mkQueue head' (Some l) (wrap32 (size_ q + 1))).

Definition pop (q : Queue) : M (ptr * Queue) :=
  match head_ q with
  | Some h =>
      p ← load h;
      let head' := p_next p in
      let tail' := match head' with None => None | Some _ => tail_ q end in
      mret (Some h, mkQueue head' tail' (wrap32 (size_ q - 1)))
  | None => mret (None, q)
  end.

(** [Queue::size()] *)
Definition queue_size (q : Queue) : Z := size_ q.

(** ** Operations of [PiecePool] *)
Definition MAX_DELETE_ONCE : Z := 8.
Definition BASE_CACHE_COUNT : Z := 8.

(** [item->next = nullptr; item->off = 0; item->len = 0;] *)
Definition reset_piece (l : loc) : M unit :=
  p ← load l;
  store l (set_len (set_off (set_next p None) 0) 0).

Definition newPiece : M loc :=
  pool ← load_pool;
  let using_count := wrap32 (using_count_ pool + 1) in
  '(item, q) ← pop (queue_ pool);
  store_pool (mkPool q using_count);;
  match item with
  | Some l => reset_piece l;; mret l
  | None => l ← new_Piece; reset_piece l;; mret l
  end.

(** [delete p]: deleting a null pointer does nothing. *)
Definition delete_ptr (p : ptr) : M unit :=
  match p with
  | Some l => delete_Piece l
  | None => mret tt
  end.

Fixpoint delete_ptrs (ps : list ptr) : M unit :=
  match ps with
  | [] => mret tt
  | p :: ps => delete_ptr p;; delete_ptrs ps
  end.

(** [n] times [queue_.pop()] *)
Fixpoint pop_n (n : nat) (q : Queue) : M (list ptr * Queue) :=
  match n with
  | O => mret ([], q)
  | S n =>
      '(item, q) ← pop q;
      '(items, q) ← pop_n n q;
      mret (item :: items, q)
  end.

Definition deletePiece (item : ptr) : M unit :=
  pool ← load_pool;
  let using_count := wrap32 (using_count_ pool - 1) in
  let limit := wrap32 (using_count + BASE_CACHE_COUNT) in
  let q := queue_ pool in
  if size_ q <? limit then
    q ← push q item;
    store_pool (mkPool q using_count)
  else
    let del_count := wrap32 (size_ q - limit + 1) in
    let del_count := if MAX_DELETE_ONCE <? del_count then MAX_DELETE_ONCE else del_count in
    '(popped, q) ← pop_n (Z.to_nat (del_count - 1)) q;
    store_pool (mkPool q using_count);;
    delete_ptrs (take (Z.to_nat del_count) (item :: popped)).

(** [while (!queue_.empty()) delete queue_.pop();] *)
Fixpoint drain (fuel : nat) (q : Queue) : M Queue :=
  match fuel with
  | O => throw OutOfFuel
  | S fuel =>
      if empty q then mret q
      else '(item, q) ← pop q; delete_ptr item;; drain fuel q
  end.

(** [PiecePool::clear()] *)
Definition pool_clear : M unit :=
  pool ← load_pool;
  fuel ← mem_bound;
  q ← drain fuel (queue_ pool);
  store_pool (mkPool q (using_count_ pool)).

(** [~PiecePool()], at the exit of the process. *)
Definition PiecePool_destroy : M unit := pool_clear.

(** ** Representation *)
Abbreviation cells := (list (loc * Piece)).

(** A chain of pieces from [hd] to [tl]; the [p_next] field of the listed
    pieces is immaterial. *)
Fixpoint lseg (hd : ptr) (ls : cells) (tl : ptr) : hProp :=
  match ls with
  | [] => ⟪hd = tl⟫
  | (l, p) :: ls => ⟪hd = Some l⟫ ∗ ∃ nx, l ↦ set_next p nx ∗ lseg nx ls tl
  end%I.

Definition queue_rep (q : Queue) (ls : cells) : hProp :=
  (lseg (head_ q) ls None ∗ ⟪tail_ q = last ls.*1⟫ ∗ ⟪size_ q = wrap32 (zlen ls)⟫)%I.

(** The bytes array of a piece, whatever its window. *)
Definition data_ok (p : Piece) : Prop :=
  zlen (p_data p) = kPieceCapacity /\ Forall is_byte (p_data p).

(** A bound on the pieces there are, in use or cached.  With at most
    [2 ^ 32 - 9] of them [using_count_ + BASE_CACHE_COUNT] does not overflow its
    32 bits; a client that knows how many pieces it uses at the peak can prove
    its theorems with that bound. *)
Class Peak := mkPeak {
  kMaxUsing : Z;
  kMaxUsing_le : 0 <= kMaxUsing <= 2 ^ 32 - 9
}.

#[export] Instance any_peak : Peak | 100.
Proof. refine (mkPeak (2 ^ 32 - 9) _). done. Defined.

(** The pool caches [ls] and has handed out [u] pieces; it never caches more
    than [u + BASE_CACHE_COUNT], and a piece is only made when none is cached. *)
Definition pool_rep `{Peak} (ls : cells) (u : Z) : hProp :=
  (∃ q, obj_at pool_loc (OPool (mkPool q u)) ∗ queue_rep q ls ∗
        ⟪Forall data_ok ls.*2 /\ zlen ls <= u + BASE_CACHE_COUNT /\ 0 <= u /\ zlen ls + u <= kMaxUsing⟫)%I.

Definition pool `{Peak} (u : Z) : hProp := (∃ ls, pool_rep ls u)%I.

(** A piece as [newPiece] returns it. *)
Definition empty_piece (p : Piece) : Prop :=
  p_next p = None /\ p_off p = 0 /\ p_len p = 0 /\ data_ok p.

Lemma empty_piece_wf p : empty_piece p -> piece_wf p.
Proof.
  intros (_ & Ho & Hl & ? & ?). rewrite /piece_wf Ho Hl kPieceCapacity_eq.
  repeat split; try done; lia.
Qed.

Lemma piece_wf_data p : piece_wf p -> data_ok p.
Proof. intros (? & ? & _). done. Qed.

#[export] Hint Resolve empty_piece_wf piece_wf_data : netpp.

(** ** Chains *)
Lemma lseg_app hd ls1 ls2 tl :
  lseg hd (ls1 ++ ls2) tl ⊣⊢ ∃ mid, lseg hd ls1 mid ∗ lseg mid ls2 tl.
Proof.
  revert hd. induction ls1 as [|[l p] ls1 IH]; intros hd; cbn.
  - iSplit.
    + iIntros "H". iExists hd. by iFrame.
    + iIntros "(%mid & -> & $)".
  - setoid_rewrite IH. iSplit.
    + iIntros "(-> & %nx & Hl & %mid & H1 & H2)". iExists mid. iFrame. done.
    + iIntros "(%mid & (-> & %nx & Hl & H1) & H2)". iSplitR; [done|].
      iExists nx. iFrame.
Qed.

Lemma lseg_snoc hd ls l p tl :
  lseg hd (ls ++ [(l, p)]) tl ⊣⊢ lseg hd ls (Some l) ∗ l ↦ set_next p tl.
Proof.
  rewrite lseg_app. cbn. iSplit.
  - iIntros "(%mid & H1 & -> & %nx & Hl & ->)". iFrame.
  - iIntros "[H1 Hl]". iExists (Some l). iFrame. done.
Qed.

Lemma lseg_owned hd ls tl :
  lseg hd ls tl ⊢ [∗ list] l ∈ ls.*1, ∃ o, obj_at l o.
Proof.
  revert hd. induction ls as [|[l p] ls IH]; intros hd; cbn.
  - by iIntros "_".
  - iIntros "(_ & %nx & Hl & H)". iFrame "Hl". by iApply IH.
Qed.

Lemma lseg_pieces hd ls tl : lseg hd ls tl ⊢ [∗ list] l ∈ ls.*1, ∃ p, l ↦ p.
Proof.
  revert hd. induction ls as [|[l p] ls IH]; intros hd; cbn.
  - by iIntros "_".
  - iIntros "(_ & %nx & Hl & H)". iFrame "Hl". by iApply IH.
Qed.

Lemma set_next_next p n n' : set_next (set_next p n) n' = set_next p n'.
Proof. done. Qed.

Lemma last_snoc_fst (ls : cells) l p : last (ls ++ [(l, p)]).*1 = Some l.
Proof. by rewrite fmap_app last_snoc. Qed.

(** ** [Queue] refines sequences *)
Lemma queue_rep_nil : ⊢ queue_rep queue_new [].
Proof. rewrite /queue_rep. cbn. iSplit; [done|]. by iSplit. Qed.

Lemma queue_rep_front q ls :
  queue_rep q ls ⊢ ⟪front q = head ls.*1⟫ ∗ queue_rep q ls.
Proof.
  rewrite /queue_rep /front. destruct ls as [|[l p] ls]; cbn.
  - iIntros "(-> & $)". by iSplit.
  - iIntros "((-> & H) & $)". iFrame. by iSplit.
Qed.

Lemma push_spec q ls l p :
  {{ queue_rep q ls ∗ l ↦ p }} push q (Some l) {{ q', queue_rep q' (ls ++ [(l, p)]) }}.
Proof.
  iIntros (Φ) "[(Hs & %Ht & %Hz) Hl] HΦ". rewrite /push.
  wp_bind. wp_assert_true. wp_bind. iApply wp_deref.
  wp_bind. wp_load "Hl". wp_bind. wp_store "Hl". wp_bind.
  assert (wrap32 (size_ q + 1) = wrap32 (zlen (ls ++ [(l, p)]))) as Hz'.
  { rewrite Hz zlen_app wrap_add_l. f_equal. }
  destruct ls as [|[t tp] ls _] using rev_ind.
  - cbn in Ht |- *. iDestruct "Hs" as "%Hh". rewrite Ht Hh.
    wp_bind. wp_assert_true. wp_ret. wp_ret. iApply "HΦ".
    rewrite /queue_rep /=. iFrame. iSplit; [done|]. by iSplit; iPureIntro.
  - rewrite last_snoc_fst in Ht. rewrite Ht lseg_snoc.
    iDestruct "Hs" as "[Hs Ht]".
    wp_bind. wp_load "Ht". wp_bind. wp_store "Ht". wp_ret. wp_ret. iApply "HΦ".
    rewrite /queue_rep /= lseg_snoc lseg_snoc set_next_next last_snoc_fst. iFrame.
    by iSplit; iPureIntro.
Qed.

Lemma pop_cons_spec q l p ls :
  {{ queue_rep q ((l, p) :: ls) }} pop q
  {{ r, ∃ q' nx, ⟪r = (Some l, q')⟫ ∗ l ↦ set_next p nx ∗ queue_rep q' ls }}.
Proof.
  iIntros (Φ) "(Hs & %Ht & %Hz) HΦ". rewrite /pop /=.
  iDestruct "Hs" as "(-> & %nx & Hl & Hs)".
  wp_bind. wp_load "Hl". wp_ret. iApply "HΦ". iExists _, nx. iFrame "Hl".
  iSplitR; [done|]. rewrite /queue_rep.
  assert (wrap32 (size_ q - 1) = wrap32 (zlen ls)) as Hz'.
  { rewrite Hz zlen_cons wrap_sub_l. f_equal. lia. }
  destruct ls as [|[l' p'] ls]; cbn in Ht |- *.
  - iDestruct "Hs" as "->". iSplit; [done|]. by iSplit; iPureIntro.
  - iDestruct "Hs" as "(-> & Hs)". iFrame. iSplitR; [done|]. by iSplit; iPureIntro.
Qed.

Lemma pop_nil_spec q :
  {{ queue_rep q [] }} pop q {{ r, ⟪r = (None, q)⟫ ∗ queue_rep q [] }}.
Proof.
  iIntros (Φ) "(Hs & %Ht & %Hz) HΦ". rewrite /pop /=. iDestruct "Hs" as "%Hh".
  rewrite Hh. wp_ret. iApply "HΦ". iSplit; [done|]. rewrite /queue_rep /=.
  repeat (iSplit; [by iPureIntro|]). by iPureIntro.
Qed.

(** Pieces taken out of a chain. *)
Definition loose (ls : cells) : hProp :=
  ([∗ list] lp ∈ ls, ∃ nx, lp.1 ↦ set_next lp.2 nx)%I.

Lemma pop_n_spec n q ls : (n <= length ls)%nat ->
  {{ queue_rep q ls }} pop_n n q
  {{ r, ∃ q', ⟪r = (Some <$> (take n ls).*1, q')⟫ ∗ loose (take n ls) ∗
              queue_rep q' (drop n ls) }}.
Proof.
  revert q ls. induction n as [|n IH]; intros q ls Hn Φ; iIntros "Hq HΦ"; cbn [pop_n].
  - wp_ret. iApply "HΦ". iExists q. rewrite drop_0. iFrame.
    iSplit; [done|]. by rewrite /loose.
  - destruct ls as [|[l p] ls]; cbn in Hn; [lia|].
    wp_bind. iApply (pop_cons_spec with "Hq").
    iIntros (r) "(%q' & %nx & -> & Hl & Hq)".
    wp_bind. iApply (IH with "Hq"); [lia|]. iIntros (r) "(%q'' & -> & Hls & Hq)".
    wp_ret. iApply "HΦ". iExists q''. cbn. iFrame. done.
Qed.

Lemma delete_ptrs_spec ls :
  {{ loose ls }} delete_ptrs (Some <$> ls.*1) {{ r, ⟪r = tt⟫ }}.
Proof.
  induction ls as [|[l p] ls IH]; iIntros (Φ) "H HΦ"; cbn.
  - wp_ret. iApply ("HΦ" with "[//]").
  - iDestruct "H" as "[[%nx Hl] H]". wp_bind. iApply (wp_delete_Piece with "Hl").
    by iApply (IH with "H").
Qed.

(** ** The allocator *)
Lemma reset_piece_spec l p :
  {{ l ↦ p ∗ ⟪data_ok p⟫ }} reset_piece l
  {{ r, ∃ p', l ↦ p' ∗ ⟪empty_piece p'⟫ }}.
Proof.
  iIntros (Φ) "[Hl %Hp] HΦ". rewrite /reset_piece. wp_bind. wp_load "Hl".
  wp_store "Hl". iApply "HΦ". iFrame. iPureIntro. by split_and!.
Qed.

Lemma newPiece_spec `{HPeak : Peak} u :
  {{ pool u ∗ ⟪u < kMaxUsing⟫ }} newPiece
  {{ l, ∃ p, l ↦ p ∗ ⟪empty_piece p⟫ ∗ pool (u + 1) }}.
Proof.
  iIntros (Φ) "[(%ls & %q & Hp & Hq & %Hd & %Hls & %Hu) %Hmax] HΦ".
  rewrite /newPiece. wp_bind. iApply (wp_load_pool with "Hp"); iIntros "Hp".
  wp_bind. cbn [using_count_ queue_].
  assert (wrap32 (u + 1) = u + 1) as ->.
  { apply wrap_id. pose proof kMaxUsing_le. lia. }
  destruct ls as [|[l p] ls].
  - iApply (pop_nil_spec with "Hq"). iIntros (r) "[-> Hq]".
    wp_bind. iApply (wp_store_pool with "Hp"). iIntros "Hp".
    wp_bind. iApply wp_new_Piece. iIntros (l s) "Hl".
    wp_bind. iApply (reset_piece_spec with "[$Hl]").
    { iPureIntro. apply fresh_piece_data. }
    iIntros (?) "(%p & Hl & %Hp)". wp_ret. iApply "HΦ". iExists p. iFrame "Hl".
    iSplitR; [done|]. iExists [], _. iFrame. iPureIntro.
    rewrite zlen_nil /BASE_CACHE_COUNT. split_and!; try constructor; lia.
  - iApply (pop_cons_spec with "Hq"). iIntros (r) "(%q' & %nx & -> & Hl & Hq)".
    wp_bind. iApply (wp_store_pool with "Hp"). iIntros "Hp".
    cbn in Hd. apply Forall_cons in Hd as [Hdp Hd].
    wp_bind. iApply (reset_piece_spec with "[$Hl]"); [done|].
    iIntros (?) "(%p' & Hl & %Hp')". wp_ret. iApply "HΦ". iExists p'. iFrame "Hl".
    iSplitR; [done|]. iExists ls, _. iFrame. iPureIntro.
    rewrite zlen_cons in Hls, Hu. split_and!; try done; lia.
Qed.

(** What [deletePiece] makes of the cache: the piece is cached while there are
    fewer than [(u - 1) + BASE_CACHE_COUNT], and otherwise freed together with
    the cached pieces in excess. *)
Definition cache_after (ls : cells) (u : Z) (item : loc * Piece) : cells :=
  let limit := u - 1 + BASE_CACHE_COUNT in
  if zlen ls <? limit then ls ++ [item] else drop (Z.to_nat (zlen ls - limit)) ls.

Lemma deletePiece_exact_spec `{HPeak : Peak} ls u l p : 1 <= u -> data_ok p ->
  {{ pool_rep ls u ∗ l ↦ p }} deletePiece (Some l)
  {{ r, pool_rep (cache_after ls u (l, p)) (u - 1) }}.
Proof.
  iIntros (Hu1 Hp Φ) "[(%q & Hp & Hq & %Hd & %Hls & %Hu) Hl] HΦ".
  rewrite /deletePiece. wp_bind. iApply (wp_load_pool with "Hp"); iIntros "Hp".
  cbn [using_count_ queue_]. pose proof kMaxUsing_le. pose proof (zlen_nonneg ls).
  rewrite /BASE_CACHE_COUNT in Hls |- *.
  rewrite (wrap_id 32 (u - 1)); [|lia]. rewrite (wrap_id 32 (u - 1 + 8)); [|lia].
  iAssert (⟪size_ q = zlen ls⟫ ∗ queue_rep q ls)%I with "[Hq]" as "[-> Hq]".
  { iDestruct "Hq" as "($ & $ & %Hz)". rewrite wrap_id in Hz; [|pose proof (zlen_nonneg ls); lia].
    iSplit; [done|]. iPureIntro. rewrite Hz wrap_id //. pose proof (zlen_nonneg ls). lia. }
  rewrite /cache_after /BASE_CACHE_COUNT. destruct (zlen ls <? u - 1 + 8) eqn:E; bool_cases.
  - wp_bind. iApply (push_spec with "[$Hq $Hl]"). iIntros (q') "Hq".
    iApply (wp_store_pool with "Hp"). iIntros "Hp". iApply "HΦ". iExists q'. iFrame.
    iPureIntro. rewrite fmap_app Forall_app zlen_app zlen_cons zlen_nil.
    rewrite /BASE_CACHE_COUNT.
    split_and!; rewrite ?Forall_singleton //; lia.
  - rewrite (wrap_id 32 (zlen ls - _ + 1)); [|lia].
    rewrite (proj2 (Z.ltb_ge MAX_DELETE_ONCE _)); [|rewrite /MAX_DELETE_ONCE; lia].
    set (k := Z.to_nat (zlen ls - (u - 1 + 8))).
    replace (Z.to_nat (zlen ls - (u - 1 + 8) + 1 - 1)) with k by (rewrite /k; lia).
    replace (Z.to_nat (zlen ls - (u - 1 + 8) + 1)) with (S k) by (rewrite /k; lia).
    assert (k <= length ls)%nat by (rewrite /k /zlen; lia).
    wp_bind. iApply (pop_n_spec with "Hq"); [done|]. iIntros (r) "(%q' & -> & Hls & Hq)".
    wp_bind. iApply (wp_store_pool with "Hp"). iIntros "Hp".
    rewrite firstn_cons (take_ge (Some <$> _)); [|rewrite !length_fmap length_take; lia].
    iApply (delete_ptrs_spec ((l, p) :: take k ls) with "[Hls Hl]").
    { rewrite /loose /=. iFrame "Hls". iExists (p_next p). by destruct p. }
    iIntros (?) "->". iApply "HΦ". iExists q'. iFrame. iPureIntro.
    rewrite fmap_drop /BASE_CACHE_COUNT. rewrite /zlen length_drop /k.
    rewrite /zlen in E, Hu |- *. split_and!; [by apply Forall_drop|lia..].
Qed.

Lemma deletePiece_spec `{HPeak : Peak} u l p :
  {{ pool u ∗ l ↦ p ∗ ⟪1 <= u /\ data_ok p⟫ }} deletePiece (Some l)
  {{ r, pool (u - 1) }}.
Proof.
  iIntros (Φ) "((%ls & Hp) & Hl & %H1 & %H2) HΦ".
  iApply (deletePiece_exact_spec with "[$Hp $Hl]"); [done..|].
  iIntros (?) "Hp". iApply "HΦ". iExists _. iFrame.
Qed.

Lemma drain_spec fuel q ls : (length ls < fuel)%nat -> zlen ls < 2 ^ 32 ->
  {{ queue_rep q ls }} drain fuel q {{ q', queue_rep q' [] }}.
Proof.
  revert q ls. induction fuel as [|fuel IH]; intros q ls Hf Hz Φ; [lia|].
  iIntros "Hq HΦ". cbn [drain]. rewrite /empty.
  iAssert (⟪size_ q = zlen ls⟫ ∗ queue_rep q ls)%I with "[Hq]" as "[-> Hq]".
  { iDestruct "Hq" as "($ & $ & %Hs)". rewrite Hs wrap_id.
    - by repeat iSplit.
    - pose proof (zlen_nonneg ls). lia. }
  destruct ls as [|[l p] ls].
  - wp_ret. by iApply "HΦ".
  - rewrite zlen_cons in Hz |- *. cbn in Hf.
    rewrite (proj2 (Z.eqb_neq _ 0)); [|pose proof (zlen_nonneg ls); lia].
    wp_bind. iApply (pop_cons_spec with "Hq"). iIntros (r) "(%q' & %nx & -> & Hl & Hq)".
    wp_bind. iApply (wp_delete_Piece with "Hl"). iApply (IH with "Hq HΦ"); lia.
Qed.

Lemma queue_rep_owned q ls :
  queue_rep q ls ⊢ ([∗ list] l ∈ ls.*1, ∃ o, obj_at l o) ∗ True.
Proof. iIntros "(Hs & _ & _)". rewrite lseg_owned. by iFrame. Qed.

(** The destructor of the pool frees every cached piece. *)
Lemma pool_clear_spec `{HPeak : Peak} ls u :
  {{ pool_rep ls u }} pool_clear {{ r, pool_rep [] u }}.
Proof.
  iIntros (Φ) "(%q & Hp & Hq & %Hd & %Hls & %Hu) HΦ". rewrite /pool_clear.
  wp_bind. iApply (wp_load_pool with "Hp"); iIntros "Hp". cbn [queue_ using_count_].
  wp_bind. iApply (wp_mem_bound _ ls.*1 with "Hq"); [apply queue_rep_owned|].
  iIntros (n) "%Hn Hq". rewrite length_fmap in Hn.
  wp_bind. iApply (drain_spec with "Hq"); [done|pose proof kMaxUsing_le; lia|].
  iIntros (q') "Hq". iApply (wp_store_pool with "Hp"). iIntros "Hp". iApply "HΦ".
  iExists q'. iFrame. iPureIntro. rewrite zlen_nil /BASE_CACHE_COUNT.
  pose proof (zlen_nonneg ls).
  split_and!; [constructor|lia..].
Qed.
