(* ===== verification/Buffer.v ===== *)
(** * The byte buffer

    [netpp/net/buffer.h] and [netpp/net/buffer.cpp]: a FIFO of bytes stored in
    a queue of fixed-size pieces.  The operations are written over the heap of
    [Machine], as the source writes them over raw pointers.

    [buf b n bs] says that the object [b] holds the bytes [bs] in [n] pieces.
    The theorems show that every operation refines the corresponding operation
    on byte sequences ([write] appends, [read] and [skip] remove a prefix,
    [prepend] uses the reserved room, ...), never touches memory outside its
    pieces, and keeps the allocator's count of pieces in use in step with the
    pieces the buffer owns. *)

From stdpp Require Import base tactics list numbers gmap.
From iris.proofmode Require Import proofmode.
From Stdlib Require Import ZArith Lia.
From S2P Require Import Prelude Machine HeapLogic Piece.

(** ** State *)
Record Buffer := mkBuffer {
  b_queue : Queue;
  length_ : Z
}.

(** [Buffer::Buffer()] *)
Definition Buffer_new : Buffer := mkBuffer queue_new 0.

(** [Buffer::swap]: the two objects after the exchange. *)
Definition swap (this buffer : Buffer) : Buffer * Buffer :=
  (mkBuffer (mkQueue (head_ (b_queue buffer)) (tail_ (b_queue buffer)) (size_ (b_queue buffer)))
            (length_ buffer),
   mkBuffer (mkQueue (head_ (b_queue this)) (tail_ (b_queue this)) (size_ (b_queue this)))
            (length_ this)).

(** ** Prepending *)
Definition reservedPrepend (b : Buffer) (len : Z) : M Buffer :=
  assert_ (length_ b =? 0);;
  assert_ (bool_decide (front (b_queue b) = None));;
  item ← newPiece;
  assert_ (len <? kPieceCapacity);;
  p ← load item;
  store item (set_len (set_off p len) 0);;
  q ← push (b_queue b) (Some item);
  mret (mkBuffer q (length_ b)).

Definition prepend (b : Buffer) (d : list Z) : M Buffer :=
  let len := zlen d in
  assert_ (bool_decide (front (b_queue b) ≠ None));;
  first ← deref (front (b_queue b));
  p ← load first;
  assert_ (len <=? p_off p);;
  let p := set_off p (p_off p - len) in
  p ← memcpy_to p (p_off p) d;
  store first (set_len p (p_len p + len));;
  mret (mkBuffer (b_queue b) (size_t (length_ b + len))).

Definition prependInt32 (b : Buffer) (x : Z) : M Buffer :=
  let v := int32 (htonl x) in prepend b (le_bytes 4 v).
Definition prependInt16 (b : Buffer) (x : Z) : M Buffer :=
  let v := int16 (htons x) in prepend b (le_bytes 2 v).
Definition prependInt8 (b : Buffer) (x : Z) : M Buffer :=
  prepend b (le_bytes 1 x).

(** ** Peeking

    [memcpy] into the local variable [t] of [peek<T>], at byte offset [pos];
    copying no bytes touches nothing. *)
Definition memcpy_local (t : list Z) (pos : Z) (bs : list Z) : M (list Z) :=
  if zlen bs =? 0 then mret t
  else if (0 <=? pos) && (pos + zlen bs <=? zlen t) then mret (splice pos bs t)
  else throw OutOfBounds.

(** The loop of [peek<T>] with [n = sizeof(T)].  [&t] has type [T*], so the
    destination [&t + sizeof(T) - left] lies [(sizeof(T) - left) * sizeof(T)]
    bytes after [t]. *)
Fixpoint peek_loop (fuel : nat) (n : Z) (t : list Z) (left : Z) (cur : ptr) : M (list Z) :=
  match fuel with
  | O => throw OutOfFuel
  | S fuel =>
      l ← deref cur;
      p ← load l;
      if left <=? p_len p then
        bs ← memcpy_from p (p_off p) left;
        memcpy_local t ((n - left) * n) bs
      else
        bs ← memcpy_from p (p_off p) (p_len p);
        t ← memcpy_local t ((n - left) * n) bs;
        peek_loop fuel n t (left - p_len p) (p_next p)
  end.

(** [peek(T& t)], returning the bytes of [t]. *)
Definition peek (n : Z) (b : Buffer) : M (list Z) :=
  assert_ (n <=? length_ b);;
  let t := replicate (Z.to_nat n) 0 in
  cur ← deref (front (b_queue b));
  p ← load cur;
  if n <=? p_len p then
    bs ← memcpy_from p (p_off p) n;
    memcpy_local t 0 bs
  else
    bs ← memcpy_from p (p_off p) (p_len p);
    t ← memcpy_local t 0 bs;
    fuel ← mem_bound;
    peek_loop fuel n t (n - p_len p) (p_next p).

Definition peekInt32 (b : Buffer) : M Z :=
  assert_ (4 <=? length_ b);;
  v ← peek 4 b;
  mret (int32 (ntohl (of_le v))).
Definition peekInt16 (b : Buffer) : M Z :=
  assert_ (2 <=? length_ b);;
  v ← peek 2 b;
  mret (int16 (ntohs (of_le v))).
Definition peekInt8 (b : Buffer) : M Z :=
  assert_ (1 <=? length_ b);;
  v ← peek 1 b;
  mret (int8 (of_le v)).

(** ** Reading

    The loop of [read(size_t len, char* d)]: [d] is what has been copied so
    far, the next [memcpy] going to [d + len - left]. *)
Fixpoint read_loop (fuel : nat) (left : Z) (q : Queue) (d : list Z) : M (list Z * Queue) :=
  match fuel with
  | O => throw OutOfFuel
  | S fuel =>
      first ← deref (front q);
      p ← load first;
      if left <=? p_len p then
        bs ← memcpy_from p (p_off p) left;
        if left <? p_len p then
          store first (set_len (set_off p (p_off p + left)) (p_len p - left));;
          mret (d ++ bs, q)
        else
          '(item, q) ← pop q;
          deletePiece item;;
          mret (d ++ bs, q)
      else
        bs ← memcpy_from p (p_off p) (p_len p);
        '(item, q) ← pop q;
        deletePiece item;;
        read_loop fuel (left - p_len p) q (d ++ bs)
  end.

Definition read (b : Buffer) (len : Z) : M (list Z * Buffer) :=
  assert_ (0 <? len);;
  assert_ (len <=? length_ b);;
  fuel ← mem_bound;
  '(d, q) ← read_loop fuel len (b_queue b) [];
  mret (d, mkBuffer q (size_t (length_ b - len))).

(** [read(size_t len, std::string& d)] *)
Definition read_string (b : Buffer) (len : Z) : M (list Z * Buffer) :=
  assert_ (len <=? length_ b);;
  read b len.

Definition readAll (b : Buffer) : M (list Z * Buffer) := read_string b (length_ b).

Definition readInt32 (b : Buffer) : M (Z * Buffer) :=
  '(v, b) ← read b 4;
  mret (int32 (ntohl (of_le v)), b).
Definition readInt16 (b : Buffer) : M (Z * Buffer) :=
  '(v, b) ← read b 2;
  mret (int16 (ntohs (of_le v)), b).
Definition readInt8 (b : Buffer) : M (Z * Buffer) :=
  '(v, b) ← read b 1;
  mret (int8 (of_le v), b).

(** [read(size_t len, Buffer* buf)]: the first [left] bytes of a piece are copied
    to a new piece of [buf]; *)
Definition move_part (first : loc) (p : Piece) (left : Z) (bq : Queue) : M Queue :=
  buf_last ← newPiece;
  bs ← memcpy_from p (p_off p) left;
  lp ← load buf_last;
  lp ← memcpy_to lp 0 bs;
  store buf_last (set_len lp left);;
  bq ← push bq (Some buf_last);
  p ← load first;
  store first (set_len (set_off p (p_off p + left)) (p_len p - left));;
  mret bq.

(** a piece that is not longer changes hands as a whole.  The loop does not
    subtract the moved bytes from [left]. *)
Fixpoint move_loop (fuel : nat) (left : Z) (q bq : Queue) : M (Queue * Queue) :=
  match fuel with
  | O => throw OutOfFuel
  | S fuel =>
      first ← deref (front q);
      p ← load first;
      if left <=? p_len p then
        if left <? p_len p then
          bq ← move_part first p left bq;
          mret (q, bq)
        else
          '(item, q) ← pop q;
          bq ← push bq item;
          mret (q, bq)
      else
        '(item, q) ← pop q;
        bq ← push bq item;
        move_loop fuel left q bq
  end.

Definition read_buffer (b : Buffer) (len : Z) (buf : Buffer) : M (Buffer * Buffer) :=
  assert_ (0 <? len);;
  assert_ (len <=? length_ b);;
  fuel ← mem_bound;
  '(q, bq) ← move_loop fuel len (b_queue b) (b_queue buf);
  mret (mkBuffer q (size_t (length_ b - len)), mkBuffer bq (size_t (length_ buf + len))).

(** ** Writing *)
Fixpoint write_loop (fuel : nat) (d : list Z) (q : Queue) : M Queue :=
  match fuel with
  | O => throw OutOfFuel
  | S fuel =>
      let left := zlen d in
      last ← deref (back q);
      p ← load last;
      let unwrite := kPieceCapacity - p_off p - p_len p in
      if left <=? unwrite then
        p ← memcpy_to p (p_off p + p_len p) d;
        store last (set_len p (p_len p + left));;
        mret q
      else
        p ← memcpy_to p (p_off p + p_len p) (take (Z.to_nat unwrite) d);
        store last (set_len p (p_len p + unwrite));;
        item ← newPiece;
        q ← push q (Some item);
        write_loop fuel (drop (Z.to_nat unwrite) d) q
  end.

(** The piece new bytes go to: a fresh one when there is none or the last one
    has no room behind its window. *)
Definition ensure_room (q : Queue) : M Queue :=
  full ← match back q with
         | None => mret true
         | Some l => p ← load l; mret (p_off p + p_len p =? kPieceCapacity)
         end;
  if full : bool then item ← newPiece; push q (Some item) else mret q.

Definition write (b : Buffer) (d : list Z) : M Buffer :=
  q ← ensure_room (b_queue b);
  q ← write_loop (S (length d)) d q;
  mret (mkBuffer q (size_t (length_ b + zlen d))).

(** [write(const std::string& d)] *)
Definition write_string (b : Buffer) (d : list Z) : M Buffer := write b d.

Definition writeInt32 (b : Buffer) (x : Z) : M Buffer :=
  let v := int32 (htonl x) in write b (le_bytes 4 v).
Definition writeInt16 (b : Buffer) (x : Z) : M Buffer :=
  let v := int16 (htons x) in write b (le_bytes 2 v).
Definition writeInt8 (b : Buffer) (x : Z) : M Buffer :=
  write b (le_bytes 1 x).

(** ** Skipping, detaching, clearing *)
Fixpoint skip_loop (fuel : nat) (left : Z) (q : Queue) : M Queue :=
  match fuel with
  | O => throw OutOfFuel
  | S fuel =>
      first ← deref (front q);
      p ← load first;
      if left <=? p_len p then
        if left <? p_len p then
          store first (set_len (set_off p (p_off p + left)) (p_len p - left));;
          mret q
        else
          '(item, q) ← pop q;
          deletePiece item;;
          mret q
      else
        '(item, q) ← pop q;
        deletePiece item;;
        skip_loop fuel (left - p_len p) q
  end.

Definition skip (b : Buffer) (len : Z) : M Buffer :=
  assert_ (len <=? length_ b);;
  fuel ← mem_bound;
  q ← skip_loop fuel len (b_queue b);
  mret (mkBuffer q (size_t (length_ b - len))).

Definition moveToQueueHead (b : Buffer) : ptr * Buffer :=
  (head_ (b_queue b), mkBuffer (mkQueue None None 0) 0).

(** [Buffer::clear()] *)
Definition clear (b : Buffer) : M Buffer :=
  fuel ← mem_bound;
  q ← drain fuel (b_queue b);
  mret (mkBuffer q 0).

(** [~Buffer()] *)
Definition Buffer_destroy (b : Buffer) : M unit :=
  clear b;;
  mret tt.

(** ** Representation *)

(** The bytes a chain of pieces holds. *)
Definition content (ls : cells) : list Z := concat (piece_bytes <$> ls.*2).

Definition cells_wf (ls : cells) : Prop := Forall piece_wf ls.*2.

Definition buf_rep (b : Buffer) (ls : cells) : hProp :=
  (queue_rep (b_queue b) ls ∗
   ⟪cells_wf ls /\ length_ b = zlen (content ls) /\ zlen (content ls) < 2 ^ 64⟫)%I.

Definition buf (b : Buffer) (n : Z) (bs : list Z) : hProp :=
  (∃ ls, buf_rep b ls ∗ ⟪zlen ls = n /\ content ls = bs⟫)%I.

(** The room in front of the first byte, which [prepend] can use; [bufh] is
    [buf] with that room made explicit. *)
Definition headroom (ls : cells) : Z :=
  match ls with [] => 0 | (_, p) :: _ => p_off p end.

Definition bufh (b : Buffer) (n r : Z) (bs : list Z) : hProp :=
  (∃ ls, buf_rep b ls ∗ ⟪zlen ls = n /\ headroom ls = r /\ content ls = bs⟫)%I.

(** Dropping the first [left] bytes of a chain, piece by piece. *)
Fixpoint cells_drop (left : Z) (ls : cells) : cells :=
  match ls with
  | [] => []
  | (l, p) :: ls =>
      if left <=? p_len p then
        if left <? p_len p
        then (l, set_len (set_off p (p_off p + left)) (p_len p - left)) :: ls
        else ls
      else cells_drop (left - p_len p) ls
  end.

(** ** Pure facts about pieces and chains *)
Lemma buf_rep_facts b ls :
  buf_rep b ls ⊢ ⟪cells_wf ls /\ length_ b = zlen (content ls) /\ zlen (content ls) < 2 ^ 64⟫ ∗ buf_rep b ls.
Proof. iIntros "(Hq & %H)". iFrame. by iSplit; iPureIntro. Qed.

Lemma content_cons l p ls : content ((l, p) :: ls) = piece_bytes p ++ content ls.
Proof. done. Qed.

Lemma content_app ls1 ls2 : content (ls1 ++ ls2) = content ls1 ++ content ls2.
Proof. by rewrite /content !fmap_app concat_app. Qed.

Lemma content_snoc ls l p : content (ls ++ [(l, p)]) = content ls ++ piece_bytes p.
Proof. by rewrite content_app content_cons app_nil_r. Qed.

Lemma cells_wf_cons l p ls : cells_wf ((l, p) :: ls) <-> piece_wf p /\ cells_wf ls.
Proof. rewrite /cells_wf fmap_cons. apply Forall_cons. Qed.

Lemma cells_wf_app ls1 ls2 : cells_wf (ls1 ++ ls2) <-> cells_wf ls1 /\ cells_wf ls2.
Proof. rewrite /cells_wf fmap_app. apply Forall_app. Qed.

Lemma cells_wf_snoc ls l p : cells_wf (ls ++ [(l, p)]) <-> cells_wf ls /\ piece_wf p.
Proof. rewrite cells_wf_app cells_wf_cons. split; intros; intuition. constructor. Qed.

Lemma headroom_snoc ls l p p' : p_off p' = p_off p ->
  headroom (ls ++ [(l, p')]) = headroom (ls ++ [(l, p)]).
Proof. destruct ls as [|[? ?] ?]; done. Qed.

Lemma headroom_push ls l p : p_off p = 0 -> headroom (ls ++ [(l, p)]) = headroom ls.
Proof. destruct ls as [|[? ?] ?]; done. Qed.

Lemma buf_bufh b n bs : buf b n bs ⊣⊢ ∃ r, bufh b n r bs.
Proof.
  iSplit.
  - iIntros "(%ls & H & % & %)". iExists _, ls. iFrame. done.
  - iIntros "(%r & %ls & H & % & % & %)". iExists ls. iFrame. done.
Qed.

Lemma content_byte ls : cells_wf ls -> Forall is_byte (content ls).
Proof.
  induction ls as [|[l p] ls IH]; [constructor|]. rewrite cells_wf_cons content_cons.
  intros [? ?]. apply Forall_app. auto using piece_bytes_byte.
Qed.

(** [first->off += left; first->len -= left;] *)
Definition advance (p : Piece) (left : Z) : Piece :=
  set_len (set_off p (p_off p + left)) (p_len p - left).

Lemma advance_wf p left : piece_wf p -> 0 <= left <= p_len p -> piece_wf (advance p left).
Proof.
  intros (Hd & Hb & Ho & Hl & Hc) ?. rewrite /piece_wf /advance /=.
  rewrite !wrap16_capacity; [|lia..]. split_and!; try done; lia.
Qed.

Lemma advance_bytes p left : piece_wf p -> 0 <= left <= p_len p ->
  piece_bytes (advance p left) = drop (Z.to_nat left) (piece_bytes p).
Proof.
  intros (Hd & Hb & Ho & Hl & Hc) ?. rewrite /piece_bytes /advance /=.
  rewrite !wrap16_capacity; [|lia..].
  replace (p_len p) with (left + (p_len p - left)) at 2 by lia.
  rewrite slice_app; [|lia..]. rewrite drop_app_length' //.
  pose proof (zlen_slice (p_off p) left (p_data p)) as E. rewrite /zlen in E, Hd. lia.
Qed.

Lemma advance_set_next p nx left : advance (set_next p nx) left = set_next (advance p left) nx.
Proof. done. Qed.

Lemma cells_drop_wf left ls :
  cells_wf ls -> 0 <= left -> cells_wf (cells_drop left ls).
Proof.
  revert left. induction ls as [|[l p] ls IH]; intros left; [done|].
  rewrite cells_wf_cons. intros [Hp Hls] ?. cbn.
  destruct (left <=? p_len p) eqn:E1; [destruct (left <? p_len p) eqn:E2|]; bool_cases; auto.
  - rewrite cells_wf_cons. split; [|done]. apply advance_wf; [done | lia].
  - apply IH; [done | lia].
Qed.

Lemma cells_drop_content left ls :
  cells_wf ls -> 0 <= left ->
  content (cells_drop left ls) = drop (Z.to_nat left) (content ls).
Proof.
  revert left. induction ls as [|[l p] ls IH]; intros left; [by rewrite /content /= drop_nil|].
  rewrite cells_wf_cons. intros [Hp Hls] ?. cbn [cells_drop]. rewrite content_cons.
  pose proof (zlen_piece_bytes p Hp) as Hz. rewrite /zlen in Hz.
  destruct (left <=? p_len p) eqn:E1; [destruct (left <? p_len p) eqn:E2|]; bool_cases.
  - rewrite content_cons -/(advance p left) advance_bytes //.
    rewrite drop_app_le //. lia.
  - rewrite drop_app_length' //. lia.
  - rewrite IH //; [|lia]. rewrite drop_app_ge; [|lia]. f_equal. lia.
Qed.

Lemma cells_drop_len left ls : zlen (cells_drop left ls) <= zlen ls.
Proof.
  revert left. induction ls as [|[l p] ls IH]; intros left; [done|]. cbn [cells_drop].
  specialize (IH (left - p_len p)). rewrite !zlen_cons.
  destruct (left <=? p_len p); [destruct (left <? p_len p)|]; rewrite ?zlen_cons; lia.
Qed.

(** ** Access to the first and to the last piece of a queue *)
Lemma queue_rep_first q l p ls :
  queue_rep q ((l, p) :: ls) ⊢
  ⟪front q = Some l⟫ ∗ ∃ nx, l ↦ set_next p nx ∗
    (∀ p', l ↦ set_next p' nx -∗ queue_rep q ((l, p') :: ls)).
Proof.
  rewrite /queue_rep /front /=. iIntros "((-> & %nx & Hl & Hs) & Ht & Hz)".
  iSplit; [done|]. iExists nx. iFrame "Hl". iIntros (p') "Hl". iFrame "Ht Hz".
  iSplit; [done|]. iExists nx. iFrame.
Qed.

Lemma queue_rep_last q l p ls :
  queue_rep q (ls ++ [(l, p)]) ⊢
  ⟪back q = Some l⟫ ∗ l ↦ set_next p None ∗
    (∀ p', l ↦ set_next p' None -∗ queue_rep q (ls ++ [(l, p')])).
Proof.
  rewrite /queue_rep /back lseg_snoc last_snoc_fst.
  iIntros "((Hs & Hl) & %Ht & %Hz)". iSplit; [done|]. iFrame "Hl".
  iIntros (p') "Hl". rewrite lseg_snoc last_snoc_fst. iFrame.
  iSplit; [done|]. iPureIntro. rewrite Hz !zlen_app //.
Qed.

Lemma queue_rep_back_nil q : queue_rep q [] ⊢ ⟪back q = None⟫ ∗ queue_rep q [].
Proof. rewrite /queue_rep /back /=. iIntros "($ & %H & $)". by iSplit. Qed.

Lemma content_nonempty ls : 0 < zlen (content ls) -> exists l p ls', ls = (l, p) :: ls'.
Proof. destruct ls as [|[l p] ls]; [rewrite /content /zlen /=; lia | eauto]. Qed.

(** Reading the window of a piece. *)
Lemma wp_memcpy_window E p nx n (Φ : list Z -> hProp) :
  piece_wf p -> 0 <= n <= p_len p ->
  Φ (take (Z.to_nat n) (piece_bytes p)) ⊢
  wp E (memcpy_from (set_next p nx) (p_off (set_next p nx)) n) Φ.
Proof.
  intros (Hd & Hb & Ho & Hl & Hc) ?.
  assert (take (Z.to_nat n) (piece_bytes p) = slice (p_off p) n (p_data p)) as ->.
  { rewrite /piece_bytes /slice take_take. f_equal. lia. }
  apply (wp_memcpy_from E (set_next p nx)); cbn; lia.
Qed.

Lemma take_piece_bytes p : piece_wf p ->
  take (Z.to_nat (p_len p)) (piece_bytes p) = piece_bytes p.
Proof.
  intros Hp. apply take_ge. pose proof (zlen_piece_bytes p Hp) as E.
  rewrite /zlen in E. lia.
Qed.

(** ** Reading and skipping remove a prefix *)
Section consume.
Context `{HPeak : Peak} (o : Z) (Ho : 0 <= o).

Lemma pop_delete_spec {A} q l p ls (k : Queue -> M A) Φ :
  piece_wf p ->
  queue_rep q ((l, p) :: ls) -∗ pool (o + (1 + zlen ls)) -∗
  (∀ q', queue_rep q' ls -∗ pool (o + zlen ls) -∗ wp no_error (k q') Φ) -∗
  wp no_error ('(item, q) ← pop q; deletePiece item;; k q) Φ.
Proof using Ho.
  iIntros (Hp) "Hq Hpool Hk". wp_bind. iApply (pop_cons_spec with "Hq").
  iIntros (r) "(%q' & %nx & -> & Hl & Hq)". wp_bind.
  iApply (deletePiece_spec with "[$Hpool $Hl]").
  { iPureIntro. pose proof (zlen_nonneg ls). split; [lia | by apply piece_wf_data]. }
  iIntros (?) "Hpool". replace (o + (1 + zlen ls) - 1) with (o + zlen ls) by lia.
  iApply ("Hk" with "Hq Hpool").
Qed.

Lemma read_loop_spec fuel left q ls d :
  (length ls <= fuel)%nat -> ls <> [] -> 0 <= left <= zlen (content ls) -> cells_wf ls ->
  {{ queue_rep q ls ∗ pool (o + zlen ls) }} read_loop fuel left q d
  {{ r, ∃ q', ⟪r = (d ++ take (Z.to_nat left) (content ls), q')⟫ ∗
              queue_rep q' (cells_drop left ls) ∗ pool (o + zlen (cells_drop left ls)) }}.
Proof using Ho.
  revert left q ls d. induction fuel as [|fuel IH]; intros left q ls d Hf Hne Hleft Hwf Φ;
    [destruct ls; cbn in *; [done | lia]|].
  iIntros "[Hq Hpool] HΦ". destruct ls as [|[l p] ls]; [done|].
  apply cells_wf_cons in Hwf as [Hp Hwf]. cbn [read_loop cells_drop].
  pose proof (zlen_piece_bytes p Hp) as Hz. rewrite content_cons zlen_app Hz in Hleft.
  iDestruct (queue_rep_first with "Hq") as "(-> & %nx & Hl & Hq)".
  wp_bind. iApply wp_deref. wp_bind. wp_load "Hl". rewrite zlen_cons. cbn [p_len set_next].
  destruct (left <=? p_len p) eqn:E1; [destruct (left <? p_len p) eqn:E2|]; bool_cases.
  - wp_bind. iApply wp_memcpy_window; [done|lia|]. wp_bind. wp_store "Hl".
    iDestruct ("Hq" $! (advance p left) with "Hl") as "Hq".
    wp_ret. iApply "HΦ". iExists q. iFrame. rewrite zlen_cons. iFrame. iPureIntro.
    rewrite content_cons take_app_le //. rewrite /zlen in Hz. lia.
  - wp_bind. iApply wp_memcpy_window; [done|lia|].
    iDestruct ("Hq" with "Hl") as "Hq".
    iApply (pop_delete_spec with "Hq Hpool"); [done|]. iIntros (q') "Hq Hpool".
    wp_ret. iApply "HΦ". iExists q'. iFrame. iPureIntro.
    rewrite content_cons take_app_le //. rewrite /zlen in Hz. lia.
  - wp_bind. iApply wp_memcpy_window; [done|destruct Hp as (?&?&?&?&?); lia|].
    iDestruct ("Hq" with "Hl") as "Hq".
    iApply (pop_delete_spec with "Hq Hpool"); [done|]. iIntros (q') "Hq Hpool".
    iApply (IH with "[$Hq $Hpool]"); try done.
    { cbn in Hf. lia. }
    { intros ->. rewrite /content /zlen /= in Hleft. lia. }
    { lia. }
    iIntros (r) "(%q'' & -> & Hq & Hpool)". iApply "HΦ". iExists q''. iFrame. iPureIntro.
    rewrite content_cons take_piece_bytes // -app_assoc.
    rewrite (take_app_ge (piece_bytes p)); [|rewrite /zlen in Hz; lia].
    do 4 f_equal. rewrite /zlen in Hz. lia.
Qed.

Lemma skip_loop_spec fuel left q ls :
  (length ls <= fuel)%nat -> ls <> [] -> 0 <= left <= zlen (content ls) -> cells_wf ls ->
  {{ queue_rep q ls ∗ pool (o + zlen ls) }} skip_loop fuel left q
  {{ q', queue_rep q' (cells_drop left ls) ∗ pool (o + zlen (cells_drop left ls)) }}.
Proof using Ho.
  revert left q ls. induction fuel as [|fuel IH]; intros left q ls Hf Hne Hleft Hwf Φ;
    [destruct ls; cbn in *; [done | lia]|].
  iIntros "[Hq Hpool] HΦ". destruct ls as [|[l p] ls]; [done|].
  apply cells_wf_cons in Hwf as [Hp Hwf]. cbn [skip_loop cells_drop].
  pose proof (zlen_piece_bytes p Hp) as Hz. rewrite content_cons zlen_app Hz in Hleft.
  iDestruct (queue_rep_first with "Hq") as "(-> & %nx & Hl & Hq)".
  wp_bind. iApply wp_deref. wp_bind. wp_load "Hl". rewrite zlen_cons. cbn [p_len set_next].
  destruct (left <=? p_len p) eqn:E1; [destruct (left <? p_len p) eqn:E2|]; bool_cases.
  - wp_bind. wp_store "Hl". iDestruct ("Hq" $! (advance p left) with "Hl") as "Hq".
    wp_ret. iApply "HΦ". rewrite zlen_cons. iFrame.
  - iDestruct ("Hq" with "Hl") as "Hq".
    iApply (pop_delete_spec with "Hq Hpool"); [done|]. iIntros (q') "Hq Hpool".
    wp_ret. iApply "HΦ". iFrame.
  - iDestruct ("Hq" with "Hl") as "Hq".
    iApply (pop_delete_spec with "Hq Hpool"); [done|]. iIntros (q') "Hq Hpool".
    iApply (IH with "[$Hq $Hpool]"); try done.
    { cbn in Hf. lia. }
    { intros ->. rewrite /content /zlen /= in Hleft. lia. }
    { lia. }
Qed.
End consume.

(** ** Writing appends *)

(** [memcpy(last->data + last->off + last->len, d, n); last->len += n;] *)
Definition fill (p : Piece) (bs : list Z) : Piece :=
  set_len (set_data p (splice (p_off p + p_len p) bs (p_data p))) (p_len p + zlen bs).

Lemma fill_wf p bs : piece_wf p -> Forall is_byte bs ->
  p_off p + p_len p + zlen bs <= kPieceCapacity -> piece_wf (fill p bs).
Proof.
  intros (Hd & Hb & Ho & Hl & Hc) ? ?. pose proof (zlen_nonneg bs).
  rewrite /piece_wf /fill /= wrap16_capacity; [|lia].
  rewrite zlen_splice; [|lia..]. split_and!; try done; try lia.
  by apply Forall_splice.
Qed.

Lemma fill_bytes p bs : piece_wf p ->
  p_off p + p_len p + zlen bs <= kPieceCapacity ->
  piece_bytes (fill p bs) = piece_bytes p ++ bs.
Proof.
  intros (Hd & Hb & Ho & Hl & Hc) ?. pose proof (zlen_nonneg bs).
  rewrite /piece_bytes /fill /= wrap16_capacity; [|lia].
  apply slice_splice_append; lia.
Qed.

Lemma wp_fill E l p nx bs (Φ : unit -> hProp) :
  piece_wf p -> p_off p + p_len p + zlen bs <= kPieceCapacity ->
  l ↦ set_next p nx -∗ (l ↦ set_next (fill p bs) nx -∗ Φ tt) -∗
  wp E (p' ← memcpy_to (set_next p nx) (p_off p + p_len p) bs;
        store l (set_len p' (p_len p' + zlen bs))) Φ.
Proof.
  intros (Hd & Hb & Ho & Hl & Hc) ?. iIntros "Hl HΦ". pose proof (zlen_nonneg bs).
  wp_bind. iApply wp_memcpy_to; [lia|cbn; lia|]. wp_store "Hl". by iApply "HΦ".
Qed.

Lemma M_bind_assoc {A B C} (m : M A) (f : A -> M B) (g : B -> M C) E Φ :
  wp E ((m ≫= f) ≫= g) Φ ⊢ wp E (m ≫= λ a, f a ≫= g) Φ.
Proof.
  split. intros h H s hf Hwf Hs Hd. specialize (H s hf Hwf Hs Hd).
  rewrite /mbind /M_bind in H |- *. by destruct (m s).
Qed.

Lemma Forall_take_drop {A} (P : A -> Prop) n l :
  Forall P l -> Forall P (take n l) /\ Forall P (drop n l).
Proof. auto using Forall_take, Forall_drop. Qed.

Section produce.
Context `{HPeak : Peak} (o : Z) (Ho : 0 <= o).

Lemma push_new_spec q ls :
  {{ queue_rep q ls ∗ pool (o + zlen ls) ∗ ⟪o + zlen ls < kMaxUsing⟫ }}
    item ← newPiece; push q (Some item)
  {{ q', ∃ l p, queue_rep q' (ls ++ [(l, p)]) ∗ pool (o + zlen (ls ++ [(l, p)])) ∗
                ⟪empty_piece p⟫ }}.
Proof using Type.
  iIntros (Φ) "(Hq & Hp & %Hmax) HΦ". wp_bind. iApply (newPiece_spec with "[$Hp //]").
  iIntros (l) "(%p & Hl & %Hp & Hpool)". iApply (push_spec with "[$Hq $Hl]").
  iIntros (q') "Hq". iApply "HΦ". iExists l, p. iFrame "Hq". iSplitL; [|done].
  rewrite zlen_app zlen_cons zlen_nil.
  replace (o + (zlen ls + (1 + 0))) with (o + zlen ls + 1) by lia. done.
Qed.

(** A piece [p] filled up with the first [k] bytes of [d], and the others behind
    it in [ls']. *)
Lemma spill_facts ls l p d l2 p2 ls' : let k := Z.to_nat (kPieceCapacity - p_off p - p_len p) in
  let ls1 := ls ++ [(l, fill p (take k d))] in
  piece_wf p -> kPieceCapacity - p_off p - p_len p < zlen d -> empty_piece p2 ->
  content ls' = content (ls1 ++ [(l2, p2)]) ++ drop k d ->
  headroom ls' = headroom (ls1 ++ [(l2, p2)]) ->
  kPieceCapacity * (zlen ls' - zlen (ls1 ++ [(l2, p2)])) <= Z.max 0 (zlen (drop k d) + p_off p2 + p_len p2 - 1) ->
  content ls' = content (ls ++ [(l, p)]) ++ d /\ headroom ls' = headroom (ls ++ [(l, p)]) /\
  kPieceCapacity * (zlen ls' - zlen (ls ++ [(l, p)])) <= Z.max 0 (zlen d + p_off p + p_len p - 1).
Proof using Type.
  intros k ls1 Hp E (_ & Eo & El & _) Hc Hh Hpk. pose proof Hp as (_ & _ & _ & _ & Hroom).
  assert (zlen (take k d) = kPieceCapacity - p_off p - p_len p) as Hk.
  { rewrite /zlen length_take /k. rewrite /zlen in E. lia. }
  split_and!.
  - rewrite Hc content_snoc /ls1 content_snoc fill_bytes //; [|lia].
    assert (piece_bytes p2 = []) as -> by by rewrite /piece_bytes El slice_zero.
    by rewrite app_nil_r content_snoc -!app_assoc take_drop.
  - rewrite Hh headroom_push; [by apply headroom_snoc|done].
  - rewrite Eo El (zlen_app ls1) zlen_cons zlen_nil in Hpk. rewrite /ls1 !zlen_app !zlen_cons zlen_nil in Hpk |- *.
    assert (zlen (drop k d) = zlen d - (kPieceCapacity - p_off p - p_len p)) as Ed.
    { rewrite /zlen length_drop /k. rewrite /zlen in E. lia. }
    rewrite Ed in Hpk. lia.
Qed.

Lemma write_loop_spec fuel d q ls l p :
  (length d < fuel)%nat -> cells_wf (ls ++ [(l, p)]) -> Forall is_byte d ->
  p_off p + p_len p < kPieceCapacity ->
  o + zlen (ls ++ [(l, p)]) + zlen d <= kMaxUsing ->
  {{ queue_rep q (ls ++ [(l, p)]) ∗ pool (o + zlen (ls ++ [(l, p)])) }}
    write_loop fuel d q
  {{ q', ∃ ls', queue_rep q' ls' ∗ pool (o + zlen ls') ∗
                ⟪cells_wf ls' /\ content ls' = content (ls ++ [(l, p)]) ++ d /\
                 headroom ls' = headroom (ls ++ [(l, p)]) /\
                 kPieceCapacity * (zlen ls' - zlen (ls ++ [(l, p)])) <=
                   Z.max 0 (zlen d + p_off p + p_len p - 1)⟫ }}.
Proof using Type.
  revert d q ls l p. induction fuel as [|fuel IH];
    intros d q ls l p Hf Hwf Hd Hroom Hmax Φ; [lia|].
  iIntros "[Hq Hpool] HΦ". cbn [write_loop].
  pose proof Hwf as [Hwf' Hp]%cells_wf_snoc.
  iDestruct (queue_rep_last with "Hq") as "(-> & Hl & Hq)".
  wp_bind. iApply wp_deref. wp_bind. wp_load "Hl". cbn [p_off p_len set_next].
  destruct (zlen d <=? kPieceCapacity - p_off p - p_len p) eqn:E; bool_cases.
  - iApply M_bind_assoc. wp_bind. iApply (wp_fill with "Hl"); [done|lia|]. iIntros "Hl".
    wp_ret. iApply "HΦ". iExists (ls ++ [(l, fill p d)]).
    iDestruct ("Hq" with "Hl") as "$". rewrite !zlen_app !zlen_cons. iFrame. iPureIntro.
    rewrite cells_wf_snoc !content_snoc fill_bytes //; [|lia]. rewrite app_assoc.
    split_and!; try done; [apply fill_wf; [done..|lia] | by apply headroom_snoc | lia].
  - set (k := Z.to_nat (kPieceCapacity - p_off p - p_len p)).
    assert (zlen (take k d) = kPieceCapacity - p_off p - p_len p) as Hk.
    { rewrite /zlen length_take /k. rewrite /zlen in E. lia. }
    rewrite -Hk. iApply M_bind_assoc. wp_bind.
    iApply (wp_fill with "Hl"); [done|lia|]. iIntros "Hl".
    iDestruct ("Hq" with "Hl") as "Hq". set (ls1 := ls ++ [(l, fill p (take k d))]).
    assert (zlen ls1 = zlen (ls ++ [(l, p)])) as Hz1 by rewrite !zlen_app //.
    rewrite -Hz1 in Hmax |- *.
    apply (Forall_take_drop _ k) in Hd as [Hd1 Hd2].
    iApply M_bind_assoc. wp_bind.
    iApply (push_new_spec with "[$Hq $Hpool]"); [iPureIntro; lia|].
    iIntros (q') "(%l2 & %p2 & Hq & Hpool & %Hp2)".
    assert (cells_wf ls1) as Hwf1.
    { apply cells_wf_snoc. split; [done|]. apply fill_wf; [done..|lia]. }
    assert (zlen (drop k d) < zlen d) as Hlt.
    { rewrite /zlen length_drop /k. rewrite /zlen in E. lia. }
    iApply (IH with "[$Hq $Hpool]").
    { rewrite /zlen in Hlt. lia. }
    { apply cells_wf_snoc. auto using empty_piece_wf. }
    { done. }
    { destruct Hp2 as (_ & -> & -> & _). rewrite kPieceCapacity_eq. lia. }
    { rewrite zlen_app zlen_cons zlen_nil. lia. }
    iIntros (q'') "(%ls' & Hq & Hpool & %Hls' & %Hc & %Hh & %Hpk)". iApply "HΦ".
    iExists ls'. iFrame. iPureIntro. split; [done|]. rewrite Hz1. by apply (spill_facts ls l p d l2 p2).
Qed.
End produce.

(** ** The operations of [Buffer] refine operations on byte sequences *)
Section specs.
Context `{HPeak : Peak} (o : Z) (Ho : 0 <= o).

Lemma buf_rep_chain_bound b ls :
  buf_rep b ls ⊢ ([∗ list] l ∈ ls.*1, ∃ o, obj_at l o) ∗ True.
Proof using Type. iIntros "[Hq _]". by iApply queue_rep_owned. Qed.

Lemma Buffer_new_spec : ⊢ buf Buffer_new 0 [].
Proof using Type.
  iExists []. rewrite /buf_rep. iSplitL; [|done]. iSplitL; [iApply queue_rep_nil|].
  iPureIntro. split_and!; [constructor|done|done].
Qed.

Lemma read_loop_buf b n bs len :
  {{ buf b n bs ∗ pool (o + n) ∗ ⟪0 < len <= zlen bs⟫ }}
    fuel ← mem_bound; read_loop fuel len (b_queue b) []
  {{ r, ∃ q' n', ⟪r = (take (Z.to_nat len) bs, q')⟫ ∗
                 buf (mkBuffer q' (size_t (length_ b - len))) n' (drop (Z.to_nat len) bs) ∗
                 pool (o + n') ∗ ⟪n' <= n⟫ }}.
Proof using Ho.
  iIntros (Φ) "((%ls & (Hq & %Hwf & %Hlen & %H64) & %Hn0 & %Hbs0) & Hpool & %Hl) HΦ". subst n bs.
  wp_bind. iApply (wp_mem_bound _ ls.*1 with "Hq"); [apply queue_rep_owned|].
  iIntros (k) "%Hk Hq". rewrite length_fmap in Hk.
  iApply (read_loop_spec o Ho with "[$Hq $Hpool]"); try done; [lia| |lia|].
  { intros ->. rewrite /content /zlen /= in Hl. lia. }
  iIntros (r) "(%q' & -> & Hq & Hpool)". iApply "HΦ". iExists q', _. iSplitR; [done|].
  iFrame "Hpool". iSplitL; [|iPureIntro; apply cells_drop_len]. iExists (cells_drop len ls). rewrite cells_drop_content //; [|lia].
  rewrite /buf_rep /=. iFrame. iSplitL; [|done]. iPureIntro.
  rewrite cells_drop_content //; [|lia]. rewrite Hlen.
  assert (zlen (drop (Z.to_nat len) (content ls)) = zlen (content ls) - len) as ->.
  { rewrite /zlen length_drop. rewrite /zlen in Hl. lia. }
  rewrite wrap_id; [|lia]. split_and!; try done; [|lia]. apply cells_drop_wf; [done|lia].
Qed.

Lemma read_refines b n bs len :
  {{ buf b n bs ∗ pool (o + n) ∗ ⟪0 < len <= zlen bs⟫ }} read b len
  {{ r, ∃ b' n', ⟪r = (take (Z.to_nat len) bs, b')⟫ ∗
                 buf b' n' (drop (Z.to_nat len) bs) ∗ pool (o + n') ∗ ⟪n' <= n⟫ }}.
Proof using Ho.
  iIntros (Φ) "(Hb & Hpool & %Hl) HΦ". rewrite /read.
  iDestruct "Hb" as "(%ls & (Hq & %Hwf & %Hlen & %H64) & %Hn & %Hbs)".
  wp_bind. iApply wp_assert; [lia|]. wp_bind. iApply wp_assert; [rewrite Hlen Hbs; lia|].
  iApply M_bind_assoc. wp_bind. iApply (read_loop_buf with "[Hq $Hpool]").
  { iSplitL; [|done]. iExists ls. iFrame. by iPureIntro. }
  iIntros (r) "(%q' & %n' & -> & Hb & Hpool & %)". wp_ret. iApply "HΦ".
  iExists _, n'. iFrame. done.
Qed.

Lemma skip_rep_spec b ls len : 0 <= len <= zlen (content ls) -> ls <> [] ->
  {{ buf_rep b ls ∗ pool (o + zlen ls) }} skip b len
  {{ b', buf_rep b' (cells_drop len ls) ∗ pool (o + zlen (cells_drop len ls)) }}.
Proof using Ho.
  iIntros (Hl Hne Φ) "((Hq & %Hwf & %Hlen & %H64) & Hpool) HΦ".
  rewrite /skip. wp_bind. iApply wp_assert; [lia|].
  wp_bind. iApply (wp_mem_bound _ ls.*1 with "Hq"); [apply queue_rep_owned|].
  iIntros (k) "%Hk Hq". rewrite length_fmap in Hk.
  wp_bind. iApply (skip_loop_spec o Ho with "[$Hq $Hpool]"); try done; [lia|].
  iIntros (q') "[Hq Hpool]". wp_ret. iApply "HΦ". iFrame "Hpool".
  rewrite /buf_rep /= cells_drop_content //; [|lia]. iFrame. iPureIntro. rewrite Hlen.
  assert (zlen (drop (Z.to_nat len) (content ls)) = zlen (content ls) - len) as ->.
  { rewrite /zlen length_drop. rewrite /zlen in Hl. lia. }
  rewrite wrap_id; [|lia]. split_and!; try done; [|lia]. apply cells_drop_wf; [done|lia].
Qed.

Lemma skip_refines b n bs len :
  {{ buf b n bs ∗ pool (o + n) ∗ ⟪0 <= len <= zlen bs /\ 0 < n⟫ }} skip b len
  {{ b', ∃ n', buf b' n' (drop (Z.to_nat len) bs) ∗ pool (o + n') ∗ ⟪n' <= n⟫ }}.
Proof using Ho.
  iIntros (Φ) "((%ls & Hb & %Hn0 & %Hbs0) & Hpool & %Hl & %Hn) HΦ". subst n bs.
  iAssert (⟪cells_wf ls⟫ ∗ buf_rep b ls)%I with "[Hb]" as "[%Hwf Hb]".
  { iDestruct "Hb" as "(Hq & %Hwf & %H)". iFrame. by iSplit; iPureIntro. }
  iApply (skip_rep_spec with "[$Hb $Hpool]"); [done|intros ->; rewrite zlen_nil in Hn; lia|].
  iIntros (b') "[Hb Hpool]". iApply "HΦ". iExists _. iFrame "Hpool".
  iSplitL; [|iPureIntro; apply cells_drop_len]. iExists _. iFrame "Hb". iPureIntro.
  split; [done|]. apply cells_drop_content; [done|lia].
Qed.

(** What [ensure_room] provides: a last piece with room behind its window. *)
Definition has_room (ls : cells) (q' : Queue) : hProp :=
  (∃ ls' l p, queue_rep q' (ls' ++ [(l, p)]) ∗ pool (o + zlen (ls' ++ [(l, p)])) ∗
     ⟪cells_wf (ls' ++ [(l, p)]) /\ content (ls' ++ [(l, p)]) = content ls /\
      headroom (ls' ++ [(l, p)]) = headroom ls /\
      p_off p + p_len p < kPieceCapacity /\ zlen (ls' ++ [(l, p)]) <= zlen ls + 1 /\
      kPieceCapacity * (zlen (ls' ++ [(l, p)]) - zlen ls) + p_off p + p_len p <= kPieceCapacity⟫)%I.

Lemma grow_spec q ls : cells_wf ls ->
  {{ queue_rep q ls ∗ pool (o + zlen ls) ∗ ⟪o + zlen ls < kMaxUsing⟫ }}
    item ← newPiece; push q (Some item)
  {{ q', has_room ls q' }}.
Proof using Type.
  iIntros (Hwf Φ) "(Hq & Hpool & %Hmax) HΦ". iApply (push_new_spec with "[$Hq $Hpool //]").
  iIntros (q') "(%l & %p & Hq & Hpool & %He)". iApply "HΦ". iExists ls, l, p. iFrame.
  iPureIntro. rewrite cells_wf_snoc content_snoc zlen_app zlen_cons zlen_nil.
  pose proof He as (_ & E1 & E2 & _).
  rewrite headroom_push // /piece_bytes E1 E2 slice_zero app_nil_r kPieceCapacity_eq.
  split_and!; auto using empty_piece_wf; lia.
Qed.

Lemma ensure_room_spec q ls : cells_wf ls ->
  {{ queue_rep q ls ∗ pool (o + zlen ls) ∗ ⟪o + zlen ls < kMaxUsing⟫ }} ensure_room q
  {{ q', has_room ls q' }}.
Proof using Type.
  iIntros (Hwf Φ) "(Hq & Hpool & %Hmax) HΦ". rewrite /ensure_room.
  destruct ls as [|[l p] ls _] using rev_ind.
  - iDestruct (queue_rep_back_nil with "Hq") as "[-> Hq]". wp_bind. wp_ret.
    by iApply (grow_spec with "[$Hq $Hpool //]").
  - iDestruct (queue_rep_last with "Hq") as "(-> & Hl & Hq)".
    wp_bind. wp_bind. wp_load "Hl". wp_ret. iDestruct ("Hq" with "Hl") as "Hq".
    cbn [p_off p_len set_next].
    destruct (p_off p + p_len p =? kPieceCapacity) eqn:E; bool_cases.
    + by iApply (grow_spec with "[$Hq $Hpool //]").
    + wp_ret. iApply "HΦ". iExists ls, l, p. iFrame. iPureIntro.
      pose proof Hwf as [_ (? & ? & ? & ? & ?)]%cells_wf_snoc. split_and!; try done; lia.
Qed.

Lemma write_headroom b n r bs d :
  {{ bufh b n r bs ∗ pool (o + n) ∗
     ⟪Forall is_byte d /\ zlen bs + zlen d < 2 ^ 64 /\ o + n + zlen d < kMaxUsing⟫ }}
    write b d
  {{ b', ∃ n', bufh b' n' r (bs ++ d) ∗ pool (o + n') ∗
               ⟪kPieceCapacity * (n' - n) <= kPieceCapacity + zlen d⟫ }}.
Proof using Type.
  iIntros (Φ) "((%ls & (Hq & %Hwf & %Hlen & %H64) & %Hn & %Hr & %Hbs) & Hpool & %Hd & %H64' & %Hmax) HΦ".
  subst n r bs. rewrite /write. wp_bind. pose proof (zlen_nonneg d).
  iApply (ensure_room_spec with "[$Hq $Hpool]"); [done|iPureIntro; lia|].
  iIntros (q1) "(%ls1 & %l & %p & Hq & Hpool & %Hwf1 & %Hc1 & %Hr1 & %Hroom & %Hz1 & %Hpk1)".
  wp_bind. iApply (write_loop_spec with "[$Hq $Hpool]"); try done; [lia..|].
  iIntros (q2) "(%ls2 & Hq & Hpool & %Hwf2 & %Hc2 & %Hr2 & %Hpk)". wp_ret. iApply "HΦ".
  iExists (zlen ls2). iFrame "Hpool". iSplitL; [|iPureIntro; rewrite kPieceCapacity_eq in Hroom Hpk Hpk1 |- *; lia].
  iExists ls2. rewrite /buf_rep /= Hc2 Hc1 zlen_app Hlen Hr2 Hr1.
  iFrame. iPureIntro. rewrite wrap_id; [done|]. pose proof (zlen_nonneg (content ls)). lia.
Qed.

Lemma write_refines b n bs d :
  {{ buf b n bs ∗ pool (o + n) ∗
     ⟪Forall is_byte d /\ zlen bs + zlen d < 2 ^ 64 /\ o + n + zlen d < kMaxUsing⟫ }}
    write b d
  {{ b', ∃ n', buf b' n' (bs ++ d) ∗ pool (o + n') ∗
               ⟪kPieceCapacity * (n' - n) <= kPieceCapacity + zlen d⟫ }}.
Proof using Type.
  iIntros (Φ) "(Hb & Hpool & %H) HΦ". rewrite buf_bufh. iDestruct "Hb" as (r) "Hb".
  iApply (write_headroom with "[$Hb $Hpool //]"). iIntros (b') "(%n' & Hb & Hpool & %Hpk)".
  iApply "HΦ". iExists n'. rewrite buf_bufh. iFrame. done.
Qed.

(** *** Prepending *)
Lemma reservedPrepend_spec b len :
  {{ buf b 0 [] ∗ pool o ∗ ⟪o < kMaxUsing /\ 0 <= len < kPieceCapacity⟫ }}
    reservedPrepend b len
  {{ b', bufh b' 1 len [] ∗ pool (o + 1) }}.
Proof using Type.
  iIntros (Φ) "((%ls & (Hq & %Hwf & %Hlen & _) & %Hn & %Hc) & Hpool & %Hmax & %Hcap) HΦ".
  apply zlen_0 in Hn as ->. rewrite /reservedPrepend.
  iDestruct (queue_rep_front with "Hq") as "[%Hfr Hq]".
  wp_bind. iApply wp_assert; [by rewrite Hlen|].
  wp_bind. iApply wp_assert; [by rewrite Hfr|].
  wp_bind. iApply (newPiece_spec with "[$Hpool //]"). iIntros (l) "(%p & Hl & %He & Hpool)".
  wp_bind. iApply wp_assert; [lia|]. wp_bind. wp_load "Hl". wp_bind. wp_store "Hl".
  wp_bind. iApply (push_spec with "[$Hq $Hl]"). iIntros (q') "Hq". wp_ret. iApply "HΦ".
  iFrame "Hpool". iExists _. rewrite /buf_rep /=. iFrame "Hq". iPureIntro.
  destruct He as (Hx & E1 & E2 & Hdata & Hby).
      set (p' := set_len (set_off p len) 0).
  assert (p_off p' = len) as Eo by (cbn; rewrite wrap16_capacity //; lia).
  assert (p_len p' = 0) as El by (cbn; rewrite wrap16_capacity // kPieceCapacity_eq; lia).
  assert (content [(l, p')] = []) as Ec.
  { by rewrite content_cons /piece_bytes El slice_zero. }
  rewrite Ec Hlen. split_and!; try done.
  constructor; [|constructor]. rewrite /piece_wf Eo El. split_and!; try done; lia.
Qed.

Lemma prepend_spec b n r bs d :
  {{ bufh b n r bs ∗ ⟪Forall is_byte d /\ 0 < zlen d <= r /\ zlen d + zlen bs < 2 ^ 64⟫ }}
    prepend b d
  {{ b', bufh b' n (r - zlen d) (d ++ bs) }}.
Proof using Type.
  iIntros (Φ) "((%ls & (Hq & %Hwf & %Hlen & %H64) & %Hn & %Hr & %Hbs) & %Hd & %Hz & %H64') HΦ".
  subst n r bs. destruct ls as [|[l p] ls]; [cbn in Hz; lia|]. cbn [headroom] in Hz |- *.
  apply cells_wf_cons in Hwf as [Hp Hwf]. pose proof Hp as (Hdl & Hdb & Ho1 & Hl1 & Hcap).
  rewrite /prepend. iDestruct (queue_rep_first with "Hq") as "(%Hfr & %nx & Hl & Hq)".
  rewrite Hfr. wp_bind. iApply wp_assert; [done|]. wp_bind. iApply wp_deref.
  wp_bind. wp_load "Hl". wp_bind. iApply wp_assert; [cbn; lia|].
  cbn [p_off p_len set_next set_off p_data]. rewrite (wrap16_capacity (p_off p - zlen d)); [|lia].
  wp_bind. iApply wp_memcpy_to; [lia|cbn; lia|]. wp_bind. wp_store "Hl".
  set (p' := mkPiece (p_next p) (p_off p - zlen d) (zlen d + p_len p)
                     (splice (p_off p - zlen d) d (p_data p))).
  assert (piece_wf p') as Hp'.
  { rewrite /piece_wf /= zlen_splice; [|lia..]. split_and!; try done; try lia.
    by apply Forall_splice. }
  assert (piece_bytes p' = d ++ piece_bytes p) as Hb'.
  { rewrite /piece_bytes /=. apply slice_splice_prepend; lia. }
  wp_ret. iApply "HΦ". iExists ((l, p') :: ls). rewrite /buf_rep /=.
  iSplitL; [iSplitL|].
  - iApply "Hq". rewrite /set_len /set_data /set_off /set_next /=.
    rewrite !wrap16_capacity; [|lia..]. by rewrite (Z.add_comm (p_len p)).
  - iPureIntro. rewrite cells_wf_cons content_cons Hb' -app_assoc zlen_app.
    rewrite Hlen wrap_id; [|pose proof (zlen_nonneg (content ((l, p) :: ls))); lia].
    rewrite content_cons in H64' |- *. split_and!; try done; lia.
  - iPureIntro. rewrite content_cons Hb' -app_assoc content_cons zlen_cons zlen_cons. done.
Qed.
End specs.

(** ** Peeking

    The number of bytes in the first piece that is not empty decides between
    the two behaviours of [peek]. *)
Fixpoint first_len (ls : cells) : Z :=
  match ls with
  | [] => 0
  | (_, p) :: ls => if p_len p =? 0 then first_len ls else p_len p
  end.

Definition out_of_bounds (e : Error) : Prop := e = OutOfBounds.

Lemma wp_memcpy_local_in E t pos bs (Φ : list Z -> hProp) :
  0 <= pos -> pos + zlen bs <= zlen t ->
  Φ (splice pos bs t) ⊢ wp E (memcpy_local t pos bs) Φ.
Proof.
  intros. rewrite /memcpy_local. destruct (zlen bs =? 0) eqn:E0; bool_cases.
  - apply zlen_0 in E0 as ->.
    assert (splice pos [] t = t) as ->; [|apply wp_ret].
    by rewrite /splice zlen_nil Z.add_0_r take_drop.
  - rewrite (proj2 (Z.leb_le _ _)) // (proj2 (Z.leb_le _ _)) //. apply wp_ret.
Qed.

Lemma wp_memcpy_local_out t pos bs (P : hProp) (Φ : list Z -> hProp) :
  0 < zlen bs -> zlen t < pos + zlen bs ->
  P ⊢ wp out_of_bounds (memcpy_local t pos bs) Φ.
Proof.
  intros. rewrite /memcpy_local. rewrite (proj2 (Z.eqb_neq _ _)); [|lia].
  rewrite (proj2 (Z.leb_gt (pos + zlen bs) _)) // andb_false_r. by apply wp_throw.
Qed.

Lemma splice_all (bs t : list Z) : zlen bs = zlen t -> splice 0 bs t = bs.
Proof.
  intros E. rewrite /splice /= drop_ge ?app_nil_r //. rewrite /zlen in E |- *. lia.
Qed.

Lemma zlen_take_window p n : piece_wf p -> 0 <= n <= p_len p ->
  zlen (take (Z.to_nat n) (piece_bytes p)) = n.
Proof.
  intros Hp ?. pose proof (zlen_piece_bytes p Hp) as E. rewrite /zlen in E |- *.
  rewrite length_take. lia.
Qed.

Lemma piece_bytes_nil p : p_len p = 0 -> piece_bytes p = [].
Proof. intros E. by rewrite /piece_bytes E slice_zero. Qed.

Section peek.
Context (n : Z) (Hn : 0 < n).

Lemma peek_loop_ok fuel t cur ls :
  (length ls <= fuel)%nat -> zlen t = n -> cells_wf ls -> n <= first_len ls ->
  {{ lseg cur ls None }} peek_loop fuel n t n cur
  {{ r, ⟪r = take (Z.to_nat n) (content ls)⟫ ∗ lseg cur ls None }}.
Proof using Hn.
  revert t cur ls. induction fuel as [|fuel IH]; intros t cur ls Hf Ht Hwf Hfl Φ;
    (destruct ls as [|[l p] ls]; cbn [first_len lseg] in *; [lia|]); [cbn in Hf; lia|].
  apply cells_wf_cons in Hwf as [Hp Hwf]. cbn [peek_loop].
  iIntros "(-> & %nx & Hl & Hs) HΦ". wp_bind. iApply wp_deref. wp_bind. wp_load "Hl".
  cbn [p_len set_next]. rewrite content_cons Z.sub_diag Z.mul_0_l.
  destruct (n <=? p_len p) eqn:E1; bool_cases.
  - wp_bind. iApply wp_memcpy_window; [done|lia|].
    pose proof (zlen_take_window p n Hp ltac:(lia)) as Ez.
    iApply wp_memcpy_local_in; [lia..|]. rewrite splice_all; [|lia]. iApply "HΦ".
    iSplitR; [iPureIntro|iSplit; [done|]; iExists nx; iFrame].
    rewrite take_app_le //. rewrite /zlen in Ez. rewrite length_take in Ez. lia.
  - destruct (p_len p =? 0) eqn:E2; bool_cases; [|lia].
    wp_bind. iApply wp_memcpy_window; [done|lia|]. rewrite E2 Z.sub_0_r.
    wp_bind. iApply wp_memcpy_local_in; [lia|rewrite Ht /zlen /=; lia|].
    iApply (IH with "Hs"); [cbn in Hf; lia| |done|lia|].
    { rewrite zlen_splice //. rewrite Ht /zlen /=. lia. }
    iIntros (r) "[-> Hs]". iApply "HΦ". rewrite piece_bytes_nil //=.
    iSplitR; [done|]. iSplit; [done|]. iExists nx. iFrame.
Qed.

Lemma peek_loop_overflow fuel t left cur ls (R : hProp) :
  (length ls <= fuel)%nat -> zlen t = n -> cells_wf ls ->
  0 < left <= n -> left <= zlen (content ls) -> (left = n -> first_len ls < n) ->
  lseg cur ls None ∗ R ⊢ wp out_of_bounds (peek_loop fuel n t left cur) (λ _, False%I).
Proof using Hn.
  revert t left cur ls R. induction fuel as [|fuel IH]; intros t left cur ls R Hf Ht Hwf Hl Hc Hfl;
    (destruct ls as [|[l p] ls]; [rewrite /content /zlen /= in Hc; lia|]); [cbn in Hf; lia|].
  apply cells_wf_cons in Hwf as [Hp Hwf]. pose proof (zlen_piece_bytes p Hp) as Hz.
  cbn [peek_loop first_len lseg] in *. rewrite content_cons zlen_app Hz in Hc.
  iIntros "[(-> & %nx & Hl & Hs) HR]". wp_bind. iApply wp_deref. wp_bind. wp_load "Hl".
  iCombine "HR Hl" as "HR". cbn [p_len set_next]. pose proof Hp as (_ & _ & _ & Hpl & _).
  destruct (left <=? p_len p) eqn:E1; bool_cases.
  - wp_bind. iApply wp_memcpy_window; [done|lia|].
    rewrite (proj2 (Z.eqb_neq _ 0)) in Hfl; [|lia].
    iStopProof. apply wp_memcpy_local_out; rewrite (zlen_take_window p left Hp); nia.
  - wp_bind. iApply wp_memcpy_window; [done|lia|]. rewrite take_piece_bytes //.
    destruct (p_len p =? 0) eqn:E2; bool_cases.
    + wp_bind. rewrite E2 Z.sub_0_r piece_bytes_nil //. iApply wp_ret.
      iApply (IH _ _ _ _ (R ∗ l ↦ set_next p nx)%I with "[$Hs $HR]"); try done; [cbn in Hf; lia|lia].
    + destruct (decide (left = n)) as [->|].
      * wp_bind. iApply wp_memcpy_local_in; [lia..|].
        iApply (IH _ _ _ _ (R ∗ l ↦ set_next p nx)%I with "[$Hs $HR]"); try done; [cbn in Hf; lia| |lia|lia|lia].
        rewrite zlen_splice; lia.
      * wp_bind. iStopProof. apply wp_memcpy_local_out; rewrite Hz; nia.
Qed.
End peek.

Lemma lseg_bound hd ls tl :
  lseg hd ls tl ⊢ ([∗ list] l ∈ ls.*1, ∃ o, obj_at l o) ∗ True.
Proof. rewrite lseg_owned. iIntros "$". Qed.

Lemma zlen_local n : 0 < n -> zlen (replicate (Z.to_nat n) 0) = n.
Proof. intros. rewrite /zlen length_replicate. lia. Qed.

(** An integer whose bytes lie in one piece is read correctly, the buffer
    being left as it is. *)
Lemma peek_refines b ls n : 0 < n <= first_len ls -> n <= zlen (content ls) ->
  {{ buf_rep b ls }} peek n b
  {{ r, ⟪r = take (Z.to_nat n) (content ls)⟫ ∗ buf_rep b ls }}.
Proof.
  iIntros (Hn Hc Φ) "((Hs & %Hta & %Hsz) & %Hwf & %Hlen & %H64) HΦ". rewrite /peek.
  pose proof (zlen_local n ltac:(lia)) as Ht. wp_bind. iApply wp_assert; [lia|].
  destruct ls as [|[l p] ls]; [cbn in Hn; lia|]. pose proof Hwf as [Hp Hwf']%cells_wf_cons.
  cbn [lseg]. iDestruct "Hs" as "(%Hfr & %nx & Hl & Hs)". rewrite /front Hfr.
  wp_bind. iApply wp_deref. wp_bind. wp_load "Hl". cbn [p_len set_next first_len p_next] in *.
  iAssert (l ↦ set_next p nx -∗ lseg nx ls None -∗ buf_rep b ((l, p) :: ls))%I as "Hclose".
  { iIntros "Hl Hs". iSplitL; [|by iPureIntro]. iSplitL; [|by iSplit; iPureIntro].
    iSplitR; [done|]. iExists nx. iFrame. }
  destruct (n <=? p_len p) eqn:E1; bool_cases.
  - wp_bind. iApply wp_memcpy_window; [done|lia|].
    pose proof (zlen_take_window p n Hp ltac:(lia)) as Ez.
    iApply wp_memcpy_local_in; [lia..|]. rewrite splice_all; [|lia]. iApply "HΦ".
    iSplitR; [iPureIntro|iApply ("Hclose" with "Hl Hs")].
    rewrite content_cons take_app_le //. rewrite /zlen length_take in Ez. lia.
  - destruct (p_len p =? 0) eqn:E2; bool_cases; [|lia].
    wp_bind. iApply wp_memcpy_window; [done|lia|]. rewrite E2 Z.sub_0_r.
    wp_bind. iApply wp_memcpy_local_in; [lia|rewrite Ht /zlen /=; lia|].
    wp_bind. iApply (wp_mem_bound _ ls.*1 with "Hs"); [apply lseg_bound|].
    iIntros (k) "%Hk Hs". rewrite length_fmap in Hk.
    iApply (peek_loop_ok with "Hs"); [lia|lia| |done|lia|].
    { rewrite zlen_splice //. rewrite Ht /zlen /=. lia. }
    iIntros (r) "[-> Hs]". iApply "HΦ". rewrite content_cons piece_bytes_nil //=.
    iSplitR; [done|]. iApply ("Hclose" with "Hl Hs").
Qed.

(** An integer split over two pieces makes [peek] write behind its result. *)
Lemma peek_overflows b ls n : 0 < first_len ls < n -> n <= zlen (content ls) ->
  buf_rep b ls ⊢ wp out_of_bounds (peek n b) (λ _, False%I).
Proof.
  iIntros (Hn Hc) "((Hs & %Hta & %Hsz) & %Hwf & %Hlen & %H64)". rewrite /peek.
  pose proof (zlen_local n ltac:(lia)) as Ht. wp_bind. iApply wp_assert; [lia|].
  destruct ls as [|[l p] ls]; [cbn in Hn; lia|]. pose proof Hwf as [Hp Hwf']%cells_wf_cons.
  pose proof (zlen_piece_bytes p Hp) as Hz. rewrite content_cons zlen_app Hz in Hc.
  cbn [lseg]. iDestruct "Hs" as "(%Hfr & %nx & Hl & Hs)". rewrite /front Hfr.
  wp_bind. iApply wp_deref. wp_bind. wp_load "Hl". cbn [p_len set_next first_len p_next] in *.
  assert ((n <=? p_len p) = false) as ->.
  { apply Z.leb_gt. destruct (p_len p =? 0) eqn:E; bool_cases; lia. }
  pose proof Hp as (_ & _ & _ & Hpl & _).
  assert (p_len p < n) by (destruct (p_len p =? 0) eqn:E; bool_cases; lia).
  wp_bind. iApply wp_memcpy_window; [done|lia|]. rewrite take_piece_bytes //.
  wp_bind. iApply wp_memcpy_local_in; [lia..|].
  wp_bind. iApply (wp_mem_bound _ ls.*1 with "Hs"); [apply lseg_bound|].
  iIntros (k) "%Hk Hs". rewrite length_fmap in Hk.
  assert (0 < n) as Hn0 by lia.
  iApply (peek_loop_overflow n Hn0 _ _ _ _ _ (l ↦ set_next p nx)%I with "[$Hs $Hl]");
    [lia| |done|lia|lia|].
  { rewrite zlen_splice; lia. }
  { intros E. rewrite (proj2 (Z.eqb_eq _ 0)) in Hn; lia. }
Qed.

(** ** Integers in network byte order *)
Definition be_value (bs : list Z) : Z := of_le (reverse bs).

Lemma le_bytes_int32 x : le_bytes 4 (int32 x) = le_bytes 4 x.
Proof. by rewrite -le_bytes_wrap32 wrap_swrap le_bytes_wrap32. Qed.

Lemma le_bytes_int16 x : le_bytes 2 (int16 x) = le_bytes 2 x.
Proof. by rewrite -le_bytes_wrap16 wrap_swrap le_bytes_wrap16. Qed.

Lemma int32_be_value x : int32 (be_value (be_bytes 4 x)) = int32 x.
Proof. rewrite /be_value of_le_reverse_be. exact (swrap_wrap 32 x). Qed.

Lemma int16_be_value x : int16 (be_value (be_bytes 2 x)) = int16 x.
Proof. rewrite /be_value of_le_reverse_be. exact (swrap_wrap 16 x). Qed.

Lemma int8_be_value x : int8 (be_value (be_bytes 1 x)) = int8 x.
Proof. rewrite /be_value of_le_reverse_be. exact (swrap_wrap 8 x). Qed.

Lemma be_value_1 bs : length bs = 1%nat -> be_value bs = of_le bs.
Proof. by destruct bs as [|? [|]]. Qed.

Lemma buf_bytes b n bs : buf b n bs ⊢ ⟪Forall is_byte bs /\ 0 <= n⟫ ∗ buf b n bs.
Proof.
  iIntros "(%ls & (Hq & %Hwf & %Hl) & %Hn & %Hc)". subst n bs. iSplitR.
  - iPureIntro. auto using content_byte, zlen_nonneg.
  - iExists ls. iFrame. by iPureIntro.
Qed.

Lemma length_take_Z {A} (k : nat) (bs : list A) :
  Z.of_nat k <= zlen bs -> length (take k bs) = k.
Proof. rewrite /zlen length_take. lia. Qed.

Section integers.
Context `{HPeak : Peak} (o : Z) (Ho : 0 <= o).

(** The value of the first [k] bytes, read with any of the [readIntN]. *)
Lemma read_value_spec b n bs k (f : list Z -> Z) (g : Z -> Z) :
  (0 < k)%nat ->
  (forall v, length v = k -> Forall is_byte v -> f v = g (be_value v)) ->
  {{ buf b n bs ∗ pool (o + n) ∗ ⟪Z.of_nat k <= zlen bs⟫ }}
    '(v, b) ← read b (Z.of_nat k); mret (f v, b)
  {{ r, ∃ b' n', ⟪r = (g (be_value (take k bs)), b')⟫ ∗
                 buf b' n' (drop k bs) ∗ pool (o + n') ∗ ⟪n' <= n⟫ }}.
Proof using Ho.
  iIntros (Hk Hf Φ) "(Hb & Hpool & %Hz) HΦ". iDestruct (buf_bytes with "Hb") as "[[%Hby %] Hb]".
  wp_bind. iApply (read_refines o Ho with "[$Hb $Hpool]"); [iPureIntro; lia|].
  rewrite Nat2Z.id. iIntros (r) "(%b' & %n' & -> & Hb & Hpool & %)". wp_ret. iApply "HΦ".
  iExists b', n'. iFrame. iSplitL; [|done]. iPureIntro. rewrite Hf //; [by apply length_take_Z|].
  by apply Forall_take.
Qed.

Lemma readInt32_refines b n bs :
  {{ buf b n bs ∗ pool (o + n) ∗ ⟪4 <= zlen bs⟫ }} readInt32 b
  {{ r, ∃ b' n', ⟪r = (int32 (be_value (take 4 bs)), b')⟫ ∗
                 buf b' n' (drop 4 bs) ∗ pool (o + n') ∗ ⟪n' <= n⟫ }}.
Proof using Ho.
  apply (read_value_spec b n bs 4 (λ v, int32 (ntohl (of_le v))) int32); [lia|].
  intros v L Hv. by rewrite ntohl_of_le.
Qed.

Lemma readInt16_refines b n bs :
  {{ buf b n bs ∗ pool (o + n) ∗ ⟪2 <= zlen bs⟫ }} readInt16 b
  {{ r, ∃ b' n', ⟪r = (int16 (be_value (take 2 bs)), b')⟫ ∗
                 buf b' n' (drop 2 bs) ∗ pool (o + n') ∗ ⟪n' <= n⟫ }}.
Proof using Ho.
  apply (read_value_spec b n bs 2 (λ v, int16 (ntohs (of_le v))) int16); [lia|].
  intros v L Hv. by rewrite ntohs_of_le.
Qed.

Lemma readInt8_refines b n bs :
  {{ buf b n bs ∗ pool (o + n) ∗ ⟪1 <= zlen bs⟫ }} readInt8 b
  {{ r, ∃ b' n', ⟪r = (int8 (be_value (take 1 bs)), b')⟫ ∗
                 buf b' n' (drop 1 bs) ∗ pool (o + n') ∗ ⟪n' <= n⟫ }}.
Proof using Ho.
  apply (read_value_spec b n bs 1 (λ v, int8 (of_le v)) int8); [lia|].
  intros v L Hv. by rewrite be_value_1.
Qed.
End integers.

Lemma writeInt32_bytes b x : writeInt32 b x = write b (be_bytes 4 x).
Proof. by rewrite /writeInt32 le_bytes_int32 le_bytes_htonl. Qed.

Lemma writeInt16_bytes b x : writeInt16 b x = write b (be_bytes 2 x).
Proof. by rewrite /writeInt16 le_bytes_int16 le_bytes_htons. Qed.

Lemma writeInt8_bytes b x : writeInt8 b x = write b (be_bytes 1 x).
Proof. done. Qed.

Lemma prependInt32_bytes b x : prependInt32 b x = prepend b (be_bytes 4 x).
Proof. by rewrite /prependInt32 le_bytes_int32 le_bytes_htonl. Qed.

Lemma prependInt16_bytes b x : prependInt16 b x = prepend b (be_bytes 2 x).
Proof. by rewrite /prependInt16 le_bytes_int16 le_bytes_htons. Qed.

Lemma prependInt8_bytes b x : prependInt8 b x = prepend b (be_bytes 1 x).
Proof. done. Qed.

(** [peekIntN] on bytes that lie in one piece. *)
Lemma peek_value_spec b ls k (f : list Z -> Z) (g : Z -> Z) :
  (0 < k)%nat -> Z.of_nat k <= first_len ls -> Z.of_nat k <= zlen (content ls) ->
  (forall v, length v = k -> Forall is_byte v -> f v = g (be_value v)) ->
  {{ buf_rep b ls }}
    assert_ (Z.of_nat k <=? length_ b);; v ← peek (Z.of_nat k) b; mret (f v)
  {{ r, ⟪r = g (be_value (take k (content ls)))⟫ ∗ buf_rep b ls }}.
Proof.
  iIntros (Hk Hfl Hz Hf Φ) "(Hq & %Hwf & %Hlen & %H64) HΦ".
  wp_bind. iApply wp_assert; [lia|]. wp_bind.
  iApply (peek_refines _ ls with "[Hq]"); [lia..|iFrame; by iPureIntro|].
  rewrite Nat2Z.id. iIntros (r) "[-> Hb]". wp_ret. iApply "HΦ". iFrame. iPureIntro.
  rewrite Hf //; [by apply length_take_Z|]. by apply Forall_take, content_byte.
Qed.

Lemma peekInt32_refines b ls : 4 <= first_len ls -> 4 <= zlen (content ls) ->
  {{ buf_rep b ls }} peekInt32 b
  {{ r, ⟪r = int32 (be_value (take 4 (content ls)))⟫ ∗ buf_rep b ls }}.
Proof.
  intros ? ?. apply (peek_value_spec b ls 4 (λ v, int32 (ntohl (of_le v))) int32); [lia..|].
  intros v L Hv. by rewrite ntohl_of_le.
Qed.

Lemma peekInt16_refines b ls : 2 <= first_len ls -> 2 <= zlen (content ls) ->
  {{ buf_rep b ls }} peekInt16 b
  {{ r, ⟪r = int16 (be_value (take 2 (content ls)))⟫ ∗ buf_rep b ls }}.
Proof.
  intros ? ?. apply (peek_value_spec b ls 2 (λ v, int16 (ntohs (of_le v))) int16); [lia..|].
  intros v L Hv. by rewrite ntohs_of_le.
Qed.

(** A single byte is never split. *)
Lemma first_len_pos ls : cells_wf ls -> 0 < zlen (content ls) -> 0 < first_len ls.
Proof.
  induction ls as [|[l p] ls IH]; [rewrite /content /zlen /=; lia|].
  rewrite cells_wf_cons content_cons zlen_app. intros [Hp Hwf] Hz. cbn.
  pose proof Hp as (_ & _ & _ & ? & _). rewrite (zlen_piece_bytes p Hp) in Hz.
  destruct (p_len p =? 0) eqn:E; bool_cases; [apply IH; [done|lia]|lia].
Qed.

Lemma peekInt8_refines b n bs :
  {{ buf b n bs ∗ ⟪1 <= zlen bs⟫ }} peekInt8 b
  {{ r, ⟪r = int8 (be_value (take 1 bs))⟫ ∗ buf b n bs }}.
Proof.
  iIntros (Φ) "((%ls & (Hq & %Hwf & %Hlen & %H64) & %Hn & %Hbs) & %Hz) HΦ". subst n bs.
  pose proof (first_len_pos ls Hwf ltac:(lia)).
  iApply (peek_value_spec b ls 1 (λ v, int8 (of_le v)) int8 with "[Hq]"); [lia..| | |].
  - intros v L Hv. by rewrite be_value_1.
  - iFrame. by iPureIntro.
  - iIntros (r) "[-> Hb]". iApply "HΦ". iSplitR; [done|]. iExists ls. by iFrame.
Qed.
