(* ===== verification/BufferSpec.v ===== *)
(** * What [Buffer] promises

    The remaining operations of [netpp/net/buffer.cpp] (moving bytes between
    buffers, detaching the chain, clearing), the abstract byte FIFO [fifo_op]
    a [Buffer] implements, and the theorems that state the contract of the
    buffer layer. *)

From stdpp Require Import base tactics list numbers gmap.
From iris.proofmode Require Import proofmode.
From Stdlib Require Import ZArith Lia.
From S2P Require Import Prelude Machine HeapLogic Piece Buffer.

(** ** Moving bytes to another buffer *)
Section move.
Context `{HPeak : Peak} (o : Z).

Lemma pop_push_spec {A} E q bq l p ls bls (k : Queue -> Queue -> M A) Φ :
  queue_rep q ((l, p) :: ls) -∗ queue_rep bq bls -∗
  (∀ q' bq', queue_rep q' ls -∗ queue_rep bq' (bls ++ [(l, p)]) -∗
             wp E (k q' bq') Φ) -∗
  wp E ('(item, q) ← pop q; bq ← push bq item; k q bq) Φ.
Proof using Type.
  iIntros "Hq Hbq Hk". wp_bind. iApply (wp_error_mono no_error); [done|]. iApply (pop_cons_spec with "Hq").
  iIntros (r) "(%q' & %nx & -> & Hl & Hq)". wp_bind. iApply (wp_error_mono no_error); [done|].
  iApply (push_spec with "[$Hbq $Hl]"). iIntros (bq') "Hbq".
  iApply ("Hk" with "Hq [Hbq]"). iDestruct "Hbq" as "(Hs & %Ht & %Hz)".
  rewrite last_snoc_fst in Ht. rewrite /queue_rep !lseg_snoc !last_snoc_fst. iFrame.
  iSplit; iPureIntro; [done|]. rewrite Hz !zlen_app //.
Qed.

(** A fresh piece that holds the first [left] bytes of [p]. *)
Definition copied (lp : Piece) (bs : list Z) : Piece :=
  set_len (set_data lp (splice 0 bs (p_data lp))) (zlen bs).

Lemma copied_spec lp bs : empty_piece lp -> Forall is_byte bs -> zlen bs <= kPieceCapacity ->
  piece_wf (copied lp bs) /\ piece_bytes (copied lp bs) = bs.
Proof using Type.
  intros (Hx & Ho' & Hl & Hd & Hb) Hbs Hz. pose proof (zlen_nonneg bs).
  rewrite /piece_wf /piece_bytes /copied /= wrap16_capacity //.
  rewrite Ho' zlen_splice; [|lia..]. rewrite slice_splice_same; [|lia..].
  split_and!; try done; try lia. by apply Forall_splice.
Qed.

Lemma move_part_spec u l p nx left bq bls : piece_wf p -> 0 < left < p_len p ->
  {{ l ↦ set_next p nx ∗ queue_rep bq bls ∗ pool u ∗ ⟪u < kMaxUsing⟫ }}
    move_part l (set_next p nx) left bq
  {{ bq', ∃ l2 lp, l ↦ set_next (advance p left) nx ∗ queue_rep bq' (bls ++ [(l2, lp)]) ∗ pool (u + 1) ∗
          ⟪piece_wf lp /\ piece_bytes lp = take (Z.to_nat left) (piece_bytes p)⟫ }}.
Proof using Type.
  iIntros (Hp Hleft Φ) "(Hl & Hbq & Hpool & %Hu) HΦ". rewrite /move_part.
  wp_bind. iApply (newPiece_spec with "[$Hpool //]"). iIntros (l2) "(%lp & Hl2 & %He & Hpool)".
  wp_bind. cbn [p_off set_next]. iApply wp_memcpy_window; [done|lia|].
  set (bs := take (Z.to_nat left) (piece_bytes p)).
  assert (zlen bs = left) as Hbs by (apply zlen_take_window; [done|lia]).
  assert (left <= kPieceCapacity) by (destruct Hp as (?&?&?&?&?); lia).
  destruct (copied_spec lp bs He) as [Hcw Hcb]; [apply Forall_take; by apply piece_bytes_byte|lia|].
  pose proof He as (_ & _ & _ & Hd2 & _).
  wp_bind. wp_load "Hl2". wp_bind. iApply wp_memcpy_to; [lia..|]. wp_bind. wp_store "Hl2".
  wp_bind. iApply (push_spec with "[$Hbq $Hl2]"). iIntros (bq') "Hbq".
  wp_bind. wp_load "Hl". wp_bind. wp_store "Hl". wp_ret. iApply "HΦ".
  iExists l2, (copied lp bs). rewrite /copied Hbs. iFrame "Hl Hbq Hpool". by rewrite -Hbs.
Qed.

(** The loop passes over the pieces that are shorter than [left], moving them
    whole, and takes [left] bytes of the first one that is not. *)
Lemma move_loop_spec fuel left q bq pre l p post bls :
  (length pre < fuel)%nat -> Forall (λ c, p_len c.2 < left) pre -> 0 < left <= p_len p ->
  cells_wf (pre ++ (l, p) :: post) -> cells_wf bls ->
  {{ queue_rep q (pre ++ (l, p) :: post) ∗ queue_rep bq bls ∗ pool (o + zlen (pre ++ (l, p) :: post) + zlen bls) ∗
     ⟪o + zlen (pre ++ (l, p) :: post) + zlen bls < kMaxUsing⟫ }}
    move_loop fuel left q bq
  {{ r, ∃ bls', queue_rep r.1 (cells_drop left ((l, p) :: post)) ∗ queue_rep r.2 bls' ∗
                pool (o + zlen (cells_drop left ((l, p) :: post)) + zlen bls') ∗
                ⟪cells_wf bls' /\
                 content bls' = content bls ++ content pre ++ take (Z.to_nat left) (piece_bytes p)⟫ }}.
Proof using Type.
  revert q bq pre bls. induction fuel as [|fuel IH]; intros q bq pre bls Hf Hpre Hleft Hwf Hbwf Φ; [lia|].
  iIntros "(Hq & Hbq & Hpool & %Hmax) HΦ". cbn [move_loop]. destruct pre as [|[l1 p1] pre]; cbn [app].
  - apply cells_wf_cons in Hwf as [Hp Hwf]. pose proof (zlen_piece_bytes p Hp) as Hz.
    iDestruct (queue_rep_first with "Hq") as "(-> & %nx & Hl & Hq)".
    wp_bind. iApply wp_deref. wp_bind. wp_load "Hl". cbn [p_len set_next cells_drop].
    rewrite (proj2 (Z.leb_le _ _)); [|lia]. destruct (left <? p_len p) eqn:E2; bool_cases.
    + wp_bind. iApply (move_part_spec with "[$Hl $Hbq $Hpool //]"); [done|lia|].
      iIntros (bq') "(%l2 & %lp & Hl & Hbq & Hpool & %Hlp & %Hb)". iDestruct ("Hq" $! (advance p left) with "Hl") as "Hq".
      wp_ret. iApply "HΦ". iExists _. cbn [fst snd]. iFrame "Hq Hbq". iSplitL.
      * rewrite zlen_app !zlen_cons zlen_nil.
        by replace (o + (1 + zlen post) + (zlen bls + (1 + 0))) with (o + (1 + zlen post) + zlen bls + 1) by lia.
      * iPureIntro. rewrite cells_wf_snoc content_snoc Hb. done.
    + iDestruct ("Hq" with "Hl") as "Hq". assert (left = p_len p) as -> by lia.
      iApply (pop_push_spec with "Hq Hbq"). iIntros (q' bq') "Hq Hbq".
      wp_ret. iApply "HΦ". iExists _. cbn [fst snd]. iFrame "Hq Hbq". iSplitL.
      * rewrite zlen_app !zlen_cons zlen_nil.
        by replace (o + zlen post + (zlen bls + (1 + 0))) with (o + (1 + zlen post) + zlen bls) by lia.
      * iPureIntro. rewrite cells_wf_snoc content_snoc take_piece_bytes //.
  - apply Forall_cons_1 in Hpre as [Hlt Hpre]. cbn in Hlt. apply cells_wf_cons in Hwf as [Hp1 Hwf].
    iDestruct (queue_rep_first with "Hq") as "(-> & %nx & Hl & Hq)".
    wp_bind. iApply wp_deref. wp_bind. wp_load "Hl". cbn [p_len set_next]. rewrite (proj2 (Z.leb_gt _ _)); [|lia].
    iDestruct ("Hq" with "Hl") as "Hq". iApply (pop_push_spec with "Hq Hbq"). iIntros (q' bq') "Hq Hbq".
    assert (o + zlen (pre ++ (l, p) :: post) + zlen (bls ++ [(l1, p1)]) =
            o + zlen ((l1, p1) :: pre ++ (l, p) :: post) + zlen bls) as Hcnt.
    { rewrite (zlen_app bls) !zlen_cons zlen_nil. lia. }
    iApply (IH with "[$Hq $Hbq Hpool]"); [cbn in Hf; lia|done..|by apply cells_wf_snoc| |].
    { rewrite Hcnt. by iFrame. }
    iIntros (r) "(%bls' & Hq & Hbq & Hpool & %Hbw & %Hbc)". iApply "HΦ". iExists bls'.
    iFrame. iPureIntro. split; [done|]. by rewrite Hbc content_snoc content_cons -!app_assoc.
Qed.

(** A null pointer is dereferenced when no piece is long enough. *)
Definition null_deref (e : Error) : Prop := e = NullDeref.

Lemma move_loop_runs_out fuel left q bq ls bls :
  (length ls < fuel)%nat -> Forall (λ c, p_len c.2 < left) ls ->
  queue_rep q ls ∗ queue_rep bq bls ⊢ wp null_deref (move_loop fuel left q bq) (λ _, False%I).
Proof using Type.
  revert q bq ls bls. induction fuel as [|fuel IH]; intros q bq ls bls Hf Hls; [lia|].
  iIntros "[Hq Hbq]". cbn [move_loop]. destruct ls as [|[l p] ls].
  - iDestruct (queue_rep_front with "Hq") as "[-> Hq]". wp_bind.
    iApply (wp_throw null_deref NullDeref with "[Hq Hbq]"); [done|]. iCombine "Hq Hbq" as "H". iExact "H".
  - apply Forall_cons_1 in Hls as [Hlt Hls]. cbn in Hlt.
    iDestruct (queue_rep_first with "Hq") as "(-> & %nx & Hl & Hq)".
    wp_bind. iApply wp_deref. wp_bind. wp_load "Hl". cbn [p_len set_next]. rewrite (proj2 (Z.leb_gt _ _)); [|lia].
    iDestruct ("Hq" with "Hl") as "Hq". iApply (pop_push_spec with "Hq Hbq"). iIntros (q' bq') "Hq Hbq".
    iApply (IH _ _ ls with "[$Hq $Hbq]"); [cbn in Hf; lia|done].
Qed.
End move.

Lemma read_buffer_pieces o b pre l p post buf2 n2 bs2 len :
  Forall (λ c, p_len c.2 < len) pre -> 0 < len <= p_len p ->
  {{ buf_rep b (pre ++ (l, p) :: post) ∗ buf buf2 n2 bs2 ∗ pool (o + zlen (pre ++ (l, p) :: post) + n2) ∗
     ⟪zlen bs2 + len < 2 ^ 64 /\ o + zlen (pre ++ (l, p) :: post) + n2 < kMaxUsing⟫ }}
    read_buffer b len buf2
  {{ r, ∃ ls2, queue_rep (b_queue r.1) (cells_drop len ((l, p) :: post)) ∗ queue_rep (b_queue r.2) ls2 ∗
               pool (o + zlen (cells_drop len ((l, p) :: post)) + zlen ls2) ∗
               ⟪cells_wf ls2 /\ content ls2 = bs2 ++ content pre ++ take (Z.to_nat len) (piece_bytes p) /\
                length_ r.1 = (zlen (content (pre ++ (l, p) :: post)) - len)%Z /\ length_ r.2 = (zlen bs2 + len)%Z⟫ }}.
Proof.
  iIntros (Hpre Hl Φ) "((Hq & %Hwf & %Hlen & %H64) &
    (%ls2 & (Hq2 & %Hwf2 & %Hlen2 & %H642) & %Hn2 & %Hbs2) & Hpool & %Hz & %Hmax) HΦ".
  subst n2 bs2. rewrite /read_buffer.
  assert (len <= zlen (content (pre ++ (l, p) :: post))) as Hc.
  { pose proof Hwf as [_ [Hp _]%cells_wf_cons]%cells_wf_app.
    rewrite content_app zlen_app content_cons zlen_app (zlen_piece_bytes p Hp).
    pose proof (zlen_nonneg (content pre)). pose proof (zlen_nonneg (content post)). lia. }
  wp_bind. iApply wp_assert; [lia|]. wp_bind. iApply wp_assert; [lia|].
  wp_bind. iApply (wp_mem_bound _ (pre ++ (l, p) :: post).*1 with "Hq"); [apply queue_rep_owned|].
  iIntros (k) "%Hk Hq". rewrite length_fmap length_app in Hk. cbn in Hk.
  wp_bind. iApply (move_loop_spec o with "[$Hq $Hq2 $Hpool //]"); try done; [lia|].
  iIntros ([q' bq']) "(%bls' & Hq & Hbq & Hpool & %Hbw & %Hbc)". wp_ret. iApply "HΦ".
  pose proof (zlen_nonneg (content ls2)).
  iExists bls'. cbn [fst snd b_queue length_] in *. iFrame. iPureIntro. rewrite Hlen Hlen2 !wrap_id; [done|lia..].
Qed.

Lemma read_buffer_runs_out b ls buf2 n2 bs2 len : 0 < len <= zlen (content ls) ->
  Forall (λ c, p_len c.2 < len) ls ->
  buf_rep b ls ∗ buf buf2 n2 bs2 ⊢ wp null_deref (read_buffer b len buf2) (λ _, False%I).
Proof.
  iIntros (Hl Hls) "[(Hq & %Hwf & %Hlen & %H64) (%ls2 & (Hq2 & _) & _)]". rewrite /read_buffer.
  wp_bind. iApply wp_assert; [lia|]. wp_bind. iApply wp_assert; [lia|].
  wp_bind. iApply (wp_mem_bound _ ls.*1 with "Hq"); [apply queue_rep_owned|].
  iIntros (k) "%Hk Hq". rewrite length_fmap in Hk. wp_bind. iApply (wp_wand _ _ (λ _, False%I)).
  iSplitL; [|by iIntros (a) "[]"]. iApply (move_loop_runs_out _ _ _ _ ls with "[$Hq $Hq2]"); [lia|done].
Qed.

(** Detaching the chain leaves an empty buffer; the chain is the caller's. *)
Lemma moveToQueueHead_spec b ls :
  buf_rep b ls ⊢
  lseg (moveToQueueHead b).1 ls None ∗ buf (moveToQueueHead b).2 0 [].
Proof.
  iIntros "((Hs & _ & _) & _)". iFrame "Hs". iApply Buffer_new_spec.
Qed.

(** [clear] frees the pieces without going through the pool. *)
Lemma clear_refines b n bs :
  {{ buf b n bs ∗ ⟪n < 2 ^ 32⟫ }} clear b {{ b', buf b' 0 [] }}.
Proof.
  iIntros (Φ) "((%ls & (Hq & %Hwf & %Hlen & %H64) & %Hn & %Hbs) & %Hmax) HΦ". subst n bs.
  rewrite /clear. wp_bind. iApply (wp_mem_bound _ ls.*1 with "Hq"); [apply queue_rep_owned|].
  iIntros (k) "%Hk Hq". rewrite length_fmap in Hk.
  wp_bind. iApply (drain_spec with "Hq"); [lia|done|]. iIntros (q') "Hq". wp_ret.
  iApply "HΦ". iExists []. rewrite /buf_rep /=. iFrame. iPureIntro.
  split_and!; try done. constructor.
Qed.

(** ** The abstract FIFO of bytes *)
Inductive fifo_op :=
  | OpWrite (d : list Z)
  | OpWriteInt32 (x : Z)
  | OpWriteInt16 (x : Z)
  | OpWriteInt8 (x : Z)
  | OpRead (len : Z)
  | OpReadInt32
  | OpReadInt16
  | OpReadInt8
  | OpPeekInt8
  | OpSkip (len : Z).

Inductive fifo_out :=
  | OutUnit
  | OutBytes (bs : list Z)
  | OutInt (z : Z).

(** The FIFO: [None] where the operation must not be called. *)
Definition fifo_step (bs : list Z) (op : fifo_op) : option (list Z * fifo_out) :=
  let get k f :=
    if Z.of_nat k <=? zlen bs
    then Some (drop k bs, OutInt (f (be_value (take k bs)))) else None in
  match op with
  | OpWrite d => if forallb (λ b, (0 <=? b) && (b <? 256)) d then Some (bs ++ d, OutUnit) else None
  | OpWriteInt32 x => Some (bs ++ be_bytes 4 x, OutUnit)
  | OpWriteInt16 x => Some (bs ++ be_bytes 2 x, OutUnit)
  | OpWriteInt8 x => Some (bs ++ be_bytes 1 x, OutUnit)
  | OpRead len =>
      if (0 <? len) && (len <=? zlen bs)
      then Some (drop (Z.to_nat len) bs, OutBytes (take (Z.to_nat len) bs)) else None
  | OpReadInt32 => get 4%nat int32
  | OpReadInt16 => get 2%nat int16
  | OpReadInt8 => get 1%nat int8
  | OpPeekInt8 =>
      if 1 <=? zlen bs then Some (bs, OutInt (int8 (be_value (take 1 bs)))) else None
  | OpSkip len =>
      if (0 <? len) && (len <=? zlen bs) then Some (drop (Z.to_nat len) bs, OutUnit) else None
  end.

Fixpoint fifo_run (bs : list Z) (ops : list fifo_op) : option (list Z * list fifo_out) :=
  match ops with
  | [] => Some (bs, [])
  | op :: ops =>
      '(bs, r) ← fifo_step bs op;
      '(bs, rs) ← fifo_run bs ops;
      Some (bs, r :: rs)
  end.

(** The same operations on a [Buffer]. *)
Definition buffer_step (b : Buffer) (op : fifo_op) : M (Buffer * fifo_out) :=
  let w m := b ← m; mret (b, OutUnit) in
  let r m := '(z, b) ← m; mret (b, OutInt z) in
  match op with
  | OpWrite d => w (write b d)
  | OpWriteInt32 x => w (writeInt32 b x)
  | OpWriteInt16 x => w (writeInt16 b x)
  | OpWriteInt8 x => w (writeInt8 b x)
  | OpRead len => '(d, b) ← read b len; mret (b, OutBytes d)
  | OpReadInt32 => r (readInt32 b)
  | OpReadInt16 => r (readInt16 b)
  | OpReadInt8 => r (readInt8 b)
  | OpPeekInt8 => z ← peekInt8 b; mret (b, OutInt z)
  | OpSkip len => w (skip b len)
  end.

Fixpoint buffer_run (b : Buffer) (ops : list fifo_op) : M (Buffer * list fifo_out) :=
  match ops with
  | [] => mret (b, [])
  | op :: ops =>
      '(b, r) ← buffer_step b op;
      '(b, rs) ← buffer_run b ops;
      mret (b, r :: rs)
  end.

(** An upper bound on the pieces an operation can allocate. *)
Definition op_cost (op : fifo_op) : Z :=
  match op with
  | OpWrite d => 1 + zlen d
  | OpWriteInt32 _ | OpWriteInt16 _ | OpWriteInt8 _ => 5
  | _ => 0
  end.
Definition ops_cost (ops : list fifo_op) : Z := foldr (λ op c, op_cost op + c) 0 ops.

Lemma buf_nonempty b n bs : 0 < zlen bs -> buf b n bs ⊢ ⟪0 < n⟫ ∗ buf b n bs.
Proof.
  iIntros (Hz) "(%ls & Hb & %Hn & %Hbs)". subst n bs.
  destruct (content_nonempty ls Hz) as (l & p & ls' & ->).
  iSplitR; [iPureIntro; rewrite zlen_cons; pose proof (zlen_nonneg ls'); lia|].
  iExists _. iFrame. done.
Qed.

Lemma forallb_bytes d :
  forallb (λ b, (0 <=? b) && (b <? 256)) d = true -> Forall is_byte d.
Proof.
  induction d as [|x d IH]; cbn; [constructor|]. intros H. bool_cases.
  constructor; [done | auto].
Qed.

Section refinement.
Context `{HPeak : Peak} (o : Z) (Ho : 0 <= o).

(** What a step of the buffer establishes. *)
Definition step_post (n cost : Z) (bs bs' : list Z) (r : fifo_out) (x : Buffer * fifo_out) : hProp :=
  (∃ n', ⟪x.2 = r⟫ ∗ buf x.1 n' bs' ∗ pool (o + n') ∗
         ⟪n' <= n + cost /\ zlen bs' <= zlen bs + cost⟫)%I.

Lemma write_step_refines b n bs d cost : Forall is_byte d -> 1 + zlen d <= cost ->
  {{ buf b n bs ∗ pool (o + n) ∗ ⟪o + n + cost < kMaxUsing /\ zlen bs + cost < 2 ^ 64⟫ }}
    b ← write b d; mret (b, OutUnit)
  {{ x, step_post n cost bs (bs ++ d) OutUnit x }}.
Proof using Type.
  iIntros (Hd Hcost Φ) "(Hb & Hpool & %Hm & %H64) HΦ". pose proof (zlen_nonneg d).
  wp_bind. iApply (write_refines with "[$Hb $Hpool]"); [iPureIntro; split_and!; [done|lia..]|].
  iIntros (b') "(%n' & Hb & Hpool & %Hpk)". wp_ret. iApply "HΦ". iExists n'. iFrame.
  iPureIntro. rewrite zlen_app kPieceCapacity_eq in Hpk |- *. split_and!; try done; lia.
Qed.

Lemma zlen_drop_le {A} k (bs : list A) : zlen (drop k bs) <= zlen bs.
Proof using Type. rewrite /zlen length_drop. lia. Qed.

Lemma read_step_refines b n bs k f (m : M (Z * Buffer)) : Z.of_nat k <= zlen bs ->
  {{ buf b n bs ∗ pool (o + n) ∗ ⟪Z.of_nat k <= zlen bs⟫ }} m
  {{ r, ∃ b' n', ⟪r = (f (be_value (take k bs)), b')⟫ ∗
                 buf b' n' (drop k bs) ∗ pool (o + n') ∗ ⟪n' <= n⟫ }} ->
  {{ buf b n bs ∗ pool (o + n) }}
    '(z, b) ← m; mret (b, OutInt z)
  {{ x, step_post n 0 bs (drop k bs) (OutInt (f (be_value (take k bs)))) x }}.
Proof using Type.
  iIntros (Hz Hm Φ) "[Hb Hpool] HΦ". wp_bind. iApply (Hm with "[$Hb $Hpool //]").
  iIntros (r) "(%b' & %n' & -> & Hb & Hpool & %Hle)". wp_ret. iApply "HΦ". iExists n'.
  iFrame. iPureIntro. pose proof (zlen_drop_le k bs). split_and!; try done; lia.
Qed.

Lemma buffer_step_refines b n bs op bs' r :
  fifo_step bs op = Some (bs', r) ->
  {{ buf b n bs ∗ pool (o + n) ∗
     ⟪o + n + op_cost op < kMaxUsing /\ zlen bs + op_cost op < 2 ^ 64⟫ }}
    buffer_step b op
  {{ x, step_post n (op_cost op) bs bs' r x }}.
Proof using Ho.
  intros Hstep Φ. destruct op; cbn [fifo_step buffer_step op_cost] in *;
    try (case_match eqn:E; [|done]); simplify_eq; bool_cases.
  - iApply write_step_refines; [by apply forallb_bytes|lia].
  - rewrite writeInt32_bytes. iApply write_step_refines; [apply be_bytes_byte|].
    rewrite zlen_be_bytes. lia.
  - rewrite writeInt16_bytes. iApply write_step_refines; [apply be_bytes_byte|].
    rewrite zlen_be_bytes. lia.
  - rewrite writeInt8_bytes. iApply write_step_refines; [apply be_bytes_byte|].
    rewrite zlen_be_bytes. lia.
  - iIntros "(Hb & Hpool & _) HΦ". wp_bind.
    iApply (read_refines o Ho with "[$Hb $Hpool //]").
    iIntros (x) "(%b' & %n' & -> & Hb & Hpool & %Hle)". wp_ret. iApply "HΦ". iExists n'.
    iFrame. iPureIntro. pose proof (zlen_drop_le (Z.to_nat len) bs). split_and!; try done; lia.
  - iIntros "(Hb & Hpool & _)". iApply (read_step_refines _ _ _ 4 with "[$]"); [done|].
    apply readInt32_refines, Ho.
  - iIntros "(Hb & Hpool & _)". iApply (read_step_refines _ _ _ 2 with "[$]"); [done|].
    apply readInt16_refines, Ho.
  - iIntros "(Hb & Hpool & _)". iApply (read_step_refines _ _ _ 1 with "[$]"); [done|].
    apply readInt8_refines, Ho.
  - iIntros "(Hb & Hpool & _) HΦ". wp_bind. iApply (peekInt8_refines with "[$Hb //]").
    iIntros (z) "[-> Hb]". wp_ret. iApply "HΦ". iExists n. iFrame. iPureIntro.
    split_and!; try done; lia.
  - iIntros "(Hb & Hpool & _) HΦ". wp_bind.
    iDestruct (buf_nonempty with "Hb") as "[%Hn Hb]"; [lia|].
    iApply (skip_refines o Ho with "[$Hb $Hpool]"); [iPureIntro; lia|].
    iIntros (b') "(%n' & Hb & Hpool & %Hle)". wp_ret. iApply "HΦ". iExists n'.
    iFrame. iPureIntro. pose proof (zlen_drop_le (Z.to_nat len) bs). split_and!; try done; lia.
Qed.

Lemma op_cost_nonneg op : 0 <= op_cost op.
Proof using Type. destruct op; cbn; try lia. pose proof (zlen_nonneg d). lia. Qed.

Lemma ops_cost_nonneg ops : 0 <= ops_cost ops.
Proof using Type.
  induction ops as [|op ops IH]; cbn; [lia|].
  pose proof (op_cost_nonneg op). change (0 <= op_cost op + ops_cost ops). lia.
Qed.

Lemma buffer_run_refines b n bs ops bs' rs :
  fifo_run bs ops = Some (bs', rs) ->
  {{ buf b n bs ∗ pool (o + n) ∗
     ⟪o + n + ops_cost ops < kMaxUsing /\ zlen bs + ops_cost ops < 2 ^ 64⟫ }}
    buffer_run b ops
  {{ x, ∃ n', ⟪x.2 = rs⟫ ∗ buf x.1 n' bs' ∗ pool (o + n') }}.
Proof using Ho.
  revert b n bs rs. induction ops as [|op ops IH]; intros b n bs rs Hrun Φ.
  - cbn in Hrun. simplify_eq. iIntros "(Hb & Hpool & _) HΦ". wp_ret. iApply "HΦ".
    iExists n. iFrame. done.
  - cbn [fifo_run] in Hrun. destruct (fifo_step bs op) as [[bs1 r]|] eqn:Es; [|done].
    cbn in Hrun. destruct (fifo_run bs1 ops) as [[bs2 rs']|] eqn:Er; [|done].
    cbn in Hrun. simplify_eq. iIntros "(Hb & Hpool & %Hm & %H64) HΦ".
    change (ops_cost (op :: ops)) with (op_cost op + ops_cost ops) in *.
    pose proof (op_cost_nonneg op). pose proof (ops_cost_nonneg ops).
    cbn [buffer_run]. wp_bind.
    iApply (buffer_step_refines with "[$Hb $Hpool]"); [done|iPureIntro; lia|].
    iIntros ([b1 r1]) "(%n1 & %Hr1 & Hb & Hpool & %Hn1 & %Hz1)". cbn in Hr1. subst r1.
    wp_bind. iApply (IH with "[$Hb $Hpool]"); [done|iPureIntro; lia|].
    iIntros ([b2 r2]) "(%n2 & %Hr2 & Hb & Hpool)". cbn in Hr2. subst r2. wp_ret.
    iApply "HΦ". iExists n2. iFrame. done.
Qed.
End refinement.

(** The pool of a process that just started. *)
Lemma init_pool `{HPeak : Peak} fill ndebug : hprop_holds (pool 0) (m_heap (init_mem fill ndebug)).
Proof.
  assert (obj_at pool_loc (OPool (mkPool queue_new 0)) ⊢ pool 0) as [H].
  { iIntros "H". iExists [], _. iFrame "H". iSplitL; [iApply queue_rep_nil|].
    iPureIntro. pose proof kMaxUsing_le. split_and!; [constructor|done|done|change (0 <= kMaxUsing); lia]. }
  by apply H.
Qed.

Lemma init_owns `{HPeak : Peak} fill ndebug : owns (init_mem fill ndebug) (pool 0).
Proof.
  split; [apply init_mem_wf|]. exists (m_heap (init_mem fill ndebug)), ∅. rewrite right_id_L.
  split_and!; [done|apply map_disjoint_empty_r|apply init_pool].
Qed.

(** Running from the initial memory under a specification. *)
Lemma run_from_init {A} fill ndebug (m : M A) (Q : A -> hProp) :
  {{ pool 0 }} m {{ x, Q x }} ->
  exists a s, m (init_mem fill ndebug) = Ok a s /\ mem_wf s /\ hprop_holds (Q a) (m_heap s).
Proof.
  intros H.
  pose proof (wp_adequacy no_error m (pool 0) Q (init_mem fill ndebug)
                (m_heap (init_mem fill ndebug)) ∅) as Ha.
  rewrite right_id_L in Ha. specialize (Ha ltac:(iIntros "Hp"; iApply (H with "Hp"); by iIntros (x) "$")
    (init_mem_wf _ _) eq_refl (map_disjoint_empty_r _) (init_pool _ _)).
  destruct (m (init_mem fill ndebug)) as [a s|e]; [|done].
  destruct Ha as (Hwf & _ & _ & h & Hs & _ & HQ). rewrite right_id_L in Hs. subst h.
  by exists a, s.
Qed.

(** ** The contract of the buffer layer *)

(** C5. A [Buffer] is a FIFO of bytes: for every sequence of writes, reads,
    skips and integer operations that the byte FIFO [fifo_run] allows, running
    the C++ operations from the start-up memory never fails (no assertion, no
    null or dangling access, no access outside a piece, in Debug and in Release
    builds alike, whatever fresh memory contains), returns exactly the FIFO's
    outputs, and ends in a heap that consists of the buffer's [n] pieces, which
    hold the FIFO's contents, and of the pool, whose [using_count_] is [n]:
    nothing is leaked. *)
Theorem buffer_refines_fifo fill ndebug ops bs outs :
  fifo_run [] ops = Some (bs, outs) ->
  ops_cost ops < kMaxUsing ->
  exists b n s,
    buffer_run Buffer_new ops (init_mem fill ndebug) = Ok (b, outs) s /\
    hprop_holds (buf b n bs ∗ pool n)%I (m_heap s).
Proof.
  intros Hrun Hcost. pose proof (ops_cost_nonneg ops).
  destruct (run_from_init fill ndebug (buffer_run Buffer_new ops)
              (λ x, ∃ n', ⟪x.2 = outs⟫ ∗ buf x.1 n' bs ∗ pool (0 + n'))%I) as ([b r] & s & Hs & _ & HQ).
  { iIntros (Φ) "Hp HΦ". iApply (buffer_run_refines 0 with "[Hp]"); [lia|done| |iApply "HΦ"].
    iSplitR; [iApply Buffer_new_spec|]. iSplitL; [by rewrite Z.add_0_r|].
    iPureIntro. pose proof kMaxUsing_le. rewrite zlen_nil. lia. }
  destruct HQ as [n HQ]. exists b, n, s.
  assert ((⟪r = outs⟫ ∗ buf b n bs ∗ pool (0 + n)) ⊢ ⌜r = outs⌝ ∧ (buf b n bs ∗ pool n))%I as [H1].
  { iIntros "(-> & Hb & Hp)". rewrite Z.add_0_l. iSplit; [done|]. iFrame. }
  apply H1 in HQ as [Hr HQ]. cbn in Hr. rewrite Hs -Hr. done.
Qed.

Lemma buffer_refines_fifo_witness :
  fifo_run [] [OpWrite [1; 2; 3]; OpWriteInt32 (-2); OpRead 2; OpSkip 1; OpReadInt32]
    = Some ([], [OutUnit; OutUnit; OutBytes [1; 2]; OutUnit; OutInt (-2)]) /\
  exists b n s,
    buffer_run Buffer_new [OpWrite [1; 2; 3]; OpWriteInt32 (-2); OpRead 2; OpSkip 1; OpReadInt32]
      (init_mem (λ _ _, 77) false)
      = Ok (b, [OutUnit; OutUnit; OutBytes [1; 2]; OutUnit; OutInt (-2)]) s /\
    hprop_holds (buf b n [] ∗ pool n)%I (m_heap s).
Proof.
  split; [vm_compute; reflexivity|].
  apply (buffer_refines_fifo (λ _ _, 77) false
           [OpWrite [1; 2; 3]; OpWriteInt32 (-2); OpRead 2; OpSkip 1; OpReadInt32] []
           [OutUnit; OutUnit; OutBytes [1; 2]; OutUnit; OutInt (-2)]);
    vm_compute; reflexivity.
Defined.

(** C36. [peekInt32] on a buffer that holds at least four bytes: when they lie
    in one piece it returns the big-endian integer they encode and leaves the
    buffer as it is; when they are split over two pieces the [memcpy] of the
    second part goes to [&t + k] with [k >= 1] counted in whole [T]s, that is
    behind the local variable, and the call always ends in an out-of-bounds
    write. *)
Theorem peekInt32_contiguous_or_overflow b ls :
  4 <= zlen (content ls) ->
  (4 <= first_len ls ->
   {{ buf_rep b ls }} peekInt32 b
   {{ r, ⟪r = int32 (be_value (take 4 (content ls)))⟫ ∗ buf_rep b ls }}) /\
  (first_len ls < 4 -> buf_rep b ls ⊢ wp out_of_bounds (peekInt32 b) (λ _, False%I)).
Proof.
  intros Hz. split; [intros; by apply peekInt32_refines|].
  iIntros (Hf) "(Hq & %Hwf & %Hlen & %H64)". rewrite /peekInt32.
  wp_bind. iApply wp_assert; [lia|]. wp_bind.
  pose proof (first_len_pos ls Hwf ltac:(lia)).
  iApply (wp_wand _ _ (λ _, False%I)). iSplitL; [|by iIntros (a) "[]"].
  iApply (peek_overflows b ls); [lia|done|]. iFrame. by iPureIntro.
Qed.

(** Four bytes that start two bytes before the end of a piece. *)
Definition split_int : M Z :=
  b ← write Buffer_new (replicate 4094 0);
  b ← writeInt32 b 7;
  '(_, b) ← read b 4094;
  peekInt32 b.

Lemma peekInt32_contiguous_or_overflow_witness :
  split_int (init_mem (λ _ _, 0) true) = Err OutOfBounds /\
  (4 <= first_len [(2%positive, mkPiece None 0 4 (replicate 4096 1))] ->
   {{ buf_rep (mkBuffer (mkQueue (Some 2%positive) (Some 2%positive) 1) 4)
        [(2%positive, mkPiece None 0 4 (replicate 4096 1))] }}
     peekInt32 (mkBuffer (mkQueue (Some 2%positive) (Some 2%positive) 1) 4)
   {{ r, ⟪r = int32 (be_value (take 4 (content [(2%positive, mkPiece None 0 4 (replicate 4096 1))])))⟫ ∗
         buf_rep (mkBuffer (mkQueue (Some 2%positive) (Some 2%positive) 1) 4)
           [(2%positive, mkPiece None 0 4 (replicate 4096 1))] }}).
Proof.
  split; [vm_compute; reflexivity|].
  apply (peekInt32_contiguous_or_overflow
           (mkBuffer (mkQueue (Some 2%positive) (Some 2%positive) 1) 4)
           [(2%positive, mkPiece None 0 4 (replicate 4096 1))]).
  vm_compute. discriminate.
Defined.

(** [read(size_t len, Buffer* buf)], by the pieces of the source.  Let [p] be
    its first piece with at least [len] bytes: the destination receives [len]
    bytes of [p] behind all the pieces before [p], and the lengths of both
    buffers change by [len].  So when the first piece is long enough exactly the
    first [len] bytes move; otherwise more bytes move than the two lengths say.
    When there is no such piece the whole queue moves and the next step
    dereferences the null pointer. *)
Lemma read_buffer_by_pieces o b pre l p post buf2 n2 bs2 len :
  ({{ buf_rep b (pre ++ (l, p) :: post) ∗ buf buf2 n2 bs2 ∗ pool (o + zlen (pre ++ (l, p) :: post) + n2) ∗
      ⟪Forall (λ c, p_len c.2 < len) pre /\ 0 < len <= p_len p /\ zlen bs2 + len < 2 ^ 64 /\
       o + zlen (pre ++ (l, p) :: post) + n2 < kMaxUsing⟫ }}
     read_buffer b len buf2
   {{ r, ∃ ls2, queue_rep (b_queue r.1) (cells_drop len ((l, p) :: post)) ∗ queue_rep (b_queue r.2) ls2 ∗
                pool (o + zlen (cells_drop len ((l, p) :: post)) + zlen ls2) ∗
                ⟪cells_wf ls2 /\ content ls2 = bs2 ++ content pre ++ take (Z.to_nat len) (piece_bytes p) /\
                 length_ r.1 = (zlen (content (pre ++ (l, p) :: post)) - len)%Z /\ length_ r.2 = (zlen bs2 + len)%Z⟫ }}) /\
  (buf_rep b pre ∗ buf buf2 n2 bs2 ∗ ⟪Forall (λ c, p_len c.2 < len) pre /\ 0 < len <= zlen (content pre)⟫ ⊢
     wp null_deref (read_buffer b len buf2) (λ _, False%I)).
Proof.
  split.
  - iIntros (Φ) "(Hb & Hb2 & Hp & %Hpre & %Hl & %H)". by iApply (read_buffer_pieces with "[$Hb $Hb2 $Hp //]").
  - iIntros "(Hb & Hb2 & %Hpre & %Hl)". iApply read_buffer_runs_out; [done..|]. iFrame.
Qed.

(** Two runs.  Moving 4500 of 5000 bytes, which are in two pieces, runs into the
    null pointer; with a first piece of five bytes, moving ten moves fifteen, and
    reading the 95 bytes that the source then claims to hold does the same. *)
Lemma read_buffer_across_pieces :
  (b ← write Buffer_new (replicate 5000 1); read_buffer b 4500 Buffer_new) (init_mem (λ _ _, 0) true) = Err NullDeref /\
  (b ← write Buffer_new (replicate 4196 1); b ← skip b 4091; '(b, b2) ← read_buffer b 10 Buffer_new;
   assert_ ((length_ b =? 95) && (length_ b2 =? 10));; read b (length_ b)) (init_mem (λ _ _, 0) false) = Err NullDeref.
Proof. split; vm_compute; reflexivity. Qed.

(** ** The allocator under any sequence of requests

    Threads share the pool through its mutex; what they can do to it is an
    arbitrary interleaving of [newPiece] and of [deletePiece] of a piece handed
    out before (given by its position among the outstanding ones). *)
Inductive alloc_op := New | Delete (i : nat).

Fixpoint alloc_run (ops : list alloc_op) (held : list loc) : M (list loc) :=
  match ops with
  | [] => mret held
  | New :: ops => l ← newPiece; alloc_run ops (held ++ [l])
  | Delete i :: ops =>
      match held !! i with
      | Some l => deletePiece (Some l);; alloc_run ops (delete i held)
      | None => alloc_run ops held
      end
  end.

Definition holds_pieces (held : list loc) : hProp :=
  ([∗ list] l ∈ held, ∃ p, l ↦ p ∗ ⟪data_ok p⟫)%I.

Lemma holds_pieces_delete i held l : held !! i = Some l ->
  holds_pieces held ⊢ (∃ p, l ↦ p ∗ ⟪data_ok p⟫) ∗ holds_pieces (delete i held).
Proof.
  intros Hi. rewrite /holds_pieces -{1}(take_drop_middle held i l Hi) delete_take_drop.
  rewrite !big_sepL_app big_sepL_cons. iIntros "($ & $ & $)".
Qed.

Lemma alloc_run_spec ops held :
  {{ pool (zlen held) ∗ holds_pieces held ∗ ⟪zlen held + zlen ops < kMaxUsing⟫ }}
    alloc_run ops held
  {{ held', pool (zlen held') ∗ holds_pieces held' }}.
Proof.
  revert held. induction ops as [|[|i] ops IH]; intros held Φ; cbn [alloc_run].
  - iIntros "(Hp & Hh & _) HΦ". wp_ret. iApply "HΦ". iFrame.
  - iIntros "(Hp & Hh & %Hm) HΦ". rewrite zlen_cons in Hm. pose proof (zlen_nonneg ops).
    wp_bind. iApply (newPiece_spec with "[$Hp]"); [iPureIntro; lia|].
    iIntros (l) "(%p & Hl & %He & Hp)". iApply (IH with "[Hp Hh Hl]"); [|done].
    rewrite zlen_app zlen_cons zlen_nil Z.add_0_r. iFrame "Hp". iSplitL; [|iPureIntro; lia].
    rewrite /holds_pieces big_sepL_app /=. iFrame. iPureIntro.
    by apply piece_wf_data, empty_piece_wf.
  - iIntros "(Hp & Hh & %Hm) HΦ". rewrite zlen_cons in Hm. destruct (held !! i) as [l|] eqn:Hi.
    + rewrite (holds_pieces_delete i held l Hi). iDestruct "Hh" as "[(%p & Hl & %Hd) Hh]".
      pose proof (length_delete held i ltac:(eauto)) as Hlen.
      pose proof (lookup_lt_Some _ _ _ Hi). wp_bind.
      iApply (deletePiece_spec with "[$Hp $Hl]"); [iPureIntro; rewrite /zlen; split; [lia|done]|].
      iIntros (?) "Hp". iApply (IH with "[$Hh Hp]"); [|done].
      assert (zlen (delete i held) = zlen held - 1) as -> by (rewrite /zlen; lia).
      iFrame. iPureIntro. lia.
    + iApply (IH with "[$Hp $Hh]"); [iPureIntro; lia|done].
Qed.

(** The outstanding and the cached pieces together with the pool object. *)
Lemma pool_held_pieces held :
  pool (zlen held) ∗ holds_pieces held ⊢
  ∃ q (cached : cells), ⌜zlen cached <= zlen held + BASE_CACHE_COUNT⌝ ∧
    (obj_at pool_loc (OPool (mkPool q (zlen held))) ∗
     [∗ list] l ∈ (held ++ cached.*1), ∃ p, l ↦ p).
Proof.
  iIntros "[(%ls & %q & Hp & (Hs & _ & _) & _ & %Hls & _) Hh]". iExists q, ls.
  iSplit; [done|]. iFrame "Hp". rewrite big_sepL_app lseg_pieces. iFrame "Hs".
  rewrite /holds_pieces. iApply (big_sepL_mono with "Hh").
  iIntros (i l _) "(%p & Hl & _)". iExists p. iFrame.
Qed.

(** C28. The piece allocator never hands out a piece twice and counts exactly:
    after any interleaving of [newPiece] and [deletePiece] from start-up, the
    outstanding pieces are distinct live objects, none of them is cached,
    [using_count_] is their number, and the pool caches at most [using_count_ +
    BASE_CACHE_COUNT] pieces. *)
Theorem allocator_exclusive_and_bounded fill ndebug ops :
  zlen ops < kMaxUsing ->
  exists held s q (cached : cells),
    alloc_run ops [] (init_mem fill ndebug) = Ok held s /\
    NoDup (held ++ cached.*1) /\
    (forall l, l ∈ held ++ cached.*1 -> exists p, m_heap s !! l = Some (OPiece p)) /\
    m_heap s !! pool_loc = Some (OPool (mkPool q (zlen held))) /\
    zlen cached <= zlen held + BASE_CACHE_COUNT.
Proof.
  intros Hops.
  destruct (run_from_init fill ndebug (alloc_run ops [])
              (λ held, pool (zlen held) ∗ holds_pieces held)%I) as (held & s & Hs & _ & HQ).
  { iIntros (Φ) "Hp HΦ". iApply (alloc_run_spec ops [] with "[Hp]"); [|done].
    rewrite zlen_nil. iFrame "Hp". iSplitL; [by rewrite /holds_pieces|]. iPureIntro. lia. }
  destruct (pool_held_pieces held) as [Hent].
  apply Hent in HQ as (q & cached & Hb & HQ). apply obj_at_split in HQ as (h2 & Hh & Hl & HQ).
  apply owned_pieces in HQ as (Hnd & Hin & _). exists held, s, q, cached. rewrite Hh.
  split_and!; try done; [|by simplify_map_eq].
  intros l Hl'. destruct (Hin l Hl') as [p Hp]. exists p.
  rewrite lookup_insert_ne //. intros <-. congruence.
Qed.

Lemma allocator_exclusive_and_bounded_witness :
  zlen [New; New; Delete 0; New; Delete 1] < kMaxUsing /\
  exists held s q (cached : cells),
    alloc_run [New; New; Delete 0; New; Delete 1] [] (init_mem (λ _ _, 0) false) = Ok held s /\
    NoDup (held ++ cached.*1) /\
    (forall l, l ∈ held ++ cached.*1 -> exists p, m_heap s !! l = Some (OPiece p)) /\
    m_heap s !! pool_loc = Some (OPool (mkPool q (zlen held))) /\
    zlen cached <= zlen held + BASE_CACHE_COUNT.
Proof.
  split; [vm_compute; reflexivity|].
  apply (allocator_exclusive_and_bounded (λ _ _, 0) false [New; New; Delete 0; New; Delete 1]).
  vm_compute. reflexivity.
Defined.

(** [Buffer::clear] (and so the destructor) empties the buffer and frees its
    pieces with [delete] instead of [deletePiece]: the pool object is not
    touched, so its [using_count_] still counts the freed pieces and the bound
    of its cache grows with every buffer that is destroyed non-empty. *)
Lemma clear_bypasses_pool b n bs u :
  {{ buf b n bs ∗ pool u ∗ ⟪n < 2 ^ 32⟫ }} clear b {{ b', buf b' 0 [] ∗ pool u }}.
Proof.
  iIntros (Φ) "(Hb & Hp & %Hn) HΦ". iApply (clear_refines with "[$Hb //]").
  iIntros (b') "Hb". iApply "HΦ". iFrame.
Qed.
