(* ===== verification/ConnBuffers.v ===== *)
(** * The two buffers of a connection

    [TCPConn::InputBuffer] and [TCPConn::OutputBuffer] of
    [netpp/net/tcp_conn.cpp]: received pieces are appended to the input buffer
    ([writePiece]), chains of pieces are handed to the output buffer
    ([writePieceQueue]) and taken out one coalesced piece at a time
    ([readPiece]).

    The specifications say what each operation does to the bytes, and, the
    logic being linear, what becomes of every piece: [readPiece] and
    [writePieceQueue] leave pieces behind that nobody owns any more. *)

From stdpp Require Import base tactics list numbers gmap.
From iris.proofmode Require Import proofmode.
From Stdlib Require Import ZArith Lia.
From S2P Require Import Prelude Machine HeapLogic Piece Buffer BufferSpec.

(** ** Operations *)

(** [if (p->off > 0) { memmove(p->data, p->data + p->off, p->len); p->off = 0; }] *)
Definition compact (l : loc) : M unit :=
  p ← load l;
  if 0 <? p_off p then
    bs ← memcpy_from p (p_off p) (p_len p);
    p ← memcpy_to p 0 bs;
    store l (set_off p 0)
  else mret tt.

(** [memcpy(to->data + to->len, from->data + from->off, from->len);
     to->len += from->len;] *)
Definition absorb (to from : loc) : M unit :=
  tp ← load to;
  fp ← load from;
  bs ← memcpy_from fp (p_off fp) (p_len fp);
  tp ← memcpy_to tp (p_len tp) bs;
  store to (set_len tp (p_len tp + p_len fp)).

(** [TCPConn::InputBuffer::writePiece] *)
Definition writePiece (b : Buffer) (item : loc) : M Buffer :=
  ip ← load item;
  assert_ (0 <? p_len ip);;
  fits ← match back (b_queue b) with
         | Some l => lp ← load l; mret (p_len lp + p_len ip <=? kPieceCapacity)
         | None => mret false
         end;
  q ← (if fits : bool then
         last ← deref (back (b_queue b));
         compact last;;
         absorb last item;;
         deletePiece (Some item);;
         mret (b_queue b)
       else push (b_queue b) (Some item));
  ip ← load item;
  mret (mkBuffer q (size_t (length_ b + p_len ip))).

(** The [while] loop of [readPiece]. *)
Fixpoint coalesce (fuel : nat) (first : loc) (q : Queue) : M Queue :=
  match fuel with
  | O => throw OutOfFuel
  | S fuel =>
      fp ← load first;
      if p_len fp <? kPieceCapacity then
        match front q with
        | Some next =>
            np ← load next;
            if p_len fp + p_len np <=? kPieceCapacity then
              compact first;;
              '(_, q) ← pop q;
              absorb first next;;
              coalesce fuel first q
            else mret q
        | None => mret q
        end
      else mret q
  end.

(** [TCPConn::OutputBuffer::readPiece] *)
Definition readPiece (b : Buffer) : M (ptr * Buffer) :=
  assert_ (0 <? length_ b);;
  '(first, q) ← pop (b_queue b);
  match first with
  | Some l =>
      fuel ← mem_bound;
      q ← coalesce fuel l q;
      p ← load l;
      mret (first, mkBuffer q (size_t (length_ b - p_len p)))
  | None => mret (first, mkBuffer q (length_ b))
  end.

(** The [while (item)] loop of [writePieceQueue]. *)
Fixpoint queue_pieces (fuel : nat) (b : Buffer) (item : ptr) : M Buffer :=
  match fuel with
  | O => throw OutOfFuel
  | S fuel =>
      match item with
      | None => mret b
      | Some l =>
          p ← load l;
          assert_ (0 <? p_len p);;
          q ← push (b_queue b) item;
          p ← load l;
          queue_pieces fuel (mkBuffer q (size_t (length_ b + p_len p))) (p_next p)
      end
  end.

(** [TCPConn::OutputBuffer::writePieceQueue] *)
Definition writePieceQueue (b : Buffer) (queue_head : ptr) : M Buffer :=
  assert_ (bool_decide (queue_head ≠ None));;
  fuel ← mem_bound;
  queue_pieces (S fuel) b queue_head.

(** ** Moving a window to the front of its piece *)
Definition compacted (p : Piece) : Piece :=
  if 0 <? p_off p then set_off (set_data p (splice 0 (piece_bytes p) (p_data p))) 0 else p.

Lemma compacted_spec p : piece_wf p ->
  piece_wf (compacted p) /\ piece_bytes (compacted p) = piece_bytes p /\
  p_off (compacted p) = 0 /\ p_len (compacted p) = p_len p.
Proof.
  intros Hp. pose proof Hp as (Hd & Hb & Ho & Hl & Hc). rewrite /compacted.
  pose proof (zlen_piece_bytes p Hp) as Hz.
  destruct (0 <? p_off p) eqn:E; bool_cases.
  - assert (slice 0 (p_len p) (splice 0 (piece_bytes p) (p_data p)) = piece_bytes p) as Hs.
    { rewrite -{1}Hz. apply slice_splice_same; lia. }
    set (p' := set_off _ 0). assert (p_off p' = 0) as Ho' by (cbn; rewrite wrap16_capacity; lia).
    rewrite /piece_wf {1}/piece_bytes Ho' /= zlen_splice; [|lia..].
    split_and!; try done; try lia. apply Forall_splice; [done|by apply piece_bytes_byte].
  - split_and!; try done. lia.
Qed.

Lemma compact_spec l p nx : piece_wf p ->
  {{ l ↦ set_next p nx }} compact l {{ r, l ↦ set_next (compacted p) nx }}.
Proof.
  iIntros (Hp Φ) "Hl HΦ". pose proof Hp as (Hd & Hb & Ho & Hl & Hc).
  pose proof (zlen_piece_bytes p Hp) as Hz. rewrite /compact /compacted.
  wp_bind. wp_load "Hl". cbn [p_off set_next].
  destruct (0 <? p_off p) eqn:E; bool_cases.
  - wp_bind. iApply wp_memcpy_window; [done|cbn; lia|]. cbn [p_len set_next].
    rewrite take_piece_bytes //. wp_bind. iApply wp_memcpy_to; [lia|cbn; lia|].
    wp_store "Hl". by iApply "HΦ".
  - wp_ret. by iApply "HΦ".
Qed.

Lemma fill_at_zero p bs : p_off p = 0 ->
  fill p bs = set_len (set_data p (splice (p_len p) bs (p_data p))) (p_len p + zlen bs).
Proof. intros E. by rewrite /fill E. Qed.

(** Appending one piece's bytes to a compacted piece. *)
Lemma absorb_spec l p nx l2 p2 nx2 :
  piece_wf p -> piece_wf p2 -> p_off p = 0 -> p_len p + p_len p2 <= kPieceCapacity ->
  {{ l ↦ set_next p nx ∗ l2 ↦ set_next p2 nx2 }} absorb l l2
  {{ r, l ↦ set_next (fill p (piece_bytes p2)) nx ∗ l2 ↦ set_next p2 nx2 }}.
Proof.
  iIntros (Hp Hp2 Ho Hc Φ) "[Hl Hl2] HΦ". rewrite /absorb.
  pose proof Hp as (Hd & _ & _ & Hpl & _). pose proof (zlen_piece_bytes p2 Hp2) as Hz.
  pose proof Hp2 as (_ & _ & _ & Hpl2 & _).
  wp_bind. wp_load "Hl". wp_bind. wp_load "Hl2".
  wp_bind. iApply wp_memcpy_window; [done|cbn; lia|]. cbn [p_len set_next].
  rewrite take_piece_bytes //. wp_bind. iApply wp_memcpy_to; [cbn; lia|cbn; lia|].
  wp_store "Hl". iApply "HΦ". iFrame "Hl2". rewrite fill_at_zero // Hz. iFrame.
Qed.

Lemma fill_compacted p p2 : piece_wf p -> piece_wf p2 ->
  p_len p + p_len p2 <= kPieceCapacity ->
  piece_wf (fill (compacted p) (piece_bytes p2)) /\
  piece_bytes (fill (compacted p) (piece_bytes p2)) = piece_bytes p ++ piece_bytes p2 /\
  p_len (fill (compacted p) (piece_bytes p2)) = p_len p + p_len p2.
Proof.
  intros Hp Hp2 Hc. destruct (compacted_spec p Hp) as (Hw & Hb & Ho & Hl).
  pose proof (zlen_piece_bytes p2 Hp2) as Hz.
  pose proof Hp as (_ & _ & _ & Hpl & _). pose proof Hp2 as (_ & _ & _ & Hpl2 & _).
  split_and!.
  - apply fill_wf; [done|by apply piece_bytes_byte|rewrite Ho Hl Hz; lia].
  - rewrite fill_bytes ?Hb //. rewrite Ho Hl Hz; lia.
  - rewrite /fill /= Hl Hz wrap16_capacity; lia.
Qed.

(** ** The input buffer *)
Lemma load_cell {A} l p nx (k : Piece -> M A) E Φ :
  l ↦ set_next p nx -∗ (l ↦ set_next p nx -∗ wp E (k (set_next p nx)) Φ) -∗
  wp E (q ← load l; k q) Φ.
Proof. iIntros "Hl Hk". wp_bind. iApply (wp_load with "Hl"). done. Qed.

Lemma buf_rep_extend b q ls ls' bs :
  cells_wf ls' -> content ls' = content ls ++ bs -> zlen (content ls) + zlen bs < 2 ^ 64 ->
  length_ b = zlen (content ls) ->
  queue_rep q ls' ⊢ buf_rep (mkBuffer q (size_t (length_ b + zlen bs))) ls'.
Proof.
  iIntros (Hwf Hc H64 Hlen) "$". iPureIntro. rewrite Hc zlen_app Hlen /=.
  pose proof (zlen_nonneg (content ls)). pose proof (zlen_nonneg bs).
  rewrite wrap_id; [done|lia].
Qed.

(** The received piece does not fit behind the last one: it is queued. *)
Lemma writePiece_queues b ls item ip :
  piece_wf ip -> 0 < p_len ip -> zlen (content ls) + p_len ip < 2 ^ 64 ->
  (forall l lp, last ls = Some (l, lp) -> kPieceCapacity < p_len lp + p_len ip) ->
  {{ buf_rep b ls ∗ item ↦ ip }} writePiece b item {{ b', buf_rep b' (ls ++ [(item, ip)]) }}.
Proof.
  iIntros (Hip Hpos H64 Hfit Φ) "[(Hq & %Hwf & %Hlen & _) Hi] HΦ". rewrite /writePiece.
  wp_bind. wp_load "Hi". wp_bind. iApply wp_assert; [lia|]. wp_bind.
  iAssert (∀ Ψ, (queue_rep (b_queue b) ls -∗ Ψ false) -∗ wp no_error
             (match back (b_queue b) with
              | Some l => lp ← load l; mret (p_len lp + p_len ip <=? kPieceCapacity)
              | None => mret false end) Ψ)%I with "[Hq]" as "Hfits".
  { iIntros (Ψ) "HΨ". destruct ls as [|[l lp] ls _] using rev_ind.
    - iDestruct (queue_rep_back_nil with "Hq") as "[-> Hq]". wp_ret. by iApply "HΨ".
    - specialize (Hfit l lp (last_snoc _ _)).
      iDestruct (queue_rep_last with "Hq") as "(-> & Hl & Hq)".
      iApply (load_cell with "Hl"). iIntros "Hl". cbn [p_len set_next].
      rewrite (proj2 (Z.leb_gt _ _)) //. wp_ret. iApply "HΨ". by iApply "Hq". }
  iApply "Hfits". iIntros "Hq". wp_bind. iApply (push_spec with "[$Hq $Hi]"). iIntros (q') "Hq".
  iDestruct (queue_rep_last with "Hq") as "(_ & Hi & Hq)".
  iApply (load_cell with "Hi"). iIntros "Hi". iDestruct ("Hq" with "Hi") as "Hq".
  wp_ret. iApply "HΦ". cbn [p_len set_next]. rewrite -(zlen_piece_bytes ip Hip) in H64 |- *.
  iApply (buf_rep_extend b q' ls with "Hq"); try done.
  - by apply cells_wf_snoc.
  - by rewrite content_snoc.
Qed.

(** It fits: its bytes are copied and the piece goes back to the pool; its
    length is read after that, which is safe while the pool caches it. *)
Lemma writePiece_merges `{HPeak : Peak} b ls l p item ip cached u :
  piece_wf ip -> 0 < p_len ip -> zlen (content (ls ++ [(l, p)])) + p_len ip < 2 ^ 64 ->
  p_len p + p_len ip <= kPieceCapacity -> 1 <= u -> zlen cached < u - 1 + BASE_CACHE_COUNT ->
  {{ buf_rep b (ls ++ [(l, p)]) ∗ item ↦ ip ∗ pool_rep cached u }} writePiece b item
  {{ b', buf_rep b' (ls ++ [(l, fill (compacted p) (piece_bytes ip))]) ∗ pool (u - 1) }}.
Proof.
  iIntros (Hip Hpos H64 Hfit Hu Hroom Φ) "((Hq & %Hwf & %Hlen & _) & Hi & Hpool) HΦ".
  pose proof Hwf as [Hwf' Hp]%cells_wf_snoc. rewrite /writePiece.
  wp_bind. wp_load "Hi". wp_bind. iApply wp_assert; [lia|].
  iDestruct (queue_rep_last with "Hq") as "(-> & Hl & Hq)". wp_bind.
  iApply (load_cell with "Hl"). iIntros "Hl". cbn [p_len set_next].
  rewrite (proj2 (Z.leb_le _ _)) //. wp_ret. wp_bind. wp_bind. iApply wp_deref.
  wp_bind. iApply (compact_spec with "Hl"); [done|]. iIntros (?) "Hl".
  destruct (compacted_spec p Hp) as (Hcw & Hcb & Hco & Hcl).
  destruct (fill_compacted p ip Hp Hip Hfit) as (Hfw & Hfb & Hfl).
  wp_bind. iApply (absorb_spec _ _ _ _ ip (p_next ip) with "[$Hl Hi]"); try done; [lia|by destruct ip|].
  iIntros (?) "[Hl Hi]". iDestruct ("Hq" with "Hl") as "Hq".
  wp_bind. iApply (deletePiece_exact_spec with "[$Hpool $Hi]"); [done|by apply piece_wf_data|].
  iIntros (?) "Hpool". rewrite /cache_after (proj2 (Z.ltb_lt _ _)) //. wp_ret.
  iDestruct "Hpool" as "(%pq & Hp & Hpq & %Hpp)".
  iDestruct (queue_rep_last with "Hpq") as "(_ & Hi & Hpq)". rewrite set_next_next.
  iApply (load_cell with "Hi"). iIntros "Hi". iDestruct ("Hpq" $! ip with "Hi") as "Hpq".
  wp_ret. iApply "HΦ". cbn [p_len set_next]. iSplitL "Hq".
  - rewrite -(zlen_piece_bytes ip Hip) in H64 |- *.
    iApply (buf_rep_extend b _ (ls ++ [(l, p)]) with "Hq"); try done.
    + by apply cells_wf_snoc.
    + by rewrite !content_snoc Hfb app_assoc.
  - iExists (cached ++ [(item, ip)]), pq. iFrame. iPureIntro.
    destruct Hpp as (Hd & Hz & Hu'). rewrite fmap_app in Hd. rewrite zlen_app zlen_cons in Hz, Hu'.
    rewrite fmap_app zlen_app zlen_cons. split_and!; try done; [|lia..].
    apply Forall_app in Hd as [? _]. apply Forall_app. split; [done|].
    constructor; [by apply piece_wf_data|constructor].
Qed.

(** ** The output buffer *)

(** [coalesce] joins a prefix of the queue to the piece taken out; the pieces
    of that prefix are dropped from the queue and kept by nobody. *)
Lemma coalesce_spec fuel first fp nx q ls :
  (length ls < fuel)%nat -> piece_wf fp -> cells_wf ls ->
  {{ first ↦ set_next fp nx ∗ queue_rep q ls }} coalesce fuel first q
  {{ q', ∃ p' nx' joined rest,
       ⟪ls = joined ++ rest /\ piece_wf p' /\
        piece_bytes p' = piece_bytes fp ++ content joined⟫ ∗
       first ↦ set_next p' nx' ∗ queue_rep q' rest ∗ loose joined }}.
Proof.
  revert fp nx q ls. induction fuel as [|fuel IH]; intros fp nx q ls Hf Hp Hwf Φ; [lia|].
  iIntros "[Hfirst Hq] HΦ". cbn [coalesce]. iApply (load_cell with "Hfirst"). iIntros "Hfirst".
  cbn [p_len set_next].
  iAssert (∀ q, first ↦ set_next fp nx -∗ queue_rep q ls -∗
    (∀ q', (∃ p' nx' joined rest, ⟪ls = joined ++ rest /\ piece_wf p' /\
        piece_bytes p' = piece_bytes fp ++ content joined⟫ ∗
       first ↦ set_next p' nx' ∗ queue_rep q' rest ∗ loose joined) -∗ Φ q') -∗
    wp no_error (mret q) Φ)%I as "Hstop".
  { iIntros (q0) "Hfirst Hq HΦ". wp_ret. iApply "HΦ". iExists fp, nx, [], ls. iFrame.
    iSplitR; [|by rewrite /loose]. iPureIntro. by rewrite app_nil_r. }
  destruct (p_len fp <? kPieceCapacity) eqn:E; bool_cases; [|iApply ("Hstop" with "Hfirst Hq HΦ")].
  destruct ls as [|[l p] ls].
  { iDestruct (queue_rep_front with "Hq") as "[-> Hq]". iApply ("Hstop" with "Hfirst Hq HΦ"). }
  pose proof Hwf as [Hp2 Hwf']%cells_wf_cons.
  iDestruct (queue_rep_first with "Hq") as "(-> & %nx2 & Hl & Hq)".
  iApply (load_cell with "Hl"). iIntros "Hl". iDestruct ("Hq" with "Hl") as "Hq".
  cbn [p_len set_next].
  destruct (p_len fp + p_len p <=? kPieceCapacity) eqn:E2; bool_cases;
    [|iApply ("Hstop" with "Hfirst Hq HΦ")].
  wp_bind. iApply (compact_spec with "Hfirst"); [done|]. iIntros (?) "Hfirst".
  destruct (compacted_spec fp Hp) as (Hcw & Hcb & Hco & Hcl).
  destruct (fill_compacted fp p Hp Hp2 E2) as (Hfw & Hfb & Hfl).
  wp_bind. iApply (pop_cons_spec with "Hq"). iIntros (r0) "(%q' & %nx' & -> & Hl & Hq)".
  wp_bind. iApply (absorb_spec with "[$Hfirst $Hl]"); try done; [lia|]. iIntros (?) "[Hfirst Hl]".
  iApply (IH with "[$Hfirst $Hq]"); [cbn in Hf; lia|done..|].
  iIntros (q'') "(%p' & %nx'' & %joined & %rest & (%Els & %Hw' & %Hb') & Hfirst & Hq & Hloose)".
  iApply "HΦ". iExists p', nx'', ((l, p) :: joined), rest. iFrame "Hfirst Hq".
  iSplitR; [iPureIntro; rewrite Els content_cons Hb' Hfb -app_assoc; done|].
  rewrite /loose big_sepL_cons /=. iFrame.
Qed.

(** [readPiece] takes the first piece, with the bytes of the pieces that fit
    behind it; those pieces are neither queued nor freed afterwards. *)
Lemma readPiece_spec b l p ls :
  0 < zlen (content ((l, p) :: ls)) ->
  {{ buf_rep b ((l, p) :: ls) }} readPiece b
  {{ r, ∃ p' nx' joined rest b',
       ⟪r = (Some l, b') /\ ls = joined ++ rest /\ piece_wf p' /\
        piece_bytes p' = piece_bytes p ++ content joined⟫ ∗
       l ↦ set_next p' nx' ∗ buf_rep b' rest ∗ loose joined }}.
Proof.
  iIntros (Hz Φ) "(Hq & %Hwf & %Hlen & %H64) HΦ". rewrite /readPiece.
  pose proof Hwf as [Hp Hwf']%cells_wf_cons.
  wp_bind. iApply wp_assert; [lia|]. wp_bind. iApply (pop_cons_spec with "Hq").
  iIntros (r) "(%q' & %nx & -> & Hl & Hq)".
  wp_bind. iApply (wp_mem_bound _ ls.*1 with "Hq"); [apply queue_rep_owned|].
  iIntros (k) "%Hk Hq". rewrite length_fmap in Hk.
  wp_bind. iApply (coalesce_spec with "[$Hl $Hq]"); [done..|].
  iIntros (q'') "(%p' & %nx' & %joined & %rest & (%Els & %Hw' & %Hb') & Hl & Hq & Hloose)".
  iApply (load_cell with "Hl"). iIntros "Hl". wp_ret. iApply "HΦ".
  iExists p', nx', joined, rest, _. iFrame "Hl Hloose". iSplitR; [done|].
  rewrite /buf_rep /=. iFrame "Hq". iPureIntro. subst ls.
  rewrite content_cons content_app app_assoc -Hb' zlen_app in Hlen, H64.
  rewrite (zlen_piece_bytes p' Hw') in Hlen, H64.
  pose proof (zlen_nonneg (content rest)). pose proof Hw' as (_ & _ & _ & ? & ?).
  apply cells_wf_app in Hwf' as [? ?]. rewrite Hlen wrap_id; [|lia]. split_and!; try done; lia.
Qed.

(** The first [push] clears the [next] field the loop goes on with: only the
    first piece of the chain is queued, the rest of the chain is lost. *)
Lemma writePieceQueue_spec b n bs l p rest :
  piece_wf p -> 0 < p_len p -> zlen bs + p_len p < 2 ^ 64 ->
  {{ buf b n bs ∗ lseg (Some l) ((l, p) :: rest) None }} writePieceQueue b (Some l)
  {{ b', buf b' (n + 1) (bs ++ piece_bytes p) ∗ ∃ hd, lseg hd rest None }}.
Proof.
  iIntros (Hp Hpos H64 Φ) "[(%ls & (Hq & %Hwf & %Hlen & %H64') & %Hn & %Hbs) Hs] HΦ".
  subst n bs. cbn [lseg]. iDestruct "Hs" as "(_ & %nx & Hl & Hrest)".
  rewrite /writePieceQueue. wp_bind. iApply wp_assert; [done|].
  wp_bind. iApply (wp_mem_bound _ [l] (l ↦ set_next p nx)%I with "Hl").
  { iIntros "Hl". cbn. iSplitL; [|done]. iSplitL; [|done]. by iExists _. }
  iIntros (k) "%Hk Hl". cbn in Hk. destruct k as [|k]; [lia|].
  cbn [queue_pieces]. iApply (load_cell with "Hl"). iIntros "Hl". cbn [p_len set_next].
  wp_bind. iApply wp_assert; [lia|]. wp_bind. iApply (push_spec with "[$Hq $Hl]").
  iIntros (q') "Hq". iDestruct (queue_rep_last with "Hq") as "(_ & Hl & Hq)". rewrite set_next_next.
  iApply (load_cell with "Hl"). iIntros "Hl". iDestruct ("Hq" $! p with "Hl") as "Hq".
  cbn [p_next p_len set_next]. wp_ret. iApply "HΦ". iSplitR "Hrest"; [|by iExists nx].
  iExists (ls ++ [(l, p)]). rewrite -(zlen_piece_bytes p Hp) in H64 |- *. iSplitL.
  - iApply (buf_rep_extend b q' ls with "Hq"); try done; [by apply cells_wf_snoc|].
    by rewrite content_snoc.
  - iPureIntro. by rewrite content_snoc zlen_app.
Qed.

(** ** What the connection buffers guarantee *)

(** Receiving: while the pool has room to cache one more piece,
    [InputBuffer::writePiece] appends exactly the bytes of the received piece
    to the input buffer, merging them into the last piece (moved to the front
    of its array first) when they fit there, and the pieces in use stay the
    ones the pool counts. *)
Lemma writePiece_appends `{HPeak : Peak} o b n bs item ip cached :
  {{ buf b n bs ∗ item ↦ ip ∗ pool_rep cached (o + n + 1) ∗
     ⟪0 <= o /\ piece_wf ip /\ 0 < p_len ip /\ zlen bs + p_len ip < 2 ^ 64 /\
      zlen cached < o + n + BASE_CACHE_COUNT⟫ }}
    writePiece b item
  {{ b', ∃ n', buf b' n' (bs ++ piece_bytes ip) ∗ pool (o + n') ∗ ⟪n <= n' <= n + 1⟫ }}.
Proof.
  iIntros (Φ) "((%ls & Hb & %Hn & %Hbs) & Hi & Hpool & %Ho & %Hip & %Hpos & %H64 & %Hroom) HΦ".
  subst n bs. destruct (last ls) as [[l p]|] eqn:El.
  - apply last_Some in El as [ls' ->]. destruct (decide (p_len p + p_len ip <= kPieceCapacity)).
    + pose proof (zlen_nonneg (ls' ++ [(l, p)])).
      iAssert (⟪piece_wf p⟫ ∗ buf_rep b (ls' ++ [(l, p)]))%I with "[Hb]" as "[%Hp Hb]".
      { iDestruct "Hb" as "[$ %Hw]". iSplit; iPureIntro; [|done].
        by destruct Hw as ([_ ?]%cells_wf_snoc & _). }
      iApply (writePiece_merges with "[$Hb $Hi $Hpool]"); try done; [lia..|].
      iIntros (b') "[Hb Hpool]". iApply "HΦ". iExists (zlen (ls' ++ [(l, p)])).
      replace (o + zlen (ls' ++ [(l, p)]) + 1 - 1) with (o + zlen (ls' ++ [(l, p)])) by lia.
      iFrame "Hpool". iSplitL; [|iPureIntro; lia]. iExists _. iFrame "Hb". iPureIntro.
      destruct (fill_compacted p ip) as (_ & Hfb & _); try done.
      by rewrite !zlen_app !content_snoc Hfb app_assoc.
    + iApply (writePiece_queues with "[$Hb $Hi]"); try done.
      { intros l' lp. rewrite last_snoc. intros. simplify_eq. lia. }
      iIntros (b') "Hb". iApply "HΦ". iExists (zlen (ls' ++ [(l, p)]) + 1).
      rewrite Z.add_assoc. iSplitL "Hb"; [|iSplitL; [by iExists cached|iPureIntro; lia]].
      iExists _. iFrame "Hb". iPureIntro.
      by rewrite (zlen_app _ [(item, ip)]) content_snoc.
  - apply last_None in El as ->.
    iApply (writePiece_queues with "[$Hb $Hi]"); try done.
    iIntros (b') "Hb". iApply "HΦ". iExists 1. rewrite zlen_nil Z.add_0_r.
    iSplitL "Hb"; [|iSplitL; [by iExists cached|iPureIntro; lia]].
    iExists _. iFrame "Hb". iPureIntro. by rewrite content_snoc zlen_app.
Qed.

(** A connection receives two small pieces after a peak of twelve pieces in
    use, of which ten have been returned. *)
Definition receive_after_peak : M Buffer :=
  held ← alloc_run (replicate 12 New ++ replicate 10 (Delete 0)) [];
  match held with
  | [a; c] =>
      p ← load a; store a (set_len p 10);;
      p ← load c; store c (set_len p 10);;
      b ← writePiece Buffer_new a;
      writePiece b c
  | _ => throw OutOfFuel
  end.

(** When the pool is full, [writePiece] reads the received piece after
    freeing it: a connection that receives two small pieces after a peak of
    twelve pieces in use, in a state reached by ordinary allocator calls, ends
    in a use after free, in Debug and in Release builds. *)
Lemma writePiece_use_after_free ndebug :
  receive_after_peak (init_mem (λ _ _, 0) ndebug) = Err UseAfterFree.
Proof. destruct ndebug; vm_compute; reflexivity. Qed.

(** C35. Sending: [OutputBuffer::readPiece] removes a prefix of the queued bytes
    in order and returns it in one well-formed piece, joining as many queued
    pieces as its loop finds to fit; the output buffer keeps exactly the other
    bytes.  The joined pieces are in neither and stay counted as in use by the
    pool: they are leaked. *)
Theorem readPiece_takes_prefix_and_leaks b l p ls u :
  {{ buf_rep b ((l, p) :: ls) ∗ pool u ∗ ⟪0 < zlen (content ((l, p) :: ls))⟫ }} readPiece b
  {{ r, ∃ p' nx joined rest b',
       ⟪r = (Some l, b') /\ ls = joined ++ rest /\ piece_wf p' /\
        piece_bytes p' ++ content rest = content ((l, p) :: ls)⟫ ∗
       l ↦ set_next p' nx ∗ buf_rep b' rest ∗ pool u ∗ loose joined }}.
Proof.
  iIntros (Φ) "(Hb & Hpool & %Hz) HΦ". iApply (readPiece_spec with "Hb"); [done|].
  iIntros (r) "(%p' & %nx & %joined & %rest & %b' & (%Hr & %Els & %Hw & %Hb') & Hl & Hb & Hj)".
  subst r ls. iApply "HΦ". iExists p', nx, joined, rest, b'. iFrame. iPureIntro.
  by rewrite Hb' content_cons content_app app_assoc.
Qed.

(** [OutputBuffer::writePieceQueue] is meant to queue a whole chain of
    pieces; it queues the first piece only.  [push] sets [item->next] to null
    before the loop reads it, so for every chain the other pieces, and the bytes
    in them, are lost (their cells are still allocated and reachable from
    nothing). *)
Lemma writePieceQueue_keeps_first_piece b n bs l p rest :
  {{ buf b n bs ∗ lseg (Some l) ((l, p) :: rest) None ∗
     ⟪piece_wf p /\ 0 < p_len p /\ zlen bs + p_len p < 2 ^ 64⟫ }}
    writePieceQueue b (Some l)
  {{ b', buf b' (n + 1) (bs ++ piece_bytes p) ∗ ∃ hd, lseg hd rest None }}.
Proof.
  iIntros (Φ) "(Hb & Hs & %Hp & %Hpos & %H64) HΦ".
  by iApply (writePieceQueue_spec with "[$Hb $Hs]").
Qed.
