(* ===== verification/Streams.v ===== *)
(** * Zero-copy streams over a buffer

    [netpp/net/protobuf/buffer_input_stream.h] and
    [netpp/net/protobuf/buffer_output_stream.h]: the adapters through which
    protobuf reads from and writes to a [Buffer].  [Next] lends a window of a
    piece (a raw pointer and a size), [BackUp] gives the unused end of the last
    window back.

    A stream holds a pointer to the buffer; nothing else uses the buffer during
    the life of a stream, so the model keeps the buffer inside the stream.  The
    output stream's client writes through the raw pointer ([poke]), the input
    stream's client reads through it ([fetch]).

    The assertion [open_window] describes a buffer with a lent window, and the
    specifications relate every call to the bytes the buffer holds. *)

From stdpp Require Import base tactics list numbers gmap.
From iris.proofmode Require Import proofmode.
From Stdlib Require Import ZArith Lia.
From S2P Require Import Prelude Machine HeapLogic Piece Buffer BufferSpec.

(** A window [(data, size)]: [size] bytes at [w_loc->data + w_pos]. *)
Record window := mkWindow {
  w_loc : loc;
  w_pos : Z;
  w_size : Z
}.

(** Reading [n] bytes through the pointer. *)
Definition fetch (w : window) (n : Z) : M (list Z) :=
  p ← load (w_loc w);
  memcpy_from p (w_pos w) n.

(** Writing [bs] through the pointer. *)
Definition poke (w : window) (bs : list Z) : M unit :=
  p ← load (w_loc w);
  p ← memcpy_to p (w_pos w) bs;
  store (w_loc w) p.

(** Moving the pointer [k] bytes forward. *)
Definition w_advance (w : window) (k : Z) : window :=
  mkWindow (w_loc w) (w_pos w + k) (w_size w - k).

(** ** The input stream *)

(** [FlatInputBuffer::flatNext]; [drop] is the value of [*drop_ptr] before the
    call. *)
Definition in_flatNext (b : Buffer) (drop : ptr) : M (option window * ptr * Buffer) :=
  match front (b_queue b) with
  | Some first =>
      p ← load first;
      if 0 <? p_len p then
        let w := mkWindow first (p_off p) (p_len p) in
        let length' := size_t (length_ b - p_len p) in
        '(item, q) ← pop (b_queue b);
        mret (Some w, item, mkBuffer q length')
      else mret (None, drop, b)
  | None => mret (None, drop, b)
  end.

(** [FlatInputBuffer::flatBackUp]; [tail_] keeps its value. *)
Definition in_flatBackUp (b : Buffer) (len : Z) (drop : ptr) : M Buffer :=
  assert_ (bool_decide (drop ≠ None));;
  l ← deref drop;
  p ← load l;
  assert_ (len <? p_len p);;
  let q := b_queue b in
  store l (set_next (set_len (set_off p (p_off p + (p_len p - len))) len) (head_ q));;
  mret (mkBuffer (mkQueue (Some l) (tail_ q) (wrap32 (size_ q + 1))) (size_t (length_ b + len))).

Record BufferInputStream := mkIn {
  in_buffer : Buffer;
  drop_ : ptr;
  in_originalSize : Z
}.

Definition BufferInputStream_new (b : Buffer) : BufferInputStream :=
  mkIn b None (length_ b).

(** [if (drop_) deletePiece(drop_);], the body of the destructor. *)
Definition in_release (s : BufferInputStream) : M unit :=
  match drop_ s with
  | Some l => deletePiece (Some l)
  | None => mret tt
  end.

Definition in_Next (s : BufferInputStream) : M (option window * BufferInputStream) :=
  in_release s;;
  '(w, drop, b) ← in_flatNext (in_buffer s) None;
  mret (w, mkIn b drop (in_originalSize s)).

Definition in_BackUp (s : BufferInputStream) (count : Z) : M BufferInputStream :=
  assert_ (bool_decide (drop_ s ≠ None));;
  b ← in_flatBackUp (in_buffer s) (size_t count) (drop_ s);
  mret (mkIn b None (in_originalSize s)).

Definition in_Skip (s : BufferInputStream) (count : Z) : M (bool * BufferInputStream) :=
  if size_t count <=? length_ (in_buffer s) then
    b ← skip (in_buffer s) (size_t count);
    mret (true, mkIn b (drop_ s) (in_originalSize s))
  else mret (false, s).

Definition in_ByteCount (s : BufferInputStream) : Z :=
  int64 (in_originalSize s - length_ (in_buffer s)).

(** [~BufferInputStream()] *)
Definition in_destroy (s : BufferInputStream) : M Buffer :=
  in_release s;;
  mret (in_buffer s).

(** ** The output stream *)

(** [FlatOutputBuffer::flatNext]; the first lines are those of
    [Buffer::write]. *)
Definition out_flatNext (b : Buffer) : M (window * Buffer) :=
  q ← ensure_room (b_queue b);
  last ← deref (back q);
  p ← load last;
  let w := mkWindow last (p_off p + p_len p) (kPieceCapacity - p_off p - p_len p) in
  store last (set_len p (kPieceCapacity - p_off p));;
  mret (w, mkBuffer q (size_t (length_ b + w_size w))).

Definition out_flatBackUp (b : Buffer) (len : Z) : M Buffer :=
  assert_ (bool_decide (back (b_queue b) ≠ None));;
  last ← deref (back (b_queue b));
  p ← load last;
  assert_ (len <? p_len p);;
  store last (set_len p (p_len p - len));;
  mret (mkBuffer (b_queue b) (size_t (length_ b - len))).

Record BufferOutputStream := mkOut {
  out_buffer : Buffer;
  out_originalSize : Z
}.

Definition BufferOutputStream_new (b : Buffer) : BufferOutputStream :=
  mkOut b (length_ b).

(** [Next]; it never fails. *)
Definition out_Next (s : BufferOutputStream) : M (window * BufferOutputStream) :=
  '(w, b) ← out_flatNext (out_buffer s);
  mret (w, mkOut b (out_originalSize s)).

Definition out_BackUp (s : BufferOutputStream) (count : Z) : M BufferOutputStream :=
  b ← out_flatBackUp (out_buffer s) (size_t count);
  mret (mkOut b (out_originalSize s)).

Definition out_ByteCount (s : BufferOutputStream) : Z :=
  int64 (length_ (out_buffer s) - out_originalSize s).

(** ** A buffer with a lent window

    The buffer holds [bs] followed by the bytes of the window [w], which ends
    the last piece; [used] of the bytes before the window are in that piece. *)
Definition open_window (b : Buffer) (n r : Z) (bs : list Z) (used : Z) (w : window) : hProp :=
  (∃ ls p junk, buf_rep b (ls ++ [(w_loc w, p)]) ∗
     ⟪zlen (ls ++ [(w_loc w, p)]) = n /\ headroom (ls ++ [(w_loc w, p)]) = r /\
      content (ls ++ [(w_loc w, p)]) = bs ++ junk /\ zlen junk = w_size w /\
      (w_pos w + w_size w)%Z = kPieceCapacity /\ (p_off p + p_len p)%Z = kPieceCapacity /\
      p_len p = (used + w_size w)%Z /\ 0 <= used⟫)%I.

Definition widen (p : Piece) : Piece := set_len p (kPieceCapacity - p_off p).

Lemma widen_spec p : piece_wf p ->
  piece_wf (widen p) /\ p_off (widen p) = p_off p /\ p_len (widen p) = kPieceCapacity - p_off p /\
  piece_bytes (widen p) = piece_bytes p ++
    slice (p_off p + p_len p) (kPieceCapacity - p_off p - p_len p) (p_data p).
Proof.
  intros (Hd & Hb & Ho & Hl & Hc). rewrite /piece_wf /piece_bytes /widen /=.
  rewrite wrap16_capacity; [|lia]. split_and!; try done; try lia.
  rewrite -slice_app; [|lia..]. f_equal. lia.
Qed.

(** Lending the room behind the last piece. *)
Lemma lend_window b q ls l p :
  cells_wf (ls ++ [(l, p)]) -> p_off p + p_len p < kPieceCapacity ->
  length_ b = zlen (content (ls ++ [(l, p)])) ->
  zlen (content (ls ++ [(l, p)])) + kPieceCapacity < 2 ^ 64 ->
  queue_rep q (ls ++ [(l, widen p)]) ⊢
  open_window (mkBuffer q (size_t (length_ b + (kPieceCapacity - p_off p - p_len p))))
    (zlen (ls ++ [(l, p)])) (headroom (ls ++ [(l, p)])) (content (ls ++ [(l, p)])) (p_len p)
    (mkWindow l (p_off p + p_len p) (kPieceCapacity - p_off p - p_len p)).
Proof.
  iIntros (Hwf Hroom Hlen H64) "Hq". pose proof Hwf as [Hls Hp]%cells_wf_snoc.
  destruct (widen_spec p Hp) as (Hw & Hwo & Hwl & Hwb). pose proof Hp as (Hd & _ & Hpo & Hpl & Hc).
  set (junk := slice (p_off p + p_len p) (kPieceCapacity - p_off p - p_len p) (p_data p)) in *.
  assert (zlen junk = kPieceCapacity - p_off p - p_len p) as Hj by (apply zlen_slice; lia).
  iExists ls, (widen p), junk. cbn [w_loc w_pos w_size].
  rewrite /buf_rep. cbn [b_queue length_]. iFrame "Hq".
  pose proof (zlen_nonneg (content (ls ++ [(l, p)]))).
  rewrite content_snoc Hwb app_assoc -(content_snoc ls l p) zlen_app Hj Hlen.
  iPureIntro. rewrite wrap_id; [|lia]. rewrite (headroom_snoc ls l p) // cells_wf_snoc !zlen_app.
  split_and!; try done; lia.
Qed.

Section output.
Context `{HPeak : Peak} (o : Z) (Ho : 0 <= o).

Lemma out_flatNext_spec b n r bs :
  {{ bufh b n r bs ∗ pool (o + n) ∗
     ⟪zlen bs + kPieceCapacity < 2 ^ 64 /\ o + n < kMaxUsing⟫ }}
    out_flatNext b
  {{ x, ∃ n' used, open_window x.2 n' r bs used x.1 ∗ pool (o + n') ∗
          ⟪0 < w_size x.1 /\ n' <= n + 1⟫ }}.
Proof using Type.
  iIntros (Φ) "((%ls & (Hq & %Hwf & %Hlen & %H64) & %Hn & %Hr & %Hbs) & Hpool & %Hz & %Hm) HΦ".
  subst n r bs. rewrite /out_flatNext. wp_bind.
  iApply (ensure_room_spec with "[$Hq $Hpool //]"); [done|].
  iIntros (q') "(%ls' & %l & %p & Hq & Hpool & %Hwf' & %Hc & %Hh & %Hroom & %Hcnt & _)".
  iDestruct (queue_rep_last with "Hq") as "(-> & Hl & Hq)".
  wp_bind. iApply wp_deref. wp_bind. wp_load "Hl". cbn [p_len p_off set_next].
  wp_bind. wp_store "Hl". iDestruct ("Hq" $! (widen p) with "Hl") as "Hq". wp_ret.
  iApply "HΦ". iExists _, _. iFrame "Hpool". cbn [fst snd w_size]. rewrite -Hh -Hc.
  iSplitL; [|iPureIntro; lia]. iApply (lend_window with "Hq"); try done; rewrite Hc //.
Qed.

(** The window of a buffer of one piece that is not full. *)
Lemma out_flatNext_one_spec b r bs :
  {{ bufh b 1 r bs ∗ ⟪r + zlen bs < kPieceCapacity⟫ }}
    out_flatNext b
  {{ x, open_window x.2 1 r bs (zlen bs) x.1 ∗ ⟪w_size x.1 = kPieceCapacity - r - zlen bs⟫ }}.
Proof using Type.
  iIntros (Φ) "((%ls & (Hq & %Hwf & %Hlen & %H64) & %Hn & %Hr & %Hbs) & %Hroom) HΦ".
  destruct ls as [|[l p] [|? ls]];
    [done| |rewrite !zlen_cons in Hn; pose proof (zlen_nonneg ls); lia].
  pose proof Hwf as [Hp _]%cells_wf_cons. pose proof Hp as (_ & _ & ? & ? & ?).
  cbn in Hr. pose proof (zlen_piece_bytes p Hp) as Hz.
  rewrite content_cons app_nil_r in Hbs. subst r bs. rewrite Hz in Hroom |- *.
  rewrite /out_flatNext /ensure_room.
  iDestruct (queue_rep_last _ _ _ [] with "Hq") as "(%Hbk & Hl & Hq)".
  rewrite Hbk. wp_bind. wp_bind. wp_bind. wp_load "Hl". wp_ret. cbn [p_off p_len set_next].
  rewrite (proj2 (Z.eqb_neq _ _)); [|lia]. wp_ret. rewrite Hbk.
  wp_bind. iApply wp_deref. wp_bind. wp_load "Hl". cbn [p_len p_off set_next].
  wp_bind. wp_store "Hl". iDestruct ("Hq" $! (widen p) with "Hl") as "Hq". wp_ret.
  iApply "HΦ". cbn [fst snd w_size]. iSplitL; [|done].
  iPoseProof (lend_window b _ [] l p with "Hq") as "H"; try done.
  { rewrite content_cons app_nil_r Hz kPieceCapacity_eq. rewrite kPieceCapacity_eq in Hroom. lia. }
  rewrite content_cons app_nil_r. done.
Qed.

(** Writing through the pointer turns window bytes into contents. *)
Lemma poke_spec b n r bs used w d :
  {{ open_window b n r bs used w ∗ ⟪Forall is_byte d /\ zlen d <= w_size w⟫ }} poke w d
  {{ u, open_window b n r (bs ++ d) (used + zlen d) (w_advance w (zlen d)) }}.
Proof using Type.
  iIntros (Φ) "((%ls & %p & %junk & (Hq & %Hwf & %Hlen & %H64) & %Hn & %Hr & %Hc & %Hj & %Hw & %Hp2 & %Hpl & %Hu) & %Hd & %Hz) HΦ".
  pose proof Hwf as [Hls Hp]%cells_wf_snoc. pose proof Hp as (Hpd & Hpb & ? & ? & ?).
  pose proof (zlen_nonneg d). rewrite /poke.
  iDestruct (queue_rep_last with "Hq") as "(_ & Hl & Hq)".
  wp_bind. wp_load "Hl". wp_bind. iApply wp_memcpy_to; [lia|cbn; lia|].
  wp_store "Hl". cbn [p_data set_next].
  set (p' := set_data p (splice (w_pos w) d (p_data p))).
  iDestruct ("Hq" $! p' with "Hl") as "Hq". iApply "HΦ".
  assert (piece_wf p') as Hp'.
  { rewrite /piece_wf /p' /= zlen_splice; [|lia..]. split_and!; try done. by apply Forall_splice. }
  set (pre := slice (p_off p) used (p_data p)).
  set (post := slice (w_pos w + zlen d) (w_size w - zlen d) (p_data p)).
  assert (piece_bytes p' = pre ++ d ++ post) as Hb'.
  { rewrite /piece_bytes /p' /= Hpl. replace (w_pos w) with (p_off p + used) by lia.
    replace (used + w_size w) with (used + zlen d + (w_size w - zlen d)) by lia.
    rewrite slice_app; [|lia..]. rewrite slice_splice_append; [|lia..].
    rewrite slice_splice_after; [|lia..]. rewrite -app_assoc /post. do 3 f_equal. lia. }
  assert (content ls ++ pre = bs) as Hpre.
  { rewrite content_snoc /piece_bytes Hpl slice_app in Hc; [|lia..].
    rewrite app_assoc in Hc. apply app_inj_2 in Hc as [? _]; [done|].
    rewrite /zlen in Hj. pose proof (zlen_slice (p_off p + used) (w_size w) (p_data p)) as E.
    rewrite /zlen in E, Hpd. lia. }
  assert (zlen post = w_size w - zlen d) as Hpost by (apply zlen_slice; lia).
  assert (content (ls ++ [(w_loc w, p')]) = (bs ++ d) ++ post) as Hc'.
  { by rewrite content_snoc Hb' -Hpre -!app_assoc. }
  assert (zlen (content (ls ++ [(w_loc w, p')])) = zlen (content (ls ++ [(w_loc w, p)]))) as Hzc.
  { rewrite Hc Hc' !zlen_app. lia. }
  iExists ls, p', post. rewrite /buf_rep Hzc Hc'. cbn [w_advance w_loc w_pos w_size].
  iFrame "Hq". iPureIntro. rewrite cells_wf_snoc (headroom_snoc ls _ p) // /p' /=.
  rewrite !zlen_app in Hn |- *. rewrite zlen_cons in Hn. split_and!; try done; lia.
Qed.

(** Giving back the rest of the window: what is left is the contents.  The
    assertion of [flatBackUp] wants a byte of the piece to remain. *)
Lemma out_flatBackUp_spec b n r bs used w :
  {{ open_window b n r bs used w ∗ ⟪0 < used⟫ }} out_flatBackUp b (w_size w)
  {{ b', bufh b' n r bs }}.
Proof using Type.
  iIntros (Φ) "((%ls & %p & %junk & (Hq & %Hwf & %Hlen & %H64) & %Hn & %Hr & %Hc & %Hj & %Hw & %Hp2 & %Hpl & _) & %Hu) HΦ".
  pose proof Hwf as [Hls Hp]%cells_wf_snoc. pose proof Hp as (Hpd & Hpb & ? & ? & ?).
  pose proof (zlen_nonneg junk). rewrite /out_flatBackUp.
  iDestruct (queue_rep_last with "Hq") as "(-> & Hl & Hq)".
  wp_bind. iApply wp_assert; [done|]. wp_bind. iApply wp_deref. wp_bind. wp_load "Hl".
  cbn [p_len set_next]. wp_bind. iApply wp_assert; [lia|]. wp_bind. wp_store "Hl".
  set (p' := set_len p (p_len p - w_size w)).
  iDestruct ("Hq" $! p' with "Hl") as "Hq". wp_ret. iApply "HΦ".
  assert (p_len p' = used) as Hl' by (rewrite /p' /= wrap16_capacity; lia).
  assert (piece_wf p') as Hp' by (rewrite /piece_wf Hl' /=; split_and!; try done; lia).
  assert (content (ls ++ [(w_loc w, p')]) = bs) as Hc'.
  { rewrite content_snoc /piece_bytes Hl' /=.
    rewrite content_snoc /piece_bytes Hpl slice_app in Hc; [|lia..].
    rewrite app_assoc in Hc. apply app_inj_2 in Hc as [? _]; [done|].
    rewrite /zlen in Hj. pose proof (zlen_slice (p_off p + used) (w_size w) (p_data p)) as E.
    rewrite /zlen in E, Hpd. lia. }
  iExists (ls ++ [(w_loc w, p')]). rewrite /buf_rep Hc' /=. iFrame "Hq". iPureIntro.
  rewrite Hc zlen_app in Hlen, H64. pose proof (zlen_nonneg bs). rewrite Hlen wrap_id; [|lia].
  rewrite cells_wf_snoc (headroom_snoc ls _ p) // zlen_app. rewrite zlen_app in Hn.
  rewrite zlen_cons in Hn |- *. split_and!; try done; lia.
Qed.

End output.

(** ** Reading through the input stream

    [cur] is the piece whose window is lent, [ls] what the buffer still holds. *)
Section input.
Context `{HPeak : Peak} (o : Z) (Ho : 0 <= o).

Definition lent (s : BufferInputStream) (n : Z) (cur : option (loc * Piece)) : hProp :=
  match cur with
  | Some (l, p) => ⟪drop_ s = Some l /\ piece_wf p⟫ ∗ (∃ nx, l ↦ set_next p nx) ∗ pool (o + n + 1)
  | None => ⟪drop_ s = None⟫ ∗ pool (o + n)
  end%I.

Definition in_rep (s : BufferInputStream) (ls : cells) (cur : option (loc * Piece)) : hProp :=
  (buf_rep (in_buffer s) ls ∗ lent s (zlen ls) cur)%I.

Lemma in_release_spec s n cur : 0 <= n ->
  {{ lent s n cur }} in_release s {{ r, pool (o + n) }}.
Proof using Ho.
  iIntros (Hn Φ) "H HΦ". rewrite /in_release. destruct cur as [[l p]|].
  - iDestruct "H" as "((%Hd & %Hp) & (%nx & Hl) & Hpool)". rewrite Hd.
    iApply (deletePiece_spec with "[$Hpool $Hl]").
    { iPureIntro. split; [lia|]. apply piece_wf_data in Hp as [? ?]. done. }
    iIntros (r) "Hpool". iApply "HΦ". by replace (o + n + 1 - 1) with (o + n) by lia.
  - iDestruct "H" as "[-> Hpool]". wp_ret. by iApply "HΦ".
Qed.

Lemma in_Next_spec s l p ls cur : 0 < p_len p ->
  {{ in_rep s ((l, p) :: ls) cur }} in_Next s
  {{ x, ∃ s', ⟪x = (Some (mkWindow l (p_off p) (p_len p)), s') /\
               in_originalSize s' = in_originalSize s⟫ ∗ in_rep s' ls (Some (l, p)) }}.
Proof using Ho.
  iIntros (Hpos Φ) "[(Hq & %Hwf & %Hlen & %H64) Hlent] HΦ". rewrite /in_Next.
  pose proof (zlen_nonneg ls). pose proof Hwf as [Hp Hwf']%cells_wf_cons.
  wp_bind. iApply (in_release_spec with "Hlent"); [rewrite zlen_cons; lia|].
  iIntros (?) "Hpool". wp_bind. rewrite /in_flatNext.
  iDestruct (queue_rep_first with "Hq") as "(-> & %nx & Hl & Hq)".
  wp_bind. wp_load "Hl". cbn [p_len p_off set_next]. rewrite (proj2 (Z.ltb_lt _ _)) //.
  iDestruct ("Hq" with "Hl") as "Hq". wp_bind. iApply (pop_cons_spec with "Hq").
  iIntros (y) "(%q' & %nx' & -> & Hl & Hq)". wp_ret. wp_ret. iApply "HΦ". iExists _.
  iSplitR; [done|]. rewrite /in_rep /buf_rep /=. iFrame "Hq".
  rewrite zlen_cons (Z.add_comm 1) Z.add_assoc. iFrame "Hpool". iSplitR; [|iSplitR; [done|eauto]].
  iPureIntro. rewrite content_cons zlen_app (zlen_piece_bytes p Hp) in Hlen, H64.
  pose proof (zlen_nonneg (content ls)). pose proof Hp as (_ & _ & _ & ? & ?).
  rewrite Hlen wrap_id; [|lia]. split_and!; try done; lia.
Qed.

(** At the end of the buffer. *)
Lemma in_Next_end_spec s cur :
  {{ in_rep s [] cur }} in_Next s
  {{ x, ∃ s', ⟪x = (None, s') /\ in_originalSize s' = in_originalSize s⟫ ∗ in_rep s' [] None }}.
Proof using Ho.
  iIntros (Φ) "[(Hq & %Hwf & %Hlen & %H64) Hlent] HΦ". rewrite /in_Next.
  wp_bind. iApply (in_release_spec with "Hlent"); [done|].
  iIntros (?) "Hpool". rewrite /in_flatNext.
  iDestruct (queue_rep_front with "Hq") as "[-> Hq]". wp_bind. wp_ret. wp_ret. iApply "HΦ".
  iExists _. iSplitR; [done|]. rewrite /in_rep /buf_rep /=. iFrame. iSplit; [by iPureIntro|done].
Qed.

(** Reading through the pointer. *)
Lemma fetch_spec s ls l p k n : 0 <= k -> 0 <= n -> k + n <= p_len p ->
  {{ in_rep s ls (Some (l, p)) }} fetch (mkWindow l (p_off p + k) (p_len p - k)) n
  {{ r, ⟪r = slice k n (piece_bytes p)⟫ ∗ in_rep s ls (Some (l, p)) }}.
Proof using Type.
  iIntros (Hk Hn Hkn Φ) "[Hb ((%Hd & %Hp) & (%nx & Hl) & Hpool)] HΦ". rewrite /fetch.
  pose proof Hp as (Hz & _ & ? & ? & ?). wp_bind. wp_load "Hl".
  iApply wp_memcpy_from; cbn; [lia..|]. iApply "HΦ". iFrame. iSplit; [|done].
  iPureIntro. by rewrite /piece_bytes slice_slice.
Qed.

Lemma fetch_all_spec s ls l p : piece_wf p ->
  {{ in_rep s ls (Some (l, p)) }} fetch (mkWindow l (p_off p) (p_len p)) (p_len p)
  {{ r, ⟪r = piece_bytes p⟫ ∗ in_rep s ls (Some (l, p)) }}.
Proof using Type.
  iIntros (Hp Φ) "H HΦ". pose proof Hp as (_ & _ & ? & ? & ?).
  iPoseProof (fetch_spec s ls l p 0 (p_len p) with "H") as "Hw"; [lia..|].
  rewrite Z.add_0_r Z.sub_0_r. iApply "Hw". iIntros (r) "[-> H]". iApply "HΦ". iFrame.
  iPureIntro. rewrite -{1}(zlen_piece_bytes p Hp). apply slice_all.
Qed.

(** Giving back the last [count] bytes of the window, while the buffer holds
    more pieces. *)
Lemma in_BackUp_spec s ls l p count : 0 <= count < p_len p -> ls <> [] ->
  zlen (content ls) + count < 2 ^ 64 ->
  {{ in_rep s ls (Some (l, p)) }} in_BackUp s count
  {{ s', ⟪in_originalSize s' = in_originalSize s⟫ ∗
         in_rep s' ((l, advance p (p_len p - count)) :: ls) None }}.
Proof using Type.
  iIntros (Hcount Hne Hz64 Φ) "[(Hq & %Hwf & %Hlen & %H64) ((%Hd & %Hp) & (%nx & Hl) & Hpool)] HΦ".
  pose proof Hp as (_ & _ & ? & ? & ?). rewrite /in_BackUp /in_flatBackUp Hd.
  pose proof kPieceCapacity_eq. rewrite (wrap_id 64 count); [|lia].
  wp_bind. iApply wp_assert; [done|]. wp_bind. wp_bind. iApply wp_assert; [done|].
  wp_bind. iApply wp_deref. wp_bind. wp_load "Hl". cbn [p_len p_off set_next].
  wp_bind. iApply wp_assert; [lia|]. wp_bind. wp_store "Hl". wp_ret. wp_ret. iApply "HΦ".
  iSplitR; [done|]. rewrite /in_rep /= zlen_cons (Z.add_comm 1) Z.add_assoc. iFrame "Hpool".
  iSplitL; [|done]. iDestruct "Hq" as "(Hs & %Ht & %Hs)".
  assert (set_len (set_off p (p_off p + (p_len p - count))) count = advance p (p_len p - count)) as Ha.
  { rewrite /advance. f_equal. lia. }
  assert (0 <= p_len p - count <= p_len p) as Hr by lia.
  pose proof (advance_wf p _ Hp Hr) as Hw. pose proof (zlen_piece_bytes _ Hw) as Hzb.
  assert (p_len (advance p (p_len p - count)) = count) as Hal.
  { rewrite -Ha /= wrap16_capacity; lia. }
  rewrite Hal in Hzb. rewrite /buf_rep content_cons zlen_app Hzb cells_wf_cons. cbn [b_queue length_].
  pose proof (zlen_nonneg (content ls)). iSplitL; [|iPureIntro].
  - iSplitL; [|iSplit; iPureIntro].
    + cbn [lseg head_]. iSplitR; [done|]. iExists (head_ (b_queue (in_buffer s))). iFrame "Hs".
      by rewrite -Ha.
    + cbn [tail_]. rewrite Ht. destruct ls; [done|]. done.
    + cbn [size_]. rewrite Hs wrap_add_l zlen_cons. f_equal. lia.
  - rewrite Hlen wrap_id; [|lia]. split_and!; try done; lia.
Qed.

(** The pool, with the lent piece counted among those of others. *)
Lemma lent_pool s n cur :
  lent s n cur ⊢ ∃ o', ⟪0 <= o'⟫ ∗ pool (o' + n) ∗
    (∀ b n', pool (o' + n') -∗ lent (mkIn b (drop_ s) (in_originalSize s)) n' cur).
Proof using Ho.
  destruct cur as [[l p]|]; cbn.
  - iIntros "(%Hd & Hl & Hpool)". iExists (o + 1). iSplitR; [iPureIntro; lia|].
    iSplitL "Hpool"; [by replace (o + 1 + n) with (o + n + 1) by lia|].
    iIntros (b n') "Hpool". iFrame "Hl". iSplitR; [done|].
    by replace (o + 1 + n') with (o + n' + 1) by lia.
  - iIntros "(%Hd & Hpool)". iExists o. iFrame. iSplitR; [done|]. iIntros (b n') "$". done.
Qed.

(** [Skip] within the buffer, and past its end. *)
Lemma in_Skip_spec s ls cur count : 0 < count <= zlen (content ls) ->
  {{ in_rep s ls cur }} in_Skip s count
  {{ x, ∃ s', ⟪x = (true, s') /\ in_originalSize s' = in_originalSize s⟫ ∗
              in_rep s' (cells_drop count ls) cur }}.
Proof using Ho.
  iIntros (Hc Φ) "[Hb Hlent] HΦ". rewrite /in_Skip.
  iAssert (⟪length_ (in_buffer s) = zlen (content ls) /\ zlen (content ls) < 2 ^ 64⟫ ∗
           buf_rep (in_buffer s) ls)%I with "[Hb]" as "[[%Hlen %H64] Hb]".
  { iDestruct "Hb" as "(Hq & %Hwf & %H)". iFrame. by iSplit; iPureIntro. }
  rewrite (wrap_id 64 count); [|lia]. rewrite (proj2 (Z.leb_le _ _)); [|lia].
  iDestruct (lent_pool with "Hlent") as "(%o' & %Ho' & Hpool & Hlent)".
  wp_bind. iApply (skip_rep_spec o' Ho' with "[$Hb $Hpool]"); [lia| |].
  { intros ->. rewrite /content /zlen /= in Hc. lia. }
  iIntros (b') "[Hb Hpool]". wp_ret. iApply "HΦ". iExists _. iSplitR; [done|].
  rewrite /in_rep /=. iFrame "Hb". by iApply "Hlent".
Qed.

Lemma in_Skip_past_spec s ls cur count : zlen (content ls) < count < 2 ^ 31 ->
  {{ in_rep s ls cur }} in_Skip s count {{ x, ⟪x = (false, s)⟫ ∗ in_rep s ls cur }}.
Proof using Type.
  iIntros (Hc Φ) "[(Hq & %Hwf & %Hlen & %H64) Hlent] HΦ". rewrite /in_Skip.
  pose proof (zlen_nonneg (content ls)). rewrite (wrap_id 64 count); [|lia].
  rewrite (proj2 (Z.leb_gt _ _)); [|lia]. wp_ret. iApply "HΦ". iSplitR; [done|].
  iFrame. by iPureIntro.
Qed.

(** The bytes delivered so far. *)
Lemma in_ByteCount_spec s ls cur bs :
  in_originalSize s = zlen (bs ++ content ls) -> zlen (bs ++ content ls) < 2 ^ 63 ->
  in_rep s ls cur ⊢ ⟪in_ByteCount s = zlen bs⟫ ∗ in_rep s ls cur.
Proof using Type.
  iIntros (Hs H63) "[(Hq & %Hwf & %Hlen & %H64) Hlent]". rewrite zlen_app in Hs, H63.
  pose proof (zlen_nonneg bs). pose proof (zlen_nonneg (content ls)). iSplitR.
  - iPureIntro. rewrite /in_ByteCount Hs Hlen swrap_id; lia.
  - iFrame. by iPureIntro.
Qed.

Lemma in_destroy_spec s ls cur :
  {{ in_rep s ls cur }} in_destroy s {{ b, buf_rep b ls ∗ pool (o + zlen ls) }}.
Proof using Ho.
  iIntros (Φ) "[Hb Hlent] HΦ". rewrite /in_destroy. wp_bind.
  iApply (in_release_spec with "Hlent"); [apply zlen_nonneg|]. iIntros (?) "Hpool".
  wp_ret. iApply "HΦ". iFrame.
Qed.
End input.

(** ** What the streams guarantee *)

(** A reader that takes every window the stream offers. *)
Fixpoint read_stream (fuel : nat) (s : BufferInputStream) (acc : list Z) :
    M (list Z * BufferInputStream) :=
  match fuel with
  | O => throw OutOfFuel
  | S fuel =>
      '(w, s) ← in_Next s;
      match w with
      | Some w => bs ← fetch w (w_size w); read_stream fuel s (acc ++ bs)
      | None => mret (acc, s)
      end
  end.

Definition no_empty (ls : cells) : Prop := Forall (λ lp : loc * Piece, 0 < p_len lp.2) ls.

Lemma in_rep_wf `{HPeak : Peak} o s ls cur : in_rep o s ls cur ⊢ ⟪cells_wf ls⟫ ∗ in_rep o s ls cur.
Proof. iIntros "[(Hq & %Hwf & %H) Hl]". iFrame. by iSplit; iPureIntro. Qed.

Lemma read_stream_spec `{HPeak : Peak} o fuel s ls cur acc : 0 <= o -> (length ls < fuel)%nat -> no_empty ls ->
  {{ in_rep o s ls cur }} read_stream fuel s acc
  {{ x, ∃ s', ⟪x = (acc ++ content ls, s') /\ in_originalSize s' = in_originalSize s⟫ ∗
              in_rep o s' [] None }}.
Proof.
  intros Ho. revert s ls cur acc. induction fuel as [|fuel IH]; intros s ls cur acc Hf Hne Φ; [lia|].
  iIntros "H HΦ". cbn [read_stream]. wp_bind. destruct ls as [|[l p] ls].
  - iApply (in_Next_end_spec with "H"); [done|]. iIntros (x) "(%s' & [%Ex %Eo] & H)". subst x.
    wp_ret. iApply "HΦ". iExists s'. iFrame. iPureIntro. by rewrite /content /= app_nil_r.
  - apply Forall_cons in Hne as [Hp Hne]. cbn in Hp, Hf.
    iDestruct (in_rep_wf with "H") as "[%Hwf H]". apply cells_wf_cons in Hwf as [Hpw Hwf].
    iApply (in_Next_spec with "H"); [done..|]. iIntros (x) "(%s' & [%Ex %Eo] & H)". subst x.
    wp_bind. iApply (fetch_all_spec with "H"); [done|]. iIntros (bs) "[-> H]".
    iApply (IH with "H"); [lia|done|]. iIntros (x) "(%s'' & [%Ex %Eo'] & H)". subst x.
    iApply "HΦ". iExists s''. iFrame. iPureIntro. by rewrite content_cons -app_assoc Eo' Eo.
Qed.

(** The life of a [BufferInputStream] whose client reads to the end. *)
Definition read_through (fuel : nat) (b : Buffer) : M (list Z * Z * Buffer) :=
  '(bs, s) ← read_stream fuel (BufferInputStream_new b) [];
  let count := in_ByteCount s in
  b ← in_destroy s;
  mret (bs, count, b).

(** Reading a buffer through [BufferInputStream::Next] to the end delivers
    exactly the buffer's bytes in order, [ByteCount] is their number, and after
    the stream is destroyed the buffer is empty and every one of its pieces has
    gone back to the pool (for a buffer without empty pieces, such as one filled
    by [writePiece]). *)
Lemma input_stream_delivers o b ls :
  {{ buf_rep b ls ∗ pool (o + zlen ls) ∗
     ⟪0 <= o /\ no_empty ls /\ zlen (content ls) < 2 ^ 63⟫ }}
    read_through (S (length ls)) b
  {{ x, ∃ b', ⟪x = (content ls, zlen (content ls), b')⟫ ∗ buf b' 0 [] ∗ pool o }}.
Proof.
  iIntros (Φ) "(Hb & Hpool & %Ho & %Hne & %H63) HΦ". rewrite /read_through. wp_bind.
  iAssert (⟪length_ b = zlen (content ls)⟫ ∗ buf_rep b ls)%I with "[Hb]" as "[%Hlen Hb]".
  { iDestruct "Hb" as "(Hq & %Hwf & %Hl & %H)". iFrame. by iSplit; iPureIntro. }
  iApply (read_stream_spec o _ _ ls None with "[Hb Hpool]"); [done|lia|done|iFrame; done|].
  iIntros (x) "(%s & [%Ex %Eo] & H)". subst x. cbn in Eo.
  iDestruct (in_ByteCount_spec _ _ _ _ (content ls) with "H") as "[-> H]".
  { by rewrite Eo Hlen /content /= app_nil_r. }
  { by rewrite /content /= app_nil_r. }
  wp_bind. iApply (in_destroy_spec with "H"); [done|]. iIntros (b') "[Hb Hpool]". wp_ret.
  iApply "HΦ". iExists b'. rewrite zlen_nil Z.add_0_r. iFrame "Hpool". iSplitR; [done|].
  iExists []. iFrame. by iPureIntro.
Qed.

(** Taking a window and giving part of it back. *)
Definition next_then_back_up (count : Z) (b : Buffer) : M Buffer :=
  '(_, s) ← in_Next (BufferInputStream_new b);
  s ← in_BackUp s count;
  in_destroy s.

(** [BackUp(count)] after [Next] returns exactly the last [count] bytes of
    the window to the front of the buffer, while the buffer holds more pieces
    and [count] is less than the window. *)
Lemma input_stream_back_up o b l p ls count :
  {{ buf_rep b ((l, p) :: ls) ∗ pool (o + zlen ((l, p) :: ls)) ∗
     ⟪0 <= o /\ ls <> [] /\ 0 <= count < p_len p⟫ }}
    next_then_back_up count b
  {{ b', buf b' (zlen ((l, p) :: ls)) (drop (Z.to_nat (p_len p - count)) (content ((l, p) :: ls))) ∗
         pool (o + zlen ((l, p) :: ls)) }}.
Proof.
  iIntros (Φ) "(Hb & Hpool & %Ho & %Hne & %Hc) HΦ". rewrite /next_then_back_up. wp_bind.
  iAssert (⟪piece_wf p /\ zlen (content ((l, p) :: ls)) < 2 ^ 64⟫ ∗
           buf_rep b ((l, p) :: ls))%I with "[Hb]" as "[[%Hp %H64] Hb]".
  { iDestruct "Hb" as "(Hq & %Hwf & %Hl & %H)". iFrame. iSplit; iPureIntro; [|done].
    by apply cells_wf_cons in Hwf as [? ?]. }
  pose proof (zlen_piece_bytes p Hp) as Hz.
  iApply (in_Next_spec o Ho _ l p ls None with "[Hb Hpool]"); [lia|iFrame; done|].
  iIntros (x) "(%s & [%Ex _] & H)". subst x. wp_bind.
  rewrite content_cons zlen_app Hz in H64.
  iApply (in_BackUp_spec with "H"); [done..|lia|]. iIntros (s') "[_ H]".
  iApply (in_destroy_spec with "H"); [done|]. iIntros (b') "[Hb Hpool]". iApply "HΦ".
  iSplitL "Hb"; [|by rewrite !zlen_cons]. iExists _. iFrame "Hb". iPureIntro.
  rewrite !content_cons advance_bytes //; [|lia]. rewrite !zlen_cons drop_app_le //.
  rewrite /zlen in Hz. lia.
Qed.

(** A client that reads six of ten bytes, after which the buffer is used
    again: four bytes are left, three are written, seven are read. *)
Definition back_up_last_piece : M (list Z) :=
  b ← write Buffer_new [1; 2; 3; 4; 5; 6; 7; 8; 9; 10];
  b ← next_then_back_up 4 b;
  b ← write b [11; 12; 13];
  '(bs, _) ← read b 7;
  mret bs.

(** [flatBackUp] puts the piece back at [head_] and leaves [tail_] null
    when the buffer had become empty: the next write then fails the assertion
    of [Queue::push] in a Debug build, and in a Release build overwrites
    [head_], losing the bytes given back, so that a later read of the bytes
    [length()] announces runs off the end of the queue. *)
Lemma input_stream_back_up_last_piece :
  back_up_last_piece (init_mem (λ _ _, 0) false) = Err AssertionFailed /\
  back_up_last_piece (init_mem (λ _ _, 0) true) = Err NullDeref.
Proof. split; vm_compute; reflexivity. Qed.

(** A buffer whose pieces are full, and a client that asks for a window and
    writes nothing. *)
Definition back_up_fresh_piece : M (Z * list Z) :=
  b ← write Buffer_new (replicate 4096 7);
  '(w, s) ← out_Next (BufferOutputStream_new b);
  s ← out_BackUp s (w_size w);
  '(bs, _) ← read (out_buffer s) 4096;
  mret (out_ByteCount s, bs).

(** The assertion [len < last->len] of the output stream's [flatBackUp]
    rejects giving back a whole fresh piece, which a client that wrote nothing
    must do: a Debug build aborts; a Release build behaves as it should. *)
Lemma output_stream_back_up_fresh_piece :
  back_up_fresh_piece (init_mem (λ _ _, 0) false) = Err AssertionFailed /\
  (exists s, back_up_fresh_piece (init_mem (λ _ _, 0) true) = Ok (0, replicate 4096 7) s).
Proof. split; [vm_compute; reflexivity|]. eexists. vm_compute. reflexivity. Qed.
