(* ===== verification/Utf8.v ===== *)
(** * UTF-8 validation

    [google/protobuf/stubs/structurally_valid.cc]: the scanner that the parsers
    of the generated messages apply to their string fields.  It has two fast
    paths for ASCII, eight bytes at a time and dependent on the address of the
    text, a state machine in a table of nine blocks of 256 bytes, and a walk
    back to the start of the character that it could not finish.

    The reference is the definition of UTF-8 itself: [is_utf8], the
    concatenation of the encodings of Unicode scalar values.  Wherever the text
    lies, the scanner consumes its longest prefix that is UTF-8.

    A text is the address of its first byte and the list of its bytes; reading
    outside gives [None].  Positions are relative to the first byte. *)

From stdpp Require Import base tactics list numbers option ssreflect.
From Stdlib Require Import ZArith Lia ZifyBool.
From S2P Require Import Prelude.

(** ** Tables *)

(** [RemapEntry] *)
Record RemapEntry := mkRemapEntry { delete_bytes : Z; add_bytes : Z; bytes_offset : Z }.

(** [ExitReason]: the codes that the scanner and its table use; all but the
    first are entries of state tables, above every state. *)
Definition kExitIllegalStructure : Z := 240.
Definition kExitOK : Z := 241.
Definition kExitReject : Z := 242.
Definition kExitDoAgain : Z := 253.

(** [UTF8StateMachineObj], [UTF8ScanObj] *)
Record UTF8ScanObj := mkUTF8ScanObj {
  state0 : Z;
  state0_size : Z;
  total_size : Z;
  max_expand : Z;
  entry_shift : Z;
  bytes_per_entry : Z;
  losub : Z;
  hiadd : Z;
  state_table : list Z;
  remap_base : list RemapEntry;
  remap_string : list Z;
  fast_state : list Z
}.

(** [utf8acceptnonsurrogates]: nine blocks of 256 entries, runs of equal
    entries written as such; [X__] is illegal, [RJ_] a surrogate. *)
Definition utf8acceptnonsurrogates : list Z :=
  let X__ n := repeat kExitIllegalStructure n in
  let RJ_ n := repeat kExitReject n in
  (* state[0] 0x000000 Byte 1 *)
  repeat 0 128 ++ X__ 66%nat ++ repeat 1 30 ++ [2] ++ repeat 3 12 ++ [7; 3; 3] ++
  [4; 5; 5; 5; 6] ++ X__ 11%nat ++
  (* state[1] 0x000080 Byte 2 of 2 *)
  X__ 128%nat ++ repeat 0 64 ++ X__ 64%nat ++
  (* state[2] 0x000000 Byte 2 of 3 *)
  X__ 160%nat ++ repeat 1 32 ++ X__ 64%nat ++
  (* state[3] 0x001000 Byte 2 of 3 *)
  X__ 128%nat ++ repeat 1 64 ++ X__ 64%nat ++
  (* state[4] 0x000000 Byte 2 of 4 *)
  X__ 144%nat ++ repeat 3 48 ++ X__ 64%nat ++
  (* state[5] 0x040000 Byte 2 of 4 *)
  X__ 128%nat ++ repeat 3 64 ++ X__ 64%nat ++
  (* state[6] 0x100000 Byte 2 of 4 *)
  X__ 128%nat ++ repeat 3 16 ++ X__ 112%nat ++
  (* state[7] 0x00d000 Byte 2 of 3 *)
  X__ 128%nat ++ repeat 1 32 ++ repeat 8 32 ++ X__ 64%nat ++
  (* state[8] 0x00d800 Byte 3 of 3 *)
  X__ 128%nat ++ RJ_ 64%nat ++ X__ 64%nat.

(** [utf8acceptnonsurrogates_fast]: 0 for the bytes that the fast path skips. *)
Definition utf8acceptnonsurrogates_fast : list Z := repeat 0 128 ++ repeat 1 128.

(** [utf8acceptnonsurrogates_obj] *)
Definition utf8acceptnonsurrogates_obj : UTF8ScanObj :=
  mkUTF8ScanObj 0 256 2304 0 8 1 0x20202020 0x00000000 utf8acceptnonsurrogates
    [mkRemapEntry 0 0 0] [0] utf8acceptnonsurrogates_fast.

(** An array read at an index of the source. *)
Definition array_at (l : list Z) (i : Z) : option Z :=
  if 0 <=? i then l !! Z.to_nat i else None.

(** ** The scanner *)

(** [InStateZero]: the difference of the pointers, as a [uint32]. *)
Definition InStateZero (st : UTF8ScanObj) (Tbl : Z) : bool :=
  wrap32 (Tbl - state0 st) <? state0_size st.

Section text.
Context (addr : Z) (bs : list Z).
#[local] Abbreviation len := (zlen bs).
#[local] Abbreviation src_at := (array_at bs).

(** [reinterpret_cast<const uint32 *>(src)[0]] on a little-endian machine *)
Definition read_uint32 (src : Z) : option Z :=
  b0 ← src_at src; b1 ← src_at (src + 1); b2 ← src_at (src + 2); b3 ← src_at (src + 3);
  Some (of_le [b0; b1; b2; b3]).

(** [((uintptr_t)src & 0x07) == 0] *)
Definition aligned8 (src : Z) : bool := Z.land (addr + src) 7 =? 0.

(** The byte loops of the fast paths: [skip] tells the bytes to go past. *)
Fixpoint skip_bytes (stop : Z -> bool) (skip : Z -> option bool) (fuel : nat) (src : Z) : option Z :=
  match fuel with
  | O => None
  | S fuel =>
      if negb (stop src) && (src <? len) then
        c ← src_at src; b ← skip c;
        if (b : bool) then skip_bytes stop skip fuel (src + 1) else Some src
      else Some src
  end.

Definition skips_fast (st : UTF8ScanObj) (c : Z) : option bool := e ← array_at (fast_state st) c; Some (e =? 0).
Definition skips_ascii (c : Z) : option bool := Some (c <? 0x80).

(** [Tbl2[src[i]] | ... | Tbl2[src[i + 3]]] *)
Definition fast4 (st : UTF8ScanObj) (i : Z) : option Z :=
  let Tbl2 i := c ← src_at i; array_at (fast_state st) c in
  e0 ← Tbl2 i; e1 ← Tbl2 (i + 1); e2 ← Tbl2 (i + 2); e3 ← Tbl2 (i + 3);
  Some (Z.lor (Z.lor e0 e1) (Z.lor e2 e3)).

(** Groups of eight identity bytes, in [UTF8GenericScan]. *)
Fixpoint skip_identity8 (st : UTF8ScanObj) (fuel : nat) (src : Z) : option Z :=
  match fuel with
  | O => None
  | S fuel =>
      if src <? len - 7 then
        s0123 ← read_uint32 src;
        s4567 ← read_uint32 (src + 4);
        let src := src + 8 in
        let temp := Z.lor (Z.lor (wrap32 (s0123 - losub st)) (wrap32 (s0123 + hiadd st)))
                      (Z.lor (wrap32 (s4567 - losub st)) (wrap32 (s4567 + hiadd st))) in
        if negb (Z.land temp 0x80808080 =? 0) then
          e0123 ← fast4 st (src - 8);
          if negb (e0123 =? 0) then Some (src - 8)
          else
            e0123 ← fast4 st (src - 4);
            if negb (e0123 =? 0) then Some (src - 4)
            else skip_identity8 st fuel src
        else skip_identity8 st fuel src
      else Some src
  end.

(** Groups of eight ASCII bytes, in [UTF8GenericScanFastAscii]. *)
Fixpoint skip_ascii8 (fuel : nat) (src : Z) : option Z :=
  match fuel with
  | O => None
  | S fuel =>
      if src <? len - 7 then
        s0123 ← read_uint32 src;
        s4567 ← read_uint32 (src + 4);
        if Z.land (Z.lor s0123 s4567) 0x80808080 =? 0 then skip_ascii8 fuel (src + 8) else Some src
      else Some src
  end.

(** The byte-at-a-time scan: the offset [Tbl] of the current block, the last
    entry read and the position. *)
Fixpoint scan_bytes (st : UTF8ScanObj) (fuel : nat) (Tbl e src : Z) : option (Z * Z * Z) :=
  match fuel with
  | O => None
  | S fuel =>
      if src <? len then
        c ← src_at src;
        e ← array_at (state_table st) (Tbl + c);
        if kExitIllegalStructure <=? e then Some (Tbl, e, src + 1)
        else scan_bytes st fuel (state0 st + Z.shiftl e (entry_shift st)) e (src + 1)
      else Some (Tbl, e, src)
  end.

(** [do src--; while (src > isrc && (src[0] & 0xc0) == 0x80)] *)
Fixpoint back_up (fuel : nat) (src : Z) : option Z :=
  match fuel with
  | O => None
  | S fuel =>
      let src := src - 1 in
      if 0 <? src then
        c ← src_at src;
        if Z.land c 0xc0 =? 0x80 then back_up fuel src else Some src
      else Some src
  end.

Definition text_fuel : nat := S (length bs).

(** From the label [DoAgain] to the [goto]. *)
Fixpoint scan_again (st : UTF8ScanObj) (fuel : nat) (src : Z) : option (Z * Z) :=
  match fuel with
  | O => None
  | S fuel =>
      src ← skip_bytes aligned8 (skips_fast st) text_fuel src;
      src ← (if aligned8 src then skip_identity8 st text_fuel src else Some src);
      '(Tbl, e, src) ← scan_bytes st text_fuel (state0 st) 0 src;
      '(e, src) ← (if kExitIllegalStructure <=? e then
                     let src := src - 1 in
                     if negb (InStateZero st Tbl) then (src ← back_up text_fuel src; Some (e, src))
                     else Some (e, src)
                   else if negb (InStateZero st Tbl) then
                     (src ← back_up text_fuel src; Some (kExitIllegalStructure, src))
                   else Some (kExitOK, src));
      if e =? kExitDoAgain then scan_again st fuel src else Some (e, int32 src)
  end.

(** [UTF8GenericScan]: the exit reason and [*bytes_consumed]. *)
Definition UTF8GenericScan (st : UTF8ScanObj) : option (Z * Z) :=
  if len =? 0 then Some (kExitOK, 0) else scan_again st text_fuel 0.
End text.

(** The loop of [UTF8GenericScanFastAscii]. *)
Fixpoint fast_ascii_again (st : UTF8ScanObj) (addr : Z) (bs : list Z) (fuel : nat) (src : Z)
    : option (Z * Z) :=
  match fuel with
  | O => None
  | S fuel =>
      src ← skip_bytes bs (aligned8 addr) skips_ascii (text_fuel bs) src;
      src ← (if aligned8 addr src then skip_ascii8 bs (text_fuel bs) src else Some src);
      src ← skip_bytes bs (λ _, false) skips_ascii (text_fuel bs) src;
      let n := int32 src in
      '(exit_reason, rest_consumed) ← UTF8GenericScan (addr + n) (drop (Z.to_nat n) bs) st;
      let src := src + rest_consumed in
      if exit_reason =? kExitDoAgain then fast_ascii_again st addr bs fuel src
      else Some (exit_reason, int32 src)
  end.

(** [UTF8GenericScanFastAscii] *)
Definition UTF8GenericScanFastAscii (st : UTF8ScanObj) (addr : Z) (bs : list Z) : option (Z * Z) :=
  if zlen bs =? 0 then Some (kExitOK, 0) else fast_ascii_again st addr bs (text_fuel bs) 0.

(** [IsStructurallyValidUTF8]; [module_initialized_] is false until the static
    objects of the file are constructed. *)
Definition IsStructurallyValidUTF8 (module_initialized_ : bool) (addr : Z) (bs : list Z) : option bool :=
  if negb module_initialized_ then Some true
  else
    '(_, bytes_consumed) ← UTF8GenericScanFastAscii utf8acceptnonsurrogates_obj addr bs;
    Some (bytes_consumed =? zlen bs).

(** [UTF8SpnStructurallyValid] *)
Definition UTF8SpnStructurallyValid (module_initialized_ : bool) (addr : Z) (bs : list Z) : option Z :=
  if negb module_initialized_ then Some (zlen bs)
  else
    '(_, bytes_consumed) ← UTF8GenericScanFastAscii utf8acceptnonsurrogates_obj addr bs;
    Some bytes_consumed.

(** [UTF8CoerceToStructurallyValid]: the loop that replaces one bad byte and
    copies the next good chunk to [dst], and the function. *)
Fixpoint coerce_loop (module_initialized_ : bool) (addr : Z) (bs : list Z) (replace_char : Z)
    (fuel : nat) (src : Z) (dst : list Z) : option (list Z) :=
  match fuel with
  | O => None
  | S fuel =>
      if src <? zlen bs then
        let dst := dst ++ [replace_char] in
        let src := src + 1 in
        let str2 := drop (Z.to_nat src) bs in
        n ← UTF8SpnStructurallyValid module_initialized_ (addr + src) str2;
        coerce_loop module_initialized_ addr bs replace_char fuel (src + n) (dst ++ take (Z.to_nat n) str2)
      else Some dst
  end.

Definition UTF8CoerceToStructurallyValid (module_initialized_ : bool) (addr : Z) (bs : list Z)
    (replace_char : Z) : option (list Z) :=
  n ← UTF8SpnStructurallyValid module_initialized_ addr bs;
  if n =? zlen bs then Some bs
  else coerce_loop module_initialized_ addr bs replace_char (text_fuel bs) n (take (Z.to_nat n) bs).

(** ** UTF-8 *)

(** Unicode scalar values: code points without the surrogates. *)
Definition scalar_value (cp : Z) : Prop := 0 <= cp < 0xD800 \/ 0xE000 <= cp <= 0x10FFFF.

(** The encoding of a scalar value in one to four bytes (RFC 3629). *)
Definition encode_utf8 (cp : Z) : list Z :=
  if cp <? 0x80 then [cp]
  else if cp <? 0x800 then [0xC0 + cp / 64; 0x80 + cp mod 64]
  else if cp <? 0x10000 then [0xE0 + cp / 4096; 0x80 + (cp / 64) mod 64; 0x80 + cp mod 64]
  else [0xF0 + cp / 262144; 0x80 + (cp / 4096) mod 64; 0x80 + (cp / 64) mod 64; 0x80 + cp mod 64].

Definition is_utf8 (bs : list Z) : Prop :=
  exists cps, Forall scalar_value cps /\ bs = cps ≫= encode_utf8.

Lemma is_utf8_nil : is_utf8 [].
Proof. by exists []. Qed.

Lemma is_utf8_cons cp bs : scalar_value cp -> is_utf8 bs -> is_utf8 (encode_utf8 cp ++ bs).
Proof. intros Hcp (cps & Hs & ->). exists (cp :: cps). split; [by constructor|done]. Qed.

Lemma is_utf8_app l k : is_utf8 l -> is_utf8 k -> is_utf8 (l ++ k).
Proof.
  intros (cps & Hl & ->) (cps' & Hk & ->). exists (cps ++ cps').
  split; [by apply Forall_app|]. by rewrite bind_app.
Qed.

Lemma is_utf8_ascii bs : Forall (λ c, 0 <= c < 128) bs -> is_utf8 bs.
Proof.
  induction 1 as [|c bs Hc _ IH]; [exact is_utf8_nil|].
  replace (c :: bs) with (encode_utf8 c ++ bs).
  - apply is_utf8_cons; [|done]. rewrite /scalar_value. lia.
  - rewrite /encode_utf8 (proj2 (Z.ltb_lt c 0x80)) //. lia.
Qed.

(** *** The machine of the table

    The next state, or [None] for the exit codes. *)
Definition utf8_next (state c : Z) : option Z :=
  let between lo hi := (lo <=? c) && (c <=? hi) in
  match state with
  | 0 =>
      if between 0 127 then Some 0
      else if between 194 223 then Some 1
      else if c =? 224 then Some 2
      else if c =? 237 then Some 7
      else if between 225 239 then Some 3
      else if c =? 240 then Some 4
      else if between 241 243 then Some 5
      else if c =? 244 then Some 6
      else None
  | 1 => if between 128 191 then Some 0 else None
  | 2 => if between 160 191 then Some 1 else None
  | 3 => if between 128 191 then Some 1 else None
  | 4 => if between 144 191 then Some 3 else None
  | 5 => if between 128 191 then Some 3 else None
  | 6 => if between 128 143 then Some 3 else None
  | 7 => if between 128 159 then Some 1 else if between 160 191 then Some 8 else None
  | _ => None
  end.

Fixpoint utf8_scan (state : Z) (bs : list Z) : option Z :=
  match bs with
  | [] => Some state
  | c :: bs => state ← utf8_next state c; utf8_scan state bs
  end.

Definition is_state (s : Z) : Prop := 0 <= s <= 8.

(** All the entries of the table, by computation. *)
Definition entry_ok (s c : Z) : bool :=
  match array_at utf8acceptnonsurrogates (256 * s + c), utf8_next s c with
  | Some e, Some s' => (e =? s') && (0 <=? e) && (e <=? 8)
  | Some e, None => (e =? kExitIllegalStructure) || (e =? kExitReject)
  | None, _ => false
  end.

Lemma table_entries :
  forallb (λ s, forallb (λ c, entry_ok s c) (seqZ 0 256)) (seqZ 0 9) = true.
Proof. vm_compute. reflexivity. Qed.

Lemma forallb_seqZ (f : Z -> bool) n i : forallb f (seqZ 0 n) = true -> 0 <= i < n -> f i = true.
Proof.
  intros H Hi. apply (proj1 (forallb_forall _ _) H), list_elem_of_In, elem_of_seqZ. lia.
Qed.

Lemma table_entry s c : is_state s -> is_byte c -> entry_ok s c = true.
Proof.
  rewrite /is_state /is_byte. intros Hs Hc.
  apply (forallb_seqZ (entry_ok s) 256); [|done]. apply (forallb_seqZ _ 9 s table_entries). lia.
Qed.

Lemma table_next s c s' : is_state s -> is_byte c -> utf8_next s c = Some s' ->
  array_at utf8acceptnonsurrogates (256 * s + c) = Some s' /\ is_state s'.
Proof.
  intros Hs Hc Hn. pose proof (table_entry s c Hs Hc) as H. rewrite /entry_ok Hn in H.
  destruct (array_at _ _) as [e|]; [|done]. bool_cases. subst e. by rewrite /is_state.
Qed.

Lemma table_exit s c : is_state s -> is_byte c -> utf8_next s c = None ->
  exists e, array_at utf8acceptnonsurrogates (256 * s + c) = Some e /\
    (e = kExitIllegalStructure \/ e = kExitReject).
Proof.
  intros Hs Hc Hn. pose proof (table_entry s c Hs Hc) as H. rewrite /entry_ok Hn in H.
  destruct (array_at _ _) as [e|]; [|done]. exists e. split; [done|].
  apply orb_true_iff in H as [H|H]; bool_cases; auto.
Qed.

Lemma fast_entries :
  forallb (λ c, bool_decide (array_at utf8acceptnonsurrogates_fast c = Some (if c <? 128 then 0 else 1)))
    (seqZ 0 256) = true.
Proof. vm_compute. reflexivity. Qed.

Lemma fast_entry c : is_byte c ->
  array_at utf8acceptnonsurrogates_fast c = Some (if c <? 128 then 0 else 1).
Proof. intros Hc. exact (bool_decide_eq_true_1 _ (forallb_seqZ _ 256 c fast_entries Hc)). Qed.

(** [utf8_step s]: the machine goes to state [s], by the bounds of the byte. *)
Ltac utf8_step s :=
  match goal with |- context [utf8_next ?s0 ?c] =>
    let H := fresh in
    assert (utf8_next s0 c = Some s) as H
      by (unfold utf8_next; Z.to_euclidean_division_equations; repeat case_match; solve [done|lia]);
    rewrite {}H; cbn [mbind option_bind utf8_scan]
  end.

Lemma utf8_scan_app s l k : utf8_scan s (l ++ k) = s' ← utf8_scan s l; utf8_scan s' k.
Proof. revert s. induction l as [|c l IH]; intros s; [done|]. cbn. destruct (utf8_next s c); cbn; [apply IH|done]. Qed.

Lemma utf8_next_ascii c : 0 <= c < 128 -> utf8_next 0 c = Some 0.
Proof. intros Hc. by utf8_step 0. Qed.

(** The machine accepts the encoding of a scalar value ... *)
Lemma utf8_scan_encode cp l : scalar_value cp -> utf8_scan 0 (encode_utf8 cp ++ l) = utf8_scan 0 l.
Proof.
  rewrite /scalar_value /encode_utf8. intros Hcp.
  repeat case_match; bool_cases; cbn [app utf8_scan].
  - by utf8_step 0.
  - utf8_step 1. by utf8_step 0.
  - destruct (Z_lt_dec cp 0x1000); [utf8_step 2; utf8_step 1; by utf8_step 0|].
    destruct (Z_lt_dec cp 0xD000); [utf8_step 3; utf8_step 1; by utf8_step 0|].
    destruct (Z_lt_dec cp 0xE000); [utf8_step 7|utf8_step 3]; utf8_step 1; by utf8_step 0.
  - destruct (Z_lt_dec cp 0x40000); [utf8_step 4; utf8_step 3; utf8_step 1; by utf8_step 0|].
    destruct (Z_lt_dec cp 0x100000); [utf8_step 5|utf8_step 6]; utf8_step 3; utf8_step 1; by utf8_step 0.
Qed.

(** ... and nothing else. *)
Lemma utf8_scan_cons_inv s l : s <> 0 -> utf8_scan s l = Some 0 ->
  exists d l' s', l = d :: l' /\ utf8_next s d = Some s' /\ utf8_scan s' l' = Some 0.
Proof.
  intros Hs. destruct l as [|d l]; cbn; [congruence|]. intros H.
  destruct (utf8_next s d) as [s'|] eqn:En; [|done]. eauto 10.
Qed.

(** [next_inv H]: the bounds of the byte, for each state it may lead to;
    [scan_inv H]: the next byte of a text accepted from a state. *)
Ltac next_inv H := cbn in H; repeat case_match; simplify_eq; bool_cases.
Ltac scan_inv H :=
  let d := fresh "d" in let l := fresh "l" in let Hn := fresh "Hn" in
  apply utf8_scan_cons_inv in H as (d & l & ? & -> & Hn & H); [|done]; next_inv Hn.

Definition is_tail (d : Z) : Prop := 128 <= d <= 191.

(** One more group of six bits. *)
Definition push6 (a d : Z) : Z := a * 64 + (d - 128).

Lemma push6_div a d : is_tail d -> push6 a d / 64 = a /\ push6 a d mod 64 = d - 128.
Proof.
  rewrite /is_tail /push6. intros Hd. split.
  - symmetry. apply Z.div_unique with (d - 128); lia.
  - symmetry. apply Z.mod_unique with a; lia.
Qed.

Ltac encode_solve :=
  intros; unfold encode_utf8;
  change 262144 with (64 * (64 * 64)); change 4096 with (64 * 64);
  rewrite <-?Z.div_div by lia;
  repeat match goal with |- context [push6 ?a ?d / 64] =>
    let H := fresh in pose proof (push6_div a d ltac:(assumption)) as H;
    rewrite ?(proj1 H) ?(proj2 H); clear H end;
  unfold push6, is_tail in *; repeat case_match; bool_cases; try lia; repeat f_equal; lia.

Lemma encode_2 c d : 194 <= c <= 223 -> is_tail d -> encode_utf8 (push6 (c - 192) d) = [c; d].
Proof. encode_solve. Qed.

Lemma encode_3 c d e : 224 <= c <= 239 -> (c = 224 -> 160 <= d) -> is_tail d -> is_tail e ->
  encode_utf8 (push6 (push6 (c - 224) d) e) = [c; d; e].
Proof. encode_solve. Qed.

Lemma encode_4 c d e f : 240 <= c <= 244 -> (c = 240 -> 144 <= d) -> is_tail d -> is_tail e -> is_tail f ->
  encode_utf8 (push6 (push6 (push6 (c - 240) d) e) f) = [c; d; e; f].
Proof. encode_solve. Qed.

(** The scalar value of the bytes before the rest of the text. *)
Ltac give_scalar :=
  lazymatch goal with H : utf8_scan 0 ?l = Some 0 |- _ =>
    lazymatch goal with
    | |- context [?c :: ?d :: ?e :: ?f :: l] => exists (push6 (push6 (push6 (c - 240) d) e) f), l; rewrite encode_4
    | |- context [?c :: ?d :: ?e :: l] => exists (push6 (push6 (c - 224) d) e), l; rewrite encode_3
    | |- context [?c :: ?d :: l] => exists (push6 (c - 192) d), l; rewrite encode_2
    end
  end;
  unfold scalar_value, push6, is_tail; first [split_and!; [lia|reflexivity|done]|lia].

Lemma utf8_scan_char c l : utf8_scan 0 (c :: l) = Some 0 ->
  exists cp l', scalar_value cp /\ c :: l = encode_utf8 cp ++ l' /\ utf8_scan 0 l' = Some 0.
Proof.
  cbn [utf8_scan]. intros H.
  destruct (utf8_next 0 c) as [s|] eqn:En; [cbn in H|done]. next_inv En.
  { exists c, l. rewrite /encode_utf8 /scalar_value. case_match; [|lia]. split; [lia|done]. }
  all: scan_inv H; try (scan_inv H); try (scan_inv H); try done; give_scalar.
Qed.

Lemma utf8_scan_iff l : utf8_scan 0 l = Some 0 <-> is_utf8 l.
Proof.
  split.
  - induction l as [l IH] using (induction_ltof1 _ (@length Z)); unfold ltof in IH.
    destruct l as [|c l]; [intros; exact is_utf8_nil|].
    intros (cp & l' & Hcp & E & H)%utf8_scan_char. rewrite E. apply is_utf8_cons; [done|].
    apply IH; [|done]. rewrite E length_app. unfold encode_utf8. repeat case_match; cbn; lia.
  - intros (cps & Hs & ->). induction Hs as [|cp cps Hcp _ IH]; [done|].
    cbn [mbind list_bind]. by rewrite utf8_scan_encode.
Qed.

(** ** The scanner is the machine *)

(** [p] ends the longest prefix that the machine accepts. *)
Definition longest (bs : list Z) (p : Z) : Prop :=
  0 <= p <= zlen bs /\ utf8_scan 0 (take (Z.to_nat p) bs) = Some 0 /\
  forall m, p < m <= zlen bs -> utf8_scan 0 (take (Z.to_nat m) bs) <> Some 0.

Lemma longest_drop bs n p : 0 <= n <= zlen bs -> utf8_scan 0 (take (Z.to_nat n) bs) = Some 0 ->
  longest (drop (Z.to_nat n) bs) p -> longest bs (n + p).
Proof.
  unfold longest, zlen. rewrite length_drop. intros Hn H0 (Hp & H1 & H2).
  assert (forall m, n <= m -> utf8_scan 0 (take (Z.to_nat m) bs) =
    utf8_scan 0 (take (Z.to_nat (m - n)) (drop (Z.to_nat n) bs))) as E.
  { intros m Hm. replace (Z.to_nat m) with (Z.to_nat n + Z.to_nat (m - n))%nat by lia.
    by rewrite -take_take_drop utf8_scan_app H0. }
  split; [lia|]. split.
  - rewrite E; [|lia]. by replace (n + p - n) with p by lia.
  - intros m Hm. rewrite E; [|lia]. apply H2. lia.
Qed.

Section scanner.
Context (addr : Z) (bs : list Z) (Hbs : Forall is_byte bs).
#[local] Abbreviation st := utf8acceptnonsurrogates_obj.
#[local] Abbreviation len := (zlen bs).

(** What the machine says of the bytes before a position. *)
Definition scan_to (p : Z) : option Z := utf8_scan 0 (take (Z.to_nat p) bs).
Definition boundary (p : Z) : Prop := 0 <= p <= len /\ scan_to p = Some 0.

Lemma src_at_some p : 0 <= p < len -> exists c, array_at bs p = Some c /\ is_byte c.
Proof using Hbs.
  intros Hp. unfold zlen in Hp. rewrite /array_at (proj2 (Z.leb_le 0 p)); [|lia].
  destruct (lookup_lt_is_Some_2 bs (Z.to_nat p)) as [c Hc]; [lia|].
  exists c. split; [done|]. by eapply Forall_lookup_1.
Qed.

Lemma scan_to_succ p c : 0 <= p -> array_at bs p = Some c ->
  scan_to (p + 1) = s ← scan_to p; utf8_next s c.
Proof using Type.
  rewrite /array_at /scan_to. intros Hp. rewrite (proj2 (Z.leb_le 0 p)); [|lia]. intros Hc.
  replace (Z.to_nat (p + 1)) with (S (Z.to_nat p)) by lia.
  rewrite (take_S_r _ _ c) // utf8_scan_app. destruct (utf8_scan _ _) as [s|]; [|done]. cbn.
  by destruct (utf8_next s c).
Qed.

Lemma boundary_ascii p c : boundary p -> p < len -> array_at bs p = Some c -> 0 <= c < 128 -> boundary (p + 1).
Proof using Type.
  intros [Hp H] Hl Hc Hr. split; [lia|]. rewrite (scan_to_succ p c) //; [|lia].
  rewrite H. by apply utf8_next_ascii.
Qed.

Lemma scan_to_none p m : 0 <= p <= m -> m <= len -> scan_to p = None -> scan_to m = None.
Proof using Hbs.
  intros Hp Hm H. replace m with (p + Z.of_nat (Z.to_nat (m - p))) in * by lia.
  revert Hm. induction (Z.to_nat (m - p)) as [|k IH]; intros Hm; [by rewrite Z.add_0_r|].
  replace (p + Z.of_nat (S k)) with (p + Z.of_nat k + 1) in * by lia.
  destruct (src_at_some (p + Z.of_nat k)) as (c & Hc & _); [lia|].
  rewrite (scan_to_succ _ c) //; [|lia]. rewrite IH //; lia.
Qed.

(** *** The fast paths skip ASCII *)
Lemma skip_bytes_spec stop skip fuel p :
  (forall c, is_byte c -> exists b, skip c = Some b /\ (b = true -> c < 128)) ->
  boundary p -> len - p < Z.of_nat fuel ->
  exists p', skip_bytes bs stop skip fuel p = Some p' /\ boundary p'.
Proof using Hbs.
  intros Hskip. revert p. induction fuel as [|fuel IH]; intros p Hp Hf; [destruct Hp; lia|].
  cbn [skip_bytes]. case_match eqn:E; [|by eauto]. bool_cases.
  destruct (src_at_some p) as (c & Hc & Hr); [destruct Hp; lia|].
  destruct (Hskip c Hr) as (b & Eb & Hb). rewrite Hc /= Eb /=. destruct b; [|by eauto].
  apply IH; [|lia]. apply (boundary_ascii p c); auto. destruct Hr. lia.
Qed.

Lemma fast_skips c : is_byte c -> exists b, skips_fast st c = Some b /\ (b = true -> c < 128).
Proof using Type.
  intros Hc. rewrite /skips_fast /= fast_entry //=. eexists. split; [done|].
  case_match; intros; bool_cases; [done|lia].
Qed.

Lemma ascii_skips c : is_byte c -> exists b, skips_ascii c = Some b /\ (b = true -> c < 128).
Proof using Type. intros _. eexists. split; [done|]. intros. bool_cases. lia. Qed.

(** Four bytes below 128: by the high bits of the word. *)
Definition low4 (p : Z) : Prop :=
  forall i, p <= i < p + 4 -> exists c, array_at bs i = Some c /\ 0 <= c < 128.

Lemma boundary_low4 p : boundary p -> p + 4 <= len -> low4 p -> boundary (p + 4).
Proof using Type.
  intros Hp Hl H4.
  assert (forall k, (k <= 4)%nat -> boundary (p + Z.of_nat k)) as Hk; [|exact (Hk 4%nat ltac:(lia))].
  induction k as [|k IH]; intros Hk; [by rewrite Z.add_0_r|].
  destruct (H4 (p + Z.of_nat k)) as (c & Hc & Hr); [lia|].
  replace (p + Z.of_nat (S k)) with (p + Z.of_nat k + 1) by lia.
  apply (boundary_ascii _ c); [apply IH; lia|lia|done..].
Qed.

Lemma high_bit w k : Z.land w 0x80808080 = 0 -> (k = 7 \/ k = 15 \/ k = 23 \/ k = 31) -> Z.testbit w k = false.
Proof using Type.
  intros H Hk. assert (Z.testbit (Z.land w 0x80808080) k = false) as E by (by rewrite H Z.bits_0).
  rewrite Z.land_spec in E. destruct Hk as [->|[->|[->| ->]]]; by rewrite andb_true_r in E.
Qed.

Lemma read_uint32_spec p : 0 <= p -> p + 4 <= len ->
  exists w, read_uint32 bs p = Some w /\ 0 <= w < 2 ^ 32 /\ (Z.land w 0x80808080 = 0 -> low4 p).
Proof using Hbs.
  intros Hp Hl.
  destruct (src_at_some p) as (b0 & E0 & H0); [lia|]. destruct (src_at_some (p + 1)) as (b1 & E1 & H1); [lia|].
  destruct (src_at_some (p + 2)) as (b2 & E2 & H2); [lia|]. destruct (src_at_some (p + 3)) as (b3 & E3 & H3); [lia|].
  rewrite /read_uint32 E0 E1 E2 E3 /=. eexists. split; [done|]. unfold is_byte in *.
  split; [cbn; lia|]. intros Hw.
  assert (forall k, k = 7 \/ k = 15 \/ k = 23 \/ k = 31 -> (of_le [b0; b1; b2; b3] / 2 ^ k) mod 2 = 0) as Hk.
  { intros k Hk. rewrite -Z.testbit_spec'; [|lia]. by rewrite high_bit. }
  pose proof (Hk 7 ltac:(lia)). pose proof (Hk 15 ltac:(lia)). pose proof (Hk 23 ltac:(lia)).
  pose proof (Hk 31 ltac:(lia)). clear Hk Hw. cbn [of_le] in *.
  change (2 ^ 7) with 128 in *. change (2 ^ 15) with 32768 in *.
  change (2 ^ 23) with 8388608 in *. change (2 ^ 31) with 2147483648 in *.
  intros i Hi.
  assert (i = p \/ i = p + 1 \/ i = p + 2 \/ i = p + 3) as [->|[->|[->| ->]]] by lia;
    eexists; (split; [done|]); Z.to_euclidean_division_equations; lia.
Qed.

Lemma boundary_8 p : boundary p -> p + 8 <= len -> low4 p -> low4 (p + 4) -> boundary (p + 8).
Proof using Type.
  intros Hp Hl H1 H2. replace (p + 8) with (p + 4 + 4) by lia.
  apply boundary_low4; [apply boundary_low4; auto; lia|lia|done].
Qed.

Lemma fast4_spec p : 0 <= p -> p + 4 <= len ->
  exists e, fast4 bs st p = Some e /\ (e = 0 -> low4 p).
Proof using Hbs.
  intros Hp Hl.
  destruct (src_at_some p) as (b0 & E0 & H0); [lia|]. destruct (src_at_some (p + 1)) as (b1 & E1 & H1); [lia|].
  destruct (src_at_some (p + 2)) as (b2 & E2 & H2); [lia|]. destruct (src_at_some (p + 3)) as (b3 & E3 & H3); [lia|].
  rewrite /fast4 E0 E1 E2 E3 /= !fast_entry //=. eexists. split; [done|].
  rewrite !Z.lor_eq_0_iff. unfold is_byte in *. intros [[? ?] [? ?]] i Hi.
  assert (i = p \/ i = p + 1 \/ i = p + 2 \/ i = p + 3) as [->|[->|[->| ->]]] by lia;
    eexists; (split; [done|]); repeat case_match; bool_cases; lia.
Qed.

Lemma lor4_high x a y b : Z.land (Z.lor (Z.lor x a) (Z.lor y b)) 0x80808080 = 0 ->
  Z.land a 0x80808080 = 0 /\ Z.land b 0x80808080 = 0.
Proof using Type. rewrite !Z.land_lor_distr_l !Z.lor_eq_0_iff. tauto. Qed.

Lemma skip_identity8_spec fuel p : boundary p -> len - p < Z.of_nat fuel ->
  exists p', skip_identity8 bs st fuel p = Some p' /\ boundary p'.
Proof using Hbs.
  revert p. induction fuel as [|fuel IH]; intros p Hp Hf; [destruct Hp; lia|].
  cbn [skip_identity8]. case_match eqn:E; [|by eauto]. bool_cases. destruct (Hp) as [Hr _].
  destruct (read_uint32_spec p) as (w0 & E0 & B0 & L0); [lia..|].
  destruct (read_uint32_spec (p + 4)) as (w1 & E1 & B1 & L1); [lia..|].
  rewrite E0 E1 /=. replace (p + 8 - 8) with p by lia. replace (p + 8 - 4) with (p + 4) by lia.
  case_match eqn:Et; bool_cases.
  - destruct (fast4_spec p) as (e0 & F0 & K0); [lia..|]. rewrite F0 /=.
    case_match; bool_cases; [by eauto|].
    destruct (fast4_spec (p + 4)) as (e1 & F1 & K1); [lia..|]. rewrite F1 /=.
    case_match; bool_cases; [exists (p + 4); split; [done|apply boundary_low4; auto; lia]|].
    apply IH; [apply boundary_8; auto; lia|lia].
  - apply lor4_high in Et as [Ha Hb]. rewrite !Z.add_0_r !wrap_id in Ha, Hb; [|lia..].
    apply IH; [apply boundary_8; auto; lia|lia].
Qed.

Lemma skip_ascii8_spec fuel p : boundary p -> len - p < Z.of_nat fuel ->
  exists p', skip_ascii8 bs fuel p = Some p' /\ boundary p'.
Proof using Hbs.
  revert p. induction fuel as [|fuel IH]; intros p Hp Hf; [destruct Hp; lia|].
  cbn [skip_ascii8]. case_match eqn:E; [|by eauto]. bool_cases. destruct (Hp) as [Hr _].
  destruct (read_uint32_spec p) as (w0 & E0 & B0 & L0); [lia..|].
  destruct (read_uint32_spec (p + 4)) as (w1 & E1 & B1 & L1); [lia..|].
  rewrite E0 E1 /=. case_match eqn:Et; bool_cases; [|by eauto].
  rewrite Z.land_lor_distr_l Z.lor_eq_0_iff in Et. destruct Et.
  apply IH; [apply boundary_8; auto; lia|lia].
Qed.

(** *** The table

    The scan is in state [s] at [q], in the character that starts at [p]. *)
Record scanning (p s q : Z) : Prop := {
  sc_start : boundary p;
  sc_pos : p <= q <= len;
  sc_state : is_state s;
  sc_at : scan_to q = Some s;
  sc_inside : forall m, p < m <= q -> scan_to m <> Some 0;
  sc_tails : forall i, p < i < q -> exists c, array_at bs i = Some c /\ is_tail c;
  sc_lead : forall c, p < q -> array_at bs p = Some c -> ~ is_tail c
}.

Lemma next_tail s c s' : is_state s -> s <> 0 -> utf8_next s c = Some s' -> is_tail c.
Proof using Type.
  rewrite /is_state /is_tail. intros Hs H0 H.
  assert (s = 1 \/ s = 2 \/ s = 3 \/ s = 4 \/ s = 5 \/ s = 6 \/ s = 7 \/ s = 8)
    as [->|[->|[->|[->|[->|[->|[->| ->]]]]]]] by lia; next_inv H; lia.
Qed.

Lemma next_lead c s : utf8_next 0 c = Some s -> ~ is_tail c.
Proof using Type. rewrite /is_tail. intros H. next_inv H; lia. Qed.

(** A state is 0 exactly at a boundary. *)
Lemma scanning_zero p q : scanning p 0 q -> p = q.
Proof using Type.
  intros [_ Hq _ Ha Hi _ _]. destruct (Z.eq_dec p q); [done|]. exfalso. apply (Hi q); [lia|done].
Qed.

Lemma scanning_boundary p : boundary p -> scanning p 0 p.
Proof using Type. intros Hp. destruct (Hp). split; try done; try lia; rewrite /is_state; lia. Qed.

Lemma scanning_step p s q c s' : scanning p s q -> q < len -> array_at bs q = Some c -> is_byte c ->
  utf8_next s c = Some s' -> exists p', scanning p' s' (q + 1).
Proof using Hbs.
  intros Hsc Hq Hc Hb Hn. destruct (Hsc) as [Hp Hpq Hs Ha Hi Ht Hl].
  assert (scan_to (q + 1) = Some s') as Ha'.
  { rewrite (scan_to_succ q c) //; [by rewrite Ha|]. destruct Hp. lia. }
  destruct (table_next s c s' Hs Hb Hn) as [_ Hs'].
  destruct (Z.eq_dec s' 0) as [->|H0].
  { exists (q + 1). apply scanning_boundary. split; [destruct Hp; lia|done]. }
  exists p. split; try done; [lia|..].
  - intros m Hm. destruct (Z.eq_dec m (q + 1)) as [->|]; [rewrite Ha'; congruence|apply Hi; lia].
  - intros i Hi'. destruct (Z.eq_dec i q) as [->|]; [|apply Ht; lia]. exists c. split; [done|].
    apply (next_tail s c s'); auto. intros ->. apply scanning_zero in Hsc. lia.
  - intros c0 _ Hc0. destruct (Z.eq_dec p q) as [->|]; [|apply Hl; [lia|done]].
    simplify_eq. destruct Hp as [_ Hp]. rewrite Ha in Hp. simplify_eq. by apply (next_lead c s').
Qed.

(** How the byte-at-a-time scan ends: at the end of the text or at an exit. *)
Definition stopped (s q e src : Z) : Prop :=
  (e < kExitIllegalStructure /\ q = len /\ src = len) \/
  ((e = kExitIllegalStructure \/ e = kExitReject) /\ q < len /\ src = q + 1 /\ scan_to (q + 1) = None).

Lemma scan_bytes_spec fuel p s q e : scanning p s q -> len - q < Z.of_nat fuel -> e < kExitIllegalStructure ->
  exists p' s' q' e' src', scan_bytes bs st fuel (256 * s) e q = Some (256 * s', e', src') /\
    scanning p' s' q' /\ stopped s' q' e' src'.
Proof using Hbs.
  revert p s q e. induction fuel as [|fuel IH]; intros p s q e Hsc Hf He.
  { destruct Hsc. lia. }
  cbn [scan_bytes]. pose proof (sc_pos _ _ _ Hsc). pose proof (sc_state _ _ _ Hsc) as Hs.
  destruct (sc_start _ _ _ Hsc) as [? _].
  case_match eqn:E; bool_cases.
  2: { exists p, s, q, e, q. split; [done|]. split; [done|]. left. split_and!; [done|lia..]. }
  destruct (src_at_some q) as (c & Hc & Hb); [lia|]. rewrite Hc. cbn [mbind option_bind state_table st].
  destruct (utf8_next s c) as [s'|] eqn:En.
  - destruct (table_next s c s' Hs Hb En) as [-> Hs']. cbn [mbind option_bind].
    rewrite /is_state in Hs'. rewrite (proj2 (Z.leb_gt kExitIllegalStructure s')); [|rewrite /kExitIllegalStructure; lia].
    destruct (scanning_step p s q c s') as [p' Hsc']; try done.
    cbn [state0 entry_shift st]. rewrite Z.shiftl_mul_pow2; [|lia].
    replace (0 + s' * 2 ^ 8) with (256 * s') by lia.
    apply (IH p'); [done|lia|rewrite /kExitIllegalStructure; lia].
  - destruct (table_exit s c Hs Hb En) as (e' & -> & He'). cbn [mbind option_bind].
    rewrite (proj2 (Z.leb_le kExitIllegalStructure e'));
      [|rewrite /kExitIllegalStructure /kExitReject in He' *; lia].
    exists p, s, q, e', (q + 1). split; [done|]. split; [done|]. right. split_and!; [done|lia..|].
    rewrite (scan_to_succ q c) //; [|lia]. rewrite (sc_at _ _ _ Hsc). exact En.
Qed.

Lemma tail_mask_entries :
  forallb (λ c, bool_decide ((Z.land c 0xc0 =? 0x80) = (128 <=? c) && (c <=? 191))) (seqZ 0 256) = true.
Proof using Type. vm_compute. reflexivity. Qed.

Lemma tail_mask c : is_byte c -> (Z.land c 0xc0 =? 0x80) = (128 <=? c) && (c <=? 191).
Proof using Type.
  intros Hc. exact (bool_decide_eq_true_1 _ (forallb_seqZ _ 256 c tail_mask_entries Hc)).
Qed.

(** Back to the start of the character. *)
Lemma back_up_spec p s q fuel i : scanning p s q -> p < i <= q -> i - p <= Z.of_nat fuel ->
  back_up bs fuel i = Some p.
Proof using Hbs.
  intros [[Hp _] Hq _ _ _ Ht Hl]. revert i. induction fuel as [|fuel IH]; intros i Hi Hf; [lia|].
  cbn [back_up]. case_match eqn:E; bool_cases; [|by f_equal; lia].
  destruct (src_at_some (i - 1)) as (c & Hc & Hb); [lia|]. rewrite Hc. cbn [mbind option_bind].
  rewrite tail_mask //. destruct (Z.eq_dec (i - 1) p) as [Ep|Hne].
  - rewrite Ep in Hc. pose proof (Hl c ltac:(lia) Hc) as Hnt. rewrite /is_tail in Hnt.
    case_match; bool_cases; [lia|by f_equal].
  - destruct (Ht (i - 1)) as (c' & Hc' & Htc); [lia|]. simplify_eq. rewrite /is_tail in Htc.
    rewrite !(proj2 (Z.leb_le _ _)) /=; [|lia..]. apply IH; lia.
Qed.

Lemma InStateZero_spec s : is_state s -> InStateZero st (256 * s) = (s =? 0).
Proof using Type.
  rewrite /is_state /InStateZero /=. intros Hs. rewrite wrap_id; [|lia].
  destruct (256 * s - 0 <? 256) eqn:E; bool_cases; symmetry; [apply Z.eqb_eq|apply Z.eqb_neq]; lia.
Qed.

Lemma stopped_longest p s q e src : scanning p s q -> stopped s q e src -> longest bs p.
Proof using Hbs.
  intros [[Hp H0] Hq _ _ Hi _ _] Hst. split; [done|]. split; [done|]. intros m Hm.
  destruct (Z_le_gt_dec m q); [apply Hi; lia|].
  destruct Hst as [(_ & -> & _)|(_ & Hlt & _ & Hn)]; [lia|].
  change (scan_to m <> Some 0). by rewrite (scan_to_none (q + 1) m); [|lia..|done].
Qed.

(** What the scanner returns. *)
Definition scanned (r : option (Z * Z)) : Prop :=
  exists e p, r = Some (e, p) /\ longest bs p /\ e <> kExitDoAgain /\ (e = kExitOK <-> p = len).

Lemma text_fuel_enough p : 0 <= p -> len - p < Z.of_nat (text_fuel bs).
Proof using Type. rewrite /text_fuel /zlen. lia. Qed.

(** The position and the code after the walk back. *)
Lemma exit_spec p s q e src : scanning p s q -> stopped s q e src ->
  exists e', ('(e, src) ← (if kExitIllegalStructure <=? e then
       let src := src - 1 in
       if negb (InStateZero st (256 * s)) then (src ← back_up bs (text_fuel bs) src; Some (e, src))
       else Some (e, src)
     else if negb (InStateZero st (256 * s)) then
       (src ← back_up bs (text_fuel bs) src; Some (kExitIllegalStructure, src))
     else Some (kExitOK, src)); Some (e, src)) = Some (e', p) /\
    e' <> kExitDoAgain /\ (e' = kExitOK <-> p = len).
Proof using Hbs.
  intros Hsc Hst. rewrite InStateZero_spec; [|exact (sc_state _ _ _ Hsc)].
  pose proof (sc_pos _ _ _ Hsc). destruct (sc_start _ _ _ Hsc) as [? _].
  unfold stopped, kExitIllegalStructure, kExitDoAgain, kExitOK, kExitReject in *.
  assert (s <> 0 -> p < q) as Hne.
  { intros Hs. destruct (Z.eq_dec p q) as [->|]; [|lia]. destruct (sc_start _ _ _ Hsc) as [_ H1].
    rewrite (sc_at _ _ _ Hsc) in H1. congruence. }
  assert (forall k, s <> 0 -> k = q -> back_up bs (text_fuel bs) k = Some p) as Hback.
  { intros k Hs ->. apply (back_up_spec p s q); [done|specialize (Hne Hs); lia|].
    pose proof (text_fuel_enough p). lia. }
  destruct Hst as [(He & -> & ->)|(He & Hlt & -> & _)].
  - rewrite (proj2 (Z.leb_gt _ _)) //. destruct (Z.eqb_spec s 0) as [->|Hs]; cbn [negb].
    + exists 241. cbn. rewrite -(scanning_zero _ _ Hsc). done.
    + rewrite Hback //. exists 240. cbn. split_and!; [done..|lia].
  - replace (q + 1 - 1) with q by lia. rewrite (proj2 (Z.leb_le _ _)); [|lia].
    exists e. destruct (Z.eqb_spec s 0) as [->|Hs]; cbn [negb].
    + rewrite (scanning_zero _ _ Hsc). split_and!; [done|lia..].
    + rewrite Hback //. split_and!; [done|lia..].
Qed.

Lemma scan_again_spec fuel p : boundary p -> len < 2 ^ 31 -> scanned (scan_again addr bs st (S fuel) p).
Proof using Hbs.
  intros Hp Hl. cbn [scan_again].
  destruct (skip_bytes_spec (aligned8 addr) (skips_fast st) (text_fuel bs) p fast_skips Hp) as (p1 & -> & Hp1);
    [apply text_fuel_enough; destruct Hp; lia|]. cbn [mbind option_bind].
  assert (exists p2, (if aligned8 addr p1 then skip_identity8 bs st (text_fuel bs) p1 else Some p1) = Some p2 /\
    boundary p2) as (p2 & -> & Hp2).
  { case_match; [|by eauto]. apply skip_identity8_spec; [done|]. apply text_fuel_enough. destruct Hp1. lia. }
  cbn [mbind option_bind].
  destruct (scan_bytes_spec (text_fuel bs) p2 0 p2 0) as (p3 & s & q & e & src & E & Hsc & Hst);
    [by apply scanning_boundary|apply text_fuel_enough; destruct Hp2; lia|done|].
  change (state0 st) with (256 * 0). rewrite E. cbn [mbind option_bind].
  pose proof (stopped_longest _ _ _ _ _ Hsc Hst) as Hlong.
  destruct (exit_spec _ _ _ _ _ Hsc Hst) as (e' & Ee & He' & Hok).
  destruct (if kExitIllegalStructure <=? e then _ else _) as [[e1 src1]|]; [|done]. cbn in Ee. simplify_eq.
  cbn [mbind option_bind]. rewrite (proj2 (Z.eqb_neq _ _)) //. exists e', p3. split; [|done].
  do 2 f_equal. apply swrap_id; [lia|]. destruct Hlong. lia.
Qed.

Lemma longest_empty : len = 0 -> longest bs 0.
Proof using Type. intros E. split; [lia|]. split; [done|]. lia. Qed.

Lemma UTF8GenericScan_spec : len < 2 ^ 31 -> scanned (UTF8GenericScan addr bs st).
Proof using Hbs.
  intros Hl. rewrite /UTF8GenericScan. case_match eqn:E; bool_cases.
  - exists kExitOK, 0. split_and!; [done|by apply longest_empty|done|done].
  - apply scan_again_spec; [|done]. split; [pose proof (zlen_nonneg bs); lia|done].
Qed.
End scanner.

Lemma UTF8GenericScanFastAscii_spec addr bs : Forall is_byte bs -> zlen bs < 2 ^ 31 ->
  exists e p, UTF8GenericScanFastAscii utf8acceptnonsurrogates_obj addr bs = Some (e, p) /\ longest bs p.
Proof.
  intros Hbs Hl. rewrite /UTF8GenericScanFastAscii. case_match eqn:E; bool_cases.
  { exists kExitOK, 0. split; [done|]. by apply longest_empty. }
  rewrite {1}/text_fuel. cbn [fast_ascii_again].
  assert (boundary bs 0) as H0 by (split; [pose proof (zlen_nonneg bs); lia|done]).
  destruct (skip_bytes_spec bs Hbs (aligned8 addr) skips_ascii (text_fuel bs) 0 ascii_skips H0) as (p1 & -> & Hp1);
    [by apply text_fuel_enough|]. cbn [mbind option_bind].
  assert (exists p2, (if aligned8 addr p1 then skip_ascii8 bs (text_fuel bs) p1 else Some p1) = Some p2 /\
    boundary bs p2) as (p2 & -> & Hp2).
  { case_match; [|by eauto]. apply skip_ascii8_spec; [done..|]. apply text_fuel_enough. destruct Hp1. lia. }
  cbn [mbind option_bind].
  destruct (skip_bytes_spec bs Hbs (λ _, false) skips_ascii (text_fuel bs) p2 ascii_skips Hp2) as (n & -> & Hn);
    [apply text_fuel_enough; destruct Hp2; lia|]. cbn [mbind option_bind].
  destruct (Hn) as [Hr Hz]. rewrite (swrap_id 32 n); [|lia..].
  destruct (UTF8GenericScan_spec (addr + n) (drop (Z.to_nat n) bs)) as (e & p & -> & Hlong & He & _).
  { by apply Forall_drop. }
  { rewrite /zlen length_drop. unfold zlen in *. lia. }
  cbn [mbind option_bind]. rewrite (proj2 (Z.eqb_neq _ _)) //.
  pose proof (longest_drop bs n p Hr Hz Hlong) as Hlong'. exists e, (n + p). split; [|done].
  do 2 f_equal. apply swrap_id; [lia|]. destruct Hlong'. lia.
Qed.

Lemma Spn_spec addr bs : Forall is_byte bs -> zlen bs < 2 ^ 31 ->
  exists n, UTF8SpnStructurallyValid true addr bs = Some n /\ longest bs n.
Proof.
  intros Hb Hl. destruct (UTF8GenericScanFastAscii_spec addr bs Hb Hl) as (e & n & E & Hn).
  exists n. by rewrite /UTF8SpnStructurallyValid E.
Qed.

Lemma longest_all bs n : longest bs n -> (n = zlen bs <-> is_utf8 bs).
Proof.
  rewrite -utf8_scan_iff. intros (Hn & H & Hmax). split.
  - intros ->. unfold zlen in H. by rewrite Nat2Z.id firstn_all in H.
  - intros Hu. destruct (Z.eq_dec n (zlen bs)) as [|Hne]; [done|]. exfalso. apply (Hmax (zlen bs)); [lia|].
    unfold zlen. by rewrite Nat2Z.id firstn_all.
Qed.

Lemma IsStructurallyValidUTF8_utf8 addr bs : Forall is_byte bs -> zlen bs < 2 ^ 31 ->
  exists b, IsStructurallyValidUTF8 true addr bs = Some b /\ (b = true <-> is_utf8 bs).
Proof.
  intros Hb Hl. destruct (UTF8GenericScanFastAscii_spec addr bs Hb Hl) as (e & n & E & Hn).
  exists (n =? zlen bs). rewrite /IsStructurallyValidUTF8 E. split; [done|].
  rewrite Z.eqb_eq. by apply longest_all.
Qed.

Lemma longest_utf8 bs n : longest bs n ->
  is_utf8 (take (Z.to_nat n) bs) /\ forall m, n < m <= zlen bs -> ~ is_utf8 (take (Z.to_nat m) bs).
Proof.
  intros (Hn & H & Hmax). split; [by apply utf8_scan_iff|]. intros m Hm Hu. apply (Hmax m Hm), utf8_scan_iff, Hu.
Qed.

(** *** Coercion *)

(** A text with some bytes replaced by [r]. *)
Definition replaced (r : Z) : list Z -> list Z -> Prop := Forall2 (λ c o, o = c \/ o = r).

Lemma replaced_refl r bs : replaced r bs bs.
Proof. induction bs; constructor; auto. Qed.

Lemma take_snoc_take (bs : list Z) i k c : bs !! i = Some c ->
  take (S i + k) bs = take i bs ++ c :: take k (drop (S i) bs).
Proof.
  intros Hc. rewrite -{1}(take_drop_middle bs i c Hc).
  assert (length (take i bs) = i) as Hl by (rewrite length_take; apply lookup_lt_Some in Hc; lia).
  rewrite take_app Hl take_ge; [|lia]. by replace (S i + k - i)%nat with (S k) by lia.
Qed.

Lemma coerce_loop_spec addr bs r fuel src dst : Forall is_byte bs -> zlen bs < 2 ^ 31 -> 0 <= r < 128 ->
  0 <= src <= zlen bs -> zlen bs - src < Z.of_nat fuel ->
  replaced r (take (Z.to_nat src) bs) dst -> is_utf8 dst ->
  exists out, coerce_loop true addr bs r fuel src dst = Some out /\ replaced r bs out /\ is_utf8 out.
Proof.
  intros Hb Hl Hr. revert src dst. induction fuel as [|fuel IH]; intros src dst Hs Hf Hd Hu; [lia|].
  cbn [coerce_loop]. unfold zlen in Hs, Hf, Hl. case_match eqn:E; bool_cases.
  2: { exists dst. split; [done|]. rewrite take_ge in Hd; [done|]. unfold zlen in *. lia. }
  unfold zlen in E. destruct (lookup_lt_is_Some_2 bs (Z.to_nat src)) as [c Hc]; [lia|].
  replace (Z.to_nat (src + 1)) with (S (Z.to_nat src)) by lia. set (str2 := drop (S (Z.to_nat src)) bs).
  assert (length str2 = length bs - S (Z.to_nat src))%nat as Hl2 by apply length_drop.
  destruct (Spn_spec (addr + (src + 1)) str2) as (n & -> & Hn); [by apply Forall_drop|unfold zlen; lia|].
  cbn [mbind option_bind]. pose proof (longest_utf8 _ _ Hn) as [Hun _]. destruct Hn as [Hn _]. unfold zlen in Hn.
  apply IH; [unfold zlen; lia|unfold zlen; lia|..].
  - replace (Z.to_nat (src + 1 + n)) with (S (Z.to_nat src) + Z.to_nat n)%nat by lia.
    rewrite (take_snoc_take _ _ _ c Hc) -app_assoc. apply Forall2_app; [done|].
    constructor; [by right|]. apply replaced_refl.
  - apply is_utf8_app; [apply is_utf8_app; [done|]|done]. apply is_utf8_ascii. by constructor.
Qed.

(** ** Properties *)

(** C32. Wherever the text lies in memory, the scanner never reads outside it and
    [UTF8SpnStructurallyValid] returns the length of its longest prefix that is
    UTF-8 (the encodings of Unicode scalar values: no overlong forms, no
    surrogates, nothing above U+10FFFF); [IsStructurallyValidUTF8] tells whether
    the whole of it is.  Until the file's static objects are constructed every
    text is accepted. *)
Theorem scanner_accepts_exactly_utf8 addr bs : Forall is_byte bs -> zlen bs < 2 ^ 31 ->
  (exists n, UTF8SpnStructurallyValid true addr bs = Some n /\ 0 <= n <= zlen bs /\
     is_utf8 (take (Z.to_nat n) bs) /\ forall m, n < m <= zlen bs -> ~ is_utf8 (take (Z.to_nat m) bs)) /\
  (exists b, IsStructurallyValidUTF8 true addr bs = Some b /\ (b = true <-> is_utf8 bs)) /\
  IsStructurallyValidUTF8 false addr bs = Some true.
Proof.
  intros Hb Hl. split; [|split; [by apply IsStructurallyValidUTF8_utf8|done]].
  destruct (Spn_spec addr bs Hb Hl) as (n & E & Hn). exists n. split; [done|]. split; [by destruct Hn|].
  by apply longest_utf8.
Qed.

(** "H", U+00E9, U+20AC, an encoded surrogate. *)
Definition utf8_sample : list Z := [72; 195; 169; 226; 130; 172; 237; 160; 128].

Lemma scanner_accepts_exactly_utf8_witness :
  UTF8SpnStructurallyValid true 3 utf8_sample = Some 6 /\ is_utf8 (take 6 utf8_sample) /\ ~ is_utf8 utf8_sample.
Proof.
  destruct (scanner_accepts_exactly_utf8 3 utf8_sample) as [(n & En & _ & Hn & Hmax) _].
  - repeat constructor; discriminate.
  - reflexivity.
  - assert (n = 6) as -> by (vm_compute in En; congruence).
    split; [exact En|]. split; [exact Hn|]. apply (Hmax 9). split; [reflexivity|discriminate].
Defined.

(** [UTF8CoerceToStructurallyValid] with an ASCII replacement gives UTF-8 of the
    same length, the text itself with bad bytes replaced, and the text itself
    when it is UTF-8. *)
Lemma coerce_gives_utf8 addr bs r : Forall is_byte bs -> zlen bs < 2 ^ 31 -> 0 <= r < 128 ->
  exists out, UTF8CoerceToStructurallyValid true addr bs r = Some out /\
    replaced r bs out /\ is_utf8 out /\ (is_utf8 bs -> out = bs).
Proof.
  intros Hb Hl Hr. rewrite /UTF8CoerceToStructurallyValid.
  destruct (Spn_spec addr bs Hb Hl) as (n & -> & Hn). cbn [mbind option_bind].
  pose proof (longest_all bs n Hn) as Hall. pose proof (longest_utf8 bs n Hn) as [Hu _].
  destruct Hn as [Hn _]. case_match eqn:E; bool_cases.
  - exists bs. split_and!; [done|apply replaced_refl|by apply Hall|done].
  - destruct (coerce_loop_spec addr bs r (text_fuel bs) n (take (Z.to_nat n) bs)) as (out & -> & H1 & H2);
      try done; [apply text_fuel_enough; lia|apply replaced_refl|].
    exists out. split_and!; [done..|]. intros Hbs. by apply Hall in Hbs.
Qed.
