(* ===== verification/Varint.v ===== *)
(** * Base-128 varints

    The integer encoding of the protobuf wire format, as
    [google/protobuf/io/coded_stream.h] writes it ([WriteVarint64ToArray],
    [VarintSize64]) and as the unrolled decoders of [coded_stream.cc] read it
    from an array ([ReadVarint32FromArray], [ReadVarint64FromArray]).

    [varint_decode] is the reference decoder; the unrolled ones are proved equal
    to it, never to read past a terminating byte, and to invert the encoder. *)

From Stdlib Require Import ZArith Lia.
From stdpp Require Import base tactics numbers list.
From S2P Require Import Prelude.

Definition kMaxVarintBytes : nat := 10.
Definition kMaxVarint32Bytes : nat := 5.

(** ** Encoding *)

(** The bytes [WriteVarint64ToArray] stores; a 64-bit value takes at most
    [kMaxVarintBytes] rounds. *)
Fixpoint varint_loop (fuel : nat) (value : Z) : list Z :=
  match fuel with
  | O => []
  | S fuel =>
      if 128 <=? value
      then wrap8 (Z.lor value 128) :: varint_loop fuel (Z.shiftr value 7)
      else [wrap8 value]
  end.

Definition WriteVarint64ToArray (value : Z) : list Z := varint_loop kMaxVarintBytes value.
Definition WriteVarint32ToArray (value : Z) : list Z := varint_loop kMaxVarint32Bytes value.

Definition VarintSize64 (value : Z) : Z := (Z.log2 (Z.lor value 1) * 9 + 73) / 64.
Definition VarintSize32 (value : Z) : Z := (Z.log2 (Z.lor value 1) * 9 + 73) / 64.

(** ** Decoding from an array

    [bs] is what the array holds from [buffer] on.  The outer [option] is
    [None] when the routine would read past the end of [bs]; the inner one
    is [None] for an overlong varint; the [nat] is the number of bytes read. *)
Definition more (b : Z) : bool := negb (Z.land b 128 =? 0).

Definition ReadVarint64FromArray (bs : list Z) : option (option Z * nat) :=
  let done part0 part1 part2 n :=
    Some (Some (Z.lor (Z.lor part0 (wrap64 (Z.shiftl part1 28)))
                      (wrap64 (Z.shiftl part2 56))), n) in
  b ← bs !! 0%nat; let part0 := b in
  if negb (more b) then done part0 0 0 1%nat else
  let part0 := wrap32 (part0 - 128) in
  b ← bs !! 1%nat; let part0 := wrap32 (part0 + Z.shiftl b 7) in
  if negb (more b) then done part0 0 0 2%nat else
  let part0 := wrap32 (part0 - Z.shiftl 128 7) in
  b ← bs !! 2%nat; let part0 := wrap32 (part0 + Z.shiftl b 14) in
  if negb (more b) then done part0 0 0 3%nat else
  let part0 := wrap32 (part0 - Z.shiftl 128 14) in
  b ← bs !! 3%nat; let part0 := wrap32 (part0 + Z.shiftl b 21) in
  if negb (more b) then done part0 0 0 4%nat else
  let part0 := wrap32 (part0 - Z.shiftl 128 21) in
  b ← bs !! 4%nat; let part1 := b in
  if negb (more b) then done part0 part1 0 5%nat else
  let part1 := wrap32 (part1 - 128) in
  b ← bs !! 5%nat; let part1 := wrap32 (part1 + Z.shiftl b 7) in
  if negb (more b) then done part0 part1 0 6%nat else
  let part1 := wrap32 (part1 - Z.shiftl 128 7) in
  b ← bs !! 6%nat; let part1 := wrap32 (part1 + Z.shiftl b 14) in
  if negb (more b) then done part0 part1 0 7%nat else
  let part1 := wrap32 (part1 - Z.shiftl 128 14) in
  b ← bs !! 7%nat; let part1 := wrap32 (part1 + Z.shiftl b 21) in
  if negb (more b) then done part0 part1 0 8%nat else
  let part1 := wrap32 (part1 - Z.shiftl 128 21) in
  b ← bs !! 8%nat; let part2 := b in
  if negb (more b) then done part0 part1 part2 9%nat else
  let part2 := wrap32 (part2 - 128) in
  b ← bs !! 9%nat; let part2 := wrap32 (part2 + Z.shiftl b 7) in
  if negb (more b) then done part0 part1 part2 10%nat else
  Some (None, 10%nat).

(** The loop that discards the high-order bytes of a 32-bit read. *)
Fixpoint discard_high (k : nat) (n : nat) (result : Z) (bs : list Z) : option (option Z * nat) :=
  match k with
  | O => Some (None, n)
  | S k =>
      b ← bs !! n;
      if negb (more b) then Some (Some result, S n) else discard_high k (S n) result bs
  end.

(** [first_byte] is [bs !! 0] and has its high bit set. *)
Definition ReadVarint32FromArray (first_byte : Z) (bs : list Z) : option (option Z * nat) :=
  let result := wrap32 (first_byte - 128) in
  b ← bs !! 1%nat; let result := wrap32 (result + Z.shiftl b 7) in
  if negb (more b) then Some (Some result, 2%nat) else
  let result := wrap32 (result - Z.shiftl 128 7) in
  b ← bs !! 2%nat; let result := wrap32 (result + Z.shiftl b 14) in
  if negb (more b) then Some (Some result, 3%nat) else
  let result := wrap32 (result - Z.shiftl 128 14) in
  b ← bs !! 3%nat; let result := wrap32 (result + Z.shiftl b 21) in
  if negb (more b) then Some (Some result, 4%nat) else
  let result := wrap32 (result - Z.shiftl 128 21) in
  b ← bs !! 4%nat; let result := wrap32 (result + wrap32 (Z.shiftl b 28)) in
  if negb (more b) then Some (Some result, 5%nat) else
  discard_high (kMaxVarintBytes - kMaxVarint32Bytes) 5 result bs.

(** ** The reference decoder *)
Inductive varint :=
  | VDone (v : Z) (n : nat)
  | VTruncated
  | VOverlong.

(** At most [k] bytes, least significant group first. *)
Fixpoint varint_decode (k : nat) (bs : list Z) : varint :=
  match k with
  | O => VOverlong
  | S k =>
      match bs with
      | [] => VTruncated
      | b :: bs =>
          if b <? 128 then VDone b 1
          else match varint_decode k bs with
               | VDone v n => VDone (b - 128 + 128 * v) (S n)
               | r => r
               end
      end
  end.

#[global] Arguments varint_decode !k !bs.

Definition array_result (w : Z) (r : varint) : option (option Z * nat) :=
  match r with
  | VDone v n => Some (Some (wrap w v), n)
  | VTruncated => None
  | VOverlong => Some (None, kMaxVarintBytes)
  end.

Lemma more_byte b : is_byte b -> more b = negb (b <? 128).
Proof.
  intros [H1 H2]. unfold more. f_equal.
  assert (Z.land b 128 = if b <? 128 then 0 else 128) as ->.
  { change 128 with (2 ^ 7) at 1. rewrite Z.land_comm. apply Z.bits_inj'. intros n Hn.
    rewrite Z.land_spec, Z.pow2_bits_eqb by lia.
    destruct (Z.eqb_spec 7 n) as [<-|Hne]; cbn [andb].
    - rewrite Z.testbit_odd, Z.shiftr_div_pow2 by lia. change (2 ^ 7) with 128.
      destruct (Z.ltb_spec b 128).
      + by rewrite Z.div_small by lia.
      + replace (b / 128) with 1; [done|].
        apply Z.div_unique with (r := b - 128); lia.
    - destruct (b <? 128); [by rewrite Z.bits_0|].
      change 128 with (2 ^ 7). rewrite Z.pow2_bits_eqb by lia. by apply Z.eqb_neq in Hne as ->. }
  destruct (b <? 128); done.
Qed.

Lemma lor_shiftl a b k : 0 <= k -> 0 <= a < 2 ^ k -> Z.lor a (Z.shiftl b k) = a + b * 2 ^ k.
Proof.
  intros Hk Ha. rewrite Z.shiftl_mul_pow2 by lia.
  rewrite <- Z.lxor_lor, <- Z.add_nocarry_lxor; [done| |].
  all: apply Z.bits_inj'; intros n Hn; rewrite Z.land_spec, Z.bits_0.
  all: destruct (Z.lt_ge_cases n k) as [Hlt|Hge];
    [rewrite Z.mul_pow2_bits_low by lia; by rewrite andb_false_r|].
  all: rewrite (Z.testbit_odd a), Z.shiftr_div_pow2, Z.div_small by
    (first [lia | split; [lia|]; eapply Z.lt_le_trans; [apply Ha|]; apply Z.pow_le_mono_r; lia]); done.
Qed.

(** Joining the three parts of the 64-bit decoder. *)
Lemma join_parts p0 p1 p2 : 0 <= p0 < 2 ^ 28 -> 0 <= p1 < 2 ^ 28 -> 0 <= p2 < 2 ^ 32 ->
  Z.lor (Z.lor p0 (wrap64 (Z.shiftl p1 28))) (wrap64 (Z.shiftl p2 56))
  = wrap64 (p0 + 2 ^ 28 * p1 + 2 ^ 56 * p2).
Proof.
  intros. rewrite (wrap_id 64 (Z.shiftl p1 28)) by (rewrite Z.shiftl_mul_pow2; lia).
  rewrite lor_shiftl by lia.
  assert (wrap64 (Z.shiftl p2 56) = Z.shiftl (p2 mod 256) 56) as ->.
  { rewrite !Z.shiftl_mul_pow2 by lia. unfold wrap. change (2 ^ 64) with (256 * 2 ^ 56).
    by rewrite Zmult_mod_distr_r. }
  rewrite lor_shiftl by lia. unfold wrap. pose proof (Z.mod_pos_bound p2 256 ltac:(lia)).
  apply Z.mod_unique with (q := p2 / 256); [left; lia|].
  pose proof (Z.div_mod p2 256 ltac:(lia)). lia.
Qed.

Ltac unwrap32 :=
  repeat match goal with
  | |- context [wrap 32 ?z] => rewrite (wrap_id 32 z) by lia
  end.

(** One step of an unrolled decoder: the next byte is missing, ends the
    varint, or is followed by more. *)
Ltac decode_step H :=
  match type of H with
  | Forall is_byte ?bs =>
      destruct bs as [|? ?]; [done|];
      let Hb := fresh "Hb" in
      pose proof (Forall_inv H) as Hb; apply Forall_inv_tail in H;
      cbn [lookup list_lookup mbind option_bind varint_decode];
      rewrite more_byte by exact Hb; unfold is_byte in Hb; rewrite negb_involutive;
      match goal with |- context [?b <? 128] => destruct (Z.ltb_spec b 128) end
  end.

(** The arithmetic of a decoder that has seen the last byte. *)
Ltac solve_done :=
  cbn [array_result]; do 2 f_equal;
  rewrite ?(Z.shiftl_mul_pow2 _ 7), ?(Z.shiftl_mul_pow2 _ 14), ?(Z.shiftl_mul_pow2 _ 21) by lia;
  unwrap32; try (rewrite join_parts by lia); f_equal; f_equal; lia.

Lemma ReadVarint64FromArray_correct bs : Forall is_byte bs ->
  ReadVarint64FromArray bs = array_result 64 (varint_decode kMaxVarintBytes bs).
Proof.
  intros H. unfold ReadVarint64FromArray. change kMaxVarintBytes with 10%nat.
  repeat (decode_step H; [solve_done|]).
  done.
Qed.

Lemma discard_high_correct k n r bs : Forall is_byte bs ->
  discard_high k n r bs =
  match varint_decode k (drop n bs) with
  | VDone _ m => Some (Some r, (n + m)%nat)
  | VTruncated => None
  | VOverlong => Some (None, (n + k)%nat)
  end.
Proof.
  intros H. revert n. induction k as [|k IH]; intros n; cbn [discard_high varint_decode].
  - do 2 f_equal. lia.
  - destruct (bs !! n) as [b|] eqn:E; cbn [mbind option_bind].
    + rewrite (drop_S _ _ _ E). cbn [varint_decode]. assert (is_byte b) as Hb by (eapply Forall_lookup_1; eauto).
      rewrite more_byte, negb_involutive by done. destruct (b <? 128); [do 2 f_equal; lia|].
      rewrite IH. destruct (varint_decode k (drop (S n) bs)); [|done|]; do 2 f_equal; lia.
    + apply lookup_ge_None in E. by rewrite drop_ge.
Qed.

Lemma wrap_congr w a b k : 0 <= w -> a = b + 2 ^ w * k -> wrap w a = wrap w b.
Proof. intros Hw ->. unfold wrap. rewrite Z.mul_comm. apply Z_mod_plus_full. Qed.

Lemma ReadVarint32FromArray_correct b bs : Forall is_byte (b :: bs) -> 128 <= b ->
  ReadVarint32FromArray b (b :: bs) = array_result 32 (varint_decode kMaxVarintBytes (b :: bs)).
Proof.
  intros H Hb0. unfold ReadVarint32FromArray. change kMaxVarintBytes with 10%nat.
  change kMaxVarint32Bytes with 5%nat. pose proof (Forall_inv H) as Hb. unfold is_byte in Hb.
  apply Forall_inv_tail in H. cbn [varint_decode lookup list_lookup].
  rewrite (proj2 (Z.ltb_ge b 128)) by lia.
  do 3 (decode_step H; [cbn [array_result]; do 2 f_equal;
    rewrite ?(Z.shiftl_mul_pow2 _ 7), ?(Z.shiftl_mul_pow2 _ 14), ?(Z.shiftl_mul_pow2 _ 21) by lia;
    unwrap32; f_equal; lia|]).
  rewrite ?(Z.shiftl_mul_pow2 _ 7), ?(Z.shiftl_mul_pow2 _ 14), ?(Z.shiftl_mul_pow2 _ 21) by lia.
  pose proof H as Hall. decode_step H.
  - cbn [array_result]. do 3 f_equal. rewrite Z.shiftl_mul_pow2 by lia.
    rewrite (Z.add_comm (wrap32 _)), wrap_add_l. unwrap32. f_equal. lia.
  - rewrite discard_high_correct by (repeat constructor; try (unfold is_byte; lia); done).
    cbn [skipn Nat.sub]. rewrite drop_0.
    match goal with |- context [varint_decode 5 ?l] => destruct (varint_decode 5 l) as [v n| |] end;
      [|done|done].
    cbn [array_result]. do 3 f_equal. rewrite Z.shiftl_mul_pow2 by lia.
    rewrite (Z.add_comm (wrap32 _)), wrap_add_l. unwrap32. symmetry.
    eapply (wrap_congr 32 _ _ (8 * (v - 1))); lia.
Qed.

(** ** The encoder *)

(** A fact about bytes, checked on all of them. *)
Lemma byte_forall (P : Z -> bool) :
  forallb P (Z.of_nat <$> seq 0 256) = true -> forall b, is_byte b -> P b = true.
Proof.
  intros H b [H1 H2]. rewrite forallb_forall in H. apply H.
  rewrite <- (Z2Nat.id b) by done. apply list_elem_of_In, list_elem_of_fmap_2, elem_of_seq. lia.
Qed.

Lemma lor_128 v : wrap8 (Z.lor v 128) = v mod 128 + 128.
Proof.
  assert (wrap8 (Z.lor v 128) = Z.lor (v mod 256) 128) as ->.
  { unfold wrap. change 256 with (2 ^ 8). rewrite <- !Z.land_ones by lia.
    by rewrite Z.land_lor_distr_l. }
  assert (v mod 128 = (v mod 256) mod 128) as ->.
  { symmetry. apply Z.mod_mod_divide. by exists 2. }
  apply Z.eqb_eq. apply (byte_forall (λ b, Z.lor b 128 =? b mod 128 + 128)); [done|].
  apply Z.mod_pos_bound. lia.
Qed.

Lemma varint_loop_bytes fuel v : Forall is_byte (varint_loop fuel v).
Proof.
  revert v. induction fuel as [|fuel IH]; intros v; cbn; [constructor|].
  destruct (128 <=? v); repeat constructor; try done; apply (wrap_bound 8); lia.
Qed.

(** Decoding what was encoded, with anything behind it. *)
Lemma varint_decode_encode fuel v rest : 0 <= v < 128 ^ Z.of_nat fuel -> (0 < fuel)%nat ->
  varint_decode fuel (varint_loop fuel v ++ rest) = VDone v (length (varint_loop fuel v)).
Proof.
  revert v. induction fuel as [|fuel IH]; intros v Hv Hf; [lia|]. cbn [varint_loop varint_decode].
  rewrite Nat2Z.inj_succ, Z.pow_succ_r in Hv by lia. destruct (Z.leb_spec 128 v).
  - cbn [app length varint_decode]. pose proof (Z.mod_pos_bound v 128 ltac:(lia)).
    rewrite lor_128, (proj2 (Z.ltb_ge _ _)) by lia. rewrite Z.shiftr_div_pow2 by lia.
    change (2 ^ 7) with 128. rewrite IH.
    + f_equal. pose proof (Z.div_mod v 128 ltac:(lia)). lia.
    + split; [apply Z.div_pos; lia|]. apply Z.div_lt_upper_bound; lia.
    + destruct fuel; [cbn in Hv; lia|lia].
  - cbn [app length varint_decode]. rewrite (wrap_id 8) by lia. by rewrite (proj2 (Z.ltb_lt _ _)) by lia.
Qed.

Lemma decode_WriteVarint64 v rest : 0 <= v < 2 ^ 64 ->
  varint_decode kMaxVarintBytes (WriteVarint64ToArray v ++ rest)
  = VDone v (length (WriteVarint64ToArray v)).
Proof. intros. apply varint_decode_encode; [|unfold kMaxVarintBytes; lia].
  change (128 ^ Z.of_nat kMaxVarintBytes) with (2 ^ 70). lia. Qed.

(** More rounds than needed change nothing. *)
Lemma varint_loop_fuel k fuel v : 0 <= v < 128 ^ Z.of_nat k -> (k <= fuel)%nat -> (0 < k)%nat ->
  varint_loop fuel v = varint_loop k v.
Proof.
  revert fuel v. induction k as [|k IH]; intros fuel v Hv Hk Hpos; [lia|].
  destruct fuel as [|fuel]; [lia|]. cbn [varint_loop]. destruct (Z.leb_spec 128 v); [|done].
  rewrite Nat2Z.inj_succ, Z.pow_succ_r in Hv by lia. f_equal. apply IH; [|lia|].
  - rewrite Z.shiftr_div_pow2 by lia. change (2 ^ 7) with 128.
    split; [apply Z.div_pos; lia|]. apply Z.div_lt_upper_bound; lia.
  - destruct k; [cbn in Hv; lia|lia].
Qed.

Lemma WriteVarint32_64 v : 0 <= v < 2 ^ 32 -> WriteVarint32ToArray v = WriteVarint64ToArray v.
Proof.
  intros. unfold WriteVarint32ToArray, WriteVarint64ToArray. symmetry.
  apply varint_loop_fuel; unfold kMaxVarint32Bytes, kMaxVarintBytes; [|lia..].
  change (128 ^ Z.of_nat 5) with (2 ^ 35). lia.
Qed.

(** The number of bytes, by the position of the highest bit. *)
Lemma length_varint_loop fuel v : 0 <= v < 128 ^ Z.of_nat fuel -> (0 < fuel)%nat ->
  zlen (varint_loop fuel v) = Z.log2 v / 7 + 1.
Proof.
  revert v. induction fuel as [|fuel IH]; intros v Hv Hf; [lia|]. cbn [varint_loop].
  rewrite Nat2Z.inj_succ, Z.pow_succ_r in Hv by lia. destruct (Z.leb_spec 128 v).
  - rewrite zlen_cons, IH.
    + rewrite Z.log2_shiftr by lia. assert (7 <= Z.log2 v) by (apply Z.log2_le_pow2; lia).
      rewrite Z.max_r by lia. replace (Z.log2 v) with (Z.log2 v - 7 + 1 * 7) at 2 by lia.
      rewrite Z.div_add by lia. lia.
    + rewrite Z.shiftr_div_pow2 by lia. change (2 ^ 7) with 128.
      split; [apply Z.div_pos; lia|]. apply Z.div_lt_upper_bound; lia.
    + destruct fuel; [cbn in Hv; lia|lia].
  - rewrite zlen_cons, zlen_nil. destruct (Z.eq_dec v 0) as [->|]; [done|].
    assert (Z.log2 v < 7) by (apply Z.log2_lt_pow2; lia). pose proof (Z.log2_nonneg v).
    rewrite Z.div_small by lia. done.
Qed.

Lemma log2_lor_1 v : 0 <= v -> Z.log2 (Z.lor v 1) = Z.log2 v.
Proof.
  intros. rewrite Z.log2_lor by lia. change (Z.log2 1) with 0. rewrite Z.max_l; [done|].
  apply Z.log2_nonneg.
Qed.

(** [(log2value * 9 + 73) / 64] is [log2value / 7 + 1] for 64-bit values. *)
Lemma varint_size_formula l : 0 <= l < 64 -> (l * 9 + 73) / 64 = l / 7 + 1.
Proof.
  intros Hl.
  assert ((64 <=? l) || ((l * 9 + 73) / 64 =? l / 7 + 1) = true) as E.
  { apply (byte_forall (λ l, (64 <=? l) || ((l * 9 + 73) / 64 =? l / 7 + 1))); [done|].
    unfold is_byte. lia. }
  rewrite (proj2 (Z.leb_gt _ _)) in E by lia. by apply Z.eqb_eq.
Qed.

Lemma VarintSize64_length v : 0 <= v < 2 ^ 64 -> VarintSize64 v = zlen (WriteVarint64ToArray v).
Proof.
  intros. unfold VarintSize64, WriteVarint64ToArray. rewrite log2_lor_1 by lia.
  rewrite length_varint_loop by (unfold kMaxVarintBytes; first [lia |
    change (128 ^ Z.of_nat 10) with (2 ^ 70); lia]).
  apply varint_size_formula. split; [apply Z.log2_nonneg|].
  destruct (Z.eq_dec v 0) as [->|]; [done|]. apply Z.log2_lt_pow2; lia.
Qed.

Lemma VarintSize32_length v : 0 <= v < 2 ^ 32 -> VarintSize32 v = zlen (WriteVarint32ToArray v).
Proof. intros. rewrite WriteVarint32_64 by done. apply VarintSize64_length. lia. Qed.

(** The guard of the fast paths: enough bytes, or a last byte that ends a
    varint; then the array decoders stay inside the array. *)
Definition array_safe (bs : list Z) : bool :=
  (Z.of_nat kMaxVarintBytes <=? zlen bs) ||
  match last bs with Some b => b <? 128 | None => false end.

Lemma array_safe_decode k bs : bs <> [] ->
  Z.of_nat k <= zlen bs \/ (exists b, last bs = Some b /\ b < 128) ->
  varint_decode k bs <> VTruncated.
Proof.
  revert bs. induction k as [|k IH]; intros bs Hne Hg; [done|].
  destruct bs as [|b bs]; [done|]. cbn [varint_decode]. destruct (Z.ltb_spec b 128); [done|].
  destruct bs as [|b' bs].
  - destruct Hg as [Hz|(x & Hx & ?)]; [|cbn in Hx; simplify_eq; lia].
    rewrite zlen_cons, zlen_nil in Hz. assert (k = 0%nat) as -> by lia. done.
  - specialize (IH (b' :: bs)). destruct (varint_decode k (b' :: bs)); [done| |done].
    exfalso. apply IH; [done| |done]. destruct Hg as [Hz|Hx]; [left|right; exact Hx].
    rewrite zlen_cons in Hz. lia.
Qed.

(** ** Claims *)

(** C33. The two unrolled array decoders of [coded_stream.cc] compute what the
    loop over seven-bit groups defines: the 64-bit one the value modulo 2^64,
    the 32-bit one (called with a first byte that has its top bit set) the value
    modulo 2^32; both consume the same bytes and refuse eleven-byte varints.
    When the guard of their callers holds, neither reads past the array. *)
Theorem array_decoders_agree bs b : Forall is_byte (b :: bs) ->
  ReadVarint64FromArray (b :: bs) = array_result 64 (varint_decode kMaxVarintBytes (b :: bs)) /\
  (128 <= b -> ReadVarint32FromArray b (b :: bs) =
               array_result 32 (varint_decode kMaxVarintBytes (b :: bs))) /\
  (array_safe (b :: bs) = true -> ReadVarint64FromArray (b :: bs) <> None).
Proof.
  intros H. split_and!; [by apply ReadVarint64FromArray_correct|by apply ReadVarint32FromArray_correct|].
  intros Hs. rewrite ReadVarint64FromArray_correct by done.
  destruct (varint_decode _ _) eqn:E; try done. exfalso. revert E. apply array_safe_decode; [done|].
  unfold array_safe in Hs. apply orb_true_iff in Hs as [Hs|Hs]; [left; by apply Z.leb_le|right].
  destruct (last (b :: bs)) as [x|]; [|done]. exists x. split; [done|by apply Z.ltb_lt].
Qed.

Lemma array_decoders_agree_witness :
  Forall is_byte [172; 2; 7] /\ array_safe [172; 2; 7] = true /\
  ReadVarint64FromArray [172; 2; 7] = Some (Some 300, 2%nat) /\
  ReadVarint32FromArray 172 [172; 2; 7] = array_result 32 (varint_decode kMaxVarintBytes [172; 2; 7]).
Proof.
  assert (Forall is_byte [172; 2; 7]) as H by (repeat constructor; discriminate).
  split; [exact H|]. split; [reflexivity|]. split; [reflexivity|].
  apply (array_decoders_agree [2; 7] 172 H). lia.
Defined.

(** C34. Encoding round trip: whatever follows, the decoder takes exactly the
    bytes [WriteVarint64ToArray] stored and returns the value; their number is
    what [VarintSize64] announces and at most [kMaxVarintBytes].  The 32-bit
    writer stores the same bytes. *)
Theorem varint_roundtrip v rest : 0 <= v < 2 ^ 64 -> Forall is_byte rest ->
  ReadVarint64FromArray (WriteVarint64ToArray v ++ rest) =
    Some (Some v, length (WriteVarint64ToArray v)) /\
  zlen (WriteVarint64ToArray v) = VarintSize64 v /\ VarintSize64 v <= Z.of_nat kMaxVarintBytes /\
  (v < 2 ^ 32 -> WriteVarint32ToArray v = WriteVarint64ToArray v).
Proof.
  intros Hv Hr. split_and!.
  - rewrite ReadVarint64FromArray_correct.
    + rewrite decode_WriteVarint64 by done. cbn. by rewrite wrap_id.
    + apply Forall_app. split; [apply varint_loop_bytes|done].
  - by rewrite VarintSize64_length.
  - unfold VarintSize64. rewrite log2_lor_1 by lia.
    assert (Z.log2 v < 64).
    { destruct (decide (v = 0)) as [->|]; [done|]. apply Z.log2_lt_pow2; lia. }
    apply Z.div_le_upper_bound; [lia|]. unfold kMaxVarintBytes. lia.
  - intros. apply WriteVarint32_64. lia.
Qed.

Lemma varint_roundtrip_witness :
  WriteVarint64ToArray 300 = [172; 2] /\
  ReadVarint64FromArray (WriteVarint64ToArray 300 ++ [9]) = Some (Some 300, length (WriteVarint64ToArray 300)).
Proof.
  split; [reflexivity|]. apply (varint_roundtrip 300 [9]); [lia|]. repeat constructor; discriminate.
Defined.
