(* ===== verification/CodedOutput.v ===== *)
(** * [CodedOutputStream]

    The writer of the vendored protobuf library
    ([google/protobuf/io/coded_stream.h] and [.cc]) over a
    [BufferOutputStream]: it keeps the window the stream lent it, writes raw
    bytes and varints into it, asks for the next one when it is full, and gives
    the rest back at the end.

    [co_open c n r bs used] says that what has been written through [c] so far
    makes the contents of the buffer [bs].  Every write appends its bytes,
    whichever of the fast and slow paths runs. *)

From stdpp Require Import base tactics list numbers gmap.
From iris.proofmode Require Import proofmode.
From Stdlib Require Import ZArith Lia.
From S2P Require Import Prelude Machine HeapLogic Piece Buffer BufferSpec Streams Varint.

(** ** State

    [co_buffer] is the pair [(buffer_, buffer_size_)], [None] for
    [(NULL, 0)]. *)
Record CodedOutputStream := mkCO {
  co_output : BufferOutputStream;
  co_buffer : option window;
  total_bytes_ : Z;
  had_error_ : bool;
  aliasing_enabled_ : bool
}.

Definition buffer_size_ (c : CodedOutputStream) : Z :=
  match co_buffer c with Some w => w_size w | None => 0 end.

(** [Advance(amount)] *)
Definition co_Advance (c : CodedOutputStream) (amount : Z) : CodedOutputStream :=
  mkCO (co_output c) ((λ w, w_advance w amount) <$> co_buffer c)
       (total_bytes_ c) (had_error_ c) (aliasing_enabled_ c).

(** Storing bytes at [buffer_]; nothing is touched for no bytes. *)
Definition co_store (c : CodedOutputStream) (bs : list Z) : M unit :=
  match co_buffer c with
  | Some w => poke w bs
  | None => if zlen bs =? 0 then mret tt else throw NullDeref
  end.

(** [Refresh()]: [BufferOutputStream::Next] always succeeds. *)
Definition co_Refresh (c : CodedOutputStream) : M CodedOutputStream :=
  '(w, s) ← out_Next (co_output c);
  mret (mkCO s (Some w) (total_bytes_ c + w_size w) (had_error_ c) (aliasing_enabled_ c)).

(** The constructor refreshes eagerly. *)
Definition CodedOutputStream_new (output : BufferOutputStream) : M CodedOutputStream :=
  c ← co_Refresh (mkCO output None 0 false false);
  mret (mkCO (co_output c) (co_buffer c) (total_bytes_ c) false (aliasing_enabled_ c)).

Definition co_Trim (c : CodedOutputStream) : M CodedOutputStream :=
  if 0 <? buffer_size_ c then
    s ← out_BackUp (co_output c) (buffer_size_ c);
    mret (mkCO s None (total_bytes_ c - buffer_size_ c) (had_error_ c) (aliasing_enabled_ c))
  else mret c.

(** [WriteRaw]; every round but the first consumes a byte. *)
Fixpoint write_raw_loop (fuel : nat) (c : CodedOutputStream) (data : list Z) : M CodedOutputStream :=
  match fuel with
  | O => throw OutOfFuel
  | S fuel =>
      if buffer_size_ c <? zlen data then
        let k := Z.to_nat (buffer_size_ c) in
        co_store c (take k data);;
        c ← co_Refresh c;
        write_raw_loop fuel c (drop k data)
      else
        co_store c data;;
        mret (co_Advance c (zlen data))
  end.

Definition WriteRaw (c : CodedOutputStream) (data : list Z) : M CodedOutputStream :=
  write_raw_loop (S (S (length data))) c data.

(** Aliasing is for streams that allow it; the default
    [ZeroCopyOutputStream::WriteAliasedRaw] is a fatal error. *)
Definition WriteAliasedRaw (c : CodedOutputStream) (data : list Z) : M CodedOutputStream :=
  if zlen data <? buffer_size_ c then WriteRaw c data
  else co_Trim c;; throw Fatal.

Definition WriteRawMaybeAliased (c : CodedOutputStream) (data : list Z) : M CodedOutputStream :=
  if aliasing_enabled_ c then WriteAliasedRaw c data else WriteRaw c data.

Definition WriteString (c : CodedOutputStream) (str : list Z) : M CodedOutputStream :=
  WriteRaw c str.

Definition WriteVarint32SlowPath (c : CodedOutputStream) (value : Z) : M CodedOutputStream :=
  WriteRaw c (WriteVarint32ToArray value).
Definition WriteVarint64SlowPath (c : CodedOutputStream) (value : Z) : M CodedOutputStream :=
  WriteRaw c (WriteVarint64ToArray value).

Definition WriteVarint32 (c : CodedOutputStream) (value : Z) : M CodedOutputStream :=
  if 5 <=? buffer_size_ c then
    let bytes := WriteVarint32ToArray value in
    co_store c bytes;;
    mret (co_Advance c (zlen bytes))
  else WriteVarint32SlowPath c value.

Definition WriteVarint64 (c : CodedOutputStream) (value : Z) : M CodedOutputStream :=
  if 10 <=? buffer_size_ c then
    let bytes := WriteVarint64ToArray value in
    co_store c bytes;;
    mret (co_Advance c (zlen bytes))
  else WriteVarint64SlowPath c value.

Definition co_WriteTag (c : CodedOutputStream) (value : Z) : M CodedOutputStream :=
  WriteVarint32 c value.

(** The pointer at which [size] bytes may be stored directly. *)
Definition GetDirectBufferForNBytesAndAdvance (c : CodedOutputStream) (size : Z) :
    option window * CodedOutputStream :=
  if buffer_size_ c <? size then (None, c) else (co_buffer c, co_Advance c size).

Definition co_ByteCount (c : CodedOutputStream) : Z := total_bytes_ c - buffer_size_ c.

(** ** What has been written so far *)
Definition co_open (c : CodedOutputStream) (n r : Z) (bs : list Z) (used : Z) : hProp :=
  (∃ w, ⟪co_buffer c = Some w⟫ ∗ open_window (out_buffer (co_output c)) n r bs used w)%I.

(** A window with nothing left is no window. *)
Lemma open_window_full b n r bs used w : w_size w = 0 ->
  open_window b n r bs used w ⊢ bufh b n r bs.
Proof.
  iIntros (Hz) "(%ls & %p & %junk & Hb & %Hn & %Hr & %Hc & %Hj & _)".
  rewrite Hz in Hj. apply zlen_0 in Hj as ->. rewrite app_nil_r in Hc.
  iExists _. iFrame "Hb". by iPureIntro.
Qed.

Lemma open_window_facts b n r bs used w :
  open_window b n r bs used w ⊢
  ⟪0 <= used /\ 0 <= w_size w /\ zlen bs + w_size w < 2 ^ 64 /\ 0 < n⟫ ∗
  open_window b n r bs used w.
Proof.
  iIntros "(%ls & %p & %junk & (Hq & %Hwf & %Hlen & %H64) & %Hn & %Hr & %Hc & %Hj & %Hrest)".
  iSplitR.
  - iPureIntro. pose proof H64 as Hz. rewrite Hc zlen_app in Hz. pose proof (zlen_nonneg junk).
    rewrite zlen_app zlen_cons zlen_nil in Hn. pose proof (zlen_nonneg ls).
    split_and!; lia.
  - iExists ls, p, junk. iFrame. by iPureIntro.
Qed.

Lemma co_open_facts c n r bs used :
  co_open c n r bs used ⊢ ⟪0 <= used /\ 0 <= buffer_size_ c⟫ ∗ co_open c n r bs used.
Proof.
  iIntros "(%w & %Hw & Hwin)".
  iDestruct (open_window_facts with "Hwin") as "[(%Hu & %Hs & _) Hwin]".
  iSplitR; [iPureIntro; by rewrite /buffer_size_ Hw|]. iExists w. by iFrame.
Qed.

(** Writing [k] bytes advances the byte count and changes no flag. *)
Definition co_meta (c c' : CodedOutputStream) (k : Z) : Prop :=
  aliasing_enabled_ c' = aliasing_enabled_ c /\ had_error_ c' = had_error_ c /\
  co_ByteCount c' = co_ByteCount c + k.

Lemma co_meta_trans c1 c2 c3 j k : co_meta c1 c2 j -> co_meta c2 c3 k -> co_meta c1 c3 (j + k).
Proof.
  intros (E1 & E2 & E3) (F1 & F2 & F3). split_and!; [by rewrite F1|by rewrite F2|lia].
Qed.

Section writing.
Context `{HPeak : Peak} (o : Z) (Ho : 0 <= o).

(** Storing bytes that fit. *)
Lemma co_store_spec c n r bs used d :
  {{ co_open c n r bs used ∗ ⟪Forall is_byte d /\ zlen d <= buffer_size_ c⟫ }} co_store c d
  {{ u, co_open (co_Advance c (zlen d)) n r (bs ++ d) (used + zlen d) }}.
Proof using Type.
  iIntros (Φ) "((%w & %Hw & Hwin) & %Hd & %Hz) HΦ". rewrite /co_store /buffer_size_ Hw in Hz |- *.
  iApply (poke_spec with "[$Hwin //]"). iIntros (u) "Hwin". iApply "HΦ".
  iExists (w_advance w (zlen d)). rewrite /co_Advance Hw /=. by iFrame.
Qed.

Lemma co_Refresh_spec c n r bs :
  {{ bufh (out_buffer (co_output c)) n r bs ∗ pool (o + n) ∗
     ⟪zlen bs + kPieceCapacity < 2 ^ 64 /\ o + n < kMaxUsing⟫ }}
    co_Refresh c
  {{ c', ∃ n' used, co_open c' n' r bs used ∗ pool (o + n') ∗
           ⟪0 < buffer_size_ c' /\ n' <= n + 1 /\ co_meta c c' (buffer_size_ c)⟫ }}.
Proof using Type.
  iIntros (Φ) "(Hb & Hpool & %Hz & %Hm) HΦ". rewrite /co_Refresh /out_Next. wp_bind. wp_bind.
  iApply (out_flatNext_spec with "[$Hb $Hpool //]").
  iIntros ([w b']) "(%n' & %used & Hwin & Hpool & %Hs & %Hn)". wp_ret. wp_ret. iApply "HΦ".
  iExists n', used. iFrame "Hpool". iSplitL; [iExists w; by iFrame|].
  iPureIntro. split_and!; [done|done|]. split_and!; [done|done|].
  rewrite /co_ByteCount {1}/buffer_size_ /=. lia.
Qed.

Definition bonus (c : CodedOutputStream) (d : list Z) : Z :=
  if (0 <? buffer_size_ c) && (0 <? zlen d) then 1 else 0.

Lemma co_meta_Advance c n w : co_buffer c = Some w -> co_meta c (co_Advance c n) n.
Proof using Type.
  intros Hw. split_and!; try done. rewrite /co_ByteCount /buffer_size_ /co_Advance /= Hw /=. lia.
Qed.

Lemma write_raw_loop_spec fuel c n r bs used d :
  (length d + (if (buffer_size_ c =? 0)%Z then 1 else 0) < fuel)%nat -> Forall is_byte d ->
  {{ co_open c n r bs used ∗ pool (o + n) ∗
     ⟪zlen bs + zlen d + kPieceCapacity < 2 ^ 64 /\ o + n + zlen d - bonus c d < kMaxUsing⟫ }}
    write_raw_loop fuel c d
  {{ c', ∃ n' used', co_open c' n' r (bs ++ d) used' ∗ pool (o + n') ∗
       ⟪n' + bonus c d <= n + zlen d /\ (0 < used \/ 0 < zlen d -> 0 < used') /\
        co_meta c c' (zlen d)⟫ }}.
Proof using Type.
  revert c n bs used d. induction fuel as [|fuel IH]; intros c n bs used d Hf Hd Φ; [lia|].
  iIntros "((%w & %Hw & Hwin) & Hpool & %Hz & %Hm) HΦ". cbn [write_raw_loop].
  iDestruct (open_window_facts with "Hwin") as "[(%Hu & %Hsz & %H64 & %Hn0) Hwin]".
  assert (buffer_size_ c = w_size w) as Hbs by by rewrite /buffer_size_ Hw.
  pose proof (zlen_nonneg d). destruct (buffer_size_ c <? zlen d) eqn:E; bool_cases.
  - assert (bonus c d = if 0 <? buffer_size_ c then 1 else 0) as Hbo.
    { rewrite /bonus (proj2 (Z.ltb_lt 0 (zlen d))); [by rewrite andb_true_r|lia]. }
    assert (o + n < kMaxUsing /\ o + n + zlen d - buffer_size_ c < kMaxUsing) as [Hm1 Hm2].
    { rewrite Hbo in Hm. destruct (0 <? buffer_size_ c) eqn:E3; bool_cases; lia. }
    set (k := Z.to_nat (buffer_size_ c)).
    assert (zlen (take k d) = w_size w) as Ht by (rewrite -Hbs; apply zlen_take; lia).
    assert (zlen (drop k d) = zlen d - w_size w) as Hdr by (rewrite -Hbs; apply zlen_drop; lia).
    wp_bind. iApply (co_store_spec with "[Hwin]").
    { iSplitL; [iExists w; by iFrame|]. iPureIntro. split; [by apply Forall_take|lia]. }
    iIntros (u) "(%w' & %Hw' & Hwin)". rewrite /co_Advance Hw /= in Hw'. simplify_eq.
    rewrite (open_window_full _ _ _ _ _ (w_advance w _)); [|cbn; lia].
    assert (zlen (bs ++ take k d) = zlen bs + w_size w) as Hza by (rewrite zlen_app; lia).
    wp_bind. iApply (co_Refresh_spec c with "[$Hwin $Hpool]"); [iPureIntro; lia|].
    iIntros (c1) "(%n1 & %used1 & Hopen & Hpool & %Hs1 & %Hn1 & %Ha1)".
    assert (bonus c1 (drop k d) = 1) as Hb1.
    { rewrite /bonus (proj2 (Z.ltb_lt _ _)) // (proj2 (Z.ltb_lt _ _)) //. lia. }
    iApply (IH with "[$Hopen $Hpool]").
    { rewrite (proj2 (Z.eqb_neq _ _)); [|lia]. rewrite length_drop. rewrite /zlen in E.
      destruct (buffer_size_ c =? 0) eqn:E0; bool_cases; rewrite /k; lia. }
    { by apply Forall_drop. }
    { iPureIntro. lia. }
    iIntros (c2) "(%n2 & %used2 & Hopen & Hpool & %Hn2 & %Hu2 & %Ha2)". iApply "HΦ".
    iExists n2, used2. rewrite -app_assoc take_drop. iFrame. iPureIntro.
    split_and!; [|intros _; apply Hu2; lia|].
    2:{ replace (zlen d) with (buffer_size_ c + zlen (drop k d)) by lia. exact (co_meta_trans _ _ _ _ _ Ha1 Ha2). }
    rewrite Hbo. destruct (0 <? buffer_size_ c) eqn:E3; bool_cases; lia.
  - wp_bind. iApply (co_store_spec with "[Hwin]").
    { iSplitL; [iExists w; by iFrame|]. iPureIntro. split; [done|lia]. }
    iIntros (u) "Hopen". wp_ret. iApply "HΦ". iExists n, _. iFrame. iPureIntro.
    split_and!; [rewrite /bonus; destruct (_ && _) eqn:E2; bool_cases; lia|lia|].
    by eapply co_meta_Advance.
Qed.

(** [WriteRaw] appends. *)
Definition appends (c : CodedOutputStream) (d : list Z) (m : M CodedOutputStream) : Prop :=
  forall n r bs used,
  {{ co_open c n r bs used ∗ pool (o + n) ∗
     ⟪aliasing_enabled_ c = false /\
      zlen bs + zlen d + kPieceCapacity < 2 ^ 64 /\ o + n + zlen d < kMaxUsing⟫ }} m
  {{ c', ∃ n' used', co_open c' n' r (bs ++ d) used' ∗ pool (o + n') ∗
       ⟪n' <= n + zlen d /\ (0 < used \/ 0 < zlen d -> 0 < used') /\ co_meta c c' (zlen d)⟫ }}.

Lemma WriteRaw_spec c d : Forall is_byte d -> appends c d (WriteRaw c d).
Proof using Type.
  intros Hd n r bs used Φ. iIntros "(Hopen & Hpool & %Ha & %Hz & %Hm) HΦ".
  assert (0 <= bonus c d) by (rewrite /bonus; case_match; lia).
  iApply (write_raw_loop_spec with "[$Hopen $Hpool]"); [case_match; lia|done|iPureIntro; lia|].
  iIntros (c') "(%n' & %used' & Hopen & Hpool & %Hn & %Hu & %Ha')". iApply "HΦ".
  iExists n', used'. iFrame. iPureIntro. split_and!; [|done|done].
  rewrite /bonus in Hn. destruct (_ && _); lia.
Qed.

(** The fast path of the varint writers. *)
Lemma co_store_fast c d : Forall is_byte d -> zlen d <= buffer_size_ c ->
  appends c d (co_store c d;; mret (co_Advance c (zlen d))).
Proof using Type.
  intros Hd Hs n r bs used Φ. iIntros "(Hopen & Hpool & %Ha & %Hz & %Hm) HΦ".
  iDestruct (co_open_facts with "Hopen") as "[[%Hu _] Hopen]".
  iAssert (⟪exists w, co_buffer c = Some w⟫ ∗ co_open c n r bs used)%I with "[Hopen]" as "[[%w %Hw] Hopen]".
  { iDestruct "Hopen" as "(%w & %Hw & Hwin)". iSplitR; [eauto|]. iExists w. by iFrame. }
  wp_bind. iApply (co_store_spec with "[$Hopen //]"). iIntros (u) "Hopen". wp_ret.
  iApply "HΦ". iExists n, _. iFrame. iPureIntro. pose proof (zlen_nonneg d).
  split_and!; [lia|lia|]. by eapply co_meta_Advance.
Qed.

Lemma length_varint_le fuel v : (length (varint_loop fuel v) <= fuel)%nat.
Proof using Type.
  revert v. induction fuel as [|fuel IH]; intros v; cbn; [lia|].
  case_match; cbn; [specialize (IH (Z.shiftr v 7)); lia|lia].
Qed.

Lemma WriteVarint32_spec c v : appends c (WriteVarint32ToArray v) (WriteVarint32 c v).
Proof using Type.
  rewrite /WriteVarint32 /WriteVarint32SlowPath. pose proof (varint_loop_bytes kMaxVarint32Bytes v) as Hb.
  destruct (5 <=? buffer_size_ c) eqn:E; bool_cases; [|by apply WriteRaw_spec].
  apply co_store_fast; [done|]. pose proof (length_varint_le kMaxVarint32Bytes v) as Hl.
  rewrite /zlen /WriteVarint32ToArray. rewrite /kMaxVarint32Bytes in Hl |- *. lia.
Qed.

Lemma WriteVarint64_spec c v : appends c (WriteVarint64ToArray v) (WriteVarint64 c v).
Proof using Type.
  rewrite /WriteVarint64 /WriteVarint64SlowPath. pose proof (varint_loop_bytes kMaxVarintBytes v) as Hb.
  destruct (10 <=? buffer_size_ c) eqn:E; bool_cases; [|by apply WriteRaw_spec].
  apply co_store_fast; [done|]. pose proof (length_varint_le kMaxVarintBytes v) as Hl.
  rewrite /zlen /WriteVarint64ToArray. rewrite /kMaxVarintBytes in Hl |- *. lia.
Qed.

Lemma WriteRawMaybeAliased_spec c d : Forall is_byte d -> appends c d (WriteRawMaybeAliased c d).
Proof using Type.
  intros Hd n r bs used Φ. iIntros "(Hopen & Hpool & %Ha & %Hz & %Hm) HΦ".
  rewrite /WriteRawMaybeAliased Ha. iApply (WriteRaw_spec with "[$Hopen $Hpool //]"); done.
Qed.

(** Sequencing two writes. *)
Lemma appends_bind c d1 d2 m1 (m2 : CodedOutputStream -> M CodedOutputStream) :
  appends c d1 m1 -> (forall c', appends c' d2 (m2 c')) -> appends c (d1 ++ d2) (m1 ≫= m2).
Proof using Type.
  intros H1 H2 n r bs used Φ. iIntros "(Hopen & Hpool & %Ha & %Hz & %Hm) HΦ".
  rewrite zlen_app in Hz, Hm. pose proof (zlen_nonneg d1). pose proof (zlen_nonneg d2).
  wp_bind. iApply (H1 with "[$Hopen $Hpool]"); [iPureIntro; split_and!; [done|lia..]|].
  iIntros (c1) "(%n1 & %u1 & Hopen & Hpool & %Hn1 & %Hu1 & %Ha1)".
  iApply (H2 with "[$Hopen $Hpool]"); [iPureIntro; rewrite zlen_app; split_and!; [by destruct Ha1 as (-> & _)|lia..]|].
  iIntros (c2) "(%n2 & %u2 & Hopen & Hpool & %Hn2 & %Hu2 & %Ha2)". iApply "HΦ".
  iExists n2, u2. rewrite app_assoc. iFrame. iPureIntro. rewrite zlen_app.
  split_and!; [lia|intros Hor; apply Hu2; lia|].
  by eapply co_meta_trans.
Qed.

Lemma appends_ret c : appends c [] (mret c).
Proof using Type.
  intros n r bs used Φ. iIntros "(Hopen & Hpool & %Ha & _) HΦ". wp_ret. iApply "HΦ".
  iExists n, used. rewrite app_nil_r zlen_nil. iFrame. iPureIntro.
  split_and!; [lia|lia|]. split_and!; [done..|lia].
Qed.

(** Giving the unused window back. *)
Lemma co_Trim_spec c n r bs used :
  {{ co_open c n r bs used ∗ ⟪0 < used⟫ }} co_Trim c
  {{ c', bufh (out_buffer (co_output c')) n r bs }}.
Proof using Type.
  iIntros (Φ) "((%w & %Hw & Hwin) & %Hu) HΦ". rewrite /co_Trim /buffer_size_ Hw.
  iDestruct (open_window_facts with "Hwin") as "[(_ & %Hsz & %H64 & _) Hwin]".
  destruct (0 <? w_size w) eqn:E; bool_cases.
  - rewrite /out_BackUp. wp_bind. wp_bind.
    assert (size_t (w_size w) = w_size w) as -> by (apply wrap_id; pose proof (zlen_nonneg bs); lia).
    iApply (out_flatBackUp_spec with "[$Hwin //]"). iIntros (b') "Hb". wp_ret. wp_ret.
    by iApply "HΦ".
  - wp_ret. iApply "HΦ". iApply (open_window_full with "Hwin"). lia.
Qed.
End writing.
