(* ===== verification/CodedInput.v ===== *)
(** * [CodedInputStream]

    The reader of the vendored protobuf library
    ([google/protobuf/io/coded_stream.h] and [.cc]) over a
    [BufferInputStream]: varints, tags, strings and fixed-width integers read
    from the lent window when they lie inside it (the fast paths) and across
    windows otherwise, with the byte limits that bound them.

    [ci_rep c bs] says that [bs] is what is still to be read.  The fast and slow
    paths are proved to consume exactly the reference encoding. *)

From stdpp Require Import base tactics list numbers gmap.
From iris.proofmode Require Import proofmode.
From Stdlib Require Import ZArith Lia.
From S2P Require Import Prelude Machine HeapLogic Piece Buffer BufferSpec Streams Varint.

Definition kint32max : Z := 2 ^ 31 - 1.
Definition kDefaultTotalBytesLimit : Z := kint32max.
Definition default_recursion_limit_ : Z := 100.

(** ** State

    [ci_buffer] is the interval [[buffer_, buffer_end_)], [None] when both are
    null. *)
Record CodedInputStream := mkCI {
  ci_input : BufferInputStream;
  ci_buffer : option window;
  total_bytes_read_ : Z;
  overflow_bytes_ : Z;
  last_tag_ : Z;
  legitimate_message_end_ : bool;
  current_limit_ : Z;
  buffer_size_after_limit_ : Z;
  total_bytes_limit_ : Z;
  recursion_budget_ : Z;
  recursion_limit_ : Z
}.

Definition set_buffer (c : CodedInputStream) (s : BufferInputStream) (w : option window) :=
  mkCI s w (total_bytes_read_ c) (overflow_bytes_ c) (last_tag_ c) (legitimate_message_end_ c)
    (current_limit_ c) (buffer_size_after_limit_ c) (total_bytes_limit_ c)
    (recursion_budget_ c) (recursion_limit_ c).
Definition set_counts (c : CodedInputStream) (total overflow limit after : Z) :=
  mkCI (ci_input c) (ci_buffer c) total overflow (last_tag_ c) (legitimate_message_end_ c)
    limit after (total_bytes_limit_ c) (recursion_budget_ c) (recursion_limit_ c).
Definition set_end (c : CodedInputStream) (tag : Z) (e : bool) (budget : Z) :=
  mkCI (ci_input c) (ci_buffer c) (total_bytes_read_ c) (overflow_bytes_ c) tag e
    (current_limit_ c) (buffer_size_after_limit_ c) (total_bytes_limit_ c)
    budget (recursion_limit_ c).
Definition set_message_end (c : CodedInputStream) (e : bool) :=
  set_end c (last_tag_ c) e (recursion_budget_ c).

Definition BufferSize (c : CodedInputStream) : Z :=
  match ci_buffer c with Some w => w_size w | None => 0 end.

Definition ci_Advance (c : CodedInputStream) (amount : Z) : CodedInputStream :=
  set_buffer c (ci_input c) ((λ w, w_advance w amount) <$> ci_buffer c).

(** [buffer_end_ += n] *)
Definition extend_end (n : Z) (w : window) : window :=
  mkWindow (w_loc w) (w_pos w) (w_size w + n).

Definition CurrentPosition (c : CodedInputStream) : Z :=
  total_bytes_read_ c - (BufferSize c + buffer_size_after_limit_ c).

(** The [n] bytes at [buffer_]. *)
Definition ci_fetch (c : CodedInputStream) (n : Z) : M (list Z) :=
  match ci_buffer c with
  | Some w => fetch w n
  | None => if n =? 0 then mret [] else throw NullDeref
  end.

(** What [[buffer_, buffer_end_)] holds. *)
Definition ci_window (c : CodedInputStream) : M (list Z) := ci_fetch c (BufferSize c).

(** ** Limits *)
Definition RecomputeBufferLimits (c : CodedInputStream) : CodedInputStream :=
  let c := set_buffer c (ci_input c) (extend_end (buffer_size_after_limit_ c) <$> ci_buffer c) in
  let closest_limit := Z.min (current_limit_ c) (total_bytes_limit_ c) in
  if closest_limit <? total_bytes_read_ c then
    let after := total_bytes_read_ c - closest_limit in
    let c := set_counts c (total_bytes_read_ c) (overflow_bytes_ c) (current_limit_ c) after in
    set_buffer c (ci_input c) (extend_end (- after) <$> ci_buffer c)
  else set_counts c (total_bytes_read_ c) (overflow_bytes_ c) (current_limit_ c) 0.

Definition PushLimit (c : CodedInputStream) (byte_limit : Z) : Z * CodedInputStream :=
  let current_position := CurrentPosition c in
  let old_limit := current_limit_ c in
  if (0 <=? byte_limit) && (byte_limit <=? kint32max - current_position) &&
     (byte_limit <? current_limit_ c - current_position)
  then (old_limit,
        RecomputeBufferLimits
          (set_counts c (total_bytes_read_ c) (overflow_bytes_ c)
             (current_position + byte_limit) (buffer_size_after_limit_ c)))
  else (old_limit, c).

Definition PopLimit (c : CodedInputStream) (limit : Z) : CodedInputStream :=
  set_message_end
    (RecomputeBufferLimits
       (set_counts c (total_bytes_read_ c) (overflow_bytes_ c) limit (buffer_size_after_limit_ c)))
    false.

Definition BytesUntilLimit (c : CodedInputStream) : Z :=
  if current_limit_ c =? kint32max then -1 else current_limit_ c - CurrentPosition c.

(** ** Refilling the window *)
Fixpoint NextNonEmpty (fuel : nat) (s : BufferInputStream) : M (option window * BufferInputStream) :=
  match fuel with
  | O => throw OutOfFuel
  | S fuel =>
      '(w, s) ← in_Next s;
      match w with
      | Some w => if w_size w =? 0 then NextNonEmpty fuel s else mret (Some w, s)
      | None => mret (None, s)
      end
  end.

(** Accounting for a new window of [w_size w] bytes. *)
Definition take_window (c : CodedInputStream) (s : BufferInputStream) (w : window) : CodedInputStream :=
  let c := set_buffer c s (Some w) in
  if total_bytes_read_ c <=? kint32max - w_size w then
    set_counts c (total_bytes_read_ c + w_size w) (overflow_bytes_ c)
      (current_limit_ c) (buffer_size_after_limit_ c)
  else
    let overflow := total_bytes_read_ c - (kint32max - w_size w) in
    let c := set_counts c kint32max overflow (current_limit_ c) (buffer_size_after_limit_ c) in
    set_buffer c s (extend_end (- overflow) <$> ci_buffer c).

Definition ci_Refresh (c : CodedInputStream) : M (bool * CodedInputStream) :=
  assert_ (BufferSize c =? 0);;
  if (0 <? buffer_size_after_limit_ c) || (0 <? overflow_bytes_ c) ||
     (total_bytes_read_ c =? current_limit_ c)
  then mret (false, c)
  else
    fuel ← mem_bound;
    '(w, s) ← NextNonEmpty (S fuel) (ci_input c);
    match w with
    | Some w => mret (true, RecomputeBufferLimits (take_window c s w))
    | None => mret (false, set_buffer c s None)
    end.

Definition CodedInputStream_new (input : BufferInputStream) : M CodedInputStream :=
  '(_, c) ← ci_Refresh (mkCI input None 0 0 0 false kint32max 0 kDefaultTotalBytesLimit
                          default_recursion_limit_ default_recursion_limit_);
  mret c.

Definition BackUpInputToCurrentPosition (c : CodedInputStream) : M CodedInputStream :=
  let backup_bytes := BufferSize c + buffer_size_after_limit_ c + overflow_bytes_ c in
  if 0 <? backup_bytes then
    s ← in_BackUp (ci_input c) backup_bytes;
    let c := set_counts c (total_bytes_read_ c - (BufferSize c + buffer_size_after_limit_ c)) 0
               (current_limit_ c) 0 in
    mret (set_buffer c s (extend_end (- BufferSize c) <$> ci_buffer c))
  else mret c.

(** [~CodedInputStream()], returning the stream it was reading. *)
Definition CodedInputStream_destroy (c : CodedInputStream) : M BufferInputStream :=
  c ← BackUpInputToCurrentPosition c;
  mret (ci_input c).

(** ** Varints *)

(** [while (buffer_ == buffer_end_) if (!Refresh()) return false;] *)
Fixpoint refill (fuel : nat) (c : CodedInputStream) : M (bool * CodedInputStream) :=
  match fuel with
  | O => throw OutOfFuel
  | S fuel =>
      if BufferSize c =? 0 then
        '(ok, c) ← ci_Refresh c;
        if ok : bool then refill fuel c else mret (false, c)
      else mret (true, c)
  end.

(** The loop of [ReadVarint64Slow], [k] being [kMaxVarintBytes - count]. *)
Fixpoint varint64_slow_loop (k : nat) (count : Z) (result : Z) (c : CodedInputStream) :
    M (option Z * CodedInputStream) :=
  match k with
  | O => mret (None, c)
  | S k =>
      fuel ← mem_bound;
      '(ok, c) ← refill (S fuel) c;
      if ok : bool then
        bs ← ci_fetch c 1;
        let b := default 0 (head bs) in
        let result := Z.lor result (wrap64 (Z.shiftl (Z.land b 127) (7 * count))) in
        let c := ci_Advance c 1 in
        if more b then varint64_slow_loop k (count + 1) result c else mret (Some result, c)
      else mret (None, c)
  end.

Definition ReadVarint64Slow (c : CodedInputStream) : M (option Z * CodedInputStream) :=
  varint64_slow_loop kMaxVarintBytes 0 0 c.

(** [BufferSize() >= kMaxVarintBytes ||
     (buffer_end_ > buffer_ && !(buffer_end_[-1] & 0x80))] *)
Definition varint_in_window (bs : list Z) : bool :=
  (Z.of_nat kMaxVarintBytes <=? zlen bs) ||
  match last bs with Some b => negb (more b) | None => false end.

(** The outcome of an array decoder on the window. *)
Definition from_array (c : CodedInputStream) (r : option (option Z * nat)) :
    M (option Z * CodedInputStream) :=
  match r with
  | Some (Some v, n) => mret (Some v, ci_Advance c (Z.of_nat n))
  | Some (None, _) => mret (None, c)
  | None => throw OutOfBounds
  end.

Definition ReadVarint64Fallback (c : CodedInputStream) : M (option Z * CodedInputStream) :=
  bs ← ci_window c;
  if varint_in_window bs then from_array c (ReadVarint64FromArray bs)
  else ReadVarint64Slow c.

Definition ReadVarint64 (c : CodedInputStream) : M (option Z * CodedInputStream) :=
  bs ← ci_window c;
  match bs with
  | b :: _ => if b <? 128 then mret (Some b, ci_Advance c 1) else ReadVarint64Fallback c
  | [] => ReadVarint64Fallback c
  end.

(** [static_cast<uint32>] of a 64-bit result *)
Definition to_uint32 (r : option Z * CodedInputStream) : option Z * CodedInputStream :=
  (wrap32 <$> r.1, r.2).

Definition ReadVarint32Slow (c : CodedInputStream) : M (option Z * CodedInputStream) :=
  r ← ReadVarint64Fallback c; mret (to_uint32 r).

Definition ReadVarint32Fallback (c : CodedInputStream) (first_byte_or_zero : Z) :
    M (option Z * CodedInputStream) :=
  bs ← ci_window c;
  if varint_in_window bs then
    assert_ (negb (first_byte_or_zero =? 0));;
    from_array c (ReadVarint32FromArray first_byte_or_zero bs)
  else ReadVarint32Slow c.

Definition ReadVarint32 (c : CodedInputStream) : M (option Z * CodedInputStream) :=
  bs ← ci_window c;
  match bs with
  | v :: _ => if v <? 128 then mret (Some v, ci_Advance c 1) else ReadVarint32Fallback c v
  | [] => ReadVarint32Fallback c 0
  end.

(** ** Tags *)
Definition ReadTagSlow (c : CodedInputStream) : M (Z * CodedInputStream) :=
  '(ok, c) ← (if BufferSize c =? 0 then ci_Refresh c else mret (true, c));
  if ok : bool then
    '(r, c) ← ReadVarint64 c;
    mret (match r with Some v => wrap32 v | None => 0 end, c)
  else
    let current_position := total_bytes_read_ c - buffer_size_after_limit_ c in
    mret (0, set_message_end c
               (if total_bytes_limit_ c <=? current_position
                then current_limit_ c =? total_bytes_limit_ c else true)).

Definition ReadTagFallback (c : CodedInputStream) (first_byte_or_zero : Z) : M (Z * CodedInputStream) :=
  bs ← ci_window c;
  let buf_size := zlen bs in
  if varint_in_window bs then
    assert_ (first_byte_or_zero =? default 0 (head bs));;
    if first_byte_or_zero =? 0 then mret (0, ci_Advance c 1)
    else
      '(r, c) ← from_array c (ReadVarint32FromArray first_byte_or_zero bs);
      mret (default 0 r, c)
  else if (buf_size =? 0) &&
          ((0 <? buffer_size_after_limit_ c) || (total_bytes_read_ c =? current_limit_ c)) &&
          (total_bytes_read_ c - buffer_size_after_limit_ c <? total_bytes_limit_ c)
  then mret (0, set_message_end c true)
  else ReadTagSlow c.

(** [ReadTagWithCutoffNoLastTag(cutoff)]: the tag and whether it is at most
    the cutoff. *)
Definition ReadTagWithCutoffNoLastTag (c : CodedInputStream) (cutoff : Z) :
    M (Z * bool * CodedInputStream) :=
  bs ← ci_window c;
  let slow first :=
    '(tag, c) ← ReadTagFallback c first;
    mret (tag, wrap32 (tag - 1) <? cutoff, c) in
  match bs with
  | b0 :: rest =>
      if 0 <? int8 b0 then
        mret (b0, (127 <=? cutoff) || (b0 <=? cutoff), ci_Advance c 1)
      else
        match rest with
        | b1 :: _ =>
            if (128 <=? cutoff) && (128 <=? Z.land b0 (Z.lnot b1)) then
              let tag := 128 * b1 + (b0 - 128) in
              mret (tag, (16383 <=? cutoff) || (tag <=? cutoff), ci_Advance c 2)
            else slow b0
        | [] => slow b0
        end
  | [] => slow 0
  end.

Definition ReadTagNoLastTag (c : CodedInputStream) : M (Z * CodedInputStream) :=
  bs ← ci_window c;
  match bs with
  | v :: _ => if v <? 128 then mret (v, ci_Advance c 1) else ReadTagFallback c v
  | [] => ReadTagFallback c 0
  end.

Definition ReadTag (c : CodedInputStream) : M (Z * CodedInputStream) :=
  '(tag, c) ← ReadTagNoLastTag c;
  mret (tag, set_end c tag (legitimate_message_end_ c) (recursion_budget_ c)).

Definition LastTagWas (c : CodedInputStream) (expected : Z) : bool := last_tag_ c =? expected.
Definition ConsumedEntireMessage (c : CodedInputStream) : bool := legitimate_message_end_ c.

(** ** Strings and raw bytes *)

(** The loop of [ReadStringFallback] and of [InternalReadRawInline]: [acc] is
    what has been copied; it is kept when the stream ends first. *)
Fixpoint read_bytes_loop (fuel : nat) (c : CodedInputStream) (size : Z) (acc : list Z) :
    M (bool * list Z * CodedInputStream) :=
  match fuel with
  | O => throw OutOfFuel
  | S fuel =>
      let current_buffer_size := BufferSize c in
      if current_buffer_size <? size then
        bs ← ci_fetch c current_buffer_size;
        let c := ci_Advance c current_buffer_size in
        '(ok, c) ← ci_Refresh c;
        if ok : bool then read_bytes_loop fuel c (size - current_buffer_size) (acc ++ bs)
        else mret (false, acc ++ bs, c)
      else
        bs ← ci_fetch c size;
        mret (true, acc ++ bs, ci_Advance c size)
  end.

Definition ReadStringFallback (c : CodedInputStream) (size : Z) : M (bool * list Z * CodedInputStream) :=
  fuel ← mem_bound;
  read_bytes_loop (S fuel) c size [].

(** [buffer] is the string before the call. *)
Definition InternalReadStringInline (c : CodedInputStream) (buffer : list Z) (size : Z) :
    M (bool * list Z * CodedInputStream) :=
  if size <? 0 then mret (false, buffer, c)
  else if size <=? BufferSize c then
    bs ← ci_fetch c size;
    mret (true, bs, ci_Advance c size)
  else ReadStringFallback c size.

Definition ReadString (c : CodedInputStream) (buffer : list Z) (size : Z) :
    M (bool * list Z * CodedInputStream) :=
  if size <? 0 then mret (false, buffer, c) else InternalReadStringInline c buffer size.

Definition ReadRaw (c : CodedInputStream) (size : Z) : M (bool * list Z * CodedInputStream) :=
  fuel ← mem_bound;
  read_bytes_loop (S fuel) c size [].

(** [ReadLittleEndian32] and [ReadLittleEndian64], [n] being 4 or 8. *)
Definition ReadLittleEndian (n : Z) (c : CodedInputStream) : M (option Z * CodedInputStream) :=
  if n <=? BufferSize c then
    bs ← ci_fetch c n;
    mret (Some (of_le bs), ci_Advance c n)
  else
    '(ok, bs, c) ← ReadRaw c n;
    mret (if ok : bool then Some (of_le bs) else None, c).

Definition IncrementRecursionDepth (c : CodedInputStream) : bool * CodedInputStream :=
  let budget := recursion_budget_ c - 1 in
  (0 <=? budget, set_end c (last_tag_ c) (legitimate_message_end_ c) budget).

Definition DecrementRecursionDepth (c : CodedInputStream) : CodedInputStream :=
  if recursion_budget_ c <? recursion_limit_ c
  then set_end c (last_tag_ c) (legitimate_message_end_ c) (recursion_budget_ c + 1) else c.

(** ** What is still to be read *)

(** No limit is reached before [left] more bytes. *)
Definition unlimited (c : CodedInputStream) (left : Z) : Prop :=
  overflow_bytes_ c = 0 /\ buffer_size_after_limit_ c = 0 /\
  current_limit_ c = kint32max /\ total_bytes_limit_ c = kint32max /\
  0 <= total_bytes_read_ c /\ total_bytes_read_ c + left < kint32max.

(** The bytes of the window: the lent piece from its byte [k] on. *)
Definition window_view (c : CodedInputStream) (cur : option (loc * Piece)) (x : list Z) : Prop :=
  match ci_buffer c, cur with
  | Some w, Some (l, p) =>
      exists k, w = mkWindow l (p_off p + k) (p_len p - k) /\ 0 <= k <= p_len p /\
                x = drop (Z.to_nat k) (piece_bytes p)
  | None, None => x = []
  | _, _ => False
  end.

(** The fields that reading does not change. *)
Definition same_meta (c c' : CodedInputStream) : Prop :=
  last_tag_ c' = last_tag_ c /\ legitimate_message_end_ c' = legitimate_message_end_ c /\
  recursion_budget_ c' = recursion_budget_ c /\ recursion_limit_ c' = recursion_limit_ c.

#[export] Instance same_meta_preorder : PreOrder same_meta.
Proof.
  split; [by intros c|]. intros c1 c2 c3 (?&?&?&?) (?&?&?&?). by split_and!; etrans.
Qed.

Section reading.
Context `{HPeak : Peak} (o : Z) (Ho : 0 <= o).

(** [x] is in the window, [rest] behind it. *)
Definition ci_at (c : CodedInputStream) (x rest : list Z) : hProp :=
  (∃ ls cur, in_rep o (ci_input c) ls cur ∗
     ⟪no_empty ls /\ unlimited c (zlen rest) /\ rest = content ls /\ window_view c cur x /\
      (forall l p, cur = Some (l, p) -> piece_wf p)⟫)%I.

Definition ci_rep (c : CodedInputStream) (bs : list Z) : hProp :=
  (∃ x rest, ci_at c x rest ∗ ⟪bs = x ++ rest⟫)%I.

Lemma window_view_size c cur x : window_view c cur x ->
  (forall l p, cur = Some (l, p) -> piece_wf p) -> BufferSize c = zlen x.
Proof using Type.
  rewrite /window_view /BufferSize. intros Hv Hwf. destruct (ci_buffer c) as [w|], cur as [[l p]|]; try done.
  - destruct Hv as (k & -> & Hk & ->). specialize (Hwf l p eq_refl).
    pose proof (zlen_piece_bytes p Hwf). cbn. rewrite zlen_drop; lia.
  - by rewrite Hv.
Qed.

Lemma ci_at_size c x rest : ci_at c x rest ⊢ ⟪BufferSize c = zlen x /\ unlimited c (zlen rest)⟫ ∗ ci_at c x rest.
Proof using Type.
  iIntros "(%ls & %cur & H & %Hne & %Hu & %Hr & %Hv & %Hwf)". iSplitR.
  - iPureIntro. split; [by eapply window_view_size|done].
  - iExists ls, cur. iFrame. by iPureIntro.
Qed.

Lemma ci_at_rep c x rest : ci_at c x rest ⊢ ci_rep c (x ++ rest).
Proof using Type. iIntros "H". iExists x, rest. by iFrame. Qed.

(** The same with the remaining pieces made explicit. *)
Definition ci_cells (c : CodedInputStream) (x : list Z) (ls : cells) : hProp :=
  (∃ cur, in_rep o (ci_input c) ls cur ∗
     ⟪no_empty ls /\ unlimited c (zlen (content ls)) /\ window_view c cur x /\
      (forall l p, cur = Some (l, p) -> piece_wf p)⟫)%I.

Lemma ci_at_cells c x rest : ci_at c x rest ⊣⊢ ∃ ls, ci_cells c x ls ∗ ⟪rest = content ls⟫.
Proof using Type.
  iSplit.
  - iIntros "(%ls & %cur & H & %Hne & %Hu & %Hr & %Hv & %Hwf)". iExists ls. iSplitL; [|done].
    iExists cur. iFrame. iPureIntro. by rewrite -Hr.
  - iIntros "(%ls & (%cur & H & %Hne & %Hu & %Hv & %Hwf) & %Hr)". iExists ls, cur. iFrame.
    iPureIntro. by rewrite Hr.
Qed.

Lemma ci_at_open c x rest : ci_at c x rest ⊢ ∃ ls, ci_cells c x ls ∗ ⟪rest = content ls⟫.
Proof using Type. by rewrite ci_at_cells. Qed.

Lemma ci_at_close c x ls : ci_cells c x ls ⊢ ci_at c x (content ls).
Proof using Type. rewrite ci_at_cells. iIntros "H". iExists ls. by iFrame. Qed.

(** Reading [n] bytes of the window. *)
Lemma ci_fetch_cells c x ls n : 0 <= n <= zlen x ->
  {{ ci_cells c x ls }} ci_fetch c n {{ r, ⟪r = take (Z.to_nat n) x⟫ ∗ ci_cells c x ls }}.
Proof using Type.
  iIntros (Hn Φ) "(%cur & H & %Hne & %Hu & %Hv & %Hwf) HΦ".
  pose proof (window_view_size _ _ _ Hv Hwf) as Hs.
  rewrite /ci_fetch /window_view in Hv |- *. destruct (ci_buffer c) as [w|] eqn:Ew, cur as [[l p]|]; try done.
  - destruct Hv as (k & -> & Hk & ->). specialize (Hwf l p eq_refl) as Hp.
    pose proof (zlen_piece_bytes p Hp) as Hz. rewrite zlen_drop in Hn; [|lia].
    iApply (fetch_spec with "H"); [lia..|]. iIntros (r) "[-> H]". iApply "HΦ". iSplitR.
    + by iPureIntro.
    + iExists (Some (l, p)). iFrame. iPureIntro. rewrite /window_view Ew. split_and!; try done. by exists k.
  - subst x. rewrite zlen_nil in Hn. rewrite (proj2 (Z.eqb_eq _ _)); [|lia]. wp_ret. iApply "HΦ".
    iSplitR; [by rewrite take_nil|]. iExists None. iFrame. iPureIntro.
    by rewrite /window_view Ew.
Qed.

Lemma ci_fetch_spec c x rest n : 0 <= n <= zlen x ->
  {{ ci_at c x rest }} ci_fetch c n {{ r, ⟪r = take (Z.to_nat n) x⟫ ∗ ci_at c x rest }}.
Proof using Type.
  iIntros (Hn Φ) "H HΦ". iDestruct (ci_at_open with "H") as "(%ls & H & ->)".
  iApply (ci_fetch_cells with "H"); [done|]. iIntros (r) "[-> H]". iApply "HΦ".
  iSplitR; [done|]. by iApply ci_at_close.
Qed.

Lemma ci_window_spec c x rest :
  {{ ci_at c x rest }} ci_window c {{ r, ⟪r = x⟫ ∗ ci_at c x rest }}.
Proof using Type.
  iIntros (Φ) "H HΦ". iDestruct (ci_at_size with "H") as "[[%Hs _] H]". rewrite /ci_window Hs.
  iApply (ci_fetch_spec with "H"); [pose proof (zlen_nonneg x); lia|]. iIntros (r) "[-> H]".
  iApply "HΦ". iFrame. iPureIntro. rewrite /zlen Nat2Z.id. by apply take_ge.
Qed.

Lemma ci_Advance_cells c x ls n : 0 <= n <= zlen x ->
  ci_cells c x ls ⊢ ci_cells (ci_Advance c n) (drop (Z.to_nat n) x) ls.
Proof using Type.
  iIntros (Hn) "(%cur & H & %Hne & %Hu & %Hv & %Hwf)".
  iExists cur. iFrame. iPureIntro. split_and!; try done.
  rewrite /window_view /ci_Advance /= in Hv |- *.
  destruct (ci_buffer c) as [w|], cur as [[l p]|]; try done; cbn.
  - destruct Hv as (k & -> & Hk & ->). specialize (Hwf l p eq_refl) as Hp.
    pose proof (zlen_piece_bytes p Hp) as Hz. rewrite zlen_drop in Hn; [|lia].
    exists (k + n). rewrite /w_advance /=. split_and!; [f_equal; lia|lia..|].
    rewrite drop_drop. f_equal. lia.
  - subst x. by rewrite drop_nil.
Qed.

Lemma ci_Advance_spec c x rest n : 0 <= n <= zlen x ->
  ci_at c x rest ⊢ ci_at (ci_Advance c n) (drop (Z.to_nat n) x) rest.
Proof using Type.
  iIntros (Hn) "H". rewrite !ci_at_cells. iDestruct "H" as "(%ls & H & ->)". iExists ls.
  iSplitL; [|done]. by iApply ci_Advance_cells.
Qed.

Lemma same_meta_Advance c n : same_meta c (ci_Advance c n).
Proof using Type. done. Qed.

(** Refilling an empty window: the stream delivers the next piece, or has
    ended. *)
Lemma NextNonEmpty_spec fuel s l p ls cur : (0 < fuel)%nat -> 0 < p_len p ->
  {{ in_rep o s ((l, p) :: ls) cur }} NextNonEmpty fuel s
  {{ x, ∃ s', ⟪x = (Some (mkWindow l (p_off p) (p_len p)), s')⟫ ∗ in_rep o s' ls (Some (l, p)) }}.
Proof using Ho.
  iIntros (Hf Hp Φ) "H HΦ". destruct fuel as [|fuel]; [lia|]. cbn [NextNonEmpty]. wp_bind.
  iApply (in_Next_spec with "H"); [done..|]. iIntros (x) "(%s' & [%Ex _] & H)". subst x.
  cbn [w_size]. rewrite (proj2 (Z.eqb_neq _ _)); [|lia]. wp_ret. iApply "HΦ". iExists s'. by iFrame.
Qed.

Lemma NextNonEmpty_end_spec fuel s cur : (0 < fuel)%nat ->
  {{ in_rep o s [] cur }} NextNonEmpty fuel s {{ x, ∃ s', ⟪x = (None, s')⟫ ∗ in_rep o s' [] None }}.
Proof using Ho.
  iIntros (Hf Φ) "H HΦ". destruct fuel as [|fuel]; [lia|]. cbn [NextNonEmpty]. wp_bind.
  iApply (in_Next_end_spec with "H"); [done|]. iIntros (x) "(%s' & [%Ex _] & H)". subst x.
  wp_ret. iApply "HΦ". iExists s'. by iFrame.
Qed.

(** Without limits, a new window is taken as it is. *)
Lemma take_window_unlimited c s w left :
  unlimited c (w_size w + left) -> 0 <= w_size w -> 0 <= left ->
  RecomputeBufferLimits (take_window c s w) =
  set_counts (set_buffer c s (Some w)) (total_bytes_read_ c + w_size w) 0 kint32max 0.
Proof using Type.
  intros (H1 & H2 & H3 & H4 & H5 & H6) Hw Hl. rewrite /take_window.
  cbn [total_bytes_read_ set_buffer]. rewrite (proj2 (Z.leb_le _ _)); [|lia].
  rewrite /RecomputeBufferLimits. cbn. rewrite H1 H2 H3 H4 Z.min_id.
  rewrite (proj2 (Z.ltb_ge _ _)); [|lia]. rewrite /extend_end Z.add_0_r.
  rewrite /set_counts /set_buffer /=. destruct w; cbn. by rewrite H4.
Qed.

Lemma ci_cells_owned c x ls :
  ci_cells c x ls ⊢ ([∗ list] l ∈ ls.*1, ∃ o, obj_at l o) ∗ True.
Proof using Type.
  iIntros "(%cur & [[Hq _] Hl] & _)". iDestruct (queue_rep_owned with "Hq") as "[$ _]".
Qed.

Lemma ci_Refresh_cells c ls : {{ ci_cells c [] ls }} ci_Refresh c
  {{ x, ∃ c', ⟪x = (bool_decide (ls ≠ []), c') /\ same_meta c c'⟫ ∗
       match ls with
       | [] => ci_cells c' [] []
       | (_, p) :: ls => ci_cells c' (piece_bytes p) ls ∗ ⟪piece_bytes p ≠ []⟫
       end }}.
Proof using Ho.
  iIntros (Φ) "(%cur & H & %Hne & %Hu & %Hv & %Hwf) HΦ".
  pose proof (window_view_size _ _ _ Hv Hwf) as Hs. rewrite zlen_nil in Hs.
  pose proof Hu as (H1 & H2 & H3 & H4 & H5 & H6). pose proof (zlen_nonneg (content ls)).
  rewrite /ci_Refresh. wp_bind. iApply wp_assert; [by rewrite Hs|]. rewrite H1 H2 H3 !Z.ltb_irrefl.
  rewrite (proj2 (Z.eqb_neq _ _)); [|lia]. cbn [orb].
  wp_bind. iApply (wp_mem_bound _ [] (in_rep o (ci_input c) ls cur) with "H").
  { iIntros "_". iSplitL; done. }
  iIntros (fuel) "_ H". wp_bind. destruct ls as [|[l p] ls].
  - iApply (NextNonEmpty_end_spec with "H"); [lia|]. iIntros (x) "(%s' & %Ex & H)". subst x.
    wp_ret. iApply "HΦ". iExists _. iSplitR; [done|].
    iExists None. cbn [ci_input set_buffer]. iFrame. by iPureIntro.
  - apply Forall_cons in Hne as [Hp Hne]. cbn in Hp.
    iDestruct (in_rep_wf with "H") as "[%Hw H]". apply cells_wf_cons in Hw as [Hpw Hw].
    pose proof (zlen_piece_bytes p Hpw) as Hz.
    iApply (NextNonEmpty_spec with "H"); [lia|done|]. iIntros (x) "(%s' & %Ex & H)". subst x.
    wp_ret. iApply "HΦ". rewrite content_cons zlen_app Hz in Hu.
    iExists _. rewrite (take_window_unlimited _ _ _ (zlen (content ls)));
      [|done|cbn; lia|apply zlen_nonneg].
    assert (piece_bytes p <> []) as Hpn by (intros E; rewrite E zlen_nil in Hz; lia).
    iSplitR; [done|]. iSplitL; [|done]. iExists (Some (l, p)). iFrame. iPureIntro. split_and!; try done.
    + destruct Hu as (?&?&?&?&?&?). rewrite /unlimited /=. split_and!; try done; lia.
    + exists 0. rewrite Z.add_0_r Z.sub_0_r. split_and!; try done; lia.
    + intros ? ? E. by simplify_eq.
Qed.

Lemma ci_Refresh_spec c rest : {{ ci_at c [] rest }} ci_Refresh c
  {{ x, ∃ c', ⟪x = (bool_decide (rest ≠ []), c') /\ same_meta c c'⟫ ∗
       ∃ x' rest', ci_at c' x' rest' ∗ ⟪rest = x' ++ rest' /\ (rest ≠ [] -> x' ≠ [])⟫ }}.
Proof using Ho.
  iIntros (Φ) "H HΦ". iDestruct (ci_at_open with "H") as "(%ls & H & ->)".
  iApply (ci_Refresh_cells with "H"). iIntros (x) "(%c' & [%Ex %Hm] & H)". subst x. iApply "HΦ". iExists c'.
  destruct ls as [|[l p] ls].
  - rewrite bool_decide_eq_false_2; [|naive_solver]. rewrite bool_decide_eq_false_2; [|naive_solver].
    iSplitR; [done|]. iExists [], []. rewrite ci_at_cells. iSplitL; [|done]. iExists []. by iFrame.
  - iDestruct "H" as "[H %Hp]". rewrite !bool_decide_eq_true_2 //;
      [|rewrite content_cons; by destruct (piece_bytes p)].
    iSplitR; [done|]. iExists (piece_bytes p), (content ls). rewrite ci_at_cells. iSplitL; [|done].
    iExists ls. by iFrame.
Qed.

Lemma ci_at_bytes c x rest :
  ci_at c x rest ⊢ ⟪Forall is_byte (x ++ rest)⟫ ∗ ci_at c x rest.
Proof using Type.
  iIntros "(%ls & %cur & H & %Hne & %Hu & %Hr & %Hv & %Hwf)".
  iDestruct (in_rep_wf with "H") as "[%Hw H]". iSplitR.
  - iPureIntro. apply Forall_app. split; [|rewrite Hr; by apply content_byte].
    rewrite /window_view in Hv. destruct (ci_buffer c) as [w|], cur as [[l p]|]; try done.
    + destruct Hv as (k & _ & _ & ->). apply Forall_drop, piece_bytes_byte. eauto.
    + by subst.
  - iExists ls, cur. iFrame. by iPureIntro.
Qed.

(** The next byte, if any, is brought into the window. *)
Definition refilled (c : CodedInputStream) (bs : list Z) (r : bool * CodedInputStream) : hProp :=
  (∃ c', ⟪r = (bool_decide (bs ≠ []), c') /\ same_meta c c'⟫ ∗
     ∃ x rest, ci_at c' x rest ∗ ⟪bs = x ++ rest /\ (bs ≠ [] -> x ≠ [])⟫)%I.

Lemma refill_spec fuel c x rest : (2 <= fuel)%nat ->
  {{ ci_at c x rest }} refill fuel c {{ r, refilled c (x ++ rest) r }}.
Proof using Ho.
  iIntros (Hf Φ) "H HΦ". iDestruct (ci_at_size with "H") as "[[%Hs %Hu] H]".
  destruct fuel as [|[|fuel]]; [lia..|]. cbn [refill]. rewrite Hs.
  assert (forall y : list Z, y ≠ [] -> zlen y ≠ 0) as Hnz by (intros y Hy E; by apply zlen_0 in E).
  destruct x as [|b x].
  - rewrite zlen_nil /=. wp_bind. iApply (ci_Refresh_spec with "H").
    iIntros (r) "(%c' & [%Er %Hm] & %x' & %rest' & H & %Hrest & %Hx)". subst r.
    iDestruct (ci_at_size with "H") as "[[%Hs' _] H]".
    destruct (decide (rest = [])) as [->|Hn].
    + rewrite bool_decide_eq_false_2; [|naive_solver]. wp_ret. iApply "HΦ". iExists c'.
      rewrite bool_decide_eq_false_2; [|naive_solver]. iSplitR; [done|]. iExists x', rest'. by iFrame.
    + rewrite bool_decide_eq_true_2 // Hs' (proj2 (Z.eqb_neq _ _)); [|auto]. wp_ret.
      iApply "HΦ". iExists c'. rewrite bool_decide_eq_true_2 //. iSplitR; [done|].
      iExists x', rest'. by iFrame.
  - rewrite (proj2 (Z.eqb_neq _ _)); [|by apply Hnz]. wp_ret. iApply "HΦ". iExists c.
    rewrite bool_decide_eq_true_2 //. iSplitR; [done|]. iExists (b :: x), rest. by iFrame.
Qed.

(** [result |= (b & 0x7F) << (7 * count)] adds, as the bits do not overlap. *)
Lemma add_group result b count : 0 <= count <= 9 -> 0 <= result < 2 ^ (7 * count) -> 0 <= b ->
  Z.lor result (wrap64 (Z.shiftl b (7 * count))) = wrap64 (result + b * 2 ^ (7 * count)).
Proof using Type.
  intros Hc Hr Hb. assert (0 <= 7 * count <= 63) as Hk by lia. revert Hk Hr.
  generalize (7 * count). clear count Hc. intros k Hk Hr. assert (0 < 2 ^ k) by (apply Z.pow_pos_nonneg; lia).
  assert (2 ^ 64 = 2 ^ (64 - k) * 2 ^ k) as E by (rewrite -Z.pow_add_r; [f_equal; lia|lia..]).
  assert (0 < 2 ^ (64 - k)) by (apply Z.pow_pos_nonneg; lia).
  assert (wrap64 (Z.shiftl b k) = Z.shiftl (b mod 2 ^ (64 - k)) k) as ->.
  { rewrite !Z.shiftl_mul_pow2; [|lia..]. by rewrite /wrap E Zmult_mod_distr_r. }
  rewrite lor_shiftl; [|lia|done]. pose proof (Z.mod_pos_bound b (2 ^ (64 - k)) ltac:(lia)).
  rewrite /wrap E. apply Z.mod_unique with (q := b / 2 ^ (64 - k)).
  - assert (b mod 2 ^ (64 - k) * 2 ^ k <= (2 ^ (64 - k) - 1) * 2 ^ k) as Hle
      by (apply Z.mul_le_mono_nonneg_r; lia).
    pose proof (Z.mul_nonneg_nonneg (b mod 2 ^ (64 - k)) (2 ^ k) ltac:(lia) ltac:(lia)).
    rewrite Z.mul_sub_distr_r in Hle. lia.
  - rewrite {1}(Z.div_mod b (2 ^ (64 - k)) ltac:(lia)). ring.
Qed.

Lemma land_127 b : is_byte b -> Z.land b 127 = if b <? 128 then b else b - 128.
Proof using Type.
  intros Hb. change 127 with (Z.ones 7). rewrite Z.land_ones; [|lia]. change (2 ^ 7) with 128.
  rewrite /is_byte in Hb. destruct (Z.ltb_spec b 128); [rewrite Z.mod_small; lia|].
  symmetry. apply Z.mod_unique with (q := 1); lia.
Qed.

(** The outcome of a read: [v] and the rest of the bytes. *)
Definition ci_result {A} (c : CodedInputStream) (v : A) (bs : list Z)
    (r : option A * CodedInputStream) : hProp :=
  (∃ c', ⟪r = (Some v, c') /\ same_meta c c'⟫ ∗ ci_rep c' bs)%I.

Lemma varint64_slow_spec k count result c x rest v n :
  varint_decode k (x ++ rest) = VDone v n -> 0 <= count -> Z.of_nat k + count <= 10 ->
  0 <= result < 2 ^ (7 * count) ->
  {{ ci_at c x rest }} varint64_slow_loop k count result c
  {{ r, ci_result c (wrap64 (result + v * 2 ^ (7 * count))) (drop n (x ++ rest)) r }}.
Proof using Ho.
  revert count result c x rest v n. induction k as [|k IH];
    intros count result c x rest v n Hd Hc Hk Hr Φ; [done|].
  iIntros "H HΦ". cbn [varint64_slow_loop].
  wp_bind. iApply (wp_mem_bound _ [] (ci_at c x rest) with "H").
  { iIntros "_". iSplitL; done. }
  iIntros (fuel) "%Hfuel H". wp_bind. cbn in Hfuel. iApply (refill_spec with "H"); [lia|].
  iIntros (r) "(%c1 & [%Er %Hm] & %x1 & %rest1 & H & %Hx & %Hne)". subst r.
  destruct (decide (x ++ rest = [])) as [E|Hbs]; [by rewrite E in Hd|].
  rewrite bool_decide_eq_true_2 //. specialize (Hne Hbs). destruct x1 as [|b x1]; [done|].
  iDestruct (ci_at_bytes with "H") as "[%Hby H]". pose proof (Forall_inv Hby) as Hb.
  wp_bind. iApply (ci_fetch_spec with "H"); [rewrite zlen_cons; pose proof (zlen_nonneg x1); lia|].
  iIntros (r) "[-> H]". cbn [default head take Z.to_nat Pos.to_nat]. 
  iDestruct (ci_Advance_spec _ _ _ 1 with "H") as "H";
    [rewrite zlen_cons; pose proof (zlen_nonneg x1); lia|].
  change (default 0 (head (take (Z.to_nat 1) (b :: x1)))) with b.
  change (drop (Z.to_nat 1) (b :: x1)) with x1.
  rewrite more_byte // land_127 //. rewrite Hx /= in Hd.
  pose proof Hb as [Hb0 Hb1]. destruct (Z.ltb_spec b 128); cbn [negb].
  - simplify_eq. rewrite add_group; [|lia..]. wp_ret. iApply "HΦ". iExists _. iSplitR.
    { iPureIntro. split; [done|]. by etrans; [|apply same_meta_Advance]. }
    rewrite Hx /= drop_0. by iApply ci_at_rep.
  - destruct (varint_decode k (x1 ++ rest1)) as [v' n'| |] eqn:Hd'; [|done..]. simplify_eq.
    destruct k as [|k]; [done|].
    assert (2 ^ (7 * (count + 1)) = 128 * 2 ^ (7 * count)) as E7.
    { replace (7 * (count + 1)) with (7 + 7 * count) by lia. by rewrite Z.pow_add_r; [|lia..]. }
    assert (128 * 2 ^ (7 * count) <= 2 ^ 63) as H63.
    { rewrite -E7. apply Z.pow_le_mono_r; lia. }
    rewrite add_group; [|lia..].
    assert ((b - 128) * 2 ^ (7 * count) <= 127 * 2 ^ (7 * count)) by (apply Z.mul_le_mono_nonneg_r; lia).
    assert (0 <= (b - 128) * 2 ^ (7 * count)) by (apply Z.mul_nonneg_nonneg; lia).
    rewrite (wrap_id 64 (result + (b - 128) * 2 ^ (7 * count))); [|lia].
    iApply (IH with "H"); [done|lia|lia|rewrite E7; lia|].
    iIntros (r) "(%c2 & [%Er %Hm2] & H)". iApply "HΦ". iExists c2. iSplitR.
    + iPureIntro. split; [|by etrans; [|etrans; [apply same_meta_Advance|]]].
      rewrite Er. do 3 f_equal. rewrite E7. ring.
    + by rewrite Hx.
Qed.

(** Decoding looks at the bytes of the varint only. *)
Lemma varint_decode_app k x rest :
  varint_decode k x <> VTruncated -> varint_decode k (x ++ rest) = varint_decode k x.
Proof using Type.
  revert x. induction k as [|k IH]; intros x Hd; [done|]. destruct x as [|b x]; [done|].
  cbn [app varint_decode] in *. destruct (b <? 128); [done|].
  rewrite IH //. intros E. by rewrite E in Hd.
Qed.

Lemma varint_decode_length k bs v n : varint_decode k bs = VDone v n -> (0 < n <= length bs)%nat.
Proof using Type.
  revert bs v n. induction k as [|k IH]; intros bs v n Hd; [done|]. destruct bs as [|b bs]; [done|].
  cbn [varint_decode] in Hd. destruct (b <? 128); [simplify_eq; cbn; lia|].
  destruct (varint_decode k bs) eqn:E; [|done..]. simplify_eq. apply IH in E. cbn. lia.
Qed.

Lemma varint_decode_nonneg k bs v n : Forall is_byte bs -> varint_decode k bs = VDone v n -> 0 <= v.
Proof using Type.
  revert bs v n. induction k as [|k IH]; intros bs v n Hb Hd; [done|]. destruct bs as [|b bs]; [done|].
  cbn [varint_decode] in Hd. pose proof (Forall_inv Hb) as [? ?]. apply Forall_inv_tail in Hb.
  destruct (Z.ltb_spec b 128); [by simplify_eq|].
  destruct (varint_decode k bs) eqn:E; [|done..]. simplify_eq. apply IH in E; [lia|done].
Qed.

(** The guard of the fast paths keeps the array decoders in the window. *)
Lemma varint_in_window_decode x : Forall is_byte x -> varint_in_window x = true ->
  x <> [] /\ varint_decode kMaxVarintBytes x <> VTruncated.
Proof using Type.
  intros Hb Hg. rewrite /varint_in_window in Hg. apply orb_true_iff in Hg.
  assert (x <> []) as Hne by (intros ->; destruct Hg; done). split; [done|].
  apply array_safe_decode; [done|]. destruct Hg as [Hz|Hl]; [left; by bool_cases|right].
  destruct (last x) as [b|] eqn:E; [|done]. exists b. split; [done|].
  apply last_Some_elem_of in E. rewrite Forall_forall in Hb. rewrite more_byte in Hl; [|by apply Hb].
  rewrite negb_involutive in Hl. by apply Z.ltb_lt.
Qed.

(** An array decoder that agrees with the reference. *)
Lemma from_array_spec c x rest w v n r :
  r = array_result w (varint_decode kMaxVarintBytes x) ->
  varint_decode kMaxVarintBytes (x ++ rest) = VDone v n ->
  varint_decode kMaxVarintBytes x <> VTruncated ->
  {{ ci_at c x rest }} from_array c r {{ r, ci_result c (wrap w v) (drop n (x ++ rest)) r }}.
Proof using Type.
  iIntros (-> Hd Hx Φ) "H HΦ". rewrite varint_decode_app // in Hd. rewrite Hd. cbn [array_result from_array].
  pose proof (varint_decode_length _ _ _ _ Hd). wp_ret. iApply "HΦ". iExists _.
  iSplitR; [done|]. iDestruct (ci_Advance_spec _ _ _ (Z.of_nat n) with "H") as "H"; [rewrite /zlen; lia|].
  rewrite Nat2Z.id drop_app_le; [|lia]. by iApply ci_at_rep.
Qed.

Lemma ReadVarint64Fallback_spec c bs v n : varint_decode kMaxVarintBytes bs = VDone v n ->
  {{ ci_rep c bs }} ReadVarint64Fallback c {{ r, ci_result c (wrap64 v) (drop n bs) r }}.
Proof using Ho.
  iIntros (Hd Φ) "(%x & %rest & H & %Hbs) HΦ". subst bs. rewrite /ReadVarint64Fallback.
  iDestruct (ci_at_bytes with "H") as "[%Hb H]". wp_bind. iApply (ci_window_spec with "H").
  iIntros (r) "[-> H]". apply Forall_app in Hb as [Hb _]. destruct (varint_in_window x) eqn:E.
  - apply varint_in_window_decode in E as [_ E]; [|done].
    iApply (from_array_spec with "H HΦ"); [by apply ReadVarint64FromArray_correct|done..].
  - iApply (varint64_slow_spec with "H"); [done..|]. by rewrite Z.mul_0_r Z.pow_0_r Z.mul_1_r.
Qed.

Lemma ReadVarint64_spec c bs v n : varint_decode kMaxVarintBytes bs = VDone v n ->
  {{ ci_rep c bs }} ReadVarint64 c {{ r, ci_result c (wrap64 v) (drop n bs) r }}.
Proof using Ho.
  iIntros (Hd Φ) "(%x & %rest & H & %Hbs) HΦ". rewrite /ReadVarint64.
  iDestruct (ci_at_bytes with "H") as "[%Hb H]". wp_bind. iApply (ci_window_spec with "H").
  iIntros (r) "[-> H]".
  assert (ci_at c x rest ⊢ ci_rep c bs)%I as Hrep by (subst; apply ci_at_rep).
  destruct x as [|b x]; [rewrite Hrep; iApply (ReadVarint64Fallback_spec with "H HΦ"); done|].
  destruct (b <? 128) eqn:E; [|rewrite Hrep; iApply (ReadVarint64Fallback_spec with "H HΦ"); done].
  subst bs. cbn [app varint_decode] in Hd. change kMaxVarintBytes with 10%nat in Hd. cbn in Hd.
  rewrite E in Hd. simplify_eq. bool_cases. pose proof (Forall_inv Hb) as [? ?].
  wp_ret. iApply "HΦ". iExists _. iSplitR.
  { iPureIntro. rewrite wrap_id; [done|lia]. }
  iDestruct (ci_Advance_spec _ _ _ 1 with "H") as "H";
    [rewrite zlen_cons; pose proof (zlen_nonneg x); lia|]. by iApply ci_at_rep.
Qed.

Lemma wrap32_wrap64 v : wrap32 (wrap64 v) = wrap32 v.
Proof using Type.
  rewrite /wrap. apply Z.mod_mod_divide. exists (2 ^ 32). done.
Qed.

(** A varint in the window that takes one byte. *)
Lemma read_one_byte c b x rest : 0 <= b < 128 ->
  ci_at c (b :: x) rest ⊢ ci_rep (ci_Advance c 1) (x ++ rest).
Proof using Type.
  iIntros (Hb) "H". iDestruct (ci_Advance_spec _ _ _ 1 with "H") as "H";
    [rewrite zlen_cons; pose proof (zlen_nonneg x); lia|]. by iApply ci_at_rep.
Qed.

Lemma decode_small b bs : b < 128 -> varint_decode kMaxVarintBytes (b :: bs) = VDone b 1.
Proof using Type.
  intros Hb. change kMaxVarintBytes with 10%nat. cbn. by rewrite (proj2 (Z.ltb_lt _ _)).
Qed.

Lemma ReadVarint32_spec c bs v n : varint_decode kMaxVarintBytes bs = VDone v n ->
  {{ ci_rep c bs }} ReadVarint32 c {{ r, ci_result c (wrap32 v) (drop n bs) r }}.
Proof using Ho.
  iIntros (Hd Φ) "(%x & %rest & H & %Hbs) HΦ". subst bs. rewrite /ReadVarint32.
  iDestruct (ci_at_bytes with "H") as "[%Hb H]". wp_bind. iApply (ci_window_spec with "H").
  iIntros (r) "[-> H]". pose proof Hb as [Hbx _]%Forall_app.
  iAssert (ci_at c x rest -∗ (∀ r, ci_result c (wrap32 v) (drop n (x ++ rest)) r -∗ Φ r) -∗
           wp no_error (ReadVarint32Slow c) Φ)%I as "Hslow".
  { iIntros "H HΦ". rewrite /ReadVarint32Slow. wp_bind. rewrite ci_at_rep.
    iApply (ReadVarint64Fallback_spec with "H"); [done|]. iIntros (r) "(%c' & [%Er %Hm] & H)".
    wp_ret. iApply "HΦ". iExists c'. iFrame. iPureIntro. by rewrite Er /to_uint32 /= wrap32_wrap64. }
  rewrite /ReadVarint32Fallback. destruct x as [|b x].
  - wp_bind. iApply (ci_window_spec with "H"). iIntros (r) "[-> H]". iApply ("Hslow" with "H HΦ").
  - pose proof (Forall_inv Hb) as [Hb0 Hb1]. destruct (b <? 128) eqn:E; bool_cases.
    + cbn [app] in Hd. rewrite decode_small // in Hd. simplify_eq. wp_ret. iApply "HΦ".
      iDestruct (read_one_byte with "H") as "H"; [lia|]. iExists _. iFrame "H".
      iPureIntro. rewrite wrap_id; [done|lia].
    + wp_bind. iApply (ci_window_spec with "H"). iIntros (r) "[-> H]".
      destruct (varint_in_window (b :: x)) eqn:Ew; [|iApply ("Hslow" with "H HΦ")].
      apply varint_in_window_decode in Ew as [_ Ew]; [|done].
      wp_bind. iApply wp_assert; [by rewrite (proj2 (Z.eqb_neq _ _)); [|lia]|].
      iApply (from_array_spec with "H HΦ"); [by apply ReadVarint32FromArray_correct|done..].
Qed.

(** ** Tags

    A tag of one byte, read through any of the paths. *)
Lemma ReadTag_small_spec c b bs : 0 < b < 128 ->
  {{ ci_rep c (b :: bs) }} ReadTagWithCutoffNoLastTag c 127
  {{ r, ∃ c', ⟪r = (b, true, c') /\ same_meta c c'⟫ ∗ ci_rep c' bs }}.
Proof using Ho.
  iIntros (Hb Φ) "(%x & %rest & H & %Hbs) HΦ". rewrite /ReadTagWithCutoffNoLastTag.
  wp_bind. iApply (ci_window_spec with "H"). iIntros (r) "[-> H]". destruct x as [|b' x].
  - cbn in Hbs. subst rest. iDestruct (ci_at_size with "H") as "[[%Hs %Hu] H]".
    pose proof Hu as (H1 & H2 & H3 & H4 & H5 & H6). pose proof (zlen_nonneg bs).
    rewrite zlen_cons in H6. wp_bind. rewrite /ReadTagFallback. wp_bind.
    iApply (ci_window_spec with "H"). iIntros (r) "[-> H]". cbn [varint_in_window last].
    rewrite H2 H3 (proj2 (Z.eqb_neq (total_bytes_read_ c) _)); [|lia]. cbn [orb andb zlen length].
    rewrite andb_false_r /=. rewrite /ReadTagSlow Hs zlen_nil Z.eqb_refl. wp_bind.
    iApply (ci_Refresh_spec with "H"). iIntros (r) "(%c' & [%Er %Hm] & %x' & %rest' & H & %Hr & _)".
    subst r. cbn [bool_decide]. rewrite bool_decide_eq_true_2 // ci_at_rep -Hr.
    wp_bind. iApply (ReadVarint64_spec with "H"); [by apply decode_small; lia|].
    iIntros (r) "(%c2 & [%Er %Hm2] & H)". subst r. wp_ret. wp_ret. iApply "HΦ". iExists c2.
    rewrite (wrap_id 64 b) ?(wrap_id 32 b) ?(wrap_id 32 (b - 1)); [|lia..].
    rewrite (proj2 (Z.ltb_lt _ _)); [|lia]. iFrame. iPureIntro. split; [done|by etrans].
  - cbn in Hbs. simplify_eq. rewrite (swrap_id 8 b'); [|lia..]. rewrite (proj2 (Z.ltb_lt _ _)); [|lia].
    iDestruct (read_one_byte with "H") as "H"; [lia|].
    wp_ret. iApply "HΦ". iExists _. by iFrame.
Qed.

(** At the end of the bytes the tag is 0 and the message has ended where it
    may. *)
Lemma ReadTag_end_spec c :
  {{ ci_rep c [] }} ReadTagWithCutoffNoLastTag c 127
  {{ r, ∃ c', ⟪r = (0, false, c') /\ legitimate_message_end_ c' = true⟫ ∗ ci_rep c' [] }}.
Proof using Ho.
  iIntros (Φ) "(%x & %rest & H & %Hbs) HΦ". symmetry in Hbs. apply app_eq_nil in Hbs as [-> ->].
  rewrite /ReadTagWithCutoffNoLastTag.
  wp_bind. iApply (ci_window_spec with "H"). iIntros (r) "[-> H]".
  iDestruct (ci_at_size with "H") as "[[%Hs %Hu] H]".
  pose proof Hu as (H1 & H2 & H3 & H4 & H5 & H6). rewrite zlen_nil in H6.
  wp_bind. rewrite /ReadTagFallback. wp_bind.
  iApply (ci_window_spec with "H"). iIntros (r) "[-> H]". cbn [varint_in_window last].
  rewrite H2 H3 (proj2 (Z.eqb_neq (total_bytes_read_ c) _)); [|lia]. cbn [orb andb zlen length].
  rewrite andb_false_r /=. rewrite /ReadTagSlow Hs zlen_nil Z.eqb_refl. wp_bind.
  iApply (ci_Refresh_spec with "H"). iIntros (r) "(%c' & [%Er %Hm] & %x' & %rest' & H & %Hr & _)".
  subst r. iDestruct (ci_at_size with "H") as "[[_ %Hu'] H]".
  pose proof Hu' as (G1 & G2 & G3 & G4 & G5 & G6). pose proof (zlen_nonneg rest').
  rewrite bool_decide_eq_false_2; [|naive_solver]. wp_ret. wp_ret. iApply "HΦ". iExists _. iSplitR.
  - iPureIntro. split; [done|]. cbn. rewrite G2 G4 (proj2 (Z.leb_gt _ _)); [done|lia].
  - iExists x', rest'. iFrame. by iPureIntro.
Qed.

(** ** Strings *)
Lemma ci_cells_size c x ls : ci_cells c x ls ⊢ ⟪BufferSize c = zlen x⟫ ∗ ci_cells c x ls.
Proof using Type.
  iIntros "(%cur & H & %Hne & %Hu & %Hv & %Hwf)". iSplitR.
  - iPureIntro. by eapply window_view_size.
  - iExists cur. iFrame. by iPureIntro.
Qed.

(** The outcome of reading a string. *)
Definition ci_string (c : CodedInputStream) (v : list Z) (bs : list Z)
    (r : bool * list Z * CodedInputStream) : hProp :=
  (∃ c', ⟪r = (true, v, c') /\ same_meta c c'⟫ ∗ ci_rep c' bs)%I.

Lemma read_bytes_loop_spec fuel c x ls size acc :
  (length ls < fuel)%nat -> 0 <= size <= zlen (x ++ content ls) ->
  {{ ci_cells c x ls }} read_bytes_loop fuel c size acc
  {{ r, ci_string c (acc ++ take (Z.to_nat size) (x ++ content ls))
          (drop (Z.to_nat size) (x ++ content ls)) r }}.
Proof using Ho.
  revert c x ls size acc. induction fuel as [|fuel IH]; intros c x ls size acc Hf Hs Φ; [lia|].
  iIntros "H HΦ". iDestruct (ci_cells_size with "H") as "[%Hx H]". pose proof (zlen_nonneg x).
  cbn [read_bytes_loop]. rewrite Hx. destruct (zlen x <? size) eqn:E; bool_cases.
  - wp_bind. iApply (ci_fetch_cells with "H"); [lia|]. iIntros (r) "[-> H]".
    iDestruct (ci_Advance_cells _ _ _ (zlen x) with "H") as "H"; [lia|].
    assert (take (Z.to_nat (zlen x)) x = x) as -> by (rewrite /zlen Nat2Z.id; by apply take_ge).
    assert (drop (Z.to_nat (zlen x)) x = []) as -> by (rewrite /zlen Nat2Z.id; by apply drop_ge).
    wp_bind. iApply (ci_Refresh_cells with "H"). iIntros (r) "(%c' & [%Er %Hm] & H)". subst r.
    destruct ls as [|[l p] ls]; [rewrite /content /= app_nil_r in Hs; lia|].
    rewrite bool_decide_eq_true_2 //. iDestruct "H" as "[H _]". rewrite content_cons zlen_app in Hs |- *.
    iApply (IH with "H"); [cbn in Hf; lia|lia|]. iIntros (r) "(%c2 & [%Er %Hm2] & H)".
    assert (Z.to_nat (size - zlen x) = Z.to_nat size - length x)%nat as Hsub by (rewrite /zlen; lia).
    iApply "HΦ". iExists c2. rewrite Hsub in Er |- *.
    rewrite (take_app_ge x) ?(drop_app_ge x); [|rewrite /zlen in E; lia..]. iFrame "H".
    iPureIntro. split; [|by etrans; [|etrans; [apply Hm|]]]. by rewrite Er app_assoc.
  - wp_bind. iApply (ci_fetch_cells with "H"); [lia|]. iIntros (r) "[-> H]".
    iDestruct (ci_Advance_cells _ _ _ size with "H") as "H"; [lia|]. wp_ret. iApply "HΦ".
    iExists _. rewrite (take_app_le x) ?(drop_app_le x); [|rewrite /zlen in E; lia..]. iSplitR; [done|].
    iExists _, (content ls). iSplitL; [|done]. by iApply ci_at_close.
Qed.

Lemma InternalReadStringInline_spec c buffer bs size : 0 <= size <= zlen bs ->
  {{ ci_rep c bs }} InternalReadStringInline c buffer size
  {{ r, ci_string c (take (Z.to_nat size) bs) (drop (Z.to_nat size) bs) r }}.
Proof using Ho.
  iIntros (Hs Φ) "(%x & %rest & H & ->) HΦ". iDestruct (ci_at_open with "H") as "(%ls & H & ->)".
  iDestruct (ci_cells_size with "H") as "[%Hx H]". rewrite /InternalReadStringInline Hx.
  rewrite (proj2 (Z.ltb_ge size 0)); [|lia]. destruct (size <=? zlen x) eqn:E; bool_cases.
  - wp_bind. iApply (ci_fetch_cells with "H"); [lia|]. iIntros (r) "[-> H]".
    iDestruct (ci_Advance_cells _ _ _ size with "H") as "H"; [lia|]. wp_ret. iApply "HΦ".
    iExists _. rewrite (take_app_le x) ?(drop_app_le x); [|rewrite /zlen in E; lia..]. iSplitR; [done|].
    iExists _, (content ls). iSplitL; [|done]. by iApply ci_at_close.
  - rewrite /ReadStringFallback. wp_bind.
    iApply (wp_mem_bound _ ls.*1 (ci_cells c x ls) with "H"); [apply ci_cells_owned|].
    iIntros (k) "%Hk H". rewrite length_fmap in Hk. by iApply (read_bytes_loop_spec with "H"); [lia|..].
Qed.

(** ** Construction and destruction *)
Lemma no_empty_content ls : cells_wf ls -> no_empty ls -> [] = content ls -> ls = [].
Proof using Type.
  destruct ls as [|[l p] ls]; [done|]. intros [Hp _]%cells_wf_cons [Hn _]%Forall_cons Hc.
  rewrite content_cons in Hc. symmetry in Hc. apply app_eq_nil in Hc as [Hc _].
  pose proof (zlen_piece_bytes p Hp) as Hz. rewrite Hc zlen_nil /= in Hz, Hn. lia.
Qed.

Lemma CodedInputStream_new_spec s ls : no_empty ls -> zlen (content ls) < kint32max ->
  {{ in_rep o s ls None }} CodedInputStream_new s
  {{ c, ⟪legitimate_message_end_ c = false⟫ ∗ ci_rep c (content ls) }}.
Proof using Ho.
  iIntros (Hne Hz Φ) "H HΦ". rewrite /CodedInputStream_new. wp_bind.
  iApply (ci_Refresh_spec _ (content ls) with "[H]").
  { iExists ls, None. cbn [ci_input]. iFrame. iPureIntro. rewrite /unlimited /=.
    split_and!; try done; lia. }
  iIntros (r) "(%c & [%Er (_ & %Hl & _)] & %x & %rest & H & %Hr & _)". subst r. wp_ret.
  iApply "HΦ". iSplitR; [done|]. iExists x, rest. by iFrame.
Qed.

(** With nothing left to read there is nothing to give back. *)
Lemma CodedInputStream_destroy_end_spec c :
  {{ ci_rep c [] }} CodedInputStream_destroy c
  {{ s, ∃ cur, in_rep o s [] cur }}.
Proof using Type.
  iIntros (Φ) "(%x & %rest & H & %Hbs) HΦ". symmetry in Hbs. apply app_eq_nil in Hbs as [-> ->].
  rewrite /CodedInputStream_destroy /BackUpInputToCurrentPosition.
  iDestruct "H" as "(%ls & %cur & H & %Hne & %Hu & %Hr & %Hv & %Hwf)".
  pose proof (window_view_size _ _ _ Hv Hwf) as Hs. rewrite zlen_nil in Hs.
  destruct Hu as (-> & -> & _). rewrite Hs /=. wp_bind. wp_ret. wp_ret. iApply "HΦ". iExists cur.
  iDestruct (in_rep_wf with "H") as "[%Hw H]".
  assert (ls = []) as ->; [|by iFrame]. by apply no_empty_content.
Qed.
End reading.
