(* ===== verification/WireFormat.v ===== *)
(** * The wire format and message (de)serialization

    The parts of the vendored protobuf library between the coded streams and a
    generated message: tags, fields and unknown fields
    ([wire_format_lite.h], [wire_format_lite.cc], [wire_format.cc]) and the
    entry points the codec calls ([message_lite.cc]).

    A generated message type is an instance of [MessageLite]; [MessageLaws]
    states what the entry points rely on, and the theorems here show what they
    then do to the buffer under the streams. *)

From stdpp Require Import base tactics list numbers gmap.
From iris.proofmode Require Import proofmode.
From Stdlib Require Import ZArith Lia.
From S2P Require Import Prelude Machine HeapLogic Piece Buffer BufferSpec Streams Varint.
From S2P Require Import CodedOutput CodedInput.

(** ** Tags *)
Inductive WireType :=
  | WIRETYPE_VARINT
  | WIRETYPE_FIXED64
  | WIRETYPE_LENGTH_DELIMITED
  | WIRETYPE_START_GROUP
  | WIRETYPE_END_GROUP
  | WIRETYPE_FIXED32.

Definition wire_type_value (t : WireType) : Z :=
  match t with
  | WIRETYPE_VARINT => 0
  | WIRETYPE_FIXED64 => 1
  | WIRETYPE_LENGTH_DELIMITED => 2
  | WIRETYPE_START_GROUP => 3
  | WIRETYPE_END_GROUP => 4
  | WIRETYPE_FIXED32 => 5
  end.

Definition kTagTypeBits : Z := 3.

Definition MakeTag (field_number : Z) (t : WireType) : Z :=
  Z.lor (wrap32 (Z.shiftl field_number kTagTypeBits)) (wire_type_value t).

(** [static_cast<WireType>(tag & kTagTypeMask)]; 6 and 7 name no type. *)
Definition GetTagWireType (tag : Z) : option WireType :=
  match Z.land tag (Z.shiftl 1 kTagTypeBits - 1) with
  | 0 => Some WIRETYPE_VARINT
  | 1 => Some WIRETYPE_FIXED64
  | 2 => Some WIRETYPE_LENGTH_DELIMITED
  | 3 => Some WIRETYPE_START_GROUP
  | 4 => Some WIRETYPE_END_GROUP
  | 5 => Some WIRETYPE_FIXED32
  | _ => None
  end.

Definition GetTagFieldNumber (tag : Z) : Z := Z.shiftr tag kTagTypeBits.

(** ** Writing fields *)
Definition WriteInt64 (field_number value : Z) (c : CodedOutputStream) : M CodedOutputStream :=
  c ← co_WriteTag c (MakeTag field_number WIRETYPE_VARINT);
  WriteVarint64 c (wrap64 value).

Definition WriteStringMaybeAliased (field_number : Z) (value : list Z) (c : CodedOutputStream) :
    M CodedOutputStream :=
  c ← co_WriteTag c (MakeTag field_number WIRETYPE_LENGTH_DELIMITED);
  if kint32max <? zlen value then throw Fatal
  else
    c ← WriteVarint32 c (wrap32 (zlen value));
    WriteRawMaybeAliased c value.

(** The same into an array: the bytes stored at [target]. *)
Definition WriteInt64ToArray (field_number value : Z) : list Z :=
  WriteVarint32ToArray (MakeTag field_number WIRETYPE_VARINT) ++ WriteVarint64ToArray (wrap64 value).
Definition WriteStringToArray (field_number : Z) (value : list Z) : list Z :=
  WriteVarint32ToArray (MakeTag field_number WIRETYPE_LENGTH_DELIMITED) ++
  WriteVarint32ToArray (wrap32 (zlen value)) ++ value.

Definition Int64Size (value : Z) : Z := VarintSize64 (wrap64 value).
Definition StringSize (value : list Z) : Z := zlen value + VarintSize32 (wrap32 (zlen value)).

(** ** Reading fields *)

(** [ReadPrimitive<int64, TYPE_INT64>]; [value] is kept on failure. *)
Definition ReadInt64 (value : Z) (c : CodedInputStream) : M (bool * Z * CodedInputStream) :=
  '(r, c) ← ReadVarint64 c;
  mret (match r with Some temp => (true, int64 temp, c) | None => (false, value, c) end).

Definition ReadBytes (value : list Z) (c : CodedInputStream) : M (bool * list Z * CodedInputStream) :=
  '(r, c) ← ReadVarint32 c;
  match r with
  | Some length => InternalReadStringInline c value (int32 length)
  | None => mret (false, value, c)
  end.

(** ** Unknown fields *)
Inductive UnknownField :=
  | UVarint (number value : Z)
  | UFixed32 (number value : Z)
  | UFixed64 (number value : Z)
  | ULengthDelimited (number : Z) (data : list Z)
  | UGroup (number : Z) (fields : list UnknownField).

(** [WireFormat::SkipField] and [WireFormat::SkipMessage]: whether the field
    was well formed, and the unknown fields with what was read of it. *)
Fixpoint SkipField (fuel : nat) (c : CodedInputStream) (tag : Z) (unknown : list UnknownField) {struct fuel} :
    M (bool * list UnknownField * CodedInputStream) :=
  let number := GetTagFieldNumber tag in
  let add f r := match r with
                 | (Some v, c) => mret (true, unknown ++ [f v], c)
                 | (None, c) => mret (false, unknown, c)
                 end in
  match fuel with
  | O => throw OutOfFuel
  | S fuel =>
      if number =? 0 then mret (false, unknown, c)
      else
        match GetTagWireType tag with
        | Some WIRETYPE_VARINT => r ← ReadVarint64 c; add (UVarint number) r
        | Some WIRETYPE_FIXED64 => r ← ReadLittleEndian 8 c; add (UFixed64 number) r
        | Some WIRETYPE_LENGTH_DELIMITED =>
            '(r, c) ← ReadVarint32 c;
            match r with
            | Some length =>
                '(ok, data, c) ← ReadString c [] (int32 length);
                mret (ok, unknown ++ [ULengthDelimited number data], c)
            | None => mret (false, unknown, c)
            end
        | Some WIRETYPE_START_GROUP =>
            match IncrementRecursionDepth c with
            | (false, c) => mret (false, unknown, c)
            | (true, c) =>
                '(ok, fields, c) ← SkipMessage fuel c [];
                let unknown := unknown ++ [UGroup number fields] in
                if ok : bool then
                  let c := DecrementRecursionDepth c in
                  mret (LastTagWas c (MakeTag number WIRETYPE_END_GROUP), unknown, c)
                else mret (false, unknown, c)
            end
        | Some WIRETYPE_END_GROUP => mret (false, unknown, c)
        | Some WIRETYPE_FIXED32 => r ← ReadLittleEndian 4 c; add (UFixed32 number) r
        | None => mret (false, unknown, c)
        end
  end
with SkipMessage (fuel : nat) (c : CodedInputStream) (unknown : list UnknownField) {struct fuel} :
    M (bool * list UnknownField * CodedInputStream) :=
  match fuel with
  | O => throw OutOfFuel
  | S fuel =>
      '(tag, c) ← ReadTag c;
      if tag =? 0 then mret (true, unknown, c)
      else
        match GetTagWireType tag with
        | Some WIRETYPE_END_GROUP => mret (true, unknown, c)
        | _ =>
            '(ok, unknown, c) ← SkipField fuel c tag unknown;
            if ok : bool then SkipMessage fuel c unknown else mret (false, unknown, c)
        end
  end.

(** ** Messages

    The virtual functions of [MessageLite] the entry points call. *)
Class MessageLite (Msg : Type) := {
  Clear : Msg -> Msg;
  IsInitialized : Msg -> bool;
  ByteSizeLong : Msg -> Z;
  InternalSerializeWithCachedSizesToArray : Msg -> list Z;
  SerializeWithCachedSizes : Msg -> CodedOutputStream -> M CodedOutputStream;
  MergePartialFromCodedStream : Msg -> CodedInputStream -> M (bool * Msg * CodedInputStream)
}.

Section entry_points.
Context {Msg : Type} `{MessageLite Msg}.

Definition InlineMergeFromCodedStream (m : Msg) (c : CodedInputStream) : M (bool * Msg * CodedInputStream) :=
  '(ok, m, c) ← MergePartialFromCodedStream m c;
  mret (ok && IsInitialized m, m, c).

Definition ParseFromCodedStream (m : Msg) (c : CodedInputStream) : M (bool * Msg * CodedInputStream) :=
  InlineMergeFromCodedStream (Clear m) c.

Definition ParseFromZeroCopyStream (m : Msg) (input : BufferInputStream) : M (bool * Msg * BufferInputStream) :=
  decoder ← CodedInputStream_new input;
  '(ok, m, decoder) ← ParseFromCodedStream m decoder;
  let r := ok && ConsumedEntireMessage decoder in
  input ← CodedInputStream_destroy decoder;
  mret (r, m, input).

(** [ByteSizeConsistencyError] does not return. *)
Definition SerializePartialToCodedStream (m : Msg) (output : CodedOutputStream) : M (bool * CodedOutputStream) :=
  let size := ByteSizeLong m in
  if kint32max <? size then mret (false, output)
  else
    match GetDirectBufferForNBytesAndAdvance output size with
    | (Some buffer, output) =>
        let bytes := InternalSerializeWithCachedSizesToArray m in
        poke buffer bytes;;
        if negb (zlen bytes =? size) then throw Fatal else mret (true, output)
    | (None, output) =>
        let original_byte_count := co_ByteCount output in
        output ← SerializeWithCachedSizes m output;
        if had_error_ output then mret (false, output)
        else if negb (co_ByteCount output - original_byte_count =? size) then throw Fatal
        else mret (true, output)
    end.

Definition SerializeToCodedStream (m : Msg) (output : CodedOutputStream) : M (bool * CodedOutputStream) :=
  assert_ (IsInitialized m);;
  SerializePartialToCodedStream m output.

Definition SerializeToZeroCopyStream (m : Msg) (output : BufferOutputStream) : M (bool * BufferOutputStream) :=
  encoder ← CodedOutputStream_new output;
  '(ok, encoder) ← SerializeToCodedStream m encoder;
  encoder ← co_Trim encoder;
  mret (ok, co_output encoder).
End entry_points.

(** ** What a message type owes the entry points *)
Class MessageLaws (Msg : Type) `{MessageLite Msg} := {
  (** Messages whose fields the wire format can carry. *)
  msg_ok : Msg -> Prop;
  msg_initialized m : msg_ok m -> IsInitialized m = true;
  msg_bytes m : msg_ok m -> Forall is_byte (InternalSerializeWithCachedSizesToArray m);
  msg_size m : msg_ok m -> ByteSizeLong m = zlen (InternalSerializeWithCachedSizesToArray m);
  msg_small m : msg_ok m -> ByteSizeLong m < kint32max;
  (** Writing to a stream is writing the array's bytes. *)
  msg_serialize `{HPeak : Peak} m o c : msg_ok m -> 0 <= o ->
    appends o c (InternalSerializeWithCachedSizesToArray m) (SerializeWithCachedSizes m c);
  (** Messages of the same generated class. *)
  msg_like : Msg -> Msg -> Prop;
  (** Merging the bytes of a message into a cleared one gives it back. *)
  msg_merge `{HPeak : Peak} m m0 o c : msg_ok m -> msg_like m m0 -> 0 <= o ->
    {{ ci_rep o c (InternalSerializeWithCachedSizesToArray m) }} MergePartialFromCodedStream (Clear m0) c
    {{ r, ∃ c', ⟪r = (true, m, c') /\ legitimate_message_end_ c' = true⟫ ∗ ci_rep o c' [] }}
}.

Section specs.
Context {Msg : Type} `{MessageLaws Msg}.
Context `{HPeak : Peak} (o : Z) (Ho : 0 <= o).
Implicit Types m : Msg.

Abbreviation bytes_of := InternalSerializeWithCachedSizesToArray.

(** [flatBackUp] needs a byte to remain in the piece: either the message writes
    one, or the single piece of the buffer already holds one and is not full. *)
Definition room (n r : Z) (bs d : list Z) : Prop :=
  0 < zlen d \/ n = 1 /\ 0 < zlen bs /\ r + zlen bs < kPieceCapacity.

Lemma CodedOutputStream_new_spec b n r bs d :
  {{ bufh b n r bs ∗ pool (o + n) ∗
     ⟪zlen bs + kPieceCapacity < 2 ^ 64 /\ o + n < kMaxUsing /\ room n r bs d⟫ }}
    CodedOutputStream_new (BufferOutputStream_new b)
  {{ c, ∃ n' used, co_open c n' r bs used ∗ pool (o + n') ∗
          ⟪n' <= n + 1 /\ (0 < used \/ 0 < zlen d) /\
           aliasing_enabled_ c = false /\ had_error_ c = false⟫ }}.
Proof using Type.
  iIntros (Φ) "(Hb & Hpool & %Hz & %Hm & %Hroom) HΦ". rewrite /CodedOutputStream_new /co_Refresh /out_Next.
  wp_bind. wp_bind. wp_bind. destruct Hroom as [Hd|(-> & Hbs & Hr)].
  - iApply (out_flatNext_spec with "[$Hb $Hpool //]").
    iIntros ([w b']) "(%n' & %used & Hwin & Hpool & %Hs & %Hn)". wp_ret. wp_ret. wp_ret.
    iApply "HΦ". iExists n', used. iFrame "Hpool". iSplitL; [iExists w; by iFrame|]. iPureIntro. by eauto.
  - iApply (out_flatNext_one_spec with "[$Hb //]"). iIntros ([w b']) "[Hwin %Hs]". wp_ret. wp_ret. wp_ret.
    iApply "HΦ". iExists 1, (zlen bs). iFrame "Hpool". iSplitL; [iExists w; by iFrame|].
    iPureIntro. split_and!; try done. by left.
Qed.

Lemma SerializeToCodedStream_spec m c n r bs used : msg_ok m ->
  {{ co_open c n r bs used ∗ pool (o + n) ∗
     ⟪aliasing_enabled_ c = false /\ had_error_ c = false /\
      zlen bs + zlen (bytes_of m) + kPieceCapacity < 2 ^ 64 /\
      o + n + zlen (bytes_of m) < kMaxUsing⟫ }}
    SerializeToCodedStream m c
  {{ x, ∃ c' n' used', ⟪x = (true, c')⟫ ∗ co_open c' n' r (bs ++ bytes_of m) used' ∗ pool (o + n') ∗
       ⟪n' <= n + zlen (bytes_of m) /\ (0 < used \/ 0 < zlen (bytes_of m) -> 0 < used')⟫ }}.
Proof using Ho.
  iIntros (Hok Φ) "(Hopen & Hpool & %Ha & %He & %Hz & %Hm) HΦ".
  pose proof (msg_size m Hok) as Hsz. pose proof (msg_small m Hok) as Hsm.
  pose proof (msg_bytes m Hok) as Hby. pose proof (zlen_nonneg (bytes_of m)).
  rewrite /SerializeToCodedStream. wp_bind. iApply wp_assert; [by apply msg_initialized|].
  rewrite /SerializePartialToCodedStream Hsz (proj2 (Z.ltb_ge _ _)); [|lia].
  iDestruct (co_open_facts with "Hopen") as "[[%Hu %Hs] Hopen]".
  rewrite /GetDirectBufferForNBytesAndAdvance. destruct (buffer_size_ c <? zlen (bytes_of m)) eqn:E; bool_cases.
  - wp_bind. iApply (msg_serialize m o c Hok Ho with "[$Hopen $Hpool //]").
    iIntros (c') "(%n' & %used' & Hopen & Hpool & %Hn & %Hu' & (%Ha' & %He' & %Hc'))".
    rewrite He' He Hc'. replace (_ + _ - _) with (zlen (bytes_of m)) by lia. rewrite Z.eqb_refl /=.
    wp_ret. iApply "HΦ". iExists c', n', used'. by iFrame.
  - iDestruct "Hopen" as "(%w & %Hw & Hwin)". rewrite Hw.
    iAssert (co_open c n r bs used)%I with "[Hwin]" as "Hopen"; [iExists w; by iFrame|].
    iPoseProof (co_store_spec c n r bs used (bytes_of m) with "[$Hopen //]") as "Hst".
    rewrite /co_store Hw. wp_bind. iApply "Hst". iIntros (u) "Hopen".
    rewrite Z.eqb_refl /=. wp_ret. iApply "HΦ". iExists _, n, _. iFrame. iSplitR; [done|].
    iPureIntro. lia.
Qed.

(** Serializing to a [BufferOutputStream] appends the message's bytes. *)
Lemma SerializeToZeroCopyStream_spec m b n r bs : msg_ok m ->
  {{ bufh b n r bs ∗ pool (o + n) ∗
     ⟪zlen bs + zlen (bytes_of m) + kPieceCapacity < 2 ^ 64 /\
      o + n + 1 + zlen (bytes_of m) < kMaxUsing /\ room n r bs (bytes_of m)⟫ }}
    SerializeToZeroCopyStream m (BufferOutputStream_new b)
  {{ x, ∃ s n', ⟪x = (true, s)⟫ ∗ bufh (out_buffer s) n' r (bs ++ bytes_of m) ∗ pool (o + n') ∗
       ⟪n' <= n + 1 + zlen (bytes_of m)⟫ }}.
Proof using Ho.
  iIntros (Hok Φ) "(Hb & Hpool & %Hz & %Hm & %Hroom) HΦ". pose proof (zlen_nonneg (bytes_of m)).
  rewrite /SerializeToZeroCopyStream. wp_bind.
  iApply (CodedOutputStream_new_spec with "[$Hb $Hpool]"); [iPureIntro; split_and!; [lia|lia|done]|].
  iIntros (c) "(%n1 & %used1 & Hopen & Hpool & %Hn1 & %Hu1 & %Ha & %He)". wp_bind.
  iApply (SerializeToCodedStream_spec with "[$Hopen $Hpool]"); [done|iPureIntro; split_and!; try done; lia|].
  iIntros (x) "(%c2 & %n2 & %used2 & -> & Hopen & Hpool & %Hn2 & %Hu2)". wp_bind.
  iApply (co_Trim_spec with "[$Hopen]"); [iPureIntro; tauto|]. iIntros (c3) "Hb". wp_ret.
  iApply "HΦ". iExists _, n2. iFrame. iSplitR; [done|]. iPureIntro. lia.
Qed.

(** Parsing a buffer that holds exactly a message's bytes. *)
Lemma ParseFromZeroCopyStream_spec m m0 s ls :
  msg_ok m -> msg_like m m0 -> no_empty ls -> content ls = bytes_of m ->
  {{ in_rep o s ls None }} ParseFromZeroCopyStream m0 s
  {{ x, ∃ s' cur, ⟪x = (true, m, s')⟫ ∗ in_rep o s' [] cur }}.
Proof using Ho.
  iIntros (Hok Hlike Hne Hc Φ) "H HΦ". rewrite /ParseFromZeroCopyStream. wp_bind.
  iApply (CodedInputStream_new_spec with "H"); [done..| |].
  { rewrite Hc -msg_size //. by apply msg_small. }
  iIntros (c) "[_ H]". rewrite Hc /ParseFromCodedStream /InlineMergeFromCodedStream.
  wp_bind. wp_bind. iApply (msg_merge m m0 o c Hok Hlike Ho with "H").
  iIntros (x) "(%c' & [%Ex %Hl] & H)". subst x. wp_ret. rewrite /ConsumedEntireMessage msg_initialized // Hl. cbn [andb].
  wp_bind. iApply (CodedInputStream_destroy_end_spec with "H"). iIntros (s') "[%cur H]". wp_ret.
  iApply "HΦ". iExists s', cur. by iFrame.
Qed.
End specs.
