(* ===== verification/Echo.v ===== *)
(** * The messages of the echo example

    [Echo.Request] and [Echo.Response] as [protoc] generated them
    ([examples/echo/proto/echo.pb.cc]) and the UTF-8 check their parsers apply
    to string fields ([google/protobuf/stubs/structurally_valid.cc]).

    The two classes differ in names only, so the generated member functions are
    written once over [EchoMessage] and instantiated for both.  The instances of
    [MessageLaws] show that the generated code serializes to the size it
    announces and that parsing inverts serializing. *)

From stdpp Require Import base tactics list numbers gmap strings.
From iris.proofmode Require Import proofmode.
From Stdlib Require Import ZArith Lia.
From S2P Require Import Prelude Machine HeapLogic Piece Buffer BufferSpec Streams Varint.
From S2P Require Import CodedOutput CodedInput WireFormat Utf8.

(** [VerifyUtf8String]; its other effect is a log line.  The result does not
    depend on the address of the text ([VerifyUtf8String_utf8]), for which 0
    stands; a read outside the text, which there is not, would be [None]. *)
Definition VerifyUtf8String (bs : list Z) : bool :=
  match IsStructurallyValidUTF8 true 0 bs with Some valid => valid | None => false end.

Lemma VerifyUtf8String_utf8 bs : Forall is_byte bs -> zlen bs < 2 ^ 31 ->
  (VerifyUtf8String bs = true <-> is_utf8 bs).
Proof.
  intros Hb Hl. rewrite /VerifyUtf8String.
  by destruct (IsStructurallyValidUTF8_utf8 0 bs Hb Hl) as (b & -> & <-).
Qed.

(** ** The generated classes *)
Record Request := mkRequest {
  request_id_ : Z;
  ask_ : list Z;
  request_unknown_fields : list UnknownField
}.

Record Response := mkResponse {
  response_id_ : Z;
  answer_ : list Z;
  response_unknown_fields : list UnknownField
}.

(** A message with the fields [int64 id = 1; string text = 2;]. *)
Class EchoMessage (T : Type) := {
  mk : Z -> list Z -> list UnknownField -> T;
  echo_id : T -> Z;
  text : T -> list Z;
  unknown_fields : T -> list UnknownField;
  id_mk i t u : echo_id (mk i t u) = i;
  text_mk i t u : text (mk i t u) = t;
  unknown_mk i t u : unknown_fields (mk i t u) = u;
  mk_eta m : mk (echo_id m) (text m) (unknown_fields m) = m
}.

#[export] Instance Request_EchoMessage : EchoMessage Request := {|
  mk := mkRequest; echo_id := request_id_; text := ask_; unknown_fields := request_unknown_fields;
  id_mk _ _ _ := eq_refl; text_mk _ _ _ := eq_refl; unknown_mk _ _ _ := eq_refl;
  mk_eta m := match m with mkRequest _ _ _ => eq_refl end
|}.

#[export] Instance Response_EchoMessage : EchoMessage Response := {|
  mk := mkResponse; echo_id := response_id_; text := answer_; unknown_fields := response_unknown_fields;
  id_mk _ _ _ := eq_refl; text_mk _ _ _ := eq_refl; unknown_mk _ _ _ := eq_refl;
  mk_eta m := match m with mkResponse _ _ _ => eq_refl end
|}.

Section generated.
Context {T : Type} `{EchoMessage T}.
Implicit Types m : T.

Definition echo_Clear (_ : T) : T := mk 0 [] [].

Definition echo_IsInitialized (_ : T) : bool := true.

(** The body of the [for (;;)] of [MergePartialFromCodedStream]; each round
    reads at least one byte. *)
Fixpoint merge_loop (fuel : nat) (m : T) (input : CodedInputStream) : M (bool * T * CodedInputStream) :=
  match fuel with
  | O => throw OutOfFuel
  | S fuel =>
      '(tag, second, input) ← ReadTagWithCutoffNoLastTag input 127;
      let handle_unusual :=
        if tag =? 0 then mret (true, m, input)
        else
          '(ok, u, input) ← SkipField (S fuel) input tag (unknown_fields m);
          let m := mk (echo_id m) (text m) u in
          if ok : bool then merge_loop fuel m input else mret (false, m, input) in
      if negb second then handle_unusual
      else if GetTagFieldNumber tag =? 1 then
        if wrap8 tag =? 8 then
          '(ok, i, input) ← ReadInt64 (echo_id m) input;
          let m := mk i (text m) (unknown_fields m) in
          if ok : bool then merge_loop fuel m input else mret (false, m, input)
        else handle_unusual
      else if GetTagFieldNumber tag =? 2 then
        if wrap8 tag =? 18 then
          '(ok, t, input) ← ReadBytes (text m) input;
          let m := mk (echo_id m) t (unknown_fields m) in
          if ok && VerifyUtf8String t then merge_loop fuel m input else mret (false, m, input)
        else handle_unusual
      else handle_unusual
  end.

(** Two units of fuel for each byte still to be read, as a tag of an unknown
    group takes one for [SkipField] and one for [SkipMessage], and one round to
    see the end; AnyBytes shows that this is enough for every input. *)
Definition echo_MergePartialFromCodedStream (m : T) (input : CodedInputStream) :
    M (bool * T * CodedInputStream) :=
  merge_loop (S (2 * Z.to_nat (BufferSize input + length_ (in_buffer (ci_input input))))) m input.

(** Unknown fields are not serialized: [GetProto3PreserveUnknownsDefault()] is
    false unless the program sets it. *)
Definition echo_SerializeWithCachedSizes (m : T) (output : CodedOutputStream) : M CodedOutputStream :=
  output ← (if negb (echo_id m =? 0) then WriteInt64 1 (echo_id m) output else mret output);
  if 0 <? zlen (text m) then WriteStringMaybeAliased 2 (text m) output else mret output.

Definition echo_SerializeToArray (m : T) : list Z :=
  (if negb (echo_id m =? 0) then WriteInt64ToArray 1 (echo_id m) else []) ++
  (if 0 <? zlen (text m) then WriteStringToArray 2 (text m) else []).

Definition echo_ByteSizeLong (m : T) : Z :=
  (if 0 <? zlen (text m) then 1 + StringSize (text m) else 0) +
  (if negb (echo_id m =? 0) then 1 + Int64Size (echo_id m) else 0).

Definition echo_MergeFrom (m from : T) : T :=
  mk (if negb (echo_id from =? 0) then echo_id from else echo_id m)
     (if 0 <? zlen (text from) then text from else text m)
     (unknown_fields m ++ unknown_fields from).

Definition echo_CopyFrom (m from : T) : T := echo_MergeFrom (echo_Clear m) from.

Definition set_id (m : T) (value : Z) : T := mk value (text m) (unknown_fields m).
Definition set_text (m : T) (value : list Z) : T := mk (echo_id m) value (unknown_fields m).
Definition clear_id (m : T) : T := set_id m 0.
Definition clear_text (m : T) : T := set_text m [].

#[export] Instance echo_MessageLite : MessageLite T := {|
  Clear := echo_Clear;
  IsInitialized := echo_IsInitialized;
  ByteSizeLong := echo_ByteSizeLong;
  InternalSerializeWithCachedSizesToArray := echo_SerializeToArray;
  SerializeWithCachedSizes := echo_SerializeWithCachedSizes;
  MergePartialFromCodedStream := echo_MergePartialFromCodedStream
|}.
End generated.

(** [protoc] emits the same code once per message; the second copy. *)
Definition Response_Clear : Response -> Response := echo_Clear.
Definition Response_MergePartialFromCodedStream :
    Response -> CodedInputStream -> M (bool * Response * CodedInputStream) :=
  echo_MergePartialFromCodedStream.
Definition Response_SerializeWithCachedSizes : Response -> CodedOutputStream -> M CodedOutputStream :=
  echo_SerializeWithCachedSizes.
Definition Response_SerializeToArray : Response -> list Z := echo_SerializeToArray.
Definition Response_ByteSizeLong : Response -> Z := echo_ByteSizeLong.
Definition Response_MergeFrom : Response -> Response -> Response := echo_MergeFrom.
Definition Response_CopyFrom : Response -> Response -> Response := echo_CopyFrom.

(** ** The laws of the generated code *)
Section laws.
Context {T : Type} `{EchoMessage T}.
Implicit Types m : T.

(** [int64] and UTF-8 fields of a size protobuf can handle. *)
Definition echo_ok m : Prop :=
  - 2 ^ 63 <= echo_id m < 2 ^ 63 /\ Forall is_byte (text m) /\
  is_utf8 (text m) /\ zlen (text m) < 2 ^ 31 - 32 /\ unknown_fields m = [].

Lemma tag_id : WriteVarint32ToArray (MakeTag 1 WIRETYPE_VARINT) = [8].
Proof using Type. reflexivity. Qed.

Lemma tag_text : WriteVarint32ToArray (MakeTag 2 WIRETYPE_LENGTH_DELIMITED) = [18].
Proof using Type. reflexivity. Qed.

Lemma echo_bytes m : echo_ok m -> Forall is_byte (echo_SerializeToArray m).
Proof using Type.
  intros (_ & Ht & _). rewrite /echo_SerializeToArray. apply Forall_app. split; case_match; [|done| |done].
  - apply Forall_app; split; apply varint_loop_bytes.
  - apply Forall_app; split; [apply varint_loop_bytes|]. apply Forall_app; split; [|done].
    apply varint_loop_bytes.
Qed.

Lemma echo_size m : echo_ok m -> echo_ByteSizeLong m = zlen (echo_SerializeToArray m).
Proof using Type.
  intros (Hi & _ & _ & Ht & _). pose proof (zlen_nonneg (text m)).
  rewrite /echo_ByteSizeLong /echo_SerializeToArray /WriteInt64ToArray /WriteStringToArray tag_id tag_text.
  rewrite zlen_app Z.add_comm. f_equal; (case_match; [|done]); rewrite !zlen_app zlen_cons zlen_nil.
  - rewrite /Int64Size VarintSize64_length; [lia|]. by apply (wrap_bound 64).
  - rewrite /StringSize VarintSize32_length; [lia|]. by apply (wrap_bound 32).
Qed.

Lemma zlen_varint64_le v : zlen (WriteVarint64ToArray v) <= 10.
Proof using Type. pose proof (length_varint_le kMaxVarintBytes v). rewrite /zlen. unfold WriteVarint64ToArray, kMaxVarintBytes in *. lia. Qed.

Lemma zlen_varint32_le v : zlen (WriteVarint32ToArray v) <= 5.
Proof using Type. pose proof (length_varint_le kMaxVarint32Bytes v). rewrite /zlen. unfold WriteVarint32ToArray, kMaxVarint32Bytes in *. lia. Qed.

Lemma echo_small m : echo_ok m -> echo_ByteSizeLong m < kint32max.
Proof using Type.
  intros Hok. rewrite echo_size //. destruct Hok as (_ & _ & _ & Ht & _).
  rewrite /echo_SerializeToArray /WriteInt64ToArray /WriteStringToArray tag_id tag_text zlen_app.
  pose proof (zlen_varint64_le (wrap64 (echo_id m))). pose proof (zlen_varint32_le (wrap32 (zlen (text m)))).
  pose proof (zlen_nonneg (text m)).
  rewrite /kint32max. do 2 case_match; rewrite ?zlen_app ?zlen_cons ?zlen_nil; lia.
Qed.

Lemma echo_serialize `{HPeak : Peak} m o c : echo_ok m -> 0 <= o ->
  appends o c (echo_SerializeToArray m) (echo_SerializeWithCachedSizes m c).
Proof using Type.
  intros (_ & Ht & _ & Hz & _) Ho. rewrite /echo_SerializeWithCachedSizes /echo_SerializeToArray.
  apply appends_bind.
  - case_match; [|apply appends_ret]. apply appends_bind; [apply WriteVarint32_spec|].
    intros c'. apply WriteVarint64_spec.
  - intros c'. case_match; [|apply appends_ret]. apply appends_bind; [apply WriteVarint32_spec|].
    intros c2. rewrite (proj2 (Z.ltb_ge _ _)); [|rewrite /kint32max; lia].
    apply appends_bind; [apply WriteVarint32_spec|]. intros c3. by apply WriteRawMaybeAliased_spec.
Qed.

(** *** Parsing, field by field *)
Section merge.
Context `{HPeak : Peak} (o : Z) (Ho : 0 <= o).

Lemma ci_rep_length c bs :
  ci_rep o c bs ⊢ ⟪(BufferSize c + length_ (in_buffer (ci_input c)))%Z = zlen bs⟫ ∗ ci_rep o c bs.
Proof using Type.
  iIntros "(%x & %rest & (%ls & %cur & [(Hq & %Hwf & %Hlen & %H64) Hl] & %Hne & %Hu & %Hr & %Hv & %Hw) & %Hbs)".
  pose proof (window_view_size _ _ _ Hv Hw) as Hs. iSplitR.
  - iPureIntro. by rewrite Hbs zlen_app Hs Hlen Hr.
  - iExists x, rest. iSplitL; [|done]. iExists ls, cur. iFrame. by iPureIntro.
Qed.

Lemma merge_id fuel m c i rest Φ : - 2 ^ 63 <= i < 2 ^ 63 ->
  ci_rep o c (WriteInt64ToArray 1 i ++ rest) -∗
  (∀ c', ci_rep o c' rest -∗ wp no_error (merge_loop fuel (mk i (text m) (unknown_fields m)) c') Φ) -∗
  wp no_error (merge_loop (S fuel) m c) Φ.
Proof using Ho.
  iIntros (Hi) "H HΦ". rewrite /WriteInt64ToArray tag_id -app_assoc. cbn [app merge_loop].
  wp_bind. iApply (ReadTag_small_spec with "H"); [done|lia|]. iIntros (r) "(%c1 & [%Er _] & H)". subst r.
  change (GetTagFieldNumber 8 =? 1) with true. change (wrap8 8 =? 8) with true. cbn [negb].
  wp_bind. rewrite /ReadInt64. wp_bind.
  iApply (ReadVarint64_spec with "H"); [done|apply decode_WriteVarint64; by apply (wrap_bound 64)|].
  iIntros (r) "(%c2 & [%Er _] & H)". subst r. wp_ret. rewrite wrap_wrap swrap_wrap swrap_id; [|lia..].
  rewrite drop_app_length. by iApply "HΦ".
Qed.

Lemma merge_text fuel m c t rest Φ :
  VerifyUtf8String t = true -> zlen t < 2 ^ 31 ->
  ci_rep o c (WriteStringToArray 2 t ++ rest) -∗
  (∀ c', ci_rep o c' rest -∗ wp no_error (merge_loop fuel (mk (echo_id m) t (unknown_fields m)) c') Φ) -∗
  wp no_error (merge_loop (S fuel) m c) Φ.
Proof using Ho.
  iIntros (Hu Hz) "H HΦ". rewrite /WriteStringToArray tag_text -!app_assoc. cbn [app merge_loop].
  pose proof (zlen_nonneg t).
  wp_bind. iApply (ReadTag_small_spec with "H"); [done|lia|]. iIntros (r) "(%c1 & [%Er _] & H)". subst r.
  change (GetTagFieldNumber 18 =? 1) with false. change (GetTagFieldNumber 18 =? 2) with true.
  change (wrap8 18 =? 18) with true. cbn [negb].
  rewrite (wrap_id 32 (zlen t)); [|lia]. rewrite WriteVarint32_64; [|lia].
  wp_bind. rewrite /ReadBytes. wp_bind.
  iApply (ReadVarint32_spec with "H"); [done|apply decode_WriteVarint64; lia|].
  iIntros (r) "(%c2 & [%Er _] & H)". subst r. rewrite drop_app_length wrap_id; [|lia].
  rewrite swrap_id; [|lia..].
  iApply (InternalReadStringInline_spec with "H"); [done|rewrite zlen_app; pose proof (zlen_nonneg rest); lia|].
  iIntros (r) "(%c3 & [%Er _] & H)". subst r. rewrite /zlen Nat2Z.id take_app_length drop_app_length.
  rewrite Hu. cbn [andb]. by iApply "HΦ".
Qed.

Lemma merge_end fuel m c :
  {{ ci_rep o c [] }} merge_loop (S fuel) m c
  {{ r, ∃ c', ⟪r = (true, m, c') /\ legitimate_message_end_ c' = true⟫ ∗ ci_rep o c' [] }}.
Proof using Ho.
  iIntros (Φ) "H HΦ". cbn [merge_loop]. wp_bind. iApply (ReadTag_end_spec with "H"); [done|].
  iIntros (r) "(%c' & [%Er %Hl] & H)". subst r. cbn. wp_ret. iApply "HΦ". iExists c'. by iFrame.
Qed.
End merge.

(** The string field, if it is there, and the end. *)
Lemma merge_rest `{HPeak : Peak} fuel o c i t : 0 <= o -> VerifyUtf8String t = true -> zlen t < 2 ^ 31 ->
  {{ ci_rep o c (if 0 <? zlen t then WriteStringToArray 2 t else []) }} merge_loop (S (S fuel)) (mk i [] []) c
  {{ r, ∃ c', ⟪r = (true, mk i t [], c') /\ legitimate_message_end_ c' = true⟫ ∗ ci_rep o c' [] }}.
Proof using Type.
  iIntros (Ho Hu Hz Φ) "H HΦ". destruct (0 <? zlen t) eqn:Et; bool_cases.
  - rewrite -(app_nil_r (WriteStringToArray 2 t)).
    iApply (merge_text with "H"); [done..|]. iIntros (c') "H". rewrite id_mk unknown_mk.
    by iApply (merge_end with "H").
  - assert (t = []) as -> by (apply zlen_0; pose proof (zlen_nonneg t); lia).
    by iApply (merge_end with "H").
Qed.

Lemma fuel_two (bs : list Z) : 2 <= zlen bs -> exists k, (2 * Z.to_nat (zlen bs) = S (S k))%nat.
Proof using Type. intros Hz. exists (2 * Z.to_nat (zlen bs) - 2)%nat. lia. Qed.

Lemma echo_merge `{HPeak : Peak} m m0 o c : echo_ok m -> 0 <= o ->
  {{ ci_rep o c (echo_SerializeToArray m) }} echo_MergePartialFromCodedStream (echo_Clear m0) c
  {{ r, ∃ c', ⟪r = (true, m, c') /\ legitimate_message_end_ c' = true⟫ ∗ ci_rep o c' [] }}.
Proof using Type.
  iIntros (Hok Ho Φ) "H HΦ". iDestruct (ci_rep_length with "H") as "[%Hlen H]".
  rewrite /echo_MergePartialFromCodedStream Hlen /echo_Clear /echo_SerializeToArray.
  destruct Hok as (Hi & Hb & Hu & Hz & Hun). rewrite -(mk_eta m) Hun !id_mk !text_mk.
  apply VerifyUtf8String_utf8 in Hu; [|done|lia]. clear Hlen Hun Hb. revert Hi Hu Hz. generalize (echo_id m) (text m). intros i t Hi Hu Hz.
  destruct (negb (i =? 0)) eqn:Ei; bool_cases.
  - destruct (fuel_two (WriteInt64ToArray 1 i ++ (if 0 <? zlen t then WriteStringToArray 2 t else [])))
      as [k ->].
    { rewrite zlen_app /WriteInt64ToArray tag_id zlen_app zlen_cons zlen_nil.
      assert (1 <= zlen (WriteVarint64ToArray (wrap64 i))).
      { rewrite /WriteVarint64ToArray /kMaxVarintBytes. cbn [varint_loop]. case_match; rewrite zlen_cons;
          match goal with |- context [1 + zlen ?l] => pose proof (zlen_nonneg l) end; lia. }
      pose proof (zlen_nonneg (if 0 <? zlen t then WriteStringToArray 2 t else [])). lia. }
    iApply (merge_id with "H"); [done..|]. iIntros (c') "H". rewrite text_mk unknown_mk.
    iApply (merge_rest with "H HΦ"); [done..|lia].
  - subst i. destruct (0 <? zlen t) eqn:Et; bool_cases; cbn [app].
    + destruct (fuel_two (WriteStringToArray 2 t)) as [k ->].
      { rewrite /WriteStringToArray tag_text !zlen_app zlen_cons zlen_nil.
        pose proof (zlen_nonneg (WriteVarint32ToArray (wrap32 (zlen t)))). lia. }
      iApply (merge_rest _ _ _ _ t with "[H] HΦ"); [done..|lia|].
      by rewrite (proj2 (Z.ltb_lt _ _)).
    + assert (t = []) as -> by (apply zlen_0; pose proof (zlen_nonneg t); lia).
      by iApply (merge_end with "H").
Qed.

#[export] Instance echo_MessageLaws : MessageLaws T := {|
  msg_ok := echo_ok;
  msg_initialized _ _ := eq_refl;
  msg_bytes := echo_bytes;
  msg_size := echo_size;
  msg_small := echo_small;
  msg_serialize _ := echo_serialize;
  msg_like _ _ := True;
  msg_merge _ m m0 o c Hok _ := echo_merge m m0 o c Hok
|}.
End laws.

(** ** The names of the two types *)
Definition ascii_bytes (s : string) : list Z :=
  (λ c, Z.of_nat (Ascii.nat_of_ascii c)) <$> String.list_ascii_of_string s.

Definition request_name : list Z := Eval vm_compute in ascii_bytes "Echo.Request".
Definition response_name : list Z := Eval vm_compute in ascii_bytes "Echo.Response".

(** ** The other message types of the program

    The generated pool also holds the types of the [.proto] files that are
    compiled into the protobuf library itself ([google.protobuf.*]), as far as the
    linker keeps them.  What they are is a parameter: their messages, with the
    virtual functions, their full names, and the prototype of each type.  The
    laws say what [protoc] and the pool promise of names. *)
Class LinkedTypes := {
  Linked : Type;
  linked_MessageLite :: MessageLite Linked;
  linked_type_name : Linked -> list Z;
  linked_prototype : list Z -> option Linked;
  linked_name_bytes m : Forall is_byte (linked_type_name m);
  linked_name_small m : zlen (linked_type_name m) < 2 ^ 30;
  linked_name_no_nul m : 0 ∉ linked_type_name m;
  linked_name_fresh m : linked_type_name m <> request_name /\ linked_type_name m <> response_name;
  linked_registered m : exists p, linked_prototype (linked_type_name m) = Some p
}.

Section messages.
Context {LT : LinkedTypes}.

(** ** The messages of the program

    [google::protobuf::Message], with the virtual calls resolved. *)
Inductive AnyMessage :=
  | MRequest (r : Request)
  | MResponse (r : Response)
  | MLinked (r : Linked).

Definition map_merge {T} (wrap_msg : T -> AnyMessage) (r : M (bool * T * CodedInputStream)) :
    M (bool * AnyMessage * CodedInputStream) :=
  '(ok, m, c) ← r; mret (ok, wrap_msg m, c).

#[export] Instance AnyMessage_MessageLite : MessageLite AnyMessage := {|
  Clear m :=
    match m with
    | MRequest r => MRequest (Clear r) | MResponse r => MResponse (Clear r) | MLinked r => MLinked (Clear r)
    end;
  IsInitialized m :=
    match m with MRequest r => IsInitialized r | MResponse r => IsInitialized r | MLinked r => IsInitialized r end;
  ByteSizeLong m :=
    match m with MRequest r => ByteSizeLong r | MResponse r => ByteSizeLong r | MLinked r => ByteSizeLong r end;
  InternalSerializeWithCachedSizesToArray m :=
    match m with
    | MRequest r => InternalSerializeWithCachedSizesToArray r
    | MResponse r => InternalSerializeWithCachedSizesToArray r
    | MLinked r => InternalSerializeWithCachedSizesToArray r
    end;
  SerializeWithCachedSizes m :=
    match m with
    | MRequest r => SerializeWithCachedSizes r
    | MResponse r => SerializeWithCachedSizes r
    | MLinked r => SerializeWithCachedSizes r
    end;
  MergePartialFromCodedStream m c :=
    match m with
    | MRequest r => map_merge MRequest (MergePartialFromCodedStream r c)
    | MResponse r => map_merge MResponse (MergePartialFromCodedStream r c)
    | MLinked r => map_merge MLinked (MergePartialFromCodedStream r c)
    end
|}.

(** The messages the laws are stated for; nothing is said of the others. *)
Definition any_ok (m : AnyMessage) : Prop :=
  match m with MRequest r => msg_ok r | MResponse r => msg_ok r | MLinked _ => False end.

Definition any_like (m m0 : AnyMessage) : Prop :=
  match m, m0 with
  | MRequest _, MRequest _ | MResponse _, MResponse _ | MLinked _, MLinked _ => True
  | _, _ => False
  end.

Lemma map_merge_spec {T} (f : T -> AnyMessage) (c : CodedInputStream) (r : M (bool * T * CodedInputStream))
    (P : hProp) (m : T) (Q : CodedInputStream -> hProp) :
  {{ P }} r {{ x, ∃ c', ⟪x = (true, m, c') /\ legitimate_message_end_ c' = true⟫ ∗ Q c' }} ->
  {{ P }} map_merge f r {{ x, ∃ c', ⟪x = (true, f m, c') /\ legitimate_message_end_ c' = true⟫ ∗ Q c' }}.
Proof.
  iIntros (Hr Φ) "HP HΦ". rewrite /map_merge. wp_bind. iApply (Hr with "HP").
  iIntros (x) "(%c' & [%Ex %Hl] & HQ)". subst x. wp_ret. iApply "HΦ". iExists c'. by iFrame.
Qed.

#[export] Instance AnyMessage_MessageLaws : MessageLaws AnyMessage.
Proof.
  refine {| msg_ok := any_ok; msg_like := any_like |}.
  - by intros [].
  - intros [r|r|r]; [exact (echo_bytes r)..|done].
  - intros [r|r|r]; [exact (echo_size r)..|done].
  - intros [r|r|r]; [exact (echo_small r)..|done].
  - intros ? [r|r|r] o c; [exact (echo_serialize r o c)..|done].
  - intros ? [r|r|r] [r0|r0|r0] o c Hok Hlike Ho; try done;
      apply (map_merge_spec _ c); exact (echo_merge r r0 o c Hok Ho).
Defined.

(** ** Claims *)

(** C31. [ParseFromZeroCopyStream] over a buffer stream inverts serialization:
    whatever the pieces the serialized [Request] or [Response] is cut into, the
    parse succeeds with the message, unknown fields empty, and leaves nothing in
    the buffer. *)
Theorem echo_parse_inverts_serialize o (m m0 : AnyMessage) s ls :
  {{ in_rep o s ls None ∗
     ⟪0 <= o /\ any_ok m /\ any_like m m0 /\ no_empty ls /\
      content ls = InternalSerializeWithCachedSizesToArray m⟫ }}
    ParseFromZeroCopyStream m0 s
  {{ x, ∃ s' cur, ⟪x = (true, m, s')⟫ ∗ in_rep o s' [] cur }}.
Proof.
  iIntros (Φ) "(H & %Ho & %Hok & %Hlike & %Hne & %Hc) HΦ".
  by iApply (ParseFromZeroCopyStream_spec o Ho m m0 s ls with "H HΦ").
Qed.

(** [SerializeToZeroCopyStream] appends to the buffer exactly the
    [ByteSizeLong] bytes that [InternalSerializeWithCachedSizesToArray] stores
    into an array, whether they fit in the last piece or not, and keeps the room
    reserved in front. *)
Lemma echo_serialize_appends o (m : AnyMessage) b n r bs :
  {{ bufh b n r bs ∗ pool (o + n) ∗
     ⟪0 <= o /\ any_ok m /\
      zlen bs + zlen (InternalSerializeWithCachedSizesToArray m) + kPieceCapacity < 2 ^ 64 /\
      o + n + 1 + zlen (InternalSerializeWithCachedSizesToArray m) < kMaxUsing /\
      room n r bs (InternalSerializeWithCachedSizesToArray m)⟫ }}
    SerializeToZeroCopyStream m (BufferOutputStream_new b)
  {{ x, ∃ s n', ⟪x = (true, s) /\ ByteSizeLong m = zlen (InternalSerializeWithCachedSizesToArray m)⟫ ∗
        bufh (out_buffer s) n' r (bs ++ InternalSerializeWithCachedSizesToArray m) ∗ pool (o + n') }}.
Proof.
  iIntros (Φ) "(Hb & Hpool & %Ho & %Hok & %Hz & %Hm & %Hr) HΦ".
  iApply (SerializeToZeroCopyStream_spec o Ho m b n r bs with "[$Hb $Hpool //]"); [done|].
  iIntros (x) "(%s & %n' & -> & Hb & Hpool & _)". iApply "HΦ". iExists s, n'. iFrame. iPureIntro.
  split; [done|by apply (msg_size (Msg := AnyMessage))].
Qed.
End messages.
