(* ===== verification/AnyBytes.v ===== *)
(** * Parsing whatever bytes arrive

    The other specifications of the parser are about well-formed input.  Here
    every function of [CodedInput], [WireFormat] and of the generated parsers is
    specified for any bytes: truncated, overlong and malformed fields, unknown
    fields and groups nested to any depth.  Each of them consumes a prefix of the
    bytes and returns; the loops never run out of the fuel they are given, and no
    byte outside the stream is touched.

    [took bs c P] says that the stream [c] still holds a suffix of [bs], a proper
    one if [P]. *)

From stdpp Require Import base tactics list numbers gmap.
From iris.proofmode Require Import proofmode.
From Stdlib Require Import ZArith Lia.
From S2P Require Import Prelude Machine HeapLogic Piece Buffer BufferSpec Streams Varint.
From S2P Require Import CodedInput WireFormat Utf8 Echo.

(** ** Suffixes *)
Lemma suffix_drop {A} n (l : list A) : drop n l `suffix_of` l.
Proof. exists (take n l). by rewrite take_drop. Qed.

Lemma suffix_length_le {A} (l k : list A) : l `suffix_of` k -> (length l <= length k)%nat.
Proof. apply suffix_length. Qed.

Section any.
Context `{HPeak : Peak} (o : Z) (Ho : 0 <= o).

Definition took (bs : list Z) (c : CodedInputStream) (P : Prop) : hProp :=
  (∃ bs', ci_rep o c bs' ∗ ⟪bs' `suffix_of` bs /\ (P -> (length bs' < length bs)%nat)⟫)%I.

Lemma took_all c bs (P : Prop) : ~ P -> ci_rep o c bs ⊢ took bs c P.
Proof using Type. iIntros (HP) "H". iExists bs. iFrame. by iPureIntro. Qed.

Lemma took_drop c n bs (P : Prop) : (P -> (0 < n <= length bs)%nat) -> ci_rep o c (drop n bs) ⊢ took bs c P.
Proof using Type.
  iIntros (HP) "H". iExists _. iFrame. iPureIntro. split; [apply suffix_drop|]. rewrite length_drop. intros H%HP. lia.
Qed.

Lemma took_weaken c bs (P Q : Prop) : (Q -> P) -> took bs c P ⊢ took bs c Q.
Proof using Type. iIntros (HQ) "(%bs' & H & %Hs & %HP)". iExists bs'. iFrame. iPureIntro. auto. Qed.

Lemma took_trans c bs bs1 (P Q : Prop) :
  bs1 `suffix_of` bs -> (Q -> P \/ (length bs1 < length bs)%nat) -> took bs1 c P ⊢ took bs c Q.
Proof using Type.
  iIntros (Hs HQ) "(%bs' & H & %Hs' & %HP)". iExists bs'. iFrame. iPureIntro. split; [by etrans|].
  intros [H%HP|H]%HQ; apply suffix_length in Hs, Hs'; lia.
Qed.

(** Fields of the stream that say nothing about what is left. *)
Lemma ci_rep_set_end c bs tag e budget : ci_rep o c bs ⊢ ci_rep o (set_end c tag e budget) bs.
Proof using Type. done. Qed.

Lemma ci_rep_open c bs : ci_rep o c bs ⊢ ∃ x rest, ci_at o c x rest ∗ ⟪bs = x ++ rest⟫.
Proof using Type. done. Qed.

(** ** Varints *)

(** The slow path on input that is no varint. *)
Lemma varint64_slow_fail k count result c x rest :
  (forall v n, varint_decode k (x ++ rest) <> VDone v n) ->
  {{ ci_at o c x rest }} varint64_slow_loop k count result c
  {{ r, ∃ c', ⟪r = (None, c')⟫ ∗ took (x ++ rest) c' False }}.
Proof using Ho.
  revert count result c x rest. induction k as [|k IH]; intros count result c x rest Hd Φ; iIntros "H HΦ";
    cbn [varint64_slow_loop].
  { wp_ret. iApply "HΦ". iExists c. iSplitR; [done|]. rewrite ci_at_rep. iApply (took_all with "H"). tauto. }
  wp_bind. iApply (wp_mem_bound _ [] (ci_at o c x rest) with "H").
  { iIntros "_". iSplitL; done. }
  iIntros (fuel) "%Hfuel H". wp_bind. cbn in Hfuel. iApply (refill_spec o Ho with "H"); [lia|].
  iIntros (r) "(%c1 & [%Er _] & %x1 & %rest1 & H & %Hx & %Hne)". subst r.
  destruct (decide (x ++ rest = [])) as [E|Hbs].
  - rewrite bool_decide_eq_false_2; [|naive_solver]. wp_ret. iApply "HΦ". iExists c1. iSplitR; [done|].
    rewrite ci_at_rep -Hx. iApply (took_all with "H"). tauto.
  - rewrite bool_decide_eq_true_2 //. specialize (Hne Hbs). destruct x1 as [|b x1]; [done|].
    iDestruct (ci_at_bytes with "H") as "[%Hby H]". pose proof (Forall_inv Hby) as Hb.
    pose proof (zlen_nonneg x1). wp_bind. iApply (ci_fetch_spec with "H"); [rewrite zlen_cons; lia|].
    iIntros (r) "[-> H]". iDestruct (ci_Advance_spec _ _ _ _ 1 with "H") as "H"; [rewrite zlen_cons; lia|].
    change (default 0 (head (take (Z.to_nat 1) (b :: x1)))) with b. change (drop (Z.to_nat 1) (b :: x1)) with x1.
    rewrite more_byte //. rewrite Hx /= in Hd. destruct (b <? 128); cbn [negb]; [by destruct (Hd b 1%nat)|].
    iApply (IH with "H").
    { intros v n E. rewrite E in Hd. by eapply Hd. }
    iIntros (r) "(%c2 & -> & H)". iApply "HΦ". iExists c2. iSplitR; [done|].
    rewrite Hx. iApply (took_trans with "H"); [by exists [b]|tauto].
Qed.

Lemma ReadVarint64Fallback_fail c bs : (forall v n, varint_decode kMaxVarintBytes bs <> VDone v n) ->
  {{ ci_rep o c bs }} ReadVarint64Fallback c {{ r, ∃ c', ⟪r = (None, c')⟫ ∗ took bs c' False }}.
Proof using Ho.
  iIntros (Hd Φ) "H HΦ". iDestruct (ci_rep_open with "H") as "(%x & %rest & H & ->)".
  rewrite /ReadVarint64Fallback. iDestruct (ci_at_bytes with "H") as "[%Hb H]". wp_bind.
  iApply (ci_window_spec with "H"). iIntros (r) "[-> H]". apply Forall_app in Hb as [Hb _].
  destruct (varint_in_window x) eqn:E; [|by iApply (varint64_slow_fail with "H HΦ")].
  apply varint_in_window_decode in E as [_ E]; [|done]. rewrite ReadVarint64FromArray_correct //.
  rewrite varint_decode_app // in Hd. destruct (varint_decode _ x) as [v n| |]; [by destruct (Hd v n)|done|].
  cbn [array_result from_array]. wp_ret. iApply "HΦ". iExists c. iSplitR; [done|]. rewrite ci_at_rep.
  iApply (took_all with "H"). tauto.
Qed.

Lemma ReadVarint64Fallback_any c bs :
  {{ ci_rep o c bs }} ReadVarint64Fallback c
  {{ r, ∃ v c', ⟪r = (v, c')⟫ ∗ took bs c' (is_Some v) }}.
Proof using Ho.
  iIntros (Φ) "H HΦ". destruct (varint_decode kMaxVarintBytes bs) as [v n| |] eqn:Hd.
  { iApply (ReadVarint64Fallback_spec o Ho with "H"); [done|]. iIntros (r) "(%c' & [%Er _] & H)". iApply "HΦ".
    iExists _, c'. iSplitR; [done|]. iApply (took_drop with "H"). intros _. by eapply varint_decode_length. }
  all: iApply (ReadVarint64Fallback_fail with "H"); [by intros v n; rewrite Hd|]; iIntros (r) "(%c' & -> & H)";
    iApply "HΦ"; iExists None, c'; (iSplitR; [done|]); iApply (took_weaken with "H"); by intros [].
Qed.

Lemma ReadVarint64_any c bs :
  {{ ci_rep o c bs }} ReadVarint64 c {{ r, ∃ v c', ⟪r = (v, c')⟫ ∗ took bs c' (is_Some v) }}.
Proof using Ho.
  iIntros (Φ) "H HΦ". iDestruct (ci_rep_open with "H") as "(%x & %rest & H & ->)". rewrite /ReadVarint64.
  iDestruct (ci_at_bytes with "H") as "[%Hb H]". wp_bind. iApply (ci_window_spec with "H"). iIntros (r) "[-> H]".
  destruct x as [|b x]; [iApply (ReadVarint64Fallback_any with "[H] HΦ"); by iApply ci_at_rep|].
  destruct (b <? 128) eqn:E; [|iApply (ReadVarint64Fallback_any with "[H] HΦ"); by iApply ci_at_rep].
  bool_cases. pose proof (Forall_inv Hb) as [? _]. iDestruct (read_one_byte with "H") as "H"; [lia|].
  wp_ret. iApply "HΦ". iExists _, _. iSplitR; [done|]. iExists _. iFrame. iPureIntro. split; [by exists [b]|cbn; lia].
Qed.

(** An array decoder on a window that decides the varint. *)
Lemma from_array_any c x rest w r :
  r = array_result w (varint_decode kMaxVarintBytes x) -> varint_decode kMaxVarintBytes x <> VTruncated ->
  {{ ci_at o c x rest }} from_array c r {{ r, ∃ v c', ⟪r = (v, c')⟫ ∗ took (x ++ rest) c' (is_Some v) }}.
Proof using Type.
  iIntros (Hr Hx Φ) "H HΦ". destruct (varint_decode kMaxVarintBytes x) as [v n| |] eqn:Hd; [|done|].
  - iApply (from_array_spec _ _ _ _ w v n r with "H"); [by rewrite Hd|by rewrite varint_decode_app ?Hd|by rewrite Hd|].
    iIntros (r') "(%c' & [%Er _] & H)". iApply "HΦ". iExists _, c'. iSplitR; [done|].
    iApply (took_drop with "H"). intros _. apply varint_decode_length in Hd. rewrite length_app. lia.
  - subst r. cbn [array_result from_array]. wp_ret. iApply "HΦ". iExists None, c. iSplitR; [done|].
    rewrite ci_at_rep. iApply (took_all with "H"). by intros [].
Qed.

Lemma ReadVarint32_any c bs :
  {{ ci_rep o c bs }} ReadVarint32 c {{ r, ∃ v c', ⟪r = (v, c')⟫ ∗ took bs c' (is_Some v) }}.
Proof using Ho.
  iIntros (Φ) "H HΦ". iDestruct (ci_rep_open with "H") as "(%x & %rest & H & ->)". rewrite /ReadVarint32.
  iDestruct (ci_at_bytes with "H") as "[%Hb H]". wp_bind. iApply (ci_window_spec with "H"). iIntros (r) "[-> H]".
  iAssert (ci_at o c x rest -∗ (∀ r, (∃ v c', ⟪r = (v, c')⟫ ∗ took (x ++ rest) c' (is_Some v)) -∗ Φ r) -∗
           wp no_error (ReadVarint32Slow c) Φ)%I as "Hslow".
  { iIntros "H HΦ". rewrite /ReadVarint32Slow. wp_bind. rewrite ci_at_rep.
    iApply (ReadVarint64Fallback_any with "H"). iIntros (r) "(%v & %c' & -> & H)". wp_ret. iApply "HΦ".
    iExists _, c'. iSplitR; [done|]. iApply (took_weaken with "H"). by rewrite fmap_is_Some. }
  apply Forall_app in Hb as [Hb _]. rewrite /ReadVarint32Fallback. destruct x as [|b x].
  { wp_bind. iApply (ci_window_spec with "H"). iIntros (r) "[-> H]". iApply ("Hslow" with "H HΦ"). }
  pose proof (Forall_inv Hb) as [Hb0 _]. destruct (b <? 128) eqn:E; bool_cases.
  - iDestruct (read_one_byte with "H") as "H"; [lia|]. wp_ret. iApply "HΦ". iExists _, _. iSplitR; [done|].
    iExists _. iFrame. iPureIntro. split; [by exists [b]|cbn; lia].
  - wp_bind. iApply (ci_window_spec with "H"). iIntros (r) "[-> H]".
    destruct (varint_in_window (b :: x)) eqn:Ew; [|iApply ("Hslow" with "H HΦ")].
    apply varint_in_window_decode in Ew as [_ Ew]; [|done]. iClear "Hslow".
    wp_bind. iApply wp_assert; [by rewrite (proj2 (Z.eqb_neq _ _)); [|lia]|].
    iApply (from_array_any with "H HΦ"); [by apply ReadVarint32FromArray_correct|done].
Qed.

(** ** Tags: 0, or a tag and at least one byte less *)
Definition tag_result (bs : list Z) (tag : Z) (c : CodedInputStream) : hProp := took bs c (tag <> 0).

Lemma tag_none c bs : ci_rep o c bs ⊢ tag_result bs 0 c.
Proof using Type. iIntros "H". iApply (took_all with "H"). tauto. Qed.

Lemma tag_varint c bs (v : option Z) : took bs c (is_Some v) ⊢ tag_result bs (default 0 v) c.
Proof using Type. apply took_weaken. by destruct v. Qed.

(** [ReadTagSlow] once the window has been refilled. *)
Lemma ReadTagSlow_read c bs Φ :
  ci_rep o c bs -∗ (∀ r, (∃ tag c', ⟪r = (tag, c')⟫ ∗ tag_result bs tag c') -∗ Φ r) -∗
  wp no_error ('(r, c) ← ReadVarint64 c; mret (match r with Some v => wrap32 v | None => 0 end, c)) Φ.
Proof using Ho.
  iIntros "H HΦ". wp_bind. iApply (ReadVarint64_any with "H"). iIntros (r) "(%v & %c1 & -> & H)". wp_ret.
  iApply "HΦ". iExists _, c1. iSplitR; [done|]. iApply (took_weaken with "H"). by destruct v.
Qed.

Lemma ReadTagSlow_any c x rest :
  {{ ci_at o c x rest }} ReadTagSlow c {{ r, ∃ tag c', ⟪r = (tag, c')⟫ ∗ tag_result (x ++ rest) tag c' }}.
Proof using Ho.
  iIntros (Φ) "H HΦ". rewrite /ReadTagSlow. iDestruct (ci_at_size with "H") as "[[%Hs _] H]". wp_bind.
  destruct (BufferSize c =? 0) eqn:E; bool_cases.
  - assert (x = []) as -> by (apply zlen_0; lia). iApply (ci_Refresh_spec o Ho with "H").
    iIntros (r) "(%c' & [%Er _] & %x' & %rest' & H & %Hr & _)". subst r. rewrite ci_at_rep -Hr.
    case_bool_decide; [iApply (ReadTagSlow_read with "H HΦ")|]. wp_ret.
    iApply "HΦ". iExists _, _. iSplitR; [done|]. by iApply tag_none.
  - wp_ret. rewrite ci_at_rep. iApply (ReadTagSlow_read with "H HΦ").
Qed.

(** [first] is the first byte of the window, if that is one the fast path did not
    take. *)
Lemma ReadTagFallback_any c x rest first :
  first = default 0 (head x) -> first = 0 \/ 128 <= first ->
  {{ ci_at o c x rest }} ReadTagFallback c first
  {{ r, ∃ tag c', ⟪r = (tag, c')⟫ ∗ tag_result (x ++ rest) tag c' }}.
Proof using Ho.
  iIntros (Hf Hb Φ) "H HΦ". rewrite /ReadTagFallback. iDestruct (ci_at_bytes with "H") as "[%Hby H]".
  wp_bind. iApply (ci_window_spec with "H"). iIntros (r) "[-> H]". apply Forall_app in Hby as [Hby _].
  destruct (varint_in_window x) eqn:Ew.
  - apply varint_in_window_decode in Ew as [Hne Ew]; [|done]. destruct x as [|b x]; [done|]. cbn in Hf. subst first.
    wp_bind. iApply wp_assert; [by apply Z.eqb_eq|]. destruct (b =? 0) eqn:E0; bool_cases.
    + iDestruct (read_one_byte with "H") as "H"; [lia|]. wp_ret. iApply "HΦ". iExists _, _. iSplitR; [done|].
      iExists _. iFrame. iPureIntro. split; [by exists [b]|done].
    + wp_bind. iApply (from_array_any with "H"); [by apply ReadVarint32FromArray_correct; [|lia]|done|].
      iIntros (r) "(%v & %c' & -> & H)". wp_ret. iApply "HΦ". iExists _, c'. iSplitR; [done|]. by iApply tag_varint.
  - case_match; [|iApply (ReadTagSlow_any with "H HΦ")]. wp_ret. iApply "HΦ". iExists _, _. iSplitR; [done|].
    rewrite ci_at_rep. by iApply tag_none.
Qed.

Lemma ReadTagNoLastTag_any c bs :
  {{ ci_rep o c bs }} ReadTagNoLastTag c {{ r, ∃ tag c', ⟪r = (tag, c')⟫ ∗ tag_result bs tag c' }}.
Proof using Ho.
  iIntros (Φ) "H HΦ". iDestruct (ci_rep_open with "H") as "(%x & %rest & H & ->)". rewrite /ReadTagNoLastTag.
  iDestruct (ci_at_bytes with "H") as "[%Hb H]". wp_bind. iApply (ci_window_spec with "H"). iIntros (r) "[-> H]".
  destruct x as [|b x]; [iApply (ReadTagFallback_any with "H HΦ"); [done|by left]|]. pose proof (Forall_inv Hb) as [? _].
  destruct (b <? 128) eqn:E; bool_cases; [|iApply (ReadTagFallback_any with "H HΦ"); [done|by right]].
  iDestruct (read_one_byte with "H") as "H"; [lia|]. wp_ret. iApply "HΦ". iExists _, _. iSplitR; [done|].
  iExists _. iFrame. iPureIntro. split; [by exists [b]|cbn; lia].
Qed.

Lemma ReadTag_any c bs :
  {{ ci_rep o c bs }} ReadTag c {{ r, ∃ tag c', ⟪r = (tag, c')⟫ ∗ tag_result bs tag c' }}.
Proof using Ho.
  iIntros (Φ) "H HΦ". rewrite /ReadTag. wp_bind. iApply (ReadTagNoLastTag_any with "H").
  iIntros (r) "(%tag & %c' & -> & H)". wp_ret. iApply "HΦ". iExists _, _. iSplitR; [done|]. iExact "H".
Qed.

Lemma int8_le_0 b : is_byte b -> int8 b <= 0 -> b = 0 \/ 128 <= b.
Proof using Type.
  intros Hb. destruct (decide (b < 128)); [|lia]. rewrite swrap_id; rewrite /is_byte in Hb; lia.
Qed.

Lemma ReadTagWithCutoff_any c bs :
  {{ ci_rep o c bs }} ReadTagWithCutoffNoLastTag c 127
  {{ r, ∃ tag ok c', ⟪r = (tag, ok, c')⟫ ∗ tag_result bs tag c' }}.
Proof using Ho.
  iIntros (Φ) "H HΦ". iDestruct (ci_rep_open with "H") as "(%x & %rest & H & ->)".
  rewrite /ReadTagWithCutoffNoLastTag. iDestruct (ci_at_bytes with "H") as "[%Hb H]". wp_bind.
  iApply (ci_window_spec with "H"). iIntros (r) "[-> H]".
  iAssert (∀ first, ⟪first = default 0 (head x) /\ (first = 0 \/ 128 <= first)⟫ -∗ ci_at o c x rest -∗
    (∀ r, (∃ tag ok c', ⟪r = (tag, ok, c')⟫ ∗ tag_result (x ++ rest) tag c') -∗ Φ r) -∗
    wp no_error ('(tag, c) ← ReadTagFallback c first; mret (tag, wrap32 (tag - 1) <? 127, c)) Φ)%I as "Hslow".
  { iIntros (first [Hf Hor]) "H HΦ". wp_bind. iApply (ReadTagFallback_any with "H"); [done..|].
    iIntros (r) "(%tag & %c' & -> & H)". wp_ret. iApply "HΦ". iExists _, _, _. iSplitR; [done|]. iExact "H". }
  destruct x as [|b x]; [iApply ("Hslow" with "[] H HΦ"); iPureIntro; split; [done|by left]|].
  pose proof (Forall_inv Hb) as Hb0. destruct (0 <? int8 b) eqn:E; bool_cases.
  - assert (0 <= b < 128).
    { rewrite /is_byte in Hb0. destruct (decide (b < 128)); [lia|]. rewrite /swrap in E.
      change (2 ^ (8 - 1)) with 128 in E. change (2 ^ 8) with 256 in E. Z.div_mod_to_equations. lia. }
    iDestruct (read_one_byte with "H") as "H"; [lia|]. wp_ret. iApply "HΦ". iExists _, _, _. iSplitR; [done|].
    iExists _. iFrame. iPureIntro. split; [by exists [b]|cbn; lia].
  - apply int8_le_0 in E; [|done]. cbn [andb]. change (128 <=? 127) with false. cbn [andb].
    destruct x; iApply ("Hslow" with "[] H HΦ"); by iPureIntro.
Qed.

(** ** Strings *)
Definition read_ok (bs : list Z) (ok : bool) (v : list Z) : Prop :=
  ok = true -> Forall is_byte v /\ zlen v <= zlen bs.

Definition bytes_result (bs : list Z) (r : bool * list Z * CodedInputStream) : hProp :=
  (∃ ok v c', ⟪r = (ok, v, c') /\ read_ok bs ok v⟫ ∗ took bs c' False)%I.

Lemma bytes_failed c bs v Φ : ci_rep o c bs -∗ (∀ r, bytes_result bs r -∗ Φ r) -∗ wp no_error (mret (false, v, c)) Φ.
Proof using Type.
  iIntros "H HΦ". wp_ret. iApply "HΦ". iExists _, _, _. iSplitR; [done|]. iApply (took_all with "H"). tauto.
Qed.

Lemma bytes_trans bs bs1 r : bs1 `suffix_of` bs -> bytes_result bs1 r ⊢ bytes_result bs r.
Proof using Type.
  iIntros (Hs) "(%ok & %v & %c' & [%Er %Hok] & H)". subst r. iExists _, _, _. iSplitR.
  - iPureIntro. split; [done|]. intros H. destruct (Hok H) as [? ?]. split; [done|].
    apply suffix_length in Hs. rewrite /zlen in H1 |- *. lia.
  - iApply (took_trans with "H"); [done|tauto].
Qed.

Lemma ci_cells_bytes c x ls : ci_cells o c x ls ⊢ ⟪Forall is_byte (x ++ content ls)⟫ ∗ ci_cells o c x ls.
Proof using Type.
  iIntros "(%cur & H & %Hne & %Hu & %Hv & %Hwf)". iDestruct (in_rep_wf with "H") as "[%Hw H]". iSplitR.
  - iPureIntro. apply Forall_app. split; [|by apply content_byte].
    rewrite /window_view in Hv. destruct (ci_buffer c) as [w|], cur as [[l p]|]; try done.
    + destruct Hv as (k & _ & _ & ->). apply Forall_drop, piece_bytes_byte. eauto.
    + by subst.
  - iExists cur. iFrame. by iPureIntro.
Qed.

Lemma ci_cells_rep c x ls : ci_cells o c x ls ⊢ ci_rep o c (x ++ content ls).
Proof using Type. rewrite ci_at_close. apply ci_at_rep. Qed.

Lemma read_bytes_loop_any fuel c x ls size acc :
  (length ls < fuel)%nat -> 0 <= size -> Forall is_byte acc ->
  {{ ci_cells o c x ls }} read_bytes_loop fuel c size acc
  {{ r, ∃ ok v c', ⟪r = (ok, v, c') /\ (ok = true -> Forall is_byte v /\ zlen v <= zlen acc + zlen (x ++ content ls))⟫ ∗
        took (x ++ content ls) c' False }}.
Proof using Ho.
  revert c x ls size acc. induction fuel as [|fuel IH]; intros c x ls size acc Hf Hs Hacc Φ; [lia|].
  iIntros "H HΦ". iDestruct (ci_cells_size with "H") as "[%Hx H]". pose proof (zlen_nonneg x).
  iDestruct (ci_cells_bytes with "H") as "[%Hby H]". cbn [read_bytes_loop]. rewrite Hx. destruct (zlen x <? size) eqn:E; bool_cases.
  - wp_bind. iApply (ci_fetch_cells with "H"); [lia|]. iIntros (r) "[-> H]".
    iDestruct (ci_Advance_cells _ _ _ _ (zlen x) with "H") as "H"; [lia|].
    assert (drop (Z.to_nat (zlen x)) x = []) as -> by (rewrite /zlen Nat2Z.id; by apply drop_ge).
    wp_bind. iApply (ci_Refresh_cells o Ho with "H"). iIntros (r) "(%c' & [%Er _] & H)". subst r.
    destruct ls as [|[l p] ls].
    + rewrite bool_decide_eq_false_2; [|naive_solver]. wp_ret. iApply "HΦ". iExists _, _, _. iSplitR; [done|].
      iExists []. rewrite (ci_cells_rep c' [] []). iFrame. iPureIntro. split; [apply suffix_nil|done].
    + rewrite bool_decide_eq_true_2 //. iDestruct "H" as "[H _]". cbn in Hf.
      assert (take (Z.to_nat (zlen x)) x = x) as -> by (rewrite /zlen Nat2Z.id; by apply take_ge).
      rewrite content_cons in Hby |- *. iApply (IH with "H"); [lia..| |].
      { apply Forall_app. split; [done|]. by apply Forall_app in Hby as [? _]. }
      iIntros (r) "(%ok & %v & %c2 & [%Er %Hv] & H)". subst r. iApply "HΦ". iExists _, _, _.
      iSplitR; [iPureIntro|iApply (took_trans with "H"); [by exists x|tauto]].
      split; [done|]. intros H0. destruct (Hv H0). rewrite !zlen_app in H2 |- *. split; [done|lia].
  - wp_bind. iApply (ci_fetch_cells with "H"); [lia|]. iIntros (r) "[-> H]".
    iDestruct (ci_Advance_cells _ _ _ _ size with "H") as "H"; [lia|]. wp_ret. iApply "HΦ".
    iExists _, _, _. rewrite ci_cells_rep -drop_app_le; [|rewrite /zlen in E; lia].
    iSplitR; [iPureIntro; split; [done|]; intros _|iApply (took_drop with "H"); tauto].
    apply Forall_app in Hby as [Hbx _]. pose proof (zlen_nonneg (content ls)). rewrite Forall_app !zlen_app zlen_take; [|lia].
    split_and!; [done|by apply Forall_take|lia].
Qed.

Lemma ReadRaw_any c bs size : 0 <= size ->
  {{ ci_rep o c bs }} ReadRaw c size {{ r, bytes_result bs r }}.
Proof using Ho.
  iIntros (Hs Φ) "H HΦ". iDestruct (ci_rep_open with "H") as "(%x & %rest & H & ->)".
  iDestruct (ci_at_open with "H") as "(%ls & H & ->)". rewrite /ReadRaw. wp_bind.
  iApply (wp_mem_bound _ ls.*1 (ci_cells o c x ls) with "H"); [apply ci_cells_owned|].
  iIntros (k) "%Hk H". rewrite length_fmap in Hk. iApply (read_bytes_loop_any with "H"); [lia|done|done|].
  iIntros (r) "(%ok & %v & %c' & [%Er %Hv] & H)". subst r. iApply "HΦ". iExists _, _, _. iSplitR; [|done]. by iPureIntro.
Qed.

(** A fetch that fits in the window. *)
Lemma fetch_any c bs n : 0 <= n <= BufferSize c ->
  {{ ci_rep o c bs }} ci_fetch c n {{ r, ⟪read_ok bs true r⟫ ∗ took bs (ci_Advance c n) False }}.
Proof using Type.
  iIntros (Hn Φ) "H HΦ". iDestruct (ci_rep_open with "H") as "(%x & %rest & H & ->)".
  iDestruct (ci_at_size with "H") as "[[%Hs _] H]". rewrite Hs in Hn. iApply (ci_fetch_spec with "H"); [done|].
  iIntros (r) "[-> H]". iApply "HΦ". iDestruct (ci_at_bytes with "H") as "[%Hby H]". iSplitR.
  { iPureIntro. intros _. apply Forall_app in Hby as [Hby _]. pose proof (zlen_nonneg rest).
    rewrite zlen_take; [|lia]. rewrite zlen_app. split; [by apply Forall_take|lia]. }
  iDestruct (ci_Advance_spec with "H") as "H"; [done|].
  rewrite ci_at_rep -drop_app_le; [|rewrite /zlen in Hn; lia]. iApply (took_drop with "H"). tauto.
Qed.

Lemma InternalReadStringInline_any c bs buffer size :
  {{ ci_rep o c bs }} InternalReadStringInline c buffer size {{ r, bytes_result bs r }}.
Proof using Ho.
  iIntros (Φ) "H HΦ". rewrite /InternalReadStringInline. destruct (size <? 0) eqn:E0; bool_cases.
  { iApply (bytes_failed with "H HΦ"). }
  destruct (size <=? BufferSize c) eqn:E; bool_cases; [|by iApply (ReadRaw_any with "H HΦ")].
  wp_bind. iApply (fetch_any with "H"); [done|]. iIntros (r) "[%Hr H]". wp_ret. iApply "HΦ". iExists _, _, _. by iFrame.
Qed.

Lemma ReadString_any c bs buffer size :
  {{ ci_rep o c bs }} ReadString c buffer size {{ r, bytes_result bs r }}.
Proof using Ho.
  iIntros (Φ) "H HΦ". rewrite /ReadString. case_match; [|iApply (InternalReadStringInline_any with "H HΦ")].
  iApply (bytes_failed with "H HΦ").
Qed.

Lemma ReadLittleEndian_any n c bs : 0 <= n ->
  {{ ci_rep o c bs }} ReadLittleEndian n c {{ r, ∃ v c', ⟪r = (v, c')⟫ ∗ took bs c' False }}.
Proof using Ho.
  iIntros (Hn Φ) "H HΦ". rewrite /ReadLittleEndian. destruct (n <=? BufferSize c) eqn:E; bool_cases; wp_bind.
  - iApply (fetch_any with "H"); [done|]. iIntros (r) "[_ H]". wp_ret. iApply "HΦ". iExists _, _. by iFrame.
  - iApply (ReadRaw_any with "H"); [done|]. iIntros (r) "(%ok & %v & %c' & [%Er _] & H)". subst r. wp_ret. iApply "HΦ".
    iExists _, _. by iFrame.
Qed.

(** ** Unknown fields

    [SkipMessage] needs two units of fuel for each byte that is left: one for
    itself and one for the [SkipField] of the tag it has read. *)
Definition field_result (bs : list Z) (r : bool * list UnknownField * CodedInputStream) : hProp :=
  (∃ ok u c', ⟪r = (ok, u, c')⟫ ∗ took bs c' False)%I.

Lemma field_none c bs u Φ : ci_rep o c bs -∗ (∀ r, field_result bs r -∗ Φ r) -∗ wp no_error (mret (false, u, c)) Φ.
Proof using Type.
  iIntros "H HΦ". wp_ret. iApply "HΦ". iExists _, _, _. iSplitR; [done|]. iApply (took_all with "H"). tauto.
Qed.

Lemma field_add c bs unknown (f : Z -> UnknownField) v Φ :
  took bs c False -∗ (∀ r, field_result bs r -∗ Φ r) -∗
  wp no_error (match (v, c) with
               | (Some v, c) => mret (true, unknown ++ [f v], c)
               | (None, c) => mret (false, unknown, c)
               end) Φ.
Proof using Type. iIntros "H HΦ". destruct v; wp_ret; iApply "HΦ"; iExists _, _, _; by iFrame. Qed.

Lemma took_open bs c P : took bs c P ⊢ ∃ bs', ⟪bs' `suffix_of` bs /\ (P -> (length bs' < length bs)%nat)⟫ ∗ ci_rep o c bs'.
Proof using Type. iIntros "(%bs' & H & %)". iExists bs'. by iFrame. Qed.

Lemma Skip_any fuel :
  (forall c bs tag u, (2 * length bs + 3 <= fuel)%nat ->
     {{ ci_rep o c bs }} SkipField fuel c tag u {{ r, field_result bs r }}) /\
  (forall c bs u, (2 * length bs + 2 <= fuel)%nat ->
     {{ ci_rep o c bs }} SkipMessage fuel c u {{ r, field_result bs r }}).
Proof using Ho.
  induction fuel as [|fuel [IHf IHm]]; [split; intros; lia|]. split.
  - intros c bs tag u Hf Φ. iIntros "H HΦ". cbn [SkipField].
    destruct (GetTagFieldNumber tag =? 0); [iApply (field_none with "H HΦ")|].
    destruct (GetTagWireType tag) as [[]|]; [| | | |iApply (field_none with "H HΦ")| |iApply (field_none with "H HΦ")].
    + wp_bind. iApply (ReadVarint64_any with "H"). iIntros (r) "(%v & %c' & -> & H)".
      iApply (field_add with "[H] HΦ"). iApply (took_weaken with "H"). tauto.
    + wp_bind. iApply (ReadLittleEndian_any with "H"); [done|]. iIntros (r) "(%v & %c' & -> & H)".
      iApply (field_add with "H HΦ").
    + wp_bind. iApply (ReadVarint32_any with "H"). iIntros (r) "(%v & %c' & -> & H)".
      iDestruct (took_open with "H") as "(%bs1 & [%Hs _] & H)". destruct v as [v|]; cycle 1.
      { wp_ret. iApply "HΦ". iExists _, _, _. iSplitR; [done|]. iExists bs1. by iFrame. }
      wp_bind. iApply (ReadString_any with "H"). iIntros (r) "(%ok & %d & %c2 & [%Er _] & H)". subst r. wp_ret. iApply "HΦ".
      iExists _, _, _. iSplitR; [done|]. iApply (took_trans with "H"); [done|tauto].
    + rewrite /IncrementRecursionDepth. cbn zeta. destruct (0 <=? _); [|iApply (field_none with "[H] HΦ"); by iApply ci_rep_set_end]. wp_bind.
      iApply (IHm _ bs with "[H]"); [lia|by iApply ci_rep_set_end|].
      iIntros (r) "(%ok & %fs & %c' & -> & H)". destruct ok; wp_ret; iApply "HΦ";
        iExists _, _, _; (iSplitR; [done|]); [|done]. rewrite /DecrementRecursionDepth. by case_match.
    + wp_bind. iApply (ReadLittleEndian_any with "H"); [done|]. iIntros (r) "(%v & %c' & -> & H)".
      iApply (field_add with "H HΦ").
  - intros c bs u Hf Φ. iIntros "H HΦ". cbn [SkipMessage]. wp_bind. iApply (ReadTag_any with "H").
    iIntros (r) "(%tag & %c' & -> & H)". iDestruct (took_open with "H") as "(%bs1 & [%Hs %Hl] & H)".
    assert (took bs c' False ⊢ field_result bs (true, u, c')) as Hdone.
    { iIntros "H". iExists _, _, _. by iFrame. }
    destruct (tag =? 0) eqn:E0; bool_cases.
    { wp_ret. iApply "HΦ". iApply Hdone. iExists bs1. by iFrame. }
    specialize (Hl E0). destruct (GetTagWireType tag) as [[]|] eqn:Ew;
      try (wp_ret; iApply "HΦ"; iApply Hdone; iExists bs1; by iFrame).
    all: wp_bind; iApply (IHf with "H"); [lia|]; iIntros (r) "(%ok & %fs & %c2 & -> & H)";
      iDestruct (took_open with "H") as "(%bs2 & [%Hs2 _] & H)"; pose proof (suffix_length _ _ Hs2).
    all: assert (bs2 `suffix_of` bs) by (by etrans).
    all: destruct ok; [iApply (IHm with "H"); [lia|]; iIntros (r) "(%ok & %fs' & %c3 & -> & H)"|wp_ret];
      iApply "HΦ"; iExists _, _, _; (iSplitR; [done|]).
    all: try (iExists bs2; by iFrame).
    all: iApply (took_trans with "H"); [done|tauto].
Qed.
End any.

(** ** The generated parsers *)
Section merge_result.
Context `{HPeak : Peak} (o : Z) {Msg : Type} (V : bool -> Msg -> Prop).

(** What [MergePartialFromCodedStream] returns: [V] says what is known of the
    message. *)
Definition merge_result (bs : list Z) (r : bool * Msg * CodedInputStream) : hProp :=
  (∃ ok m c', ⟪r = (ok, m, c') /\ V ok m⟫ ∗ took o bs c' False)%I.

Lemma merge_trans bs bs1 r : bs1 `suffix_of` bs -> merge_result bs1 r ⊢ merge_result bs r.
Proof using Type.
  iIntros (Hs) "(%ok & %m & %c & %Er & H)". iExists _, _, _. iSplitR; [done|].
  iApply (took_trans with "H"); [done|tauto].
Qed.
End merge_result.

Section merge.
Context `{HPeak : Peak} (o : Z) (Ho : 0 <= o).
Context {T : Type} `{EchoMessage T}.
Implicit Types m : T.

(** The fields hold what their types allow. *)
Definition valid_message m : Prop := - 2 ^ 63 <= echo_id m < 2 ^ 63 /\ is_utf8 (text m).

Definition valid_if (ok : bool) m : Prop := ok = true -> valid_message m.
Abbreviation result := (merge_result o valid_if).

Lemma merge_stop c bs ok m Φ : valid_if ok m ->
  took o bs c False -∗ (∀ r, result bs r -∗ Φ r) -∗ wp no_error (mret (ok, m, c)) Φ.
Proof using Type. iIntros (Hm) "H HΦ". wp_ret. iApply "HΦ". iExists _, _, _. by iFrame. Qed.

Definition int64_read (ok : bool) (v : Z) : Prop := ok = true -> - 2 ^ 63 <= v < 2 ^ 63.

Lemma ReadInt64_any v c bs :
  {{ ci_rep o c bs }} ReadInt64 v c
  {{ r, ∃ ok v' c', ⟪r = (ok, v', c') /\ int64_read ok v'⟫ ∗ took o bs c' False }}.
Proof using Ho.
  iIntros (Φ) "H HΦ". rewrite /ReadInt64. wp_bind. iApply (ReadVarint64_any o Ho with "H").
  iIntros (r) "(%x & %c' & -> & H)". wp_ret. iApply "HΦ". rewrite (took_weaken _ _ _ _ False); [|tauto].
  destruct x as [x|]; iExists _, _, _; iFrame; iPureIntro; (split; [done|]); intros [=].
  by apply (swrap_bound 64).
Qed.

Lemma ReadBytes_any v c bs : {{ ci_rep o c bs }} ReadBytes v c {{ r, bytes_result o bs r }}.
Proof using Ho.
  iIntros (Φ) "H HΦ". rewrite /ReadBytes. wp_bind. iApply (ReadVarint32_any o Ho with "H").
  iIntros (r) "(%x & %c' & -> & H)". iDestruct (took_open with "H") as "(%bs1 & [%Hs _] & H)". destruct x as [n|].
  - iApply (InternalReadStringInline_any o Ho with "H"). iIntros (r) "H". iApply "HΦ".
    by iApply (bytes_trans with "H").
  - wp_ret. iApply "HΦ". iExists _, _, _. iSplitR; [done|]. iExists bs1. by iFrame.
Qed.

Lemma valid_mk i t u : - 2 ^ 63 <= i < 2 ^ 63 -> is_utf8 t -> valid_message (mk i t u).
Proof using Type. intros Hi Ht. rewrite /valid_message id_mk text_mk. done. Qed.

Lemma merge_loop_any fuel m c bs : (2 * length bs + 1 <= fuel)%nat -> zlen bs < 2 ^ 31 -> valid_message m ->
  {{ ci_rep o c bs }} merge_loop fuel m c {{ r, result bs r }}.
Proof using Ho.
  revert m c bs. induction fuel as [|fuel IH]; intros m c bs Hf Hz [Hi Ht] Φ; [lia|]. iIntros "H HΦ". cbn [merge_loop].
  wp_bind. iApply (ReadTagWithCutoff_any o Ho with "H"). iIntros (r) "(%tag & %second & %c1 & -> & H)".
  iDestruct (took_open with "H") as "(%bs1 & [%Hs %Hl] & H)".
  iAssert (∀ m c2, took o bs1 c2 False -∗ ⟪tag <> 0 /\ valid_message m⟫ -∗ (∀ r, result bs r -∗ Φ r) -∗
    wp no_error (merge_loop fuel m c2) Φ)%I as "Hloop".
  { iIntros (m2 c2) "H [%Htag %Hm] HΦ". iDestruct (took_open with "H") as "(%bs2 & [%Hs2 _] & H)".
    specialize (Hl Htag). pose proof (suffix_length _ _ Hs2). iApply (IH with "H"); [lia|rewrite /zlen in Hz |- *; lia|done|]. iIntros (r) "H".
    iApply "HΦ". iApply (merge_trans with "H"). by etrans. }
  assert (forall c2, took o bs1 c2 False ⊢ took o bs c2 False) as Hup by (intros; apply took_trans; [done|tauto]).
  set (unusual := if tag =? 0 then _ else _).
  iAssert (ci_rep o c1 bs1 -∗ (∀ r, result bs r -∗ Φ r) -∗ wp no_error unusual Φ)%I as "Hun".
  { iIntros "H HΦ". rewrite /unusual. destruct (tag =? 0) eqn:E0; bool_cases.
    - iApply (merge_stop with "[H] HΦ"); [by split|]. iApply Hup. iExists bs1. by iFrame.
    - wp_bind. iApply (proj1 (Skip_any o Ho _) with "H"); [specialize (Hl E0); lia|].
      iIntros (r) "(%ok & %u & %c2 & -> & H)". destruct ok; [iApply ("Hloop" with "H [] HΦ")|].
      + iPureIntro. split; [done|]. by apply valid_mk.
      + iApply (merge_stop with "[H] HΦ"); [done|]. by iApply Hup. }
  clearbody unusual. destruct second; cbn [negb]; [|iClear "Hloop"; iApply ("Hun" with "H HΦ")].
  destruct (GetTagFieldNumber tag =? 1) eqn:E1; bool_cases.
  - assert (tag <> 0) by (intros ->; done).
    destruct (wrap8 tag =? 8); [|iClear "Hloop"; iApply ("Hun" with "H HΦ")]. iClear "Hun". wp_bind.
    iApply (ReadInt64_any with "H"). iIntros (r) "(%ok & %v & %c2 & [%Er %Hv] & H)". subst r. destruct ok.
    + iApply ("Hloop" with "H [] HΦ"). iPureIntro. split; [done|]. apply valid_mk; [by apply Hv|done].
    + iApply (merge_stop with "[H] HΦ"); [done|]. by iApply Hup.
  - destruct (GetTagFieldNumber tag =? 2) eqn:E2; bool_cases; [|iClear "Hloop"; iApply ("Hun" with "H HΦ")].
    assert (tag <> 0) by (intros ->; done).
    destruct (wrap8 tag =? 18); [|iClear "Hloop"; iApply ("Hun" with "H HΦ")]. iClear "Hun". wp_bind.
    iApply (ReadBytes_any with "H"). iIntros (r) "(%ok & %v & %c2 & [%Er %Hv] & H)". subst r.
    destruct (ok && VerifyUtf8String v) eqn:Ev.
    + apply andb_true_iff in Ev as [-> Ev]. iApply ("Hloop" with "H [] HΦ"). iPureIntro. split; [done|].
      destruct (Hv eq_refl) as [Hb Hzv]. apply suffix_length in Hs. apply valid_mk; [done|].
      apply VerifyUtf8String_utf8 in Ev; [done|done|]. rewrite /zlen in Hz, Hzv |- *. lia.
    + iApply (merge_stop with "[H] HΦ"); [done|]. by iApply Hup.
Qed.

Lemma echo_merge_any m c bs : zlen bs < 2 ^ 31 ->
  {{ ci_rep o c bs }} echo_MergePartialFromCodedStream (echo_Clear m) c {{ r, result bs r }}.
Proof using Ho.
  iIntros (Hz Φ) "H HΦ". iDestruct (ci_rep_length with "H") as "[%Hlen H]".
  rewrite /echo_MergePartialFromCodedStream Hlen {1}/zlen Nat2Z.id.
  iApply (merge_loop_any with "H HΦ"); [lia|done|]. apply valid_mk; [done|]. by apply is_utf8_ascii.
Qed.
End merge.

(** ** Giving back what was not read

    [BackUp] puts the rest of the window in front of the buffer.  When the
    buffer holds no other piece its [tail_] stays null (see
    [Streams.input_stream_back_up_last_piece]): the buffer is [headless]. *)
Section back_up.
Context `{HPeak : Peak} (o : Z) (Ho : 0 <= o) (ndebug : bool).

Definition headless (s : BufferInputStream) (bs : list Z) : hProp :=
  (∃ l p, ⟪in_buffer s = mkBuffer (mkQueue (Some l) None 1) (zlen bs) /\ drop_ s = None /\
           piece_wf p /\ piece_bytes p = bs⟫ ∗ l ↦ set_next p None ∗ pool (o + 1))%I.

(** The stream after a parse: what is left is [bs]. *)
Definition given_back (s : BufferInputStream) (bs : list Z) : hProp :=
  ((∃ ls cur, in_rep o s ls cur ∗ ⟪content ls = bs⟫) ∨ headless s bs)%I.

(** In a Debug build, and only there, [assert(len < drop->len)] can fail. *)
Definition only_assert (e : Error) : Prop := e = AssertionFailed /\ ndebug = false.

Lemma in_BackUp_any s ls l p count Φ : 0 < count <= p_len p -> zlen (content ls) + count < 2 ^ 64 ->
  in_rep o s ls (Some (l, p)) -∗
  (∀ s', given_back s' (drop (Z.to_nat (p_len p - count)) (piece_bytes p) ++ content ls) -∗ Φ s') -∗
  wp_build ndebug only_assert (in_BackUp s count) Φ.
Proof using Type.
  iIntros (Hcount Hz64) "[(Hq & %Hwf & %Hlen & %H64) ((%Hd & %Hp) & (%nx & Hl) & Hpool)] HΦ".
  pose proof Hp as (_ & _ & ? & ? & ?). rewrite /in_BackUp /in_flatBackUp Hd.
  pose proof kPieceCapacity_eq. rewrite (wrap_id 64 count); [|lia].
  set (p' := advance p (p_len p - count)).
  assert (set_len (set_off p (p_off p + (p_len p - count))) count = p') as Ha by (rewrite /p' /advance; f_equal; lia).
  assert (0 <= p_len p - count <= p_len p) as Hr by lia.
  pose proof (advance_wf p _ Hp Hr) as Hw. fold p' in Hw. pose proof (zlen_piece_bytes _ Hw) as Hzb.
  assert (p_len p' = count) as Hal by (rewrite -Ha /= wrap16_capacity; lia).
  pose proof (zlen_nonneg (content ls)). pose proof (advance_bytes p _ Hp Hr) as Hab. fold p' in Hab.
  iApply wp_build_bind. iApply wp_build_any. iApply wp_assert; [done|].
  iApply wp_build_bind. iApply wp_build_bind. iApply wp_build_any. iApply wp_assert; [done|].
  iApply wp_build_bind. iApply wp_build_any. iApply wp_deref.
  iApply wp_build_bind. iApply wp_build_any. wp_load "Hl". cbn [p_len p_off set_next].
  iApply wp_build_bind. iApply wp_build_assert; [by intros|].
  iApply wp_build_bind. iApply wp_build_any. wp_store "Hl". iApply wp_build_any. wp_ret.
  iApply wp_build_any. wp_ret. iApply "HΦ". rewrite -Hab /given_back. iDestruct "Hq" as "(Hs & %Ht & %Hsz)".
  destruct ls as [|lp ls].
  - iRight. iDestruct "Hs" as "%Hh". iExists l, p'. rewrite Hh Ht Hsz app_nil_r Hzb Hal -Ha zlen_nil Z.add_0_r.
    iFrame "Hl". iFrame "Hpool". iPureIntro. cbn [in_buffer drop_]. rewrite Hlen zlen_nil Z.add_0_l Ha (wrap_id 64); [|lia].
    by split_and!.
  - iLeft. iExists ((l, p') :: lp :: ls), None. iSplitL; [|by rewrite content_cons].
    rewrite /in_rep /= (zlen_cons (l, p')) (Z.add_comm 1) Z.add_assoc. iFrame "Hpool". iSplitL; [|done].
    rewrite /buf_rep content_cons zlen_app Hzb Hal cells_wf_cons. cbn [b_queue length_]. iSplitL; [|iPureIntro].
    + iSplitL; [|iSplit; iPureIntro].
      * iSplitR; [done|]. iExists (head_ (b_queue (in_buffer s))). iFrame "Hs". by rewrite -Ha.
      * cbn [tail_]. by rewrite Ht.
      * cbn [size_]. rewrite Hsz wrap_add_l (zlen_cons (l, p')). f_equal. lia.
    + rewrite Hlen wrap_id; [|lia]. split_and!; try done; lia.
Qed.

Lemma CodedInputStream_destroy_any c bs Φ :
  ci_rep o c bs -∗ (∀ s, given_back s bs -∗ Φ s) -∗ wp_build ndebug only_assert (CodedInputStream_destroy c) Φ.
Proof using Type.
  iIntros "H HΦ". iDestruct (ci_rep_open with "H") as "(%x & %rest & H & ->)".
  rewrite /CodedInputStream_destroy /BackUpInputToCurrentPosition.
  iDestruct "H" as "(%ls & %cur & H & %Hne & %Hu & %Hr & %Hv & %Hwf)". subst rest.
  pose proof (window_view_size _ _ _ Hv Hwf) as Hs. destruct Hu as (-> & -> & _ & _ & ? & Hu).
  rewrite Hs !Z.add_0_r. iApply wp_build_bind. destruct (0 <? zlen x) eqn:E; bool_cases.
  - rewrite /window_view in Hv. destruct (ci_buffer c) as [w|], cur as [[l p]|]; try done; [|by subst x; rewrite zlen_nil in E].
    destruct Hv as (k & -> & Hk & Hx). specialize (Hwf l p eq_refl). pose proof (zlen_piece_bytes p Hwf) as Hz.
    assert (zlen x = p_len p - k) as Hzx by (rewrite Hx zlen_drop; lia). rewrite Hzx in E |- *.
    pose proof Hwf as (_ & _ & ? & ? & ?). pose proof kPieceCapacity_eq.
    iApply wp_build_bind. iApply (in_BackUp_any with "H"); [lia| |].
    { rewrite /kint32max in Hu. lia. }
    iIntros (s') "H". do 2 (iApply wp_build_any; wp_ret). iApply "HΦ". cbn [ci_input set_buffer].
    by replace (p_len p - (p_len p - k)) with k by lia; rewrite -Hx.
  - assert (x = []) as -> by (apply zlen_0; pose proof (zlen_nonneg x); lia).
    do 2 (iApply wp_build_any; wp_ret). iApply "HΦ". iLeft. iExists ls, cur. by iFrame.
Qed.
End back_up.

(** ** Claims *)
Section claims.
Context `{HPeak : Peak} {T : Type} `{EchoMessage T}.

Lemma parse_any_spec {Msg} `{MessageLite Msg} (V : bool -> Msg -> Prop) o ndebug (m0 : Msg) s ls Φ :
  (forall c bs, zlen bs < 2 ^ 31 ->
     {{ ci_rep o c bs }} MergePartialFromCodedStream (Clear m0) c {{ r, merge_result o V bs r }}) ->
  0 <= o -> no_empty ls -> zlen (content ls) < kint32max ->
  in_rep o s ls None -∗
  (∀ ok0 ok m s' rest, ⟪V ok0 m /\ (ok = true -> ok0 = true) /\ rest `suffix_of` content ls⟫ -∗ given_back o s' rest -∗
     Φ (ok, m, s')) -∗
  wp_build ndebug (only_assert ndebug) (ParseFromZeroCopyStream m0 s) Φ.
Proof using Type.
  iIntros (Hmerge Ho Hne Hz) "H HΦ". rewrite /ParseFromZeroCopyStream. iApply wp_build_bind. iApply wp_build_any.
  iApply (CodedInputStream_new_spec o Ho with "H"); [done..|]. iIntros (c) "[_ H]".
  iApply wp_build_bind. iApply wp_build_any. rewrite /ParseFromCodedStream /InlineMergeFromCodedStream. wp_bind.
  iApply (Hmerge with "H"); [rewrite /kint32max in Hz; lia|].
  iIntros (r) "(%ok & %m & %c' & [%Er %Hm] & H)". subst r. wp_ret.
  iDestruct (took_open with "H") as "(%bs & [%Hs _] & H)". iApply wp_build_bind.
  iApply (CodedInputStream_destroy_any with "H"). iIntros (s') "H". iApply wp_build_any. wp_ret.
  iApply ("HΦ" with "[] H"). iPureIntro. split_and!; [done| |done]. by intros [[Hok _]%andb_true_iff _]%andb_true_iff.
Qed.

Lemma echo_parse_any o ndebug (m0 : T) s ls Φ : 0 <= o -> no_empty ls -> zlen (content ls) < kint32max ->
  in_rep o s ls None -∗
  (∀ ok m s' rest, ⟪(ok = true -> valid_message m) /\ rest `suffix_of` content ls⟫ -∗ given_back o s' rest -∗
     Φ (ok, m, s')) -∗
  wp_build ndebug (only_assert ndebug) (ParseFromZeroCopyStream m0 s) Φ.
Proof using Type.
  iIntros (Ho Hne Hz) "H HΦ". iApply (parse_any_spec valid_if with "H"); [|done..|].
  { intros c bs Hb. by apply echo_merge_any. }
  iIntros (ok0 ok m s' rest) "(%HV & %Hok & %Hs)". iApply "HΦ". iPureIntro. split; [|done]. intros E. by apply HV, Hok.
Qed.

End claims.

(** ** Runs *)

(** A request parsed from a buffer that was written with [d]. *)
Definition parse_request (d : list Z) : M (bool * Z * list Z) :=
  b ← write Buffer_new d;
  '(ok, m, _) ← ParseFromZeroCopyStream (mk 0 [] [] : Request) (BufferInputStream_new b);
  mret (ok, echo_id m, text m).

(** Two START_GROUP tags: neither group is closed, and the parse fails. *)
Lemma parse_open_groups ndebug :
  value (parse_request [11; 11] (init_mem (λ _ _, 0) ndebug)) = inl (false, 0, []).
Proof. destruct ndebug; vm_compute; reflexivity. Qed.

(** A first tag of more than ten bytes: nothing is read, so that the whole
    piece is backed up, which [assert(drop->len > len)] does not expect. *)
Lemma parse_nothing_asserts :
  value (parse_request (replicate 11 255) (init_mem (λ _ _, 0) false)) = inr AssertionFailed /\
  value (parse_request (replicate 11 255) (init_mem (λ _ _, 0) true)) = inl (false, 0, []).
Proof. split; vm_compute; reflexivity. Qed.

Lemma written `{HPeak : Peak} fill ndebug d : Forall is_byte d -> 0 < zlen d < kPieceCapacity -> zlen d < kMaxUsing ->
  exists b ls mem, write Buffer_new d (init_mem fill ndebug) = Ok b mem /\ no_empty ls /\ content ls = d /\
    owns mem (in_rep 0 (BufferInputStream_new b) ls None ∗ emp)%I.
Proof.
  intros Hd Hz Hmax. pose proof kPieceCapacity_eq.
  destruct (owns_run (write Buffer_new d) (pool 0)
    (λ b, ∃ n, ⟪kPieceCapacity * (n - 0) <= kPieceCapacity + zlen d⟫ ∗ buf b n d ∗ pool n)%I
    (init_mem fill ndebug)) as (b & mem & E & Hown).
  - apply init_owns.
  - iIntros "Hp". iApply (write_refines 0 Buffer_new 0 [] d with "[Hp]").
    + iSplitR; [iApply Buffer_new_spec|]. iFrame "Hp". iPureIntro. rewrite zlen_nil. split_and!; [done|lia|lia].
    + iIntros (b) "(%n & Hb & Hp & %Hn)". iExists n. by iFrame.
  - apply owns_exist in Hown as [n [Hn Hown]%owns_pure].
    apply (owns_mono _ _ (∃ ls, ⟪zlen ls = n /\ content ls = d /\ cells_wf ls⟫ ∗
      in_rep 0 (BufferInputStream_new b) ls None ∗ emp)%I) in Hown.
    + apply owns_exist in Hown as [ls [(Hl & Hc & Hwf) Hown]%owns_pure]. exists b, ls, mem. split_and!; try done.
      destruct ls as [|[l p] [|lp ls]]; [by constructor| |rewrite !zlen_cons in Hl; pose proof (zlen_nonneg ls); lia].
      constructor; [|constructor]. apply cells_wf_cons in Hwf as [Hp _]. rewrite -(zlen_piece_bytes p Hp).
      rewrite content_cons app_nil_r in Hc. rewrite Hc. lia.
    + iIntros "[(%ls & Hb & %H1 & %H2) Hp]". iDestruct (buf_rep_facts with "Hb") as "[(%Hw & _) Hb]".
      iExists ls. iSplitR; [done|]. rewrite /in_rep /= H1. by iFrame.
Qed.

