(* ===== verification/Codec.v ===== *)
(** * The protobuf codec

    [netpp/net/protobuf/codec.h] and [codec.cpp]: messages framed as

      [int32 len | int32 nameLen | typeName \0 | protobuf bytes]

    with [len] counting what follows it.  [fillEmptyBuffer] builds a frame,
    [onMessage] takes frames off the input buffer and hands messages to
    [messageCallback_] and faults to [errorCallback_].  The callbacks get no
    access to the loop's state (the message callback does not see the buffer,
    the loop ends after the error callback), so the model records their calls
    as a list of events.

    The descriptor pool and the message factory of protobuf are the interface
    [Registry]. *)

From stdpp Require Import base tactics list numbers gmap strings.
From iris.proofmode Require Import proofmode.
From Stdlib Require Import ZArith Lia.
From S2P Require Import Prelude Machine HeapLogic Piece Buffer BufferSpec Streams Varint.
From S2P Require Import CodedOutput CodedInput WireFormat Echo.

(** ** Constants *)
Inductive ErrorCode :=
  | kNoError
  | kInvalidLength
  | kInvalidNameLen
  | kUnknownMessageType
  | kParseError.

#[export] Instance ErrorCode_eq_dec : EqDecision ErrorCode.
Proof. solve_decision. Defined.

Definition kNoErrorStr : string := "NoError".
Definition kInvalidLengthStr : string := "InvalidLength".
Definition kInvalidNameLenStr : string := "InvalidNameLen".
Definition kUnknownMessageTypeStr : string := "UnknownMessageType".
Definition kParseErrorStr : string := "ParseError".

Definition errorCodeToString (errorCode : ErrorCode) : string :=
  match errorCode with
  | kNoError => kNoErrorStr
  | kInvalidLength => kInvalidLengthStr
  | kInvalidNameLen => kInvalidNameLenStr
  | kUnknownMessageType => kUnknownMessageTypeStr
  | kParseError => kParseErrorStr
  end.

Definition kHeaderLen : Z := 4.
Definition kMinMessageLen : Z := 2 * kHeaderLen + 2.
Definition kMaxMessageLen : Z := 64 * 1024 * 1024.

(** [asInt32], which nothing calls: [htons] of the 32-bit word. *)
Definition asInt32 (buf : list Z) : Z :=
  let be32 := int32 (of_le (take 4 buf)) in htons be32.

(** ** The descriptor pool and the generated factory *)
Class Registry (Msg : Type) := {
  Descriptor : Type;
  GetDescriptor : Msg -> Descriptor;
  GetTypeName : Msg -> list Z;
  FindMessageTypeByName : list Z -> option Descriptor;
  GetPrototype : Descriptor -> option Msg;
  New : Msg -> Msg
}.

Inductive codec_event (Msg : Type) :=
  | Deliver (message : Msg)
  | Report (errorCode : ErrorCode).
Arguments Deliver {_} _.
Arguments Report {_} _.

Section codec.
Context {Msg : Type} `{MessageLite Msg} `{Registry Msg}.

Definition createMessage (type_name : list Z) : option Msg :=
  descriptor ← FindMessageTypeByName type_name;
  prototype ← GetPrototype descriptor;
  Some (New prototype).

(** The bytes of [typeName.c_str()], terminator included. *)
Definition c_str (s : list Z) : list Z := s ++ [0].

Definition fillEmptyBuffer (buf : Buffer) (message : Msg) : M Buffer :=
  let typeName := GetTypeName message in
  let nameLen := int32 (zlen typeName + 1) in
  buf ← reservedPrepend buf 4;
  buf ← writeInt32 buf nameLen;
  buf ← write buf (take (Z.to_nat nameLen) (c_str typeName));
  '(_, output) ← SerializeToZeroCopyStream message (BufferOutputStream_new buf);
  let buf := out_buffer output in
  prependInt32 buf (int32 (length_ buf)).

(** [parse]; [len] is not used. *)
Definition parse (buf : Buffer) (len : Z) (error : ErrorCode) : M (option Msg * ErrorCode * Buffer) :=
  '(nameLen, buf) ← readInt32 buf;
  if 0 <? nameLen then
    if size_t nameLen <=? length_ buf then
      '(typeName, buf) ← read_string buf nameLen;
      match createMessage typeName with
      | Some message =>
          '(_, message, input) ← ParseFromZeroCopyStream message (BufferInputStream_new buf);
          buf ← in_destroy input;
          mret (Some message, error, buf)
      | None => mret (None, kUnknownMessageType, buf)
      end
    else mret (None, kParseError, buf)
  else mret (None, kInvalidNameLen, buf).

(** [onMessage]; every round that goes on removes bytes from the buffer. *)
Fixpoint onMessage_loop (fuel : nat) (buf : Buffer) : M (list (codec_event Msg) * Buffer) :=
  match fuel with
  | O => throw OutOfFuel
  | S fuel =>
      if kMinMessageLen + kHeaderLen <=? length_ buf then
        len ← peekInt32 buf;
        if (kMaxMessageLen <? len) || (len <? kMinMessageLen) then
          mret ([Report kInvalidLength], buf)
        else if len + kHeaderLen <=? length_ buf then
          buf ← skip buf kHeaderLen;
          '(message, errorCode, buf) ← parse buf len kNoError;
          match message with
          | Some message =>
              if bool_decide (errorCode = kNoError) then
                '(events, buf) ← onMessage_loop fuel buf;
                mret (Deliver message :: events, buf)
              else mret ([Report errorCode], buf)
          | None => mret ([Report errorCode], buf)
          end
        else mret ([], buf)
      else mret ([], buf)
  end.

Definition onMessage (buf : Buffer) : M (list (codec_event Msg) * Buffer) :=
  onMessage_loop (S (Z.to_nat (length_ buf))) buf.

(** ** The format *)
Definition body (m : Msg) : list Z :=
  be_bytes 4 (zlen (GetTypeName m) + 1) ++ c_str (GetTypeName m) ++
  InternalSerializeWithCachedSizesToArray m.

Definition frame (m : Msg) : list Z := be_bytes 4 (zlen (body m)) ++ body m.
End codec.

(** What the codec relies on in the registry: names are C strings of bytes, and
    looking up a name with its terminator finds the type. *)
Class RegistryLaws (Msg : Type) `{MessageLaws Msg} `{Registry Msg} := {
  name_bytes m : Forall is_byte (GetTypeName m);
  name_small m : zlen (GetTypeName m) < 2 ^ 30;
  find_by_name m : FindMessageTypeByName (c_str (GetTypeName m)) = Some (GetDescriptor m);
  find_prototype m : exists p, GetPrototype (GetDescriptor m) = Some p /\ msg_like m (New p)
}.

(** ** Buffers without empty pieces

    What the connection's input buffer is: [writePiece] only adds pieces that
    hold bytes, and reading keeps it so. *)
Definition bufp (b : Buffer) (n : Z) (bs : list Z) : hProp :=
  (∃ ls, buf_rep b ls ∗ ⟪zlen ls = n /\ content ls = bs /\ no_empty ls⟫)%I.

Lemma no_empty_drop left ls : cells_wf ls -> 0 <= left -> no_empty ls -> no_empty (cells_drop left ls).
Proof.
  intros Hwf Hl Hne. revert left Hl Hwf. induction Hne as [|[l p] ls Hp Hne IH]; intros left Hl Hwf; [constructor|].
  apply cells_wf_cons in Hwf as [Hpw Hwf]. pose proof Hpw as (_ & _ & ? & ? & ?). cbn in Hp |- *.
  destruct (left <=? p_len p) eqn:E1; [destruct (left <? p_len p) eqn:E2|]; bool_cases.
  - constructor; [|done]. cbn. rewrite wrap16_capacity; lia.
  - done.
  - apply IH; [lia|done].
Qed.

Section packed.
Context `{HPeak : Peak} (o : Z) (Ho : 0 <= o).

Lemma read_rep_spec b ls len : 0 < len <= zlen (content ls) ->
  {{ buf_rep b ls ∗ pool (o + zlen ls) }} read b len
  {{ r, ∃ b', ⟪r = (take (Z.to_nat len) (content ls), b')⟫ ∗ buf_rep b' (cells_drop len ls) ∗
              pool (o + zlen (cells_drop len ls)) }}.
Proof using Type* Ho.
  iIntros (Hl Φ) "((Hq & %Hwf & %Hlen & %H64) & Hpool) HΦ". rewrite /read.
  wp_bind. iApply wp_assert; [lia|]. wp_bind. iApply wp_assert; [lia|].
  wp_bind. iApply (wp_mem_bound _ ls.*1 with "Hq"); [apply queue_rep_owned|].
  iIntros (k) "%Hk Hq". rewrite length_fmap in Hk. wp_bind.
  iApply (read_loop_spec o Ho with "[$Hq $Hpool]"); [lia| |lia|done|].
  { intros ->. rewrite /content /zlen /= in Hl. lia. }
  iIntros (r) "(%q' & -> & Hq & Hpool)". wp_ret. iApply "HΦ". iExists _. iFrame "Hpool".
  iSplitR; [done|]. rewrite /buf_rep /= cells_drop_content //; [|lia]. iFrame. iPureIntro.
  rewrite zlen_drop; [|lia]. rewrite Hlen wrap_id; [|lia]. split_and!; try done; [|lia].
  apply cells_drop_wf; [done|lia].
Qed.

Lemma skip_packed b n bs len : 0 < len <= zlen bs ->
  {{ bufp b n bs ∗ pool (o + n) }} skip b len
  {{ b', ∃ n', bufp b' n' (drop (Z.to_nat len) bs) ∗ pool (o + n') }}.
Proof using Type* Ho.
  iIntros (Hl Φ) "[(%ls & Hb & %Hn & %Hbs & %Hne) Hpool] HΦ". subst n bs.
  iDestruct (buf_rep_facts with "Hb") as "[(%Hwf & %Hlen & %H64) Hb]".
  iApply (skip_rep_spec o Ho with "[$Hb $Hpool]"); [lia|intros ->; rewrite /content /zlen /= in Hl; lia|].
  iIntros (b') "[Hb Hpool]". iApply "HΦ". iExists _. iFrame "Hpool". iExists _. iFrame. iPureIntro.
  split_and!; [done|apply cells_drop_content; [done|lia]|apply no_empty_drop; [done|lia|done]].
Qed.

Lemma read_packed b n bs len : 0 < len <= zlen bs ->
  {{ bufp b n bs ∗ pool (o + n) }} read b len
  {{ r, ∃ b' n', ⟪r = (take (Z.to_nat len) bs, b')⟫ ∗ bufp b' n' (drop (Z.to_nat len) bs) ∗ pool (o + n') }}.
Proof using Type* Ho.
  iIntros (Hl Φ) "[(%ls & Hb & %Hn & %Hbs & %Hne) Hpool] HΦ". subst n bs.
  iDestruct (buf_rep_facts with "Hb") as "[(%Hwf & %Hlen & %H64) Hb]".
  iApply (read_rep_spec with "[$Hb $Hpool]"); [lia|].
  iIntros (r) "(%b' & -> & Hb & Hpool)". iApply "HΦ". iExists b', _. iFrame "Hpool". iSplitR; [done|].
  iExists _. iFrame. iPureIntro.
  split_and!; [done|apply cells_drop_content; [done|lia]|apply no_empty_drop; [done|lia|done]].
Qed.

Lemma bufp_facts b n bs :
  bufp b n bs ⊢ ⟪length_ b = zlen bs /\ zlen bs < 2 ^ 64 /\ Forall is_byte bs /\ 0 <= n⟫ ∗ bufp b n bs.
Proof using Type.
  iIntros "(%ls & Hb & %Hn & %Hbs & %Hne)".
  iDestruct (buf_rep_facts with "Hb") as "[(%Hwf & %Hlen & %H64) Hb]". subst n bs. iSplitR.
  - iPureIntro. split_and!; [done|done|by apply content_byte|apply zlen_nonneg].
  - iExists ls. by iFrame.
Qed.

Lemma readInt32_packed b n bs : 4 <= zlen bs ->
  {{ bufp b n bs ∗ pool (o + n) }} readInt32 b
  {{ r, ∃ b' n', ⟪r = (int32 (be_value (take 4 bs)), b')⟫ ∗ bufp b' n' (drop 4 bs) ∗ pool (o + n') }}.
Proof using Type* Ho.
  iIntros (Hl Φ) "[Hb Hpool] HΦ". iDestruct (bufp_facts with "Hb") as "[(_ & _ & %Hby & _) Hb]".
  rewrite /readInt32. wp_bind. iApply (read_packed with "[$Hb $Hpool]"); [lia|].
  iIntros (r) "(%b' & %n' & -> & Hb & Hpool)". wp_ret. iApply "HΦ". iExists b', n'. iFrame.
  iPureIntro. change (Z.to_nat 4) with 4%nat. rewrite ntohl_of_le //; [by apply length_take_Z|].
  by apply Forall_take.
Qed.
End packed.

(** ** Building a frame *)

(** A write that fits in the only piece. *)
Lemma write_one_spec b r bs d : Forall is_byte d -> zlen d <= kPieceCapacity - r - zlen bs ->
  r + zlen bs < kPieceCapacity ->
  {{ bufh b 1 r bs }} write b d {{ b', bufh b' 1 r (bs ++ d) }}.
Proof.
  iIntros (Hd Hfit Hroom Φ) "(%ls & (Hq & %Hwf & %Hlen & %H64) & %Hn & %Hr & %Hbs) HΦ".
  destruct ls as [|[l p] [|? ls]];
    [done| |rewrite !zlen_cons in Hn; pose proof (zlen_nonneg ls); lia].
  pose proof Hwf as [Hp _]%cells_wf_cons. pose proof Hp as (_ & _ & ? & ? & ?).
  cbn in Hr. pose proof (zlen_piece_bytes p Hp) as Hz. pose proof (zlen_nonneg d).
  rewrite content_cons app_nil_r in Hbs. subst r bs. rewrite Hz in Hroom, Hfit.
  rewrite /write /ensure_room.
  iDestruct (queue_rep_last _ _ _ [] with "Hq") as "(%Hbk & Hl & Hq)".
  rewrite Hbk. wp_bind. wp_bind. wp_bind. wp_load "Hl". wp_ret. cbn [p_off p_len set_next].
  rewrite (proj2 (Z.eqb_neq _ _)); [|lia]. wp_ret. wp_bind. cbn [write_loop]. rewrite Hbk.
  wp_bind. iApply wp_deref. wp_bind. wp_load "Hl". cbn [p_off p_len set_next].
  rewrite (proj2 (Z.leb_le _ _)); [|lia]. iApply M_bind_assoc. wp_bind.
  iApply (wp_fill with "Hl"); [done|lia|]. iIntros "Hl". wp_ret. wp_ret. iApply "HΦ".
  iDestruct ("Hq" $! (fill p d) with "Hl") as "Hq".
  assert (piece_wf (fill p d)) by (apply fill_wf; [done|done|lia]).
  assert (piece_bytes (fill p d) = piece_bytes p ++ d) as Hfb by (apply fill_bytes; [done|lia]).
  iExists [(l, fill p d)]. rewrite /buf_rep /= content_cons app_nil_r Hfb zlen_app Hz. iFrame "Hq". iPureIntro.
  rewrite content_cons app_nil_r Hz in Hlen. rewrite kPieceCapacity_eq in Hfit. rewrite Hlen wrap_id; [|lia].
  split_and!; try done; [|lia]. apply cells_wf_cons. split; [done|constructor].
Qed.

Section specs.
Context {Msg : Type} `{RegistryLaws Msg}.
Context `{HPeak : Peak} (o : Z) (Ho : 0 <= o).
Implicit Types m : Msg.

Abbreviation bytes_of := InternalSerializeWithCachedSizesToArray.

(** The header of the body: name length, name, terminator. *)
Definition header m : list Z := be_bytes 4 (zlen (GetTypeName m) + 1) ++ c_str (GetTypeName m).

Lemma zlen_c_str m : zlen (c_str (GetTypeName m)) = zlen (GetTypeName m) + 1.
Proof using Type. rewrite /c_str zlen_app zlen_cons zlen_nil. lia. Qed.

Lemma zlen_header m : zlen (header m) = zlen (GetTypeName m) + 5.
Proof using Type. rewrite /header zlen_app zlen_be_bytes zlen_c_str. lia. Qed.

Lemma body_header m : body m = header m ++ bytes_of m.
Proof using Type. by rewrite /body /header app_assoc. Qed.

Lemma zlen_body m : zlen (body m) = zlen (GetTypeName m) + 5 + zlen (bytes_of m).
Proof using Type. by rewrite body_header zlen_app zlen_header. Qed.

Lemma c_str_bytes m : Forall is_byte (c_str (GetTypeName m)).
Proof using Type*.
  apply Forall_app. split; [apply name_bytes|]. constructor; [|constructor]. rewrite /is_byte. lia.
Qed.

(** The two writes before the message. *)
Lemma header_spec m b :
  {{ bufh b 1 4 [] ∗ pool (o + 1) ∗
     ⟪(0 < zlen (bytes_of m) \/ 4 + zlen (header m) < kPieceCapacity) /\
      o + zlen (header m) + 4 < kMaxUsing⟫ }}
    b ← write b (be_bytes 4 (zlen (GetTypeName m) + 1));
    write b (c_str (GetTypeName m))
  {{ b', ∃ n, bufh b' n 4 (header m) ∗ pool (o + n) ∗
         ⟪n <= 3 + zlen (header m) /\ room n 4 (header m) (bytes_of m)⟫ }}.
Proof using Type*.
  iIntros (Φ) "(Hb & Hpool & %Hor & %Hm) HΦ". pose proof (c_str_bytes m) as Hby.
  pose proof (zlen_nonneg (GetTypeName m)). pose proof (name_small m). pose proof kPieceCapacity_eq as Hcap.
  pose proof (zlen_header m) as Hh. pose proof (zlen_c_str m) as Hc.
  destruct (decide (4 + zlen (header m) < kPieceCapacity)) as [Hfit|Hbig].
  - wp_bind. iApply (write_one_spec with "Hb"); [apply be_bytes_byte|rewrite zlen_be_bytes zlen_nil; lia|rewrite zlen_nil; lia|].
    iIntros (b1) "Hb". rewrite app_nil_l.
    iApply (write_one_spec with "Hb"); [done|rewrite zlen_be_bytes; lia|rewrite zlen_be_bytes; lia|].
    iIntros (b2) "Hb". iApply "HΦ". iExists 1. iFrame "Hpool". iFrame "Hb". iPureIntro.
    split; [lia|right; lia].
  - wp_bind. iApply (write_headroom with "[$Hb $Hpool]").
    { iPureIntro. rewrite zlen_be_bytes zlen_nil. split_and!; [apply be_bytes_byte|lia..]. }
    iIntros (b1) "(%n1 & Hb & Hpool & %Hn1)". rewrite app_nil_l zlen_be_bytes in Hn1 |- *.
    iApply (write_headroom with "[$Hb $Hpool]").
    { iPureIntro. rewrite zlen_be_bytes. split_and!; [done|lia..]. }
    iIntros (b2) "(%n2 & Hb & Hpool & %Hn2)". iApply "HΦ". iExists n2. iFrame. iPureIntro.
    split; [lia|left; lia].
Qed.

Lemma fillEmptyBuffer_spec m b : msg_ok m ->
  {{ buf b 0 [] ∗ pool o ∗
     ⟪(0 < zlen (bytes_of m) \/ 4 + zlen (header m) < kPieceCapacity) /\
      zlen (body m) < 2 ^ 31 /\ o + zlen (body m) + 8 < kMaxUsing⟫ }}
    fillEmptyBuffer b m
  {{ b', ∃ n, buf b' n (frame m) ∗ pool (o + n) }}.
Proof using Type* Ho.
  iIntros (Hok Φ) "(Hb & Hpool & %Hor & %Hsz & %Hm) HΦ". rewrite /fillEmptyBuffer.
  pose proof (zlen_body m) as Hbd. pose proof (zlen_header m) as Hh. pose proof kPieceCapacity_eq as Hcap.
  pose proof (zlen_nonneg (GetTypeName m)). pose proof (name_small m). pose proof (zlen_nonneg (bytes_of m)).
  rewrite swrap_id; [|lia..].
  assert (take (Z.to_nat (zlen (GetTypeName m) + 1)) (c_str (GetTypeName m)) = c_str (GetTypeName m)) as ->.
  { apply take_ge. pose proof (zlen_c_str m) as Hc. rewrite /zlen in Hc |- *. lia. }
  wp_bind. iApply (reservedPrepend_spec with "[$Hb $Hpool]"); [iPureIntro; lia|]. iIntros (b1) "[Hb Hpool]".
  rewrite writeInt32_bytes. iApply M_bind_assoc. wp_bind.
  iApply (header_spec with "[$Hb $Hpool]"); [iPureIntro; split; [done|lia]|].
  iIntros (b2) "(%n2 & Hb & Hpool & %Hn2 & %Hroom)". wp_bind.
  iApply (SerializeToZeroCopyStream_spec with "[$Hb $Hpool]"); [done|done|iPureIntro; split_and!; [lia|lia|done]|].
  iIntros (x) "(%s & %n3 & -> & Hb & Hpool & %Hn3)". rewrite -body_header.
  iAssert (⟪length_ (out_buffer s) = zlen (body m)⟫ ∗ bufh (out_buffer s) n3 4 (body m))%I with "[Hb]" as "[%Hlen Hb]".
  { iDestruct "Hb" as "(%ls & Hb & %E1 & %E2 & %E3)".
    iDestruct (buf_rep_facts with "Hb") as "[(_ & %Hlen & _) Hb]". iSplitR; [by rewrite Hlen E3|].
    iExists ls. by iFrame. }
  rewrite Hlen prependInt32_bytes swrap_id; [|lia..].
  iApply (prepend_spec with "[$Hb]").
  { iPureIntro. rewrite zlen_be_bytes. split_and!; [apply be_bytes_byte|lia..]. }
  iIntros (b3) "Hb". iApply "HΦ". iExists n3. iFrame "Hpool". rewrite buf_bufh. by iExists _.
Qed.
End specs.
