(* ===== verification/CodecSpec.v ===== *)
(** * What the codec guarantees

    The frame that [fillEmptyBuffer] builds, what [onMessage] does with a
    complete frame and with everything it rejects, and what it does when two
    frames are in the buffer.  The theorems are over any message type with its
    laws; the messages of [echo.proto] are the instance. *)

From stdpp Require Import base tactics list numbers gmap strings.
From iris.proofmode Require Import proofmode.
From Stdlib Require Import ZArith Lia.
From S2P Require Import Prelude Machine HeapLogic Piece Buffer BufferSpec Streams Varint.
From S2P Require Import CodedOutput CodedInput WireFormat Utf8 Echo Codec.

(** ** The messages of [echo.proto] as a registry *)

(** The bytes up to the first terminator. *)
Fixpoint until_nul (s : list Z) : list Z :=
  match s with
  | [] => []
  | c :: s => if c =? 0 then [] else c :: until_nul s
  end.

Lemma until_nul_c_str s : 0 ∉ s -> until_nul (c_str s) = s.
Proof.
  unfold c_str. induction s as [|c s IH]; [done|]. intros [Hc Hs]%not_elem_of_cons. cbn.
  rewrite (proj2 (Z.eqb_neq c 0)); [|done]. by rewrite IH.
Qed.

Section registry.
Context {LT : LinkedTypes}.

(** The prototype of a type, by its full name. *)
Definition prototype (name : list Z) : option AnyMessage :=
  if bool_decide (name = request_name) then Some (MRequest (mk 0 [] []))
  else if bool_decide (name = response_name) then Some (MResponse (mk 0 [] []))
  else MLinked <$> linked_prototype name.

(** A descriptor is known by the full name of its type, which is unique in the
    pool; lookups compare C strings. *)
#[export] Instance Echo_Registry : Registry AnyMessage := {|
  Descriptor := list Z;
  GetDescriptor m :=
    match m with MRequest _ => request_name | MResponse _ => response_name | MLinked r => linked_type_name r end;
  GetTypeName m :=
    match m with MRequest _ => request_name | MResponse _ => response_name | MLinked r => linked_type_name r end;
  FindMessageTypeByName name :=
    match prototype (until_nul name) with Some _ => Some (until_nul name) | None => None end;
  GetPrototype d := prototype d;
  New m := Clear m
|}.

Lemma prototype_of_name m : exists p, prototype (GetTypeName m) = Some p /\ msg_like m (New p).
Proof.
  destruct m as [r|r|r]; [by eexists|by eexists|]. rewrite /prototype /=.
  destruct (linked_name_fresh r) as [H1 H2]. rewrite !bool_decide_false //.
  destruct (linked_registered r) as [p ->]. by eexists.
Qed.

#[export] Instance Echo_RegistryLaws : RegistryLaws AnyMessage.
Proof.
  split.
  - intros [?|?|r]; [repeat constructor; vm_compute; done..|apply linked_name_bytes].
  - intros [?|?|r]; [done..|apply linked_name_small].
  - intros m. cbn [FindMessageTypeByName Echo_Registry]. rewrite until_nul_c_str.
    + by destruct (prototype_of_name m) as (p & -> & _).
    + destruct m as [?|?|r]; [by apply (bool_decide_unpack _)..|apply linked_name_no_nul].
  - exact prototype_of_name.
Qed.
End registry.

(** ** One round of the loop *)

(** A packed buffer whose first four bytes lie in one piece, which is what
    [peekInt32] needs. *)
Definition bufq (b : Buffer) (n : Z) (bs : list Z) : hProp :=
  (∃ ls, buf_rep b ls ∗ ⟪zlen ls = n /\ content ls = bs /\ no_empty ls /\ 4 <= first_len ls⟫)%I.

Lemma bufq_bufp b n bs : bufq b n bs ⊢ bufp b n bs.
Proof. iIntros "(%ls & Hb & % & % & % & %)". iExists ls. by iFrame. Qed.

Lemma peekInt32_packed b n bs : 4 <= zlen bs ->
  {{ bufq b n bs }} peekInt32 b {{ r, ⟪r = int32 (be_value (take 4 bs))⟫ ∗ bufq b n bs }}.
Proof.
  iIntros (Hz Φ) "(%ls & Hb & %Hn & %Hbs & %Hne & %Hf) HΦ". subst bs n.
  iApply (peekInt32_refines with "Hb"); [done..|]. iIntros (r) "[-> Hb]". iApply "HΦ".
  iSplitR; [done|]. iExists ls. by iFrame.
Qed.

Section rounds.
Context {Msg : Type} `{RegistryLaws Msg}.
Context `{HPeak : Peak} (o : Z) (Ho : 0 <= o).
Implicit Types m : Msg.

Abbreviation bytes_of := InternalSerializeWithCachedSizesToArray.

(** The bodies that [parse] refuses, with its error and what it leaves in the
    buffer. *)
Definition refused_body (bs : list Z) : option (ErrorCode * list Z) :=
  let nameLen := int32 (be_value (take 4 bs)) in
  if nameLen <=? 0 then Some (kInvalidNameLen, drop 4 bs)
  else if zlen bs - 4 <? nameLen then Some (kParseError, drop 4 bs)
  else match createMessage (Msg := Msg) (take (Z.to_nat nameLen) (drop 4 bs)) with
       | None => Some (kUnknownMessageType, drop (Z.to_nat (4 + nameLen)) bs)
       | Some _ => None
       end.

(** The input on which [onMessage] stops in its first round: what it reports
    and what it leaves in the buffer.  [None] when a message is parsed. *)
Definition first_round (bs : list Z) : option (list (codec_event Msg) * list Z) :=
  let len := int32 (be_value (take 4 bs)) in
  if zlen bs <? kMinMessageLen + kHeaderLen then Some ([], bs)
  else if (kMaxMessageLen <? len) || (len <? kMinMessageLen) then Some ([Report kInvalidLength], bs)
  else if zlen bs <? len + kHeaderLen then Some ([], bs)
  else '(e, rest) ← refused_body (drop 4 bs); Some ([Report e], rest).

Lemma int32_lt x : int32 x < 2 ^ 31.
Proof using Type. pose proof (swrap_bound 32 x). lia. Qed.

Lemma zlen_drop4 (bs : list Z) : 4 <= zlen bs -> zlen (drop 4 bs) = zlen bs - 4.
Proof using Type. intros. change 4%nat with (Z.to_nat 4). rewrite zlen_drop; lia. Qed.

Lemma parse_refused_spec b n bs len e rest : 10 <= zlen bs -> refused_body bs = Some (e, rest) ->
  {{ bufp b n bs ∗ pool (o + n) }} parse (Msg := Msg) b len kNoError
  {{ r, ∃ b' n', ⟪r = (None, e, b')⟫ ∗ bufp b' n' rest ∗ pool (o + n') }}.
Proof using Type* Ho.
  iIntros (Hz Hrej Φ) "[Hb Hpool] HΦ". rewrite /parse. wp_bind.
  iApply (readInt32_packed o Ho with "[$Hb $Hpool]"); [lia|].
  iIntros (r) "(%b1 & %n1 & -> & Hb & Hpool)". pose proof (int32_lt (be_value (take 4 bs))).
  iDestruct (bufp_facts with "Hb") as "[(%Hlen & %H64 & _ & _) Hb]". rewrite zlen_drop4 in Hlen; [|lia].
  rewrite Hlen. rewrite /refused_body in Hrej. revert Hrej. set (nameLen := int32 _) in *. intros Hrej.
  destruct (nameLen <=? 0) eqn:E1; bool_cases.
  { rewrite (proj2 (Z.ltb_ge _ _)) //. simplify_eq. wp_ret. iApply "HΦ". iExists _, _. by iFrame. }
  rewrite (proj2 (Z.ltb_lt _ _)) // wrap_id; [|lia].
  destruct (zlen bs - 4 <? nameLen) eqn:E2; bool_cases.
  { rewrite (proj2 (Z.leb_gt _ _)); [|lia]. simplify_eq. wp_ret. iApply "HΦ". iExists _, _. by iFrame. }
  rewrite (proj2 (Z.leb_le _ _)); [|lia]. destruct (createMessage _) eqn:Ec; [done|]. simplify_eq.
  wp_bind. rewrite /read_string. wp_bind. iApply wp_assert; [lia|].
  iApply (read_packed o Ho with "[$Hb $Hpool]"); [rewrite zlen_drop4; lia|].
  iIntros (r) "(%b2 & %n2 & -> & Hb & Hpool)". rewrite Ec. wp_ret. iApply "HΦ".
  iExists _, _. rewrite drop_drop Z2Nat.inj_add; [|lia..]. by iFrame.
Qed.

(** A complete body is parsed to the message and nothing is left. *)
Lemma parse_body_spec m b n len : msg_ok m -> zlen (body m) < 2 ^ 31 ->
  {{ bufp b n (body m) ∗ pool (o + n) }} parse b len kNoError
  {{ r, ∃ b', ⟪r = (Some m, kNoError, b')⟫ ∗ buf b' 0 [] ∗ pool o }}.
Proof using Type* Ho.
  iIntros (Hok Hsz Φ) "[Hb Hpool] HΦ". rewrite /parse. wp_bind.
  pose proof (zlen_body m) as Hbd. pose proof (zlen_nonneg (GetTypeName m)). pose proof (zlen_nonneg (bytes_of m)).
  pose proof (zlen_c_str m) as Hc.
  iApply (readInt32_packed o Ho with "[$Hb $Hpool]"); [lia|].
  iIntros (r) "(%b1 & %n1 & -> & Hb & Hpool)".
  rewrite /body take_app_length' // drop_app_length' // int32_be_value swrap_id; [|lia..].
  iDestruct (bufp_facts with "Hb") as "[(%Hlen & _ & _ & _) Hb]". rewrite zlen_app Hc in Hlen.
  rewrite (proj2 (Z.ltb_lt _ _)); [|lia]. rewrite wrap_id; [|lia]. rewrite (proj2 (Z.leb_le _ _)); [|lia].
  wp_bind. rewrite /read_string. wp_bind. iApply wp_assert; [lia|].
  iApply (read_packed o Ho with "[$Hb $Hpool]"); [rewrite zlen_app; lia|].
  iIntros (r) "(%b2 & %n2 & -> & Hb & Hpool)".
  assert (length (c_str (GetTypeName m)) = Z.to_nat (zlen (GetTypeName m) + 1)) as Hl by (rewrite /zlen in Hc |- *; lia).
  rewrite take_app_length' // drop_app_length' // /createMessage find_by_name /=.
  destruct (find_prototype m) as (p & -> & Hlike). cbn.
  iDestruct "Hb" as "(%ls & Hb & %Hn & %Hbs & %Hne)". subst n2. wp_bind.
  iApply (ParseFromZeroCopyStream_spec o Ho m _ _ ls with "[Hb Hpool]"); [done..| |].
  { rewrite /in_rep /=. by iFrame. }
  iIntros (x) "(%s' & %cur & -> & H)". wp_bind. iApply (in_destroy_spec with "H"); [done|].
  iIntros (b3) "[Hb Hpool]". wp_ret. iApply "HΦ". iExists b3. rewrite zlen_nil Z.add_0_r. iFrame "Hpool".
  iSplitR; [done|]. iExists []. by iFrame.
Qed.

Lemma zlen_frame m : zlen (frame m) = zlen (body m) + 4.
Proof using Type. rewrite /frame zlen_app zlen_be_bytes. lia. Qed.

Lemma frame_len m : zlen (body m) < 2 ^ 31 -> int32 (be_value (take 4 (frame m))) = zlen (body m).
Proof using Type.
  intros Hz. pose proof (zlen_nonneg (body m)). rewrite /frame take_app_length' // int32_be_value swrap_id; lia.
Qed.

(** The loop's second half, on an empty buffer. *)
Lemma onMessage_loop_empty fuel b :
  {{ buf b 0 [] ∗ pool o }} onMessage_loop (Msg := Msg) (S fuel) b
  {{ r, ∃ b', ⟪r = ([], b')⟫ ∗ buf b' 0 [] ∗ pool o }}.
Proof using Type.
  iIntros (Φ) "[(%ls & Hb & %Hn & %Hbs) Hpool] HΦ". cbn [onMessage_loop].
  iDestruct (buf_rep_facts with "Hb") as "[(_ & %Hlen & _) Hb]". rewrite Hlen Hbs zlen_nil. cbn.
  wp_ret. iApply "HΦ". iExists b. iFrame "Hpool". iSplitR; [done|]. iExists ls. by iFrame.
Qed.

Lemma onMessage_stops b n bs events rest : zlen bs < 2 ^ 31 ->
  first_round bs = Some (events, rest) ->
  {{ bufq b n bs ∗ pool (o + n) }} onMessage b
  {{ r, ∃ b' n', ⟪r = (events, b')⟫ ∗ bufp b' n' rest ∗ pool (o + n') }}.
Proof using Type* Ho.
  iIntros (H31 Hr Φ) "[Hb Hpool] HΦ".
  iAssert (⟪length_ b = zlen bs⟫ ∗ bufq b n bs)%I with "[Hb]" as "[%Hlen Hb]".
  { iDestruct "Hb" as "(%ls & Hb & %E1 & %E2 & %E3)".
    iDestruct (buf_rep_facts with "Hb") as "[(_ & %Hlen & _) Hb]". iSplitR; [by rewrite Hlen E2|].
    iExists ls. by iFrame. }
  rewrite /onMessage. cbn [onMessage_loop]. rewrite Hlen. revert Hr. rewrite /first_round.
  change (kMinMessageLen + kHeaderLen) with 14. change kHeaderLen with 4. intros Hr.
  destruct (zlen bs <? 14) eqn:E1; bool_cases.
  { rewrite (proj2 (Z.leb_gt _ _)) //. simplify_eq. wp_ret. iApply "HΦ". iExists _, _. rewrite bufq_bufp. by iFrame. }
  rewrite (proj2 (Z.leb_le _ _)) //. wp_bind. iApply (peekInt32_packed with "Hb"); [lia|].
  iIntros (r) "[-> Hb]". rewrite bufq_bufp. set (len := int32 _) in *.
  destruct ((kMaxMessageLen <? len) || (len <? kMinMessageLen)) eqn:E2.
  { simplify_eq. wp_ret. iApply "HΦ". iExists _, _. by iFrame. }
  apply orb_false_iff in E2 as [Hmax Hmin]. bool_cases. rewrite /kMinMessageLen /kHeaderLen in Hmin.
  destruct (zlen bs <? len + 4) eqn:E3; bool_cases.
  { rewrite (proj2 (Z.leb_gt _ _)) //. simplify_eq. wp_ret. iApply "HΦ". iExists _, _. by iFrame. }
  rewrite (proj2 (Z.leb_le _ _)) //. destruct (refused_body (drop 4 bs)) as [[e rest']|] eqn:Er; [|done].
  cbn in Hr. simplify_eq. wp_bind. iApply (skip_packed o Ho with "[$Hb $Hpool]"); [lia|].
  iIntros (b1) "(%n1 & Hb & Hpool)". change (Z.to_nat 4) with 4%nat. wp_bind.
  iApply (parse_refused_spec with "[$Hb $Hpool]"); [|done|].
  { rewrite zlen_drop4; lia. }
  iIntros (r) "(%b2 & %n2 & -> & Hb & Hpool)". wp_ret. iApply "HΦ". iExists _, _. by iFrame.
Qed.

End rounds.

(** ** Claims *)
Section claims.
Context {Msg : Type} `{RegistryLaws Msg}.
Implicit Types m : Msg.

Abbreviation bytes_of := InternalSerializeWithCachedSizesToArray.

(** C7. [fillEmptyBuffer] on an empty buffer builds exactly the frame of the
    message, [len | nameLen | typeName \0 | bytes], in big-endian integers,
    and the pieces it holds are the only ones taken from the allocator.  The
    message must write at least one byte or the header must leave room in the
    first piece, because [BackUp] asserts that it leaves a byte. *)
Theorem fillEmptyBuffer_builds_frame o m b :
  {{ buf b 0 [] ∗ pool o ∗
     ⟪msg_ok m /\ 0 <= o /\ (0 < zlen (bytes_of m) \/ 4 + zlen (header m) < kPieceCapacity) /\
      zlen (body m) < 2 ^ 31 /\ o + zlen (body m) + 8 < kMaxUsing⟫ }}
    fillEmptyBuffer b m
  {{ b', ∃ n, buf b' n (frame m) ∗ pool (o + n) }}.
Proof using Type*.
  iIntros (Φ) "(Hb & Hpool & %Hok & %Ho' & %Hrest) HΦ".
  by iApply (fillEmptyBuffer_spec o Ho' m b Hok with "[$Hb $Hpool] HΦ").
Qed.

(** C6. [onMessage] on a buffer that holds exactly the frame of [m], cut into
    pieces in any way that leaves the four length bytes together, delivers [m]
    and nothing else, consumes the whole buffer and gives all its pieces back
    to the pool. *)
Theorem onMessage_delivers_frame o m b n :
  {{ bufq b n (frame m) ∗ pool (o + n) ∗
     ⟪msg_ok m /\ 0 <= o /\ kMinMessageLen <= zlen (body m) <= kMaxMessageLen⟫ }}
    onMessage b
  {{ r, ∃ b', ⟪r = ([Deliver m], b')⟫ ∗ buf b' 0 [] ∗ pool o }}.
Proof using Type*.
  iIntros (Φ) "(Hb & Hpool & %Hok & %Ho' & %Hmin & %Hmax) HΦ". pose proof (zlen_frame m) as Hf.
  rewrite /kMinMessageLen /kMaxMessageLen /kHeaderLen in Hmin, Hmax.
  iAssert (⟪length_ b = zlen (frame m)⟫ ∗ bufq b n (frame m))%I with "[Hb]" as "[%Hlen Hb]".
  { iDestruct "Hb" as "(%ls & Hb & %E1 & %E2 & %E3)".
    iDestruct (buf_rep_facts with "Hb") as "[(_ & %Hlen & _) Hb]". iSplitR; [by rewrite Hlen E2|].
    iExists ls. by iFrame. }
  rewrite /onMessage Hlen. replace (Z.to_nat (zlen (frame m))) with (S (Z.to_nat (zlen (body m) + 3))) by lia.
  set (fuel := Z.to_nat (zlen (body m) + 3)). cbn [onMessage_loop]. rewrite Hlen Hf.
  rewrite (proj2 (Z.leb_le _ _)); [|rewrite /kMinMessageLen /kHeaderLen; lia].
  wp_bind. iApply (peekInt32_packed with "Hb"); [lia|]. iIntros (r) "[-> Hb]".
  rewrite frame_len; [|lia].
  rewrite (proj2 (Z.ltb_ge _ _)); [|rewrite /kMaxMessageLen; lia].
  rewrite (proj2 (Z.ltb_ge _ _)); [|rewrite /kMinMessageLen /kHeaderLen; lia]. cbn [orb].
  rewrite Z.leb_refl. wp_bind. iDestruct (bufq_bufp with "Hb") as "Hb".
  iApply (skip_packed o Ho' with "[$Hb $Hpool]"); [rewrite /kHeaderLen; lia|].
  iIntros (b1) "(%n1 & Hb & Hpool)". rewrite /frame drop_app_length' //. wp_bind.
  iApply (parse_body_spec o Ho' m with "[$Hb $Hpool]"); [done|lia|].
  iIntros (r) "(%b2 & -> & Hb & Hpool)". rewrite bool_decide_true //. cbn [onMessage_loop]. wp_bind.
  iApply (onMessage_loop_empty with "[$Hb $Hpool]").
  iIntros (r) "(%b3 & -> & Hb & Hpool)". wp_ret. iApply "HΦ". iExists b3. by iFrame.
Qed.
(** C8. Every branch of [onMessage] that does not parse a message: fewer than
    fourteen bytes or an incomplete frame are left alone without a report; a
    length outside [kMinMessageLen, kMaxMessageLen] is [kInvalidLength] with
    the buffer unchanged; then, with the length consumed, a name length that is
    not positive is [kInvalidNameLen], one beyond the bytes in the buffer is
    [kParseError] and an unknown name is [kUnknownMessageType].  The loop stops
    after the one report and no piece is lost. *)
Theorem onMessage_first_round o b n bs events rest :
  {{ bufq b n bs ∗ pool (o + n) ∗
     ⟪0 <= o /\ zlen bs < 2 ^ 31 /\ first_round (Msg := Msg) bs = Some (events, rest)⟫ }}
    onMessage b
  {{ r, ∃ b' n', ⟪r = (events, b')⟫ ∗ bufp b' n' rest ∗ pool (o + n') }}.
Proof using Type*.
  iIntros (Φ) "(Hb & Hpool & %Ho & %H31 & %Hr) HΦ".
  by iApply (onMessage_stops o Ho with "[$Hb $Hpool] HΦ").
Qed.

(** [kMinMessageLen] is ten, but the smallest body the codec itself builds
    is six bytes: a message whose type name and bytes together are shorter than
    five is framed by [fillEmptyBuffer] and never delivered.  Alone it stays in
    the buffer; with more bytes behind it, it is an [kInvalidLength]. *)
Lemma onMessage_ignores_short_frames o m b n bs :
  {{ bufq b n (frame m ++ bs) ∗ pool (o + n) ∗
     ⟪0 <= o /\ zlen (body m) < kMinMessageLen /\ zlen bs < 2 ^ 30⟫ }}
    onMessage b
  {{ r, ∃ b' n', ⟪r = (if zlen (body m ++ bs) <? kMinMessageLen then [] else [Report kInvalidLength], b')⟫ ∗
        bufp b' n' (frame m ++ bs) ∗ pool (o + n') }}.
Proof using Type*.
  iIntros (Φ) "(Hb & Hpool & %Ho & %Hs & %Hz) HΦ". pose proof (zlen_frame m) as Hf.
  pose proof (zlen_nonneg (body m)).
  rewrite /kMinMessageLen /kHeaderLen in Hs.
  iApply (onMessage_stops o Ho _ _ (frame m ++ bs) with "[$Hb $Hpool] HΦ"); [rewrite zlen_app; lia|].
  rewrite /first_round take_app_le; [|rewrite /frame length_app length_reverse length_le_bytes; lia].
  rewrite frame_len; [|lia]. rewrite (zlen_app (frame m)) (zlen_app (body m)) Hf. change (kMinMessageLen + kHeaderLen) with 14.
  change kMinMessageLen with 10. rewrite (proj2 (Z.ltb_lt (zlen (body m)) 10)); [|lia]. rewrite orb_true_r.
  replace (zlen (body m) + 4 + zlen bs <? 14) with (zlen (body m) + zlen bs <? 10); [by case_match|].
  apply eq_true_iff_eq. rewrite !Z.ltb_lt. lia.
Qed.
End claims.

(** ** The echo messages *)
Section echo_messages.
Context {LT : LinkedTypes}.

Definition hello : AnyMessage := MRequest (mk 7 [104; 105] []).
Definition reply : AnyMessage := MResponse (mk 7 [104; 105] []).

(** Everything the peer sent, in one buffer, and what is left after
    [onMessage]. *)
Definition receive (bs : list Z) : M (list (codec_event AnyMessage) * list Z) :=
  b ← write Buffer_new bs;
  '(events, b) ← onMessage b;
  '(rest, _) ← if 0 <? length_ b then readAll b else mret ([], b);
  mret (events, rest).

Lemma hello_ok : msg_ok hello.
Proof.
  change (echo_ok (T := Request) (mk 7 [104; 105] [])). rewrite /echo_ok /=.
  split_and!; [lia..| | | |done]; [by repeat constructor| |done].
  apply is_utf8_ascii. by repeat constructor.
Qed.
End echo_messages.

(** For the runs of the model: a program into which no other type is linked. *)
Definition no_message {A} (m : Empty_set) : A := match m with end.

Definition no_MessageLite : MessageLite Empty_set := {|
  Clear := no_message;
  IsInitialized := no_message;
  ByteSizeLong := no_message;
  InternalSerializeWithCachedSizesToArray := no_message;
  SerializeWithCachedSizes := no_message;
  MergePartialFromCodedStream := no_message
|}.

Lemma no_name_small m : zlen (no_message m : list Z) < 2 ^ 30.
Proof. destruct m. Qed.

Lemma no_name_fresh m : (no_message m : list Z) <> request_name /\ (no_message m : list Z) <> response_name.
Proof. destruct m. Qed.

Definition no_linked : LinkedTypes.
Proof.
  refine {|
    linked_MessageLite := no_MessageLite;
    linked_type_name := no_message;
    linked_prototype _ := None;
    linked_name_small := no_name_small;
    linked_name_fresh := no_name_fresh
  |}; intros [].
Defined.

Section runs.
#[local] Existing Instance no_linked.

Lemma fillEmptyBuffer_builds_frame_witness :
  msg_ok hello /\
  value ((b ← fillEmptyBuffer Buffer_new hello; '(d, _) ← readAll b; mret d) (init_mem (λ _ _, 0) false)) =
    inl [0; 0; 0; 23; 0; 0; 0; 13; 69; 99; 104; 111; 46; 82; 101; 113; 117; 101; 115; 116; 0;
         8; 7; 18; 2; 104; 105] /\
  {{ buf Buffer_new 0 [] ∗ pool 0 ∗
     ⟪msg_ok hello /\ 0 <= 0 /\ (0 < zlen (InternalSerializeWithCachedSizesToArray hello) \/
        4 + zlen (header hello) < kPieceCapacity) /\
      zlen (body hello) < 2 ^ 31 /\ 0 + zlen (body hello) + 8 < kMaxUsing⟫ }}
    fillEmptyBuffer Buffer_new hello
  {{ b', ∃ n, buf b' n (frame hello) ∗ pool (0 + n) }}.
Proof.
  split; [exact hello_ok|]. split; [vm_compute; reflexivity|].
  exact (fillEmptyBuffer_builds_frame 0 hello Buffer_new).
Defined.

Lemma onMessage_delivers_frame_witness :
  value (receive (frame hello) (init_mem (λ _ _, 0) false)) = inl ([Deliver hello], []) /\
  forall b,
    {{ bufq b 1 (frame hello) ∗ pool (0 + 1) ∗
       ⟪msg_ok hello /\ 0 <= 0 /\ kMinMessageLen <= zlen (body hello) <= kMaxMessageLen⟫ }}
      onMessage b
    {{ r, ∃ b', ⟪r = ([Deliver hello], b')⟫ ∗ buf b' 0 [] ∗ pool 0 }}.
Proof.
  split; [vm_compute; reflexivity|]. intros b. exact (onMessage_delivers_frame 0 hello b 1).
Defined.

Lemma onMessage_first_round_witness :
  let bad := be_bytes 4 10 ++ be_bytes 4 1 ++ replicate 6 0 in
  first_round (Msg := AnyMessage) bad = Some ([Report kUnknownMessageType], replicate 5 0) /\
  value (receive bad (init_mem (λ _ _, 0) false)) = inl ([Report kUnknownMessageType], replicate 5 0) /\
  forall b,
    {{ bufq b 1 bad ∗ pool (0 + 1) ∗
       ⟪0 <= 0 /\ zlen bad < 2 ^ 31 /\
        first_round (Msg := AnyMessage) bad = Some ([Report kUnknownMessageType], replicate 5 0)⟫ }}
      onMessage b
    {{ r, ∃ b' n', ⟪r = ([Report (Msg := AnyMessage) kUnknownMessageType], b')⟫ ∗
                   bufp b' n' (replicate 5 0) ∗ pool (0 + n') }}.
Proof.
  intros bad. split; [vm_compute; reflexivity|]. split; [vm_compute; reflexivity|].
  intros b. exact (onMessage_first_round 0 b 1 bad _ (replicate 5 0)).
Defined.

(** Two requests that arrive together: [parse] ignores its [len] argument,
    so the protobuf parser runs on into the next frame, takes the zero byte its
    length starts with for the end of the message and hands the rest back.
    The first request is delivered, the second is not, and its frame is left in
    the buffer without its first byte; in Debug and Release builds alike. *)
Lemma onMessage_breaks_pipelined_frames ndebug :
  value (receive (frame hello ++ frame hello) (init_mem (λ _ _, 0) ndebug)) =
  inl ([Deliver hello], drop 1 (frame hello)).
Proof. destruct ndebug; vm_compute; reflexivity. Qed.

End runs.

(** A registry with one message type, whose name is one letter. *)
Definition P_Registry : Registry Request := {|
  Descriptor := unit;
  GetDescriptor _ := tt;
  GetTypeName _ := [80];
  FindMessageTypeByName name := if bool_decide (until_nul name = [80]) then Some tt else None;
  GetPrototype _ := Some (mk 0 [] []);
  New m := Clear m
|}.

Lemma P_RegistryLaws : RegistryLaws Request (H1 := P_Registry).
Proof.
  split; [by repeat constructor|done|done|].
  intros. eexists. split; [reflexivity|exact I].
Qed.

Lemma onMessage_ignores_short_frames_witness :
  zlen (body (H0 := P_Registry) (mk 1 [] [] : Request)) = 8 /\
  forall b,
    {{ bufq b 1 (frame (H0 := P_Registry) (mk 1 [] [] : Request) ++ []) ∗ pool (0 + 1) ∗
       ⟪0 <= 0 /\ zlen (body (H0 := P_Registry) (mk 1 [] [] : Request)) < kMinMessageLen /\
        zlen (@nil Z) < 2 ^ 30⟫ }}
      onMessage (H0 := P_Registry) b
    {{ r, ∃ b' n', ⟪r = ([] : list (codec_event Request), b')⟫ ∗
          bufp b' n' (frame (H0 := P_Registry) (mk 1 [] [] : Request) ++ []) ∗ pool (0 + n') }}.
Proof.
  split; [vm_compute; reflexivity|]. intros b.
  exact (onMessage_ignores_short_frames (H1 := P_Registry) (H2 := P_RegistryLaws) 0 (mk 1 [] [] : Request) b 1 []).
Defined.
