(* ===== verification/AnyFrame.v ===== *)
(** * Frames with any bytes in them

    What the codec's [parse] does with a frame that names one of the types of
    [echo.proto] and then holds any bytes: AnyBytes for the message, here the
    type name in front of it and the buffer afterwards. *)

From stdpp Require Import base tactics list numbers gmap strings.
From iris.proofmode Require Import proofmode.
From Stdlib Require Import ZArith Lia.
From S2P Require Import Prelude Machine HeapLogic Piece Buffer BufferSpec Streams Varint.
From S2P Require Import CodedInput WireFormat Utf8 Echo AnyBytes Codec CodecSpec.

Section frames.
Context {LT : LinkedTypes} `{HPeak : Peak} (o : Z) (Ho : 0 <= o).

(** ** The buffer after a parse *)
Definition left_over (b : Buffer) (bs : list Z) : hProp :=
  ((∃ ls, ⟪content ls = bs⟫ ∗ buf_rep b ls ∗ pool (o + zlen ls)) ∨
   (∃ l p, ⟪b = mkBuffer (mkQueue (Some l) None 1) (zlen bs) /\ piece_wf p /\ piece_bytes p = bs⟫ ∗
      l ↦ set_next p None ∗ pool (o + 1)))%I.

Lemma in_destroy_any s bs : {{ given_back o s bs }} in_destroy s {{ b, left_over b bs }}.
Proof using Ho.
  iIntros (Φ) "[(%ls & %cur & H & %Hc)|(%l & %p & (%Hb & %Hd & %Hp & %Hbs) & Hl & Hpool)] HΦ".
  - iApply (in_destroy_spec with "H"); [done|]. iIntros (b) "[Hb Hpool]". iApply "HΦ". iLeft. iExists ls. by iFrame.
  - rewrite /in_destroy /in_release Hd. wp_bind. wp_ret. wp_ret. iApply "HΦ". iRight. iExists l, p. rewrite Hb. by iFrame.
Qed.

(** ** The types of [echo.proto] *)
Definition echo_type (name : list Z) : Prop := name = request_name \/ name = response_name.

Lemma echo_created name : echo_type name -> exists m0, createMessage (c_str name) = Some m0 /\
  GetTypeName m0 = name /\
  forall c bs, zlen bs < 2 ^ 31 ->
    {{ ci_rep o c bs }} MergePartialFromCodedStream (Clear m0) c
    {{ r, merge_result o (λ _ m, GetTypeName m = name) bs r }}.
Proof using Ho.
  intros [-> | ->]; [exists (MRequest (mk 0 [] []))|exists (MResponse (mk 0 [] []))];
    (split; [done|]); (split; [done|]); iIntros (c bs Hz Φ) "H HΦ"; cbn [MergePartialFromCodedStream Clear AnyMessage_MessageLite];
    rewrite /map_merge; wp_bind; iApply (echo_merge_any o Ho with "H"); try done;
    iIntros (r) "(%ok & %m & %c' & [%Er _] & H)"; subst r; wp_ret; iApply "HΦ"; iExists _, _, _; by iFrame.
Qed.

Definition named (name bs : list Z) : list Z := be_bytes 4 (zlen name + 1) ++ c_str name ++ bs.

Lemma parse_any_body ndebug b n name bs len Φ : echo_type name -> zlen bs < kint32max ->
  bufp b n (named name bs) ∗ pool (o + n) -∗
  (∀ m b' rest, ⟪GetTypeName m = name /\ rest `suffix_of` bs⟫ -∗ left_over b' rest -∗ Φ (Some m, kNoError, b')) -∗
  wp_build ndebug (only_assert ndebug) (parse b len kNoError) Φ.
Proof using Ho.
  iIntros (Hname Hz) "[Hb Hpool] HΦ". destruct (echo_created name Hname) as (m0 & Hm0 & Ht & Hmerge).
  assert (Forall is_byte name /\ 0 <= zlen name < 2 ^ 30) as [Hby Hn].
  { destruct Hname as [-> | ->]; (split; [repeat constructor; vm_compute; done|by vm_compute]). }
  assert (zlen (c_str name) = zlen name + 1) as Hc by (rewrite /c_str zlen_app zlen_cons zlen_nil; lia).
  rewrite /parse. iApply wp_build_bind. iApply wp_build_any.
  iApply (readInt32_packed o Ho with "[$Hb $Hpool]"); [rewrite /named zlen_app zlen_be_bytes (zlen_app (c_str name)) Hc; pose proof (zlen_nonneg bs); lia|].
  iIntros (r) "(%b1 & %n1 & -> & Hb & Hpool)".
  rewrite /named take_app_length' // drop_app_length' // int32_be_value swrap_id; [|lia..].
  iDestruct (bufp_facts with "Hb") as "[(%Hlen & _ & _ & _) Hb]". rewrite zlen_app Hc in Hlen. pose proof (zlen_nonneg bs).
  rewrite (proj2 (Z.ltb_lt _ _)); [|lia]. rewrite wrap_id; [|lia]. rewrite (proj2 (Z.leb_le _ _)); [|lia].
  iApply wp_build_bind. iApply wp_build_any. rewrite /read_string. wp_bind. iApply wp_assert; [lia|].
  iApply (read_packed o Ho with "[$Hb $Hpool]"); [rewrite zlen_app; lia|].
  iIntros (r) "(%b2 & %n2 & -> & Hb & Hpool)".
  assert (length (c_str name) = Z.to_nat (zlen name + 1)) as Hl by (rewrite /zlen in Hc |- *; lia).
  rewrite take_app_length' // drop_app_length' // Hm0.
  iDestruct "Hb" as "(%ls & Hb & %Hn2 & %Hbs & %Hne)". subst n2 bs. iApply wp_build_bind.
  iApply (parse_any_spec (λ _ m, GetTypeName m = name) o ndebug m0 (BufferInputStream_new b2) ls with "[Hb Hpool]"); [done..| |].
  { rewrite /in_rep /=. by iFrame. }
  iIntros (ok0 ok m s' rest) "(%Hm & _ & %Hs) H". iApply wp_build_bind. iApply wp_build_any.
  iApply (in_destroy_any with "H"). iIntros (b') "H". iApply wp_build_any. wp_ret. by iApply ("HΦ" with "[] H").
Qed.
End frames.

(** ** Claims *)


Section runs.
#[local] Existing Instance no_linked.

(** A frame's body, parsed from a fresh buffer: the number and the text of the
    message, the error code and the bytes left. *)
Definition parse_body (d : list Z) : M (option (Z * list Z) * ErrorCode * list Z) :=
  b ← write Buffer_new d;
  '(message, errorCode, b) ← parse b (zlen d) kNoError;
  '(rest, _) ← if 0 <? length_ b then readAll b else mret ([], b);
  mret (match message with Some (MRequest r) => Some (request_id_ r, ask_ r) | _ => None end, errorCode, rest).

(** A text that claims 127 bytes and has one: the request is delivered with that one. *)
Lemma parse_truncated_text ndebug :
  value (parse_body (named request_name [8; 7; 18; 127; 104]) (init_mem (λ _ _, 0) ndebug)) =
  inl (Some (7, [104]), kNoError, []).
Proof. destruct ndebug; vm_compute; reflexivity. Qed.

End runs.
