(* ===== verification/Logging.v ===== *)
(** * Logging

    [netpp/base/logging.{h,cpp}]: the severity levels, the configuration that
    [initLogging_unlock] gives to Boost.Log, and the initialisation on first use
    by [lg] and [initLogging], which any number of threads may call at the same
    time.

    Boost.Log itself is outside the repository.  What the code does to it is the
    sequence of the calls it makes, with their arguments ([BoostCall]).  The two
    entry points are interleaved step by step: a step is one access to
    [initialized_] or [mutex_], or one call into Boost.  The accesses are taken
    as sequentially consistent; [initialized_] is a plain [bool]. *)

From stdpp Require Import base tactics list numbers strings pretty relations.
From Stdlib Require Import ZArith Lia.
From S2P Require Import Prelude.

(** ** Levels *)

Inductive LogLevel := trace | debug | info | warning | error | fatal.

#[export] Instance LogLevel_eq_dec : EqDecision LogLevel.
Proof. solve_decision. Defined.

(** The value of the enumerator. *)
Definition level_value (lvl : LogLevel) : Z :=
  match lvl with trace => 0 | debug => 1 | info => 2 | warning => 3 | error => 4 | fatal => 5 end.

Definition level_names : list string := ["trace"; "debug"; "info"; "warning"; "error"; "fatal"].

(** [operator<<] on the [int] value of a level; the comparison is unsigned. *)
Definition print_level (lvl : Z) : string :=
  if wrap64 lvl <? Z.of_nat (length level_names)
  then default "" (level_names !! Z.to_nat lvl) else pretty lvl.

(** ** The configuration *)

(** The parts of a record's format. *)
Inductive FormatItem :=
  | FmtTimeStamp (format : string)
  | FmtText (s : string)
  | FmtSeverity
  | FmtMessage
  | FmtThreadID
  | FmtScope (format : string) (depth : Z).

(** The calls into Boost.Log and their arguments; the [file_sink] of the last
    five of the file's calls is the one [AddFileLog] has made. *)
Inductive BoostCall :=
  | AddConsoleLog (format : list FormatItem)
  | AddFileLog (file_name : string) (rotation_size : Z) (rotate_at : Z * Z * Z) (append auto_flush : bool)
  | SetFileCollector (target : string) (max_size min_free_space : Z)
  | SetFilter (at_least : LogLevel)
  | ScanForFiles
  | SetFormatter (format : string) (items : list FormatItem)
  | AddSink
  | AddCommonAttributes
  | AddThreadAttribute (name : string).

(** The arguments of [initLogging]. *)
Record LogArgs := mkLogArgs {
  console_on : bool;
  console_level : LogLevel;
  log_file_on : bool;
  log_file_level : LogLevel;
  log_file_dir : string;
  log_file_name_prefix : string
}.

Definition console_calls (a : LogArgs) : list BoostCall :=
  if console_on a then
    [AddConsoleLog [FmtTimeStamp "[%Y-%m-%d,%H:%M:%S.%f]"; FmtText " ["; FmtSeverity; FmtText "]: "; FmtMessage]]
  else [].

Definition file_calls (a : LogArgs) : list BoostCall :=
  if log_file_on a then
    [AddFileLog (log_file_dir a +:+ "/" +:+ log_file_name_prefix a +:+ "_%Y%m%d.log")
       (10 * 1024 * 1024) (0, 0, 0) true false;
     SetFileCollector (log_file_dir a) (50 * 1024 * 1024) (100 * 1024 * 1024);
     SetFilter (log_file_level a);
     ScanForFiles;
     SetFormatter "[%1%][%2%][%3%][%4%]: %5%"
       [FmtThreadID; FmtTimeStamp "%Y-%m-%d,%H:%M:%S.%f"; FmtScope "%n (%f:%l)" 1; FmtSeverity; FmtMessage];
     AddSink]
  else [].

Definition initLogging_unlock (a : LogArgs) : list BoostCall :=
  console_calls a ++ file_calls a ++ [AddCommonAttributes; AddThreadAttribute "Scope"].

(** ** Initialisation *)

(** What a thread calls. *)
Inductive LogCall := CallInit (a : LogArgs) | CallLg.

(** Where it is. *)
Inductive log_pc :=
  | LStart                        (* before the first test of [initialized_] *)
  | LLock                         (* before [mutex_] is taken *)
  | LLocked                       (* before the second test *)
  | LWork (rest : list BoostCall) (* in [initLogging_unlock], with these calls to make *)
  | LUnlock                       (* before [mutex_] is released *)
  | LReturned.

#[export] Instance BoostCall_eq_dec : EqDecision BoostCall.
Proof. assert (EqDecision FormatItem) by solve_decision. solve_decision. Defined.
#[export] Instance log_pc_eq_dec : EqDecision log_pc.
Proof. solve_decision. Defined.

Record LogSys := mkLogSys {
  initialized_ : bool;
  mutex_ : option nat;
  boost : list BoostCall;            (* the calls so far *)
  log_threads : list (LogCall * log_pc);
  aborted : bool                     (* an assertion has failed *)
}.

Section logging.
(** [NDEBUG]; [program_location().parent_path()] and [.stem()]. *)
Context (ndebug : bool) (parent_path stem : string).

Definition args_of (c : LogCall) : LogArgs :=
  match c with
  | CallInit a => a
  | CallLg => mkLogArgs true trace true trace (parent_path +:+ "/logs") stem
  end.

Definition is_init (c : LogCall) : bool := match c with CallInit _ => true | CallLg => false end.

Definition log_goto (s : LogSys) (i : nat) (c : LogCall) (pc : log_pc) : LogSys :=
  mkLogSys (initialized_ s) (mutex_ s) (boost s) (<[i := (c, pc)]> (log_threads s)) (aborted s).
Definition set_mutex (s : LogSys) (m : option nat) : LogSys :=
  mkLogSys (initialized_ s) m (boost s) (log_threads s) (aborted s).
Definition set_initialized (s : LogSys) : LogSys :=
  mkLogSys true (mutex_ s) (boost s) (log_threads s) (aborted s).
Definition call_boost (s : LogSys) (b : BoostCall) : LogSys :=
  mkLogSys (initialized_ s) (mutex_ s) (boost s ++ [b]) (log_threads s) (aborted s).
Definition log_abort (s : LogSys) : LogSys :=
  mkLogSys (initialized_ s) (mutex_ s) (boost s) (log_threads s) true.

(** The next step of thread [i], in [initLogging] or in [lg]; an assertion that
    fails ends the process. *)
Definition log_step (i : nat) (s : LogSys) : option LogSys :=
  if aborted s then None else
  '(c, pc) ← log_threads s !! i;
  match pc with
  | LStart =>
      if initialized_ s then
        if is_init c && negb ndebug then Some (log_abort s) else Some (log_goto s i c LReturned)
      else Some (log_goto s i c LLock)
  | LLock =>
      match mutex_ s with
      | None => Some (log_goto (set_mutex s (Some i)) i c LLocked)
      | Some _ => None
      end
  | LLocked =>
      if initialized_ s then
        if is_init c && negb ndebug then Some (log_abort s) else Some (log_goto s i c LUnlock)
      else Some (log_goto s i c (LWork (initLogging_unlock (args_of c))))
  | LWork (b :: rest) => Some (log_goto (call_boost s b) i c (LWork rest))
  | LWork [] => Some (log_goto (set_initialized s) i c LUnlock)
  | LUnlock => Some (log_goto (set_mutex s None) i c LReturned)
  | LReturned => None
  end.

Definition log_init (calls : list LogCall) : LogSys :=
  mkLogSys false None [] ((λ c, (c, LStart)) <$> calls) false.

Definition log_reachable (calls : list LogCall) (s : LogSys) : Prop :=
  rtc (λ s s', exists i, log_step i s = Some s') (log_init calls) s.

(** ** Invariant *)

Definition in_section (pc : log_pc) : bool :=
  match pc with LLocked | LWork _ | LUnlock => true | _ => false end.

(** What holds where the owner of the mutex is. *)
Definition owner_ok (s : LogSys) (c : LogCall) (pc : log_pc) : Prop :=
  match pc with
  | LLocked => initialized_ s = false -> boost s = []
  | LWork rest => initialized_ s = false /\ boost s ++ rest = initLogging_unlock (args_of c)
  | LUnlock => initialized_ s = true
  | _ => False
  end.

Definition configured (s : LogSys) : Prop :=
  exists i c pc, log_threads s !! i = Some (c, pc) /\ boost s = initLogging_unlock (args_of c).

Record log_inv (calls : list LogCall) (s : LogSys) : Prop := {
  li_calls : (log_threads s).*1 = calls;
  li_done : initialized_ s = true -> configured s;
  li_owner : match mutex_ s with
    | None => initialized_ s = false -> boost s = []
    | Some i => exists c pc, log_threads s !! i = Some (c, pc) /\ owner_ok s c pc
    end;
  li_section : forall i c pc, log_threads s !! i = Some (c, pc) -> in_section pc = true -> mutex_ s = Some i;
  li_returned : forall i c, log_threads s !! i = Some (c, LReturned) -> initialized_ s = true;
  li_aborted : aborted s = true -> ndebug = false /\ exists a, CallInit a ∈ calls
}.

Lemma log_init_inv calls : log_inv calls (log_init calls).
Proof.
  constructor; cbn; try done.
  - rewrite <- list_fmap_compose. apply list_fmap_id.
  - intros i c pc E. rewrite list_lookup_fmap in E. destruct (calls !! i); [|done]. by injection E as <- <-.
  - intros i c E. rewrite list_lookup_fmap in E. by destruct (calls !! i).
Qed.

(** The calls of the threads stay. *)
Lemma goto_calls (ts : list (LogCall * log_pc)) i c pc pc' :
  ts !! i = Some (c, pc) -> (<[i := (c, pc')]> ts).*1 = ts.*1.
Proof. intros Hi. rewrite list_fmap_insert. apply list_insert_id. by rewrite list_lookup_fmap, Hi. Qed.

Lemma lookup_goto (ts : list (LogCall * log_pc)) i j x y : <[i := x]> ts !! j = Some y ->
  (j = i /\ y = x) \/ (j <> i /\ ts !! j = Some y).
Proof. intros [(-> & -> & _)|[? ?]]%list_lookup_insert_Some; [left|right]; done. Qed.

(** A step of thread [i] from [pc] to [pc']. *)
Lemma log_goto_inv calls s s' i c pc pc' :
  log_inv calls s -> log_threads s !! i = Some (c, pc) ->
  log_threads s' = <[i := (c, pc')]> (log_threads s) -> aborted s' = aborted s ->
  (initialized_ s = true -> initialized_ s' = true /\ boost s' = boost s) ->
  (initialized_ s' = true -> initialized_ s = false -> boost s' = initLogging_unlock (args_of c)) ->
  (in_section pc' = true -> mutex_ s' = Some i) -> (pc' = LReturned -> initialized_ s' = true) ->
  (forall j, j <> i -> mutex_ s = Some j <-> mutex_ s' = Some j) ->
  match mutex_ s' with
  | None => initialized_ s' = false -> boost s' = []
  | Some j => if decide (j = i) then owner_ok s' c pc' else initialized_ s' = initialized_ s /\ boost s' = boost s
  end -> log_inv calls s'.
Proof.
  intros [Ic Id Io Is Ir Ia] Hi Et Ea Hk Hd Hs Hr Hm Ho.
  assert (i < length (log_threads s))%nat as Hlt by by eapply lookup_lt_Some.
  constructor; rewrite ?Et, ?Ea; try done.
  - by rewrite (goto_calls _ _ _ _ _ Hi).
  - intros Hi'. unfold configured. rewrite Et. destruct (initialized_ s) eqn:E.
    + destruct (Id eq_refl) as (j & c' & q & Hj & Hb). destruct (Hk eq_refl) as [_ ->].
      destruct (decide (j = i)) as [->|Hne].
      * rewrite Hi in Hj. injection Hj as <- <-. exists i, c, pc'. by rewrite list_lookup_insert_eq.
      * exists j, c', q. by rewrite list_lookup_insert_ne.
    + exists i, c, pc'. rewrite list_lookup_insert_eq by done. auto.
  - destruct (mutex_ s') as [j|]; [|done]. destruct (decide (j = i)) as [->|Hne].
    + exists c, pc'. by rewrite list_lookup_insert_eq.
    + rewrite (proj2 (Hm j Hne) eq_refl) in Io. destruct Io as (c' & q & Hj & Hok), Ho as [E1 E2].
      exists c', q. rewrite list_lookup_insert_ne by done. split; [done|]. unfold owner_ok. by rewrite E1, E2.
  - intros j c' q [[-> [= -> ->]]|[Hne Hj]]%lookup_goto Hq; [by apply Hs|]. apply Hm; [done|]. by eapply Is.
  - intros j c' [[-> [= -> <-]]|[Hne Hj]]%lookup_goto; [by apply Hr|]. apply Hk. by eapply Ir.
Qed.

(** The mutex is held by the thread whose place is in the section. *)
Lemma owner_at calls s i c pc : log_inv calls s -> log_threads s !! i = Some (c, pc) ->
  if in_section pc then mutex_ s = Some i /\ owner_ok s c pc else mutex_ s <> Some i.
Proof.
  intros [_ _ Io Is _ _] Hi. destruct (in_section pc) eqn:Ep.
  - pose proof (Is i c pc Hi Ep) as Hm. rewrite Hm in Io. destruct Io as (c' & q & Hj & Hok).
    rewrite Hi in Hj. by injection Hj as <- <-.
  - intros Hm. rewrite Hm in Io. destruct Io as (c' & q & Hj & Hok). rewrite Hi in Hj. injection Hj as <- <-.
    by destruct pc.
Qed.

Lemma log_abort_inv calls s i c pc : log_inv calls s -> log_threads s !! i = Some (c, pc) ->
  is_init c && negb ndebug = true -> log_inv calls (log_abort s).
Proof.
  intros [Ic Id Io Is Ir Ia] Hi [Ec En]%andb_true_iff. constructor; try done. cbn. intros _.
  split; [by destruct ndebug|]. destruct c as [a|]; [|done]. exists a. rewrite <- Ic.
  apply list_elem_of_lookup. exists i. by rewrite list_lookup_fmap, Hi.
Qed.

Lemma log_step_inv calls i s s' : log_inv calls s -> log_step i s = Some s' -> log_inv calls s'.
Proof.
  intros Hinv E. unfold log_step in E. destruct (aborted s) eqn:Ea; [done|].
  destruct (log_threads s !! i) as [[c pc]|] eqn:Hi; [|done]. cbn in E.
  pose proof (owner_at _ _ _ _ _ Hinv Hi) as Ho. pose proof (li_owner _ _ Hinv) as Io.
  destruct pc as [| | |[|b rest]| |]; cbn in Ho; [| | | | | |done].
  - destruct (initialized_ s) eqn:Ei.
    + destruct (is_init c && negb ndebug) eqn:Ec; injection E as <-; [by eapply log_abort_inv|].
      eapply log_goto_inv; [done..|by cbn; rewrite Ei|by cbn; rewrite Ei|done|done|done|].
      cbn. destruct (mutex_ s) as [j|]; [|by rewrite Ei]. by rewrite decide_False by congruence.
    + injection E as <-. eapply log_goto_inv; [done..|by cbn|by cbn; rewrite Ei|done|done|done|].
      cbn. destruct (mutex_ s) as [j|]; [|by auto]. by rewrite decide_False by congruence.
  - destruct (mutex_ s) eqn:Em; [done|]. injection E as <-.
    eapply log_goto_inv; [done..|by cbn|by cbn; congruence|done|done|by cbn; rewrite Em; naive_solver|].
    cbn. by rewrite decide_True.
  - destruct Ho as [Hm Hb]. destruct (initialized_ s) eqn:Ei.
    + destruct (is_init c && negb ndebug) eqn:Ec; injection E as <-; [by eapply log_abort_inv|].
      eapply log_goto_inv; [done..|by cbn; rewrite Ei|by cbn; rewrite Ei|done|done|done|].
      cbn. by rewrite Hm, decide_True.
    + injection E as <-. eapply log_goto_inv; [done..|by cbn|by cbn; rewrite Ei|done|done|done|].
      cbn. rewrite Hm, decide_True by done. split; [done|]. by rewrite Hb.
  - destruct Ho as (Hm & Ei & Hb). rewrite app_nil_r in Hb. injection E as <-.
    eapply log_goto_inv; [done..|by cbn|done|done|done|done|]. cbn. by rewrite Hm, decide_True.
  - destruct Ho as (Hm & Ei & Hb). injection E as <-.
    eapply log_goto_inv; [done..|by cbn; rewrite Ei|by cbn; rewrite Ei|done|done|done|].
    cbn. rewrite Hm, decide_True by done. by rewrite <- app_assoc.
  - destruct Ho as [Hm Ei]. injection E as <-.
    eapply log_goto_inv; [done..|by cbn|by cbn; congruence|done|done|by cbn; rewrite Hm; naive_solver|].
    cbn. congruence.
Qed.

Lemma log_reachable_inv calls s : log_reachable calls s -> log_inv calls s.
Proof.
  intros Hr. pose proof (log_init_inv calls) as Hi. revert Hi. unfold log_reachable in Hr.
  induction Hr as [|x y z [i Hs] _ IH]; [done|]. intros Hi. apply IH. by eapply log_step_inv.
Qed.

(** ** Progress *)

(** The steps a thread has left at most. *)
Definition log_left (t : LogCall * log_pc) : nat :=
  match t.2 with
  | LStart => 5 + length (initLogging_unlock (args_of t.1))
  | LLock => 4 + length (initLogging_unlock (args_of t.1))
  | LLocked => 3 + length (initLogging_unlock (args_of t.1))
  | LWork rest => 2 + length rest
  | LUnlock => 1
  | LReturned => 0
  end.

Definition log_steps_left (s : LogSys) : nat :=
  if aborted s then 0 else S (sum_list_with log_left (log_threads s)).

Lemma log_step_left i s s' : log_step i s = Some s' -> (log_steps_left s' < log_steps_left s)%nat.
Proof.
  intros E. unfold log_step in E. destruct (aborted s) eqn:Ea; [done|].
  destruct (log_threads s !! i) as [[c pc]|] eqn:Hi; [|done]. cbn in E.
  assert (log_steps_left (log_abort s) < log_steps_left s)%nat as Habort by (unfold log_steps_left; rewrite Ea; cbn; lia).
  destruct pc as [| | |[|b rest]| |]; [| | | | | |done]; repeat (case_match; try done); injection E as <-;
    try exact Habort; unfold log_steps_left; cbn; rewrite Ea;
    match goal with |- context [<[i := ?t]> _] => pose proof (sum_list_with_insert log_left _ _ _ t Hi) as Hsum end;
    unfold log_left in Hsum at 2 4; cbn [fst snd length] in Hsum; lia.
Qed.

Lemma log_progress calls s : log_inv calls s -> aborted s = false ->
  Exists (λ t, t.2 <> LReturned) (log_threads s) -> exists i s', log_step i s = Some s'.
Proof.
  intros Hinv Ea ([c pc] & Ht & Hpc)%Exists_exists. apply list_elem_of_lookup in Ht as [i Hi].
  assert (forall j c q, log_threads s !! j = Some (c, q) -> in_section q = true -> exists s', log_step j s = Some s') as Hgo.
  { intros j c' q Hj Hq. unfold log_step. rewrite Ea, Hj. cbn.
    destruct q as [| | |[|b rest]| |]; try done; repeat case_match; eauto. }
  destruct (mutex_ s) as [j|] eqn:Em.
  - pose proof (li_owner _ _ Hinv) as Ho. rewrite Em in Ho. destruct Ho as (c' & q & Hj & Hok).
    exists j. eapply Hgo; [done|]. by destruct q.
  - exists i. destruct (in_section pc) eqn:Ep; [by eapply Hgo|]. unfold log_step. rewrite Ea, Hi, Em. cbn.
    destruct pc; try done; repeat case_match; eauto.
Qed.
End logging.

(** C26. Any number of threads calling [lg] and [initLogging] at the same time,
    under every interleaving: what Boost has been told is always a beginning of
    the configuration of one single caller, never a mix or a repetition; when a
    call has returned the configuration is complete; without [initLogging]
    calls, or with assertions off, no assertion fails; and until all calls have
    returned (or an assertion has ended the process) some thread can go on, each
    step bringing them nearer to the end. *)
Theorem logging_initialised_once ndebug parent_path stem calls s :
  log_reachable ndebug parent_path stem calls s ->
  (boost s = [] \/ exists c, c ∈ calls /\ boost s `prefix_of` initLogging_unlock (args_of parent_path stem c)) /\
  (LReturned ∈ (log_threads s).*2 -> initialized_ s = true /\
     exists c, c ∈ calls /\ boost s = initLogging_unlock (args_of parent_path stem c)) /\
  (aborted s = true -> ndebug = false /\ exists a, CallInit a ∈ calls) /\
  (aborted s = true \/ Forall (λ pc, pc = LReturned) (log_threads s).*2 \/
     exists i s', log_step ndebug parent_path stem i s = Some s') /\
  (forall i s', log_step ndebug parent_path stem i s = Some s' ->
     (log_steps_left parent_path stem s' < log_steps_left parent_path stem s)%nat).
Proof.
  intros Hinv%log_reachable_inv. pose proof Hinv as [Ic Id Io Is Ir Ia].
  assert (forall i c pc, log_threads s !! i = Some (c, pc) -> c ∈ calls) as Hin.
  { intros i c pc Hi. rewrite <- Ic. apply list_elem_of_lookup. exists i. by rewrite list_lookup_fmap, Hi. }
  assert (initialized_ s = true ->
     exists c, c ∈ calls /\ boost s = initLogging_unlock (args_of parent_path stem c)) as Hdone.
  { intros (i & c & pc & Hi & Hb)%Id. eauto. }
  split_and!.
  - destruct (initialized_ s) eqn:Ei.
    { right. destruct Hdone as (c & Hc & ->); [done|]. by exists c. }
    destruct (mutex_ s) as [i|]; [|by left; apply Io]. destruct Io as (c & pc & Hi & Hok).
    destruct pc as [| | |rest| |]; try done; [by left; apply Hok| |by cbn in Hok; congruence].
    right. exists c. split; [by eapply Hin|]. destruct Hok as [_ <-]. by apply prefix_app_r.
  - intros ([c pc] & Epc & [i Hi]%list_elem_of_lookup)%list_elem_of_fmap. cbn in Epc. subst pc. pose proof (Ir i c Hi). auto.
  - done.
  - destruct (aborted s) eqn:Ea; [by left|right].
    destruct (decide (Forall (λ t, t.2 = LReturned) (log_threads s))) as [Hall|Hex].
    + left. by apply Forall_fmap.
    + right. eapply log_progress; [done..|]. by apply not_Forall_Exists; [intros ?; apply _|].
  - intros i s'. apply log_step_left.
Qed.

(** A schedule names the thread of each step. *)
Fixpoint log_run (ndebug : bool) (parent_path stem : string) (schedule : list nat) (s : LogSys) : option LogSys :=
  match schedule with
  | [] => Some s
  | i :: schedule => s ← log_step ndebug parent_path stem i s; log_run ndebug parent_path stem schedule s
  end.

Lemma log_run_reachable ndebug parent_path stem calls schedule s :
  log_run ndebug parent_path stem schedule (log_init calls) = Some s -> log_reachable ndebug parent_path stem calls s.
Proof.
  unfold log_reachable. generalize (log_init calls) as s0. induction schedule as [|i schedule IH]; intros s0 E; cbn in E.
  - injection E as <-. apply rtc_refl.
  - destruct (log_step ndebug parent_path stem i s0) as [s1|] eqn:Es; [|done]. eapply rtc_l; [by exists i|by apply IH].
Qed.

(** Two threads log for the first time together: both pass the first test, the
    first one to take the mutex configures, the other finds it done. *)
Definition two_loggers : list nat := [0; 1; 1; 1; 1; 1; 1; 1; 1; 1; 1; 1; 1; 1; 1; 0; 0; 0]%nat.

Lemma logging_initialised_once_witness : exists s,
  log_run false "/srv" "echo" two_loggers (log_init [CallLg; CallLg]) = Some s /\
  log_threads s = [(CallLg, LReturned); (CallLg, LReturned)] /\
  exists c, c ∈ [CallLg; CallLg] /\ boost s = initLogging_unlock (args_of "/srv" "echo" c).
Proof.
  eexists. split; [vm_compute; reflexivity|]. split; [reflexivity|].
  apply (logging_initialised_once false "/srv" "echo" [CallLg; CallLg]).
  - apply (log_run_reachable _ _ _ _ two_loggers). vm_compute. reflexivity.
  - cbn. left.
Defined.

(** The level of the console has no effect: records of every level go there. *)
Lemma console_level_unused on l1 l2 file_on lf dir prefix :
  initLogging_unlock (mkLogArgs on l1 file_on lf dir prefix) = initLogging_unlock (mkLogArgs on l2 file_on lf dir prefix).
Proof. reflexivity. Qed.

(** [initLogging] after the first log record fails its assertion. *)
Lemma initLogging_after_lg_asserts a : exists s,
  log_run false "/srv" "echo" [0; 0; 0; 0; 0; 0; 0; 0; 0; 0; 0; 0; 0; 0; 1]%nat (log_init [CallLg; CallInit a]) = Some s /\
  aborted s = true.
Proof. eexists. split; [vm_compute; reflexivity|reflexivity]. Qed.

(** Every level is printed by its name, and every other value as a number. *)
Lemma print_level_names lvl v : print_level (level_value lvl) ∈ level_names /\
  (forall lvl', print_level (level_value lvl) = print_level (level_value lvl') -> lvl = lvl') /\
  (5 < v < 2 ^ 31 -> print_level v = pretty v).
Proof.
  split; [destruct lvl; repeat constructor|]. split; [by intros lvl'; destruct lvl, lvl'|].
  intros Hv. unfold print_level. rewrite wrap_id by lia. rewrite (proj2 (Z.ltb_ge _ _)); [done|]. cbn. lia.
Qed.
