(* ===== verification/EventLoop.v ===== *)
(** * The event loop

    [netpp/net/server_status.h] and [netpp/net/event_loop.{h,cpp}].  An
    [EventLoop] is a thin layer over [boost::asio::io_service]; each operation
    is modelled by its new state and the requests it makes to asio, in order.
    asio itself is the environment: it runs the tasks it was given.

    Functors are left abstract: a task is a functor with what the code bound to
    it.  The value of a [std::function] is modelled where it matters, in
    [runEvery]: a closure carries the values it captured. *)

From stdpp Require Import base tactics list numbers strings.
From Stdlib Require Import ZArith Lia QArith.
From S2P Require Import Prelude Machine.
Open Scope Z_scope.

(** ** ServerStatus *)
Inductive Status :=
  | kNull
  | kInitializing
  | kInitialized
  | kStarting
  | kRunning
  | kStopping
  | kStopped.

#[export] Instance Status_eq_dec : EqDecision Status.
Proof. solve_decision. Defined.

Inductive SubStatus :=
  | kSubStatusNull
  | kStoppingListener
  | kStoppingThreadPool.

#[export] Instance SubStatus_eq_dec : EqDecision SubStatus.
Proof. solve_decision. Defined.

Definition StatusToString (status_ : Status) : string :=
  match status_ with
  | kNull => "kNull"
  | kInitialized => "kInitialized"
  | kRunning => "kRunning"
  | kStopping => "kStopping"
  | kStopped => "kStopped"
  | _ => "Unknown"
  end%string.

Definition isRunning (status_ : Status) : bool := bool_decide (status_ = kRunning).
Definition isStopped (status_ : Status) : bool := bool_decide (status_ = kStopped).
Definition isStopping (status_ : Status) : bool := bool_decide (status_ = kStopping).

(** ** The loop *)
Record EventLoop := mkLoop {
  is_own_service_ : bool;
  loop_status_ : Status;
  tid_ : option Z;
  work_ : bool
}.

(** The two constructors: with a service of its own, or with one it is given. *)
Definition EventLoop_new : EventLoop := mkLoop true kNull None false.
Definition EventLoop_of_service : EventLoop := mkLoop false kNull None false.

Definition isInLoopThread (loop : EventLoop) (this_thread : Z) : bool :=
  bool_decide (tid_ loop = Some this_thread).

Section tasks.
Context {Functor : Type}.

(** The value of the local [callback] of [runEvery]: empty, or the lambda with
    the copy of [callback] it captured by [[=]]. *)
Inductive every :=
  | NoTarget
  | EveryLambda (callback : every).

(** What asio is given to run; a timer is named by a number, delays are in
    microseconds. *)
Inductive task :=
  | TFunctor (f : Functor)
  | TAfter (timer : nat) (f : Functor)
  | TEvery (callback : every) (timer : nat) (delay : Z) (f : Functor)
  | TExecTimerEvery (timer : nat) (delay : Z) (f : Functor).

Inductive request :=
  | NewWork
  | EndWork
  | Run
  | StopService
  | DeleteService
  | Dispatch (t : task)
  | Post (t : task)
  | NewTimer (timer : nat)
  | ExpiresFromNow (timer : nat) (delay : Z)
  | AsyncWait (timer : nat) (t : task)
  | Call (f : Functor).

(** [start] up to the call of [io_service::run], and after its return. *)
Definition start (loop : EventLoop) (this_thread : Z) : EventLoop * list request :=
  (mkLoop (is_own_service_ loop) kRunning (Some this_thread) true, [NewWork; Run]).
Definition start_returns (loop : EventLoop) : EventLoop :=
  mkLoop (is_own_service_ loop) kStopped (tid_ loop) (work_ loop).

Definition stop (loop : EventLoop) : EventLoop * list request :=
  (mkLoop (is_own_service_ loop) (loop_status_ loop) (tid_ loop) false, [EndWork; StopService]).

Definition EventLoop_destroy (loop : EventLoop) : list request :=
  if is_own_service_ loop then [DeleteService] else [].

(** [(int64_t)(delay_ms * 1000)], the conversion truncating towards zero; the
    product is taken exactly. *)
Definition microseconds (delay_ms : Q) : Z :=
  Z.quot (Qnum delay_ms * 1000) (Zpos (Qden delay_ms)).

Definition runAfter (timer : nat) (delay : Z) (f : Functor) : list request :=
  [NewTimer timer; ExpiresFromNow timer delay; AsyncWait timer (TAfter timer f)].
Definition runAfter_ms (timer : nat) (delay_ms : Q) (f : Functor) : list request :=
  runAfter timer (microseconds delay_ms) f.

(** The lambda is built, and copies [callback], before it is assigned to
    [callback]. *)
Definition runEvery (timer : nat) (delay : Z) (f : Functor) : list request :=
  let callback := NoTarget in
  let callback := EveryLambda callback in
  [NewTimer timer; ExpiresFromNow timer delay; AsyncWait timer (TEvery callback timer delay f)].
Definition runEvery_ms (timer : nat) (delay_ms : Q) (f : Functor) : list request :=
  runEvery timer (microseconds delay_ms) f.

Definition runInLoop (handler : Functor) : list request := [Dispatch (TFunctor handler)].
Definition queueInLoop (handler : Functor) : list request := [Post (TFunctor handler)].

Definition execTimerEvery (timer : nat) (delay : Z) (f : Functor) : list request :=
  [Call f; ExpiresFromNow timer delay; AsyncWait timer (TExecTimerEvery timer delay f)].

(** Running a task: what it does, or the exception it ends in.  The handler of
    [runAfter] ignores the error code, so it is the same when the timer was
    cancelled. *)
Definition run_task (t : task) : list request + Error :=
  match t with
  | TFunctor f => inl [Call f]
  | TAfter _ f => inl [Call f]
  | TEvery (EveryLambda callback) timer delay f =>
      inl [Call f; ExpiresFromNow timer delay; AsyncWait timer (TEvery callback timer delay f)]
  | TEvery NoTarget _ _ _ => inr BadFunctionCall
  | TExecTimerEvery timer delay f => inl (execTimerEvery timer delay f)
  end.

(** ** Timers that expire again and again *)

Fixpoint calls (rs : list request) : list Functor :=
  match rs with
  | [] => []
  | Call f :: rs => f :: calls rs
  | _ :: rs => calls rs
  end.

Fixpoint waiting (rs : list request) : option task :=
  match rs with
  | [] => None
  | AsyncWait _ t :: _ => Some t
  | _ :: rs => waiting rs
  end.

(** The next [n] expiries of the timer armed by [rs]: the functors called, and
    how it ended. *)
Fixpoint expire (n : nat) (rs : list request) : list Functor * option Error :=
  match n with
  | O => ([], None)
  | S n =>
      match waiting rs with
      | None => ([], None)
      | Some t =>
          match run_task t with
          | inr e => ([], Some e)
          | inl rs => let '(fs, e) := expire n rs in (calls rs ++ fs, e)
          end
      end
  end.

Lemma expire_exec n timer delay f :
  expire n (execTimerEvery timer delay f) = (replicate n f, None).
Proof. induction n as [|n IH]; [done|]. cbn in IH |- *. by rewrite IH. Qed.

(** A functor given to [runEvery] is called once: the lambda captured the
    still empty [callback], so the second expiry calls an empty
    [std::function] and throws [bad_function_call] out of the loop.
    [execTimerEvery], which rebinds itself and which nothing calls, is the timer
    that goes on: [n] expiries, [n] calls. *)
Lemma runEvery_stops_after_one_call n timer delay f :
  expire (2 + n) (runEvery timer delay f) = ([f], Some BadFunctionCall) /\
  expire n (execTimerEvery timer delay f) = (replicate n f, None) /\
  expire (1 + n) (runAfter timer delay f) = ([f], None).
Proof. split_and!; [done|apply expire_exec|by destruct n]. Qed.
End tasks.
Arguments every : clear implicits.
Arguments task : clear implicits.
Arguments request : clear implicits.
