(* ===== verification/LoopThread.v ===== *)
(** * A thread with an event loop

    [netpp/net/event_loop_thread.{h,cpp}]: an [EventLoopThread] owns an
    [EventLoop] and runs it in a thread of its own.  This file models the whole
    class: the caller, who makes a list of calls ([caller_step]), interleaved
    with the thread ([run_step]), one step being one access to an atomic variable
    or one call of a library with the local code around it.  A wait is a step
    that is enabled when what it waits for holds.

    [ThreadPool] models many such threads together, with the functors of the
    pool; here there is one, with any [pre] and [post] and any sequence of
    calls. *)

From stdpp Require Import base tactics list numbers strings relations.
From Stdlib Require Import ZArith Lia.
From S2P Require Import Prelude Machine EventLoop.

(** [enum { kOK = 0 };] *)
Definition kOK : Z := 0.

(** [std::shared_ptr<std::thread> thread_] is represented by the id of the
    thread, [boost::latch latch_] by its count. *)
Record EventLoopThread := mkLoopThread {
  lt_status : Status;
  event_loop_ : EventLoop;
  thread_ : option Z;
  name_ : string;
  latch_ : Z
}.

Definition EventLoopThread_new : EventLoopThread := mkLoopThread kNull EventLoop_new None "" 1.

(** The accessors; [None] is the id of no thread, [std::thread::id()]. *)
Definition setName (t : EventLoopThread) (name : string) : EventLoopThread :=
  mkLoopThread (lt_status t) (event_loop_ t) (thread_ t) name (latch_ t).
Definition getName (t : EventLoopThread) : string := name_ t.
Definition loop (t : EventLoopThread) : EventLoop := event_loop_ t.
Definition tid (t : EventLoopThread) : option Z :=
  match thread_ t with Some id => Some id | None => None end.
Definition loop_isRunning (t : EventLoopThread) : bool := isRunning (loop_status_ (event_loop_ t)).

Definition put_status (t : EventLoopThread) (st : Status) : EventLoopThread :=
  mkLoopThread st (event_loop_ t) (thread_ t) (name_ t) (latch_ t).
Definition put_loop (t : EventLoopThread) (l : EventLoop) : EventLoopThread :=
  mkLoopThread (lt_status t) l (thread_ t) (name_ t) (latch_ t).
Definition put_thread (t : EventLoopThread) (id : option Z) : EventLoopThread :=
  mkLoopThread (lt_status t) (event_loop_ t) id (name_ t) (latch_ t).
Definition put_latch (t : EventLoopThread) (c : Z) : EventLoopThread :=
  mkLoopThread (lt_status t) (event_loop_ t) (thread_ t) (name_ t) c.

(** Where the thread is in [run]. *)
Inductive run_pc :=
  | RNone                     (* no thread yet *)
  | RName                     (* before [if (name_.empty())] *)
  | RQueue                    (* before [queueInLoop(fn)] *)
  | RStart                    (* before [event_loop_->start()] *)
  | RLoop                     (* in [io_service::run] *)
  | RFn                       (* in [fn], before [latch_.count_down()] *)
  | RPre                      (* in [fn], before [pre()] *)
  | RPreFailed                (* in [fn], [pre()] has not returned [kOK] *)
  | RReturned                 (* [io_service::run] has returned *)
  | RPost                     (* before [post()] *)
  | RAssert                   (* before the assertion *)
  | RDone.                    (* the thread has ended *)

#[export] Instance run_pc_eq_dec : EqDecision run_pc.
Proof. solve_decision. Defined.

(** The calls that change the object. *)
Inductive call :=
  | Start (wait_thread_started : bool)
  | Stop (wait_thread_exit : bool)
  | Join
  | SetName (name : string)
  | Destroy.

(** Where the caller is; [Failed] is a failed assertion (of either side) or a
    call of [std::terminate]. *)
Inductive caller_pc :=
  | Idle
  | StartNew (wait_thread_started : bool)
  | StartLatch
  | StartAssert
  | StopAssert (wait_thread_exit : bool)
  | StopStore (wait_thread_exit : bool)
  | StopLoop (wait_thread_exit : bool)
  | StopWait
  | Joining (destroying : bool)
  | Destroyed
  | Failed.

#[export] Instance caller_pc_eq_dec : EqDecision caller_pc.
Proof. solve_decision. Defined.

(** The object, what asio holds for its loop (the posted [fn]s, and whether
    [io_service::stop] was called), the thread, the calls of [post] so far, and
    the caller with the calls it is still to make. *)
Record LoopSys := mkLoopSys {
  ls_obj : EventLoopThread;
  ls_queue : nat;
  ls_stopped : bool;
  ls_run : run_pc;
  ls_posts : nat;
  ls_caller : caller_pc;
  ls_prog : list call
}.

Definition put_obj (s : LoopSys) (t : EventLoopThread) : LoopSys :=
  mkLoopSys t (ls_queue s) (ls_stopped s) (ls_run s) (ls_posts s) (ls_caller s) (ls_prog s).
Definition put_queue (s : LoopSys) (q : nat) : LoopSys :=
  mkLoopSys (ls_obj s) q (ls_stopped s) (ls_run s) (ls_posts s) (ls_caller s) (ls_prog s).
Definition put_run (s : LoopSys) (pc : run_pc) : LoopSys :=
  mkLoopSys (ls_obj s) (ls_queue s) (ls_stopped s) pc (ls_posts s) (ls_caller s) (ls_prog s).
Definition put_caller (s : LoopSys) (pc : caller_pc) : LoopSys :=
  mkLoopSys (ls_obj s) (ls_queue s) (ls_stopped s) (ls_run s) (ls_posts s) pc (ls_prog s).
Definition next_call (s : LoopSys) (pc : caller_pc) : LoopSys :=
  mkLoopSys (ls_obj s) (ls_queue s) (ls_stopped s) (ls_run s) (ls_posts s) pc (tail (ls_prog s)).

Section thread.
(** [pre] is what the functor of that name returns, [None] for an empty one;
    [post] says that there is one; [id] is the id of the thread and [id_string]
    how it prints. *)
Context (ndebug : bool) (pre : option Z) (post : bool) (id : Z) (id_string : string).

(** [assert(b)], then [k]. *)
Definition assert_then (b : bool) (s k : LoopSys) : LoopSys :=
  if b || ndebug then k else put_caller s Failed.

(** [event_loop_->stop()], for either side. *)
Definition stop_loop (s : LoopSys) : LoopSys :=
  mkLoopSys (put_loop (ls_obj s) (stop (Functor := unit) (event_loop_ (ls_obj s))).1)
    (ls_queue s) true (ls_run s) (ls_posts s) (ls_caller s) (ls_prog s).

Definition default_name : string := "thread-" +:+ id_string.

(** [EventLoopThread::run], with the lambda [fn] that [io_service::run] calls. *)
Definition run_step (s : LoopSys) : option LoopSys :=
  let t := ls_obj s in
  match ls_run s with
  | RNone | RDone => None
  | RName =>
      let t := if bool_decide (name_ t = "") then setName t default_name else t in
      Some (put_run (put_obj s t) RQueue)
  | RQueue => Some (put_run (put_queue s (S (ls_queue s))) RStart)
  | RStart => Some (put_run (put_obj s (put_loop t (start (Functor := unit) (event_loop_ t) id).1)) RLoop)
  | RLoop =>
      if ls_stopped s then Some (put_run s RReturned)
      else match ls_queue s with
           | O => None
           | S q => Some (put_run (put_queue (put_obj s (put_status t kRunning)) q) RFn)
           end
  | RFn =>
      if 0 <? latch_ t then Some (put_run (put_obj s (put_latch t (latch_ t - 1))) RPre)
      else Some (put_caller s Failed)
  | RPre =>
      match pre with
      | Some rc => Some (put_run s (if rc =? kOK then RLoop else RPreFailed))
      | None => Some (put_run s RLoop)
      end
  | RPreFailed => Some (put_run (stop_loop s) RLoop)
  | RReturned => Some (put_run (put_obj s (put_loop t (start_returns (event_loop_ t)))) RPost)
  | RPost =>
      Some (mkLoopSys t (ls_queue s) (ls_stopped s) RAssert ((if post then 1 else 0) + ls_posts s)
              (ls_caller s) (ls_prog s))
  | RAssert =>
      Some (assert_then (isStopped (loop_status_ (event_loop_ t))) s
              (put_run (put_obj s (put_status t kStopped)) RDone))
  end.

(** [start], [stop], [join], [setName] and the destructor. *)
Definition caller_step (s : LoopSys) : option LoopSys :=
  let t := ls_obj s in
  match ls_caller s with
  | Idle =>
      match ls_prog s with
      | [] => None
      | Start w :: _ => Some (next_call (put_obj s (put_status t kStarting)) (StartNew w))
      | Stop w :: _ =>
          Some (assert_then (bool_decide (lt_status t = kRunning)) s (next_call s (StopAssert w)))
      | Join :: _ => Some (next_call s (Joining false))
      | SetName name :: _ => Some (next_call (put_obj s (setName t name)) Idle)
      | Destroy :: _ => Some (assert_then (isStopped (lt_status t)) s (next_call s (Joining true)))
      end
  | StartNew w =>
      match thread_ t with
      | None => Some (put_caller (put_run (put_obj s (put_thread t (Some id))) RName)
                        (if w then StartLatch else Idle))
      | Some _ => Some (put_caller s Failed)
      end
  | StartLatch => if latch_ t =? 0 then Some (put_caller s StartAssert) else None
  | StartAssert => Some (assert_then (bool_decide (lt_status t = kRunning)) s (put_caller s Idle))
  | StopAssert w => Some (assert_then (loop_isRunning t) s (put_caller s (StopStore w)))
  | StopStore w => Some (put_caller (put_obj s (put_status t kStopping)) (StopLoop w))
  | StopLoop w => Some (put_caller (stop_loop s) (if w then StopWait else Idle))
  | StopWait => if isStopped (lt_status t) then Some (put_caller s (Joining false)) else None
  | Joining d =>
      let k s := put_caller s (if d then Destroyed else Idle) in
      match thread_ t with
      | None => Some (k s)
      | Some _ =>
          if bool_decide (ls_run s = RDone) then Some (k (put_obj s (put_thread t None))) else None
      end
  | Destroyed => match ls_prog s with [] => None | _ => Some (put_caller s Failed) end
  | Failed => None
  end.

Inductive loop_step (s : LoopSys) : LoopSys -> Prop :=
  | step_caller s' : caller_step s = Some s' -> loop_step s s'
  | step_thread s' : ls_caller s <> Failed -> run_step s = Some s' -> loop_step s s'.

Definition loop_init (prog : list call) : LoopSys :=
  mkLoopSys EventLoopThread_new 0 false RNone 0 Idle prog.

Definition loop_reachable (prog : list call) (s : LoopSys) : Prop := rtc loop_step (loop_init prog) s.

(** A data race on [name_]: the caller is about to write it and the thread to
    read it. *)
Definition name_race (s : LoopSys) : bool :=
  match ls_caller s, ls_prog s, ls_run s with
  | Idle, SetName _ :: _, RName => true
  | _, _, _ => false
  end.
End thread.

(** ** The uses the class is made for

    Named at will while the thread is not just starting, started once with
    waiting, stopped once, joined (by [stop(true)] or [join]), then destroyed. *)
Inductive phase := Fresh | Up | Told | Down | Gone.

Definition use (ph : phase) (c : call) : option phase :=
  match ph, c with
  | Gone, _ => None
  | _, SetName _ => Some ph
  | Fresh, Join => Some Fresh
  | Fresh, Start true => Some Up
  | Up, Stop true => Some Down
  | Up, Stop false => Some Told
  | Told, Join => Some Down
  | Down, Join => Some Down
  | Down, Destroy => Some Gone
  | _, _ => None
  end.

Fixpoint uses (ph : phase) (prog : list call) : option phase :=
  match prog with
  | [] => Some ph
  | c :: prog => ph ← use ph c; uses ph prog
  end.

(** The name after the calls [prog]. *)
Definition name_call (default : string) (name : string) (c : call) : string :=
  match c with
  | SetName name => name
  | Start _ => if bool_decide (name = "") then default else name
  | _ => name
  end.

Section inv.
Context (ndebug : bool) (pre : option Z) (post : bool) (id : Z) (id_string : string).
Abbreviation run_step := (run_step ndebug pre post id id_string).
Abbreviation caller_step := (caller_step ndebug id).
Abbreviation loop_step := (loop_step ndebug pre post id id_string).

(** [pre] is empty or succeeds. *)
Definition pre_ok : Prop := forall rc, pre = Some rc -> rc = kOK.

Definition posts_due : nat := if post then 1 else 0.

(** What the place of the thread says about the rest. *)
Definition run_ok (s : LoopSys) : Prop :=
  let t := ls_obj s in
  let ready := ls_queue s = 0%nat /\ latch_ t = 0 /\ ls_posts s = 0%nat /\ loop_status_ (event_loop_ t) = kRunning /\
               (lt_status t = kRunning /\ ls_stopped s = false \/ lt_status t = kStopping) in
  let over := ls_queue s = 0%nat /\ latch_ t = 0 /\ ls_stopped s = true in
  match ls_run s with
  | RNone => ls_queue s = 0%nat /\ latch_ t = 1 /\ ls_posts s = 0%nat /\ ls_stopped s = false
  | RName | RQueue => ls_queue s = 0%nat /\ latch_ t = 1 /\ ls_posts s = 0%nat /\
                      lt_status t = kStarting /\ ls_stopped s = false
  | RStart => ls_queue s = 1%nat /\ latch_ t = 1 /\ ls_posts s = 0%nat /\ lt_status t = kStarting /\ ls_stopped s = false
  | RLoop => ready \/ ls_queue s = 1%nat /\ latch_ t = 1 /\ ls_posts s = 0%nat /\ lt_status t = kStarting /\
             ls_stopped s = false /\ loop_status_ (event_loop_ t) = kRunning
  | RFn => ls_queue s = 0%nat /\ latch_ t = 1 /\ ls_posts s = 0%nat /\ lt_status t = kRunning /\
           ls_stopped s = false /\ loop_status_ (event_loop_ t) = kRunning
  | RPre => ready
  | RPreFailed => False
  | RReturned => over /\ ls_posts s = 0%nat /\ lt_status t = kStopping
  | RPost => over /\ ls_posts s = 0%nat /\ lt_status t = kStopping /\ loop_status_ (event_loop_ t) = kStopped
  | RAssert => over /\ ls_posts s = posts_due /\ lt_status t = kStopping /\ loop_status_ (event_loop_ t) = kStopped
  | RDone => over /\ ls_posts s = posts_due /\ lt_status t = kStopped /\ loop_status_ (event_loop_ t) = kStopped
  end.

(** What the place of the caller says, in the phase its calls have led to. *)
Definition caller_ok (ph : phase) (s : LoopSys) : Prop :=
  let t := ls_obj s in
  let up := thread_ t = Some id /\ latch_ t = 0 /\ lt_status t = kRunning in
  let told := thread_ t = Some id /\ latch_ t = 0 /\ ls_stopped s = true in
  let down := thread_ t = None /\ ls_run s = RDone in
  match ls_caller s with
  | Idle =>
      match ph with
      | Fresh => thread_ t = None /\ ls_run s = RNone
      | Up => up
      | Told => told
      | Down => down
      | Gone => False
      end
  | StartNew w => w = true /\ ph = Up /\ thread_ t = None /\ ls_run s = RNone /\ lt_status t = kStarting
  | StartLatch => ph = Up /\ thread_ t = Some id /\ ls_run s <> RNone /\ ls_stopped s = false /\ lt_status t <> kStopping
  | StartAssert => ph = Up /\ up
  | StopAssert w | StopStore w => ph = (if w then Down else Told) /\ up
  | StopLoop w => ph = (if w then Down else Told) /\ thread_ t = Some id /\ latch_ t = 0 /\
                  lt_status t = kStopping /\ ls_stopped s = false
  | StopWait => ph = Down /\ told
  | Joining false => ph = Fresh /\ thread_ t = None /\ ls_run s = RNone \/ ph = Down /\ (told \/ down)
  | Joining true => ph = Gone /\ down
  | Destroyed => ph = Gone /\ down
  | Failed => False
  end.

(** The name, with the default that [run] is still to give it. *)
Definition settled_name (s : LoopSys) : string :=
  let settle name := name_call (default_name id_string) name (Start true) in
  match ls_run s, ls_caller s with
  | RName, _ => settle (name_ (ls_obj s))
  | RNone, StartNew _ => settle (name_ (ls_obj s))
  | _, _ => name_ (ls_obj s)
  end.

Record loop_inv (prog : list call) (s : LoopSys) : Prop := {
  li_run : run_ok s;
  li_use : exists ph, caller_ok ph s /\ uses ph (ls_prog s) = uses Fresh prog;
  li_name : exists done, prog = done ++ ls_prog s /\
            settled_name s = foldl (name_call (default_name id_string)) "" done
}.

Lemma loop_init_inv prog : loop_inv prog (loop_init prog).
Proof.
  constructor.
  - cbn. by split_and!.
  - by exists Fresh.
  - exists []. by split.
Qed.

(** The cases of a step: both sides' places are known, and what is left to
    decide are equations between constants. *)
Ltac split_places :=
  repeat first [progress simplify_eq/= | progress destruct_and? | progress destruct_or? | case_bool_decide | case_match];
  try done.
Ltac by_places := split_places; repeat split; try done; auto 6; naive_solver.

Lemma run_step_ok ph s s' : pre_ok -> run_ok s -> caller_ok ph s -> run_step s = Some s' ->
  run_ok s' /\ caller_ok ph s' /\ ls_prog s' = ls_prog s.
Proof.
  intros Hpre Hr Hc E. destruct s as [[st [own ls tid w] th nm la] q svc run posts c prog].
  unfold LoopThread.run_step, assert_then, isStopped in E. unfold run_ok, caller_ok, posts_due in *. cbn in *.
  destruct run; simplify_eq/=; destruct_and?; try done.
  - by_places.
  - by_places.
  - by_places.
  - by_places.
  - by_places.
  - destruct pre as [rc|] eqn:Epre; [rewrite (Hpre rc Epre) in E|]; by_places.
  - by_places.
  - by_places.
  - by_places.
Qed.

Lemma run_step_name ph s s' : pre_ok -> run_ok s -> caller_ok ph s -> run_step s = Some s' ->
  settled_name s' = settled_name s.
Proof.
  intros Hpre Hr Hc E. destruct s as [[st [own ls tid w] th nm la] q svc run posts c prog].
  unfold LoopThread.run_step, assert_then, isStopped in E. unfold run_ok, caller_ok, settled_name in *. cbn in *.
  destruct run; simplify_eq/=; destruct_and?; try done; by_places.
Qed.

Lemma caller_ok_not_failed ph s : caller_ok ph s -> ls_caller s <> Failed.
Proof. unfold caller_ok. by destruct (ls_caller s). Qed.

(** The phase after a step of the caller. *)
Definition next_phase (ph : phase) (s : LoopSys) : phase :=
  match ls_caller s, ls_prog s with
  | Idle, c :: _ => default ph (use ph c)
  | _, _ => ph
  end.

Lemma caller_step_ok ph s s' : run_ok s -> caller_ok ph s -> is_Some (uses ph (ls_prog s)) ->
  caller_step s = Some s' ->
  run_ok s' /\ caller_ok (next_phase ph s) s' /\ uses (next_phase ph s) (ls_prog s') = uses ph (ls_prog s).
Proof.
  intros Hr Hc Hu E. destruct s as [[st [own ls tid w] th nm la] q svc run posts c prog].
  unfold LoopThread.caller_step, assert_then, isStopped, loop_isRunning, isRunning in E. unfold run_ok, caller_ok, next_phase in *. cbn in *.
  destruct c; try done.
  - destruct prog as [|c prog]; [done|]. cbn in Hu. destruct (use ph c) as [ph'|] eqn:Eu; [|by destruct Hu].
    cbn in Hu. destruct c as [[]|[]| | |], ph; simplify_eq/=; destruct_and?; by_places.
  - destruct Hc as (-> & -> & -> & -> & ->). simplify_eq/=. by_places.
  - by_places.
  - by_places.
  - destruct wait_thread_exit; by_places.
  - destruct wait_thread_exit; by_places.
  - destruct wait_thread_exit; by_places.
  - by_places.
  - destruct destroying; by_places.
  - by_places.
Qed.

(** Taking a step of the caller apart without looking at the thread. *)
Ltac caller_cases :=
  repeat match goal with
  | E : ?e = Some _ |- _ =>
      match e with context [match ?x with _ => _ end] => destruct x; try discriminate E end
  end; simplify_eq/=; try done.

(** The calls a step of the caller makes, and what they do to the name. *)
Lemma caller_step_name ph s s' : run_ok s -> caller_ok ph s -> is_Some (uses ph (ls_prog s)) ->
  caller_step s = Some s' -> ls_caller s' <> Failed ->
  exists cs, ls_prog s = cs ++ ls_prog s' /\
    settled_name s' = foldl (name_call (default_name id_string)) (settled_name s) cs.
Proof.
  intros Hr Hc Hu E Hf. exists (match ls_caller s with Idle => take 1 (ls_prog s) | _ => [] end).
  destruct s as [[st [own ls tid w] th nm la] q svc run posts c prog].
  unfold LoopThread.caller_step, assert_then in E. unfold run_ok, caller_ok, settled_name in *. cbn in *.
  destruct c; cbn in Hc; try (destruct_and?; caller_cases; by destruct run).
  destruct prog as [|c prog]; [done|]. cbn in Hu. destruct (use ph c) as [ph'|] eqn:Eu; [|by destruct Hu].
  destruct c as [[]|[]| | |], ph; cbn in Eu, Hc; try discriminate Eu; destruct_and?; caller_cases;
    destruct run; destruct_and?; simplify_eq/=; done.
Qed.

Lemma loop_step_inv prog s s' : pre_ok -> is_Some (uses Fresh prog) -> loop_inv prog s -> loop_step s s' ->
  loop_inv prog s'.
Proof.
  intros Hpre Hprog [Hr (ph & Hc & Hu) (done & Hd & Hn)] [s'' E|s'' Hf E].
  - rewrite <- Hu in Hprog. destruct (caller_step_ok ph s s'' Hr Hc Hprog E) as (Hr' & Hc' & Hu').
    assert (ls_caller s'' <> Failed) as Hnf by (by eapply caller_ok_not_failed).
    destruct (caller_step_name ph s s'' Hr Hc Hprog E Hnf) as (cs & Hcs & Hn'). constructor; [done|exists (next_phase ph s); split; [done|congruence]|].
    exists (done ++ cs). rewrite foldl_app, <- Hn, <- app_assoc, <- Hcs. done.
  - destruct (run_step_ok ph s s'' Hpre Hr Hc E) as (Hr' & Hc' & Hp'). constructor; [done| |].
    + exists ph. by rewrite Hp'.
    + exists done. rewrite Hp'. by rewrite (run_step_name ph s s'').
Qed.

Lemma loop_reachable_inv prog s : pre_ok -> is_Some (uses Fresh prog) ->
  loop_reachable ndebug pre post id id_string prog s -> loop_inv prog s.
Proof.
  intros Hpre Hu Hr. pose proof (loop_init_inv prog) as Hi. revert Hi. 
  induction Hr as [|x y z Hs _ IH]; intros Hi; [done|]. apply IH. by eapply loop_step_inv.
Qed.

(** *** Progress *)
Definition run_rank (s : LoopSys) : nat :=
  match ls_run s with
  | RNone => 12 | RName => 11 | RQueue => 10 | RStart => 9
  | RLoop => match ls_queue s with O => 5 | S _ => 8 end
  | RFn => 7 | RPre => 6 | RPreFailed => 6
  | RReturned => 4 | RPost => 3 | RAssert => 2 | RDone => 0
  end.

Definition caller_rank (pc : caller_pc) : nat :=
  match pc with
  | StartNew _ => 3 | StartLatch => 2 | StartAssert => 1
  | StopAssert _ => 6 | StopStore _ => 5 | StopLoop _ => 4 | StopWait => 3
  | Joining _ => 2
  | Idle | Destroyed | Failed => 0
  end.

(** A bound on the steps that are left. *)
Definition loop_steps_left (s : LoopSys) : nat :=
  7 * length (ls_prog s) + caller_rank (ls_caller s) + run_rank s.

Lemma run_step_rank ph s s' : pre_ok -> run_ok s -> caller_ok ph s -> run_step s = Some s' ->
  (loop_steps_left s' < loop_steps_left s)%nat.
Proof.
  intros Hpre Hr Hc E. destruct s as [[st [own ls tid w] th nm la] q svc run posts c prog].
  unfold LoopThread.run_step, assert_then, isStopped in E. unfold run_ok, caller_ok, loop_steps_left, run_rank in *. cbn in *.
  destruct run; simplify_eq/=; destruct_and?; split_places; try lia.
  all: try (match goal with H : pre = Some ?rc |- _ => rewrite (Hpre rc H) in * end; done).
Qed.

Lemma caller_step_rank ph s s' : caller_ok ph s -> caller_step s = Some s' -> ls_caller s' <> Failed ->
  (loop_steps_left s' < loop_steps_left s)%nat.
Proof.
  intros Hc E Hf. destruct s as [[st [own ls tid w] th nm la] q svc run posts c prog].
  unfold LoopThread.caller_step, assert_then in E. unfold caller_ok, loop_steps_left, run_rank in *. cbn in *.
  destruct c; cbn in Hc; destruct_and?; caller_cases; cbn in *; destruct_and?; simplify_eq/=; lia.
Qed.

(** While the calls are not all made, somebody can take a step. *)
Lemma loop_progress ph s : run_ok s -> caller_ok ph s -> is_Some (uses ph (ls_prog s)) ->
  ls_caller s = Idle /\ ls_prog s = [] \/ ls_caller s = Destroyed /\ ls_prog s = [] \/ exists s', loop_step s s'.
Proof.
  intros Hr Hc Hu.
  destruct (caller_step s) as [s'|] eqn:Ec; [right; right; exists s'; by constructor|].
  destruct (run_step s) as [s'|] eqn:Er.
  { right; right; exists s'; apply step_thread; [|done]. intros Hf. unfold caller_ok in Hc. by rewrite Hf in Hc. }
  destruct s as [[st [own ls tid w] th nm la] q svc run posts c prog].
  unfold LoopThread.run_step, LoopThread.caller_step, assert_then, isStopped, loop_isRunning, isRunning in *.
  unfold run_ok, caller_ok in *. cbn in *.
  destruct c; try done; destruct run; try done; 
   split_places; auto.
Qed.
End inv.

(** ** Claims *)

(** C23. An [EventLoopThread] used the way it is made for, under every
    interleaving of the caller and the thread, in Debug and Release builds: no
    assertion fails and nobody writes [name_] while the thread looks at it.  When
    the calls have been made, the thread is running if it was only started; its
    loop has been told to stop if [stop(false)] was called last; after [stop(true)]
    or [join] it has run to its end, [post] was called exactly once and the status
    is [kStopped].  The name is the one last set, or the default if none was set
    when the thread started. *)
Theorem event_loop_thread_used_well ndebug pre post id id_string prog ph s :
  pre_ok pre -> uses Fresh prog = Some ph ->
  loop_reachable ndebug pre post id id_string prog s ->
  ls_caller s <> Failed /\ name_race s = false /\
  (ls_prog s = [] -> ls_caller s = Idle \/ ls_caller s = Destroyed ->
   getName (ls_obj s) = foldl (name_call (default_name id_string)) "" prog /\
   match ph with
   | Fresh => thread_ (ls_obj s) = None
   | Up => lt_status (ls_obj s) = kRunning /\ loop_isRunning (ls_obj s) = true /\ tid (ls_obj s) = Some id
   | Told => ls_stopped s = true /\ tid (ls_obj s) = Some id
   | Down | Gone => ls_run s = RDone /\ lt_status (ls_obj s) = kStopped /\ tid (ls_obj s) = None /\
                    ls_posts s = posts_due post
   end).
Proof.
  intros Hpre Hu Hr. assert (is_Some (uses Fresh prog)) as Hs by by eexists.
  destruct (loop_reachable_inv _ _ _ _ _ prog s Hpre Hs Hr) as [Hrun (ph' & Hc & Hu') (done & Hd & Hn)].
  rewrite Hu in Hu'. destruct s as [[st [own ls tid w] th nm la] q svc run posts c prog'].
  unfold run_ok, caller_ok, settled_name, loop_isRunning, isRunning in *. cbn in *. split_and!.
  - by intros ->.
  - destruct c; try done. destruct prog' as [|[] prog']; try done. by destruct ph', run; destruct_and?; simplify_eq/=.
  - intros -> Hcal. injection Hu' as ->. rewrite app_nil_r in Hd. subst done. split.
    + rewrite <- Hn. unfold getName. destruct run; try done; by destruct Hcal as [-> | ->], ph; destruct_and?; simplify_eq/=.
    + destruct Hcal as [-> | ->], ph; try done; destruct_and?; simplify_eq/=; try done.
      * destruct run; destruct_and?; destruct_or?; destruct_and?; by simplify_eq/=.
      * destruct_and?. by split_and!.
      * destruct_and?. by split_and!.
Qed.

(** A schedule: [true] is a step of the caller, [false] one of the thread. *)
Section run.
Context (ndebug : bool) (pre : option Z) (post : bool) (id : Z) (id_string : string).

Fixpoint loop_run (schedule : list bool) (s : LoopSys) : option LoopSys :=
  match schedule with
  | [] => Some s
  | true :: schedule => s ← caller_step ndebug id s; loop_run schedule s
  | false :: schedule =>
      if bool_decide (ls_caller s = Failed) then None
      else s ← run_step ndebug pre post id id_string s; loop_run schedule s
  end.

Lemma loop_run_reachable schedule s s' : loop_run schedule s = Some s' ->
  rtc (loop_step ndebug pre post id id_string) s s'.
Proof.
  revert s. induction schedule as [|[] schedule IH]; intros s E; cbn in E.
  - injection E as <-. apply rtc_refl.
  - destruct (caller_step ndebug id s) as [s1|] eqn:Es; [|done]. eapply rtc_l; [by constructor|by apply IH].
  - case_bool_decide as Hf; [done|].
    destruct (run_step ndebug pre post id id_string s) as [s1|] eqn:Es; [|done].
    eapply rtc_l; [by apply step_thread|by apply IH].
Qed.
End run.

(** A thread that is named, started, renamed, stopped and destroyed. *)
Definition full_life : list call := [SetName "io"; Start true; SetName "io-1"; Stop true; Destroy].

Definition full_schedule : list bool :=
  [true; true; true; false; false; false; false; false; true; true; true; false;
   true; true; true; true; false; false; false; false; true; true; true; true].

Definition full_end : LoopSys :=
  mkLoopSys (mkLoopThread kStopped (mkLoop true kStopped (Some 7) false) None "io-1" 0)
    0 true RDone 1 Destroyed [].

Lemma full_life_run : loop_run false (Some kOK) true 7 "7" full_schedule (loop_init full_life) = Some full_end.
Proof. reflexivity. Qed.

Lemma event_loop_thread_used_well_witness :
  loop_reachable false (Some kOK) true 7 "7" full_life full_end /\ name_race full_end = false.
Proof.
  assert (loop_reachable false (Some kOK) true 7 "7" full_life full_end) as Hr
    by exact (loop_run_reachable _ _ _ _ _ _ _ _ full_life_run).
  split; [exact Hr|].
  assert (pre_ok (Some kOK)) as Hpre by (intros rc Hrc; congruence).
  assert (uses Fresh full_life = Some Gone) as Hu by reflexivity.
  exact (proj1 (proj2 (event_loop_thread_used_well false (Some kOK) true 7 "7" full_life Gone full_end Hpre Hu Hr))).
Defined.

(** C24. Such a use terminates: until all the calls have returned the caller or
    the thread can take a step ([stop(true)], [join] and the destructor do not
    wait for ever), and no execution takes more steps than [loop_steps_left]
    says. *)
Theorem event_loop_thread_terminates ndebug pre post id id_string prog s :
  pre_ok pre -> is_Some (uses Fresh prog) ->
  loop_reachable ndebug pre post id id_string prog s ->
  (ls_prog s = [] /\ (ls_caller s = Idle \/ ls_caller s = Destroyed) \/
   exists s', loop_step ndebug pre post id id_string s s') /\
  (forall s', loop_step ndebug pre post id id_string s s' -> (loop_steps_left s' < loop_steps_left s)%nat).
Proof.
  intros Hpre Hs Hr.
  destruct (loop_reachable_inv _ _ _ _ _ prog s Hpre Hs Hr) as [Hrun (ph & Hc & Hu) _]. rewrite <- Hu in Hs. split.
  - destruct (loop_progress ndebug pre post id id_string ph s Hrun Hc Hs) as [[? ?]|[[? ?]|?]]; auto.
  - intros s' [s'' E|s'' _ E]; [|by eapply run_step_rank].
    destruct (caller_step_ok ndebug post id ph s s'' Hrun Hc Hs E) as (_ & Hc' & _).
    eapply caller_step_rank; [exact Hc|exact E|by eapply caller_ok_not_failed].
Qed.

Lemma event_loop_thread_terminates_witness :
  loop_reachable false (Some kOK) true 7 "7" full_life (loop_init full_life) /\
  exists s', loop_step false (Some kOK) true 7 "7" (loop_init full_life) s'.
Proof.
  assert (loop_reachable false (Some kOK) true 7 "7" full_life (loop_init full_life)) as Hr by apply rtc_refl.
  split; [exact Hr|].
  assert (pre_ok (Some kOK)) as Hpre by (intros rc Hrc; congruence).
  assert (is_Some (uses Fresh full_life)) as Hu by by eexists.
  destruct (event_loop_thread_terminates false (Some kOK) true 7 "7" full_life _ Hpre Hu Hr) as [[[Hp _]|H] _].
  - discriminate Hp.
  - exact H.
Defined.

(** C39. When [pre] returns anything but [kOK], the loop stops behind the caller's
    back: [start(true)] can fail its assertion that the thread is running, and
    [stop(true)] can overwrite the [kStopped] of a thread that has ended with
    [kStopping] and then wait for ever for [kStopped]. *)
Theorem failing_pre_breaks_start_and_stop ndebug rc post id id_string : rc <> kOK ->
  (exists s, loop_reachable false (Some rc) post id id_string [Start true] s /\ ls_caller s = Failed) /\
  (exists s, loop_reachable ndebug (Some rc) post id id_string [Start true; Stop true] s /\
     ls_caller s = StopWait /\ ls_run s = RDone /\
     forall s', ~ loop_step ndebug (Some rc) post id id_string s s').
Proof.
  intros Hrc. split.
  - assert (exists s, loop_run false (Some rc) post id id_string
      [true; true; false; false; false; false; false; true; false; false; false; false; false; false; true]
      (loop_init [Start true]) = Some s /\ ls_caller s = Failed) as (s & Hs & Hf).
    { destruct rc; [done|..]; (eexists; split; [vm_compute; reflexivity|done]). }
    exists s. split; [by eapply loop_run_reachable|done].
  - assert (exists s, loop_run ndebug (Some rc) post id id_string
      [true; true; false; false; false; false; false; true; true; true; true;
       false; false; false; false; false; false; true; true]
      (loop_init [Start true; Stop true]) = Some s /\ ls_caller s = StopWait /\ ls_run s = RDone /\
      lt_status (ls_obj s) = kStopping) as (s & Hs & Hc & Hrun & Hst).
    { destruct rc; [done|..]; destruct ndebug; (eexists; split; [vm_compute; reflexivity|by split_and!]). }
    exists s. split; [by eapply loop_run_reachable|]. split_and!; [done|done|].
    intros s' [s'' Es|s'' _ Es].
    + unfold caller_step in Es. by rewrite Hc, Hst in Es.
    + unfold run_step in Es. by rewrite Hrun in Es.
Qed.

Lemma failing_pre_breaks_start_and_stop_witness :
  1 <> kOK /\ exists s, loop_reachable false (Some 1) true 7 "7" [Start true] s /\ ls_caller s = Failed.
Proof.
  assert (1 <> kOK) as H by discriminate. split; [exact H|].
  exact (proj1 (failing_pre_breaks_start_and_stop false 1 true 7 "7" H)).
Defined.

(** The uses that are left out.  [setName] right after [start(false)], which is
    what [EventLoopThreadPool::start(false)] does, races with [run]; [stop] then
    can fail its assertion, and so does the destructor of an object that was
    never started. *)
Lemma setName_races_with_run :
  name_race <$> loop_run false (Some kOK) true 7 "7" [true; true] (loop_init [Start false; SetName "io"]) = Some true.
Proof. reflexivity. Qed.

Lemma stop_before_running_asserts :
  ls_caller <$> loop_run false (Some kOK) true 7 "7" [true; true; true] (loop_init [Start false; Stop true])
  = Some Failed.
Proof. reflexivity. Qed.

Lemma destroying_unstarted_asserts :
  ls_caller <$> loop_run false None false 7 "7" [true] (loop_init [Destroy]) = Some Failed.
Proof. reflexivity. Qed.

(** A second [start] after [stop(true)]: the latch is open and the service still
    stopped, so the assertion of [start] fails. *)
Lemma restart_asserts :
  ls_caller <$> loop_run false (Some kOK) true 7 "7"
    [true; true; false; false; false; false; false; true; true; false;
     true; true; true; true; false; false; false; false; true; true; true; true; true; true]
    (loop_init [Start true; Stop true; Start true]) = Some Failed.
Proof. reflexivity. Qed.
