(* ===== verification/ThreadPool.v ===== *)
(** * Event loop threads and their pool

    [netpp/net/event_loop_thread.{h,cpp}] and
    [netpp/net/event_loop_thread_pool.{h,cpp}].  The pool starts [thread_num_]
    threads, each running an event loop, hands the loops out round robin and
    stops them.

    The starting and stopping is modelled as an interleaving of the calling
    thread ([main_step]) and the loop threads ([thread_step]); one step is one
    access to an atomic variable or one call into asio together with the local
    code around it.  The waits ([latch_.wait()], the [sleep_for] loops) are
    steps that are enabled when what they wait for holds. *)

From stdpp Require Import base tactics list numbers relations.
From Stdlib Require Import ZArith Lia.
From S2P Require Import Prelude Machine EventLoop.

(** ** Round robin *)

(** The loop [getNextLoop] returns: the base loop or the loop of a thread. *)
Inductive loop_ref := BaseLoop | ThreadLoop (i : nat).

#[export] Instance ThreadLoop_inj : Inj (=) (=) ThreadLoop.
Proof. by intros i j [=]. Qed.

Record Pool := mkPoolState {
  pool_status_ : Status;
  next_ : Z;
  threads_ : nat
}.

(** [next_] is an [int64_t], [threads_.size()] a [size_t]: the remainder is
    taken in unsigned 64 bits. *)
Definition getNextLoop (p : Pool) : loop_ref * Pool :=
  if isRunning (pool_status_ p) && negb (threads_ p =? 0)%nat then
    let next := next_ p in
    let p := mkPoolState (pool_status_ p) (int64 (next + 1)) (threads_ p) in
    let next := int64 (wrap64 next mod Z.of_nat (threads_ p)) in
    (ThreadLoop (Z.to_nat next), p)
  else (BaseLoop, p).

Fixpoint nextLoops (k : nat) (p : Pool) : list loop_ref * Pool :=
  match k with
  | O => ([], p)
  | S k => let '(l, p) := getNextLoop p in let '(ls, p) := nextLoops k p in (l :: ls, p)
  end.

Lemma getNextLoop_running next n : (0 < n)%nat -> Z.of_nat n < 2 ^ 32 ->
  getNextLoop (mkPoolState kRunning next n) =
  (ThreadLoop (Z.to_nat (wrap64 next mod Z.of_nat n)), mkPoolState kRunning (int64 (next + 1)) n).
Proof.
  intros Hn Hs. unfold getNextLoop. cbn [pool_status_ threads_ next_ isRunning].
  rewrite (proj2 (Nat.eqb_neq _ _)) by lia. cbn. rewrite swrap_id; [done|lia|].
  pose proof (Z.mod_pos_bound (wrap64 next) (Z.of_nat n)). lia.
Qed.

Lemma wrap64_int64_add next i : wrap64 (int64 (next + 1) + i) = wrap64 (next + (1 + i)).
Proof. rewrite <- (wrap_add_l 64), wrap_swrap, wrap_add_l. f_equal. lia. Qed.

(** The [i]-th of a row of calls. *)
Lemma nextLoops_running k next n : (0 < n)%nat -> Z.of_nat n < 2 ^ 32 ->
  (nextLoops k (mkPoolState kRunning next n)).1 =
  (λ i, ThreadLoop (Z.to_nat (wrap64 (next + Z.of_nat i) mod Z.of_nat n))) <$> seq 0 k.
Proof.
  intros Hn Hs. revert next. induction k as [|k IH]; intros next; [done|].
  cbn [nextLoops]. rewrite getNextLoop_running by done. specialize (IH (int64 (next + 1))).
  destruct (nextLoops k (mkPoolState kRunning (int64 (next + 1)) n)) as [ls p]. cbn in IH |- *.
  rewrite IH. f_equal; [by rewrite Z.add_0_r|].
  rewrite <- fmap_S_seq, <- list_fmap_compose. apply list_fmap_ext. intros j i Hi. cbn.
  do 2 f_equal. rewrite wrap64_int64_add. do 2 f_equal. lia.
Qed.

(** C25. [getNextLoop] on a running pool always returns the loop of an existing
    thread, whatever the counter holds (also after it has overflowed), and any
    [n] calls in a row, [n] being the number of threads, return each loop
    exactly once while the counter does not overflow. *)
Theorem getNextLoop_round_robin next n : (0 < n)%nat -> Z.of_nat n < 2 ^ 32 ->
  (exists i, (getNextLoop (mkPoolState kRunning next n)).1 = ThreadLoop i /\ (i < n)%nat) /\
  (0 <= next -> next + Z.of_nat n < 2 ^ 63 ->
   (nextLoops n (mkPoolState kRunning next n)).1 ≡ₚ ThreadLoop <$> seq 0 n).
Proof.
  intros Hn Hs. split.
  - rewrite getNextLoop_running by done. eexists. split; [done|].
    pose proof (Z.mod_pos_bound (wrap64 next) (Z.of_nat n)). lia.
  - intros H0 Hmax. rewrite nextLoops_running by done. symmetry.
    apply submseteq_length_Permutation; [|by rewrite !length_fmap].
    apply NoDup_submseteq; [apply (NoDup_fmap_2 _); apply NoDup_seq|].
    intros x (j & -> & Hj)%list_elem_of_fmap. apply elem_of_seq in Hj.
    apply list_elem_of_fmap. set (i := (Z.of_nat j - next) mod Z.of_nat n).
    pose proof (Z.mod_pos_bound (Z.of_nat j - next) (Z.of_nat n)) as Hi. fold i in Hi.
    exists (Z.to_nat i). split; [|apply elem_of_seq; lia].
    rewrite wrap_id by lia. rewrite Z2Nat.id by lia. unfold i. rewrite Zplus_mod_idemp_r.
    replace (next + (Z.of_nat j - next)) with (Z.of_nat j) by lia.
    rewrite Z.mod_small by lia. by rewrite Nat2Z.id.
Qed.

Lemma getNextLoop_round_robin_witness :
  (nextLoops 3 (mkPoolState kRunning 5 3)).1 = [ThreadLoop 2; ThreadLoop 0; ThreadLoop 1] /\
  (nextLoops 3 (mkPoolState kRunning 5 3)).1 ≡ₚ ThreadLoop <$> seq 0 3.
Proof.
  split; [reflexivity|]. apply (getNextLoop_round_robin 5 3); lia.
Defined.

(** ** Starting and stopping *)

(** The program counter of [EventLoopThread::run]. *)
Inductive thread_pc :=
  | PBegin                    (* before [event_loop_->start()] *)
  | PInRun                    (* in [io_service::run], [fn] is queued *)
  | PFnRan                    (* in [fn], after [latch_.count_down()] *)
  | PStarted (count : nat)    (* in [pre], after the [fetch_add] *)
  | PIdle                     (* in [io_service::run], nothing to do *)
  | PExited                   (* [event_loop_->start()] has returned *)
  | PCounted (count : nat)    (* in [post], after the [fetch_add] *)
  | PPosted                   (* after [post] *)
  | PDone.                    (* the thread has ended *)

#[export] Instance thread_pc_eq_dec : EqDecision thread_pc.
Proof. solve_decision. Defined.

(** An [EventLoopThread]: its [status_], its loop's, whether [latch_] is open,
    whether [io_service::stop] was called. *)
Record Thread := mkThread {
  th_status : Status;
  th_loop : Status;
  th_latch : bool;
  th_stop : bool;
  th_pc : thread_pc
}.

(** The calling thread: in [start], in [stop], in [join], and after them;
    [MFailed] is a failed assertion of any thread. *)
Inductive main_pc :=
  | MInit
  | MSpawn (i : nat)
  | MWaitLatch (i : nat)
  | MWaitRunning
  | MStartReturned
  | MStop (i : nat)
  | MWaitStopped
  | MStopReturned
  | MJoin (i : nat)
  | MJoined
  | MFailed.

#[export] Instance main_pc_eq_dec : EqDecision main_pc.
Proof. solve_decision. Defined.

Record PoolSys := mkSys {
  ps_status : Status;
  ps_started : nat;
  ps_exited : nat;
  ps_threads : list Thread;
  ps_main : main_pc;
  ps_cb : bool;       (* [stopped_cb_] is not empty *)
  ps_called : nat     (* the calls of the [DoneCallback] *)
}.

Section pool.
(** [start(wait_started)], then [stop(wait_exit, fn)], [has_fn] saying that [fn]
    is not empty, then [join()]. *)
Context (thread_num_ : nat) (wait_started wait_exit has_fn : bool).

(** [EventLoopThread::start] up to the wait for the latch. *)
Definition thread_start : Thread := mkThread kStarting kNull false false PBegin.

(** [EventLoopThread::stop(false)]; [None] when the assertion fails. *)
Definition thread_stop (t : Thread) : option Thread :=
  if bool_decide (th_status t = kRunning) && isRunning (th_loop t) then
    Some (mkThread kStopping (th_loop t) (th_latch t) true (th_pc t))
  else None.

Definition onThreadStarted (count : nat) (status : Status) : Status :=
  if (count =? thread_num_)%nat then kRunning else status.

Definition set_threads (s : PoolSys) (ts : list Thread) : PoolSys :=
  mkSys (ps_status s) (ps_started s) (ps_exited s) ts (ps_main s) (ps_cb s) (ps_called s).
Definition set_main (s : PoolSys) (m : main_pc) : PoolSys :=
  mkSys (ps_status s) (ps_started s) (ps_exited s) (ps_threads s) m (ps_cb s) (ps_called s).
Definition set_status (s : PoolSys) (st : Status) : PoolSys :=
  mkSys st (ps_started s) (ps_exited s) (ps_threads s) (ps_main s) (ps_cb s) (ps_called s).

(** The value of [stopped_cb_], and the calls so far. *)
Definition set_cb (s : PoolSys) (cb : bool) (called : nat) : PoolSys :=
  mkSys (ps_status s) (ps_started s) (ps_exited s) (ps_threads s) (ps_main s) cb called.

Definition onThreadExited (count : nat) (s : PoolSys) : PoolSys :=
  if (count =? thread_num_)%nat then
    let s := set_status s kStopped in
    if ps_cb s then set_cb s false (S (ps_called s)) else s
  else s.

Definition set_pc (t : Thread) (pc : thread_pc) : Thread :=
  mkThread (th_status t) (th_loop t) (th_latch t) (th_stop t) pc.

(** [EventLoopThread::run] and the [pre] and [post] functors of
    [EventLoopThreadPool::start]. *)
Definition thread_step (i : nat) (s : PoolSys) : option PoolSys :=
  t ← ps_threads s !! i;
  let put t := set_threads s (<[i := t]> (ps_threads s)) in
  match th_pc t with
  | PBegin => Some (put (mkThread (th_status t) kRunning (th_latch t) (th_stop t) PInRun))
  | PInRun =>
      if th_stop t then Some (put (mkThread (th_status t) kStopped (th_latch t) (th_stop t) PExited))
      else Some (put (mkThread kRunning (th_loop t) true (th_stop t) PFnRan))
  | PFnRan =>
      let s' := put (set_pc t (PStarted (S (ps_started s)))) in
      Some (mkSys (ps_status s') (S (ps_started s)) (ps_exited s) (ps_threads s') (ps_main s) (ps_cb s) (ps_called s))
  | PStarted count => Some (set_status (put (set_pc t PIdle)) (onThreadStarted count (ps_status s)))
  | PIdle =>
      if th_stop t then Some (put (mkThread (th_status t) kStopped (th_latch t) (th_stop t) PExited)) else None
  | PExited =>
      let s' := put (set_pc t (PCounted (S (ps_exited s)))) in
      Some (mkSys (ps_status s') (ps_started s) (S (ps_exited s)) (ps_threads s') (ps_main s) (ps_cb s) (ps_called s))
  | PCounted count => Some (onThreadExited count (put (set_pc t PPosted)))
  | PPosted =>
      if isStopped (th_loop t)
      then Some (put (mkThread kStopped (th_loop t) (th_latch t) (th_stop t) PDone))
      else Some (set_main s MFailed)
  | PDone => None
  end.

(** [EventLoopThreadPool::start], [stop] and [join].  A wait is a step that is
    enabled when what it waits for holds; [join] of a thread waits for its end,
    and [threads_.clear()] destroys the threads, which asserts that they are
    stopped. *)
Definition main_step (s : PoolSys) : option PoolSys :=
  match ps_main s with
  | MInit =>
      if (thread_num_ =? 0)%nat then Some (set_main (set_status s kRunning) MStartReturned)
      else Some (set_main (set_status s kStarting) (MSpawn 0))
  | MSpawn i =>
      if (i <? thread_num_)%nat
      then Some (set_main (set_threads s (ps_threads s ++ [thread_start]))
                          (if wait_started then MWaitLatch i else MSpawn (S i)))
      else Some (set_main s (if wait_started then MWaitRunning else MStartReturned))
  | MWaitLatch i =>
      t ← ps_threads s !! i;
      if th_latch t then
        Some (set_main s (if bool_decide (th_status t = kRunning) then MSpawn (S i) else MFailed))
      else None
  | MWaitRunning => if isRunning (ps_status s) then Some (set_main s MStartReturned) else None
  | MStartReturned =>
      if (thread_num_ =? 0)%nat then
        let s := set_main (set_status s kStopped) MStopReturned in
        Some (if has_fn then set_cb s false (S (ps_called s)) else s)
      else Some (set_cb (set_main (set_status s kStopping) (MStop 0)) has_fn (ps_called s))
  | MStop i =>
      match ps_threads s !! i with
      | Some t =>
          match thread_stop t with
          | Some t => Some (set_main (set_threads s (<[i := t]> (ps_threads s))) (MStop (S i)))
          | None => Some (set_main s MFailed)
          end
      | None =>
          Some (if wait_exit then set_main s MWaitStopped else set_main (set_status s kStopped) MStopReturned)
      end
  | MWaitStopped =>
      if forallb (λ t, isStopped (th_status t)) (ps_threads s)
      then Some (set_main (set_status s kStopped) MStopReturned) else None
  | MStopReturned => Some (set_main s (MJoin 0))
  | MJoin i =>
      match ps_threads s !! i with
      | Some t => if bool_decide (th_pc t = PDone) then Some (set_main s (MJoin (S i))) else None
      | None =>
          Some (set_main s (if forallb (λ t, isStopped (th_status t)) (ps_threads s) then MJoined else MFailed))
      end
  | MJoined | MFailed => None
  end.

Definition pool_step (s s' : PoolSys) : Prop :=
  main_step s = Some s' \/ exists i, thread_step i s = Some s'.

Definition pool_init : PoolSys := mkSys kNull 0 0 [] MInit false 0.

Definition pool_reachable (s : PoolSys) : Prop := rtc pool_step pool_init s.
End pool.

(** ** Invariant *)
Section pool_inv.
Context (n : nat) (wait_exit has_fn : bool).
Abbreviation main_step := (main_step n true wait_exit has_fn).
Abbreviation pool_step := (pool_step n true wait_exit has_fn).

(** What a thread's program counter says about its status variables. *)
Definition thread_ok (t : Thread) : Prop :=
  match th_pc t with
  | PBegin => th_status t = kStarting /\ th_loop t = kNull /\ th_latch t = false /\ th_stop t = false
  | PInRun => th_status t = kStarting /\ th_loop t = kRunning /\ th_latch t = false /\ th_stop t = false
  | PFnRan | PStarted _ | PIdle =>
      th_status t = (if th_stop t then kStopping else kRunning) /\ th_loop t = kRunning /\ th_latch t = true
  | PExited | PCounted _ | PPosted =>
      th_status t = kStopping /\ th_loop t = kStopped /\ th_latch t = true /\ th_stop t = true
  | PDone => th_status t = kStopped /\ th_loop t = kStopped /\ th_latch t = true /\ th_stop t = true
  end.

Definition latched (t : Thread) : Prop := th_latch t = true /\ th_stop t = false.

(** Where the calling thread is. *)
Definition main_ok (s : PoolSys) : Prop :=
  let ts := ps_threads s in
  match ps_main s with
  | MInit => ts = []
  | MSpawn i => length ts = i /\ (i <= n)%nat /\ (0 < n)%nat /\ Forall latched ts
  | MWaitLatch i => (i < n)%nat /\ exists ts' t, ts = ts' ++ [t] /\ length ts' = i /\
                    Forall latched ts' /\ th_stop t = false
  | MWaitRunning => (0 < n)%nat /\ length ts = n /\ Forall latched ts
  | MStartReturned => length ts = n /\ Forall latched ts /\ ps_status s = kRunning
  | MStop i => (0 < n)%nat /\ length ts = n /\ exists ts1 ts2, ts = ts1 ++ ts2 /\ length ts1 = i /\
               Forall (λ t, th_latch t = true /\ th_stop t = true) ts1 /\ Forall latched ts2
  | MWaitStopped => length ts = n /\ Forall (λ t, th_latch t = true /\ th_stop t = true) ts
  | MStopReturned => length ts = n /\ Forall (λ t, th_latch t = true /\ th_stop t = true) ts /\
                     (wait_exit = true -> ps_status s = kStopped /\ Forall (λ t, th_status t = kStopped) ts)
  | MJoin i => length ts = n /\ Forall (λ t, th_latch t = true /\ th_stop t = true) ts /\
               Forall (λ t, th_status t = kStopped) (take i ts)
  | MJoined => length ts = n /\ Forall (λ t, th_status t = kStopped) ts
  | MFailed => False
  end.

(** Before [stop]. *)
Definition starting (m : main_pc) : bool :=
  match m with MSpawn _ | MWaitLatch _ | MWaitRunning | MStartReturned => true | _ => false end.

(** The threads that have done the [fetch_add] of [pre]. *)
Definition counted (t : Thread) : bool :=
  match th_pc t with PBegin | PInRun | PFnRan => false | _ => true end.

Record pool_inv (s : PoolSys) : Prop := {
  pi_threads : Forall thread_ok (ps_threads s);
  pi_main : main_ok s;
  pi_started : ps_started s = count counted (ps_threads s);
  pi_running : starting (ps_main s) = true -> (0 < n)%nat -> ps_started s = n ->
    ps_status s = kRunning \/ exists t, t ∈ ps_threads s /\ th_pc t = PStarted n
}.

(** Replacing thread [i] by what its step makes of it keeps what the calling
    thread knows about it. *)
Definition same_flags (t t' : Thread) : Prop :=
  th_stop t' = th_stop t /\ (th_latch t = true -> th_latch t' = true) /\
  (th_status t = kStopped -> th_status t' = kStopped).

Lemma Forall_update {A} (P : A -> Prop) (R : A -> A -> Prop) l i x y :
  (forall a b, R a b -> P a -> P b) -> l !! i = Some x -> R x y -> Forall P l -> Forall P (<[i := y]> l).
Proof.
  intros HR Hi Hxy HF. apply Forall_insert; [done|]. eapply HR; [done|].
  by eapply Forall_lookup_1.
Qed.

Lemma latched_same a b : same_flags a b -> latched a -> latched b.
Proof. intros (Hs & Hl & _) [? ?]. split; [auto|]. by rewrite Hs. Qed.

Lemma main_ok_update s i t t' status' started' exited' cb' called' :
  main_ok s -> ps_threads s !! i = Some t -> same_flags t t' -> th_status t <> kStopped ->
  (ps_status s = kRunning -> th_stop t = false -> status' = kRunning) ->
  main_ok (mkSys status' started' exited' (<[i := t']> (ps_threads s)) (ps_main s) cb' called').
Proof.
  intros Hm Hi Hf Hst Hrun. unfold main_ok in *. cbn [ps_threads ps_main ps_status].
  pose proof (lookup_lt_Some _ _ _ Hi) as Hlt.
  assert (forall l j, l !! j = Some t -> Forall latched l -> Forall latched (<[j := t']> l)) as Hup.
  { intros l j Hj. eapply Forall_update; [|done|exact Hf]. apply latched_same. }
  assert (forall l j, l !! j = Some t -> Forall (λ t, th_latch t = true /\ th_stop t = true) l ->
    Forall (λ t, th_latch t = true /\ th_stop t = true) (<[j := t']> l)) as Hup'.
  { intros l j Hj HF. eapply Forall_update; [|done|exact Hf|done]. intros a b (Hs & Hla & _) [? ?]. rewrite Hs. auto. }
  destruct (ps_main s); rewrite ?length_insert.
  - rewrite Hm in Hi. done.
  - destruct Hm as (? & ? & ? & ?). split_and!; auto.
  - destruct Hm as (? & ts' & t0 & Ets & Hl & Hla & Hs0). split; [done|]. rewrite Ets in *.
    destruct (decide (i < length ts')%nat) as [Hc|Hc].
    + rewrite lookup_app_l in Hi by done. exists (<[i := t']> ts'), t0. rewrite insert_app_l by done.
      rewrite length_insert. split_and!; auto.
    + assert (i = length ts' + 0)%nat as -> by (rewrite length_app in Hlt; cbn in Hlt; lia).
      rewrite lookup_app_r in Hi by lia. rewrite Nat.add_sub_swap, Nat.sub_diag in Hi by lia. cbn in Hi.
      injection Hi as ->. rewrite insert_app_r. exists ts', t'. split_and!; try done. by destruct Hf as (-> & _).
  - destruct Hm as (? & ? & ?). split_and!; auto.
  - destruct Hm as (? & HF & ?). split_and!; auto. apply Hrun; [done|].
    by destruct (Forall_lookup_1 _ _ _ _ HF Hi).
  - destruct Hm as (? & ? & ts1 & ts2 & Ets & Hl & H1 & H2). split_and!; [done|done|]. rewrite Ets in *.
    destruct (decide (i < length ts1)%nat) as [Hc|Hc].
    + rewrite lookup_app_l in Hi by done. exists (<[i := t']> ts1), ts2. rewrite insert_app_l by done.
      rewrite length_insert. split_and!; auto.
    + replace i with (length ts1 + (i - length ts1))%nat by lia. rewrite insert_app_r.
      rewrite lookup_app_r in Hi by lia. exists ts1, (<[(i - length ts1)%nat := t']> ts2). split_and!; auto.
  - destruct Hm as (? & HF). auto.
  - destruct Hm as (? & HF & Hw). split_and!; [done|auto|]. intros [_ HFs]%Hw.
    by destruct (Hst (Forall_lookup_1 _ _ _ _ HFs Hi)).
  - destruct Hm as (? & HF & HFs). split_and!; [done|auto|]. rewrite take_insert_ge; [done|].
    apply Nat.nlt_ge. intros Hlt'. apply Hst. apply (Forall_lookup_1 _ _ i t HFs). by rewrite lookup_take_lt.
  - destruct Hm as (? & HF). by destruct (Hst (Forall_lookup_1 _ _ _ _ HF Hi)).
  - done.
Qed.

(** The count of started threads, when thread [i] moves. *)
Lemma started_update s i t t' :
  ps_started s = count counted (ps_threads s) -> ps_threads s !! i = Some t ->
  (count counted (<[i := t']> (ps_threads s)) + (if counted t then 1 else 0)
   = ps_started s + (if counted t' then 1 else 0))%nat.
Proof. intros ->. apply count_insert. Qed.

(** A pending [PStarted n] of another thread is still there. *)
Lemma pending_update s i t t' : ps_threads s !! i = Some t -> th_pc t <> PStarted n ->
  (exists u, u ∈ ps_threads s /\ th_pc u = PStarted n) ->
  exists u, u ∈ <[i := t']> (ps_threads s) /\ th_pc u = PStarted n.
Proof.
  intros Hi Ht (u & Hu & Hpc). exists u. split; [|done].
  apply list_elem_of_lookup in Hu as [j Hj]. apply list_elem_of_lookup. exists j.
  rewrite list_lookup_insert_ne; [done|]. intros ->. rewrite Hi in Hj. injection Hj as ->. done.
Qed.

(** A step of thread [i] that only moves the thread. *)
Lemma thread_move_inv s i t t' :
  pool_inv s -> ps_threads s !! i = Some t -> thread_ok t' -> same_flags t t' ->
  th_status t <> kStopped -> counted t' = counted t -> th_pc t <> PStarted n ->
  pool_inv (set_threads s (<[i := t']> (ps_threads s))).
Proof.
  intros [It Im Is Ir] Hi Hok Hf Hst Hc Hpc. unfold set_threads. constructor; cbn.
  - by apply Forall_insert.
  - eapply main_ok_update; eauto.
  - pose proof (started_update s i t t' Is Hi) as Hu. rewrite Hc in Hu. destruct (counted t); lia.
  - intros Hm Hn Hs. destruct (Ir Hm Hn Hs) as [?|?]; [by left|right]. by eapply pending_update.
Qed.

Lemma main_ok_not_failed s : main_ok s -> ps_main s <> MFailed.
Proof. unfold main_ok. by destruct (ps_main s). Qed.

Lemma count_le {A} (p : A -> bool) l : (count p l <= length l)%nat.
Proof. induction l as [|x l IH]; [done|]. rewrite count_cons. cbn. destruct (p x); lia. Qed.

(** The number of threads is never more than [n]. *)
Lemma main_ok_length s : main_ok s -> (length (ps_threads s) <= n)%nat.
Proof.
  unfold main_ok. destruct (ps_main s); try (intros; destruct_and?; lia).
  - intros ->. cbn. lia.
  - intros (? & ts & t & -> & <- & _). rewrite length_app. cbn. lia.
Qed.

Lemma starting_no_stop s : main_ok s -> starting (ps_main s) = true ->
  Forall (λ t, th_stop t = false) (ps_threads s).
Proof.
  assert (forall ts, Forall latched ts -> Forall (λ t, th_stop t = false) ts) as Hl.
  { intros ts HF. eapply Forall_impl; [exact HF|]. by intros t [_ ?]. }
  unfold main_ok. destruct (ps_main s); try done.
  - intros (_ & _ & _ & ?) _. auto.
  - intros (_ & ts & t & -> & _ & ? & ?) _. apply Forall_app. split; auto.
  - intros (_ & _ & ?) _. auto.
  - intros (_ & ? & _) _. auto.
Qed.

Lemma onThreadExited_frame c s : exists st cb k,
  onThreadExited n c s = mkSys st (ps_started s) (ps_exited s) (ps_threads s) (ps_main s) cb k.
Proof. unfold onThreadExited. destruct s. repeat case_match; by eexists _, _, _. Qed.

(** The other steps of a thread, given its place, its status and [th_stop]. *)
Ltac by_move s i t Epc Est Estop :=
  eapply (thread_move_inv s i t); try done; unfold counted, same_flags; cbn; rewrite ?Epc, ?Est, ?Estop; try done.

(** The step of thread [i] that does the [fetch_add] of [pre], the one that
    calls [onThreadStarted], and the one that calls [onThreadExited]. *)
Lemma thread_counts_inv s i t : pool_inv s -> ps_threads s !! i = Some t -> th_pc t = PFnRan ->
  pool_inv (mkSys (ps_status s) (S (ps_started s)) (ps_exited s)
    (<[i := set_pc t (PStarted (S (ps_started s)))]> (ps_threads s)) (ps_main s) (ps_cb s) (ps_called s)).
Proof.
  intros [It Im Is Ir] Hi Epc. pose proof (Forall_lookup_1 _ _ _ _ It Hi) as Hok. unfold thread_ok in Hok.
  rewrite Epc in Hok. destruct Hok as (E1 & E2 & E3).
  pose proof (started_update s i t (set_pc t (PStarted (S (ps_started s)))) Is Hi) as Hu.
  unfold counted in Hu at 2 3. rewrite Epc in Hu. cbn in Hu. constructor; cbn.
  - by apply Forall_insert.
  - eapply (main_ok_update s); try done. rewrite E1. by destruct (th_stop t).
  - lia.
  - intros _ _ <-. right. exists (set_pc t (PStarted (S (ps_started s)))). split; [|done].
    apply list_elem_of_lookup. exists i. apply list_lookup_insert_eq. by eapply lookup_lt_Some.
Qed.

Lemma thread_started_inv s i t c : pool_inv s -> ps_threads s !! i = Some t -> th_pc t = PStarted c ->
  pool_inv (set_status (set_threads s (<[i := set_pc t PIdle]> (ps_threads s))) (onThreadStarted n c (ps_status s))).
Proof.
  intros [It Im Is Ir] Hi Epc. pose proof (Forall_lookup_1 _ _ _ _ It Hi) as Hok. unfold thread_ok in Hok.
  rewrite Epc in Hok. destruct Hok as (E1 & E2 & E3). unfold onThreadStarted.
  pose proof (started_update s i t (set_pc t PIdle) Is Hi) as Hu.
  unfold counted in Hu at 2 3. rewrite Epc in Hu. cbn in Hu. constructor; cbn.
  - by apply Forall_insert.
  - eapply (main_ok_update s); try done; [rewrite E1; by destruct (th_stop t)|].
    intros Hrun _. by destruct (c =? n)%nat.
  - lia.
  - intros Hm Hn Hs. destruct (c =? n)%nat eqn:Ec; [by left|]. apply Nat.eqb_neq in Ec.
    destruct (Ir Hm Hn Hs) as [?|?]; [by left|right]. eapply pending_update; [done| |done].
    rewrite Epc. intros [=]. done.
Qed.

Lemma thread_exited_inv s i t c : pool_inv s -> ps_threads s !! i = Some t -> th_pc t = PCounted c ->
  pool_inv (onThreadExited n c (set_threads s (<[i := set_pc t PPosted]> (ps_threads s)))).
Proof.
  intros [It Im Is Ir] Hi Epc. pose proof (Forall_lookup_1 _ _ _ _ It Hi) as Hok. unfold thread_ok in Hok.
  rewrite Epc in Hok. destruct Hok as (E1 & E2 & E3 & E4).
  destruct (onThreadExited_frame c (set_threads s (<[i:=set_pc t PPosted]> (ps_threads s)))) as (st & cb & k & ->).
  pose proof (started_update s i t (set_pc t PPosted) Is Hi) as Hu.
  unfold counted in Hu at 2 3. rewrite Epc in Hu. cbn in Hu. constructor; cbn.
  - by apply Forall_insert.
  - eapply (main_ok_update s); try done; [by rewrite E1|]. intros _. by rewrite E4.
  - lia.
  - intros Hm. pose proof (Forall_lookup_1 _ _ _ _ (starting_no_stop s Im Hm) Hi) as Hs. congruence.
Qed.

Lemma thread_step_inv s i s' : pool_inv s -> thread_step n i s = Some s' -> pool_inv s'.
Proof.
  intros Hinv E. unfold thread_step in E. destruct (ps_threads s !! i) as [t|] eqn:Hi; [|done]. cbn in E.
  pose proof (Forall_lookup_1 _ _ _ _ (pi_threads _ Hinv) Hi) as Hok.
  unfold thread_ok in Hok. destruct (th_pc t) as [| | |c| | |c| |] eqn:Epc.
  - injection E as <-. destruct Hok as (E1 & E2 & E3 & E4). by_move s i t Epc E1 E4.
  - destruct Hok as (E1 & E2 & E3 & E4). rewrite E4 in E. injection E as <-. by_move s i t Epc E1 E4.
  - injection E as <-. by apply thread_counts_inv.
  - injection E as <-. by apply thread_started_inv.
  - destruct (th_stop t) eqn:Es; [|done]. injection E as <-. destruct Hok as (E1 & E2 & E3). by_move s i t Epc E1 Es.
  - injection E as <-. destruct Hok as (E1 & E2 & E3 & E4).
    by_move (mkSys (ps_status s) (ps_started s) (S (ps_exited s)) (ps_threads s) (ps_main s) (ps_cb s) (ps_called s))
      i t Epc E1 E4. by destruct Hinv.
  - injection E as <-. by apply thread_exited_inv.
  - destruct Hok as (E1 & E2 & E3 & E4). rewrite E2 in E. injection E as <-. by_move s i t Epc E1 E4.
  - done.
Qed.

Lemma all_stopped ts : forallb (λ t, isStopped (th_status t)) ts = true <-> Forall (λ t, th_status t = kStopped) ts.
Proof.
  rewrite <- Is_true_true, forallb_True. split; intros HF; (eapply Forall_impl; [exact HF|]); intros t; unfold isStopped.
  - by intros ?%bool_decide_unpack.
  - intros ->. done.
Qed.

(** The steps of the calling thread, one place at a time. *)
Ltac main_at Hinv Em E :=
  destruct Hinv as [It Im Is Ir]; unfold ThreadPool.main_step in E; unfold main_ok in Im; rewrite Em in *.

Lemma main_init_inv s s' : pool_inv s -> ps_main s = MInit -> main_step s = Some s' -> pool_inv s'.
Proof.
  intros Hinv Em E. main_at Hinv Em E.
  destruct (n =? 0)%nat eqn:En; injection E as <-.
  - apply Nat.eqb_eq in En. constructor; unfold main_ok; cbn; try done; [|lia].
    rewrite Im. split_and!; [done|constructor|done].
  - apply Nat.eqb_neq in En. constructor; unfold main_ok; cbn; try done.
    + rewrite Im. split_and!; [done|lia|lia|constructor].
    + intros _ _ Hs. rewrite Is, Im, count_nil in Hs. lia.
Qed.

Lemma main_spawn_inv s i s' : pool_inv s -> ps_main s = MSpawn i -> main_step s = Some s' -> pool_inv s'.
Proof.
  intros Hinv Em E. main_at Hinv Em E.
  destruct Im as (Hlen & Hle & Hn & HF). destruct (i <? n)%nat eqn:El; injection E as <-.
  - apply Nat.ltb_lt in El. constructor; unfold main_ok; cbn.
    + apply Forall_app. split; [done|]. repeat constructor.
    + split; [done|]. exists (ps_threads s), thread_start. done.
    + rewrite count_app, Is, count_cons, count_nil. cbn. lia.
    + intros _ _ Hs. pose proof (count_le counted (ps_threads s)). lia.
  - apply Nat.ltb_ge in El. constructor; unfold main_ok; cbn; try done. split_and!; [done|lia|done].
Qed.

Lemma main_latch_inv s i s' : pool_inv s -> ps_main s = MWaitLatch i -> main_step s = Some s' -> pool_inv s'.
Proof.
  intros Hinv Em E. main_at Hinv Em E.
  destruct Im as (Hlt & ts & t & Ets & Hlen & HF & Hs).
  assert (ps_threads s !! i = Some t) as Hi by (rewrite Ets, lookup_app_r, <- Hlen, Nat.sub_diag by lia; done).
  rewrite Hi in E. cbn in E. destruct (th_latch t) eqn:El; [|done].
  pose proof (Forall_lookup_1 _ _ _ _ It Hi) as Hok. unfold thread_ok in Hok.
  assert (th_status t = kRunning) as Hst.
  { rewrite Hs, El in Hok. destruct (th_pc t); destruct_and?; done. }
  rewrite Hst in E. injection E as <-. constructor; unfold main_ok; cbn; try done.
  rewrite Ets, length_app, Hlen. split_and!; [cbn; lia|lia|lia|]. apply Forall_app. split; [done|].
  by repeat constructor.
Qed.

Lemma main_started_inv s s' : pool_inv s -> ps_main s = MStartReturned -> main_step s = Some s' -> pool_inv s'.
Proof.
  intros Hinv Em E. main_at Hinv Em E.
  destruct Im as (Hlen & HF & Hrun). destruct (n =? 0)%nat eqn:En; injection E as <-.
  - apply Nat.eqb_eq in En. rewrite En in Hlen. apply nil_length_inv in Hlen.
    destruct has_fn; constructor; unfold main_ok; cbn; try done; rewrite Hlen;
      (split_and!; [done|constructor|intros _; by repeat constructor]).
  - apply Nat.eqb_neq in En. constructor; unfold main_ok; cbn; try done.
    split_and!; [lia|done|]. exists [], (ps_threads s). split_and!; [done|done|constructor|done].
Qed.

Lemma main_stop_inv s i s' : pool_inv s -> ps_main s = MStop i -> main_step s = Some s' -> pool_inv s'.
Proof.
  intros Hinv Em E. main_at Hinv Em E.
  destruct Im as (Hn & Hlen & ts1 & ts2 & Ets & Hl & H1 & H2).
  destruct (ps_threads s !! i) as [t|] eqn:Hi.
  - rewrite Ets, lookup_app_r, <- Hl, Nat.sub_diag in Hi by lia.
    destruct ts2 as [|t2 ts2]; [done|]. cbn in Hi. injection Hi as ->.
    apply Forall_cons_1 in H2 as [[Hla Hst] H2].
    rewrite Ets in It. apply Forall_app in It as [It1 [Hok It2]%Forall_cons_1].
    assert (th_status t = kRunning /\ th_loop t = kRunning) as [Es El].
    { unfold thread_ok in Hok. rewrite Hst, Hla in Hok. destruct (th_pc t); destruct_and?; done. }
    unfold thread_stop in E. rewrite Es, El in E. cbn in E. injection E as <-.
    set (t' := mkThread kStopping kRunning (th_latch t) true (th_pc t)).
    assert (thread_ok t') as Hok'.
    { unfold thread_ok in *. cbn. rewrite Hst, Hla in *. destruct (th_pc t); destruct_and?; done. }
    rewrite Ets in *. replace i with (length ts1 + 0)%nat in * by lia.
    constructor; unfold main_ok; cbn; rewrite insert_app_r; cbn.
    + apply Forall_app. split; [done|]. by constructor.
    + rewrite length_app in *. cbn in *. split_and!; [done|lia|]. exists (ts1 ++ [t']), ts2.
      rewrite <- app_assoc, length_app. cbn. split_and!; [done|lia| |done].
      apply Forall_app. split; [done|]. by repeat constructor.
    + rewrite Is, !count_app, !count_cons. done.
    + done.
  - injection E as <-. rewrite Ets in Hi. apply lookup_ge_None in Hi. rewrite length_app in Hi.
    destruct ts2 as [|]; [|cbn in Hi; lia]. rewrite app_nil_r in Ets. rewrite <- Ets in H1.
    destruct wait_exit eqn:Hw; constructor; unfold main_ok; cbn; try done. split_and!; [done|done|congruence].
Qed.

Lemma main_join_inv s i s' : pool_inv s -> ps_main s = MJoin i -> main_step s = Some s' -> pool_inv s'.
Proof.
  intros Hinv Em E. main_at Hinv Em E.
  destruct Im as (Hlen & HF & HFs). destruct (ps_threads s !! i) as [t|] eqn:Hi.
  - case_bool_decide as Hd; [|done]. injection E as <-. constructor; unfold main_ok; cbn; try done.
    split_and!; [done|done|]. rewrite (take_S_r _ _ _ Hi). apply Forall_app. split; [done|].
    constructor; [|constructor]. pose proof (Forall_lookup_1 _ _ _ _ It Hi) as Hok. unfold thread_ok in Hok.
    rewrite Hd in Hok. by destruct_and?.
  - rewrite take_ge in HFs by by apply lookup_ge_None. assert (forallb (λ t, isStopped (th_status t)) (ps_threads s) = true) as Hf
      by by apply all_stopped.
    rewrite Hf in E. injection E as <-. constructor; unfold main_ok; cbn; done.
Qed.

Lemma main_step_inv s s' : pool_inv s -> main_step s = Some s' -> pool_inv s'.
Proof.
  intros Hinv E. destruct (ps_main s) as [|i|i| | |i| | |i| |] eqn:Em.
  - by eapply main_init_inv.
  - by eapply main_spawn_inv.
  - by eapply main_latch_inv.
  - main_at Hinv Em E.
    destruct (isRunning (ps_status s)) eqn:Er; [|done]. injection E as <-.
    apply bool_decide_eq_true in Er. destruct Im as (? & ? & ?).
    constructor; unfold main_ok; cbn; try done.
  - by eapply main_started_inv.
  - by eapply main_stop_inv.
  - main_at Hinv Em E.
    destruct (forallb _ _) eqn:Ef; [|done]. injection E as <-. destruct Im as (Hlen & HF).
    constructor; unfold main_ok; cbn; try done. split_and!; [done|done|]. intros _. split; [done|].
    by apply all_stopped.
  - main_at Hinv Em E.
    injection E as <-. constructor; unfold main_ok; cbn; try done. destruct Im as (? & ? & _). by split_and!.
  - by eapply main_join_inv.
  - unfold ThreadPool.main_step in E. by rewrite Em in E.
  - unfold ThreadPool.main_step in E. by rewrite Em in E.
Qed.

(** ** Progress *)

Definition thread_rank (t : Thread) : nat :=
  match th_pc t with
  | PBegin => 8 | PInRun => 7 | PFnRan => 6 | PStarted _ => 5 | PIdle => 4
  | PExited => 3 | PCounted _ => 2 | PPosted => 1 | PDone => 0
  end.

Definition main_rank (m : main_pc) : nat :=
  match m with
  | MInit => 12 * n + 8
  | MSpawn i => 10 * (n - i) + 2 * n + 7
  | MWaitLatch i => 10 * (n - i) + 2 * n - 2
  | MWaitRunning => 2 * n + 6
  | MStartReturned => 2 * n + 5
  | MStop i => n - i + n + 4
  | MWaitStopped => n + 3
  | MStopReturned => n + 2
  | MJoin i => n - i + 1
  | MJoined | MFailed => 0
  end.

(** A bound on the steps that are left. *)
Definition steps_left (s : PoolSys) : nat :=
  main_rank (ps_main s) + sum_list_with thread_rank (ps_threads s).

Lemma thread_step_rank s i s' : pool_inv s -> thread_step n i s = Some s' ->
  (steps_left s' < steps_left s)%nat.
Proof.
  intros [It _ _ _] E. unfold thread_step in E. destruct (ps_threads s !! i) as [t|] eqn:Hi; [|done]. cbn in E.
  pose proof (Forall_lookup_1 _ _ _ _ It Hi) as Hok. unfold thread_ok in Hok.
  assert (forall t' st a b cb k, (thread_rank t' < thread_rank t)%nat ->
    (steps_left (mkSys st a b (<[i := t']> (ps_threads s)) (ps_main s) cb k) < steps_left s)%nat) as Hdec.
  { intros t' st a b cb k Hlt. unfold steps_left. cbn.
    pose proof (sum_list_with_insert thread_rank _ i t t' Hi). lia. }
  unfold thread_rank in Hdec. destruct (th_pc t) eqn:Epc; try done.
  - injection E as <-. apply Hdec. cbn. lia.
  - destruct (th_stop t); injection E as <-; apply Hdec; cbn; lia.
  - injection E as <-. apply Hdec. cbn. lia.
  - injection E as <-. apply Hdec. cbn. lia.
  - destruct (th_stop t); [|done]. injection E as <-. apply Hdec. cbn. lia.
  - injection E as <-. apply Hdec. cbn. lia.
  - destruct (onThreadExited_frame count (set_threads s (<[i:=set_pc t PPosted]> (ps_threads s)))) as (st & cb & k & Ee).
    rewrite Ee in E. injection E as <-. apply Hdec. cbn. lia.
  - destruct Hok as (_ & Hl & _). rewrite Hl in E. injection E as <-. apply Hdec. cbn. lia.
Qed.

Lemma main_step_rank s s' : pool_inv s -> main_step s = Some s' -> (steps_left s' < steps_left s)%nat.
Proof.
  intros Hinv E. pose proof (main_ok_not_failed _ (pi_main _ (main_step_inv _ _ Hinv E))) as Hnf.
  destruct Hinv as [It Im _ _]. unfold ThreadPool.main_step in E. unfold main_ok in Im. unfold steps_left.
  destruct (ps_main s) as [|i|i| | |i| | |i| |] eqn:Em; try done.
  - destruct (n =? 0)%nat; injection E as <-; cbn; lia.
  - destruct Im as (Hlen & Hle & Hn & HF). destruct (i <? n)%nat eqn:El; injection E as <-; cbn.
    + apply Nat.ltb_lt in El. rewrite sum_list_with_app. cbn. lia.
    + lia.
  - destruct Im as (Hlt & _). destruct (ps_threads s !! i) as [t|]; [|done]. cbn in E.
    destruct (th_latch t); [|done]. injection E as <-. cbn in *. case_bool_decide; [|done]. cbn. lia.
  - destruct (isRunning _); [|done]. injection E as <-. cbn. lia.
  - destruct (n =? 0)%nat; injection E as <-; [destruct has_fn|]; cbn; lia.
  - destruct Im as (Hn & Hlen & _). destruct (ps_threads s !! i) as [t|] eqn:Hi.
    + pose proof (lookup_lt_Some _ _ _ Hi). unfold thread_stop in E.
      destruct (_ && _); injection E as <-; [|done]. cbn.
      pose proof (sum_list_with_insert thread_rank _ i t
        (mkThread kStopping (th_loop t) (th_latch t) true (th_pc t)) Hi) as Hs. unfold thread_rank in Hs at 2 4.
      cbn in Hs. lia.
    + injection E as <-. destruct wait_exit; cbn; lia.
  - destruct (forallb _ _); [|done]. injection E as <-. cbn. lia.
  - injection E as <-. cbn. lia.
  - destruct Im as (Hlen & _). destruct (ps_threads s !! i) as [t|] eqn:Hi.
    + pose proof (lookup_lt_Some _ _ _ Hi). case_bool_decide; [|done]. injection E as <-. cbn. lia.
    + injection E as <-. destruct (forallb _ _); cbn; lia.
Qed.

(** A thread that is not waiting can go on. *)
Lemma thread_can_step s i t : ps_threads s !! i = Some t ->
  (th_pc t = PIdle -> th_stop t = true) -> th_pc t <> PDone -> exists s', thread_step n i s = Some s'.
Proof.
  intros Hi Hidle Hd. unfold thread_step. rewrite Hi. cbn.
  destruct (th_pc t); try done; try (by eexists); try (case_match; by eexists).
  rewrite Hidle by done. by eexists.
Qed.

Lemma pool_progress s : pool_inv s -> ps_main s <> MJoined -> exists s', pool_step s s'.
Proof.
  intros [It Im Is Ir] Hm. destruct (main_step s) as [s'|] eqn:E; [exists s'; by left|].
  assert (forall i t, ps_threads s !! i = Some t -> (th_pc t = PIdle -> th_stop t = true) -> th_pc t <> PDone ->
    exists s', pool_step s s') as Hgo.
  { intros i t Hi H1 H2. destruct (thread_can_step s i t Hi H1 H2) as [s' Hs']. exists s'. right. by exists i. }
  unfold ThreadPool.main_step in E. unfold main_ok in Im. destruct (ps_main s) as [|i|i| | |i| | |i| |] eqn:Em; try done.
  - by destruct (n =? 0)%nat.
  - by destruct (i <? n)%nat.
  - destruct Im as (Hlt & ts & t & Ets & Hlen & HF & Hs).
    assert (ps_threads s !! i = Some t) as Hi by (rewrite Ets, lookup_app_r, <- Hlen, Nat.sub_diag by lia; done).
    rewrite Hi in E. cbn in E. destruct (th_latch t) eqn:El; [done|].
    pose proof (Forall_lookup_1 _ _ _ _ It Hi) as Hok. unfold thread_ok in Hok. rewrite El in Hok.
    apply (Hgo i t Hi); intros Hpc; rewrite Hpc in Hok; destruct_and?; done.
  - destruct (isRunning (ps_status s)) eqn:Er; [done|]. apply bool_decide_eq_false in Er.
    destruct Im as (Hn & Hlen & HF).
    destruct (decide (Forall (λ t, th_pc t = PIdle) (ps_threads s))) as [Hall|Hex].
    + exfalso. destruct (Ir eq_refl Hn) as [?|(t & Ht & Hpc)]; [|done|].
      * rewrite Is, count_all; [done|]. eapply Forall_impl; [exact Hall|].
        intros t Ht. unfold counted. by rewrite Ht.
      * rewrite Forall_forall in Hall. rewrite Hall in Hpc by done. done.
    + apply not_Forall_Exists in Hex; [|intros t; apply _].
      apply Exists_exists in Hex as (t & Ht & Hpc). apply list_elem_of_lookup in Ht as [i Hi].
      apply (Hgo i t Hi); [done|]. intros Hd. pose proof (Forall_lookup_1 _ _ _ _ HF Hi) as [_ Hs].
      pose proof (Forall_lookup_1 _ _ _ _ It Hi) as Hok. unfold thread_ok in Hok. rewrite Hd in Hok.
      destruct_and?. congruence.
  - by destruct (n =? 0)%nat.
  - destruct (ps_threads s !! i); [|done]. by destruct (thread_stop t).
  - destruct (forallb _ _) eqn:Ef; [done|]. destruct Im as (Hlen & HF).
    destruct (decide (Forall (λ t, th_status t = kStopped) (ps_threads s))) as [Hall|Hex].
    { apply all_stopped in Hall. congruence. }
    apply not_Forall_Exists in Hex; [|intros t; apply _]. apply Exists_exists in Hex as (t & Ht & Hst).
    apply list_elem_of_lookup in Ht as [i Hi]. pose proof (Forall_lookup_1 _ _ _ _ HF Hi) as [_ Hs].
    apply (Hgo i t Hi); [done|]. intros Hd. pose proof (Forall_lookup_1 _ _ _ _ It Hi) as Hok.
    unfold thread_ok in Hok. rewrite Hd in Hok. by destruct_and?.
  - destruct (ps_threads s !! i) as [t|] eqn:Hi; [|done]. case_bool_decide as Hd; [done|].
    destruct Im as (_ & HF & _). apply (Hgo i t Hi); [|done].
    intros _. by destruct (Forall_lookup_1 _ _ _ _ HF Hi).
Qed.

(** *** The callback of [stop] *)

(** The threads that have done the [fetch_add] of [post]. *)
Definition exited (t : Thread) : bool :=
  match th_pc t with PCounted _ | PPosted | PDone => true | _ => false end.

Definition stop_begun (m : main_pc) : bool :=
  match m with MStop _ | MWaitStopped | MStopReturned | MJoin _ | MJoined => true | _ => false end.

Definition calls_due : nat := if has_fn then 1 else 0.

(** Until the last thread has passed [onThreadExited] the callback waits, and
    then it has been called. *)
Record cb_inv (s : PoolSys) : Prop := {
  ci_exited : ps_exited s = count exited (ps_threads s);
  ci_counted : Forall (λ t, forall c, th_pc t = PCounted c -> (c <= ps_exited s)%nat) (ps_threads s);
  ci_cb : if stop_begun (ps_main s) then
      (n = 0%nat /\ ps_called s = calls_due) \/
      ((0 < n)%nat /\ ps_called s = 0%nat /\ ps_cb s = has_fn /\
        (ps_exited s = n -> exists t, t ∈ ps_threads s /\ th_pc t = PCounted n)) \/
      ((0 < n)%nat /\ ps_exited s = n /\ ps_cb s = false /\ ps_called s = calls_due)
    else ps_called s = 0%nat /\ ps_exited s = 0%nat
}.

(** A thread at [PCounted n] is still there after another one has moved, or
    when its program counter has not changed. *)
Lemma counted_update (ts : list Thread) i t t' : ts !! i = Some t -> th_pc t <> PCounted n \/ th_pc t' = th_pc t ->
  (exists u, u ∈ ts /\ th_pc u = PCounted n) -> exists u, u ∈ <[i := t']> ts /\ th_pc u = PCounted n.
Proof.
  intros Hi Ht (u & Hu & Hpc). apply list_elem_of_lookup in Hu as [j Hj].
  destruct (decide (j = i)) as [->|Hne].
  - exists t'. rewrite Hi in Hj. injection Hj as ->. destruct Ht as [Ht|Ht]; [done|]. split; [|congruence].
    apply list_elem_of_lookup. exists i. apply list_lookup_insert_eq. by eapply lookup_lt_Some.
  - exists u. split; [|done]. apply list_elem_of_lookup. exists j. by rewrite list_lookup_insert_ne.
Qed.

(** A move of thread [i] outside [post]. *)
Lemma cb_move s i t t' st k : cb_inv s -> ps_threads s !! i = Some t -> exited t' = exited t ->
  (th_pc t' = th_pc t \/ forall c, th_pc t <> PCounted c /\ th_pc t' <> PCounted c) ->
  cb_inv (mkSys st k (ps_exited s) (<[i := t']> (ps_threads s)) (ps_main s) (ps_cb s) (ps_called s)).
Proof.
  intros [Ce Cc Cb] Hi He Hpc. constructor; cbn.
  - pose proof (count_insert exited _ i t t' Hi) as Hu. rewrite He in Hu. destruct (exited t); lia.
  - apply Forall_insert; [done|]. intros c Hc. apply (Forall_lookup_1 _ _ _ _ Cc Hi).
    destruct Hpc as [<-|Hpc]; [done|]. by destruct (Hpc c).
  - destruct (stop_begun (ps_main s)); [|done]. destruct Cb as [?|[(? & ? & ? & Hw)|?]]; [by left| |by right; right].
    right. left. split_and!; try done. intros Hx. eapply counted_update; [done| |by apply Hw].
    destruct Hpc as [?|Hpc]; [by right|left]. by destruct (Hpc n).
Qed.

Ltac by_cb_move Hcb Hi Epc :=
  apply (cb_move _ _ _ _ _ _ Hcb Hi);
  [unfold exited; cbn; by rewrite Epc
  |right; intros ?; cbn; rewrite Epc; by split].

(** A thread is told to stop by [stop] only. *)
Lemma stop_begun_of s i t : main_ok s -> ps_threads s !! i = Some t -> th_stop t = true -> stop_begun (ps_main s) = true.
Proof.
  intros Im Hi Hst. destruct (starting (ps_main s)) eqn:Em.
  - pose proof (Forall_lookup_1 _ _ _ _ (starting_no_stop s Im Em) Hi) as Hs. cbn in Hs. congruence.
  - unfold main_ok in Im. destruct (ps_main s); try done. by rewrite Im in Hi.
Qed.

(** The two steps of [post]. *)
Lemma cb_thread_counts s i t : pool_inv s -> cb_inv s -> ps_threads s !! i = Some t -> th_pc t = PExited ->
  cb_inv (mkSys (ps_status s) (ps_started s) (S (ps_exited s))
    (<[i := set_pc t (PCounted (S (ps_exited s)))]> (ps_threads s)) (ps_main s) (ps_cb s) (ps_called s)).
Proof.
  intros [It Im _ _] [Ce Cc Cb] Hi Epc. pose proof (main_ok_length s Im) as Hlen.
  assert (th_stop t = true) as Hst.
  { pose proof (Forall_lookup_1 _ _ _ _ It Hi) as Hok. unfold thread_ok in Hok. rewrite Epc in Hok. by destruct_and?. }
  pose proof (stop_begun_of s i t Im Hi Hst) as Hsb. rewrite Hsb in Cb.
  set (t' := set_pc t (PCounted (S (ps_exited s)))).
  pose proof (count_insert exited _ i t t' Hi) as Hu. unfold exited in Hu at 2 4. cbn in Hu. rewrite Epc in Hu.
  pose proof (count_le exited (<[i := t']> (ps_threads s))) as Hle. rewrite length_insert in Hle.
  constructor; cbn.
  - lia.
  - apply Forall_insert.
    + eapply Forall_impl; [exact Cc|]. cbn. intros u Hc c Hpc. specialize (Hc c Hpc). lia.
    + cbn. intros c [= <-]. done.
  - rewrite Hsb. destruct Cb as [?|[(? & ? & ? & _)|(? & ? & _)]]; [by left| |lia]. right. left. split_and!; try done.
    intros Hx. exists t'. split; [|unfold t'; cbn; by rewrite Hx].
    apply list_elem_of_lookup. exists i. apply list_lookup_insert_eq. by eapply lookup_lt_Some.
Qed.

Lemma cb_thread_exited s i t c : pool_inv s -> cb_inv s -> ps_threads s !! i = Some t -> th_pc t = PCounted c ->
  cb_inv (onThreadExited n c (set_threads s (<[i := set_pc t PPosted]> (ps_threads s)))).
Proof.
  intros [It Im _ _] [Ce Cc Cb] Hi Epc. pose proof (main_ok_length s Im) as Hlen.
  assert (th_stop t = true) as Hst.
  { pose proof (Forall_lookup_1 _ _ _ _ It Hi) as Hok. unfold thread_ok in Hok. rewrite Epc in Hok. by destruct_and?. }
  pose proof (stop_begun_of s i t Im Hi Hst) as Hsb. rewrite Hsb in Cb.
  pose proof (Forall_lookup_1 _ _ _ _ Cc Hi c Epc) as Hc. cbn in Hc.
  pose proof (count_le exited (ps_threads s)) as Hle.
  pose proof (count_insert exited _ i t (set_pc t PPosted) Hi) as Hu. unfold exited in Hu at 2 4. cbn in Hu.
  rewrite Epc in Hu. cbn in Hu.
  assert (Forall (λ u, forall c, th_pc u = PCounted c -> (c <= ps_exited s)%nat)
            (<[i := set_pc t PPosted]> (ps_threads s))) as Cc' by by apply Forall_insert.
  unfold onThreadExited. destruct (c =? n)%nat eqn:Ecn.
  - apply Nat.eqb_eq in Ecn. subst c. assert (ps_exited s = n) as Hx by lia. cbn.
    destruct (ps_cb s) eqn:Ecb; constructor; cbn; try done; try lia; rewrite Hsb.
    + destruct Cb as [[-> _]|[(? & Hk & Hf & _)|(_ & _ & Hf & _)]]; [|right; right|congruence].
      { pose proof (lookup_lt_Some _ _ _ Hi). lia. }
      split_and!; try done. unfold calls_due. by rewrite <- Hf, Hk.
    + destruct Cb as [?|[(? & Hk & Hf & _)|(? & _ & _ & ?)]]; [by left|right; right|by right; right].
      split_and!; try done. unfold calls_due. by rewrite <- Hf.
  - apply Nat.eqb_neq in Ecn. constructor; cbn; try done; try lia. rewrite Hsb.
    destruct Cb as [?|[(? & ? & ? & Hw)|?]]; [by left| |by right; right]. right. left. split_and!; try done.
    intros Hx. eapply counted_update; [done| |by apply Hw]. left. rewrite Epc. congruence.
Qed.

Lemma cb_thread_step s i s' : pool_inv s -> cb_inv s -> thread_step n i s = Some s' -> cb_inv s'.
Proof.
  intros Hinv Hcb E. unfold thread_step in E. destruct (ps_threads s !! i) as [t|] eqn:Hi; [|done]. cbn in E.
  pose proof (Forall_lookup_1 _ _ _ _ (pi_threads _ Hinv) Hi) as Hok. unfold thread_ok in Hok.
  destruct (th_pc t) as [| | |c| | |c| |] eqn:Epc; try done.
  - injection E as <-. by_cb_move Hcb Hi Epc.
  - destruct (th_stop t); injection E as <-; by_cb_move Hcb Hi Epc.
  - injection E as <-. by_cb_move Hcb Hi Epc.
  - injection E as <-. by_cb_move Hcb Hi Epc.
  - destruct (th_stop t); [|done]. injection E as <-. by_cb_move Hcb Hi Epc.
  - injection E as <-. by apply cb_thread_counts.
  - injection E as <-. by apply cb_thread_exited.
  - destruct Hok as (E1 & E2 & _). rewrite E2 in E. injection E as <-.
    by_cb_move Hcb Hi Epc.
Qed.

Lemma cb_main_step s s' : pool_inv s -> cb_inv s -> main_step s = Some s' -> cb_inv s'.
Proof.
  intros Hinv Hcb E. pose proof (main_ok_not_failed _ (pi_main _ (main_step_inv _ _ Hinv E))) as Hnf.
  destruct Hinv as [It Im Is _]. unfold ThreadPool.main_step in E. unfold main_ok in Im. pose proof Hcb as [Ce Cc Cb]. destruct (ps_main s) as [|i|i| | |i| | |i| |] eqn:Em; try done; cbn in Cb.
  - destruct (n =? 0)%nat; injection E as <-; by constructor.
  - destruct (i <? n)%nat; injection E as <-; [|by constructor]. constructor; cbn.
    + rewrite count_app, count_cons, count_nil. cbn. lia.
    + apply Forall_app. split; [done|]. by repeat constructor.
    + done.
  - destruct (ps_threads s !! i) as [t|]; [|done]. cbn in E. destruct (th_latch t); [|done]. injection E as <-.
    constructor; try done. cbn. by case_bool_decide.
  - destruct (isRunning _); [|done]. injection E as <-. by constructor.
  - destruct (n =? 0)%nat eqn:En; injection E as <-.
    + apply Nat.eqb_eq in En. destruct Cb as [Hk _]. destruct has_fn eqn:Hf; constructor; cbn; try done; left; unfold calls_due; rewrite Hf; (split; [done|]); lia.
    + apply Nat.eqb_neq in En. constructor; cbn; try done. right. left. destruct Cb as [Hk Hx].
      split_and!; try done; [lia|]. intros. lia.
  - destruct (ps_threads s !! i) as [t|] eqn:Hi.
    + unfold thread_stop in E. destruct (_ && _); injection E as <-.
      * pose proof (cb_move s i t (mkThread kStopping (th_loop t) (th_latch t) true (th_pc t)) (ps_status s) (ps_started s)
          Hcb Hi eq_refl (or_introl eq_refl)) as [Ce' Cc' Cb']. cbn in *. rewrite Em in Cb'. by constructor.
      * done.
    + injection E as <-. destruct wait_exit; by constructor.
  - destruct (forallb _ _); [|done]. injection E as <-. by constructor.
  - injection E as <-. by constructor.
  - destruct (ps_threads s !! i) as [t|].
    + case_bool_decide; [|done]. injection E as <-. by constructor.
    + injection E as <-. destruct (forallb _ _); [by constructor|done].
Qed.

Lemma pool_reachable_cb s : pool_reachable n true wait_exit has_fn s -> pool_inv s /\ cb_inv s.
Proof.
  intros Hr. assert (pool_inv pool_init) as Hi by (by constructor). assert (cb_inv pool_init) as Hc by (by constructor).
  revert Hi Hc. induction Hr as [|x y z [Hs|[i Hs]] _ IH]; [done| |]; intros Hi Hc; apply IH.
  - by eapply main_step_inv.
  - by eapply cb_main_step.
  - by eapply thread_step_inv.
  - by eapply cb_thread_step.
Qed.
End pool_inv.

(** ** Claims *)

(** C21. [start(true)], [stop] with or without waiting, and [join], on a pool of
    any size and under every interleaving with its threads: no assertion of the
    two classes fails; when [start] has returned, the pool and all its threads
    and loops are running; when [stop(true)] has returned, the pool is stopped
    and every thread has run to its end; and so they have when [join] has
    returned, by when the callback given to [stop] has been called exactly
    once. *)
Theorem pool_start_stop_safe n wait_exit has_fn s : pool_reachable n true wait_exit has_fn s ->
  ps_main s <> MFailed /\
  (ps_main s = MStartReturned -> ps_status s = kRunning /\ length (ps_threads s) = n /\
     Forall (λ t, th_status t = kRunning /\ th_loop t = kRunning) (ps_threads s)) /\
  (ps_main s = MStopReturned -> wait_exit = true -> ps_status s = kStopped /\ length (ps_threads s) = n /\
     Forall (λ t, th_status t = kStopped /\ th_pc t = PDone) (ps_threads s)) /\
  (ps_main s = MJoined -> length (ps_threads s) = n /\ Forall (λ t, th_pc t = PDone) (ps_threads s) /\
     ps_called s = if has_fn then 1%nat else 0%nat) /\
  (ps_called s <= 1)%nat.
Proof.
  intros Hr. destruct (pool_reachable_cb _ _ _ s Hr) as [[It Im _ _] [Ce Cc Cb]].
  assert (forall t, thread_ok t -> th_status t = kStopped -> th_pc t = PDone) as Hdone.
  { unfold thread_ok. intros t Hok Hs. rewrite Hs in Hok. destruct (th_pc t); destruct_and?; try done;
      by destruct (th_stop t). }
  split; [by eapply main_ok_not_failed|]. unfold main_ok in Im. rewrite Forall_forall in It. split_and!.
  - intros Em. rewrite Em in Im. destruct Im as (Hlen & HF & Hst). split_and!; [done|done|].
    apply Forall_forall. intros t Ht. rewrite Forall_forall in HF. destruct (HF t Ht) as [Hla Hs].
    specialize (It t Ht). unfold thread_ok in It. rewrite Hla, Hs in It. destruct (th_pc t); destruct_and?; done.
  - intros Em Hw. rewrite Em in Im. destruct Im as (Hlen & _ & HF). destruct (HF Hw) as [Hst HFs].
    split_and!; [done|done|]. apply Forall_forall. intros t Ht. rewrite Forall_forall in HFs. auto.
  - intros Em. rewrite Em in Im, Cb. destruct Im as (Hlen & HF). rewrite Forall_forall in HF.
    assert (Forall (λ t, th_pc t = PDone) (ps_threads s)) as Hd by (apply Forall_forall; auto).
    split_and!; [done|done|]. cbn in Cb. destruct Cb as [[_ ?]|[(Hn & _ & _ & Hw)|(_ & _ & _ & ?)]]; try done.
    exfalso. destruct Hw as (t & Ht & Hpc).
    + rewrite Ce, count_all; [done|]. eapply Forall_impl; [exact Hd|]. intros t Ht. unfold exited. by rewrite Ht.
    + rewrite Forall_forall in Hd. rewrite Hd in Hpc by done. done.
  - unfold calls_due in Cb. destruct (stop_begun (ps_main s)); [|lia].
    destruct Cb as [[_ ->]|[(_ & -> & _)|(_ & _ & _ & ->)]]; destruct has_fn; lia.
Qed.

(** C22. Starting, stopping and joining the pool terminates: in no reachable
    state are the caller and all the threads waiting for one another before
    [join] has returned, and every step brings them nearer to it (the measure
    [steps_left]).  In particular the two polling loops of the pool end. *)
Theorem pool_start_stop_terminates n wait_exit has_fn s : pool_reachable n true wait_exit has_fn s ->
  (ps_main s = MJoined \/ exists s', pool_step n true wait_exit has_fn s s') /\
  (forall s', pool_step n true wait_exit has_fn s s' -> (steps_left n s' < steps_left n s)%nat).
Proof.
  intros [Hr _]%pool_reachable_cb. split.
  - destruct (decide (ps_main s = MJoined)); [by left|right]. by apply pool_progress.
  - intros s' [Hs|[i Hs]]; [by eapply main_step_rank|by eapply thread_step_rank].
Qed.

(** A schedule: [None] is a step of the caller, [Some i] one of thread [i]. *)
Section run.
Context (n : nat) (wait_started wait_exit has_fn : bool).
Abbreviation step := (pool_step n wait_started wait_exit has_fn).

Fixpoint pool_run (schedule : list (option nat)) (s : PoolSys) : option PoolSys :=
  match schedule with
  | [] => Some s
  | None :: schedule => s ← main_step n wait_started wait_exit has_fn s; pool_run schedule s
  | Some i :: schedule => s ← thread_step n i s; pool_run schedule s
  end.

Lemma pool_run_reachable schedule s s' : pool_run schedule s = Some s' -> rtc step s s'.
Proof.
  revert s. induction schedule as [|[i|] schedule IH]; intros s E; cbn in E.
  - injection E as <-. apply rtc_refl.
  - destruct (thread_step n i s) as [s1|] eqn:Es; [|done]. eapply rtc_l; [right; by exists i|by apply IH].
  - destruct (main_step n wait_started wait_exit has_fn s) as [s1|] eqn:Es; [|done]. eapply rtc_l; [by left|by apply IH].
Qed.
End run.

(** One thread, started, stopped without waiting and joined. *)
Definition one_thread_schedule : list (option nat) :=
  [None; None; Some 0; Some 0; None; None; Some 0; Some 0; None;
   None; None; None; None; Some 0; Some 0; Some 0; Some 0; None; None]%nat.

Definition one_thread_end : PoolSys :=
  mkSys kStopped 1 1 [mkThread kStopped kStopped true true PDone] MJoined false 1.

Lemma one_thread_run : pool_run 1 true false true one_thread_schedule pool_init = Some one_thread_end.
Proof. reflexivity. Qed.

Lemma pool_start_stop_safe_witness :
  pool_reachable 1 true false true one_thread_end /\ ps_main one_thread_end <> MFailed.
Proof.
  assert (pool_reachable 1 true false true one_thread_end) as Hr by exact (pool_run_reachable _ _ _ _ _ _ _ one_thread_run).
  split; [exact Hr|]. apply (pool_start_stop_safe 1 false true one_thread_end Hr).
Defined.

Lemma pool_start_stop_terminates_witness :
  pool_reachable 1 true false true one_thread_end /\
  (ps_main one_thread_end = MJoined \/ exists s', pool_step 1 true false true one_thread_end s').
Proof.
  assert (pool_reachable 1 true false true one_thread_end) as Hr by exact (pool_run_reachable _ _ _ _ _ _ _ one_thread_run).
  split; [exact Hr|]. apply (pool_start_stop_terminates 1 false true one_thread_end Hr).
Defined.

(** Without waiting the status variables run ahead: [start(false)] followed by
    [stop] can fail the assertion of [EventLoopThread::stop] (the thread has not
    begun to run), and [stop(false)] returns with the pool [kStopped] and its
    thread running. *)
Lemma pool_without_waiting :
  (ps_main <$> pool_run 1 false true false [None; None; None; None; None]%nat pool_init) = Some MFailed /\
  (λ s, (ps_main s, ps_status s, th_pc <$> ps_threads s)) <$>
    pool_run 1 true false false [None; None; Some 0; Some 0; None; None; Some 0; Some 0; None; None; None; None]%nat
      pool_init = Some (MStopReturned, kStopped, [PIdle]).
Proof. by split; vm_compute. Qed.
