(* ===== verification/TcpConn.v ===== *)
(** * A connection

    [netpp/net/tcp_conn.{h,cpp}].  Everything a [TCPConn] does happens in
    handlers that asio runs on the connection's loop; the public functions can
    also be called from other threads.  The model has

    - the object, [TCPConn], with its two buffers over the heap of pieces;
    - the [World]: the object, the handlers asio holds for it ([w_pending]) and
      the trace of what the connection did ([w_log]);
    - the handlers, in the monad [H], which adds the world to [M];
    - the step relation: asio runs any pending handler, with any error code, and
      other threads may call the public functions at any time.

    asio's documented contract is in the step rules: a handler it was given runs
    at most once; completions that were already queued when the socket is closed
    still report success, the others [operation_aborted]; cancelling a timer
    makes its handler run with [operation_aborted]. *)

From stdpp Require Import base tactics list numbers gmap.
From Stdlib Require Import ZArith Lia.
From S2P Require Import Prelude Machine Piece Buffer ConnBuffers.

Inductive StateE := kConnected | kDisconnecting | kDisconnected.

#[export] Instance StateE_eq_dec : EqDecision StateE.
Proof. solve_decision. Defined.

(** [boost::system::error_code], as far as the code looks at it. *)
Inductive error_code := ec_success | ec_operation_aborted | ec_other.

#[export] Instance error_code_eq_dec : EqDecision error_code.
Proof. solve_decision. Defined.

Record Endpoint := mkEndpoint { address : list Z; port : Z }.

(** An asio socket: whether it is open, and its addresses. *)
Record Socket := mkSocket { is_open : bool; local_endpoint : Endpoint; remote_endpoint : Endpoint }.

Record TCPConn := mkConn {
  id_ : Z;
  socket_ : option Socket;
  local_addr_ : option Endpoint;
  remote_addr_ : option Endpoint;
  status_ : StateE;
  is_sending_ : bool;
  output_buffer_ : Buffer;
  input_buffer_ : Buffer;
  context_ : option Z;          (* the [boost::any], by a handle of its value *)
  delay_close_timer_ : bool
}.

(** The handlers asio may hold.  [owns] says whether the handler keeps the
    connection alive: [sendInLoop] binds the plain [this]. *)
Inductive conn_task :=
  | TEstablished
  | TSend (queue_head : ptr)
  | TClose
  | TDelayedClose
  | TWrite (owns : bool) (piece : ptr)
  | TRead (piece : loc).

(** What the connection does to the outside. *)
Inductive conn_event :=
  | EConnectionCb (status : StateE)
  | EMessageCb
  | ECloseCb
  | ESend (data : list Z)
  | ERead (room : Z)
  | ECancelTimer
  | ENoDelay (on : bool)
  | EShutdown
  | ESocketClose.

Record World := mkWorld {
  w_conn : TCPConn;
  w_pending : list conn_task;
  w_log : list conn_event
}.

(** ** The monad of the handlers *)
Definition H (A : Type) : Type := World -> M (A * World).

#[export] Instance H_ret : MRet H := λ A a w, mret (a, w).
#[export] Instance H_bind : MBind H := λ A B f c w, '(a, w) ← c w; f a w.

Definition lift {A} (c : M A) : H A := λ w, a ← c; mret (a, w).
Definition gets {A} (f : TCPConn -> A) : H A := λ w, mret (f (w_conn w), w).
Definition modify (f : TCPConn -> TCPConn) : H unit := λ w,
  mret (tt, mkWorld (f (w_conn w)) (w_pending w) (w_log w)).
Definition schedule (t : conn_task) : H unit := λ w,
  mret (tt, mkWorld (w_conn w) (w_pending w ++ [t]) (w_log w)).
Definition note (e : conn_event) : H unit := λ w,
  mret (tt, mkWorld (w_conn w) (w_pending w) (w_log w ++ [e])).

(** Dereferencing [socket_]. *)
Definition the_socket : H Socket :=
  s ← gets socket_;
  match s with Some s => mret s | None => lift (throw NullDeref) end.

Definition set_socket s c := mkConn (id_ c) s (local_addr_ c) (remote_addr_ c) (status_ c)
  (is_sending_ c) (output_buffer_ c) (input_buffer_ c) (context_ c) (delay_close_timer_ c).
Definition set_addrs l r c := mkConn (id_ c) (socket_ c) l r (status_ c)
  (is_sending_ c) (output_buffer_ c) (input_buffer_ c) (context_ c) (delay_close_timer_ c).
Definition setState s c := mkConn (id_ c) (socket_ c) (local_addr_ c) (remote_addr_ c) s
  (is_sending_ c) (output_buffer_ c) (input_buffer_ c) (context_ c) (delay_close_timer_ c).
Definition set_sending v c := mkConn (id_ c) (socket_ c) (local_addr_ c) (remote_addr_ c) (status_ c)
  v (output_buffer_ c) (input_buffer_ c) (context_ c) (delay_close_timer_ c).
Definition set_output b c := mkConn (id_ c) (socket_ c) (local_addr_ c) (remote_addr_ c) (status_ c)
  (is_sending_ c) b (input_buffer_ c) (context_ c) (delay_close_timer_ c).
Definition set_input b c := mkConn (id_ c) (socket_ c) (local_addr_ c) (remote_addr_ c) (status_ c)
  (is_sending_ c) (output_buffer_ c) b (context_ c) (delay_close_timer_ c).
Definition set_timer v c := mkConn (id_ c) (socket_ c) (local_addr_ c) (remote_addr_ c) (status_ c)
  (is_sending_ c) (output_buffer_ c) (input_buffer_ c) (context_ c) v.
Definition setContext (context : option Z) c := mkConn (id_ c) (socket_ c) (local_addr_ c) (remote_addr_ c) (status_ c)
  (is_sending_ c) (output_buffer_ c) (input_buffer_ c) context (delay_close_timer_ c).

(** ** The public interface *)
Definition TCPConn_new (sock : Socket) (id : Z) : TCPConn :=
  mkConn id (Some sock) None None kDisconnected false Buffer_new Buffer_new None false.

Definition isConnected (c : TCPConn) : bool := bool_decide (status_ c = kConnected).
Definition isDisconnecting (c : TCPConn) : bool := bool_decide (status_ c = kDisconnecting).
Definition isDisconnected (c : TCPConn) : bool := bool_decide (status_ c = kDisconnected).

Definition localAddress (c : TCPConn) : option Endpoint := local_addr_ c.
Definition remoteAddress (c : TCPConn) : option Endpoint := remote_addr_ c.
Definition getContext (c : TCPConn) : option Z := context_ c.

(** The default callbacks of [tcp_callbacks.h]. *)
Definition defaultConnectionCallback : H unit := mret tt.
Definition defaultMessageCallback : H unit := mret tt.
Definition defaultVerifyAddressCallback (remote_addr : Endpoint) : bool := true.

(** The piece [readPiece] returned, handed to [async_send] with the handler. *)
Definition async_send (owns : bool) (piece : ptr) : H unit :=
  the_socket;;
  l ← lift (deref piece);
  p ← lift (load l);
  data ← lift (memcpy_from p (p_off p) (p_len p));
  note (ESend data);;
  schedule (TWrite owns piece).

Definition sendInLoop (queue_head : ptr) : H unit :=
  out ← gets output_buffer_;
  out ← lift (writePieceQueue out queue_head);
  modify (set_output out);;
  sending ← gets is_sending_;
  if negb sending then
    modify (set_sending true);;
    '(piece, out) ← lift (readPiece out);
    modify (set_output out);;
    async_send false piece
  else mret tt.

(** The end of the two [send] functions; [in_loop] is [isInLoopThread()]. *)
Definition send_queue (in_loop : bool) (queue_head : ptr) : H unit :=
  if in_loop then sendInLoop queue_head else schedule (TSend queue_head).

(** [send(const void* data, size_t len)], which the overloads for strings call. *)
Definition send (in_loop : bool) (data : list Z) : H unit :=
  c ← gets id;
  if negb (isConnected c) || (zlen data =? 0) then mret tt
  else
    buffer ← lift (write Buffer_new data);
    send_queue in_loop (moveToQueueHead buffer).1.

(** [send(Buffer* buffer)]; returns what is left in the caller's buffer. *)
Definition send_buffer (in_loop : bool) (buffer : Buffer) : H Buffer :=
  c ← gets id;
  if negb (isConnected c) || (length_ buffer =? 0) then mret buffer
  else
    let '(queue_head, buffer) := moveToQueueHead buffer in
    send_queue in_loop queue_head;;
    mret buffer.

(** [send(const char* s)]: [s] up to its terminator. *)
Fixpoint strlen (s : list Z) : nat :=
  match s with
  | [] => 0
  | c :: s => if c =? 0 then 0 else S (strlen s)
  end.
Definition send_cstr (in_loop : bool) (s : list Z) : H unit := send in_loop (take (strlen s) s).
Definition send_string (in_loop : bool) (d : list Z) : H unit := send in_loop d.

(** [status_.compare_exchange_strong(expected, kDisconnecting)] *)
Definition start_closing : H bool :=
  c ← gets id;
  if isConnected c then modify (setState kDisconnecting);; mret true else mret false.

Definition close : H unit :=
  b ← start_closing;
  if b : bool then schedule TClose else mret tt.

Definition closeWithDelay : H unit :=
  b ← start_closing;
  if b : bool then schedule TDelayedClose;; modify (set_timer true) else mret tt.

Definition setTcpNoDelay (on : bool) : H unit :=
  the_socket;;
  note (ENoDelay on).

(** ** The handlers

    The three callbacks are the application's and the owner's. *)
Section handlers.
Context (connection_cb_ message_cb_ close_cb_ : H unit).

Definition call_connection_cb : H unit :=
  s ← gets status_;
  note (EConnectionCb s);;
  connection_cb_.

Definition launchRead : H unit :=
  piece ← lift newPiece;
  p ← lift (load piece);
  the_socket;;
  note (ERead (kPieceCapacity - p_off p));;
  schedule (TRead piece).

(** [local_endpoint()] and [remote_endpoint()] throw when the peer is gone. *)
Definition endpoints (ec : error_code) : M unit :=
  match ec with ec_success => mret tt | _ => throw SystemError end.

Definition connectEstablished (in_loop : bool) (ec : error_code) : H unit :=
  lift (assert_ in_loop);;
  modify (setState kConnected);;
  sock ← the_socket;
  lift (endpoints ec);;
  modify (set_addrs (Some (local_endpoint sock)) (Some (remote_endpoint sock)));;
  call_connection_cb;;
  launchRead.

Definition launchWrite : H unit :=
  out ← gets output_buffer_;
  if 0 <? length_ out then
    modify (set_sending true);;
    '(piece, out) ← lift (readPiece out);
    modify (set_output out);;
    async_send true piece
  else mret tt.

(** [if (delay_close_timer_) { cancel(); reset(); }] *)
Definition drop_timer : H unit :=
  timer ← gets delay_close_timer_;
  if timer : bool then note ECancelTimer;; modify (set_timer false) else mret tt.

(** [if (socket_) { shutdown; close; reset }] *)
Definition drop_socket : H unit :=
  s ← gets socket_;
  match s with
  | Some s =>
      lift (assert_ (is_open s));;
      note EShutdown;;
      note ESocketClose;;
      modify (set_socket None)
  | None => mret tt
  end.

Definition handleClose : H unit :=
  s ← gets status_;
  lift (assert_ (bool_decide (s = kDisconnecting)));;
  if bool_decide (s ≠ kDisconnected) then
    drop_timer;;
    drop_socket;;
    modify (setState kDisconnecting);;
    call_connection_cb;;
    note ECloseCb;;
    close_cb_;;
    modify (setState kDisconnected)
  else mret tt.

Definition handleError : H unit :=
  s ← gets status_;
  if bool_decide (s ≠ kDisconnected) then
    modify (setState kDisconnecting);;
    handleClose
  else mret tt.

Definition handleWrite (piece : ptr) (ec : error_code) : H unit :=
  modify (set_sending false);;
  lift (deletePiece piece);;
  match ec with
  | ec_success => launchWrite
  | ec_operation_aborted => mret tt
  | ec_other => handleError
  end.

(** asio has stored [data] behind [piece->off] when the read succeeded. *)
Definition handleRead (piece : loc) (ec : error_code) (data : list Z) : H unit :=
  match ec with
  | ec_success =>
      p ← lift (load piece);
      p ← lift (memcpy_to p (p_off p) data);
      lift (store piece (set_len p (zlen data)));;
      inb ← gets input_buffer_;
      inb ← lift (writePiece inb piece);
      modify (set_input inb);;
      note EMessageCb;;
      message_cb_;;
      launchRead
  | _ =>
      lift (deletePiece (Some piece));;
      if bool_decide (ec ≠ ec_operation_aborted) then handleError else mret tt
  end.

(** The lambda of [close] and [closeWithDelay]. *)
Definition close_lambda (in_loop : bool) : H unit :=
  lift (assert_ in_loop);;
  handleClose.

(** Running a handler on the loop, with what asio passes to it. *)
Definition run_handler (t : conn_task) (ec : error_code) (data : list Z) : H unit :=
  match t with
  | TEstablished => connectEstablished true ec
  | TSend queue_head => sendInLoop queue_head
  | TClose | TDelayedClose => close_lambda true
  | TWrite _ piece => handleWrite piece ec
  | TRead piece => handleRead piece ec data
  end.
End handlers.

(** [~TCPConn()]: the assertions, then the destructors of the buffers. *)
Definition TCPConn_destroy : H unit :=
  c ← gets id;
  lift (assert_ (bool_decide (status_ c = kDisconnected)));;
  lift (assert_ (negb (is_sending_ c)));;
  lift (Buffer_destroy (input_buffer_ c));;
  lift (Buffer_destroy (output_buffer_ c)).

(** ** Application code

    A callback may use the public interface, the input buffer it is given and
    computations of its own, in any order. *)
Inductive app_code : forall A, H A -> Prop :=
  | app_ret A (a : A) : app_code A (mret a)
  | app_bind A B (c : H A) (f : A -> H B) :
      app_code A c -> (forall a, app_code B (f a)) -> app_code B (c ≫= f)
  | app_own A (c : M A) : app_code A (lift c)
  | app_observe A (f : TCPConn -> A) : app_code A (gets f)
  | app_input b : app_code unit (modify (set_input b))
  | app_send d : app_code unit (send true d)
  | app_send_buffer b : app_code Buffer (send_buffer true b)
  | app_close : app_code unit close
  | app_closeWithDelay : app_code unit closeWithDelay
  | app_setTcpNoDelay on : app_code unit (setTcpNoDelay on)
  | app_setContext context : app_code unit (modify (setContext context)).

(** ** Steps *)

(** What other threads call. *)
Inductive other_thread : H unit -> Prop :=
  | other_send d : other_thread (send false d)
  | other_send_buffer b : other_thread (send_buffer false b;; mret tt)
  | other_close : other_thread close
  | other_closeWithDelay : other_thread closeWithDelay.

Section steps.
Context (connection_cb_ message_cb_ close_cb_ : H unit).

Abbreviation run := (run_handler connection_cb_ message_cb_ close_cb_).

Inductive conn_step : World * Mem -> World * Mem -> Prop :=
  | step_handler w m before t after ec data w' m' :
      w_pending w = before ++ t :: after ->
      run t ec data (mkWorld (w_conn w) (before ++ after) (w_log w)) m = Ok (tt, w') m' ->
      conn_step (w, m) (w', m')
  | step_other_thread w m c w' m' :
      other_thread c ->
      c w m = Ok (tt, w') m' ->
      conn_step (w, m) (w', m').

(** A connection as [newConnection] of the server or the client makes it. *)
Definition conn_init (sock : Socket) (id : Z) (w : World) : Prop :=
  w = mkWorld (TCPConn_new sock id) [TEstablished] [].

Definition conn_reachable (w : World) (m : Mem) : Prop :=
  exists sock id w0 m0, conn_init sock id w0 /\ rtc conn_step (w0, m0) (w, m).
End steps.
