(* ===== verification/TcpConnSpec.v ===== *)
(** * What a connection guarantees

    Invariants of every reachable state, by induction on the step relation and
    for any application code in the callbacks; then the executions in which the
    code goes wrong. *)

From stdpp Require Import base tactics list numbers gmap.
From Stdlib Require Import ZArith Lia.
From S2P Require Import Prelude Machine Piece Buffer ConnBuffers TcpConn.

(** ** Weakest liberal preconditions for the handlers *)
Definition wlp {A} (c : H A) (Q : A -> World -> Prop) (w : World) : Prop :=
  forall m a w' m', c w m = Ok (a, w') m' -> Q a w'.

Lemma wlp_ret {A} (a : A) Q w : Q a w -> wlp (mret a) Q w.
Proof. intros HQ m ? ? ? [=]. by subst. Qed.

Lemma wlp_bind {A B} (c : H A) (f : A -> H B) Q w :
  wlp c (λ a, wlp (f a) Q) w -> wlp (c ≫= f) Q w.
Proof.
  intros Hc m b w' m' E. unfold mbind, H_bind in E.
  unfold mbind, M_bind in E. destruct (c w m) as [[a w1] m1|] eqn:Ec; [|done].
  exact (Hc _ _ _ _ Ec _ _ _ _ E).
Qed.

Lemma wlp_wand {A} (c : H A) Q R w : wlp c Q w -> (forall a w', Q a w' -> R a w') -> wlp c R w.
Proof. intros Hc HQR m a w' m' E. eauto. Qed.

Lemma wlp_lift {A} (c : M A) Q w : (forall a, Q a w) -> wlp (lift c) Q w.
Proof.
  intros HQ m a w' m' E. unfold lift, mbind, M_bind in E. destruct (c m); [|done].
  injection E. by intros _ <- <-.
Qed.

Lemma wlp_throw {A} e (Q : A -> World -> Prop) w : wlp (lift (throw e)) Q w.
Proof. by intros m a w' m' E. Qed.

Lemma wlp_gets {A} (f : TCPConn -> A) Q w : Q (f (w_conn w)) w -> wlp (gets f) Q w.
Proof. intros HQ m a w' m' E. injection E. by intros _ <- <-. Qed.

Lemma wlp_modify f Q w :
  Q tt (mkWorld (f (w_conn w)) (w_pending w) (w_log w)) -> wlp (modify f) Q w.
Proof. intros HQ m a w' m' E. injection E. by intros _ <- <-. Qed.

Lemma wlp_schedule t Q w :
  Q tt (mkWorld (w_conn w) (w_pending w ++ [t]) (w_log w)) -> wlp (schedule t) Q w.
Proof. intros HQ m a w' m' E. injection E. by intros _ <- <-. Qed.

Lemma wlp_note e Q w :
  Q tt (mkWorld (w_conn w) (w_pending w) (w_log w ++ [e])) -> wlp (note e) Q w.
Proof. intros HQ m a w' m' E. injection E. by intros _ <- <-. Qed.

Lemma wlp_the_socket Q w :
  (forall s, socket_ (w_conn w) = Some s -> Q s w) -> wlp the_socket Q w.
Proof.
  intros HQ. apply wlp_bind, wlp_gets. destruct (socket_ (w_conn w)) eqn:E.
  - apply wlp_ret. auto.
  - apply wlp_throw.
Qed.

(** Symbolic execution of a handler. *)
Ltac wlp_step :=
  lazymatch goal with
  | |- wlp (mret _) _ _ => apply wlp_ret
  | |- wlp (_ ≫= _) _ _ => apply wlp_bind
  | |- wlp (lift (throw _)) _ _ => apply wlp_throw
  | |- wlp (lift _) _ _ => apply wlp_lift; intros
  | |- wlp (gets _) _ _ => apply wlp_gets
  | |- wlp (modify _) _ _ => apply wlp_modify
  | |- wlp (schedule _) _ _ => apply wlp_schedule
  | |- wlp (note _) _ _ => apply wlp_note
  | |- wlp the_socket _ _ => apply wlp_the_socket; intros
  | |- wlp (if ?b then _ else _) _ _ => destruct b eqn:?
  | |- wlp (match ?x with (_, _) => _ end) _ _ => destruct x
  end.
Ltac wlp_run := repeat (wlp_step; cbn beta iota).

(** ** The life of a connection *)
Inductive phase := New | Open | Closing | Shutting | Finishing | Closed.

#[export] Instance phase_eq_dec : EqDecision phase.
Proof. solve_decision. Defined.

(** The application's view: the connection and close callbacks, in order. *)
Definition is_callback (e : conn_event) : bool :=
  match e with EConnectionCb _ | ECloseCb => true | _ => false end.
Definition callbacks (log : list conn_event) : list conn_event := List.filter is_callback log.

Definition is_write (t : conn_task) : bool := match t with TWrite _ _ => true | _ => false end.
Definition is_read (t : conn_task) : bool := match t with TRead _ => true | _ => false end.
Definition is_established (t : conn_task) : bool := match t with TEstablished => true | _ => false end.

Definition phase_callbacks (p : phase) : list conn_event :=
  match p with
  | New => []
  | Open | Closing => [EConnectionCb kConnected]
  | Shutting => [EConnectionCb kConnected; EConnectionCb kDisconnecting]
  | Finishing | Closed => [EConnectionCb kConnected; EConnectionCb kDisconnecting; ECloseCb]
  end.

Definition phase_status (p : phase) : StateE :=
  match p with
  | New | Closed => kDisconnected
  | Open => kConnected
  | Closing | Shutting | Finishing => kDisconnecting
  end.

Definition has_socket (p : phase) : bool :=
  match p with New | Open | Closing => true | _ => false end.

(** The state of a connection in phase [p] with [r] reads outstanding. *)
Record good (p : phase) (r : nat) (w : World) : Prop := {
  good_status : status_ (w_conn w) = phase_status p;
  good_socket : bool_decide (socket_ (w_conn w) = None) = negb (has_socket p);
  good_callbacks : callbacks (w_log w) = phase_callbacks p;
  good_writes : count is_write (w_pending w) = if is_sending_ (w_conn w) then 1%nat else 0%nat;
  good_reads : count is_read (w_pending w) = r;
  good_established : count is_established (w_pending w) = match p with New => 1%nat | _ => 0%nat end;
  good_new : p = New -> w_pending w = [TEstablished] /\ is_sending_ (w_conn w) = false
}.

#[local] Arguments callbacks : simpl never.

Lemma callbacks_cons e l : callbacks (e :: l) = (if is_callback e then [e] else []) ++ callbacks l.
Proof. unfold callbacks. cbn. by destruct (is_callback e). Qed.

Lemma callbacks_nil : callbacks [] = [].
Proof. done. Qed.

Lemma callbacks_app l k : callbacks (l ++ k) = callbacks l ++ callbacks k.
Proof. apply List.filter_app. Qed.

(** An update of the world that is invisible to [good], or visible as [cbn]
    computes it. *)
Ltac solve_good :=
  match goal with
  | Hg : good _ _ _ |- good _ _ _ =>
      destruct Hg as [Gs Gk Gc Gw Gr Ge Gn]; constructor; cbn in *;
      rewrite ?count_app, ?callbacks_app, ?count_cons, ?callbacks_cons, ?count_nil, ?callbacks_nil; cbn;
      rewrite ?Gs, ?Gc, ?Gw, ?Gr, ?Ge, ?app_nil_r; cbn;
      try congruence; try lia; try done;
      repeat match goal with
      | H : negb ?b = true |- _ => apply negb_true_iff in H
      | H : negb ?b = false |- _ => apply negb_false_iff in H
      | H : is_sending_ _ = _ |- _ => rewrite H in *
      end; try congruence; try lia; try done
  end.

Lemma sendInLoop_good p r w q : p <> New -> good p r w -> wlp (sendInLoop q) (λ _, good p r) w.
Proof. intros Hp Hg. unfold sendInLoop, async_send. wlp_run; solve_good. Qed.

Lemma send_queue_good p r w b q : p <> New -> good p r w -> wlp (send_queue b q) (λ _, good p r) w.
Proof.
  intros Hp Hg. unfold send_queue. destruct b; [by apply sendInLoop_good|]. wlp_run. solve_good.
Qed.

(** A connection that is not established yet ignores the public functions. *)
Lemma send_good p r w b d : good p r w -> wlp (send b d) (λ _, good p r) w.
Proof.
  intros Hg. unfold send. wlp_run; [done|]. apply send_queue_good; [|done]. intros ->.
  destruct Hg as [Gs _ _ _ _ _ _]. unfold isConnected in *. unfold id in *. by rewrite Gs in *.
Qed.

Lemma send_buffer_good p r w b bf : good p r w -> wlp (send_buffer b bf) (λ _, good p r) w.
Proof.
  intros Hg. unfold send_buffer. wlp_run; [done|]. destruct (moveToQueueHead bf) as [q bf'].
  wlp_run. eapply wlp_wand; [apply send_queue_good; [|done]|].
  - intros ->. destruct Hg as [Gs _ _ _ _ _ _]. unfold isConnected in *. unfold id in *. by rewrite Gs in *.
  - intros ? w' Hg'. by apply wlp_ret.
Qed.

(** Application code, and other threads, can only start the closing. *)
Definition advance (p p' : phase) : Prop := p' = p \/ (p = Open /\ p' = Closing).

Definition advances (p : phase) (r : nat) (w : World) : Prop :=
  exists p', advance p p' /\ good p' r w.

Lemma advances_refl p r w : good p r w -> advances p r w.
Proof. exists p. split; [by left|done]. Qed.

Lemma start_closing_good p r w : good p r w ->
  wlp start_closing (λ b w', if b : bool then p = Open /\ good Closing r w' else good p r w') w.
Proof.
  intros Hg. unfold start_closing. wlp_run; [|done]. unfold isConnected, id in *.
  pose proof (good_status _ _ _ Hg) as Hst. destruct p; cbn in Hst; rewrite Hst in *; try done.
  split; [done|]. solve_good.
Qed.

Lemma closing_good p r w (k : H unit) : good p r w ->
  (forall w', good Closing r w' -> wlp k (λ _, good Closing r) w') ->
  wlp (b ← start_closing; if b : bool then k else mret tt) (λ _, advances p r) w.
Proof.
  intros Hg Hk. apply wlp_bind. eapply wlp_wand; [by apply start_closing_good|].
  intros [|] w' Hw'; [|by apply wlp_ret, advances_refl]. destruct Hw' as [-> Hw'].
  eapply wlp_wand; [by apply Hk|]. intros [] w'' Hw''. exists Closing. split; [by right|done].
Qed.

Lemma close_good p r w : good p r w -> wlp close (λ _, advances p r) w.
Proof. intros Hg. apply closing_good; [done|]. intros w' Hw'. wlp_run. solve_good. Qed.

Lemma closeWithDelay_good p r w : good p r w -> wlp closeWithDelay (λ _, advances p r) w.
Proof. intros Hg. apply closing_good; [done|]. intros w' Hw'. wlp_run. solve_good. Qed.

Lemma advances_trans p p' r w : advance p p' -> advances p' r w -> advances p r w.
Proof.
  intros H1 (p'' & H2 & Hg). exists p''. split; [|done].
  destruct H1 as [->|[-> ->]], H2 as [->|[? ->]]; try done; solve [by left | by right].
Qed.

Lemma app_code_good A (c : H A) : app_code A c ->
  forall p r w, good p r w -> wlp c (λ _, advances p r) w.
Proof.
  induction 1; intros p r w Hg.
  - by apply wlp_ret, advances_refl.
  - apply wlp_bind. eapply wlp_wand; [by apply IHapp_code|]. intros a w' (p' & Hp & Hg').
    eapply wlp_wand; [by apply H1|]. intros b w''. by apply advances_trans.
  - apply wlp_lift. intros _. by apply advances_refl.
  - by apply wlp_gets, advances_refl.
  - apply wlp_modify, advances_refl. solve_good.
  - eapply wlp_wand; [by apply send_good|]. intros ? ?. apply advances_refl.
  - eapply wlp_wand; [by apply send_buffer_good|]. intros ? ?. apply advances_refl.
  - by apply close_good.
  - by apply closeWithDelay_good.
  - unfold setTcpNoDelay. wlp_run. apply advances_refl. solve_good.
  - apply wlp_modify, advances_refl. solve_good.
Qed.

(** ** The handlers keep the invariant *)
Section handlers.
Context (connection_cb_ message_cb_ close_cb_ : H unit).
Hypothesis connection_cb_app : app_code unit connection_cb_.
Hypothesis message_cb_app : app_code unit message_cb_.
Hypothesis close_cb_app : app_code unit close_cb_.

(** In the phases where no function of the connection can start a closing. *)
Definition settled (p : phase) : Prop := p = Closing \/ p = Shutting \/ p = Finishing \/ p = Closed.

Lemma advance_settled p p' : settled p -> advance p p' -> p' = p.
Proof. intros Hs [->|[-> ->]]; [done|]. by destruct Hs as [|[|[|]]]. Qed.

Lemma drop_timer_good p r w : good p r w -> wlp drop_timer (λ _, good p r) w.
Proof. intros Hg. unfold drop_timer. wlp_run; [|done]. solve_good. Qed.

(** From the moment the socket is dropped. *)
Lemma shutting_good r w : good Shutting r w ->
  wlp connection_cb_
      (λ _, wlp (note ECloseCb;; close_cb_;; modify (setState kDisconnected)) (λ _, good Closed r)) w.
Proof using connection_cb_app close_cb_app.
  intros Hg. eapply wlp_wand; [by apply app_code_good|].
  intros _ w1 (p1 & Hp1 & Hg1). apply advance_settled in Hp1 as ->; [|by right; left].
  wlp_run.
  eapply wlp_wand; [apply (app_code_good _ close_cb_); [done|]|].
  { instantiate (1 := r). instantiate (1 := Finishing). solve_good. }
  intros _ w2 (p2 & Hp2 & Hg2). apply advance_settled in Hp2 as ->; [|by right; right; left].
  wlp_run. solve_good.
Qed.

(** The phases between handlers, the first one apart. *)
Definition between (p : phase) : Prop := p = Open \/ p = Closing \/ p = Closed.

Lemma between_not_new p : between p -> p <> New.
Proof. by intros [H|[H|H]] Hn; rewrite Hn in H. Qed.

Lemma handleClose_good p r w : between p -> good p r w ->
  wlp (handleClose connection_cb_ close_cb_) (λ _, good Closed r) w.
Proof using connection_cb_app close_cb_app.
  intros Hp Hg. pose proof (good_status _ _ _ Hg) as Hst. unfold handleClose. apply wlp_bind, wlp_gets.
  rewrite Hst. apply wlp_bind, wlp_lift. intros _.
  destruct (decide (p = Closed)) as [->|Hc]; [by apply wlp_ret|].
  assert (has_socket p = true /\ phase_status p <> kDisconnected /\ phase_callbacks p = [EConnectionCb kConnected])
    as (Hk & Hd & Hcb) by (by destruct Hp as [Hp|[Hp|Hp]]; rewrite Hp in *).
  rewrite bool_decide_true by done. apply wlp_bind.
  eapply wlp_wand; [by apply drop_timer_good|]. intros [] w1 Hg1. unfold drop_socket, call_connection_cb.
  apply wlp_bind, wlp_bind, wlp_gets. pose proof (good_socket _ _ _ Hg1) as Gk'. rewrite Hk in Gk'.
  destruct (socket_ (w_conn w1)) as [sk|] eqn:Esk; [|done]. wlp_run. apply shutting_good.
  solve_good; [by rewrite Hcb|by destruct p].
Qed.

Lemma handleError_good p r w : between p -> good p r w ->
  wlp (handleError connection_cb_ close_cb_) (λ _, good Closed r) w.
Proof using connection_cb_app close_cb_app.
  intros Hp Hg. pose proof (good_status _ _ _ Hg) as Hst. unfold handleError. wlp_run.
  - apply (handleClose_good Closing); [by right; left|].
    destruct Hp as [-> | [-> | ->]]; [| |rewrite Hst in *; done]; solve_good.
  - destruct Hp as [-> | [-> | ->]]; rewrite Hst in *; done.
Qed.

Lemma launchRead_good p w : p <> New -> good p 0 w -> wlp launchRead (λ _, good p 1) w.
Proof. intros Hp Hg. unfold launchRead. wlp_run. solve_good. Qed.

Lemma launchWrite_good p r w : p <> New -> good p r w ->
  is_sending_ (w_conn w) = false -> wlp launchWrite (λ _, good p r) w.
Proof. intros Hp Hg Hs. unfold launchWrite, async_send. wlp_run; [|done]. solve_good. Qed.

(** The order of the phases. *)
Inductive move : phase -> phase -> Prop :=
  | move_established : move New Open
  | move_closing : move Open Closing
  | move_error : move Open Closed
  | move_closed : move Closing Closed.

Definition later : phase -> phase -> Prop := rtc move.

Lemma later_closed p : between p -> later p Closed.
Proof. intros [-> | [-> | ->]]; [by apply rtc_once, move_error|by apply rtc_once, move_closed|apply rtc_refl]. Qed.

Lemma later_advance p p' : advance p p' -> later p p'.
Proof. intros [-> | [-> ->]]; [apply rtc_refl|apply rtc_once, move_closing]. Qed.

(** What holds after any handler that started in phase [p0]. *)
Definition outcome (p0 : phase) (w : World) : Prop :=
  exists p r, later p0 p /\ between p /\ (r <= 1)%nat /\ good p r w.

Lemma advances_launchRead p w : between p -> advances p 0 w -> wlp launchRead (λ _, outcome p) w.
Proof.
  intros Hp (p' & Hp' & Hg). assert (between p') as Hb.
  { destruct Hp' as [->|[-> ->]]; [done|by right; left]. }
  eapply wlp_wand; [apply launchRead_good; [by apply between_not_new|done]|].
  intros [] w' Hg'. exists p', 1%nat. split_and!; [by apply later_advance|done|lia|done].
Qed.

Lemma connectEstablished_good r w ec : good New r w ->
  wlp (connectEstablished connection_cb_ true ec) (λ _, outcome Open) (mkWorld (w_conn w) [] (w_log w)).
Proof using connection_cb_app.
  intros Hg. unfold connectEstablished, call_connection_cb. wlp_run.
  eapply wlp_wand; [apply (app_code_good _ connection_cb_ connection_cb_app Open 0)|].
  { destruct Hg as [? ? Gc ? ? ? [? Gs]]; [done|]. constructor; cbn in *; try done.
    - by rewrite callbacks_app, Gc.
    - by rewrite Gs. }
  intros [] w' Hg'. apply (advances_launchRead Open); [by left|done].
Qed.

Lemma handleWrite_good p r w piece ec : between p -> (r <= 1)%nat ->
  good p r (mkWorld (set_sending false (w_conn w)) (w_pending w) (w_log w)) ->
  wlp (handleWrite connection_cb_ close_cb_ piece ec) (λ _, outcome p) w.
Proof using connection_cb_app close_cb_app.
  intros Hp Hr Hg. unfold handleWrite. apply wlp_bind, wlp_modify, wlp_bind, wlp_lift. intros _.
  destruct ec.
  - eapply wlp_wand; [apply (launchWrite_good p r); [by apply between_not_new|done|done]|].
    intros [] w' Hg'. exists p, r. split_and!; [apply rtc_refl|done..].
  - apply wlp_ret. exists p, r. split_and!; [apply rtc_refl|done..].
  - eapply wlp_wand; [by apply (handleError_good p)|]. intros [] w' Hg'. exists Closed, r.
    split_and!; [by apply later_closed|by right; right|done|done].
Qed.

Lemma handleRead_good p w piece ec data : between p -> good p 0 w ->
  wlp (handleRead connection_cb_ message_cb_ close_cb_ piece ec data) (λ _, outcome p) w.
Proof using connection_cb_app message_cb_app close_cb_app.
  intros Hp Hg. unfold handleRead. destruct ec; wlp_run.
  - eapply wlp_wand; [apply (app_code_good _ message_cb_ message_cb_app p 0); by solve_good|].
    intros [] w' Hg'. by apply (advances_launchRead p).
  - done.
  - exists p, 0%nat. split_and!; [apply rtc_refl|done|lia|done].
  - eapply wlp_wand; [by apply (handleError_good p)|]. intros [] w' Hg'. exists Closed, 0%nat.
    split_and!; [by apply later_closed|by right; right|lia|done].
  - done.
Qed.

Lemma run_handler_good p r w before t after ec data :
  between p -> (r <= 1)%nat -> good p r w -> w_pending w = before ++ t :: after ->
  wlp (run_handler connection_cb_ message_cb_ close_cb_ t ec data) (λ _, outcome p)
      (mkWorld (w_conn w) (before ++ after) (w_log w)).
Proof using connection_cb_app message_cb_app close_cb_app.
  intros Hp Hr [Gs Gk Gc Gw Gr Ge _] Hpend. pose proof (between_not_new p Hp) as Hn.
  rewrite Hpend, !count_taken in *.
  assert (good p (count is_read (before ++ after)) (mkWorld (w_conn w) (before ++ after) (w_log w)) \/
          is_write t = true \/ is_established t = true) as Hg.
  { destruct (is_write t) eqn:Ew; [by right; left|]. destruct (is_established t) eqn:Ees; [by right; right|].
    left. constructor; cbn; try done; lia. }
  destruct t as [|q| | |own piece|piece]; cbn in *.
  - destruct p; try done; lia.
  - destruct Hg as [Hg|[|]]; [|done..]. eapply wlp_wand; [by apply sendInLoop_good|].
    intros [] w' Hg'. exists p, (count is_read (before ++ after)). split_and!; [apply rtc_refl|done|lia|done].
  - destruct Hg as [Hg|[|]]; [|done..]. unfold close_lambda. wlp_run.
    eapply wlp_wand; [by apply (handleClose_good p)|]. intros [] w' Hg'.
    exists Closed, (count is_read (before ++ after)). split_and!; [by apply later_closed|by right; right|lia|done].
  - destruct Hg as [Hg|[|]]; [|done..]. unfold close_lambda. wlp_run.
    eapply wlp_wand; [by apply (handleClose_good p)|]. intros [] w' Hg'.
    exists Closed, (count is_read (before ++ after)). split_and!; [by apply later_closed|by right; right|lia|done].
  - apply (handleWrite_good p (count is_read (before ++ after))); [done|lia|].
    constructor; cbn; try done; try lia. destruct (is_sending_ (w_conn w)); lia.
  - destruct Hg as [Hg|[|]]; [|done..]. apply (handleRead_good p); [done|].
    replace 0%nat with (count is_read (before ++ after)) by lia. done.
Qed.

(** What holds between handlers. *)
Definition in_phase (p : phase) (w : World) : Prop :=
  exists r, (p = New \/ between p /\ (r <= 1)%nat) /\ good p r w.

Definition conn_inv (w : World) : Prop := exists p, in_phase p w.

Lemma other_thread_inv c w p : other_thread c -> in_phase p w ->
  wlp c (λ _ w', exists p', later p p' /\ in_phase p' w') w.
Proof using Type.
  intros Hc (r & Hp & Hg).
  assert (forall w', advances p r w' -> exists p', later p p' /\ in_phase p' w') as Hadv.
  { intros w' (p' & Ha & Hg'). exists p'. split; [by apply later_advance|]. exists r. split; [|done].
    destruct Ha as [-> | [-> ->]]; [done|]. right. destruct Hp as [|[_ ?]]; [done|]. split; [by right; left|done]. }
  destruct Hc.
  - eapply wlp_wand; [by apply send_good|]. intros [] w' Hg'. by apply Hadv, advances_refl.
  - apply wlp_bind. eapply wlp_wand; [by apply send_buffer_good|]. intros b' w' Hg'.
    by apply wlp_ret, Hadv, advances_refl.
  - eapply wlp_wand; [by apply close_good|]. intros [] w'. apply Hadv.
  - eapply wlp_wand; [by apply closeWithDelay_good|]. intros [] w'. apply Hadv.
Qed.

Lemma outcome_in_phase p w : outcome p w -> exists p', later p p' /\ in_phase p' w.
Proof. intros (p' & r & Hl & Hb & Hr & Hg). exists p'. split; [done|]. exists r. auto. Qed.

Lemma conn_step_inv w m w' m' p :
  conn_step connection_cb_ message_cb_ close_cb_ (w, m) (w', m') -> in_phase p w ->
  exists p', later p p' /\ in_phase p' w'.
Proof using connection_cb_app message_cb_app close_cb_app.
  intros Hs. inversion Hs as [? ? before t after ec data ? ? Hpend Hrun|? ? c ? ? Hc Hrun]; subst; intros Hinv.
  - destruct Hinv as (r & [-> |[Hb Hr]] & Hg).
    + destruct (good_new _ _ _ Hg eq_refl) as [Hp _]. rewrite Hp in Hpend.
      destruct before as [|? [|]]; [|done..]. injection Hpend as <- <-.
      destruct (outcome_in_phase _ _ (connectEstablished_good r w _ Hg _ _ _ _ Hrun)) as (p' & Hl & Hp').
      exists p'. split; [|done]. eapply rtc_l; [apply move_established|done].
    + apply outcome_in_phase. exact (run_handler_good p r w before t after ec data Hb Hr Hg Hpend _ _ _ _ Hrun).
  - exact (other_thread_inv c w p Hc Hinv _ _ _ _ Hrun).
Qed.

Lemma conn_reachable_inv w m : conn_reachable connection_cb_ message_cb_ close_cb_ w m -> conn_inv w.
Proof using connection_cb_app message_cb_app close_cb_app.
  intros (sock & id & w0 & m0 & -> & Hs).
  remember (mkWorld (TCPConn_new sock id) [TEstablished] [], m0) as x eqn:Ex.
  remember (w, m) as y eqn:Ey. revert w m Ey.
  assert (forall w m, x = (w, m) -> conn_inv w) as Hx.
  { intros w m ->. injection Ex as -> _. exists New, 0%nat. split; [by left|]. by constructor. }
  clear Ex. induction Hs as [x|x [w1 m1] y Hs _ IH]; intros w m Ey; [by eapply Hx|].
  eapply IH; [|done]. intros w2 m2 [= <- <-]. destruct x as [w3 m3].
  destruct (Hx w3 m3 eq_refl) as [p Hp]. destruct (conn_step_inv _ _ _ _ _ Hs Hp) as (p' & _ & Hp').
  by exists p'.
Qed.
End handlers.

(** ** Executions

    A schedule: which pending handler asio runs next and with what result, or
    what another thread calls. *)
Inductive choice :=
  | Handler (i : nat) (ec : error_code) (data : list Z)
  | OtherSend (d : list Z)
  | OtherClose
  | OtherCloseWithDelay.

Section play.
Context (connection_cb_ message_cb_ close_cb_ : H unit).

Definition play_one (ch : choice) : H unit := λ w,
  match ch with
  | Handler i ec data =>
      match w_pending w !! i with
      | Some t => run_handler connection_cb_ message_cb_ close_cb_ t ec data
                    (mkWorld (w_conn w) (delete i (w_pending w)) (w_log w))
      | None => throw Fatal
      end
  | OtherSend d => send false d w
  | OtherClose => close w
  | OtherCloseWithDelay => closeWithDelay w
  end.

Fixpoint play (chs : list choice) : H unit :=
  match chs with
  | [] => mret tt
  | ch :: chs => play_one ch;; play chs
  end.

Lemma play_one_step ch w m w' m' : play_one ch w m = Ok (tt, w') m' ->
  conn_step connection_cb_ message_cb_ close_cb_ (w, m) (w', m').
Proof.
  destruct ch as [i ec data|d| |]; cbn; intros E.
  - destruct (w_pending w !! i) as [t|] eqn:Et; [|done].
    apply (step_handler _ _ _ w m (take i (w_pending w)) t (drop (S i) (w_pending w)) ec data); [|].
    + by rewrite take_drop_middle.
    + by rewrite <- delete_take_drop.
  - eapply step_other_thread; [apply other_send|done].
  - eapply step_other_thread; [apply other_close|done].
  - eapply step_other_thread; [apply other_closeWithDelay|done].
Qed.

Lemma play_steps chs w m w' m' : play chs w m = Ok (tt, w') m' ->
  rtc (conn_step connection_cb_ message_cb_ close_cb_) (w, m) (w', m').
Proof.
  revert w m. induction chs as [|ch chs IH]; intros w m E.
  - injection E as <- <-. apply rtc_refl.
  - cbn in E. unfold mbind, H_bind, mbind, M_bind in E.
    destruct (play_one ch w m) as [[[] w1] m1|] eqn:E1; [|done].
    eapply rtc_l; [by apply (play_one_step ch)|by apply IH].
Qed.
End play.

(** A fresh connection, with an application that does nothing or greets. *)
Definition test_socket : Socket := mkSocket true (mkEndpoint [127; 0; 0; 1] 2007) (mkEndpoint [127; 0; 0; 1] 50000).
Definition fresh : World := mkWorld (TCPConn_new test_socket 1) [TEstablished] [].
Definition quiet : H unit := mret tt.
Definition greet : H unit := c ← gets id; if isConnected c then send true [104; 105] else mret tt.

Definition play_fresh (cb : H unit) (chs : list choice) (ndebug : bool) : Res (unit * World) :=
  play cb quiet quiet chs fresh (init_mem (λ _ _, 0) ndebug).

(** The end of a schedule: the error, or what the theorems look at. *)
Definition ended {A} (f : World -> A) (r : Res (unit * World)) : A + Error :=
  match r with Ok (_, w) _ => inl (f w) | Err e => inr e end.

Definition goes_ok (r : Res (unit * World)) : Prop :=
  match r with Ok _ _ => True | Err _ => False end.

Lemma play_fresh_reachable cb chs ndebug (Hok : goes_ok (play_fresh cb chs ndebug)) :
  exists w m, play_fresh cb chs ndebug = Ok (tt, w) m /\ conn_reachable cb quiet quiet w m.
Proof.
  destruct (play_fresh cb chs ndebug) as [[[] w] m|] eqn:E; [|done].
  exists w, m. split; [done|]. exists test_socket, 1, fresh, (init_mem (λ _ _, 0) ndebug).
  split; [done|]. by eapply play_steps.
Qed.

(** ** Claims *)

(** C10. Whatever the application's callbacks do with the public interface,
    whatever asio reports and whenever other threads call in: at most one
    [async_send] of a connection is outstanding, exactly when [is_sending_] is
    set, and at most one [async_read_some]. *)
Theorem one_operation_in_flight connection_cb message_cb close_cb w m :
  app_code unit connection_cb -> app_code unit message_cb -> app_code unit close_cb ->
  conn_reachable connection_cb message_cb close_cb w m ->
  count is_write (w_pending w) = (if is_sending_ (w_conn w) then 1%nat else 0%nat) /\
  (count is_read (w_pending w) <= 1)%nat.
Proof.
  intros H1 H2 H3 Hr. apply (conn_reachable_inv _ _ _ H1 H2 H3) in Hr.
  destruct Hr as (p & r & Hr & Hg). split; [apply Hg|]. destruct Hr as [-> |[_ Hr]].
  - destruct (good_new _ _ _ Hg eq_refl) as [-> _]. rewrite count_cons, count_nil. cbn. lia.
  - rewrite (good_reads _ _ _ Hg). done.
Qed.

Lemma quiet_app : app_code unit quiet.
Proof. apply app_ret. Qed.

Lemma greet_app : app_code unit greet.
Proof. apply app_bind; [apply app_observe|]. intros c. case_match; [apply app_send|apply app_ret]. Qed.

Lemma one_operation_in_flight_witness :
  exists w m, play_fresh greet [Handler 0 ec_success []] false = Ok (tt, w) m /\
    count is_write (w_pending w) = (if is_sending_ (w_conn w) then 1%nat else 0%nat) /\
    (count is_read (w_pending w) <= 1)%nat.
Proof.
  destruct (play_fresh_reachable greet [Handler 0 ec_success []] false) as (w & m & E & Hr); [exact I|].
  exists w, m. split; [exact E|].
  exact (one_operation_in_flight _ _ _ w m greet_app quiet_app quiet_app Hr).
Defined.

(** C9. The callbacks of a connection come in one order and at most once each:
    nothing before it is established, then the connection callback with
    [kConnected], then, when it is torn down, the connection callback with
    [kDisconnecting] and the close callback; how far they got is determined by
    [status_] and [socket_].  In particular the owner's close callback runs at
    most once, however many errors, closes and timers there are. *)
Theorem callbacks_in_order connection_cb message_cb close_cb w m :
  app_code unit connection_cb -> app_code unit message_cb -> app_code unit close_cb ->
  conn_reachable connection_cb message_cb close_cb w m ->
  callbacks (w_log w) =
    match status_ (w_conn w), socket_ (w_conn w) with
    | kDisconnected, Some _ => []
    | kDisconnected, None => [EConnectionCb kConnected; EConnectionCb kDisconnecting; ECloseCb]
    | _, _ => [EConnectionCb kConnected]
    end.
Proof.
  intros H1 H2 H3 Hr. apply (conn_reachable_inv _ _ _ H1 H2 H3) in Hr.
  destruct Hr as (p & r & Hr & [-> Hk -> _ _ _ _]). destruct Hr as [-> |[Hb _]].
  - by destruct (socket_ (w_conn w)).
  - destruct Hb as [-> | [-> | ->]]; by destruct (socket_ (w_conn w)).
Qed.

Lemma callbacks_in_order_witness :
  exists w m, play_fresh greet [Handler 0 ec_success []; OtherClose; Handler 2 ec_success []] true = Ok (tt, w) m /\
    callbacks (w_log w) =
    match status_ (w_conn w), socket_ (w_conn w) with
    | kDisconnected, Some _ => []
    | kDisconnected, None => [EConnectionCb kConnected; EConnectionCb kDisconnecting; ECloseCb]
    | _, _ => [EConnectionCb kConnected]
    end.
Proof.
  destruct (play_fresh_reachable greet [Handler 0 ec_success []; OtherClose; Handler 2 ec_success []] true)
    as (w & m & E & Hr); [exact I|].
  exists w, m. split; [exact E|].
  exact (callbacks_in_order _ _ _ w m greet_app quiet_app quiet_app Hr).
Defined.

(** *** Where it goes wrong *)

Definition established : choice := Handler 0 ec_success [].

(** Code that leaves the pending handlers where they are and may add some. *)
Definition extends {A} (c : H A) : Prop := forall w, wlp c (λ _ w', w_pending w `prefix_of` w_pending w') w.

Lemma extends_pending {A} (c : H A) t w m a w' m' :
  extends c -> c w m = Ok (a, w') m' -> t ∈ w_pending w -> t ∈ w_pending w'.
Proof. intros Hc E Hin. by eapply elem_of_prefix, Hc. Qed.

Lemma extends_ret {A} (a : A) : extends (mret a).
Proof. intros w. by apply wlp_ret. Qed.

Lemma extends_bind {A B} (c : H A) (f : A -> H B) : extends c -> (forall a, extends (f a)) -> extends (c ≫= f).
Proof.
  intros Hc Hf w. apply wlp_bind. eapply wlp_wand; [apply Hc|]. intros a w1 H1.
  eapply wlp_wand; [apply Hf|]. intros b w2 H2. by transitivity (w_pending w1).
Qed.

Lemma extends_lift {A} (c : M A) : extends (lift c).
Proof. intros w. by apply wlp_lift. Qed.

Lemma extends_gets {A} (f : TCPConn -> A) : extends (gets f).
Proof. intros w. by apply wlp_gets. Qed.

Lemma extends_modify f : extends (modify f).
Proof. intros w. by apply wlp_modify. Qed.

Lemma extends_schedule t : extends (schedule t).
Proof. intros w. apply wlp_schedule. by eexists. Qed.

Lemma extends_note e : extends (note e).
Proof. intros w. by apply wlp_note. Qed.

Lemma extends_if {A} (b : bool) (c d : H A) : extends c -> extends d -> extends (if b then c else d).
Proof. by destruct b. Qed.

Lemma extends_pair {A B C} (x : A * B) (f : A -> B -> H C) :
  (forall a b, extends (f a b)) -> extends (let '(a, b) := x in f a b).
Proof. by destruct x. Qed.

Create HintDb extends.
#[local] Hint Resolve extends_ret extends_lift extends_gets extends_modify extends_schedule extends_note : extends.
#[local] Hint Resolve extends_if extends_pair extends_bind : extends.
#[local] Hint Extern 1 (extends (match ?x with _ => _ end)) => destruct x : extends.

Lemma send_extends b d : extends (send b d).
Proof. unfold send, send_queue, sendInLoop, async_send, the_socket. auto 20 with extends. Qed.

Lemma send_buffer_extends b d : extends (send_buffer b d).
Proof. unfold send_buffer, send_queue, sendInLoop, async_send, the_socket. auto 20 with extends. Qed.

Lemma close_extends : extends close.
Proof. unfold close, start_closing. auto 20 with extends. Qed.

Lemma closeWithDelay_extends : extends closeWithDelay.
Proof. unfold closeWithDelay, start_closing. auto 20 with extends. Qed.

Lemma app_extends A (c : H A) : app_code A c -> extends c.
Proof.
  induction 1; auto using send_extends, send_buffer_extends, close_extends, closeWithDelay_extends with extends.
  unfold setTcpNoDelay, the_socket. auto 20 with extends.
Qed.

Lemma other_extends c : other_thread c -> extends c.
Proof. destruct 1; auto using send_extends, send_buffer_extends, close_extends, closeWithDelay_extends with extends. Qed.

Lemma run_handler_extends connection_cb message_cb close_cb t ec data :
  extends connection_cb -> extends message_cb -> extends close_cb ->
  extends (run_handler connection_cb message_cb close_cb t ec data).
Proof.
  intros H1 H2 H3.
  assert (extends (handleClose connection_cb close_cb)) as Hc.
  { unfold handleClose, drop_timer, drop_socket, call_connection_cb. auto 20 with extends. }
  assert (extends (handleError connection_cb close_cb)) as He by (unfold handleError; auto 20 with extends).
  assert (extends launchRead) as Hl by (unfold launchRead, the_socket; auto 20 with extends).
  destruct t; cbn; unfold connectEstablished, call_connection_cb, sendInLoop, close_lambda, handleWrite, handleRead,
    launchWrite, async_send, the_socket; auto 20 with extends.
Qed.

(** The two ways to start closing, and the handler each of them queues. *)
Inductive starts_closing : H unit -> conn_task -> Prop :=
  | starts_close : starts_closing close TClose
  | starts_closeWithDelay : starts_closing closeWithDelay TDelayedClose.

Definition is_io (t : conn_task) : bool := is_read t || is_write t.

(** A step of a Debug build. *)
Definition debug_step (connection_cb message_cb close_cb : H unit) (x y : World * Mem) : Prop :=
  m_ndebug x.2 = false /\ conn_step connection_cb message_cb close_cb x y.

Section torn_down.
Context (connection_cb message_cb close_cb : H unit).
Hypothesis connection_cb_app : app_code unit connection_cb.
Hypothesis message_cb_app : app_code unit message_cb.
Hypothesis close_cb_app : app_code unit close_cb.

(** A close handler that runs after the connection has been torn down. *)
Lemma close_handler_asserts c t ec data w m : starts_closing c t -> status_ (w_conn w) = kDisconnected ->
  run_handler connection_cb message_cb close_cb t ec data w m = if m_ndebug m then Ok (tt, w) m else Err AssertionFailed.
Proof using Type.
  intros Ht Hst. destruct Ht; cbn;
    unfold close_lambda, handleClose, lift, mbind, H_bind, gets, mbind, M_bind, assert_; cbn;
    rewrite Hst; cbn; by destruct (m_ndebug m).
Qed.

Lemma closing_starts c t w m : starts_closing c t -> status_ (w_conn w) = kConnected ->
  exists w', c w m = Ok (tt, w') m /\ status_ (w_conn w') = kDisconnecting /\ w_pending w' = w_pending w ++ [t].
Proof using Type.
  intros Ht Hst. assert (isConnected (w_conn w) = true) as Hc by (unfold isConnected; by rewrite Hst).
  set (c0 := setState kDisconnecting (w_conn w)).
  destruct Ht; [exists (mkWorld c0 (w_pending w ++ [TClose]) (w_log w))
               |exists (mkWorld (set_timer true c0) (w_pending w ++ [TDelayedClose]) (w_log w))];
    (split; [|done]); unfold close, closeWithDelay, start_closing, mbind, H_bind, gets, id, mbind, M_bind; cbn; by rewrite Hc.
Qed.

(** A failed read or write tears the connection down. *)
Lemma io_error_good p r w before u after data : between p -> (r <= 1)%nat -> good p r w ->
  w_pending w = before ++ u :: after -> is_io u = true ->
  wlp (run_handler connection_cb message_cb close_cb u ec_other data)
      (λ _ w', exists r', (r' <= 1)%nat /\ good Closed r' w') (mkWorld (w_conn w) (before ++ after) (w_log w)).
Proof using connection_cb_app close_cb_app.
  intros Hp Hr [Gs Gk Gc Gw Gr Ge _] Hpend Hu. pose proof (between_not_new p Hp) as Hn.
  rewrite Hpend, !count_taken in *. destruct u as [|q| | |own piece|piece]; try done; cbn in *.
  - unfold handleWrite. wlp_run. eapply wlp_wand; [eapply (handleError_good _ _ connection_cb_app close_cb_app p r); [done|]|].
    + constructor; cbn; try done; try lia. destruct (is_sending_ (w_conn w)); lia.
    + intros [] w' Hg'. by exists r.
  - unfold handleRead. wlp_run; [|done].
    eapply wlp_wand; [eapply (handleError_good _ _ connection_cb_app close_cb_app p 0); [done|]|].
    + constructor; cbn; try done; lia.
    + intros [] w' Hg'. exists 0%nat. split; [lia|done].
Qed.

Lemma run_extends t ec data : extends (run_handler connection_cb message_cb close_cb t ec data).
Proof using connection_cb_app message_cb_app close_cb_app. by apply run_handler_extends; apply app_extends. Qed.

(** The connection is torn down and [t] is still to run. *)
Definition torn_down (t : conn_task) (w : World) : Prop := in_phase Closed w /\ t ∈ w_pending w.

Lemma torn_down_disconnected t w : torn_down t w -> status_ (w_conn w) = kDisconnected.
Proof using Type. intros [(r & _ & Hg) _]. apply Hg. Qed.

Lemma later_closed_closed p : later Closed p -> p = Closed.
Proof using Type. intros H. inversion H as [|? ? ? Hm]; [done|]. inversion Hm. Qed.

Lemma torn_down_step c t x y : starts_closing c t ->
  debug_step connection_cb message_cb close_cb x y -> torn_down t x.1 -> torn_down t y.1.
Proof using connection_cb_app message_cb_app close_cb_app.
  intros Ht [Hd Hs] [Hp Hin]. destruct x as [w m], y as [w' m']; cbn in *. split.
  - destruct (conn_step_inv _ _ _ connection_cb_app message_cb_app close_cb_app _ _ _ _ _ Hs Hp) as (p' & Hl & Hp').
    by apply later_closed_closed in Hl as ->.
  - inversion Hs as [? ? before u after ec data ? ? Hpend Hrun|? ? k ? ? Hk Hrun]; subst.
    + rewrite Hpend, elem_of_app, elem_of_cons in Hin.
      assert (u <> t) as Hut.
      { intros ->. rewrite (close_handler_asserts c), Hd in Hrun; [done|done|].
        by apply (torn_down_disconnected t w); split; [|rewrite Hpend, elem_of_app, elem_of_cons]. }
      apply (extends_pending _ t _ _ _ _ _ (run_extends _ _ _) Hrun). cbn. rewrite elem_of_app.
      destruct Hin as [? | [Heq | ?]]; [by left|by destruct Hut|by right].
    + by apply (extends_pending _ t _ _ _ _ _ (other_extends k Hk) Hrun).
Qed.

Lemma torn_down_stays c t x y : starts_closing c t ->
  rtc (debug_step connection_cb message_cb close_cb) x y -> torn_down t x.1 -> torn_down t y.1.
Proof using connection_cb_app message_cb_app close_cb_app.
  intros Ht. induction 1 as [|x y z Hs _ IH]; [done|]. intros Hx. by eapply IH, torn_down_step.
Qed.

Lemma io_error_tears_down t w m before u after data w1 m1 :
  conn_reachable connection_cb message_cb close_cb w m ->
  w_pending w = before ++ u :: after -> is_io u = true -> t ∈ before ++ after ->
  run_handler connection_cb message_cb close_cb u ec_other data (mkWorld (w_conn w) (before ++ after) (w_log w)) m
    = Ok (tt, w1) m1 ->
  torn_down t w1.
Proof using connection_cb_app message_cb_app close_cb_app.
  intros Hr Hpend Hu Ht Hrun.
  destruct (conn_reachable_inv _ _ _ connection_cb_app message_cb_app close_cb_app _ _ Hr) as (p & r & Hp & Hg).
  split; [|by apply (extends_pending _ t _ _ _ _ _ (run_extends _ _ _) Hrun)].
  destruct Hp as [->|[Hp Hr1]].
  - destruct (good_new _ _ _ Hg eq_refl) as [Hn _]. rewrite Hn in Hpend. destruct before as [|? [|]]; [|done..].
    injection Hpend as <- <-. done.
  - destruct (io_error_good p r w before u after data Hp Hr1 Hg Hpend Hu _ _ _ _ Hrun) as (r' & Hr' & Hg').
    exists r'. split; [|done]. right. split; [by right; right|done].
Qed.
End torn_down.

(** C37. Two tear-downs of one connection abort a Debug build.  [close] and
    [closeWithDelay] on a connected connection queue a handler [t] that asserts
    [kDisconnecting].  If, in any reachable state in which [t] is pending, a read
    or a write completes with an error (the peer has closed too) and its handler
    returns, the connection is [kDisconnected]; however a Debug build goes on
    from there, it stays so, [t] stays pending, and running [t] fails the
    assertion, with whatever error code: cancelling the timer does not help, since
    its handler then runs with [operation_aborted], which [runAfter] ignores.
    Running [t] in a Release build changes nothing, thanks to the guard behind
    the assertion. *)
Theorem close_and_peer_close_assert connection_cb message_cb close_cb c t w m :
  app_code unit connection_cb -> app_code unit message_cb -> app_code unit close_cb ->
  conn_reachable connection_cb message_cb close_cb w m -> starts_closing c t ->
  (status_ (w_conn w) = kConnected -> exists w1,
     c w m = Ok (tt, w1) m /\ status_ (w_conn w1) = kDisconnecting /\ w_pending w1 = w_pending w ++ [t]) /\
  (forall before u after data w1 m1,
     w_pending w = before ++ u :: after -> is_io u = true -> t ∈ before ++ after ->
     run_handler connection_cb message_cb close_cb u ec_other data
       (mkWorld (w_conn w) (before ++ after) (w_log w)) m = Ok (tt, w1) m1 ->
     forall w2 m2, rtc (debug_step connection_cb message_cb close_cb) (w1, m1) (w2, m2) ->
       status_ (w_conn w2) = kDisconnected /\ t ∈ w_pending w2 /\
       forall ec data' pending, let w3 := mkWorld (w_conn w2) pending (w_log w2) in
         run_handler connection_cb message_cb close_cb t ec data' w3 m2 =
         if m_ndebug m2 then Ok (tt, w3) m2 else Err AssertionFailed).
Proof.
  intros H1 H2 H3 Hr Ht. split; [intros Hst; by apply (closing_starts c)|].
  intros before u after data w1 m1 Hpend Hu Hin Hrun w2 m2 Hsteps.
  assert (torn_down t w2) as Hd.
  { apply (torn_down_stays _ _ _ H1 H2 H3 c t _ _ Ht Hsteps). cbn.
    by apply (io_error_tears_down _ _ _ H1 H2 H3 t w m before u after data w1 m1). }
  pose proof (torn_down_disconnected t w2 Hd) as Hst. split; [done|]. split; [apply Hd|].
  intros ec data' pending w3. by apply (close_handler_asserts _ _ _ c).
Qed.

(** Three schedules: [close] and [closeWithDelay] in a Debug build, [close] in a
    Release build. *)
Lemma close_and_peer_close_schedules :
  ended w_log (play_fresh quiet [established; OtherClose; Handler 0 ec_other []; Handler 0 ec_success []] false)
    = inr AssertionFailed /\
  ended w_log (play_fresh quiet [established; OtherCloseWithDelay; Handler 0 ec_other [];
                                 Handler 0 ec_operation_aborted []] false)
    = inr AssertionFailed /\
  ended (status_ ∘ w_conn)
    (play_fresh quiet [established; OtherClose; Handler 0 ec_other []; Handler 0 ec_success []] true)
    = inl kDisconnected.
Proof. split_and!; vm_compute; reflexivity. Qed.

Lemma close_and_peer_close_assert_witness :
  exists w m, play_fresh quiet [established; OtherClose] false = Ok (tt, w) m /\
  exists l w1 m1, w_pending w = [TRead l; TClose] /\
    run_handler quiet quiet quiet (TRead l) ec_other [] (mkWorld (w_conn w) [TClose] (w_log w)) m = Ok (tt, w1) m1 /\
    forall w2 m2, rtc (debug_step quiet quiet quiet) (w1, m1) (w2, m2) ->
      status_ (w_conn w2) = kDisconnected /\ TClose ∈ w_pending w2 /\
      forall ec data pending, let w3 := mkWorld (w_conn w2) pending (w_log w2) in
        run_handler quiet quiet quiet TClose ec data w3 m2 = if m_ndebug m2 then Ok (tt, w3) m2 else Err AssertionFailed.
Proof.
  destruct (play_fresh_reachable quiet [established; OtherClose] false) as (w & m & E & Hr); [exact I|].
  exists w, m. split; [exact E|].
  assert (exists l w1 m1, w_pending w = [TRead l; TClose] /\
    run_handler quiet quiet quiet (TRead l) ec_other [] (mkWorld (w_conn w) [TClose] (w_log w)) m = Ok (tt, w1) m1)
    as (l & w1 & m1 & Hp & Hrun).
  { vm_compute in E. injection E as <- <-. eexists _, _, _. split; [reflexivity|vm_compute; reflexivity]. }
  exists l, w1, m1. split; [exact Hp|]. split; [exact Hrun|].
  refine (proj2 (close_and_peer_close_assert quiet quiet quiet close TClose w m quiet_app quiet_app quiet_app Hr
    starts_close) [] (TRead l) [TClose] [] w1 m1 Hp eq_refl _ Hrun). constructor.
Defined.

(** After the connection is closed [socket_] is null, and two handlers
    that may still run use it: a read that had completed before the close, and a
    [send] posted by another thread before it.  Both dereference null, in Debug
    and Release builds. *)
Lemma late_handlers_use_null_socket ndebug :
  ended w_log (play_fresh quiet [established; OtherClose; Handler 1 ec_success [];
                                 Handler 0 ec_success [1; 2]] ndebug) = inr NullDeref /\
  ended w_log (play_fresh quiet [established; OtherSend [1]; OtherClose; Handler 2 ec_success [];
                                 Handler 1 ec_success []] ndebug) = inr NullDeref.
Proof. destruct ndebug; split; vm_compute; reflexivity. Qed.

(** Whether a pending handler keeps the connection alive. *)
Definition keeps_alive (t : conn_task) : bool :=
  match t with TWrite owns _ => owns | _ => true end.

(** A send in flight does not keep its connection alive, because
    [sendInLoop] binds the plain [this].  When the peer closes during the
    application's first send, the connection is torn down with the write still
    pending and nothing but the owner's map refers to it: once that entry is
    erased the connection is destroyed, which fails the assertion on
    [is_sending_] in a Debug build, and asio still holds a handler on it. *)
Lemma send_in_flight_outlives_connection :
  let schedule := [established; Handler 1 ec_other []] in
  ended (λ w, (callbacks (w_log w), List.filter keeps_alive (w_pending w), count is_write (w_pending w)))
    (play_fresh greet schedule false) =
  inl ([EConnectionCb kConnected; EConnectionCb kDisconnecting; ECloseCb], [], 1%nat) /\
  match play_fresh greet schedule false with
  | Ok (_, w) m => match TCPConn_destroy w m with Ok _ _ => None | Err e => Some e end
  | Err _ => None
  end = Some AssertionFailed.
Proof. split; vm_compute; reflexivity. Qed.

(** A message of more than one piece is cut: of 4097 bytes passed to
    [send] the connection transmits 4096 and keeps nothing for later. *)
Theorem send_truncates_at_one_piece :
  ended (λ w, (w_log w, length_ (output_buffer_ (w_conn w))))
    (play (send true (replicate 4097 7)) quiet quiet [established; Handler 0 ec_success []]
       fresh (init_mem (λ _ _, 0) false)) =
  inl ([EConnectionCb kConnected; ESend (replicate 4096 7); ERead 4096], 0).
Proof. vm_compute. reflexivity. Qed.
