(* ===== verification/TcpConnIO.v ===== *)
(** * The bytes a connection sends and receives

    Total specifications of the data path of a connection, over the heap: a
    [send] reaches asio or the output buffer unchanged, a completed write is
    followed by the next bytes in order, and received bytes are appended to the
    input buffer before the application is called. *)

From stdpp Require Import base tactics list numbers gmap.
From iris.proofmode Require Import proofmode.
From Stdlib Require Import ZArith Lia.
From S2P Require Import Prelude Machine HeapLogic Piece Buffer BufferSpec ConnBuffers TcpConn.

(** ** The monad of the handlers, one command at a time *)
Lemma H_bind_eq {A B} (c : H A) (f : A -> H B) w : (c ≫= f) w = (c w ≫= λ '(a, w), f a w).
Proof. done. Qed.

Lemma wp_H_bind {A B} (c : H A) (f : A -> H B) w Φ :
  wp no_error (c w) (λ '(a, w), wp no_error (f a w) Φ) ⊢ wp no_error ((c ≫= f) w) Φ.
Proof.
  iIntros "H". rewrite H_bind_eq. wp_bind. iApply wp_wand. iFrame "H".
  iIntros ([a w']) "H". iExact "H".
Qed.

Lemma wp_H_ret {A} (a : A) w Φ : Φ (a, w) ⊢ wp no_error ((mret a : H A) w) Φ.
Proof. iIntros "H". by iApply wp_ret. Qed.

Lemma wp_H_lift {A} (c : M A) w Φ : wp no_error c (λ a, Φ (a, w)) ⊢ wp no_error (lift c w) Φ.
Proof.
  iIntros "H". rewrite /lift. wp_bind. iApply wp_wand. iFrame "H". iIntros (a) "H". by wp_ret.
Qed.

Lemma wp_H_gets {A} (f : TCPConn -> A) w Φ : Φ (f (w_conn w), w) ⊢ wp no_error (gets f w) Φ.
Proof. iIntros "H". by wp_ret. Qed.

Lemma wp_H_modify f w Φ :
  Φ (tt, mkWorld (f (w_conn w)) (w_pending w) (w_log w)) ⊢ wp no_error (modify f w) Φ.
Proof. iIntros "H". by wp_ret. Qed.

Lemma wp_H_schedule t w Φ :
  Φ (tt, mkWorld (w_conn w) (w_pending w ++ [t]) (w_log w)) ⊢ wp no_error (schedule t w) Φ.
Proof. iIntros "H". by wp_ret. Qed.

Lemma wp_H_note e w Φ :
  Φ (tt, mkWorld (w_conn w) (w_pending w) (w_log w ++ [e])) ⊢ wp no_error (note e w) Φ.
Proof. iIntros "H". by wp_ret. Qed.

Lemma wp_H_the_socket s w Φ : socket_ (w_conn w) = Some s ->
  Φ (s, w) ⊢ wp no_error (the_socket w) Φ.
Proof. iIntros (Hs) "H". rewrite /the_socket. iApply wp_H_bind. iApply wp_H_gets. rewrite Hs. by iApply wp_H_ret. Qed.

Ltac h_bind := iApply wp_H_bind.
Ltac h_get := h_bind; iApply wp_H_gets; cbn beta iota.
Ltac h_modify := h_bind; iApply wp_H_modify; cbn beta iota.
Ltac h_lift := h_bind; iApply wp_H_lift.

Section io.
Context `{HPeak : Peak} (o : Z) (Ho : 0 <= o).

(** One piece is enough for a short message. *)
Lemma write_fresh_spec d :
  {{ pool o ∗ ⟪Forall is_byte d /\ 0 < zlen d <= kPieceCapacity /\ o + zlen d + 1 < kMaxUsing⟫ }}
    write Buffer_new d
  {{ b, ∃ l p, buf_rep b [(l, p)] ∗ pool (o + 1) ∗ ⟪piece_bytes p = d⟫ }}.
Proof using Type.
  iIntros (Φ) "(Hpool & %Hd & %Hcap & %Hmax) HΦ". rewrite /write. pose proof (zlen_nonneg d).
  wp_bind. iApply (ensure_room_spec o _ [] with "[Hpool]"); [constructor| |].
  { iSplitR; [by iApply queue_rep_nil|]. rewrite zlen_nil Z.add_0_r. iFrame. iPureIntro. lia. }
  iIntros (q) "(%ls & %l & %p & Hq & Hpool & %Hwf & %Hcc & %Hh & %Hroom & %Hn & %Hk)".
  rewrite zlen_nil zlen_app zlen_cons zlen_nil in Hn, Hk. pose proof (zlen_nonneg ls).
  assert (ls = []) as -> by (apply zlen_0; lia). cbn [app] in *. rewrite zlen_nil in Hk.
  pose proof Hwf as [Hp _]%cells_wf_cons. destruct Hp as (_ & _ & ? & ? & ?).
  wp_bind. iApply (write_loop_spec o (S (length d)) d q [] l p with "[$Hq $Hpool]"); try done; [lia| |].
  { cbn [app]. rewrite zlen_cons zlen_nil. lia. }
  iIntros (q') "(%ls' & Hq & Hpool & %Hwf' & %Hc' & _ & %Hn')". wp_ret. cbn [app] in *.
  rewrite zlen_cons zlen_nil in Hn'. rewrite Hcc in Hc'. cbn in Hc'.
  destruct ls' as [|[l' p'] ls']; [subst d; rewrite zlen_nil in Hcap; lia|].
  rewrite zlen_cons in Hn'. pose proof (zlen_nonneg ls'). rewrite kPieceCapacity_eq in Hn', Hcap, Hk.
  assert (ls' = []) as -> by (apply zlen_0; lia). rewrite content_cons app_nil_r in Hc'.
  iApply "HΦ". iExists l', p'. rewrite zlen_cons zlen_nil. iFrame "Hpool". iSplitL "Hq"; [|done].
  rewrite /buf_rep content_cons app_nil_r Hc'. iFrame. iPureIntro. cbn [length_ Buffer_new].
  rewrite wrap_id; [|lia]. split_and!; [done|lia|lia].
Qed.

(** [async_send] of a piece: its bytes go to asio. *)
Lemma async_send_spec owns l p nx sock w : piece_wf p -> socket_ (w_conn w) = Some sock ->
  {{ l ↦ set_next p nx }} async_send owns (Some l) w
  {{ x, ⟪x = (tt, mkWorld (w_conn w) (w_pending w ++ [TWrite owns (Some l)])
                          (w_log w ++ [ESend (piece_bytes p)]))⟫ ∗ l ↦ set_next p nx }}.
Proof using Type.
  iIntros (Hp Hs Φ) "Hl HΦ". rewrite /async_send. pose proof Hp as (Hz & _ & ? & ? & ?).
  h_bind. iApply wp_H_the_socket; [done|]. h_lift. iApply wp_deref.
  h_lift. iApply (wp_load with "Hl"). iIntros "Hl". cbn [p_off p_len set_next].
  h_lift. iApply wp_memcpy_from; [cbn; lia..|]. h_bind. iApply wp_H_note.
  iApply wp_H_schedule. cbn [w_conn w_pending w_log]. iApply "HΦ". by iFrame.
Qed.

(** The buffer half of [sendInLoop]. *)
Lemma queue_one_spec b n bs b1 l p : 0 < p_len p ->
  {{ buf b n bs ∗ buf_rep b1 [(l, p)] ∗ ⟪zlen bs + zlen (piece_bytes p) < 2 ^ 64⟫ }}
    writePieceQueue b (moveToQueueHead b1).1
  {{ b', buf b' (n + 1) (bs ++ piece_bytes p) }}.
Proof using Type.
  iIntros (Hl Φ) "(Hb & Hb1 & %H64) HΦ". iDestruct "Hb1" as "((Hs & %Ht & %Hz) & %Hwf & _)".
  pose proof Hwf as [Hp _]%cells_wf_cons. rewrite zlen_piece_bytes // in H64. cbn [moveToQueueHead fst].
  cbn [lseg]. iDestruct "Hs" as "(%Hh & %nx & Hl & Hr)". rewrite Hh.
  iApply (writePieceQueue_spec _ _ _ l p [] with "[$Hb Hl Hr]"); [done..| |].
  { cbn [lseg]. iSplitR; [done|]. iExists nx. iFrame. }
  iIntros (b') "[Hb (%hd & Hs)]". cbn [lseg]. iDestruct "Hs" as "%Hhd". iApply "HΦ". iFrame.
Qed.
End io.

Abbreviation out w := (output_buffer_ (w_conn w)).

(** [readPiece] and [async_send] on a buffer with bytes in it. *)
Lemma transmit_spec owns b n bs sock w : socket_ (w_conn w) = Some sock -> 0 < zlen bs ->
  {{ buf b n bs }} ('(piece, b) ← lift (readPiece b); modify (set_output b);; async_send owns piece) w
  {{ x, ∃ b' l p nx n' joined rest,
        ⟪x = (tt, mkWorld (set_output b' (w_conn w)) (w_pending w ++ [TWrite owns (Some l)])
                    (w_log w ++ [ESend (piece_bytes p)])) /\
          bs = piece_bytes p ++ rest /\ 0 <= n' <= n - 1 /\ piece_wf p⟫ ∗
        l ↦ set_next p nx ∗ buf b' n' rest ∗ loose joined ∗ ⟪zlen joined = n - 1 - n'⟫ }}.
Proof.
  iIntros (Hs Hz Φ) "(%ls & Hb & %Hn & %Hbs) HΦ". subst n bs.
  destruct ls as [|[l p] ls]; [rewrite /content /zlen /= in Hz; lia|].
  h_lift. iApply (readPiece_spec with "Hb"); [done|].
  iIntros (r) "(%p' & %nx & %joined & %rest & %b' & (%Hr & %Els & %Hw & %Hb') & Hl & Hb & Hj)". subst r ls.
  h_modify. iApply (async_send_spec with "Hl"); [done|done|].
  iIntros (x) "[%Ex Hl]". subst x. iApply "HΦ". pose proof (zlen_nonneg rest). pose proof (zlen_nonneg joined).
  iExists b', l, p', nx, (zlen rest), joined, (content rest).
  iFrame "Hl Hj". iSplitR; [|iSplitL "Hb"].
  - iPureIntro. rewrite zlen_cons zlen_app. split_and!; try done; [|lia..].
    by rewrite Hb' content_cons content_app app_assoc.
  - iExists rest. by iFrame.
  - iPureIntro. rewrite zlen_cons zlen_app. lia.
Qed.

(** What becomes of [d] handed to [sendInLoop] in world [w], whose output buffer
    holds [bs] in [n] pieces: behind [bs] while a write is in flight, with asio
    otherwise. *)
Definition sent (w : World) (n : Z) (bs d : list Z) (w' : World) : hProp :=
  if is_sending_ (w_conn w) then
    (∃ b', ⟪w' = mkWorld (set_output b' (w_conn w)) (w_pending w) (w_log w)⟫ ∗ buf b' (n + 1) (bs ++ d))%I
  else
    (∃ b' l p nx, ⟪w' = mkWorld (set_output b' (set_sending true (w_conn w)))
                          (w_pending w ++ [TWrite false (Some l)]) (w_log w ++ [ESend d]) /\
                   piece_wf p /\ piece_bytes p = d⟫ ∗
       l ↦ set_next p nx ∗ buf b' 0 [])%I.

(** The connection is up; its output buffer is empty unless it is sending. *)
Definition sendable (w : World) (n : Z) (bs : list Z) : Prop :=
  status_ (w_conn w) = kConnected /\ (exists sock, socket_ (w_conn w) = Some sock) /\
  (is_sending_ (w_conn w) = false -> n = 0 /\ bs = []).

Lemma sendInLoop_spec n bs l p b1 w : sendable w n bs -> zlen bs + zlen (piece_bytes p) < 2 ^ 64 ->
  0 < zlen (piece_bytes p) ->
  {{ buf (out w) n bs ∗ buf_rep b1 [(l, p)] }} sendInLoop (moveToQueueHead b1).1 w
  {{ x, ∃ w', ⟪x = (tt, w')⟫ ∗ sent w n bs (piece_bytes p) w' }}.
Proof.
  iIntros ((_ & [sock Hsk] & Hidle) H64 Hz Φ) "[Hb Hb1] HΦ".
  iAssert (⟪0 < p_len p⟫ ∗ buf_rep b1 [(l, p)])%I with "[Hb1]" as "[%Hpl Hb1]".
  { iDestruct "Hb1" as "[$ %Hw]". iPureIntro. split; [|done]. destruct Hw as ([Hpw _]%cells_wf_cons & _).
    by rewrite -(zlen_piece_bytes p Hpw). }
  rewrite /sendInLoop /sent. h_get. h_lift. iApply (queue_one_spec with "[$Hb $Hb1]"); [done|iPureIntro; lia|].
  iIntros (b') "Hb". h_modify. h_get. cbn [is_sending_ set_output w_conn].
  destruct (is_sending_ (w_conn w)) eqn:Es; cbn [negb].
  - iApply wp_H_ret. iApply "HΦ". iExists _. iSplitR; [done|]. iExists b'. by iFrame.
  - destruct (Hidle eq_refl) as [-> ->]. cbn [app]. h_modify. cbn [w_conn w_pending w_log].
    iApply (transmit_spec with "Hb"); [done|lia|].
    iIntros (x) "(%b2 & %l' & %p' & %nx & %n' & %joined & %rest & %HH & Hl & Hb & Hj & %Hj)".
    destruct HH as (-> & Hdd & Hn' & Hpw).
    assert (n' = 0) as -> by lia. assert (joined = []) as -> by (apply zlen_0; lia).
    iDestruct "Hb" as "(%ls & Hb & %Hls & %Hrest)". apply zlen_0 in Hls as ->. cbn in Hrest. subst rest.
    rewrite app_nil_r in Hdd. iApply "HΦ". iExists _. iSplitR; [done|]. rewrite /loose /=. iClear "Hj".
    iExists b2, l', p', nx. iFrame "Hl". iSplitR; [|iExists []; by iFrame].
    iPureIntro. rewrite -Hdd. by split_and!.
Qed.

(** C11. Sending up to one piece of data on a connected socket: while a write
    is in flight the data is appended to the output buffer and nothing else
    happens; otherwise exactly the data is handed to [async_send] at once, the
    connection is marked as sending and the output buffer is empty again.  The
    only piece taken from the allocator is the one that holds the data. *)
Theorem send_queues_or_transmits o n bs d w :
  {{ buf (out w) n bs ∗ pool (o + n) ∗
     ⟪0 <= o /\ 0 <= n /\ sendable w n bs /\ Forall is_byte d /\ 0 < zlen d <= kPieceCapacity /\
      o + n + zlen d + 1 < kMaxUsing /\ zlen bs + zlen d < 2 ^ 64⟫ }}
    send true d w
  {{ x, ∃ w', ⟪x = (tt, w')⟫ ∗ sent w n bs d w' ∗ pool (o + (n + 1)) }}.
Proof.
  iIntros (Φ) "(Hb & Hpool & %Ho & %Hn & %Hok & %Hd & %Hz & %Hmax & %H64) HΦ". pose proof Hok as (Hst & _).
  rewrite /send. h_get. rewrite /isConnected Hst bool_decide_true // (proj2 (Z.eqb_neq _ _)); [|lia].
  cbn [negb orb]. h_lift. iApply (write_fresh_spec (o + n) with "[$Hpool]"); [iPureIntro; split_and!; [done|lia..]|].
  iIntros (b1) "(%l & %p & Hb1 & Hpool & %Hp)". rewrite /send_queue.
  iApply (sendInLoop_spec with "[$Hb $Hb1]"); [done|rewrite Hp; lia..|].
  iIntros (x) "(%w' & -> & Hs)". iApply "HΦ". iExists w'. rewrite Hp Z.add_assoc. by iFrame.
Qed.

(** What a handler of the data path leaves alone. *)
Definition keeps (w w' : World) : Prop :=
  socket_ (w_conn w') = socket_ (w_conn w) /\ status_ (w_conn w') = status_ (w_conn w) /\
  input_buffer_ (w_conn w') = input_buffer_ (w_conn w).

(** The handler of a write that succeeded. *)
Lemma handleWrite_spec `{HPeak : Peak} connection_cb close_cb o sock l p n bs w :
  {{ l ↦ p ∗ buf (out w) n bs ∗ pool (o + n + 1) ∗
     ⟪0 <= o /\ data_ok p /\ socket_ (w_conn w) = Some sock⟫ }}
    handleWrite connection_cb close_cb (Some l) ec_success w
  {{ x, ∃ w', ⟪x = (tt, w') /\ keeps w w'⟫ ∗ pool (o + n) ∗
        if zlen bs =? 0 then
          ⟪w_log w' = w_log w /\ w_pending w' = w_pending w /\ is_sending_ (w_conn w') = false⟫ ∗
          buf (out w') n bs
        else
          ∃ l' p' nx n' joined d rest, ⟪bs = d ++ rest /\ piece_wf p' /\ piece_bytes p' = d /\
             w_log w' = w_log w ++ [ESend d] /\ w_pending w' = w_pending w ++ [TWrite true (Some l')] /\
             is_sending_ (w_conn w') = true /\ zlen joined = n - 1 - n'⟫ ∗
          l' ↦ set_next p' nx ∗ buf (out w') n' rest ∗ loose joined }}.
Proof.
  iIntros (Φ) "(Hl & Hb & Hpool & %Ho & %Hdp & %Hsk) HΦ". rewrite /handleWrite. h_modify.
  iAssert (⟪0 <= n /\ length_ (out w) = zlen bs⟫ ∗ buf (out w) n bs)%I with "[Hb]" as "[(%Hn & %Hlen) Hb]".
  { iDestruct "Hb" as "(%ls & (Hq & %Hw) & %Hn & %Hbs)". iSplitR.
    - iPureIntro. subst n bs. split; [apply zlen_nonneg|by destruct Hw as (_ & ? & _)].
    - iExists ls. by iFrame. }
  h_lift. iApply (deletePiece_spec with "[$Hpool $Hl]"); [iPureIntro; split; [lia|done]|].
  iIntros (?) "Hpool". replace (o + n + 1 - 1) with (o + n) by lia.
  rewrite /launchWrite. h_get. cbn [output_buffer_ set_sending w_conn]. rewrite Hlen.
  pose proof (zlen_nonneg bs). destruct (zlen bs =? 0) eqn:Ez; bool_cases.
  - rewrite Ez. cbn. iApply wp_H_ret. iApply "HΦ". iExists _. iSplitR; [done|]. cbn. by iFrame.
  - rewrite (proj2 (Z.ltb_lt _ _)); [|lia]. h_modify. iApply (transmit_spec with "Hb"); [done|lia|].
    iIntros (x) "(%b' & %l' & %p' & %nx & %n' & %joined & %rest & %HH & Hl & Hb & Hj & %Hj)".
    destruct HH as (-> & Hdd & Hn' & Hpw).
    iApply "HΦ". iExists _. iSplitR; [done|]. iFrame "Hpool". iExists l', p', nx, n', joined, _, rest.
    iFrame. iPureIntro. by split_and!.
Qed.

(** C12. When asio reports a write done, its piece goes back to the allocator
    and the next bytes of the output buffer, a prefix of them in order, are
    handed over, this time with a handler that keeps the connection alive; with
    nothing left the connection stops sending.  [joined] are the pieces that
    were merged into the next one, which nobody frees. *)
Theorem handleWrite_sends_next connection_cb close_cb o sock l p n bs w :
  {{ l ↦ p ∗ buf (out w) n bs ∗ pool (o + n + 1) ∗
     ⟪0 <= o /\ data_ok p /\ socket_ (w_conn w) = Some sock⟫ }}
    handleWrite connection_cb close_cb (Some l) ec_success w
  {{ x, ∃ w', ⟪x = (tt, w')⟫ ∗ pool (o + n) ∗
        if zlen bs =? 0 then
          ⟪w_log w' = w_log w /\ w_pending w' = w_pending w /\ is_sending_ (w_conn w') = false⟫ ∗
          buf (out w') n bs
        else
          ∃ l' p' nx n' joined d rest, ⟪bs = d ++ rest /\ piece_wf p' /\ piece_bytes p' = d /\
             w_log w' = w_log w ++ [ESend d] /\ w_pending w' = w_pending w ++ [TWrite true (Some l')] /\
             is_sending_ (w_conn w') = true /\ zlen joined = n - 1 - n'⟫ ∗
          l' ↦ set_next p' nx ∗ buf (out w') n' rest ∗ loose joined }}.
Proof.
  iIntros (Φ) "H HΦ". iApply (handleWrite_spec with "H"). iIntros (x) "(%w' & [-> _] & H)".
  iApply "HΦ". iExists w'. by iFrame.
Qed.

(** ** Receiving *)
Abbreviation inb w := (input_buffer_ (w_conn w)).

Lemma launchRead_spec `{HPeak : Peak} u sock w : socket_ (w_conn w) = Some sock ->
  {{ pool u ∗ ⟪u < kMaxUsing⟫ }} launchRead w
  {{ x, ∃ l p, ⟪x = (tt, mkWorld (w_conn w) (w_pending w ++ [TRead l]) (w_log w ++ [ERead kPieceCapacity])) /\
                empty_piece p⟫ ∗ l ↦ p ∗ pool (u + 1) }}.
Proof.
  iIntros (Hs Φ) "[Hpool %Hu] HΦ". rewrite /launchRead. h_lift.
  iApply (newPiece_spec with "[$Hpool //]"). iIntros (l) "(%p & Hl & %Hp & Hpool)".
  h_lift. iApply (wp_load with "Hl"). iIntros "Hl". h_bind. iApply wp_H_the_socket; [done|].
  h_bind. iApply wp_H_note. iApply wp_H_schedule. cbn [w_conn w_pending w_log].
  destruct Hp as (Hp1 & Hp2 & Hp3). rewrite Hp2 Z.sub_0_r. iApply "HΦ". iExists l, p. iFrame. by iPureIntro.
Qed.

(** The piece of a read, after asio has stored [data] in it. *)
Definition received (p : Piece) (data : list Z) : Piece :=
  set_len (set_data p (splice (p_off p) data (p_data p))) (zlen data).

Lemma received_piece p data : empty_piece p -> Forall is_byte data -> 0 < zlen data <= kPieceCapacity ->
  piece_wf (received p data) /\ p_len (received p data) = zlen data /\ piece_bytes (received p data) = data.
Proof.
  intros (_ & Ho & Hl & Hz & Hb) Hd Hlen. rewrite /piece_wf /piece_bytes /received /set_len /set_data /= Ho.
  rewrite wrap16_capacity; [|lia]. split_and!; try done; try lia.
  - rewrite zlen_splice; [done|lia..].
  - by apply Forall_splice.
  - apply slice_splice_same; lia.
Qed.

(** A successful [handleRead] is [writePiece] of the received piece, the call of
    the application and the next [launchRead]. *)
Lemma wp_handleRead connection_cb message_cb close_cb l p data w Φ :
  empty_piece p -> zlen data <= kPieceCapacity ->
  l ↦ p -∗
  (l ↦ received p data -∗ wp no_error (writePiece (inb w) l) (λ b',
     wp no_error (message_cb (mkWorld (set_input b' (w_conn w)) (w_pending w) (w_log w ++ [EMessageCb])))
       (λ '(_, w'), wp no_error (launchRead w') Φ))) -∗
  wp no_error (handleRead connection_cb message_cb close_cb l ec_success data w) Φ.
Proof.
  iIntros ((_ & Hoff & _ & Hzl & _) Hz) "Hl Hcb". pose proof (zlen_nonneg data). rewrite /handleRead.
  h_lift. iApply (wp_load with "Hl"). iIntros "Hl". h_lift. iApply wp_memcpy_to; [lia..|].
  h_lift. iApply (wp_store with "Hl"). iIntros "Hl". h_get. h_lift.
  iApply wp_wand. iSplitL; [by iApply "Hcb"|]. iIntros (b') "H". h_modify. h_bind. iApply wp_H_note. h_bind.
  iApply wp_wand. iSplitL; [iExact "H"|]. iIntros ([u w']) "H". iExact "H".
Qed.

(** C13. A completed read, while the free list of the pool ([cached]) has room for
    one more piece: the bytes asio received are appended, in order, to the input
    buffer, whatever pieces they are kept in; then the application is called
    exactly once, with that buffer, and what it leaves is what the next read
    starts from.  The room is [zlen cached < o + n + BASE_CACHE_COUNT], where
    [o + n] pieces are in use besides the received one.  Without it
    [deletePiece] deletes the received piece after its bytes have been merged into
    the last one, and [writePiece] then reads the length of a deleted piece
    ([ConnBuffers.writePiece_use_after_free]). *)
Theorem handleRead_delivers connection_cb message_cb close_cb o cached l p n bs data w Φ :
  l ↦ p ∗ buf (inb w) n bs ∗ pool_rep cached (o + n + 1) ∗
  ⟪0 <= o /\ empty_piece p /\ Forall is_byte data /\ 0 < zlen data <= kPieceCapacity /\
   zlen bs + zlen data < 2 ^ 64 /\ zlen cached < o + n + BASE_CACHE_COUNT⟫ -∗
  (∀ b' n', ⟪n <= n' <= n + 1⟫ -∗ buf b' n' (bs ++ data) -∗ pool (o + n') -∗
     wp no_error (message_cb (mkWorld (set_input b' (w_conn w)) (w_pending w) (w_log w ++ [EMessageCb])))
       (λ '(_, w'), wp no_error (launchRead w') Φ)) -∗
  wp no_error (handleRead connection_cb message_cb close_cb l ec_success data w) Φ.
Proof.
  iIntros "(Hl & Hb & Hpool & %Ho & %Hp & %Hd & %Hz & %H64 & %Hc) Hcb".
  destruct (received_piece p data) as (Hwf & Hlen & Hby); [done..|].
  iApply (wp_handleRead with "Hl"); [done|lia|]. iIntros "Hl".
  iApply (writePiece_appends o with "[$Hl $Hpool $Hb]"); [iPureIntro; split_and!; [done..|lia|lia|lia]|].
  iIntros (b') "(%n' & Hb & Hpool & %Hn')". rewrite Hby. by iApply ("Hcb" with "[//] Hb Hpool").
Qed.
