(* ===== verification/TcpServer.v ===== *)
(** * The server

    [netpp/net/tcp_server.{h,cpp}].  A [TCPServer] runs on its base loop:
    accepting, removing closed connections and stopping are handlers of that
    loop.  Connections live on the loops of the pool; what the server sees of
    one is its status and one call of the close callback, which is what
    [TcpConnSpec.callbacks_in_order] guarantees ([conn_phase] below).

    The server's world is the object, the handlers asio holds for its loop, the
    state of every connection ever accepted and the log of the stop callbacks.
    The step relation lets asio run any pending handler and the connections move
    at any time.  [runInLoop] called on the base loop runs its argument at once;
    where that is inside another handler of the server ([connectEstablished] and
    the connection callback in [newConnection], for a connection of the base
    loop) the model runs it there, and where it ends the caller (the lambda of
    [removeConnection], [stop] called by a callback) it is the schedule in which
    the posted handler runs next. *)

From stdpp Require Import base tactics list numbers gmap relations.
From Stdlib Require Import ZArith Lia.
From S2P Require Import Prelude Machine EventLoop ThreadPool.

(** A connection as the server sees it: made by [newConnection], established,
    closing ([kDisconnecting]), or closed with its close callback called. *)
Inductive conn_phase := CNew | COpen | CClosing | CClosed.

#[export] Instance conn_phase_eq_dec : EqDecision conn_phase.
Proof. solve_decision. Defined.

(** A [DoneCallback]: empty, or the number of a function. *)
Definition DoneCallback : Type := option Z.

Record TCPServer := mkServer {
  status_ : Status;
  substatus_ : SubStatus;
  acceptor_ : bool;
  next_conn_id_ : Z;
  connections_ : gset Z;
  pool_ : option Pool;
  stopped_cb_ : DoneCallback
}.

(** What asio holds for the base loop: the lambda of [start], the bound
    [stopInLoop] and [stopInloopSafe], the lambda of [removeConnection], and the
    handler of [async_accept] with the loop its socket belongs to. *)
Inductive server_task :=
  | SListen
  | SStop (on_stopped_cb : DoneCallback)
  | SStopSafe (on_stopped_cb : DoneCallback)
  | SRemove (id : Z)
  | SAccept (io_loop : loop_ref).

(** What the handler of an accept is run with: a peer, the verdict of
    [verify_address_cb_] and whether the connection callback calls [stop]; a peer
    that is already gone, so that [remote_endpoint()] throws; or an error
    code. *)
Inductive accept_result :=
  | AcceptOk (verified : bool) (calls_stop : option DoneCallback)
  | AcceptGone
  | AcceptAborted
  | AcceptError.

Record World := mkWorld {
  server : TCPServer;
  tasks : list server_task;
  phases : gmap Z conn_phase;
  stopped : list Z
}.

Definition set_server (w : World) (s : TCPServer) : World := mkWorld s (tasks w) (phases w) (stopped w).
Definition post (w : World) (t : server_task) : World :=
  mkWorld (server w) (tasks w ++ [t]) (phases w) (stopped w).
Definition set_phases (w : World) (p : gmap Z conn_phase) : World :=
  mkWorld (server w) (tasks w) p (stopped w).

Definition with_status (s : TCPServer) (st : Status) (sub : SubStatus) : TCPServer :=
  mkServer st sub (acceptor_ s) (next_conn_id_ s) (connections_ s) (pool_ s) (stopped_cb_ s).
Definition with_acceptor (s : TCPServer) (a : bool) : TCPServer :=
  mkServer (status_ s) (substatus_ s) a (next_conn_id_ s) (connections_ s) (pool_ s) (stopped_cb_ s).
Definition with_pool (s : TCPServer) (p : option Pool) : TCPServer :=
  mkServer (status_ s) (substatus_ s) (acceptor_ s) (next_conn_id_ s) (connections_ s) p (stopped_cb_ s).
Definition with_connections (s : TCPServer) (id : Z) (cs : gset Z) : TCPServer :=
  mkServer (status_ s) (substatus_ s) (acceptor_ s) id cs (pool_ s) (stopped_cb_ s).
Definition with_stopped_cb (s : TCPServer) (cb : DoneCallback) : TCPServer :=
  mkServer (status_ s) (substatus_ s) (acceptor_ s) (next_conn_id_ s) (connections_ s) (pool_ s) cb.

Definition TCPServer_new (thread_num : nat) : TCPServer :=
  mkServer kNull kSubStatusNull false 0 ∅ (Some (mkPoolState kNull 0 thread_num)) None.

(** [assert] in a Debug build. *)
Section handlers.
Context (ndebug : bool).

Definition check (b : bool) (k : World + Error) : World + Error :=
  if b || ndebug then k else inr AssertionFailed.

(** [start], up to the lambda, which is posted: [pool_->start(true)] returns
    with all the threads running ([pool_start_stop_safe]). *)
Definition start (w : World) : World + Error :=
  let s := server w in
  check (bool_decide (status_ s = kNull))
    match pool_ s with
    | Some p =>
        let s := with_status s kStarting (substatus_ s) in
        let s := with_pool s (Some (mkPoolState kRunning (next_ p) (threads_ p))) in
        inl (post (set_server w s) SListen)
    | None => inr NullDeref
    end.

Definition doAccept (w : World) : World + Error :=
  let s := server w in
  match pool_ s with
  | None => inr NullDeref
  | Some p =>
      let '(io_loop, p) := getNextLoop p in
      if acceptor_ s then inl (post (set_server w (with_pool s (Some p))) (SAccept io_loop))
      else inr NullDeref
  end.

(** The lambda of [start]; [bound] says that opening, binding and listening
    succeed, otherwise they throw. *)
Definition listen (bound : bool) (w : World) : World + Error :=
  let s := with_acceptor (server w) true in
  if bound then
    let s := with_status s kRunning (substatus_ s) in
    doAccept (set_server w s)
  else inr SystemError.

Definition stop (on_stopped_cb : DoneCallback) (w : World) : World + Error :=
  check (bool_decide (status_ (server w) = kRunning)) (inl (post w (SStop on_stopped_cb))).

(** [for (auto& c : connections_) if (c.second->isConnected()) c.second->close();] *)
Definition close_connected (cs : gset Z) (p : gmap Z conn_phase) : gmap Z conn_phase :=
  map_imap (λ id c, Some (if bool_decide (id ∈ cs) && bool_decide (c = COpen) then CClosing else c)) p.

Definition stopInLoop (on_stopped_cb : DoneCallback) (w : World) : World + Error :=
  let s := with_status (server w) kStopping kStoppingListener in
  if acceptor_ s then
    let s := with_acceptor s false in
    if decide (connections_ s = ∅) then inl (post (set_server w s) (SStopSafe on_stopped_cb))
    else
      let w := set_phases w (close_connected (connections_ s) (phases w)) in
      inl (set_server w (with_stopped_cb s on_stopped_cb))
  else inr NullDeref.

(** [pool_->stop(true)], [join()] and [reset()]; the substatus is reset at the
    end. *)
Definition stopThreadPool (w : World) : World + Error :=
  let s := server w in
  check (isStopping (status_ s))
    match pool_ s with
    | Some p => inl (set_server w (with_status (with_pool s None) (status_ s) kSubStatusNull))
    | None => inr NullDeref
    end.

Definition stopInloopSafe (on_stopped_cb : DoneCallback) (w : World) : World + Error :=
  check (bool_decide (substatus_ (server w) = kStoppingListener))
    match stopThreadPool w with
    | inl w =>
        let w := mkWorld (server w) (tasks w) (phases w) (stopped w ++ option_list on_stopped_cb) in
        inl (set_server w (with_status (server w) kStopped (substatus_ (server w))))
    | inr e => inr e
    end.

(** The new connection is established on its own loop: inside the call when that
    is the base loop, at some later time otherwise. *)
Definition newConnection (io_loop : loop_ref) (r : accept_result) (w : World) : World + Error :=
  match r with
  | AcceptOk true calls_stop =>
      let s := server w in
      let id := wrap64 (next_conn_id_ s + 1) in
      let w := set_server w (with_connections s id ({[ id ]} ∪ connections_ s)) in
      match io_loop with
      | ThreadLoop _ => doAccept (set_phases w (<[ id := CNew ]> (phases w)))
      | BaseLoop =>
          let w := set_phases w (<[ id := COpen ]> (phases w)) in
          match calls_stop with
          | None => doAccept w
          | Some cb =>
              check (bool_decide (status_ s = kRunning))
                match stopInLoop cb w with
                | inl w => doAccept w
                | inr e => inr e
                end
          end
      end
  | AcceptGone => inr SystemError
  | AcceptAborted => inl w
  | AcceptOk false _ | AcceptError => doAccept w
  end.

(** The close callback of a connection, called on the connection's loop. *)
Definition removeConnection (id : Z) (w : World) : World := post w (SRemove id).

(** Its lambda, on the base loop. *)
Definition remove_in_loop (id : Z) (w : World) : World + Error :=
  let s := server w in
  let cs := connections_ s ∖ {[ id ]} in
  let w := set_server w (with_connections s (next_conn_id_ s) cs) in
  if isStopping (status_ s) && bool_decide (cs = ∅) then inl (post w (SStopSafe (stopped_cb_ s))) else inl w.

(** A pending handler, with what the system answers to it. *)
Definition run_task (t : server_task) (bound : bool) (r : accept_result) (w : World) : World + Error :=
  match t with
  | SListen => listen bound w
  | SStop cb => stopInLoop cb w
  | SStopSafe cb => stopInloopSafe cb w
  | SRemove id => remove_in_loop id w
  | SAccept io_loop => newConnection io_loop r w
  end.

(** [~TCPServer()] *)
Definition TCPServer_destroy (w : World) : World + Error :=
  let s := server w in
  check (bool_decide (connections_ s = ∅))
    (check (negb (acceptor_ s))
      match pool_ s with
      | Some p => check (isStopped (pool_status_ p)) (inl (set_server w (with_pool s None)))
      | None => inl w
      end).

(** ** Steps *)
Inductive server_step : World -> World -> Prop :=
  | step_task w before t after bound r w' :
      tasks w = before ++ t :: after ->
      run_task t bound r (mkWorld (server w) (before ++ after) (phases w) (stopped w)) = inl w' ->
      server_step w w'
  | step_stop w cb w' : stop cb w = inl w' -> server_step w w'
  | step_established w id :
      phases w !! id = Some CNew -> server_step w (set_phases w (<[id := COpen]> (phases w)))
  | step_closing w id :
      phases w !! id = Some COpen -> server_step w (set_phases w (<[id := CClosing]> (phases w)))
  | step_closed w id :
      phases w !! id = Some COpen \/ phases w !! id = Some CClosing ->
      server_step w (removeConnection id (set_phases w (<[id := CClosed]> (phases w)))).

(** A server on which [start] was called. *)
Definition server_init (thread_num : nat) (w : World) : Prop :=
  start (mkWorld (TCPServer_new thread_num) [] ∅ []) = inl w.

Definition server_reachable (w : World) : Prop :=
  exists thread_num w0, server_init thread_num w0 /\ rtc server_step w0 w.
End handlers.

(** ** Invariant *)
Inductive stage := Starting | Serving | Draining | Finishing | Halted.

#[export] Instance stage_eq_dec : EqDecision stage.
Proof. solve_decision. Defined.

Definition is_listen (t : server_task) : bool := match t with SListen => true | _ => false end.
Definition is_safe (t : server_task) : bool := match t with SStopSafe _ => true | _ => false end.
Definition is_remove (id : Z) (t : server_task) : bool :=
  match t with SRemove i => bool_decide (i = id) | _ => false end.

Definition stage_status (st : stage) : Status :=
  match st with
  | Starting => kStarting | Serving => kRunning | Draining | Finishing => kStopping | Halted => kStopped
  end.
Definition stage_substatus (st : stage) : SubStatus :=
  match st with Draining | Finishing => kStoppingListener | _ => kSubStatusNull end.

(** What is known of the connections. *)
Record conns_ok (w : World) : Prop := {
  co_next : next_conn_id_ (server w) = Z.of_nat (size (phases w));
  co_ids id c : phases w !! id = Some c -> 1 <= id <= next_conn_id_ (server w);
  co_known id : id ∈ connections_ (server w) -> is_Some (phases w !! id);
  co_open id c : phases w !! id = Some c -> c <> CClosed -> id ∈ connections_ (server w);
  co_remove id : count (is_remove id) (tasks w) =
    if decide (phases w !! id = Some CClosed /\ id ∈ connections_ (server w)) then 1%nat else 0%nat
}.

Record server_ok (st : stage) (w : World) : Prop := {
  so_status : status_ (server w) = stage_status st;
  so_substatus : substatus_ (server w) = stage_substatus st;
  so_acceptor : acceptor_ (server w) = bool_decide (st = Serving);
  so_pool : st <> Halted -> is_Some (pool_ (server w));
  so_listen : count is_listen (tasks w) = if decide (st = Starting) then 1%nat else 0%nat;
  so_safe : count is_safe (tasks w) = if decide (st = Finishing) then 1%nat else 0%nat;
  so_stopped : (length (stopped w) <= if decide (st = Halted) then 1 else 0)%nat;
  so_empty : (st = Starting \/ st = Finishing \/ st = Halted) -> connections_ (server w) = ∅;
  so_nonempty : st = Draining -> connections_ (server w) <> ∅
}.

Definition server_inv (w : World) : Prop := conns_ok w /\ exists st, server_ok st w.

(** Taking a handler out of the pending ones. *)
Definition take_out (w : World) (ts : list server_task) : World :=
  mkWorld (server w) ts (phases w) (stopped w).

Ltac solve_ok :=
  match goal with
  | Hs : server_ok _ _ |- server_ok _ _ =>
      destruct Hs as [Ss Su Sa Sp Sl Sf Sc Se Sn]; constructor; cbn in *;
      rewrite ?count_app, ?count_cons, ?count_nil in *; cbn in *; repeat (case_decide; try done);
      try done; try lia; auto; try (by intros [|[|]])
  end.

(** The connections do not depend on the rest. *)
Lemma conns_ok_frame w w' : conns_ok w -> phases w' = phases w ->
  next_conn_id_ (server w') = next_conn_id_ (server w) ->
  connections_ (server w') = connections_ (server w) ->
  (forall id, count (is_remove id) (tasks w') = count (is_remove id) (tasks w)) -> conns_ok w'.
Proof.
  intros [Cn Ci Ck Co Cr] Ep En Ec Et. constructor; rewrite ?Ep, ?En, ?Ec; try done.
  intros id. by rewrite Et, Cr.
Qed.

Lemma doAccept_ok w w' st : server_ok st w -> conns_ok w -> doAccept w = inl w' ->
  server_ok Serving w' /\ conns_ok w'.
Proof.
  intros Hs Hc E. unfold doAccept in E. destruct (pool_ (server w)) as [p|]; [|done].
  destruct (getNextLoop p) as [l p']. destruct (acceptor_ (server w)) eqn:Ea; [|done]. injection E as <-.
  assert (st = Serving) as ->.
  { pose proof (so_acceptor _ _ Hs) as H. rewrite Ea in H. symmetry in H. by apply bool_decide_eq_true in H. }
  split; [solve_ok|]. eapply conns_ok_frame; try done. intros id. cbn. rewrite count_app, count_cons, count_nil. cbn. lia.
Qed.

Lemma listen_ok w w' : server_ok Starting w -> count is_listen (tasks w) = 1%nat -> conns_ok w ->
  forall ts, count is_listen ts = 0%nat -> count is_safe ts = count is_safe (tasks w) ->
  (forall id, count (is_remove id) ts = count (is_remove id) (tasks w)) ->
  forall bound, listen bound (take_out w ts) = inl w' -> server_ok Serving w' /\ conns_ok w'.
Proof.
  intros Hs _ Hc ts Hl Hsf Hr bound E. unfold listen in E. destruct bound; [|done]. eapply doAccept_ok; [| |exact E].
  - instantiate (1 := Serving). solve_ok.
  - eapply conns_ok_frame; try done.
Qed.

(** Closing the connected ones changes no key, and no closed connection. *)
Lemma close_connected_lookup cs p id : close_connected cs p !! id =
  (λ c, if bool_decide (id ∈ cs) && bool_decide (c = COpen) then CClosing else c) <$> p !! id.
Proof. unfold close_connected. rewrite map_lookup_imap. by destruct (p !! id). Qed.

Lemma close_connected_closed cs p id :
  close_connected cs p !! id = Some CClosed <-> p !! id = Some CClosed.
Proof.
  rewrite close_connected_lookup. destruct (p !! id) as [c|]; [|done]. cbn.
  destruct (bool_decide (id ∈ cs)); cbn; [|done]. destruct c; cbn; done.
Qed.

Lemma close_connected_size cs p : size (close_connected cs p) = size p.
Proof.
  rewrite <- !size_dom. f_equal. unfold close_connected. apply set_eq. intros id.
  rewrite !elem_of_dom, map_lookup_imap. destruct (p !! id); cbn; split; intros [? ?]; by eexists.
Qed.

Lemma close_connected_ok w cs : conns_ok w -> conns_ok (set_phases w (close_connected cs (phases w))).
Proof.
  intros [Cn Ci Ck Co Cr]. constructor; cbn.
  - by rewrite close_connected_size.
  - intros id c. rewrite close_connected_lookup. intros (c' & Hc' & _)%fmap_Some. by eapply Ci.
  - intros id Hid. rewrite close_connected_lookup. apply fmap_is_Some. auto.
  - intros id c Hc Hne. destruct (phases w !! id) as [c'|] eqn:E.
    + apply (Co id c' E). intros ->. apply close_connected_closed with (cs := cs) in E. congruence.
    + by rewrite close_connected_lookup, E in Hc.
  - intros id. rewrite Cr. apply decide_ext. by rewrite close_connected_closed.
Qed.

Lemma stopInLoop_ok cb w w' st : server_ok st w -> conns_ok w -> stopInLoop cb w = inl w' ->
  server_inv w' /\ acceptor_ (server w') = false.
Proof.
  intros Hs Hc E. unfold stopInLoop in E. cbn in E. destruct (acceptor_ (server w)) eqn:Ea; [|done].
  assert (st = Serving) as ->.
  { pose proof (so_acceptor _ _ Hs) as Hb. rewrite Ea in Hb. symmetry in Hb. by apply bool_decide_eq_true in Hb. }
  destruct (decide (connections_ (server w) = ∅)) as [He|He]; injection E as <-; (split; [split|done]).
  - eapply conns_ok_frame; try done. intros id. cbn. rewrite count_app, count_cons, count_nil. cbn. lia.
  - exists Finishing. solve_ok.
  - eapply conns_ok_frame; [by apply (close_connected_ok w (connections_ (server w)))|done..].
  - exists Draining. solve_ok.
Qed.

(** After a stop there is nothing to accept on. *)
Lemma doAccept_closed w : acceptor_ (server w) = false -> exists e, doAccept w = inr e.
Proof.
  intros Ea. unfold doAccept. destruct (pool_ (server w)); [|by eexists]. destruct (getNextLoop _). rewrite Ea. by eexists.
Qed.

Lemma doAccept_phases w w' : doAccept w = inl w' -> phases w' = phases w.
Proof. unfold doAccept. intros E. repeat case_match; by simplify_eq. Qed.

Lemma serving_acceptor st w : server_ok st w -> acceptor_ (server w) = true -> st = Serving.
Proof. intros Hs Ea. rewrite (so_acceptor _ _ Hs) in Ea. by apply bool_decide_eq_true in Ea. Qed.

(** The first lines of [newConnection]: a connection with the next number. *)
Definition add_connection (w : World) (c : conn_phase) : World :=
  let id := wrap64 (next_conn_id_ (server w) + 1) in
  set_phases (set_server w (with_connections (server w) id ({[ id ]} ∪ connections_ (server w))))
    (<[id := c]> (phases w)).

Lemma next_id_fresh w c : conns_ok w -> Z.of_nat (size (phases (add_connection w c))) < 2 ^ 64 ->
  let id := wrap64 (next_conn_id_ (server w) + 1) in
  phases w !! id = None /\ id = next_conn_id_ (server w) + 1.
Proof.
  intros Hc Hsz id. cbn in Hsz. fold id in Hsz. pose proof (co_next _ Hc) as Cn.
  destruct (phases w !! id) as [c'|] eqn:Ei.
  - exfalso. pose proof (co_ids _ Hc id c' Ei) as Hb. rewrite map_size_insert_Some in Hsz by done.
    unfold id in Hb. destruct (decide (next_conn_id_ (server w) + 1 = 2 ^ 64)) as [Hw|Hw].
    + rewrite Hw in Hb. change (wrap64 (2 ^ 64)) with 0 in Hb. lia.
    + rewrite wrap_id in Hb by lia. lia.
  - split; [done|]. rewrite map_size_insert_None in Hsz by done. apply wrap_id. lia.
Qed.

Lemma add_connection_ok w c : conns_ok w -> Z.of_nat (size (phases (add_connection w c))) < 2 ^ 64 ->
  c <> CClosed -> conns_ok (add_connection w c).
Proof.
  intros Hc Hsz Hne. destruct (next_id_fresh w c Hc Hsz) as [Hf Hid]. unfold add_connection.
  set (id := wrap64 _) in *. destruct Hc as [Cn Ci Ck Co Cr]. constructor; cbn.
  - rewrite map_size_insert_None by done. lia.
  - intros i x. rewrite lookup_insert. case_decide; [intros; subst; lia|]. intros Hi%Ci. lia.
  - intros i Hi. rewrite lookup_insert. case_decide; [done|]. apply Ck. set_solver.
  - intros i x. rewrite lookup_insert. case_decide; [set_solver|]. intros Hi Hx. specialize (Co i x Hi Hx). set_solver.
  - intros i. rewrite Cr. destruct (decide (i = id)) as [->|Hni].
    + rewrite lookup_insert_eq, !decide_False; [done|by intros [[= ?] _]|intros [? _]; congruence].
    + rewrite lookup_insert_ne by done. apply decide_ext. set_solver.
Qed.

(** The pending handlers other than the one that runs. *)
Section task.
Context (w : World) (before : list server_task) (t : server_task) (after : list server_task).
Hypothesis Htasks : tasks w = before ++ t :: after.

Lemma count_rest q : count q (tasks w) = (count q (before ++ after) + if q t then 1 else 0)%nat.
Proof using Htasks. rewrite Htasks. apply count_taken. Qed.

Lemma conns_ok_rest : (forall id, is_remove id t = false) -> conns_ok w ->
  conns_ok (take_out w (before ++ after)).
Proof using Htasks.
  intros Hr Hc. eapply conns_ok_frame; try done. intros id. rewrite count_rest, Hr. cbn. lia.
Qed.

Lemma server_ok_rest st : is_listen t = false -> is_safe t = false -> server_ok st w ->
  server_ok st (take_out w (before ++ after)).
Proof using Htasks.
  intros H1 H2 Hs. pose proof (count_rest is_listen) as E1. pose proof (count_rest is_safe) as E2.
  rewrite H1 in E1. rewrite H2 in E2. destruct Hs. constructor; cbn; try done; lia.
Qed.

Lemma stopInloopSafe_inv nd cb w' st : t = SStopSafe cb -> conns_ok w -> server_ok st w ->
  stopInloopSafe nd cb (take_out w (before ++ after)) = inl w' -> server_inv w'.
Proof using Htasks.
  intros Ht Hc Hs E. apply conns_ok_rest in Hc; [|by rewrite Ht].
  assert (st = Finishing) as ->.
  { pose proof (so_safe _ _ Hs) as Hb. rewrite count_rest, Ht in Hb. cbn in Hb. case_decide; [done|lia]. }
  pose proof (count_rest is_listen) as E1. pose proof (count_rest is_safe) as E2. rewrite Ht in E1, E2. cbn in E1, E2.
  unfold stopInloopSafe, stopThreadPool, check in E. cbn in E.
  repeat case_match; simplify_eq. cbn in *. split.
  - eapply conns_ok_frame; done.
  - exists Halted. solve_ok. rewrite length_app. destruct cb; cbn; lia.
Qed.

Lemma remove_in_loop_inv id w' st : t = SRemove id -> conns_ok w -> server_ok st w ->
  remove_in_loop id (take_out w (before ++ after)) = inl w' -> server_inv w'.
Proof using Htasks.
  intros Ht Hc Hs E. pose proof (co_remove _ Hc id) as Hr. rewrite count_rest, Ht in Hr. cbn in Hr.
  rewrite bool_decide_true in Hr by done. case_decide as Hd; [|lia]. destruct Hd as [Hcl Hin].
  assert (st = Serving \/ st = Draining) as Hst.
  { destruct st; auto; exfalso; (assert (connections_ (server w) = ∅) as He by (apply Hs; auto));
      rewrite He in Hin; set_solver. }
  set (cs := connections_ (server w) ∖ {[id]}) in *.
  assert (conns_ok (take_out (set_server w (with_connections (server w) (next_conn_id_ (server w)) cs))
                             (before ++ after))) as Hc'.
  { destruct Hc as [Cn Ci Ck Co Cr]. constructor; cbn; try done.
    - intros i Hi. apply Ck. set_solver.
    - intros i c Hi Hne. assert (i <> id) by (intros ->; congruence). specialize (Co i c Hi Hne). set_solver.
    - intros i. specialize (Cr i). rewrite count_rest, Ht in Cr. cbn in Cr.
      destruct (decide (i = id)) as [->|Hi].
      + rewrite decide_False by set_solver. lia.
      + rewrite bool_decide_false in Cr by done. rewrite Nat.add_0_r in Cr. rewrite Cr. apply decide_ext. set_solver. }
  assert (server_ok st (take_out w (before ++ after))) as Hs' by (by apply server_ok_rest; [rewrite Ht|rewrite Ht|]).
  unfold remove_in_loop in E. cbn in E. fold cs in E. pose proof (so_status _ _ Hs) as Est. rewrite Est in E.
  destruct Hst as [-> | ->]; cbn in E.
  - injection E as <-. split; [done|]. exists Serving. solve_ok.
  - destruct (bool_decide (cs = ∅)) eqn:Eb; injection E as <-.
    + apply bool_decide_eq_true in Eb. split.
      * eapply conns_ok_frame; try done. intros i. cbn. rewrite count_app, count_cons, count_nil. cbn. lia.
      * exists Finishing. solve_ok.
    + apply bool_decide_eq_false in Eb. split; [done|]. exists Draining. solve_ok.
Qed.

Lemma newConnection_inv nd io r w' st : t = SAccept io -> conns_ok w -> server_ok st w ->
  Z.of_nat (size (phases w')) < 2 ^ 64 ->
  newConnection nd io r (take_out w (before ++ after)) = inl w' -> server_inv w'.
Proof using Htasks.
  intros Ht Hc Hs Hsz E. apply conns_ok_rest in Hc; [|by rewrite Ht]. apply server_ok_rest in Hs; [|by rewrite Ht..].
  set (w1 := take_out w (before ++ after)) in *.
  assert (forall v, doAccept v = inl w' -> conns_ok v -> server_ok st v -> server_inv w') as Hda.
  { intros v Ev Hcv Hsv. destruct (doAccept_ok v w' st Hsv Hcv Ev). split; [done|by exists Serving]. }
  assert (forall c, c <> CClosed -> doAccept (add_connection w1 c) = inl w' -> server_inv w') as Hadd.
  { intros c Hne Ev. assert (phases w' = phases (add_connection w1 c)) as Ep by by apply doAccept_phases.
    assert (st = Serving) as ->.
    { destruct (acceptor_ (server w1)) eqn:Ea; [by apply serving_acceptor in Hs|].
      destruct (doAccept_closed (add_connection w1 c)) as [e He]; [done|congruence]. }
    apply (Hda _ Ev); [apply add_connection_ok; [done|by rewrite Ep in Hsz|done]|solve_ok]. }
  unfold newConnection in E. destruct r as [[|] calls| | |].
  - destruct io as [|i]; [destruct calls as [cb|]|].
    + unfold check in E. destruct (_ || nd); [|done].
      destruct (stopInLoop _ _) as [w2|] eqn:E2; [|done]. exfalso.
      assert (acceptor_ (server w2) = false) as Ea.
      { unfold stopInLoop in E2. repeat case_match; by simplify_eq. }
      destruct (doAccept_closed w2 Ea). congruence.
    + by apply (Hadd COpen).
    + by apply (Hadd CNew).
  - by apply (Hda w1).
  - done.
  - injection E as <-. split; [done|by exists st].
  - by apply (Hda w1).
Qed.
End task.

(** A connection that is not closed moves on to [c]. *)
Lemma set_phase_ok w id c c' : conns_ok w -> phases w !! id = Some c -> c <> CClosed ->
  let w' := set_phases w (<[id := c']> (phases w)) in
  (c' <> CClosed -> conns_ok w') /\ (c' = CClosed -> conns_ok (removeConnection id w')).
Proof.
  intros [Cn Ci Ck Co Cr] Hid Hne. pose proof (Co id c Hid Hne) as Hin.
  assert (count (is_remove id) (tasks w) = 0%nat) as H0.
  { rewrite Cr, decide_False; [done|]. intros [? _]. congruence. }
  split; intros Hc'; constructor; cbn.
  1, 6: rewrite map_size_insert_Some by done; done.
  1, 5: intros i x; rewrite lookup_insert; case_decide; [intros; subst; by eapply Ci|apply Ci].
  1, 4: intros i Hi; rewrite lookup_insert; case_decide; [done|by apply Ck].
  1, 3: intros i x; rewrite lookup_insert; case_decide; [intros; by subst|apply Co].
  - intros i. destruct (decide (i = id)) as [->|Hn].
    + rewrite lookup_insert_eq, decide_False; [done|]. intros [[= ?] _]. done.
    + rewrite lookup_insert_ne by done. apply Cr.
  - intros i. rewrite count_app, count_cons, count_nil. cbn. destruct (decide (i = id)) as [->|Hn].
    + rewrite lookup_insert_eq, decide_True, bool_decide_true by (try done; by rewrite Hc'). lia.
    + rewrite lookup_insert_ne, bool_decide_false by done. rewrite Nat.add_0_r. apply Cr.
Qed.

Lemma server_step_inv nd w w' : server_step nd w w' -> Z.of_nat (size (phases w')) < 2 ^ 64 ->
  server_inv w -> server_inv w'.
Proof.
  intros Hstep Hsz [Hc [st Hs]].
  destruct Hstep as [w before t after bound r w' Ht E|w cb w' E|w id Hid|w id Hid|w id Hid].
  - change (mkWorld (server w) (before ++ after) (phases w) (stopped w)) with (take_out w (before ++ after)) in E.
    destruct t as [|cb|cb|id|io]; cbn in E.
    + assert (st = Starting) as ->.
      { pose proof (so_listen _ _ Hs) as Hb. rewrite (count_rest w before SListen after Ht) in Hb. cbn in Hb.
        case_decide; [done|lia]. }
      pose proof (so_listen _ _ Hs) as Hl. rewrite (count_rest w before SListen after Ht) in Hl. cbn in Hl.
      rewrite decide_True in Hl by done.
      destruct (listen_ok w w' Hs) with (ts := before ++ after) (bound := bound) as [? ?]; try done.
      * rewrite (count_rest w before SListen after Ht). cbn. lia.
      * lia.
      * rewrite (count_rest w before SListen after Ht). cbn. lia.
      * intros id. rewrite (count_rest w before SListen after Ht). cbn. lia.
      * split; [done|by exists Serving].
    + eapply stopInLoop_ok; [by eapply server_ok_rest|by eapply conns_ok_rest|done].
    + by eapply stopInloopSafe_inv.
    + by eapply remove_in_loop_inv.
    + by eapply newConnection_inv.
  - unfold stop, check in E. case_match; [|done]. injection E as <-. split; [|exists st; solve_ok].
    eapply conns_ok_frame; try done. intros id. cbn. rewrite count_app, count_cons, count_nil. cbn. lia.
  - split; [|exists st; solve_ok]. by apply (set_phase_ok w id CNew COpen).
  - split; [|exists st; solve_ok]. by apply (set_phase_ok w id COpen CClosing).
  - split; [|exists st; solve_ok].
    destruct Hid as [Hid|Hid]; by eapply (set_phase_ok w id _ CClosed Hc Hid).
Qed.

(** The connections ever accepted only get more. *)
Lemma stopInLoop_size cb w w' : stopInLoop cb w = inl w' -> size (phases w') = size (phases w).
Proof. unfold stopInLoop. intros E. repeat case_match; simplify_eq; cbn; [done|]. by rewrite close_connected_size. Qed.

Lemma add_connection_size w c : (size (phases w) <= size (phases (add_connection w c)))%nat.
Proof. cbn. rewrite map_size_insert. case_match; cbn; lia. Qed.

Lemma run_task_size nd t b r w w' : run_task nd t b r w = inl w' -> (size (phases w) <= size (phases w'))%nat.
Proof.
  destruct t; cbn; intros E.
  - unfold listen in E. destruct b; [|done]. by rewrite (doAccept_phases _ _ E).
  - by rewrite (stopInLoop_size _ _ _ E).
  - unfold stopInloopSafe, stopThreadPool, check in E. repeat case_match; by simplify_eq.
  - unfold remove_in_loop in E. case_match; by simplify_eq.
  - unfold newConnection in E. destruct r as [[|] calls| | |]; try by rewrite (doAccept_phases _ _ E).
    + destruct io_loop; [destruct calls|].
      * unfold check in E. repeat case_match; simplify_eq. rewrite (doAccept_phases _ _ E).
        match goal with H : stopInLoop _ _ = inl _ |- _ => rewrite (stopInLoop_size _ _ _ H) end.
        apply (add_connection_size w COpen).
      * rewrite (doAccept_phases _ _ E). apply (add_connection_size w COpen).
      * rewrite (doAccept_phases _ _ E). apply (add_connection_size w CNew).
    + done.
    + by simplify_eq.
Qed.

Lemma server_step_size nd w w' : server_step nd w w' -> (size (phases w) <= size (phases w'))%nat.
Proof.
  destruct 1 as [w before t after b r w' Ht E|w cb w' E|w id Hid|w id Hid|w id Hid]; cbn.
  - by apply run_task_size in E.
  - unfold stop, check in E. case_match; by simplify_eq.
  - by rewrite map_size_insert_Some.
  - by rewrite map_size_insert_Some.
  - destruct Hid; by erewrite map_size_insert_Some.
Qed.

Lemma server_init_inv nd k w : server_init nd k w -> server_inv w.
Proof.
  unfold server_init, start, check. cbn. intros [= <-]. split.
  - constructor; cbn; try done; set_solver.
  - exists Starting. constructor; cbn; try done.
Qed.

Lemma server_reachable_inv nd w : server_reachable nd w -> Z.of_nat (size (phases w)) < 2 ^ 64 -> server_inv w.
Proof.
  intros (k & w0 & Hi & Hs). apply server_init_inv in Hi. revert Hi.
  induction Hs as [w|w0 w1 w2 Hs1 Hs2 IH]; intros Hi Hsz; [done|]. apply IH; [|done].
  eapply server_step_inv; [done| |done]. clear IH Hs1 Hi.
  induction Hs2 as [|x y z Hxy _ IH]; [done|]. apply server_step_size in Hxy. specialize (IH Hsz). lia.
Qed.

(** ** Claims *)

(** C16. Stopping a server, under every interleaving of its handlers with its
    connections: the stop callback is called at most once, and when it has been
    called the server is stopped, its thread pool is gone, its listener is
    closed, its connection map is empty and every connection it ever accepted
    has been closed.  (Fewer than 2^64 connections are accepted.) *)
Theorem stop_callback_once_and_last ndebug w : server_reachable ndebug w ->
  Z.of_nat (size (phases w)) < 2 ^ 64 ->
  (length (stopped w) <= 1)%nat /\
  (stopped w <> [] -> status_ (server w) = kStopped /\ acceptor_ (server w) = false /\
     connections_ (server w) = ∅ /\ map_Forall (λ _ c, c = CClosed) (phases w)).
Proof.
  intros Hr Hsz. destruct (server_reachable_inv _ _ Hr Hsz) as [Hc [st Hs]].
  pose proof (so_stopped _ _ Hs) as Hst. split; [case_decide; lia|]. intros H1.
  case_decide as Hh; [|by destruct (stopped w); [|cbn in Hst; lia]]. subst st. split_and!; [apply Hs|apply Hs|apply Hs; auto|].
  intros id c Hid. destruct (decide (c = CClosed)) as [|Hne]; [done|].
  pose proof (co_open _ Hc id c Hid Hne) as Hin. rewrite (so_empty _ _ Hs) in Hin by auto. set_solver.
Qed.

(** C18. The server keeps track of its connections: ids are handed out from 1
    without repetition, [next_conn_id_] counts the connections accepted, every
    connection that is not closed is in [connections_], and a closed one is
    there exactly as long as its removal is pending, once. *)
Theorem server_tracks_connections ndebug w : server_reachable ndebug w ->
  Z.of_nat (size (phases w)) < 2 ^ 64 ->
  next_conn_id_ (server w) = Z.of_nat (size (phases w)) /\
  (forall id c, phases w !! id = Some c ->
     1 <= id <= next_conn_id_ (server w) /\
     (c <> CClosed -> id ∈ connections_ (server w)) /\
     (c = CClosed -> count (is_remove id) (tasks w) = if decide (id ∈ connections_ (server w)) then 1%nat else 0%nat)).
Proof.
  intros Hr Hsz. destruct (server_reachable_inv _ _ Hr Hsz) as [[Cn Ci Ck Co Cr] _].
  split; [done|]. intros id c Hid. split_and!; [by eapply Ci|by eapply Ci|by eapply Co|].
  intros ->. rewrite Cr. apply decide_ext. tauto.
Qed.

(** ** Executions *)
Inductive server_choice :=
  | RunTask (i : nat) (bound : bool) (r : accept_result)
  | CallStop (on_stopped_cb : DoneCallback)
  | Established (id : Z)
  | PeerCloses (id : Z).

Section play.
Context (ndebug : bool).

Definition play_one (ch : server_choice) (w : World) : World + Error :=
  match ch with
  | RunTask i bound r =>
      match tasks w !! i with
      | Some t => run_task ndebug t bound r (take_out w (delete i (tasks w)))
      | None => inr Fatal
      end
  | CallStop cb => stop ndebug cb w
  | Established id =>
      if decide (phases w !! id = Some CNew) then inl (set_phases w (<[id := COpen]> (phases w))) else inr Fatal
  | PeerCloses id =>
      if decide (phases w !! id = Some COpen \/ phases w !! id = Some CClosing)
      then inl (removeConnection id (set_phases w (<[id := CClosed]> (phases w)))) else inr Fatal
  end.

Fixpoint play (chs : list server_choice) (w : World) : World + Error :=
  match chs with
  | [] => inl w
  | ch :: chs => match play_one ch w with inl w => play chs w | inr e => inr e end
  end.

(** A server with [thread_num] threads, started. *)
Definition play_server (thread_num : nat) (chs : list server_choice) : World + Error :=
  match start ndebug (mkWorld (TCPServer_new thread_num) [] ∅ []) with inl w => play chs w | inr e => inr e end.

Lemma server_play_step ch w w' : play_one ch w = inl w' -> server_step ndebug w w'.
Proof.
  destruct ch as [i b r|cb|id|id]; cbn; intros E.
  - destruct (tasks w !! i) as [t|] eqn:Et; [|done].
    apply (step_task _ w (take i (tasks w)) t (drop (S i) (tasks w)) b r).
    + by rewrite take_drop_middle.
    + by rewrite <- delete_take_drop.
  - by eapply step_stop.
  - case_decide; [|done]. injection E as <-. by apply step_established.
  - case_decide; [|done]. injection E as <-. by apply step_closed.
Qed.

Lemma play_server_reachable k chs w : play_server k chs = inl w -> server_reachable ndebug w.
Proof.
  unfold play_server. destruct (start _ _) as [w0|] eqn:Es; [|done]. intros E. exists k, w0. split; [done|].
  clear Es. revert w0 E. induction chs as [|ch chs IH]; intros w0 E; cbn in E.
  - injection E as ->. apply rtc_refl.
  - destruct (play_one ch w0) as [w1|] eqn:E1; [|done]. eapply rtc_l; [by apply (server_play_step ch)|by apply IH].
Qed.
End play.

(** Asio runs handler [i]; an accept it runs is aborted, or succeeds. *)
Definition handler (i : nat) : server_choice := RunTask i true AcceptAborted.
Definition accepts (i : nat) : server_choice := RunTask i true (AcceptOk true None).

(** Listen, accept one connection, serve it, stop with it still open. *)
Definition serve_and_stop : list server_choice :=
  [handler 0; accepts 0; Established 1; CallStop (Some 7); handler 1; handler 0; PeerCloses 1; handler 0; handler 0].

Definition summary (r : World + Error) : (Status * list Z * nat * list server_task) + Error :=
  match r with
  | inl w => inl (status_ (server w), stopped w, size (connections_ (server w)), tasks w)
  | inr e => inr e
  end.

Lemma stop_callback_once_and_last_witness :
  summary (play_server false 2 serve_and_stop) = inl (kStopped, [7], 0%nat, []) /\
  exists w, play_server false 2 serve_and_stop = inl w /\ (length (stopped w) <= 1)%nat.
Proof.
  split; [vm_compute; reflexivity|].
  destruct (play_server false 2 serve_and_stop) as [w|] eqn:E; [|vm_compute in E; discriminate].
  exists w. split; [reflexivity|].
  apply (stop_callback_once_and_last false w (play_server_reachable false _ _ w E)).
  vm_compute in E. injection E as <-. vm_compute. reflexivity.
Defined.

Lemma server_tracks_connections_witness :
  exists w, play_server false 2 serve_and_stop = inl w /\
    next_conn_id_ (server w) = Z.of_nat (size (phases w)).
Proof.
  destruct (play_server false 2 serve_and_stop) as [w|] eqn:E; [|vm_compute in E; discriminate].
  exists w. split; [reflexivity|].
  apply (server_tracks_connections false w (play_server_reachable false _ _ w E)).
  vm_compute in E. injection E as <-. vm_compute. reflexivity.
Defined.

(** Four ways in which a stop or an accept goes wrong, in Debug and Release
    builds.  When an accept had completed before [stopInLoop] ran, its handler
    calls [doAccept] on the acceptor that [stopInLoop] has reset and dereferences
    null; so it does when the connection callback of a new connection calls
    [stop] on a server without threads.  A peer that disconnects before the
    accept handler runs makes [remote_endpoint()] throw out of the loop.  And a
    connection that was accepted but is not yet established when [stopInLoop]
    runs is not closed, because [isConnected()] is still false: the server ends
    up waiting, with no handler pending, for a connection that nobody closes. *)
Lemma stop_races_with_accept ndebug :
  summary (play_server ndebug 2 [handler 0; CallStop None; handler 1; accepts 0]) = inr NullDeref /\
  summary (play_server ndebug 0 [handler 0; RunTask 0 true (AcceptOk true (Some None))]) = inr NullDeref /\
  summary (play_server ndebug 2 [handler 0; RunTask 0 true AcceptGone]) = inr SystemError /\
  summary (play_server ndebug 2 [handler 0; accepts 0; CallStop None; handler 1; handler 0; Established 1])
    = inl (kStopping, [], 1%nat, []).
Proof. destruct ndebug; split_and!; vm_compute; reflexivity. Qed.
