(* ===== verification/ServerStop.v ===== *)
(** * A stop completes

    What is left to happen after [TCPServer::stopInLoop], and that it does happen:
    asio runs the handlers it holds (a pending accept with
    [operation_aborted], its acceptor being closed) and every connection on which
    [close()] was called is closed.  These are the steps [drain_step]; they are
    bounded in number, and as long as the stop callback has not been called one
    of them can be taken.  The application may not call [stop] a second time, and
    no connection may be waiting to be established
    ([TcpServer.stop_races_with_accept] shows that the code needs both). *)

From stdpp Require Import base tactics list numbers gmap relations.
From Stdlib Require Import ZArith Lia.
From S2P Require Import Prelude Machine EventLoop ThreadPool TcpServer.

Section stop.
Context (ndebug : bool).

Inductive drain_step : World -> World -> Prop :=
  | drain_task w before t after w' :
      tasks w = before ++ t :: after ->
      run_task ndebug t true AcceptAborted (take_out w (before ++ after)) = inl w' ->
      drain_step w w'
  | drain_closed w id :
      phases w !! id = Some CClosing ->
      drain_step w (removeConnection id (set_phases w (<[id := CClosed]> (phases w)))).

Lemma drain_server_step w w' : drain_step w w' -> server_step ndebug w w'.
Proof using Type.
  destruct 1 as [w before t after w' Ht E|w id Hid]; [by eapply step_task|]. apply step_closed. by right.
Qed.

Definition is_stop (t : server_task) : bool := match t with SStop _ => true | _ => false end.

(** Where the callback [cb] is, stage by stage. *)
Definition holds_callback (cb : DoneCallback) (st : stage) (w : World) : Prop :=
  match st with
  | Draining => stopped_cb_ (server w) = cb
  | Finishing => Forall (λ t, is_safe t = true -> t = SStopSafe cb) (tasks w)
  | Halted => stopped w = option_list cb
  | Starting | Serving => False
  end.

Record stopping (cb : DoneCallback) (w : World) : Prop := {
  sg_no_stop : count is_stop (tasks w) = 0%nat;
  sg_conns id c : phases w !! id = Some c -> c = CClosing \/ c = CClosed;
  sg_small : Z.of_nat (size (phases w)) < 2 ^ 64;
  sg_conns_ok : conns_ok w;
  sg_stage : exists st, server_ok st w /\ holds_callback cb st w
}.

(** ** The measure *)
Definition closing (p : gmap Z conn_phase) : nat := size (filter (λ x, x.2 = CClosing) p).

Definition weight (t : server_task) : nat := match t with SRemove _ => 2 | _ => 1 end.
Definition rank (w : World) : nat := 3 * closing (phases w) + sum_list_with weight (tasks w).

Lemma closing_closed p id : p !! id = Some CClosing -> closing p = S (closing (<[id := CClosed]> p)).
Proof using Type.
  intros Hid. unfold closing. rewrite map_filter_insert_False by done. rewrite map_filter_delete.
  rewrite map_size_delete_Some; [|exists CClosing; by apply map_lookup_filter_Some].
  assert (size (filter (λ x, x.2 = CClosing) p) <> 0%nat); [|lia].
  intros E%map_size_empty_iff. assert (filter (λ x : Z * conn_phase, x.2 = CClosing) p !! id = Some CClosing) as H
    by by apply map_lookup_filter_Some.
  by rewrite E in H.
Qed.

Lemma weights_app l k : sum_list_with weight (l ++ k) = (sum_list_with weight l + sum_list_with weight k)%nat.
Proof using Type. induction l as [|x l IH]; cbn; [done|]. rewrite IH. lia. Qed.

Lemma weights_taken before t after :
  sum_list_with weight (before ++ t :: after) = (weight t + sum_list_with weight (before ++ after))%nat.
Proof using Type. rewrite !weights_app. cbn. lia. Qed.

(** ** Each step goes on stopping, with less to do *)
Lemma safe_stage cb w before cb' after : stopping cb w -> tasks w = before ++ SStopSafe cb' :: after ->
  server_ok Finishing w /\ cb' = cb.
Proof using Type.
  intros Hg Ht. destruct (sg_stage _ _ Hg) as (st & Hs & Hcb).
  assert (st = Finishing) as ->.
  { pose proof (so_safe _ _ Hs) as Hb. rewrite Ht, count_taken in Hb. cbn in Hb. case_decide; [done|lia]. }
  split; [done|]. cbn in Hcb. rewrite Forall_forall in Hcb. specialize (Hcb (SStopSafe cb')). rewrite Ht in Hcb.
  assert (SStopSafe cb' = SStopSafe cb) as E; [|congruence]. apply Hcb; [|done].
  apply elem_of_app. right. left.
Qed.

Lemma run_safe cb w ts : server_ok Finishing w -> exists w',
  stopInloopSafe ndebug cb (take_out w ts) = inl w' /\ tasks w' = ts /\ phases w' = phases w /\
  stopped w' = stopped w ++ option_list cb /\ stopped_cb_ (server w') = stopped_cb_ (server w).
Proof using Type.
  intros Hs. unfold stopInloopSafe, stopThreadPool, check. cbn.
  rewrite (so_substatus _ _ Hs), (so_status _ _ Hs). cbn.
  destruct (so_pool _ _ Hs) as [p ->]; [done|]. cbn. by eexists.
Qed.

Lemma finishing_no_stops st w : server_ok st w -> st <> Halted -> stopped w = [].
Proof using Type.
  intros Hs Hst. pose proof (so_stopped _ _ Hs) as Hb. rewrite decide_False in Hb by done.
  destruct (stopped w); [done|cbn in Hb; lia].
Qed.

(** The stage is determined by the status and the pending handlers. *)
Lemma stage_unique st st' w : server_ok st w -> server_ok st' w -> st = st'.
Proof using Type.
  intros H1 H2. pose proof (so_status _ _ H1) as E1. rewrite (so_status _ _ H2) in E1.
  pose proof (so_safe _ _ H1) as E2. rewrite (so_safe _ _ H2) in E2.
  destruct st, st'; cbn in E1; try done; cbn in E2; repeat (case_decide; try done); done.
Qed.

(** What every step keeps, given where it goes. *)
Lemma stopping_step cb w w' st' : stopping cb w -> drain_step w w' -> size (phases w') = size (phases w) ->
  count is_stop (tasks w') = 0%nat ->
  (forall id c, phases w' !! id = Some c -> c = CClosing \/ c = CClosed) ->
  (server_inv w' -> server_ok st' w' /\ holds_callback cb st' w') -> stopping cb w'.
Proof using Type.
  intros Hg Hd Hsz Hstop Hc Hst. destruct (sg_stage _ _ Hg) as (st & Hs & _).
  assert (server_inv w') as Hinv.
  { eapply server_step_inv; [by apply drain_server_step|rewrite Hsz; apply Hg|]. split; [apply Hg|by exists st]. }
  constructor; try done; [rewrite Hsz; apply Hg|apply Hinv|]. exists st'. by apply Hst.
Qed.

Lemma count_safe_forall (ts : list server_task) cb : count is_safe ts = 0%nat ->
  Forall (λ t, is_safe t = true -> t = SStopSafe cb) (ts ++ [SStopSafe cb]).
Proof using Type.
  intros H0. apply Forall_app. split; [|by repeat constructor]. apply Forall_forall. intros t Ht Hs. exfalso.
  apply list_elem_of_split in Ht as (l1 & l2 & ->). rewrite count_app, count_cons, Hs in H0. lia.
Qed.

Lemma drain_safe cb w before cb' after w' : stopping cb w -> tasks w = before ++ SStopSafe cb' :: after ->
  stopInloopSafe ndebug cb' (take_out w (before ++ after)) = inl w' -> stopping cb w' /\ (rank w' < rank w)%nat.
Proof using Type.
  intros Hg Ht E. destruct (safe_stage _ _ _ _ _ Hg Ht) as [Hs ->].
  destruct (run_safe cb w (before ++ after) Hs) as (w2 & E2 & Et & Ep & Es & _).
  rewrite E2 in E. injection E as ->. split.
  - apply (stopping_step cb w w' Halted); try done; rewrite ?Ep; try done.
    + by eapply drain_task.
    + pose proof (sg_no_stop _ _ Hg) as H0. rewrite Ht, count_taken in H0. rewrite Et. lia.
    + by apply Hg.
    + intros [_ [st' Hs']]. assert (st' = Halted) as ->.
      { unfold stopInloopSafe, stopThreadPool, check in E2. repeat case_match; simplify_eq.
        pose proof (so_status _ _ Hs') as Hst. cbn in Hst. by destruct st'. }
      split; [done|]. cbn. rewrite Es, (finishing_no_stops _ _ Hs); done.
  - unfold rank. rewrite Ep, Et, Ht, weights_taken. cbn [weight]. lia.
Qed.

Lemma drain_remove cb w before id after w' : stopping cb w -> tasks w = before ++ SRemove id :: after ->
  remove_in_loop id (take_out w (before ++ after)) = inl w' -> stopping cb w' /\ (rank w' < rank w)%nat.
Proof using ndebug.
  intros Hg Ht E. destruct (sg_stage _ _ Hg) as (st & Hs & Hcb).
  assert (st = Draining) as ->.
  { pose proof (co_remove _ (sg_conns_ok _ _ Hg) id) as Hr. rewrite Ht, count_taken in Hr. cbn in Hr.
    rewrite bool_decide_true in Hr by done. case_decide as Hd; [|lia]. destruct Hd as [_ Hin].
    destruct st; try done; exfalso; rewrite (so_empty _ _ Hs) in Hin by auto; set_solver. }
  cbn in Hcb. pose proof (so_safe _ _ Hs) as Hsafe. rewrite Ht, count_taken, decide_False in Hsafe by done.
  cbn in Hsafe. pose proof (sg_no_stop _ _ Hg) as H0. rewrite Ht, count_taken in H0. cbn in H0.
  assert (drain_step w w') as Hd by by eapply drain_task.
  unfold remove_in_loop in E. cbn in E. rewrite (so_status _ _ Hs), Hcb in E. cbn in E.
  set (cs := connections_ (server w) ∖ {[id]}) in E.
  destruct (bool_decide (cs = ∅)); injection E as <-; 
    (split; [|unfold rank; cbn; rewrite Ht, (weights_taken before (SRemove id) after); cbn [weight]]).
  - apply (stopping_step cb w _ Finishing); try done; [|by apply Hg|].
    + cbn. rewrite count_app, count_cons, count_nil. cbn. lia.
    + intros [_ [st' Hs']]. assert (st' = Finishing) as ->.
      { pose proof (so_safe _ _ Hs') as Hb. cbn in Hb. rewrite count_app, count_cons, count_nil in Hb. cbn in Hb.
        case_decide; [done|lia]. }
      split; [done|]. apply count_safe_forall. cbn. lia.
  - rewrite weights_app. cbn. lia.
  - apply (stopping_step cb w _ Draining); try done; [cbn; lia|by apply Hg|].
    intros [_ [st' Hs']]. assert (st' = Draining) as ->; [|done].
    pose proof (so_status _ _ Hs') as Hst. pose proof (so_safe _ _ Hs') as Hb. cbn in Hst, Hb.
    rewrite (so_status _ _ Hs) in Hst. destruct st'; try done. rewrite decide_True in Hb by done. lia.
  - lia.
Qed.

Lemma drain_step_stopping cb w w' : drain_step w w' -> stopping cb w -> stopping cb w' /\ (rank w' < rank w)%nat.
Proof using Type.
  intros Hd Hg. pose proof Hd as Hd'. destruct (sg_stage _ _ Hg) as (st & Hs & Hcb).
  destruct Hd as [w before t after w' Ht E|w id Hid].
  - destruct t as [|cb'|cb'|id|io]; cbn in E.
    + exfalso. pose proof (so_listen _ _ Hs) as Hl. rewrite Ht, count_taken in Hl. cbn in Hl.
      case_decide; [by subst st|lia].
    + exfalso. pose proof (sg_no_stop _ _ Hg) as H0. rewrite Ht, count_taken in H0. cbn in H0. lia.
    + by eapply drain_safe.
    + by eapply drain_remove.
    + injection E as <-. split; [|unfold rank; cbn; rewrite Ht, weights_taken; cbn [weight]; lia].
      apply (stopping_step cb w _ st); try done.
      * pose proof (sg_no_stop _ _ Hg) as H0. rewrite Ht, count_taken in H0. cbn in H0 |- *. lia.
      * by apply Hg.
      * intros [_ [st' Hs']]. assert (server_ok st (take_out w (before ++ after))) as Hs2 by by eapply server_ok_rest.
        split; [done|]. destruct st; try done. cbn in Hcb |- *. rewrite Ht in Hcb.
        apply Forall_app in Hcb as [? Hcb]. inversion Hcb; subst. by apply Forall_app.
  - split.
    + apply (stopping_step cb w _ st); try done.
      * cbn. by rewrite map_size_insert_Some.
      * cbn. rewrite count_app, count_cons, count_nil, (sg_no_stop _ _ Hg). done.
      * cbn. intros i c. rewrite lookup_insert. case_decide; [intros [= <-]; by right|by apply Hg].
      * intros _. assert (server_ok st (removeConnection id (set_phases w (<[id:=CClosed]> (phases w))))) as Hs2.
        { clear Hcb. solve_ok. }
        split; [done|]. destruct st; try done. cbn in Hcb |- *. apply Forall_app. split; [done|by repeat constructor].
    + unfold rank. cbn. rewrite (closing_closed _ _ Hid), weights_app. cbn. lia.
Qed.

(** ** Something is left to do until the server has stopped *)
Lemma drain_progress cb w : stopping cb w ->
  (exists w', drain_step w w') \/ (status_ (server w) = kStopped /\ stopped w = option_list cb).
Proof using Type.
  intros Hg. destruct (sg_stage _ _ Hg) as (st & Hs & Hcb). destruct st; try done.
  - left. destruct (set_choose_L (connections_ (server w))) as [id Hid]; [by apply (so_nonempty _ _ Hs)|].
    destruct (co_known _ (sg_conns_ok _ _ Hg) id Hid) as [c Hc].
    destruct (sg_conns _ _ Hg id c Hc) as [-> | ->]; [by eexists; apply drain_closed|].
    pose proof (co_remove _ (sg_conns_ok _ _ Hg) id) as Hr. rewrite decide_True in Hr by done.
    destruct (count_pos (is_remove id) (tasks w)) as (before & t & after & Ht & Hq); [by rewrite Hr|].
    destruct t as [| | |i|]; try done. destruct (remove_in_loop i (take_out w (before ++ after))) as [w'|] eqn:E.
    + exists w'. by eapply drain_task.
    + exfalso. unfold remove_in_loop in E. by case_match.
  - left. pose proof (so_safe _ _ Hs) as Hr. rewrite decide_True in Hr by done.
    destruct (count_pos is_safe (tasks w)) as (before & t & after & Ht & Hq); [by rewrite Hr|].
    destruct t; try done. destruct (run_safe on_stopped_cb w (before ++ after) Hs) as (w' & E & _).
    exists w'. by eapply drain_task.
  - right. split; [apply Hs|done].
Qed.

Lemma stopInLoop_stopping cb w before after w' : server_inv w -> Z.of_nat (size (phases w)) < 2 ^ 64 ->
  tasks w = before ++ SStop cb :: after -> count is_stop (before ++ after) = 0%nat ->
  map_Forall (λ _ c, c <> CNew) (phases w) ->
  stopInLoop cb (take_out w (before ++ after)) = inl w' -> stopping cb w'.
Proof using Type.
  intros [Hc [st Hs]] Hsz Ht H0 Hnew E.
  pose proof (server_ok_rest _ _ _ _ Ht st eq_refl eq_refl Hs) as Hs1.
  pose proof (conns_ok_rest _ _ _ _ Ht (λ _, eq_refl) Hc) as Hc1.
  destruct (stopInLoop_ok _ _ _ _ Hs1 Hc1 E) as [[Hc' [st' Hs']] _].
  pose proof (stopInLoop_size _ _ _ E) as Hsz'. cbn in Hsz'.
  unfold stopInLoop in E. cbn in E. destruct (acceptor_ (server w)) eqn:Ea; [|done].
  assert (st = Serving) as -> by by apply (serving_acceptor _ w).
  pose proof (so_safe _ _ Hs1) as Hsafe. cbn in Hsafe.
  destruct (decide (connections_ (server w) = ∅)) as [He|He]; injection E as <-.
  - constructor; try done; [cbn; rewrite count_app, count_cons, count_nil, H0; done| |].
    + cbn. intros id c Hid. destruct (decide (c = CClosed)) as [->|Hne]; [by right|].
      pose proof (co_open _ Hc id c Hid Hne) as Hin. rewrite He in Hin. set_solver.
    + exists st'. split; [done|]. pose proof (so_safe _ _ Hs') as Hb. cbn in Hb.
      rewrite count_app, count_cons, count_nil in Hb. cbn in Hb. case_decide; [subst st'|lia].
      by apply count_safe_forall.
  - constructor; try done; [|rewrite Hsz'; done|].
    + cbn. intros id c. rewrite close_connected_lookup. intros (c' & Hid & ->)%fmap_Some.
      destruct c'; [by destruct (Hnew id CNew Hid)| |destruct (bool_decide _); by left|destruct (bool_decide _); by right].
      rewrite bool_decide_true; [by left|]. by apply (co_open _ Hc id COpen).
    + exists st'. split; [done|]. pose proof (so_status _ _ Hs') as Hst. pose proof (so_safe _ _ Hs') as Hb.
      cbn in Hst, Hb. rewrite Hsafe in Hb. by destruct st'.
Qed.
End stop.

(** C17. Stopping completes.  Once [stopInLoop] has run, with no other [stop]
    pending and every connection established or closed, the handlers asio holds
    and the closing of the connections come to an end, and nothing remains to be
    done only when the server is stopped and the callback given to [stop], if
    there is one, has been called exactly once. *)
Theorem stop_completes ndebug w0 before cb after w :
  server_reachable ndebug w0 -> Z.of_nat (size (phases w0)) < 2 ^ 64 ->
  tasks w0 = before ++ SStop cb :: after -> count is_stop (before ++ after) = 0%nat ->
  map_Forall (λ _ c, c <> CNew) (phases w0) ->
  stopInLoop cb (take_out w0 (before ++ after)) = inl w ->
  Acc (flip (drain_step ndebug)) w /\
  forall w', rtc (drain_step ndebug) w w' ->
    (exists w'', drain_step ndebug w' w'') \/ (status_ (server w') = kStopped /\ stopped w' = option_list cb).
Proof.
  intros Hr Hsz Ht H0 Hnew E. apply server_reachable_inv in Hr; [|done].
  assert (stopping cb w) as Hg by by eapply stopInLoop_stopping.
  split.
  - clear -Hg. remember (rank w) as r eqn:Hr. revert w Hr Hg. induction (lt_wf r) as [r _ IH]. intros w -> Hg.
    constructor. intros w' Hd. destruct (drain_step_stopping ndebug cb w w' Hd Hg) as [Hg' Hlt]. by eapply IH.
  - intros w' Hd. apply drain_progress. clear -Hg Hd. induction Hd as [|x y z Hxy _ IH]; [done|].
    apply IH. by eapply drain_step_stopping.
Qed.

(** A connection is served; [stop] is called; the accept that was pending is
    aborted. *)
Definition about_to_stop : list server_choice := [handler 0; accepts 0; Established 1; CallStop (Some 7)].

Lemma stop_completes_witness : exists w0 w,
  play_server false 2 about_to_stop = inl w0 /\
  stopInLoop (Some 7) (take_out w0 [SAccept (ThreadLoop 1)]) = inl w /\ phases w !! 1 = Some CClosing /\
  Acc (flip (drain_step false)) w.
Proof.
  destruct (play_server false 2 about_to_stop) as [w0|] eqn:E; [|vm_compute in E; discriminate].
  destruct (stopInLoop (Some 7) (take_out w0 [SAccept (ThreadLoop 1)])) as [w|] eqn:Ew;
    [|vm_compute in E; injection E as <-; vm_compute in Ew; discriminate].
  exists w0, w. split; [reflexivity|]. split; [exact Ew|]. split.
  - vm_compute in E. injection E as <-. vm_compute in Ew. injection Ew as <-. reflexivity.
  - refine (proj1 (stop_completes false w0 [SAccept (ThreadLoop 1)] (Some 7) [] w
      (play_server_reachable false _ _ w0 E) _ _ _ _ Ew)).
    + vm_compute in E. injection E as <-. vm_compute. reflexivity.
    + vm_compute in E. injection E as <-. reflexivity.
    + reflexivity.
    + vm_compute in E. injection E as <-. by apply (bool_decide_unpack _); vm_compute.
Defined.
