(* ===== verification/Contract.v ===== *)
(** * The contract between a connection and its owner

    [TCPServer] and [TCPClient] know a connection by [isConnected()],
    [close()] and the close callback; their models ([TcpServer], [TcpClient])
    let a connection move through [conn_phase] in the order of [conn_move] and
    report its close once.  The class [ConnContract] states that promise of a
    connection; the instance shows that [TCPConn] keeps it. *)

From stdpp Require Import base tactics list numbers gmap relations.
From Stdlib Require Import ZArith Lia.
From S2P Require Import Prelude Machine ConnBuffers TcpConn TcpConnSpec TcpServer.

(** The moves of the steps [step_established], [step_closing] and
    [step_closed] of the server's model. *)
Inductive conn_move : conn_phase -> conn_phase -> Prop :=
  | cm_established : conn_move CNew COpen
  | cm_closing : conn_move COpen CClosing
  | cm_error : conn_move COpen CClosed
  | cm_closed : conn_move CClosing CClosed.

(** A connection implementation: its states between handlers, its steps, what
    the owner sees of a state and how often the close callback was called. *)
Class ConnContract {W : Type} (init : W -> Prop) (step : W -> W -> Prop)
    (view : W -> conn_phase) (closes : W -> nat) : Prop := {
  contract_init w : init w -> view w = CNew;
  contract_step w0 w w' : init w0 -> rtc step w0 w -> step w w' -> rtc conn_move (view w) (view w');
  contract_close w0 w : init w0 -> rtc step w0 w -> closes w = if decide (view w = CClosed) then 1%nat else 0%nat
}.

(** Every move of a connection is a step of the server's model. *)
Lemma conn_move_server_step nd w id c c' : phases w !! id = Some c -> conn_move c c' ->
  exists w', server_step nd w w' /\ phases w' = <[id := c']> (phases w).
Proof.
  intros Hid Hm. destruct Hm; eexists.
  - split; [by apply step_established|done].
  - split; [by apply step_closing|done].
  - split; [apply step_closed; by left|done].
  - split; [apply step_closed; by right|done].
Qed.

(** What the owner sees of a [TCPConn]: its [status_], and whether the socket
    is still there. *)
Definition conn_view (w : TcpConn.World) : conn_phase :=
  match TcpConn.status_ (w_conn w), socket_ (w_conn w) with
  | kConnected, _ => COpen
  | kDisconnecting, _ => CClosing
  | kDisconnected, Some _ => CNew
  | kDisconnected, None => CClosed
  end.

Definition is_close (e : conn_event) : bool := match e with ECloseCb => true | _ => false end.

Definition view_of (p : phase) : conn_phase :=
  match p with New => CNew | Open => COpen | Closing | Shutting | TcpConnSpec.Finishing => CClosing | Closed => CClosed end.

Lemma in_phase_view p w : in_phase p w -> conn_view w = view_of p.
Proof.
  intros (r & Hp & [Gs Gk _ _ _ _ _]). unfold conn_view. rewrite Gs.
  assert (p = New \/ between p) as [-> | [-> | [-> | ->]]] by tauto; cbn in *; try done.
  - by destruct (socket_ (w_conn w)).
  - by destruct (socket_ (w_conn w)).
Qed.

Lemma move_view p p' : move p p' -> conn_move (view_of p) (view_of p').
Proof. destruct 1; constructor. Qed.

Lemma later_view p p' : later p p' -> rtc conn_move (view_of p) (view_of p').
Proof. induction 1 as [|a b c Hab _ IH]; [apply rtc_refl|]. eapply rtc_l; [by apply move_view|done]. Qed.

Lemma count_callbacks log : count is_close log = count is_close (callbacks log).
Proof.
  induction log as [|e log IH]; [done|]. rewrite count_cons, callbacks_cons, count_app, IH.
  destruct e; cbn; rewrite ?count_cons, ?count_nil; done.
Qed.

Section contract.
Context (connection_cb message_cb close_cb : H unit).
Context (connection_app : app_code unit connection_cb) (message_app : app_code unit message_cb)
  (close_app : app_code unit close_cb).

Definition conn_system_init (x : TcpConn.World * Mem) : Prop := exists sock id, conn_init sock id x.1.

Lemma system_in_phase x0 x : conn_system_init x0 -> rtc (conn_step connection_cb message_cb close_cb) x0 x ->
  exists p, in_phase p x.1.
Proof using connection_app message_app close_app.
  intros (sock & id & Hi) Hr. destruct x as [w m], x0 as [w0 m0].
  apply (conn_reachable_inv _ _ _ connection_app message_app close_app w m). by exists sock, id, w0, m0.
Qed.

Lemma tcp_conn_contract :
  ConnContract conn_system_init (conn_step connection_cb message_cb close_cb)
    (λ x, conn_view x.1) (λ x, count is_close (w_log x.1)).
Proof using connection_app message_app close_app.
  split.
  - intros [w m] (sock & id & Hi). cbn in *. by rewrite Hi.
  - intros x0 [w m] [w' m'] Hi Hr Hs. destruct (system_in_phase _ _ Hi Hr) as [p Hp]. cbn in *.
    destruct (conn_step_inv _ _ _ connection_app message_app close_app _ _ _ _ _ Hs Hp) as (p' & Hl & Hp').
    rewrite (in_phase_view _ _ Hp), (in_phase_view _ _ Hp').
    by apply later_view.
  - intros x0 [w m] Hi Hr. destruct (system_in_phase _ _ Hi Hr) as [p Hp]. cbn in *.
    rewrite (in_phase_view _ _ Hp), count_callbacks. destruct Hp as (r & Hb & Hg). rewrite (good_callbacks _ _ _ Hg).
    assert (p = New \/ between p) as [-> | [-> | [-> | ->]]] by tauto; done.
Qed.
End contract.

(** C19. [TCPConn] keeps the contract its owners are modelled against, whatever
    the application does in its callbacks: it starts unestablished, every
    handler and every call from another thread moves it along
    [CNew -> COpen -> CClosing -> CClosed] (it may skip [CClosing]) and never
    back, and the close callback has been called exactly once when it is closed
    and not at all before. *)
Theorem connection_keeps_contract connection_cb message_cb close_cb :
  app_code unit connection_cb -> app_code unit message_cb -> app_code unit close_cb ->
  ConnContract conn_system_init (conn_step connection_cb message_cb close_cb)
    (λ x, conn_view x.1) (λ x, count is_close (w_log x.1)).
Proof. apply tcp_conn_contract. Qed.

Lemma connection_keeps_contract_witness :
  ConnContract conn_system_init (conn_step greet quiet quiet)
    (λ x, conn_view x.1) (λ x, count is_close (w_log x.1)).
Proof. exact (connection_keeps_contract greet quiet quiet greet_app quiet_app quiet_app). Defined.
