(* ===== verification/TcpClient.v ===== *)
(** * The client

    [netpp/net/tcp_client.{h,cpp}].  A [TCPClient] and its connection share one
    loop.  Its public functions dispatch lambdas to the loop; the handler of
    [async_connect], the reconnect timer and the connection's callbacks run
    there.  [runInLoop] called on the loop runs its argument at once
    ([io_service::dispatch]), so [connectEstablished] in [newConnection],
    [connect] in [reconnect], and [connect] and [disconnect] called by a callback
    of the application are part of the handler that calls them; called by
    another thread they are posted.

    A connection is seen through [conn_phase], as in [TcpServer]. *)

From stdpp Require Import base tactics list numbers gmap relations.
From Stdlib Require Import ZArith Lia.
From S2P Require Import Prelude Machine EventLoop ThreadPool TcpServer.

Record TCPClient := mkClient {
  auto_reconnect_ : bool;
  reconnect_interval_seconds_ : Z;
  local_port_ : Z;
  client_context_ : option Z;   (* the [boost::any], by a handle of its value *)
  conn_ : option Z;
  is_connecting_ : bool
}.

(** What asio holds: the lambdas of [connect] and [disconnect], the handler of
    [async_connect], and the reconnect timer with its delay. *)
Inductive client_task := KConnect | KDisconnect | KNewConnection | KReconnect (seconds : Z).

(** [next_id] is the global counter [id]; [failures] counts the calls of
    [connection_cb_] with the never connected connection of number 0. *)
Record ClientWorld := mkClientWorld {
  client : TCPClient;
  ctasks : list client_task;
  conns : gmap Z conn_phase;
  next_id : Z;
  failures : nat
}.

Definition TCPClient_new : TCPClient := mkClient true 3 0 None None false.

Definition set_client (w : ClientWorld) (c : TCPClient) : ClientWorld :=
  mkClientWorld c (ctasks w) (conns w) (next_id w) (failures w).
Definition set_ctasks (w : ClientWorld) (ts : list client_task) : ClientWorld :=
  mkClientWorld (client w) ts (conns w) (next_id w) (failures w).
Definition post_task (w : ClientWorld) (t : client_task) : ClientWorld := set_ctasks w (ctasks w ++ [t]).
Definition set_conn_phase (w : ClientWorld) (id : Z) (c : conn_phase) : ClientWorld :=
  mkClientWorld (client w) (ctasks w) (<[id := c]> (conns w)) (next_id w) (failures w).

Definition set_connecting (c : TCPClient) (b : bool) : TCPClient :=
  mkClient (auto_reconnect_ c) (reconnect_interval_seconds_ c) (local_port_ c) (client_context_ c) (conn_ c) b.
Definition set_conn (c : TCPClient) (o : option Z) : TCPClient :=
  mkClient (auto_reconnect_ c) (reconnect_interval_seconds_ c) (local_port_ c) (client_context_ c) o (is_connecting_ c).
Definition setAutoReconnect (c : TCPClient) (v : bool) : TCPClient :=
  mkClient v (reconnect_interval_seconds_ c) (local_port_ c) (client_context_ c) (conn_ c) (is_connecting_ c).
Definition setReconnectInterval (c : TCPClient) (seconds : Z) : TCPClient :=
  mkClient (auto_reconnect_ c) seconds (local_port_ c) (client_context_ c) (conn_ c) (is_connecting_ c).
Definition bind (c : TCPClient) (port : Z) : TCPClient :=
  mkClient (auto_reconnect_ c) (reconnect_interval_seconds_ c) port (client_context_ c) (conn_ c) (is_connecting_ c).
Definition client_setContext (c : TCPClient) (context : option Z) : TCPClient :=
  mkClient (auto_reconnect_ c) (reconnect_interval_seconds_ c) (local_port_ c) context (conn_ c) (is_connecting_ c).

(** The accessors; [conn] takes [mutex_] for the copy. *)
Definition getAutoReconnect (c : TCPClient) : bool := auto_reconnect_ c.
Definition getReconnectInterval (c : TCPClient) : Z := reconnect_interval_seconds_ c.
Definition client_getContext (c : TCPClient) : option Z := client_context_ c.
Definition conn (c : TCPClient) : option Z := conn_ c.

(** Whether there is a [conn_] with this status. *)
Definition conn_is (w : ClientWorld) (c : conn_phase) : bool :=
  match conn_ (client w) with
  | Some id => bool_decide (conns w !! id = Some c)
  | None => false
  end.

(** [connect] and [disconnect] on another thread. *)
Definition connect (w : ClientWorld) : ClientWorld := post_task w KConnect.
Definition disconnect (w : ClientWorld) : ClientWorld := post_task w KDisconnect.

(** The lambda of [connect]; [bound] says that [open] and [bind] of the socket
    succeed, otherwise they throw. *)
Definition connect_in_loop (bound : bool) (w : ClientWorld) : ClientWorld + Error :=
  if is_connecting_ (client w) || conn_is w COpen then inl w
  else
    let w := set_client w (set_connecting (client w) true) in
    if negb (local_port_ (client w) =? 0) && negb bound then inr SystemError
    else inl (post_task w KNewConnection).

Definition reconnect (bound : bool) (w : ClientWorld) : ClientWorld + Error := connect_in_loop bound w.

(** [conn->close()] as far as the status goes. *)
Definition close_conn (id : Z) (w : ClientWorld) : ClientWorld :=
  if decide (conns w !! id = Some COpen) then set_conn_phase w id CClosing else w.

(** What a callback of the application, given connection [id], calls on the
    loop of the client. *)
Inductive client_call :=
  | CallConnect (bound : bool)
  | CallDisconnect
  | CallClose
  | CallSetAutoReconnect (v : bool)
  | CallSetReconnectInterval (seconds : Z)
  | CallSetContext (context : option Z)
  | CallBind (port : Z).

Section handlers.
Context (ndebug : bool).

Definition kcheck (b : bool) (k : ClientWorld + Error) : ClientWorld + Error :=
  if b || ndebug then k else inr AssertionFailed.

Definition disconnect_in_loop (w : ClientWorld) : ClientWorld + Error :=
  let w := set_client w (setAutoReconnect (client w) false) in
  match conn_ (client w) with
  | Some id =>
      kcheck (negb (conn_is w CClosed || conn_is w CNew) && negb (conn_is w CClosing))
        (inl (close_conn id w))
  | None => inl w
  end.

Definition run_call (id : Z) (call : client_call) (w : ClientWorld) : ClientWorld + Error :=
  match call with
  | CallConnect bound => connect_in_loop bound w
  | CallDisconnect => disconnect_in_loop w
  | CallClose => inl (close_conn id w)
  | CallSetAutoReconnect v => inl (set_client w (setAutoReconnect (client w) v))
  | CallSetReconnectInterval seconds => inl (set_client w (setReconnectInterval (client w) seconds))
  | CallSetContext context => inl (set_client w (client_setContext (client w) context))
  | CallBind port => inl (set_client w (bind (client w) port))
  end.

Fixpoint run_calls (id : Z) (calls : list client_call) (w : ClientWorld) : ClientWorld + Error :=
  match calls with
  | [] => inl w
  | call :: calls =>
      match run_call id call w with
      | inl w => run_calls id calls w
      | inr e => inr e
      end
  end.

(** [newConnection]: on success [connectEstablished] runs inside the call, and
    with it [connection_cb_], before [conn_] is assigned; on failure
    [connection_cb_] gets a connection that is [kDisconnected]. *)
Definition newConnection (ok : bool) (cb : list client_call) (w : ClientWorld) : ClientWorld + Error :=
  let w := set_client w (set_connecting (client w) false) in
  if ok then
    let id := next_id w in
    let w := mkClientWorld (client w) (ctasks w) (<[id := COpen]> (conns w)) (wrap64 (id + 1)) (failures w) in
    match run_calls id cb w with
    | inl w => inl (set_client w (set_conn (client w) (Some id)))
    | inr e => inr e
    end
  else
    let w := mkClientWorld (client w) (ctasks w) (conns w) (next_id w) (S (failures w)) in
    match run_calls 0 cb w with
    | inl w =>
        inl (if auto_reconnect_ (client w)
             then post_task w (KReconnect (reconnect_interval_seconds_ (client w))) else w)
    | inr e => inr e
    end.

(** The close callback of connection [id]. *)
Definition removeConnection (bound : bool) (id : Z) (w : ClientWorld) : ClientWorld + Error :=
  kcheck (bool_decide (conn_ (client w) = Some id))
    (let w := set_client w (set_conn (client w) None) in
     if auto_reconnect_ (client w) then reconnect bound w else inl w).

Definition run_client_task (t : client_task) (ok bound : bool) (cb : list client_call) (w : ClientWorld) :
    ClientWorld + Error :=
  match t with
  | KConnect => connect_in_loop bound w
  | KDisconnect => disconnect_in_loop w
  | KNewConnection => newConnection ok cb w
  | KReconnect _ => reconnect bound w
  end.

(** What can happen next: asio runs a handler; another thread calls in, or a
    message callback does; connection [id] starts to close, or
    [TCPConn::handleClose] runs on it. *)
Inductive client_choice :=
  | KRun (i : nat) (ok bound : bool) (cb : list client_call)
  | KCallConnect
  | KCallDisconnect
  | KCallback (id : Z) (cb : list client_call)
  | KClosing (id : Z)
  | KClosed (id : Z) (bound : bool) (cb : list client_call).

Definition client_step (ch : client_choice) (w : ClientWorld) : ClientWorld + Error :=
  match ch with
  | KRun i ok bound cb =>
      match ctasks w !! i with
      | Some t => run_client_task t ok bound cb (set_ctasks w (delete i (ctasks w)))
      | None => inl w
      end
  | KCallConnect => inl (connect w)
  | KCallDisconnect => inl (disconnect w)
  | KCallback id cb => run_calls id cb w
  | KClosing id => inl (close_conn id w)
  | KClosed id bound cb =>
      if decide (conns w !! id = Some COpen \/ conns w !! id = Some CClosing) then
        match run_calls id cb (set_conn_phase w id CClosing) with
        | inl w =>
            match removeConnection bound id w with
            | inl w => inl (set_conn_phase w id CClosed)
            | inr e => inr e
            end
        | inr e => inr e
        end
      else inl w
  end.

Fixpoint client_run (chs : list client_choice) (w : ClientWorld) : ClientWorld + Error :=
  match chs with
  | [] => inl w
  | ch :: chs => match client_step ch w with inl w => client_run chs w | inr e => inr e end
  end.
End handlers.

Definition client_init : ClientWorld := mkClientWorld TCPClient_new [] ∅ 1 0.

(** ** Invariant *)
Definition is_new_connection (t : client_task) : bool := match t with KNewConnection => true | _ => false end.

(** One attempt at a time, in every build. *)
Definition attempts_ok (w : ClientWorld) : Prop :=
  count is_new_connection (ctasks w) = if is_connecting_ (client w) then 1%nat else 0%nat.

(** The open connection is [conn_]; while connecting there is none. *)
Record open_ok (w : ClientWorld) : Prop := {
  open_is_conn id : conns w !! id = Some COpen -> conn_ (client w) = Some id;
  none_while_connecting id : is_connecting_ (client w) = true -> conns w !! id <> Some COpen
}.

(** The same inside [newConnection], before [conn_] is assigned. *)
Record fresh_ok (id : Z) (w : ClientWorld) : Prop := {
  only_fresh i : conns w !! i = Some COpen -> i = id;
  fresh_not_connecting : is_connecting_ (client w) = false
}.

(** The connection callback of a connection that was made does not call
    [connect()]. *)
Definition is_connect (call : client_call) : bool := match call with CallConnect _ => true | _ => false end.
Definition sensible (ch : client_choice) : bool :=
  match ch with KRun _ true _ cb => forallb (negb ∘ is_connect) cb | _ => true end.

(** *** Attempts *)
Lemma connect_in_loop_attempts b w w' : connect_in_loop b w = inl w' -> attempts_ok w -> attempts_ok w'.
Proof.
  unfold attempts_ok, connect_in_loop. intros E Ha. destruct (is_connecting_ (client w)) eqn:Ec; cbn in E.
  - injection E as <-. by rewrite Ec.
  - destruct (conn_is w COpen); cbn in E; [injection E as <-; by rewrite Ec|].
    case_match; [done|]. injection E as <-. cbn. rewrite count_app, count_cons, count_nil. cbn. lia.
Qed.

Lemma close_conn_attempts id w : attempts_ok (close_conn id w) <-> attempts_ok w.
Proof. unfold close_conn. by case_decide. Qed.

Lemma disconnect_attempts nd w w' : disconnect_in_loop nd w = inl w' -> attempts_ok w -> attempts_ok w'.
Proof.
  unfold disconnect_in_loop, kcheck. intros E Ha. repeat case_match; simplify_eq; [|done].
  by apply close_conn_attempts.
Qed.

Lemma run_calls_attempts nd id calls w w' : run_calls nd id calls w = inl w' -> attempts_ok w -> attempts_ok w'.
Proof.
  revert w. induction calls as [|call calls IH]; cbn; intros w E Ha; [by injection E as <-|].
  destruct (run_call nd id call w) as [w1|] eqn:E1; [|done]. apply (IH w1); [done|].
  destruct call; cbn in E1; try (injection E1 as <-; done).
  - by eapply connect_in_loop_attempts.
  - by eapply disconnect_attempts.
  - injection E1 as <-. by apply close_conn_attempts.
Qed.

Lemma newConnection_attempts nd ok cb w w' : newConnection nd ok cb w = inl w' ->
  count is_new_connection (ctasks w) = 0%nat -> attempts_ok w'.
Proof.
  unfold newConnection. intros E H0. destruct ok; destruct (run_calls _ _ _ _) as [w1|] eqn:E1; try done;
    apply run_calls_attempts in E1; try done; injection E as <-; [done|].
  destruct (auto_reconnect_ (client w1)); [|done].
  unfold attempts_ok in *. cbn. rewrite count_app, count_cons, count_nil. cbn. lia.
Qed.

Lemma removeConnection_attempts nd b id w w' :
  removeConnection nd b id w = inl w' -> attempts_ok w -> attempts_ok w'.
Proof.
  unfold removeConnection, kcheck. intros E Ha. case_match; [|done]. case_match; [|by injection E as <-].
  by eapply connect_in_loop_attempts.
Qed.

Lemma run_client_task_attempts nd t ok b cb w w' ts : run_client_task nd t ok b cb (set_ctasks w ts) = inl w' ->
  attempts_ok w -> count is_new_connection (ctasks w) = (count is_new_connection ts + if is_new_connection t then 1 else 0)%nat ->
  attempts_ok w'.
Proof.
  unfold attempts_ok at 1. intros E Ha Hc. rewrite Hc in Ha.
  assert (is_new_connection t = false -> attempts_ok (set_ctasks w ts)) as Hw.
  { intros Hf. rewrite Hf in Ha. unfold attempts_ok. cbn. lia. }
  destruct t; cbn in E, Ha.
  - eapply connect_in_loop_attempts, Hw; done.
  - eapply disconnect_attempts, Hw; done.
  - eapply newConnection_attempts; [done|]. cbn. destruct (is_connecting_ (client w)); lia.
  - eapply connect_in_loop_attempts, Hw; done.
Qed.

Lemma count_delete (ts : list client_task) i t : ts !! i = Some t ->
  count is_new_connection ts = (count is_new_connection (delete i ts) + if is_new_connection t then 1 else 0)%nat.
Proof.
  intros Ht. rewrite delete_take_drop. rewrite <- (take_drop_middle _ _ _ Ht) at 1. by rewrite count_taken, Nat.add_comm.
Qed.

Lemma client_step_attempts nd ch w w' : client_step nd ch w = inl w' -> attempts_ok w -> attempts_ok w'.
Proof.
  intros E Ha. destruct ch as [i ok b cb| | |id cb|id|id b cb]; cbn in E.
  - destruct (ctasks w !! i) as [t|] eqn:Ht; [|by injection E as <-].
    eapply run_client_task_attempts; [done..|by apply count_delete].
  - injection E as <-. unfold attempts_ok in *. cbn. rewrite count_app, count_cons, count_nil. cbn. lia.
  - injection E as <-. unfold attempts_ok in *. cbn. rewrite count_app, count_cons, count_nil. cbn. lia.
  - by eapply run_calls_attempts.
  - injection E as <-. by apply close_conn_attempts.
  - case_decide; [|by injection E as <-]. destruct (run_calls _ _ _ _) as [w1|] eqn:E1; [|done].
    destruct (removeConnection _ _ _ _) as [w2|] eqn:E2; [|done]. injection E as <-.
    eapply removeConnection_attempts in E2; [exact E2|]. by eapply run_calls_attempts.
Qed.

(** *** The open connection *)
Lemma connect_in_loop_open b w w' : connect_in_loop b w = inl w' -> open_ok w -> open_ok w'.
Proof.
  intros E Ho. unfold connect_in_loop in E. destruct (is_connecting_ (client w) || conn_is w COpen) eqn:Ec.
  { by injection E as <-. }
  case_match; [done|]. injection E as <-. destruct Ho as [Ho Hn]. apply orb_false_iff in Ec as [_ Ec].
  constructor; cbn; [done|]. intros id _ Hid. unfold conn_is in Ec.
  rewrite (Ho id Hid) in Ec. by rewrite bool_decide_true in Ec.
Qed.

(** Closing a connection opens none. *)
Lemma open_ok_move w id c : open_ok w -> c <> COpen -> open_ok (set_conn_phase w id c).
Proof.
  intros [Ho Hn] Hc. constructor; cbn; intros i; rewrite lookup_insert; case_decide; try congruence; auto.
Qed.
Lemma fresh_ok_move w id i c : fresh_ok id w -> c <> COpen -> fresh_ok id (set_conn_phase w i c).
Proof.
  intros [Ho Hn] Hc. constructor; cbn; [|done]. intros j; rewrite lookup_insert; case_decide; try congruence; auto.
Qed.
Lemma close_conn_open w id : open_ok w -> open_ok (close_conn id w).
Proof. unfold close_conn. case_decide; [|done]. intros. by apply open_ok_move. Qed.
Lemma close_conn_fresh w id i : fresh_ok id w -> fresh_ok id (close_conn i w).
Proof. unfold close_conn. case_decide; [|done]. intros. by apply fresh_ok_move. Qed.

Lemma open_ok_client w c : open_ok w -> conn_ c = conn_ (client w) ->
  is_connecting_ c = is_connecting_ (client w) -> open_ok (set_client w c).
Proof. intros [Ho Hn] E1 E2. constructor; cbn; rewrite ?E1, ?E2; done. Qed.

Lemma disconnect_open nd w w' : disconnect_in_loop nd w = inl w' -> open_ok w -> open_ok w'.
Proof.
  unfold disconnect_in_loop, kcheck. intros E Ho. repeat case_match; simplify_eq.
  - by apply close_conn_open, open_ok_client.
  - by apply open_ok_client.
Qed.
Lemma disconnect_fresh nd id w w' : disconnect_in_loop nd w = inl w' -> fresh_ok id w -> fresh_ok id w'.
Proof.
  unfold disconnect_in_loop, kcheck. intros E [Ho Hn]. repeat case_match; simplify_eq; [apply close_conn_fresh|];
    by constructor.
Qed.

Lemma run_calls_open nd id calls w w' : run_calls nd id calls w = inl w' -> open_ok w -> open_ok w'.
Proof.
  revert w. induction calls as [|call calls IH]; cbn; intros w E Ho; [by injection E as <-|].
  destruct (run_call nd id call w) as [w1|] eqn:E1; [|done]. apply (IH w1); [done|].
  destruct call; cbn in E1; try (injection E1 as <-; by apply open_ok_client).
  - by eapply connect_in_loop_open.
  - by eapply disconnect_open.
  - injection E1 as <-. by apply close_conn_open.
Qed.

Lemma run_calls_fresh nd id calls w w' : run_calls nd id calls w = inl w' ->
  forallb (negb ∘ is_connect) calls = true -> fresh_ok id w -> fresh_ok id w'.
Proof.
  revert w. induction calls as [|call calls IH]; cbn; intros w E Hs Ho; [by injection E as <-|].
  apply andb_true_iff in Hs as [Hc Hs].
  destruct (run_call nd id call w) as [w1|] eqn:E1; [|done]. apply (IH w1); [done..|].
  destruct call; cbn in E1, Hc; try done; try (injection E1 as <-; destruct Ho; by constructor).
  - by eapply disconnect_fresh.
  - injection E1 as <-. by apply close_conn_fresh.
Qed.

Lemma newConnection_open nd ok cb w w' : newConnection nd ok cb w = inl w' ->
  (ok = true -> forallb (negb ∘ is_connect) cb = true) -> is_connecting_ (client w) = true ->
  open_ok w -> open_ok w'.
Proof.
  unfold newConnection. intros E Hs Hc [Ho Hn]. destruct ok; destruct (run_calls _ _ _ _) as [w1|] eqn:E1; try done.
  - injection E as <-. apply run_calls_fresh in E1 as [Hf Hn']; [|by apply Hs|].
    + constructor; cbn; [|congruence]. intros i Hi. by rewrite (Hf i Hi).
    + constructor; cbn; [|done]. intros i. rewrite lookup_insert. case_decide; [done|].
      intros Hi. by destruct (Hn i Hc).
  - injection E as <-. apply run_calls_open in E1; [|by constructor].
    case_match; [|done]. destruct E1. by constructor.
Qed.

Lemma removeConnection_open b id w w' :
  removeConnection false b id w = inl w' -> conns w !! id <> Some COpen -> open_ok w -> open_ok w'.
Proof.
  unfold removeConnection, kcheck. intros E Hid [Ho Hn].
  destruct (bool_decide (conn_ (client w) = Some id)) eqn:Eb; [|done]. apply bool_decide_eq_true in Eb. cbn in E.
  assert (open_ok (set_client w (set_conn (client w) None))) as Hw.
  { constructor; cbn; [|done]. intros i Hi. specialize (Ho i Hi). congruence. }
  case_match; [by eapply connect_in_loop_open|by injection E as <-].
Qed.

(** Calls of the application open no connection. *)
Lemma close_conn_opens_none id i w : conns (close_conn id w) !! i = Some COpen -> conns w !! i = Some COpen.
Proof. unfold close_conn. case_decide; [|done]. cbn. rewrite lookup_insert. by case_decide. Qed.

Lemma run_calls_opens_none nd id calls w w' i :
  run_calls nd id calls w = inl w' -> conns w' !! i = Some COpen -> conns w !! i = Some COpen.
Proof.
  revert w. induction calls as [|call calls IH]; cbn; intros w E Hi; [by injection E as <-|].
  destruct (run_call nd id call w) as [w1|] eqn:E1; [|done]. apply (IH w1 E) in Hi.
  destruct call; cbn in E1; try (injection E1 as <-; exact Hi).
  - unfold connect_in_loop in E1. repeat case_match; by simplify_eq.
  - unfold disconnect_in_loop, kcheck in E1. repeat case_match; simplify_eq; [|done].
    by apply close_conn_opens_none in Hi.
  - injection E1 as <-. by apply close_conn_opens_none in Hi.
Qed.

Lemma run_client_task_open t ok b cb w w' ts : run_client_task false t ok b cb (set_ctasks w ts) = inl w' ->
  (ok = true -> forallb (negb ∘ is_connect) cb = true) ->
  (is_new_connection t = true -> is_connecting_ (client w) = true) -> open_ok w -> open_ok w'.
Proof.
  intros E Hs Hc Ho. assert (open_ok (set_ctasks w ts)) as Hw by (destruct Ho; by constructor).
  destruct t; cbn in E; [by eapply connect_in_loop_open|by eapply disconnect_open| |by eapply connect_in_loop_open].
  eapply newConnection_open; [done..|by apply Hc|done].
Qed.

Lemma client_step_open ch w w' : client_step false ch w = inl w' -> sensible ch = true ->
  attempts_ok w -> open_ok w -> open_ok w'.
Proof.
  intros E Hs Ha Ho. destruct ch as [i ok b cb| | |id cb|id|id b cb]; cbn in E.
  - destruct (ctasks w !! i) as [t|] eqn:Ht; [|by injection E as <-].
    eapply run_client_task_open; [done|by intros -> | |done].
    intros Hn. unfold attempts_ok in Ha. rewrite (count_delete _ _ _ Ht), Hn in Ha.
    destruct (is_connecting_ (client w)); [done|lia].
  - injection E as <-. destruct Ho. by constructor.
  - injection E as <-. destruct Ho. by constructor.
  - by eapply run_calls_open.
  - injection E as <-. by apply close_conn_open.
  - case_decide; [|by injection E as <-]. destruct (run_calls _ _ _ _) as [w1|] eqn:E1; [|done].
    destruct (removeConnection _ _ _ _) as [w2|] eqn:E2; [|done]. injection E as <-. apply open_ok_move; [|done].
    eapply removeConnection_open; [exact E2| |by eapply run_calls_open, open_ok_move].
    intros Hid. apply (run_calls_opens_none _ _ _ _ _ _ E1) in Hid. cbn in Hid. by rewrite lookup_insert_eq in Hid.
Qed.

Lemma client_run_attempts nd chs w w' : client_run nd chs w = inl w' -> attempts_ok w -> attempts_ok w'.
Proof.
  revert w. induction chs as [|ch chs IH]; cbn; intros w E Ha; [by injection E as <-|].
  destruct (client_step nd ch w) as [w1|] eqn:E1; [|done]. eapply IH; [done|]. by eapply client_step_attempts.
Qed.

Lemma client_run_open chs w w' : client_run false chs w = inl w' -> forallb sensible chs = true ->
  attempts_ok w -> open_ok w -> open_ok w'.
Proof.
  revert w. induction chs as [|ch chs IH]; cbn; intros w E Hs Ha Ho; [by injection E as <-|].
  apply andb_true_iff in Hs as [Hc Hs].
  destruct (client_step false ch w) as [w1|] eqn:E1; [|done].
  eapply IH; [done..|by eapply client_step_attempts|by eapply client_step_open].
Qed.

(** ** Claims *)

(** C20. A client has at most one connection attempt outstanding, exactly when
    [is_connecting_] is set, in every build and whatever the application, the
    timers and the network do.  When the connection callbacks of new connections
    do not themselves call [connect()], and as long as the assertion of
    [removeConnection] holds (it is checked in a Debug build), it also has at
    most one connected connection, which is the one [conn()] returns, and none
    while it is connecting. *)
Theorem client_one_attempt_one_connection ndebug chs w :
  client_run ndebug chs client_init = inl w ->
  count is_new_connection (ctasks w) = (if is_connecting_ (client w) then 1%nat else 0%nat) /\
  (ndebug = false -> forallb sensible chs = true -> forall id, conns w !! id = Some COpen ->
     conn_ (client w) = Some id /\ is_connecting_ (client w) = false).
Proof.
  intros E. split; [by eapply client_run_attempts|]. intros -> Hs id Hid.
  apply client_run_open in E as [Ho Hn]; [|done..|by constructor]. split; [by apply Ho|].
  destruct (is_connecting_ (client w)) eqn:Ec; [|done]. by destruct (Hn id eq_refl).
Qed.

(** Asio runs handler [i], which succeeds. *)
Definition run (i : nat) : client_choice := KRun i true true [].

Definition connect_twice : list client_choice := [KCallConnect; KCallConnect; run 0; run 0; run 0].

Lemma client_one_attempt_one_connection_witness :
  exists w, client_run false connect_twice client_init = inl w /\
    conns w !! 1 = Some COpen /\ conn_ (client w) = Some 1 /\ is_connecting_ (client w) = false.
Proof.
  destruct (client_run false connect_twice client_init) as [w|] eqn:E; [|vm_compute in E; discriminate].
  exists w. split; [reflexivity|].
  assert (conns w !! 1 = Some COpen) as Hc by (vm_compute in E; injection E as <-; reflexivity).
  split; [exact Hc|].
  exact (proj2 (client_one_attempt_one_connection false connect_twice w E) eq_refl eq_refl 1 Hc).
Defined.

(** What the executions below look at: the connected connections and what
    [conn()] returns. *)
Definition client_view (r : ClientWorld + Error) : (list Z * option Z) + Error :=
  match r with
  | inl w => inl ((filter (λ x, x.2 = COpen) (map_to_list (conns w))).*1, conn_ (client w))
  | inr e => inr e
  end.

(** [disconnect] does not stay disconnected.  It only clears
    [auto_reconnect_], which is not looked at again by what is already under
    way: a reconnect timer that is pending still connects, and so does a
    connection attempt.  Called by the connection callback of the connection
    that has just been made, it does nothing to that connection, because [conn_]
    is assigned later.  Calling it twice while the connection closes, or in the
    callback that reports the closing, fails an assertion. *)
Lemma disconnect_does_not_stick :
  client_view (client_run false [KCallConnect; run 0; KRun 0 false true []; KCallDisconnect; run 1; run 0; run 0]
                 client_init) = inl ([1], Some 1) /\
  client_view (client_run false [KCallConnect; run 0; KCallDisconnect; run 1; run 0] client_init)
    = inl ([1], Some 1) /\
  client_view (client_run false [KCallConnect; run 0; KRun 0 true true [CallDisconnect]] client_init)
    = inl ([1], Some 1) /\
  client_view (client_run false [KCallConnect; run 0; run 0; KCallDisconnect; KCallDisconnect; run 0; run 0]
                 client_init) = inr AssertionFailed /\
  client_view (client_run false [KCallConnect; run 0; run 0; KClosed 1 true [CallDisconnect]] client_init)
    = inr AssertionFailed.
Proof. split_and!; vm_compute; reflexivity. Qed.

(** Connecting while the old connection is still closing makes the client
    lose track: [connect] only looks at [isConnected()].  When the old
    connection is gone, [removeConnection] finds another connection in [conn_]:
    a Debug build stops at the assertion, a Release build clears [conn_] of the
    live connection, reconnects, and has two.  [connect()] in the callback of a
    new connection makes a second one in every build. *)
Lemma connect_while_closing_loses_connection :
  let schedule := [KCallConnect; run 0; run 0; KClosing 1; KCallConnect; run 0; run 0; KClosed 1 true []; run 0] in
  client_view (client_run false schedule client_init) = inr AssertionFailed /\
  client_view (client_run true schedule client_init) = inl ([3; 2], Some 3) /\
  client_view (client_run false [KCallConnect; run 0; KRun 0 true true [CallConnect true]; run 0] client_init)
    = inl ([2; 1], Some 2).
Proof. split_and!; vm_compute; reflexivity. Qed.
