(* ===== verification/CodecConn.v ===== *)
(** * The codec on a connection

    The part of [netpp/net/protobuf/codec.cpp] that works on a [TCPConn]:
    [send], [defaultErrorCallback], and [onMessage] with its callbacks run where
    the code calls them.  [Codec.onMessage] is the same loop with the calls of
    the callbacks recorded; here they are code of the connection's loop that may
    send, close and allocate, and the buffer is the connection's input buffer. *)

From stdpp Require Import base tactics list numbers gmap strings.
From iris.proofmode Require Import proofmode.
From Stdlib Require Import ZArith Lia.
From S2P Require Import Prelude Machine HeapLogic Piece Buffer BufferSpec ConnBuffers Streams Varint.
From S2P Require Import CodedOutput CodedInput WireFormat Echo Codec CodecSpec TcpConn TcpConnIO.

Section codec_conn.
Context {Msg : Type} `{MessageLite Msg} `{Registry Msg}.

(** [ProtobufCodec::send]; [buf] is destroyed at the end. *)
Definition codec_send (in_loop : bool) (message : Msg) : H unit :=
  buf ← lift (fillEmptyBuffer Buffer_new message);
  buf ← send_buffer in_loop buf;
  lift (clear buf);;
  mret tt.

(** [defaultErrorCallback]; its other effect is a log line with
    [errorCodeToString]. *)
Definition defaultErrorCallback (errorCode : ErrorCode) : H unit :=
  c ← gets id;
  if isConnected c then close else mret tt.

Context (messageCallback_ : Msg -> H unit) (errorCallback_ : ErrorCode -> H unit).

Fixpoint onMessage_conn_loop (fuel : nat) : H unit :=
  match fuel with
  | O => lift (throw OutOfFuel)
  | S fuel =>
      buf ← gets input_buffer_;
      if kMinMessageLen + kHeaderLen <=? length_ buf then
        len ← lift (peekInt32 buf);
        if (kMaxMessageLen <? len) || (len <? kMinMessageLen) then errorCallback_ kInvalidLength
        else if len + kHeaderLen <=? length_ buf then
          buf ← lift (skip buf kHeaderLen);
          '(message, errorCode, buf) ← lift (parse buf len kNoError);
          modify (set_input buf);;
          match message with
          | Some message =>
              if bool_decide (errorCode = kNoError) then
                messageCallback_ message;;
                onMessage_conn_loop fuel
              else errorCallback_ errorCode
          | None => errorCallback_ errorCode
          end
        else mret tt
      else mret tt
  end.

Definition onMessage_conn : H unit :=
  buf ← gets input_buffer_;
  onMessage_conn_loop (S (Z.to_nat (length_ buf))).
End codec_conn.

(** The object: its two callbacks, the second with a default. *)
Record ProtobufCodec {Msg : Type} := mkCodec {
  messageCallback_ : Msg -> H unit;
  errorCallback_ : ErrorCode -> H unit
}.
Arguments ProtobufCodec : clear implicits.

Definition ProtobufCodec_new {Msg} (messageCb : Msg -> H unit) : ProtobufCodec Msg :=
  mkCodec Msg messageCb defaultErrorCallback.
Definition ProtobufCodec_new_with {Msg} (messageCb : Msg -> H unit) (errorCb : ErrorCode -> H unit) :
    ProtobufCodec Msg :=
  mkCodec Msg messageCb errorCb.

(** [ProtobufCodec::onMessage], as a connection's message callback. *)
Definition codec_onMessage {Msg} `{MessageLite Msg} `{Registry Msg} (codec : ProtobufCodec Msg) : H unit :=
  onMessage_conn (messageCallback_ codec) (errorCallback_ codec).

Section specs.
Context {Msg : Type} `{RegistryLaws Msg} `{HPeak : Peak}.
Implicit Types m : Msg.

Abbreviation bytes_of := InternalSerializeWithCachedSizesToArray.

(** ** Frames of one piece *)
Definition fits (m : Msg) : Prop := msg_ok m /\ zlen (frame m) < kPieceCapacity.

Lemma fits_size m : fits m ->
  zlen (header m) + zlen (bytes_of m) + 4 < kPieceCapacity /\ zlen (body m) + 4 < kPieceCapacity /\
  5 <= zlen (header m) /\ 0 <= zlen (bytes_of m) /\ zlen (frame m) = zlen (body m) + 4.
Proof using Type.
  intros [_ Hf]. rewrite zlen_frame in Hf |- *. pose proof (zlen_body m). pose proof (zlen_header m).
  pose proof (zlen_nonneg (bytes_of m)). pose proof (zlen_nonneg (GetTypeName m)). lia.
Qed.

(** Serializing into the only piece of a buffer, when there is room in it. *)
Lemma serialize_one_spec m b r bs : msg_ok m -> 0 <= r -> 0 < zlen bs ->
  r + zlen bs + zlen (bytes_of m) < kPieceCapacity ->
  {{ bufh b 1 r bs }} SerializeToZeroCopyStream m (BufferOutputStream_new b)
  {{ x, ∃ s, ⟪x = (true, s)⟫ ∗ bufh (out_buffer s) 1 r (bs ++ bytes_of m) }}.
Proof using Type*.
  iIntros (Hok Hr Hbs Hfit Φ) "Hb HΦ". pose proof (zlen_nonneg (bytes_of m)).
  rewrite /SerializeToZeroCopyStream /CodedOutputStream_new /co_Refresh /out_Next.
  wp_bind. wp_bind. wp_bind. wp_bind. iApply (out_flatNext_one_spec with "[$Hb]"); [iPureIntro; lia|].
  iIntros ([win b']) "[Hwin %Hs]". cbn in Hs. wp_ret. wp_ret. wp_ret. wp_bind.
  rewrite /SerializeToCodedStream. wp_bind. iApply wp_assert; [by apply msg_initialized|].
  pose proof (msg_size m Hok) as Hsz. pose proof (msg_small m Hok) as Hsm.
  rewrite /SerializePartialToCodedStream Hsz (proj2 (Z.ltb_ge _ _)); [|lia].
  rewrite /GetDirectBufferForNBytesAndAdvance /buffer_size_ /= Hs.
  rewrite (proj2 (Z.ltb_ge _ _)); [|lia].
  wp_bind. iApply (poke_spec with "[$Hwin]"); [iPureIntro; split; [by apply msg_bytes|lia]|].
  iIntros (u) "Hwin". rewrite Z.eqb_refl /=. wp_ret. wp_bind.
  iApply (co_Trim_spec _ 1 r (bs ++ bytes_of m) (zlen bs + zlen (bytes_of m)) with "[Hwin]").
  { iSplitL; [|iPureIntro; lia]. iExists _. iSplitR; [done|]. iExact "Hwin". }
  iIntros (c) "Hb". wp_ret. iApply "HΦ". iExists _. by iFrame.
Qed.

(** A frame shorter than a piece is built in one piece. *)
Lemma fillEmptyBuffer_one_spec o m : fits m -> 0 <= o ->
  {{ pool o ∗ ⟪o < kMaxUsing⟫ }} fillEmptyBuffer Buffer_new m
  {{ b, ∃ l p, buf_rep b [(l, p)] ∗ pool (o + 1) ∗ ⟪piece_bytes p = frame m⟫ }}.
Proof using Type*.
  iIntros (Hf Ho Φ) "[Hpool %Hmax] HΦ". destruct (fits_size m Hf) as (Hfit & Hbody & Hhd & Hby & _).
  pose proof kPieceCapacity_eq as Hcap. pose proof (zlen_nonneg (GetTypeName m)). pose proof (zlen_header m) as Hh.
  pose proof (zlen_c_str m) as Hc. rewrite /fillEmptyBuffer. rewrite swrap_id; [|lia..].
  assert (take (Z.to_nat (zlen (GetTypeName m) + 1)) (c_str (GetTypeName m)) = c_str (GetTypeName m)) as ->.
  { apply take_ge. rewrite /zlen in Hc |- *. lia. }
  wp_bind. iApply (reservedPrepend_spec o Buffer_new 4 with "[$Hpool]").
  { iSplitL; [by iApply Buffer_new_spec|iPureIntro; lia]. }
  iIntros (b1) "[Hb Hpool]". rewrite writeInt32_bytes. wp_bind.
  iApply (write_one_spec with "Hb"); [apply be_bytes_byte|rewrite zlen_be_bytes zlen_nil; lia|rewrite zlen_nil; lia|].
  iIntros (b2) "Hb". rewrite app_nil_l. wp_bind.
  iApply (write_one_spec with "Hb"); [apply c_str_bytes|rewrite zlen_be_bytes; lia|rewrite zlen_be_bytes; lia|].
  iIntros (b3) "Hb". wp_bind. change (be_bytes 4 _ ++ c_str _) with (header m).
  iApply (serialize_one_spec with "Hb"); [by destruct Hf|lia..|].
  iIntros (x) "(%s & -> & Hb)". rewrite -body_header.
  iAssert (⟪length_ (out_buffer s) = zlen (body m)⟫ ∗ bufh (out_buffer s) 1 4 (body m))%I with "[Hb]" as "[%Hlen Hb]".
  { iDestruct "Hb" as "(%ls & Hb & %E1 & %E2 & %E3)".
    iDestruct (buf_rep_facts with "Hb") as "[(_ & %Hlen & _) Hb]". iSplitR; [by rewrite Hlen E3|].
    iExists ls. by iFrame. }
  pose proof (zlen_nonneg (body m)). rewrite Hlen prependInt32_bytes swrap_id; [|lia..].
  iApply (prepend_spec with "[$Hb]").
  { iPureIntro. rewrite zlen_be_bytes. split_and!; [apply be_bytes_byte|lia..]. }
  iIntros (b4) "(%ls & Hb & %Hn & _ & %Hcn)". iApply "HΦ".
  destruct ls as [|[l p] [|? ls]];
    [rewrite zlen_nil in Hn; lia| |rewrite !zlen_cons in Hn; pose proof (zlen_nonneg ls); lia].
  iExists l, p. iFrame. iPureIntro. by rewrite content_cons app_nil_r in Hcn.
Qed.

(** ** Sending *)

(** An empty buffer owns nothing, so its destructor frees nothing. *)
Lemma buf_empty_emp b : buf b 0 [] ⊢ emp.
Proof using Type.
  iIntros "(%ls & ((Hs & _ & _) & _) & %Hn & _)". apply zlen_0 in Hn as ->. cbn [lseg]. by iDestruct "Hs" as "_".
Qed.

Lemma destroy_spec b n bs w Φ : n < 2 ^ 32 ->
  buf b n bs -∗ Φ (tt, w) -∗ wp no_error ((lift (clear b);; mret tt) w) Φ.
Proof using Type.
  iIntros (Hn) "Hb HΦ". h_lift. iApply (clear_refines with "[$Hb //]"). iIntros (b') "Hb".
  rewrite buf_empty_emp. by iApply wp_H_ret.
Qed.

(** [ProtobufCodec::send] of a message whose frame fits in a piece. *)
Lemma codec_send_spec o n bs m w :
  {{ buf (out w) n bs ∗ pool (o + n) ∗
     ⟪0 <= o /\ 0 <= n /\ fits m /\ o + n < kMaxUsing /\ zlen bs + zlen (frame m) < 2 ^ 64 /\
      (status_ (w_conn w) = kConnected -> sendable w n bs)⟫ }}
    codec_send true m w
  {{ x, ∃ w', ⟪x = (tt, w')⟫ ∗ pool (o + (n + 1)) ∗
        if bool_decide (status_ (w_conn w) = kConnected) then sent w n bs (frame m) w'
        else ⟪w' = w⟫ ∗ buf (out w) n bs }}.
Proof using Type*.
  iIntros (Φ) "(Hb & Hpool & %Ho & %Hn & %Hf & %Hmax & %H64 & %Hok) HΦ". rewrite /codec_send.
  destruct (fits_size m Hf) as (_ & _ & ? & ? & Hfr). pose proof (zlen_nonneg (body m)).
  h_lift. iApply (fillEmptyBuffer_one_spec (o + n) with "[$Hpool]"); [done|lia|iPureIntro; lia|].
  iIntros (b1) "(%l & %p & Hb1 & Hpool & %Hp)".
  iDestruct (buf_rep_facts with "Hb1") as "[(%Hwf & %Hlen & _) Hb1]".
  rewrite content_cons app_nil_r Hp Hfr in Hlen. h_bind. rewrite /send_buffer. h_get. rewrite /isConnected.
  destruct (decide (status_ (w_conn w) = kConnected)) as [Hst|Hst].
  - rewrite !bool_decide_true // Hlen (proj2 (Z.eqb_neq _ _)); [|lia]. cbn [negb orb].
    rewrite (surjective_pairing (moveToQueueHead b1)). h_bind. rewrite /send_queue.
    iApply (sendInLoop_spec with "[$Hb $Hb1]"); [by apply Hok|rewrite Hp; lia..|].
    iIntros (x) "(%w' & -> & Hs)". iApply wp_H_ret. rewrite Hp.
    iApply (destroy_spec _ 0 []); [done|by iApply Buffer_new_spec|].
    iApply "HΦ". iExists w'. rewrite Z.add_assoc. by iFrame.
  - rewrite !(bool_decide_false (status_ (w_conn w) = kConnected)) //. cbn [negb orb]. iApply wp_H_ret.
    iApply (destroy_spec _ 1 (frame m) with "[Hb1]"); [done| |].
    { iExists [(l, p)]. iFrame. iPureIntro. by rewrite content_cons app_nil_r. }
    iApply "HΦ". iExists w. rewrite Z.add_assoc. by iFrame.
Qed.

(** C14. [ProtobufCodec::send] of a message whose frame fits in a piece.  On a
    connected connection exactly the frame is transmitted: behind what is
    waiting in the output buffer while a write is in flight, and at once
    otherwise.  On any other connection nothing is sent and the connection is
    unchanged; the piece that held the frame is freed, though the allocator goes
    on counting it. *)
Theorem codec_send_transmits o n bs m w :
  {{ buf (out w) n bs ∗ pool (o + n) ∗
     ⟪0 <= o /\ 0 <= n /\ fits m /\ o + n < kMaxUsing /\ zlen bs + zlen (frame m) < 2 ^ 64 /\
      (status_ (w_conn w) = kConnected -> sendable w n bs)⟫ }}
    codec_send true m w
  {{ x, ∃ w', ⟪x = (tt, w')⟫ ∗ pool (o + (n + 1)) ∗
        if bool_decide (status_ (w_conn w) = kConnected) then sent w n bs (frame m) w'
        else ⟪w' = w⟫ ∗ buf (out w) n bs }}.
Proof using Type*. exact (codec_send_spec o n bs m w). Qed.

(** ** Receiving *)

(** The world in which the input buffer is [b]. *)
Definition with_input (w : World) (b : Buffer) : World :=
  mkWorld (set_input b (w_conn w)) (w_pending w) (w_log w).

Lemma with_input_same w : with_input w (inb w) = w.
Proof using Type. by destruct w as [[] ? ?]. Qed.

Context (messageCallback_ : Msg -> H unit) (errorCallback_ : ErrorCode -> H unit).
Abbreviation loop := (onMessage_conn_loop messageCallback_ errorCallback_).

Lemma onMessage_conn_empty fuel w Φ :
  buf (inb w) 0 [] -∗ (buf (inb w) 0 [] -∗ Φ (tt, w)) -∗ wp no_error (loop (S fuel) w) Φ.
Proof using Type.
  iIntros "(%ls & Hb & %Hn & %Hbs) HΦ". cbn [onMessage_conn_loop]. h_get.
  iDestruct (buf_rep_facts with "Hb") as "[(_ & %Hlen & _) Hb]". rewrite Hlen Hbs zlen_nil. cbn.
  iApply wp_H_ret. iApply "HΦ". iExists ls. by iFrame.
Qed.

(** A frame that is alone in the input buffer: the message callback is called
    with its message, the buffer being empty, and the loop ends if it still is
    then. *)
Lemma onMessage_conn_delivers o n m w Φ : msg_ok m -> 0 <= o ->
  kMinMessageLen <= zlen (body m) <= kMaxMessageLen ->
  bufq (inb w) n (frame m) -∗ pool (o + n) -∗
  (∀ b, buf b 0 [] -∗ pool o -∗ wp no_error (messageCallback_ m (with_input w b))
     (λ '(_, w'), buf (inb w') 0 [] ∗ (buf (inb w') 0 [] -∗ Φ (tt, w')))) -∗
  wp no_error (onMessage_conn messageCallback_ errorCallback_ w) Φ.
Proof using Type*.
  iIntros (Hok Ho [Hmin Hmax]) "Hb Hpool Hcb". pose proof (zlen_frame m) as Hf.
  rewrite /kMinMessageLen /kMaxMessageLen /kHeaderLen in Hmin, Hmax.
  iAssert (⟪length_ (inb w) = zlen (frame m)⟫ ∗ bufq (inb w) n (frame m))%I with "[Hb]" as "[%Hlen Hb]".
  { iDestruct "Hb" as "(%ls & Hb & %E1 & %E2 & %E3)".
    iDestruct (buf_rep_facts with "Hb") as "[(_ & %Hlen & _) Hb]". iSplitR; [by rewrite Hlen E2|].
    iExists ls. by iFrame. }
  rewrite /onMessage_conn. h_get. rewrite Hlen.
  replace (Z.to_nat (zlen (frame m))) with (S (Z.to_nat (zlen (body m) + 3))) by lia.
  set (fuel := Z.to_nat (zlen (body m) + 3)). cbn [onMessage_conn_loop]. h_get. rewrite Hlen Hf.
  rewrite (proj2 (Z.leb_le _ _)); [|rewrite /kMinMessageLen /kHeaderLen; lia].
  h_lift. iApply (peekInt32_packed with "Hb"); [lia|]. iIntros (r) "[-> Hb]". rewrite frame_len; [|lia].
  rewrite (proj2 (Z.ltb_ge _ _)); [|rewrite /kMaxMessageLen; lia].
  rewrite (proj2 (Z.ltb_ge _ _)); [|rewrite /kMinMessageLen /kHeaderLen; lia]. cbn [orb].
  rewrite Z.leb_refl. h_lift. iDestruct (bufq_bufp with "Hb") as "Hb".
  iApply (skip_packed o Ho with "[$Hb $Hpool]"); [rewrite /kHeaderLen; lia|].
  iIntros (b1) "(%n1 & Hb & Hpool)". rewrite /frame drop_app_length' //. h_lift.
  iApply (parse_body_spec o Ho m with "[$Hb $Hpool]"); [done|lia|].
  iIntros (r) "(%b2 & -> & Hb & Hpool)". h_modify. rewrite bool_decide_true //. h_bind.
  iApply wp_wand. iSplitL; [iApply ("Hcb" with "Hb Hpool")|].
  iIntros ([u w']) "[Hb HΦ]". iApply (onMessage_conn_empty with "Hb HΦ").
Qed.

(** What the loop does with the first round's verdict: nothing, or one call of
    the error callback. *)
Definition answer (events : list (codec_event Msg)) (w : World) (Φ : unit * World -> hProp) : hProp :=
  match events with
  | [] => Φ (tt, w)
  | Report e :: _ => wp no_error (errorCallback_ e w) Φ
  | Deliver _ :: _ => False%I
  end.

Lemma onMessage_conn_stops o n bs events rest w Φ : 0 <= o -> zlen bs < 2 ^ 31 ->
  first_round bs = Some (events, rest) ->
  bufq (inb w) n bs -∗ pool (o + n) -∗
  (∀ b n', bufp b n' rest -∗ pool (o + n') -∗ answer events (with_input w b) Φ) -∗
  wp no_error (onMessage_conn messageCallback_ errorCallback_ w) Φ.
Proof using Type*.
  iIntros (Ho H31 Hr) "Hb Hpool Hcb". 
  iAssert (⟪length_ (inb w) = zlen bs⟫ ∗ bufq (inb w) n bs)%I with "[Hb]" as "[%Hlen Hb]".
  { iDestruct "Hb" as "(%ls & Hb & %E1 & %E2 & %E3)".
    iDestruct (buf_rep_facts with "Hb") as "[(_ & %Hlen & _) Hb]". iSplitR; [by rewrite Hlen E2|].
    iExists ls. by iFrame. }
  rewrite /onMessage_conn. h_get. cbn [onMessage_conn_loop]. h_get. rewrite Hlen. revert Hr. rewrite /first_round.
  change (kMinMessageLen + kHeaderLen) with 14. change kHeaderLen with 4. intros Hr.
  destruct (zlen bs <? 14) eqn:E1; bool_cases.
  { rewrite (proj2 (Z.leb_gt _ _)) //. simplify_eq. iApply wp_H_ret. rewrite bufq_bufp.
    iSpecialize ("Hcb" with "Hb Hpool"). by rewrite with_input_same. }
  rewrite (proj2 (Z.leb_le _ _)) //. h_lift. iApply (peekInt32_packed with "Hb"); [lia|].
  iIntros (r) "[-> Hb]". rewrite bufq_bufp. set (len := int32 _) in *.
  destruct ((kMaxMessageLen <? len) || (len <? kMinMessageLen)) eqn:E2.
  { simplify_eq. iSpecialize ("Hcb" with "Hb Hpool"). by rewrite with_input_same. }
  apply orb_false_iff in E2 as [Hmax Hmin]. bool_cases. rewrite /kMinMessageLen /kHeaderLen in Hmin.
  destruct (zlen bs <? len + 4) eqn:E3; bool_cases.
  { rewrite (proj2 (Z.leb_gt _ _)) //. simplify_eq. iApply wp_H_ret.
    iSpecialize ("Hcb" with "Hb Hpool"). by rewrite with_input_same. }
  rewrite (proj2 (Z.leb_le _ _)) //. destruct (refused_body (drop 4 bs)) as [[e rest']|] eqn:Er; [|done].
  cbn in Hr. simplify_eq. h_lift. iApply (skip_packed o Ho with "[$Hb $Hpool]"); [lia|].
  iIntros (b1) "(%n1 & Hb & Hpool)". change (Z.to_nat 4) with 4%nat. h_lift.
  iApply (parse_refused_spec o Ho with "[$Hb $Hpool]"); [|done|].
  { rewrite zlen_drop4; lia. }
  iIntros (r) "(%b2 & %n2 & -> & Hb & Hpool)". h_modify. iApply ("Hcb" with "Hb Hpool").
Qed.
End specs.

(** ** The default error callback *)
Section default_error.
Context {Msg : Type} `{RegistryLaws Msg}.
Context (messageCallback_ : Msg -> H unit).

Lemma defaultErrorCallback_spec e w Φ : status_ (w_conn w) = kConnected ->
  Φ (tt, mkWorld (setState kDisconnecting (w_conn w)) (w_pending w ++ [TClose]) (w_log w)) ⊢
  wp no_error (defaultErrorCallback e w) Φ.
Proof using Type.
  iIntros (Hst) "HΦ". rewrite /defaultErrorCallback /close /start_closing. h_get.
  rewrite /isConnected Hst bool_decide_true //. h_bind. h_get. rewrite /isConnected Hst bool_decide_true //.
  h_modify. iApply wp_H_ret. by iApply wp_H_schedule.
Qed.

(** C15. With the default error callback, input that [onMessage] refuses (see
    [first_round]) closes a connected connection: its status becomes
    [kDisconnecting] and [handleClose] is queued on the loop, once; incomplete
    input changes nothing.  In both cases no message is delivered and every piece
    stays accounted for. *)
Theorem bad_frame_closes_connection o n bs events rest w :
  {{ bufq (inb w) n bs ∗ pool (o + n) ∗
     ⟪0 <= o /\ zlen bs < 2 ^ 31 /\ status_ (w_conn w) = kConnected /\
      first_round (Msg := Msg) bs = Some (events, rest)⟫ }}
    onMessage_conn messageCallback_ defaultErrorCallback w
  {{ x, ∃ b n', bufp b n' rest ∗ pool (o + n') ∗
        ⟪x = (tt, match events with
                  | [] => with_input w b
                  | _ => mkWorld (setState kDisconnecting (set_input b (w_conn w)))
                           (w_pending w ++ [TClose]) (w_log w)
                  end)⟫ }}.
Proof using Type*.
  iIntros (Φ) "(Hb & Hpool & %Ho & %H31 & %Hst & %Hr) HΦ".
  iApply (onMessage_conn_stops with "Hb Hpool"); [done..|].
  iIntros (b n') "Hb Hpool". iSpecialize ("HΦ" $! _ with "[Hb Hpool]").
  { iExists b, n'. iFrame. iPureIntro. reflexivity. }
  destruct events as [|[m|e] events]; cbn [answer].
  - done.
  - exfalso. revert Hr. rewrite /first_round. repeat case_match; try done.
    destruct (refused_body _) as [[? ?]|]; cbn; congruence.
  - by iApply defaultErrorCallback_spec.
Qed.
End default_error.

(** ** Runs *)

(** A connected, idle connection. *)
Definition idle : World :=
  mkWorld (setState kConnected (TCPConn_new (mkSocket true (mkEndpoint [] 0) (mkEndpoint [] 0)) 1)) [] [].

(** What a run did to the outside, the handlers it left, and the status. *)
Definition outcome {A} (c : H A) (m : Mem) : option (list conn_event * nat * StateE) :=
  match c idle m with
  | Ok (_, w) _ => Some (w_log w, length (w_pending w), status_ (w_conn w))
  | _ => None
  end.

Section echo_runs.
#[local] Existing Instance no_linked.

Lemma codec_send_transmits_witness :
  outcome (codec_send true hello) (init_mem (λ _ _, 0) false) = Some ([ESend (frame hello)], 1%nat, kConnected) /\
  {{ buf (out idle) 0 [] ∗ pool (0 + 0) ∗
     ⟪0 <= 0 /\ 0 <= 0 /\ fits hello /\ 0 + 0 < kMaxUsing /\ zlen (@nil Z) + zlen (frame hello) < 2 ^ 64 /\
      (status_ (w_conn idle) = kConnected -> sendable idle 0 [])⟫ }}
    codec_send true hello idle
  {{ x, ∃ w', ⟪x = (tt, w')⟫ ∗ pool (0 + (0 + 1)) ∗
        if bool_decide (status_ (w_conn idle) = kConnected) then sent idle 0 [] (frame hello) w'
        else ⟪w' = idle⟫ ∗ buf (out idle) 0 [] }}.
Proof. split; [vm_compute; reflexivity|]. exact (codec_send_transmits 0 0 [] hello idle). Defined.

Lemma bad_frame_closes_connection_witness :
  let bad := be_bytes 4 10 ++ be_bytes 4 1 ++ replicate 6 0 in
  outcome (b ← lift (write Buffer_new bad); modify (set_input b);;
           onMessage_conn (Msg := AnyMessage) (λ _, mret tt) defaultErrorCallback) (init_mem (λ _ _, 0) false) =
    Some ([], 1%nat, kDisconnecting) /\
  forall w,
    {{ bufq (inb w) 1 bad ∗ pool (0 + 1) ∗
       ⟪0 <= 0 /\ zlen bad < 2 ^ 31 /\ status_ (w_conn w) = kConnected /\
        first_round (Msg := AnyMessage) bad = Some ([Report kUnknownMessageType], replicate 5 0)⟫ }}
      onMessage_conn (Msg := AnyMessage) (λ _, mret tt) defaultErrorCallback w
    {{ x, ∃ b n', bufp b n' (replicate 5 0) ∗ pool (0 + n') ∗
          ⟪x = (tt, mkWorld (setState kDisconnecting (set_input b (w_conn w))) (w_pending w ++ [TClose]) (w_log w))⟫ }}.
Proof.
  intros bad. split; [vm_compute; reflexivity|]. intros w.
  exact (bad_frame_closes_connection (Msg := AnyMessage) (λ _, mret tt) 0 1 bad [Report kUnknownMessageType] (replicate 5 0) w).
Defined.
End echo_runs.
