(* ===== verification/Chunks.v ===== *)
(** * A message that arrives in pieces

    TCP delivers a frame in as many reads as it likes.  The input buffer of a
    connection keeps the bytes of an incomplete frame in one piece: [writePiece]
    merges what it is given into the last piece when it fits, and a frame that
    fits in a piece always does.  The codec waits, without touching anything,
    until the frame is complete. *)

From stdpp Require Import base tactics list numbers gmap strings.
From iris.proofmode Require Import proofmode.
From Stdlib Require Import ZArith Lia.
From S2P Require Import Prelude Machine HeapLogic Piece Buffer BufferSpec ConnBuffers Streams Varint.
From S2P Require Import CodedOutput CodedInput WireFormat Echo Codec CodecSpec TcpConn TcpConnIO CodecConn.

(** The pieces that the bytes of an incomplete frame take. *)
Definition pieces (part : list Z) : Z := match part with [] => 0 | _ => 1 end.

Definition partial (b : Buffer) (part : list Z) : hProp := buf b (pieces part) part.

Lemma pieces_bound part : 0 <= pieces part <= 1.
Proof. destruct part; cbn; lia. Qed.

Lemma pieces_pos part : 0 < zlen part -> pieces part = 1.
Proof. by destruct part. Qed.

Lemma partial_nil b : partial b [] ⊣⊢ buf_rep b [].
Proof.
  rewrite /partial /buf. iSplit.
  - iIntros "(%ls & Hb & %Hn & _)". by apply zlen_0 in Hn as ->.
  - iIntros "Hb". iExists []. by iFrame.
Qed.

Lemma partial_one b part : 0 < zlen part ->
  partial b part ⊣⊢ ∃ l p, buf_rep b [(l, p)] ∗ ⟪piece_bytes p = part /\ piece_wf p /\ p_len p = zlen part⟫.
Proof.
  intros Hz. rewrite /partial /buf pieces_pos //. iSplit.
  - iIntros "(%ls & Hb & %Hn & %Hc)". destruct ls as [|[l p] [|? ls]];
      [done| |rewrite !zlen_cons in Hn; pose proof (zlen_nonneg ls); lia].
    iDestruct (buf_rep_facts with "Hb") as "[(%Hwf & _) Hb]". apply cells_wf_cons in Hwf as [Hp _].
    rewrite content_cons app_nil_r in Hc. iExists l, p. iFrame. iPureIntro. by rewrite -Hc zlen_piece_bytes.
  - iIntros "(%l & %p & Hb & %Hc & _)". iExists [(l, p)]. iFrame. iPureIntro. by rewrite content_cons app_nil_r.
Qed.

(** One piece of at least four bytes can be peeked. *)
Lemma partial_bufq b part : 4 <= zlen part -> partial b part ⊢ bufq b 1 part.
Proof.
  intros Hz. rewrite partial_one; [|lia]. iIntros "(%l & %p & Hb & %Hc & %Hp & %Hl)". iExists [(l, p)]. iFrame.
  iPureIntro. rewrite content_cons app_nil_r. split_and!; try done.
  - constructor; [cbn; lia|constructor].
  - cbn [first_len]. rewrite (proj2 (Z.eqb_neq _ _)); lia.
Qed.

Lemma bufq_partial b part : 0 < zlen part -> bufq b 1 part ⊢ partial b part.
Proof.
  intros Hz. rewrite /partial /buf pieces_pos //. iIntros "(%ls & Hb & %Hn & %Hc & _)". iExists ls. by iFrame.
Qed.

Lemma partial_facts b part : partial b part ⊢ ⟪length_ b = zlen part /\ Forall is_byte part⟫ ∗ partial b part.
Proof.
  rewrite /partial. rewrite {1}buf_bytes. iIntros "[[%Hby _] (%ls & Hb & %Hn & %Hc)]".
  iDestruct (buf_rep_facts with "Hb") as "[(_ & %Hl & _) Hb]". iSplitR; [by rewrite Hl Hc|].
  iExists ls. by iFrame.
Qed.

(** ** Receiving a chunk

    The merge reads the length of the piece it has just given back to the
    allocator, which is safe while the allocator caches it; few pieces in all
    make sure of that. *)
Section receive.
Context `{HPeak : Peak}.

Definition few_pieces (part : list Z) : Prop := part = [] \/ kMaxUsing <= 10.

Lemma receive_chunk u b part item p data : 0 <= u -> few_pieces part -> empty_piece p ->
  Forall is_byte data -> 0 < zlen data -> zlen part + zlen data <= kPieceCapacity ->
  {{ partial b part ∗ item ↦ received p data ∗ pool (u + pieces part + 1) }}
    writePiece b item
  {{ b', partial b' (part ++ data) ∗ pool (u + 1) }}.
Proof using Type.
  iIntros (Hu Hfew Hp Hby Hd Hfit Φ) "(Hb & Hi & Hpool) HΦ". pose proof kPieceCapacity_eq.
  pose proof (zlen_nonneg part). destruct (received_piece p data) as (Hwf & Hlen & Hrb); [done|done|lia|].
  destruct part as [|c part].
  - rewrite partial_nil Z.add_0_r app_nil_l.
    iApply (writePiece_queues with "[$Hb $Hi]"); [done|lia|rewrite Hlen; change (zlen (content [])) with 0; lia|done|].
    iIntros (b') "Hb". iApply "HΦ". iFrame "Hpool". rewrite partial_one //. iExists item, _. by iFrame.
  - destruct Hfew as [?|HK]; [done|]. set (part' := c :: part) in *.
    assert (0 < zlen part') as Hpos by (rewrite zlen_cons; pose proof (zlen_nonneg part); lia).
    rewrite partial_one //. iDestruct "Hb" as "(%l & %q & Hb & %Hq & %Hqw & %Hql)".
    iDestruct "Hpool" as "(%cached & Hpool)".
    iAssert (⟪zlen cached + (u + pieces part' + 1) <= kMaxUsing⟫ ∗ pool_rep cached (u + pieces part' + 1))%I
      with "[Hpool]" as "[%Hpeak Hpool]".
    { iDestruct "Hpool" as "(%pq & $ & $ & %Hd1 & %Hd2 & %Hd3 & %Hd4)". by iSplit; iPureIntro. }
    rewrite pieces_pos // in Hpeak |- *.
    iApply (writePiece_merges b [] l q item _ cached with "[$Hb $Hi $Hpool]"); try done.
    { lia. }
    { rewrite app_nil_l content_cons app_nil_r Hq Hlen. lia. }
    { lia. }
    { lia. }
    { rewrite /BASE_CACHE_COUNT. lia. }
    iIntros (b') "[Hb Hpool]". iApply "HΦ". replace (u + 1 + 1 - 1) with (u + 1) by lia. iFrame "Hpool".
    destruct (fill_compacted q (received p data)) as (Hf1 & Hf2 & Hf3); [done|done|lia|].
    rewrite partial_one; [|rewrite zlen_app; lia]. iExists l, _. rewrite app_nil_l. iFrame "Hb". iPureIntro.
    split_and!; [by rewrite Hf2 Hrb Hq|done|]. rewrite Hf3 zlen_app Hlen. lia.
Qed.
End receive.

(** ** Waiting for the rest of a frame *)
Section waits.
Context {Msg : Type} `{RegistryLaws Msg}.
Context (messageCallback_ : Msg -> H unit) (errorCallback_ : ErrorCode -> H unit).

Lemma onMessage_conn_waits (m : Msg) part rest w Φ : kMinMessageLen <= zlen (body m) <= kMaxMessageLen ->
  frame m = part ++ rest -> 0 < zlen rest ->
  partial (inb w) part -∗ (partial (inb w) part -∗ Φ (tt, w)) -∗
  wp no_error (onMessage_conn messageCallback_ errorCallback_ w) Φ.
Proof using Type*.
  iIntros ([Hmin Hmax] Hf Hr) "Hb HΦ". pose proof (zlen_frame m) as Hz. rewrite {1}Hf zlen_app in Hz.
  iDestruct (partial_facts with "Hb") as "[[%Hlen _] Hb]". pose proof (zlen_nonneg part).
  rewrite /onMessage_conn. h_get. cbn [onMessage_conn_loop]. h_get. rewrite Hlen.
  change (kMinMessageLen + kHeaderLen) with 14. destruct (14 <=? zlen part) eqn:E; bool_cases.
  - h_lift. iDestruct (partial_bufq with "Hb") as "Hb"; [lia|].
    iApply (peekInt32_packed with "Hb"); [lia|]. iIntros (r) "[-> Hb]".
    assert (int32 (be_value (take 4 part)) = zlen (body m)) as ->.
    { rewrite -(frame_len m); [|rewrite /kMaxMessageLen in Hmax; lia]. rewrite Hf take_app_le //.
      rewrite /zlen in E. lia. }
    rewrite (proj2 (Z.ltb_ge _ _)) // (proj2 (Z.ltb_ge _ _)) //. cbn [orb].
    rewrite (proj2 (Z.leb_gt _ _)); [|rewrite /kHeaderLen; lia].
    iApply wp_H_ret. iApply "HΦ". iApply (bufq_partial with "Hb"). lia.
  - iApply wp_H_ret. by iApply "HΦ".
Qed.
End waits.
