(* ===== verification/Dispatcher.v ===== *)
(** * The dispatcher

    [netpp/net/protobuf/dispatcher.h].  A [ProtobufDispatcher] maps the
    descriptor of a message class to the callback registered for it; a callback
    is stored behind the interface [Callback], whose implementation
    [CallbackT<T>] casts the message to [T] without a check.

    A class [T] of messages is a [MessageClass]: its descriptor and the cast,
    which is defined on the messages with that descriptor. *)

From stdpp Require Import base tactics list numbers gmap.
From Stdlib Require Import ZArith.
From S2P Require Import Prelude Machine HeapLogic WireFormat Echo Codec CodecSpec TcpConn.

(** [T::descriptor()] and [std::static_pointer_cast<T>]; casting a message of
    another class is undefined. *)
Class MessageClass (Msg : Type) `{Registry Msg} (T : Type) := {
  descriptor : Descriptor;
  static_pointer_cast : Msg -> option T;
  cast_own m : GetDescriptor m = descriptor -> exists t, static_pointer_cast m = Some t
}.
Arguments descriptor {_ _} _ {_}.
Arguments static_pointer_cast {_ _} _ {_} _.

Section dispatcher.
Context {Msg : Type} `{Registry Msg} `{EqDecision Descriptor} `{!Countable Descriptor}.

(** [class Callback]: its [onMessage]. *)
Definition Callback : Type := Msg -> H unit.

Record ProtobufDispatcher := mkDispatcher {
  callbacks_ : gmap Descriptor Callback;
  defaultCallback_ : Msg -> H unit
}.

Definition ProtobufDispatcher_new (defaultCb : Msg -> H unit) : ProtobufDispatcher :=
  mkDispatcher ∅ defaultCb.

(** [CallbackT<T>::onMessage]; a cast to the wrong class is an error of the
    model. *)
Definition CallbackT_onMessage {T} `{!MessageClass Msg T} (callback_ : T -> H unit) : Callback := λ message,
  match static_pointer_cast T message with
  | Some concrete => callback_ concrete
  | None => lift (throw Fatal)
  end.

Definition registerMessageCallback {T} `{!MessageClass Msg T} (callback : T -> H unit) (d : ProtobufDispatcher) :
    ProtobufDispatcher :=
  mkDispatcher (<[descriptor T := CallbackT_onMessage callback]> (callbacks_ d)) (defaultCallback_ d).

Definition onProtobufMessage (d : ProtobufDispatcher) (message : Msg) : H unit :=
  match callbacks_ d !! GetDescriptor message with
  | Some callback => callback message
  | None => defaultCallback_ d message
  end.

(** ** What a dispatcher promises

    Registrations in the order in which they were made. *)
Record registration := mkRegistration {
  reg_T : Type;
  reg_class : MessageClass Msg reg_T;
  reg_callback : reg_T -> H unit
}.

Definition register (d : ProtobufDispatcher) (r : registration) : ProtobufDispatcher :=
  @registerMessageCallback (reg_T r) (reg_class r) (reg_callback r) d.

Definition is_for (m : Msg) (r : registration) : Prop :=
  GetDescriptor m = @descriptor _ _ (reg_T r) (reg_class r).

(** The last registration for the class of [m]. *)
Fixpoint last_for (m : Msg) (rs : list registration) : option registration :=
  match rs with
  | [] => None
  | r :: rs =>
      match last_for m rs with
      | Some r' => Some r'
      | None => if decide (GetDescriptor m = @descriptor _ _ (reg_T r) (reg_class r)) then Some r else None
      end
  end.

Lemma last_for_is_for m rs r : last_for m rs = Some r -> r ∈ rs /\ is_for m r.
Proof using Type.
  induction rs as [|r' rs IH]; cbn; [done|]. destruct (last_for m rs).
  - intros. destruct IH; [done|]. split; [by right|done].
  - case_decide; [|done]. intros [= <-]. split; [left|done].
Qed.

(** Looking [m] up after some registrations. *)
Lemma lookup_registered m rs d :
  callbacks_ (foldl register d rs) !! GetDescriptor m =
  match last_for m rs with
  | Some r => Some (@CallbackT_onMessage _ (reg_class r) (reg_callback r))
  | None => callbacks_ d !! GetDescriptor m
  end.
Proof using Type.
  revert d. induction rs as [|r rs IH]; intros d; cbn; [done|]. rewrite IH.
  destruct (last_for m rs); [done|]. cbn.
  case_decide as E; [by rewrite E, lookup_insert_eq|by rewrite lookup_insert_ne by done].
Qed.

Lemma default_registered rs d : defaultCallback_ (foldl register d rs) = defaultCallback_ d.
Proof using Type. revert d. induction rs as [|r rs IH]; intros d; cbn; [done|]. by rewrite IH. Qed.

(** C27. A dispatcher hands a message to the callback that was registered last
    for the message's class, cast to that class (the cast is always one of a
    message to its own class), and to the default callback when there is none,
    whatever was registered for other classes and in which order. *)
Theorem dispatches_to_last_registered defaultCb rs m :
  match last_for m rs with
  | Some r => r ∈ rs /\ is_for m r /\ exists t,
      @static_pointer_cast _ _ (reg_T r) (reg_class r) m = Some t /\
      onProtobufMessage (foldl register (ProtobufDispatcher_new defaultCb) rs) m = reg_callback r t
  | None =>
      Forall (λ r, ~ is_for m r) rs /\
      onProtobufMessage (foldl register (ProtobufDispatcher_new defaultCb) rs) m = defaultCb m
  end.
Proof using Type.
  unfold onProtobufMessage. rewrite lookup_registered, default_registered. cbn [ProtobufDispatcher_new callbacks_].
  rewrite lookup_empty. destruct (last_for m rs) as [r|] eqn:E.
  - destruct (last_for_is_for _ _ _ E) as [Hin Hfor]. split_and!; [done..|].
    destruct (@cast_own _ _ _ (reg_class r) m Hfor) as [t Ht]. exists t. split; [done|].
    unfold CallbackT_onMessage. by rewrite Ht.
  - split; [|done]. induction rs as [|r rs IH]; [constructor|]. cbn in E. destruct (last_for m rs); [done|].
    case_decide; [done|]. constructor; [done|]. by apply IH.
Qed.
End dispatcher.

(** ** The classes of [echo.proto] *)
Section linked.
Context {LT : LinkedTypes}.

#[export] Instance Request_class : MessageClass AnyMessage Request.
Proof.
  refine {| descriptor := (request_name : @Descriptor AnyMessage _);
            static_pointer_cast m := match m with MRequest r => Some r | _ => None end |}.
  intros [r|r|r] Hm; [by exists r|done|]. by destruct (linked_name_fresh r).
Defined.

#[export] Instance Response_class : MessageClass AnyMessage Response.
Proof.
  refine {| descriptor := (response_name : @Descriptor AnyMessage _);
            static_pointer_cast m := match m with MResponse r => Some r | _ => None end |}.
  intros [r|r|r] Hm; [done|by exists r|]. by destruct (linked_name_fresh r).
Defined.
End linked.
