(* ===== verification/EchoApp.v ===== *)
(** * What the echo server and the echo client share

    [examples/echo/echo_server/echo_server/echo_server.cpp] and
    [examples/echo/echo_client/echo_client/echo_client.cpp] put the library
    together: connections call the codec with what they receive, the codec hands
    messages to the dispatcher, the dispatcher calls [onRequest] or [onResponse],
    which send the answer through the codec.  This file has the counters of both
    classes, atomics on the heap, and the round trip of a message through a
    connection whose application answers it; EchoServer and EchoClient have the
    two classes.

    [std::cout] and the log are outside the model: [show_counters] returns what
    is printed. *)

From stdpp Require Import base tactics list numbers gmap strings.
From iris.proofmode Require Import proofmode.
From Stdlib Require Import ZArith Lia QArith_base.
From S2P Require Import Prelude Machine HeapLogic Piece Buffer BufferSpec ConnBuffers Streams Varint.
From S2P Require Import CodedOutput CodedInput WireFormat Echo Codec CodecSpec EventLoop ThreadPool TcpServer.
From S2P Require Import TcpClient TcpConn TcpConnIO CodecConn Chunks Dispatcher.
#[local] Open Scope Z_scope.

(** One second, in microseconds. *)
Definition one_second : Z := 1000000.

(** ** The counters both classes keep *)
Record Counters := mkCounters {
  connection_cnt_ : loc;
  last_second_recv_cnt_ : loc;
  total_recv_cnt_ : loc
}.

Definition Counters_new : M Counters :=
  a ← new_atomic 0;
  b ← new_atomic 0;
  c ← new_atomic 0;
  mret (mkCounters a b c).

Definition count_received (s : Counters) : M unit :=
  fetch_add int64 (last_second_recv_cnt_ s) 1;;
  fetch_add int64 (total_recv_cnt_ s) 1;;
  mret tt.

(** [showInfo] of both classes: what it prints. *)
Definition show_counters (s : Counters) : M (Z * Z * Z) :=
  a ← load_atomic (connection_cnt_ s);
  b ← load_atomic (last_second_recv_cnt_ s);
  c ← load_atomic (total_recv_cnt_ s);
  store_atomic (last_second_recv_cnt_ s) 0;;
  mret (a, b, c).

Definition ignore {A} (c : M A) : H unit := lift c;; mret tt.

Section linked.
Context {LT : LinkedTypes}.

(** ** Echo messages that fit in a piece *)
Lemma echo_zlen {T} `{EchoMessage T} (m : T) : zlen (echo_SerializeToArray m) <= 17 + zlen (text m).
Proof.
  rewrite /echo_SerializeToArray /WriteInt64ToArray /WriteStringToArray tag_id tag_text zlen_app.
  pose proof (zlen_varint64_le (wrap64 (echo_id m))). pose proof (zlen_varint32_le (wrap32 (zlen (text m)))).
  pose proof (zlen_nonneg (text m)). do 2 case_match; rewrite ?zlen_app ?zlen_cons ?zlen_nil; lia.
Qed.

(** A text of at most 4000 bytes is small enough. *)
Definition small {T} `{EchoMessage T} (m : T) : Prop := echo_ok m /\ zlen (text m) <= 4000.

Lemma request_fits (r : Request) : small r ->
  fits (MRequest r) /\ kMinMessageLen <= zlen (body (MRequest r)) <= kMaxMessageLen.
Proof.
  intros [Hok Hz]. pose proof (zlen_body (MRequest r)) as Hb. pose proof (echo_zlen r) as He.
  pose proof (zlen_nonneg (echo_SerializeToArray r)). change (zlen (GetTypeName (MRequest r))) with 12 in Hb.
  change (InternalSerializeWithCachedSizesToArray (MRequest r)) with (echo_SerializeToArray r) in Hb.
  rewrite /fits zlen_frame /kMinMessageLen /kMaxMessageLen /kHeaderLen kPieceCapacity_eq. split_and!; [done|lia..].
Qed.

Lemma response_fits (r : Response) : small r ->
  fits (MResponse r) /\ kMinMessageLen <= zlen (body (MResponse r)) <= kMaxMessageLen.
Proof.
  intros [Hok Hz]. pose proof (zlen_body (MResponse r)) as Hb. pose proof (echo_zlen r) as He.
  pose proof (zlen_nonneg (echo_SerializeToArray r)). change (zlen (GetTypeName (MResponse r))) with 13 in Hb.
  change (InternalSerializeWithCachedSizesToArray (MResponse r)) with (echo_SerializeToArray r) in Hb.
  rewrite /fits zlen_frame /kMinMessageLen /kMaxMessageLen /kHeaderLen kPieceCapacity_eq. split_and!; [done|lia..].
Qed.

Lemma frame_bytes (m : AnyMessage) : fits m -> Forall is_byte (frame m).
Proof.
  intros [Hok _]. apply Forall_app. split; [apply be_bytes_byte|]. apply Forall_app.
  split; [apply be_bytes_byte|]. apply Forall_app. split; [apply c_str_bytes|by apply msg_bytes].
Qed.

Lemma frame_pos (m : AnyMessage) : fits m -> 0 < zlen (frame m).
Proof. intros Hf. destruct (fits_size m Hf) as (? & ? & ? & ? & ->). pose proof (zlen_nonneg (body m)). lia. Qed.

(** ** One round of the echo *)

(** The world after the next read has been started with piece [l]. *)
Definition reading (l : loc) (w : TcpConn.World) : TcpConn.World :=
  mkWorld (w_conn w) (w_pending w ++ [TRead l]) (w_log w ++ [ERead kPieceCapacity]).

(** The world in which the application is called with the input buffer [b]. *)
Definition called (w : TcpConn.World) (b : Buffer) : TcpConn.World :=
  mkWorld (set_input b (w_conn w)) (w_pending w) (w_log w ++ [EMessageCb]).

(** The world in which the application is told of the connection. *)
Definition connected (w : TcpConn.World) (sock : Socket) : TcpConn.World :=
  mkWorld (set_addrs (Some (local_endpoint sock)) (Some (remote_endpoint sock)) (setState kConnected (w_conn w)))
    (w_pending w) (w_log w ++ [EConnectionCb kConnected]).

(** Sending leaves the socket and the input buffer alone. *)
Lemma sent_keeps w n bs d w' :
  sent w n bs d w' ⊢ ⟪socket_ (w_conn w') = socket_ (w_conn w) /\ inb w' = inb w⟫ ∗ sent w n bs d w'.
Proof.
  rewrite /sent. iIntros "H". destruct (is_sending_ (w_conn w)).
  - iDestruct "H" as "(%b1 & -> & Hb)". iSplitR; [done|]. iExists b1. by iFrame.
  - iDestruct "H" as "(%b1 & %l1 & %p1 & %nx & [%Ew %Hp1] & Hl1 & Hb)". subst w'. iSplitR; [done|].
    iExists b1, l1, p1, nx. by iFrame.
Qed.

(** A connected connection on which [n] pieces with the bytes [bs] wait to be
    sent and whose input buffer holds the first part of the frame of [m]: the
    read that brings the rest makes the application answer [m] with [m']. *)
Lemma echo_round `{HPeak : Peak} (cb : AnyMessage -> H unit) err connection_cb close_cb o n bs l p part data
    (m m' : AnyMessage) (P Q : hProp) w :
  empty_piece p -> 0 <= o -> 0 <= n -> few_pieces part -> sendable w n bs -> o + n + 1 < kMaxUsing ->
  zlen bs < 2 ^ 63 -> fits m -> kMinMessageLen <= zlen (body m) <= kMaxMessageLen -> fits m' ->
  part ++ data = frame m -> 0 < zlen data ->
  (forall w Φ, P -∗ (Q -∗ wp no_error (codec_send true m' w) Φ) -∗ wp no_error (cb m w) Φ) ->
  {{ P ∗ l ↦ p ∗ partial (inb w) part ∗ buf (out w) n bs ∗ pool (o + n + pieces part + 1) }}
    handleRead connection_cb (onMessage_conn cb err) close_cb l ec_success data w
  {{ x, ∃ b w1 l' p', ⟪x = (tt, reading l' w1) /\ empty_piece p'⟫ ∗ sent (called w b) n bs (frame m') w1 ∗
        buf b 0 [] ∗ l' ↦ p' ∗ pool (o + (n + 1) + 1) ∗ Q }}.
Proof.
  iIntros (Hp Ho Hn Hfew Hs Hmax Hbs Hf Hbody Hf' Hdata Hpos Hcb Φ) "(HP & Hl & Hin & Hout & Hpool) HΦ".
  destruct (fits_size m Hf) as (? & ? & ? & ? & Hfr). pose proof kPieceCapacity_eq as Hcap.
  destruct (fits_size m' Hf') as (? & ? & ? & ? & Hfr'). pose proof (zlen_nonneg (body m)).
  pose proof (frame_bytes m Hf) as Hby. rewrite -Hdata in Hby, Hfr. apply Forall_app in Hby as [_ Hby].
  rewrite (zlen_app part) in Hfr. pose proof (zlen_nonneg part).
  iApply (wp_handleRead with "Hl"); [done|lia|]. iIntros "Hl".
  iApply (receive_chunk (o + n) with "[$Hin $Hl $Hpool]"); [lia|done..|lia|]. iIntros (b') "[Hin Hpool]".
  rewrite Hdata. iDestruct (partial_bufq with "Hin") as "Hin"; [rewrite -Hdata zlen_app; lia|].
  iApply (onMessage_conn_delivers _ _ (o + n) 1 m (called w b') with "[Hin] Hpool"); [by destruct Hf|lia|done|iExact "Hin"|].
  iIntros (b) "Hin Hpool". iApply (Hcb with "HP"). iIntros "HQ".
  iApply (codec_send_spec o n bs m' (called w b) with "[Hpool Hout]").
  { iSplitL "Hout"; [iExact "Hout"|]. iFrame "Hpool". iPureIntro. split_and!; try done; lia. }
  iIntros (x) "(%w1 & -> & Hpool & Hsent)".
  rewrite bool_decide_true; [|by destruct Hs].
  iDestruct (sent_keeps with "Hsent") as "[[%Hsk1 %Eb] Hsent]". destruct Hs as (_ & [sock Hsk] & _).
  change (inb (called w b)) with b in Eb. change (socket_ _) with (socket_ (w_conn w)) in Hsk1 at 2. rewrite Hsk in Hsk1.
  rewrite Eb. iFrame "Hin". iIntros "Hin". iApply (launchRead_spec with "[$Hpool]"); [done|iPureIntro; lia|].
  iIntros (x) "(%l' & %p' & %Hx & Hl' & Hpool)". iApply "HΦ". iExists b, w1, l', p'. by iFrame.
Qed.

(** A read that leaves the frame incomplete only grows the input buffer. *)
Lemma echo_waits `{HPeak : Peak} (cb : AnyMessage -> H unit) err connection_cb close_cb u l p part data rest
    (m : AnyMessage) w sock :
  empty_piece p -> 0 <= u -> few_pieces part -> socket_ (w_conn w) = Some sock -> u + 1 < kMaxUsing ->
  fits m -> kMinMessageLen <= zlen (body m) <= kMaxMessageLen ->
  part ++ data ++ rest = frame m -> 0 < zlen data -> 0 < zlen rest ->
  {{ l ↦ p ∗ partial (inb w) part ∗ pool (u + pieces part + 1) }}
    handleRead connection_cb (onMessage_conn cb err) close_cb l ec_success data w
  {{ x, ∃ b l' p', ⟪x = (tt, reading l' (called w b)) /\ empty_piece p'⟫ ∗
        partial b (part ++ data) ∗ l' ↦ p' ∗ pool (u + 1 + 1) }}.
Proof.
  iIntros (Hp Hu Hfew Hsk Hmax Hf Hbody Hdata Hpos Hrest Φ) "(Hl & Hin & Hpool) HΦ".
  destruct (fits_size m Hf) as (? & ? & ? & ? & Hfr). pose proof kPieceCapacity_eq as Hcap.
  pose proof (frame_bytes m Hf) as Hby. rewrite -Hdata in Hby, Hfr.
  apply Forall_app in Hby as [_ [Hby _]%Forall_app]. rewrite (zlen_app part) (zlen_app data) in Hfr. pose proof (zlen_nonneg part).
  iApply (wp_handleRead with "Hl"); [done|lia|]. iIntros "Hl".
  iApply (receive_chunk u with "[$Hin $Hl $Hpool]"); [lia|done..|lia|]. iIntros (b') "[Hin Hpool]".
  iApply (onMessage_conn_waits _ _ m (part ++ data) rest (called w b') with "[Hin]");
    [done|by rewrite -app_assoc|done|iExact "Hin"|].
  iIntros "Hin". iApply (launchRead_spec with "[$Hpool]"); [done|iPureIntro; lia|].
  iIntros (x) "(%l' & %p' & %Hx & Hl' & Hpool)". iApply "HΦ". iExists b', l', p'. by iFrame.
Qed.
End linked.
