(* ===== verification/Party.v ===== *)
(** * One party of an echo session

    A connection with the codec and an application that answers: what
    [EchoServer] is to each of its connections and [EchoClient] to each of its
    clients.  The interface [Application] states what the connection relies on:
    the callbacks, and that the application answers the [k]-th message it hears
    with the [k]-th message it says.

    Against it the handlers of the connection refine an abstract party: bytes of
    an incomplete frame, whether a write is in flight, and the frame waiting
    behind it. *)

From stdpp Require Import base tactics list numbers gmap strings.
From iris.proofmode Require Import proofmode.
From Stdlib Require Import ZArith Lia QArith_base.
From S2P Require Import Prelude Machine HeapLogic Piece Buffer BufferSpec ConnBuffers Streams Varint.
From S2P Require Import CodedOutput CodedInput WireFormat Echo Codec CodecSpec EventLoop ThreadPool TcpServer.
From S2P Require Import TcpClient TcpConn TcpConnIO CodecConn Chunks Dispatcher EchoApp.
#[local] Open Scope Z_scope.

(** The bytes a connection has handed to asio. *)
Fixpoint transmitted (log : list conn_event) : list Z :=
  match log with
  | [] => []
  | ESend d :: log => d ++ transmitted log
  | _ :: log => transmitted log
  end.

Lemma transmitted_app l1 l2 : transmitted (l1 ++ l2) = transmitted l1 ++ transmitted l2.
Proof. induction l1 as [|[] l1 IH]; cbn; [done|try done..]. by rewrite IH app_assoc. Qed.

(** The log grew, by events that transmit [bs]. *)
Definition adds (w w' : TcpConn.World) (bs : list Z) : Prop :=
  exists evs, w_log w' = w_log w ++ evs /\ transmitted evs = bs.

Section linked.
Context {LT : LinkedTypes}.

(** ** The interface of an application *)
Record Application := mkApplication {
  on_connection : H unit;
  on_message : AnyMessage -> H unit;
  on_error : ErrorCode -> H unit;
  on_close : H unit;
  (** Its memory before the connection is up, and after [k] messages. *)
  initially : hProp;
  after : nat -> hProp;
  (** What it says first, the [k]-th message it expects and its answer. *)
  greeting : option AnyMessage;
  hears : nat -> AnyMessage;
  says : nat -> AnyMessage
}.

Definition good (m : AnyMessage) : Prop := fits m /\ kMinMessageLen <= zlen (body m) <= kMaxMessageLen.

Class ApplicationLaws (A : Application) := {
  app_greets w Φ : status_ (w_conn w) = kConnected ->
    initially A -∗
    (after A 0 -∗ wp no_error (match greeting A with Some m => codec_send true m | None => mret tt end w) Φ) -∗
    wp no_error (on_connection A w) Φ;
  app_answers k w Φ :
    after A k -∗ (after A (S k) -∗ wp no_error (codec_send true (says A k) w) Φ) -∗
    wp no_error (on_message A (hears A k) w) Φ;
  app_greeting_good m : greeting A = Some m -> fits m;
  app_hears_good k : good (hears A k);
  app_says_good k : fits (says A k)
}.

(** The connection's [message_cb_] in both applications. *)
Definition app_message_cb (A : Application) : H unit := onMessage_conn (on_message A) (on_error A).

(** Running a handler of the application's connection. *)
Definition app_handler (A : Application) : conn_task -> error_code -> list Z -> H unit :=
  run_handler (on_connection A) (app_message_cb A) (on_close A).

(** ** The abstract party *)
Record Party := mkParty {
  p_heard : nat;           (* messages answered so far *)
  p_part : list Z;         (* of the next one *)
  p_busy : bool;           (* a write is in flight *)
  p_queue : list Z         (* the frame behind it *)
}.

(** It hands a frame to asio, or keeps it until the write in flight is done. *)
Definition p_say (p : Party) (f : list Z) : Party * list Z :=
  if p_busy p then (mkParty (p_heard p) (p_part p) true f, [])
  else (mkParty (p_heard p) (p_part p) true [], f).

(** Receiving [data]: what it becomes and what it transmits. *)
Definition p_receive (A : Application) (p : Party) (data : list Z) : Party * list Z :=
  if bool_decide (p_part p ++ data = frame (hears A (p_heard p)))
  then p_say (mkParty (S (p_heard p)) [] (p_busy p) (p_queue p)) (frame (says A (p_heard p)))
  else (mkParty (p_heard p) (p_part p ++ data) (p_busy p) (p_queue p), []).

(** The write in flight is done. *)
Definition p_written (p : Party) : Party * list Z :=
  (mkParty (p_heard p) (p_part p) (bool_decide (p_queue p <> [])) [], p_queue p).

Definition p_start (A : Application) : Party * list Z :=
  match greeting A with
  | Some m => p_say (mkParty 0 [] false []) (frame m)
  | None => (mkParty 0 [] false [], [])
  end.

(** ** The connection of a party *)
Definition writes (p : Party) (ws : list conn_task) : hProp :=
  if p_busy p then (∃ owns l q, ⟪ws = [TWrite owns (Some l)] /\ data_ok q⟫ ∗ l ↦ q)%I else ⟪ws = []⟫%I.

Section party.
Context `{HPeak : Peak} (Hfew : 8 <= kMaxUsing <= 10).
Context (A : Application) `{!ApplicationLaws A}.

Definition conn_up (w : TcpConn.World) (busy : bool) : Prop :=
  status_ (w_conn w) = kConnected /\ (exists sock, socket_ (w_conn w) = Some sock) /\
  is_sending_ (w_conn w) = busy.

(** Everything the connection owns, but for its handlers. *)
Definition endpoint (w : TcpConn.World) (p : Party) : hProp :=
  (⟪conn_up w (p_busy p) /\ (p_busy p = false -> p_queue p = [])⟫ ∗
   partial (inb w) (p_part p) ∗ partial (out w) (p_queue p) ∗ after A (p_heard p))%I.

(** The connection with its handlers and the pool. *)
Definition party (w : TcpConn.World) (p : Party) : hProp :=
  (∃ l q ws, ⟪w_pending w ≡ₚ TRead l :: ws /\ empty_piece q⟫ ∗ l ↦ q ∗ writes p ws ∗ endpoint w p ∗
     pool (1 + Z.b2z (p_busy p) + pieces (p_queue p) + pieces (p_part p)))%I.

(** A connection that has just been made. *)
Definition newborn (w : TcpConn.World) : Prop :=
  exists sock id, w = mkWorld (TCPConn_new sock id) [] [].

Lemma frame_nonempty (m : AnyMessage) : fits m -> frame m <> [].
Proof using Type. intros Hm E. pose proof (frame_pos m Hm). rewrite E zlen_nil in H. lia. Qed.

(** *** A read that leaves the frame incomplete *)
Lemma party_waits w p l q ws data rest :
  w_pending w ≡ₚ ws -> empty_piece q -> p_part p ++ data ++ rest = frame (hears A (p_heard p)) ->
  0 < zlen data -> 0 < zlen rest ->
  {{ l ↦ q ∗ writes p ws ∗ endpoint w p ∗
     pool (1 + Z.b2z (p_busy p) + pieces (p_queue p) + pieces (p_part p)) }}
    app_handler A (TRead l) ec_success data w
  {{ x, ∃ w', ⟪x = (tt, w') /\ adds w w' []⟫ ∗
        party w' (mkParty (p_heard p) (p_part p ++ data) (p_busy p) (p_queue p)) }}.
Proof using Type*.
  iIntros (Hws Hq Hf Hd Hr Φ) "(Hl & Hws & ([%Hup %Hidle] & Hin & Hout & Happ) & Hpool) HΦ".
  pose proof Hup as (Hst & [sock Hsk] & Hs). destruct (app_hears_good (A := A) (p_heard p)) as [Hfit Hbody].
  pose proof (pieces_bound (p_queue p)). pose proof (pieces_bound (p_part p)).
  assert (0 <= Z.b2z (p_busy p) <= 1) by (destruct (p_busy p); cbn; lia).
  iApply (echo_waits _ _ _ _ (Z.b2z (p_busy p) + pieces (p_queue p)) l q (p_part p) data rest (hears A (p_heard p)) w sock
            with "[$Hl $Hin Hpool]"); [done|lia|right; lia|done|lia|done..| |].
  { by replace (Z.b2z (p_busy p) + pieces (p_queue p) + pieces (p_part p) + 1)
      with (1 + Z.b2z (p_busy p) + pieces (p_queue p) + pieces (p_part p)) by lia. }
  iIntros (x) "(%b & %l' & %p' & [%Ex %Hp'] & Hb & Hl & Hpool)". subst x. iApply "HΦ". iExists _. iSplitR.
  { iPureIntro. split; [done|]. exists [EMessageCb; ERead kPieceCapacity].
    cbn [reading called w_log]. by rewrite -app_assoc. }
  iExists l', p', ws. iFrame "Hl Hb Hout Happ Hws". iSplitR.
  { iPureIntro. split; [|done]. cbn [reading called w_pending]. by rewrite Hws Permutation_app_comm. }
  iSplitR; [iPureIntro; by split|]. cbn [p_busy p_queue p_part].
  rewrite (pieces_pos (p_part p ++ data)); [|rewrite zlen_app; pose proof (zlen_nonneg (p_part p)); lia].
  by replace (1 + Z.b2z (p_busy p) + pieces (p_queue p) + 1)
    with (Z.b2z (p_busy p) + pieces (p_queue p) + 1 + 1) by lia.
Qed.
(** *** Saying something *)
Lemma party_sent w p f w1 ws : conn_up w (p_busy p) -> p_queue p = [] -> 0 < zlen f -> w_pending w ≡ₚ ws ->
  writes p ws ∗ sent w 0 [] f w1 ⊢
  ∃ ws', ⟪w_pending w1 ≡ₚ ws' /\ conn_up w1 true /\ inb w1 = inb w /\ adds w w1 (p_say p f).2⟫ ∗
         writes (p_say p f).1 ws' ∗ partial (out w1) (p_queue (p_say p f).1).
Proof using Type.
  iIntros ((Hst & Hsk & Hs) Hqu Hf Hws) "[Hws Hsent]". rewrite /sent Hs /p_say /writes.
  destruct (p_busy p) eqn:Eb; cbn [fst snd p_busy p_queue].
  - iDestruct "Hsent" as "(%b' & %Ew & Hb)". subst w1. iExists ws. iFrame "Hws". iSplitR.
    { iPureIntro. split_and!; try done. exists []. by rewrite app_nil_r. }
    rewrite /partial pieces_pos //.
  - iDestruct "Hsent" as "(%b' & %l & %q & %nx & (%Ew & %Hq & %Hqb) & Hl & Hb)". iDestruct "Hws" as "->".
    subst w1. iExists [TWrite false (Some l)]. iSplitR.
    { iPureIntro. split_and!; try done.
      - cbn [w_pending]. by rewrite Hws.
      - exists [ESend f]. cbn. by rewrite app_nil_r. }
    iSplitL "Hl"; [|by rewrite /partial]. iExists false, l, (set_next q nx). iFrame "Hl". iPureIntro.
    split; [done|]. by destruct (piece_wf_data q Hq).
Qed.

Lemma p_say_count p f : p_queue p = [] -> 0 < zlen f ->
  Z.b2z (p_busy (p_say p f).1) + pieces (p_queue (p_say p f).1) = Z.b2z (p_busy p) + pieces (p_queue p) + 1.
Proof using Type. intros -> Hf. rewrite /p_say. destruct (p_busy p); cbn; rewrite ?pieces_pos //; lia. Qed.

Lemma p_say_part p f : p_part (p_say p f).1 = p_part p /\ p_heard (p_say p f).1 = p_heard p /\
  p_busy (p_say p f).1 = true.
Proof using Type. rewrite /p_say. by destruct (p_busy p). Qed.

(** The next read has been started: the party is complete again. *)
Lemma party_reading w1 p f l q ws' : p_queue p = [] -> 0 < zlen f -> p_part p = [] ->
  w_pending w1 ≡ₚ ws' -> conn_up w1 true -> empty_piece q ->
  l ↦ q -∗ writes (p_say p f).1 ws' -∗ partial (out w1) (p_queue (p_say p f).1) -∗ buf (inb w1) 0 [] -∗
  after A (p_heard p) -∗ pool (Z.b2z (p_busy p) + 1 + 1) -∗
  party (reading l w1) (p_say p f).1.
Proof using Type.
  iIntros (Hqu Hf Hpart Hws Hup Hq) "Hl Hws Hout Hin Happ Hpool".
  destruct (p_say_part p f) as (Ep & Eh & Eb). pose proof (p_say_count p f Hqu Hf) as Hc.
  rewrite Hqu in Hc. cbn [pieces] in Hc.
  iExists l, q, ws'. iFrame "Hl Hws". iSplitR.
  { iPureIntro. split; [|done]. cbn [reading w_pending]. by rewrite Hws Permutation_app_comm. }
  rewrite /endpoint Ep Eh Eb Hpart. iFrame "Hout Happ". iSplitL "Hin".
  { iSplitR; [done|]. by rewrite /partial. }
  rewrite Eb in Hc. cbn [pieces].
  by replace (1 + Z.b2z true + pieces (p_queue (p_say p f).1) + 0) with (Z.b2z (p_busy p) + 1 + 1) by lia.
Qed.

(** *** A read that completes a message: the application answers *)
Lemma party_answers w p l q ws data :
  w_pending w ≡ₚ ws -> empty_piece q -> p_part p ++ data = frame (hears A (p_heard p)) -> 0 < zlen data ->
  p_queue p = [] ->
  {{ l ↦ q ∗ writes p ws ∗ endpoint w p ∗
     pool (1 + Z.b2z (p_busy p) + pieces (p_queue p) + pieces (p_part p)) }}
    app_handler A (TRead l) ec_success data w
  {{ x, ∃ w', ⟪x = (tt, w') /\ adds w w' (p_receive A p data).2⟫ ∗ party w' (p_receive A p data).1 }}.
Proof using Type*.
  iIntros (Hws Hq Hf Hd Hqu Φ) "(Hl & Hws & ([%Hup %Hidle] & Hin & Hout & Happ) & Hpool) HΦ".
  pose proof Hup as (Hst & [sock Hsk] & Hs). destruct (app_hears_good (A := A) (p_heard p)) as [Hfit Hbody].
  pose proof (app_says_good (A := A) (p_heard p)) as Hfit'. pose proof (pieces_bound (p_part p)).
  assert (0 <= Z.b2z (p_busy p) <= 1) by (destruct (p_busy p); cbn; lia).
  assert (sendable w 0 []) as Hsend by (split_and!; [done|by exists sock|done]).
  rewrite Hqu. cbn [pieces].
  iApply (echo_round _ _ _ _ (Z.b2z (p_busy p)) 0 [] l q (p_part p) data (hears A (p_heard p)) (says A (p_heard p))
            (after A (p_heard p)) (after A (S (p_heard p))) w with "[$Hl $Hin $Happ Hout Hpool]");
    [done|lia|lia|right; lia|done|lia|rewrite zlen_nil; lia|done|done|done|done|done| | |].
  { intros w' Ψ. apply app_answers. }
  { iFrame "Hout". by replace (Z.b2z (p_busy p) + 0 + pieces (p_part p) + 1)
      with (1 + Z.b2z (p_busy p) + 0 + pieces (p_part p)) by lia. }
  iIntros (x) "(%b & %w1 & %l' & %p' & [%Ex %Hp'] & Hsent & Hin & Hl & Hpool & Happ)". subst x.
  iApply "HΦ". rewrite /p_receive bool_decide_true //.
  set (p1 := mkParty (S (p_heard p)) [] (p_busy p) (p_queue p)). set (f := frame (says A (p_heard p))).
  pose proof (frame_pos _ Hfit') as Hpos.
  iDestruct (party_sent (called w b) p1 f w1 ws with "[Hws Hsent]") as "(%ws' & (%Hws' & %Hup1 & %Ein & %Hadd) & Hws & Hout)";
    [exact Hup|done|done|done|iFrame|].
  iExists _. iSplitR.
  { iPureIntro. split; [done|]. destruct Hadd as (evs & Hevs & Ht). exists ([EMessageCb] ++ evs ++ [ERead kPieceCapacity]).
    split; [by rewrite /reading /= Hevs /called /= -!app_assoc|]. by rewrite !transmitted_app Ht /= app_nil_r. }
  iApply (party_reading w1 p1 f with "Hl Hws Hout [Hin] Happ Hpool"); [done..|]. by rewrite Ein.
Qed.

(** *** A write that is done *)
Lemma party_writes_on w p owns r l q ws :
  w_pending w ≡ₚ TRead l :: ws -> empty_piece q -> p_busy p = true ->
  {{ l ↦ q ∗ writes p (TWrite owns r :: ws) ∗ endpoint w p ∗
     pool (1 + Z.b2z (p_busy p) + pieces (p_queue p) + pieces (p_part p)) }}
    app_handler A (TWrite owns r) ec_success [] w
  {{ x, ∃ w', ⟪x = (tt, w') /\ adds w w' (p_written p).2⟫ ∗ party w' (p_written p).1 }}.
Proof using Type*.
  iIntros (Hws Hq Hbusy Φ) "(Hl & Hws & ([%Hup %Hidle] & Hin & Hout & Happ) & Hpool) HΦ".
  pose proof Hup as (Hst & [sock Hsk] & Hs). pose proof (pieces_bound (p_part p)).
  rewrite /writes Hbusy. iDestruct "Hws" as "(%ow & %lw & %qw & [%Ew %Hqw] & Hlw)". simplify_eq. cbn [Z.b2z].
  iApply (handleWrite_spec _ _ (1 + pieces (p_part p)) sock lw qw (pieces (p_queue p)) (p_queue p) w
            with "[$Hlw $Hout Hpool]").
  { iSplitL; [|iPureIntro; split_and!; [lia|done..]].
    by replace (1 + pieces (p_part p) + pieces (p_queue p) + 1)
      with (1 + 1 + pieces (p_queue p) + pieces (p_part p)) by lia. }
  iIntros (x) "(%w' & [%Ex %Hk] & Hpool & Hrest)". subst x. iApply "HΦ". iExists w'.
  destruct Hk as (Hk1 & Hk2 & Hk3). rewrite /p_written. destruct (p_queue p) as [|c qu] eqn:Equ; cbn [fst snd].
  - iDestruct "Hrest" as "[(%Hlog & %Hpend & %Hsend) Hout]". iSplitR.
    { iPureIntro. split; [done|]. exists []. by rewrite app_nil_r. }
    iExists l, q, []. rewrite bool_decide_false; [|by intros []]. iFrame "Hl". rewrite Hpend.
    iSplitR; [done|]. rewrite /writes /endpoint /=. rewrite Hk3. iFrame "Hin Happ". iSplitR; [done|].
    iSplitL "Hout"; [iSplitR; [|done]|by rewrite Z.add_0_r].
    iPureIntro. split; [|done]. split_and!; [by rewrite Hk2|exists sock; by rewrite Hk1|done].
  - rewrite -Equ. assert (0 < zlen (p_queue p)) as Hz by (rewrite Equ zlen_cons; pose proof (zlen_nonneg qu); lia).
    rewrite (proj2 (Z.eqb_neq _ _)); [|lia]. pose proof (pieces_bound (p_queue p)).
    iDestruct "Hrest" as "(%l' & %q' & %nx & %n' & %joined & %d & %rest & %HH & Hl' & Hb & Hj)".
    destruct HH as (Hd & Hq' & Hqd & Hlog & Hpend & Hsend & Hj).
    iDestruct (buf_bytes with "Hb") as "[[_ %Hn'] Hb]". pose proof (zlen_nonneg joined).
    assert (n' = 0) as -> by lia. assert (joined = []) as -> by (apply zlen_0; lia). iClear "Hj".
    iDestruct "Hb" as "(%ls & Hb & %Hls & %Hrest)". apply zlen_0 in Hls as ->. cbn in Hrest. subst rest.
    rewrite app_nil_r in Hd. iSplitR.
    { iPureIntro. split; [done|]. exists [ESend d]. split; [done|]. cbn. by rewrite app_nil_r. }
    rewrite bool_decide_true; [|by rewrite Equ].
    iExists l, q, [TWrite true (Some l')]. iFrame "Hl". rewrite Hpend Hws.
    iSplitR; [iPureIntro; split; [done|done]|]. rewrite /writes /endpoint /=. rewrite Hk3. iFrame "Hin Happ".
    iSplitL "Hl'". { iExists true, l', (set_next q' nx). iFrame. iPureIntro. split; [done|]. by destruct (piece_wf_data q' Hq'). }
    iSplitL "Hb"; [iSplitR|].
    + iPureIntro. split; [|done]. split_and!; [by rewrite Hk2|exists sock; by rewrite Hk1|done].
    + rewrite /partial /buf. iExists []. by iFrame.
    + by replace (1 + pieces (p_part p) + pieces (p_queue p)) with (1 + 1 + 0 + pieces (p_part p))
        by (rewrite (pieces_pos (p_queue p)) //; lia).
Qed.
(** *** The connection is established *)
Lemma wp_connectEstablished connection_cb w sock Φ : socket_ (w_conn w) = Some sock ->
  wp no_error (connection_cb (connected w sock)) (λ '(_, w'), wp no_error (launchRead w') Φ) ⊢
  wp no_error (connectEstablished connection_cb true ec_success w) Φ.
Proof using Type.
  iIntros (Hs) "H". rewrite /connectEstablished. h_lift. wp_assert_true. h_modify. h_bind.
  iApply wp_H_the_socket; [done|]. h_lift. wp_ret. h_modify. h_bind. rewrite /call_connection_cb. h_get.
  h_bind. iApply wp_H_note. change (mkWorld _ _ _) with (connected w sock).
  iApply wp_wand. iFrame "H". iIntros ([u w']) "H". iExact "H".
Qed.

Lemma party_starts w : newborn w ->
  {{ initially A ∗ pool 0 }} app_handler A TEstablished ec_success [] w
  {{ x, ∃ w', ⟪x = (tt, w') /\ adds w w' (p_start A).2⟫ ∗ party w' (p_start A).1 }}.
Proof using Type*.
  iIntros ((sock & id & ->) Φ) "[Happ Hpool] HΦ". set (w := mkWorld _ _ _).
  assert (socket_ (w_conn w) = Some sock) as Hsk by done. set (w0 := connected w sock).
  assert (sendable w0 0 []) as Hsend by (split_and!; [done|by exists sock|done]).
  iApply wp_connectEstablished; [done|]. iApply (app_greets with "Happ"); [done|]. iIntros "Happ".
  rewrite /p_start. destruct (greeting A) as [m|] eqn:Em.
  - pose proof (app_greeting_good m Em) as Hm. pose proof (frame_pos m Hm) as Hpos.
    destruct (fits_size m Hm) as (? & ? & ? & ? & Hfr). pose proof kPieceCapacity_eq as Hcap.
    iApply (codec_send_spec 0 0 [] m w0 with "[$Hpool]").
    { iSplitL; [by iApply Buffer_new_spec|]. iPureIntro. split_and!; try done; [lia|rewrite zlen_nil; lia]. }
    iIntros (x) "(%w1 & -> & Hpool & Hsent)". rewrite bool_decide_true; [|done].
    iDestruct (party_sent w0 (mkParty 0 [] false []) (frame m) w1 [] with "[$Hsent]")
      as "(%ws' & (%Hws' & %Hup1 & %Ein & %Hadd) & Hws & Hout)";
      [by split_and!; [done|exists sock|done]|done..|].
    pose proof Hup1 as (_ & [sock1 Hsk1] & _).
    iApply (launchRead_spec with "[$Hpool]"); [done|iPureIntro; lia|].
    iIntros (x) "(%l & %p & [%Ex %Hp] & Hl & Hpool)". subst x. iApply "HΦ". iExists (reading l w1). iSplitR.
    { iPureIntro. split; [done|]. destruct Hadd as (evs & Hevs & Ht).
      exists ([EConnectionCb kConnected] ++ evs ++ [ERead kPieceCapacity]).
      split; [by rewrite /reading /= Hevs|]. by rewrite !transmitted_app Ht /= app_nil_r. }
    iApply (party_reading w1 _ (frame m) with "Hl Hws Hout [] Happ Hpool"); [done..|].
    rewrite Ein. iApply Buffer_new_spec.
  - iApply wp_H_ret. iApply (launchRead_spec with "[$Hpool]"); [done|iPureIntro; lia|].
    iIntros (x) "(%l & %p & [%Ex %Hp] & Hl & Hpool)". subst x. iApply "HΦ". iExists _. iSplitR.
    { iPureIntro. split; [done|]. by exists [EConnectionCb kConnected; ERead kPieceCapacity]. }
    iExists l, p, []. iFrame "Hl". iSplitR; [done|]. rewrite /writes /endpoint /=. iSplitR; [done|].
    iFrame "Happ". iSplitL ""; [|done]. iSplitR; [iPureIntro; split; [|done]; by split_and!; [|exists sock|]|].
    iSplitL; iApply Buffer_new_spec.
Qed.
End party.
End linked.
