(* ===== verification/EchoServer.v ===== *)
(** * The echo server

    [examples/echo/echo_server/echo_server/echo_server.cpp]: a [TCPServer] whose
    connections answer every request with the response of the same number and
    text. *)

From stdpp Require Import base tactics list numbers gmap strings.
From iris.proofmode Require Import proofmode.
From Stdlib Require Import ZArith Lia QArith_base.
From S2P Require Import Prelude Machine HeapLogic Piece Buffer BufferSpec ConnBuffers Streams Varint.
From S2P Require Import CodedOutput CodedInput WireFormat Echo Codec CodecSpec EventLoop ThreadPool TcpServer.
From S2P Require Import TcpClient TcpConn TcpConnIO CodecConn Chunks Dispatcher EchoApp.
#[local] Open Scope Z_scope.

(** [EchoServer::onConnectionCallback] *)
Definition onConnectionCallback (s : Counters) : H unit :=
  conn ← gets id;
  if isConnected conn then ignore (fetch_add int32 (connection_cnt_ s) 1)
  else if isDisconnecting conn then ignore (fetch_add int32 (connection_cnt_ s) (-1))
  else mret tt.

Section linked.
Context {LT : LinkedTypes}.

(** [onUnknownMessage], the default callback of the dispatcher. *)
Definition onUnknownMessage (message : AnyMessage) : H unit := close.

Definition response_to (message : Request) : Response :=
  set_text (set_id (mk 0 [] []) (request_id_ message)) (ask_ message).

Definition onRequest (s : Counters) (message : Request) : H unit :=
  lift (count_received s);;
  codec_send true (MResponse (response_to message)).

Definition showInfo (s : Counters) : M (Z * Z * Z) := show_counters s.

(** The constructor: the dispatcher and the callbacks of the server. *)
Definition dispatcher_ (s : Counters) : ProtobufDispatcher (Msg := AnyMessage) :=
  registerMessageCallback (onRequest s) (ProtobufDispatcher_new onUnknownMessage).

Definition codec_ (s : Counters) : ProtobufCodec AnyMessage :=
  ProtobufCodec_new (onProtobufMessage (dispatcher_ s)).

(** What the constructor gives to [setMessageCallback]. *)
Definition message_cb (s : Counters) : H unit := codec_onMessage (codec_ s).

Definition tcp_server_ : TCPServer := TCPServer_new 0.

(** [start]: the server, and what asio gets from [runEvery]. *)
Definition start (ndebug : bool) (s : Counters) (w : TcpServer.World) :
    (TcpServer.World * list (@request (H (Z * Z * Z)))) + Error :=
  match TcpServer.start ndebug w with
  | inl w => inl (w, runEvery 0 one_second (lift (showInfo s)))
  | inr e => inr e
  end.
Lemma response_small r : small r -> small (response_to r).
Proof.
  rewrite /small /echo_ok /=. intros [(? & ? & ? & ? & ?) ?].
  split_and!; try done; lia.
Qed.

(** C4. The echo server answers: on a connected connection with an empty input
    buffer, a read that brings the frame of a request makes the server transmit
    exactly the frame of the response with the same number and the same text
    (behind the bytes already waiting while a write is in flight), count the
    request, leave the input buffer empty and start the next read.  No assertion
    fails and no piece is lost. *)
Theorem echo_server_answers connection_cb close_cb (s : Counters) o n bs l p (r : Request) a t w :
  {{ l ↦ p ∗ buf (inb w) 0 [] ∗ buf (out w) n bs ∗ pool (o + n + 1) ∗
     last_second_recv_cnt_ s ↦ₐ a ∗ total_recv_cnt_ s ↦ₐ t ∗
     ⟪empty_piece p /\ 0 <= o /\ 0 <= n /\ sendable w n bs /\ o + n + 1 < kMaxUsing /\ zlen bs < 2 ^ 63 /\
      small r⟫ }}
    handleRead connection_cb (message_cb s) close_cb l ec_success (frame (MRequest r)) w
  {{ x, ∃ b w1 l' p', ⟪x = (tt, reading l' w1) /\ empty_piece p'⟫ ∗
        sent (called w b) n bs (frame (MResponse (mkResponse (request_id_ r) (ask_ r) []))) w1 ∗
        buf b 0 [] ∗ l' ↦ p' ∗ pool (o + (n + 1) + 1) ∗
        last_second_recv_cnt_ s ↦ₐ int64 (a + 1) ∗ total_recv_cnt_ s ↦ₐ int64 (t + 1) }}.
Proof.
  iIntros (Φ) "(Hl & Hin & Hout & Hpool & Ha & Ht & %Hp & %Ho & %Hn & %Hs & %Hmax & %Hbs & %Hr) HΦ".
  destruct (request_fits r Hr) as [Hf Hb]. destruct (response_fits _ (response_small r Hr)) as [Hf' _].
  replace (o + n + 1) with (o + n + pieces [] + 1) by (cbn; lia).
  iApply (echo_round _ _ _ _ o n bs l p [] _ (MRequest r) (MResponse (response_to r))
            (last_second_recv_cnt_ s ↦ₐ a ∗ total_recv_cnt_ s ↦ₐ t)%I
            (last_second_recv_cnt_ s ↦ₐ int64 (a + 1) ∗ total_recv_cnt_ s ↦ₐ int64 (t + 1))%I
            with "[$Ha $Ht $Hl $Hin $Hout $Hpool]"); [done|done|done|by left|done..|by apply frame_pos| |].
  { iIntros (w' Ψ) "[Ha Ht] HΨ". change (onProtobufMessage _ (MRequest r)) with (onRequest s r).
    rewrite /onRequest /count_received. h_lift. wp_bind. iApply (wp_fetch_add with "Ha"). iIntros "Ha".
    wp_bind. iApply (wp_fetch_add with "Ht"). iIntros "Ht". wp_ret. iApply "HΨ". iFrame. }
  iExact "HΦ".
Qed.
End linked.
