(* ===== verification/EchoClient.v ===== *)
(** * The echo client

    [examples/echo/echo_client/echo_client/echo_client.cpp]: clients that send a
    first request when they are connected and answer every response with the
    next request. *)

From stdpp Require Import base tactics list numbers gmap strings.
From iris.proofmode Require Import proofmode.
From Stdlib Require Import ZArith Lia QArith_base.
From S2P Require Import Prelude Machine HeapLogic Piece Buffer BufferSpec ConnBuffers Streams Varint.
From S2P Require Import CodedOutput CodedInput WireFormat Utf8 Echo Codec CodecSpec EventLoop ThreadPool TcpServer.
From S2P Require Import TcpClient TcpConn TcpConnIO CodecConn Chunks Dispatcher EchoApp.
#[local] Open Scope Z_scope.

Record EchoClient := mkEchoClient {
  counters : Counters;
  next_request_id_ : loc;
  fix_data_ : list Z
}.

(** [fix_data_.assign(1024, 'a')] *)
Definition EchoClient_new : M EchoClient :=
  r ← new_atomic 0;
  s ← Counters_new;
  mret (mkEchoClient s r (replicate 1024 97)).

(** A request with the next number; [set_id] takes an [int64]. *)
Definition make_request (i : Z) (ask : list Z) : Request := set_text (set_id (mk 0 [] []) (int64 i)) ask.

Section linked.
Context {LT : LinkedTypes}.

Definition send_request (c : EchoClient) (ask : list Z) : H unit :=
  i ← lift (fetch_add wrap64 (next_request_id_ c) 1);
  codec_send true (MRequest (make_request i ask)).

Definition onConnectionCallback (c : EchoClient) : H unit :=
  conn ← gets id;
  if isConnected conn then
    lift (fetch_add int32 (connection_cnt_ (counters c)) 1);;
    send_request c (fix_data_ c)
  else if isDisconnecting conn then ignore (fetch_add int32 (connection_cnt_ (counters c)) (-1))
  else mret tt.

(** [onUnknownMessage], the default callback of the dispatcher. *)
Definition onUnknownMessage (message : AnyMessage) : H unit := close.

Definition onResponse (c : EchoClient) (message : Response) : H unit :=
  lift (count_received (counters c));;
  send_request c (answer_ message).

Definition showInfo (c : EchoClient) : M (Z * Z * Z) := show_counters (counters c).

(** [start] registers [onResponse] once per connection. *)
Definition dispatcher_ (c : EchoClient) (connection_cnt : nat) : ProtobufDispatcher (Msg := AnyMessage) :=
  Nat.iter connection_cnt (registerMessageCallback (onResponse c)) (ProtobufDispatcher_new onUnknownMessage).

Definition codec_ (c : EchoClient) (connection_cnt : nat) : ProtobufCodec AnyMessage :=
  ProtobufCodec_new (onProtobufMessage (dispatcher_ c connection_cnt)).

Definition message_cb (c : EchoClient) (connection_cnt : nat) : H unit :=
  codec_onMessage (codec_ c connection_cnt).

(** The clients [start] makes, numbered from [i], each with [connect()] called. *)
Fixpoint tcpClients_ (i : Z) (connection_cnt : nat) : gmap Z ClientWorld :=
  match connection_cnt with
  | O => ∅
  | S n => <[i := connect client_init]> (tcpClients_ (i + 1) n)
  end.

Definition start (c : EchoClient) (connection_cnt : nat) :
    gmap Z ClientWorld * list (@request (H (Z * Z * Z))) :=
  (tcpClients_ 0 connection_cnt, runEvery 0 one_second (lift (showInfo c))).
Lemma request_small i (r : Response) : small r -> small (make_request i (answer_ r)).
Proof.
  rewrite /small /echo_ok /=. intros [(? & ? & ? & ? & ?) ?]. pose proof (swrap_bound 64 i). split_and!; try done; lia.
Qed.

Lemma client_dispatches c k r :
  onProtobufMessage (dispatcher_ c (S k)) (MResponse r) = onResponse c r.
Proof. rewrite /onProtobufMessage /=. change (GetDescriptor (MResponse r)) with (descriptor (Msg := AnyMessage) Response). by rewrite lookup_insert_eq. Qed.

(** The echo client keeps asking: a read that brings the frame of a response
    makes the client transmit the request with the next number and the text of
    the response, count the response and start the next read. *)
Lemma echo_client_asks_again connection_cb close_cb (c : EchoClient) k o n bs l p (r : Response) i a t w :
  {{ l ↦ p ∗ buf (inb w) 0 [] ∗ buf (out w) n bs ∗ pool (o + n + 1) ∗
     next_request_id_ c ↦ₐ i ∗
     last_second_recv_cnt_ (counters c) ↦ₐ a ∗ total_recv_cnt_ (counters c) ↦ₐ t ∗
     ⟪empty_piece p /\ 0 <= o /\ 0 <= n /\ sendable w n bs /\ o + n + 1 < kMaxUsing /\ zlen bs < 2 ^ 63 /\
      small r⟫ }}
    handleRead connection_cb (message_cb c (S k)) close_cb l ec_success (frame (MResponse r)) w
  {{ x, ∃ b w1 l' p', ⟪x = (tt, reading l' w1) /\ empty_piece p'⟫ ∗
        sent (called w b) n bs (frame (MRequest (mkRequest (int64 i) (answer_ r) []))) w1 ∗
        buf b 0 [] ∗ l' ↦ p' ∗ pool (o + (n + 1) + 1) ∗
        next_request_id_ c ↦ₐ wrap64 (i + 1) ∗
        last_second_recv_cnt_ (counters c) ↦ₐ int64 (a + 1) ∗
        total_recv_cnt_ (counters c) ↦ₐ int64 (t + 1) }}.
Proof.
  iIntros (Φ) "(Hl & Hin & Hout & Hpool & Hi & Ha & Ht & %Hp & %Ho & %Hn & %Hs & %Hmax & %Hbs & %Hr) HΦ".
  destruct (response_fits r Hr) as [Hf Hb]. destruct (request_fits _ (request_small i r Hr)) as [Hf' _].
  replace (o + n + 1) with (o + n + pieces [] + 1) by (cbn; lia).
  iApply (echo_round _ _ _ _ o n bs l p [] _ (MResponse r) (MRequest (make_request i (answer_ r)))
            (next_request_id_ c ↦ₐ i ∗ last_second_recv_cnt_ (counters c) ↦ₐ a ∗
             total_recv_cnt_ (counters c) ↦ₐ t)%I
            (next_request_id_ c ↦ₐ wrap64 (i + 1) ∗ last_second_recv_cnt_ (counters c) ↦ₐ int64 (a + 1) ∗
             total_recv_cnt_ (counters c) ↦ₐ int64 (t + 1))%I
            with "[$Hi $Ha $Ht $Hl $Hin $Hout $Hpool]"); [done|done|done|by left|done..|by apply frame_pos| |].
  { iIntros (w' Ψ) "(Hi & Ha & Ht) HΨ".
    change (messageCallback_ _ (MResponse r)) with (onProtobufMessage (dispatcher_ c (S k)) (MResponse r)).
    rewrite client_dispatches.
    rewrite /onResponse /count_received /send_request. h_lift. wp_bind.
    iApply (wp_fetch_add with "Ha"). iIntros "Ha". wp_bind. iApply (wp_fetch_add with "Ht"). iIntros "Ht".
    wp_ret. h_lift. iApply (wp_fetch_add with "Hi"). iIntros "Hi". iApply "HΨ". iFrame. }
  iExact "HΦ".
Qed.

(** The echo client begins: when a new connection is established the client
    counts it and transmits the request with the next number and 1024 times the
    letter a, and only then starts the first read. *)
Lemma echo_client_first_request (c : EchoClient) o i k sock w :
  {{ buf (out w) 0 [] ∗ pool o ∗ next_request_id_ c ↦ₐ i ∗ connection_cnt_ (counters c) ↦ₐ k ∗
     ⟪0 <= o /\ o + 1 < kMaxUsing /\ socket_ (w_conn w) = Some sock /\ is_sending_ (w_conn w) = false /\
      fix_data_ c = replicate 1024 97⟫ }}
    connectEstablished (onConnectionCallback c) true ec_success w
  {{ x, ∃ w1 l p, ⟪x = (tt, reading l w1) /\ empty_piece p⟫ ∗
        sent (connected w sock) 0 [] (frame (MRequest (mkRequest (int64 i) (replicate 1024 97) []))) w1 ∗
        l ↦ p ∗ pool (o + 2) ∗ next_request_id_ c ↦ₐ wrap64 (i + 1) ∗ connection_cnt_ (counters c) ↦ₐ int32 (k + 1) }}.
Proof.
  iIntros (Φ) "(Hout & Hpool & Hi & Hk & %Ho & %Hmax & %Hs & %Hsend & %Hfix) HΦ".
  assert (small (make_request i (replicate 1024 97))) as Hsm.
  { rewrite /small /echo_ok. pose proof (swrap_bound 64 i). split_and!; try done; [cbn; lia..| |].
    - apply Forall_replicate. rewrite /is_byte. lia.
    - apply is_utf8_ascii, Forall_replicate. lia. }
  destruct (request_fits _ Hsm) as [Hf _]. destruct (fits_size _ Hf) as (? & ? & ? & ? & Hfr).
  rewrite /connectEstablished. h_lift. wp_assert_true. h_modify. h_bind. iApply wp_H_the_socket; [done|].
  h_lift. wp_ret. h_modify. h_bind. rewrite /call_connection_cb. h_get. h_bind. iApply wp_H_note.
  change (mkWorld _ _ _) with (connected w sock) at 1.
  rewrite /onConnectionCallback. h_get. change (isConnected _) with true. cbn beta iota.
  h_lift. iApply (wp_fetch_add with "Hk"). iIntros "Hk". rewrite /send_request. h_lift.
  iApply (wp_fetch_add with "Hi"). iIntros "Hi". rewrite Hfix.
  assert (sendable (connected w sock) 0 []) as Hok by (split_and!; [done|by exists sock|done]).
  iApply (codec_send_spec o 0 [] _ (connected w sock) with "[$Hout Hpool]").
  { rewrite Z.add_0_r. iFrame "Hpool". iPureIntro. rewrite zlen_nil. split_and!; try done; pose proof kPieceCapacity_eq; lia. }
  iIntros (x) "(%w1 & -> & Hpool & Hsent)". rewrite bool_decide_true; [|done].
  iDestruct (sent_keeps with "Hsent") as "[[%Hs1 _] Hsent]". rewrite Hs in Hs1.
  iApply (launchRead_spec with "[$Hpool]"); [done|iPureIntro; lia|].
  iIntros (x) "(%l & %p & [%Ex %Hp] & Hl & Hpool)". subst x. iApply "HΦ". iExists w1, l, p.
  replace (o + (0 + 1) + 1) with (o + 2) by lia. by iFrame.
Qed.
End linked.
