(* ===== verification/EchoMain.v ===== *)
(** * The two example programs

    [_tmain] of [examples/echo/echo_server/echo_server/echo_server.cpp] and of
    [examples/echo/echo_client/echo_client/echo_client.cpp]: a loop, the server
    or the clients on it, the timer of [showInfo], and [loop.start()].

    While [loop.start()] runs, the handlers of the server or of the clients and
    the timer are interleaved by asio.  An exception of a handler leaves
    [loop.start()] and, since nothing catches it, ends the program. *)

From stdpp Require Import base tactics list numbers gmap strings relations ssreflect.
From Stdlib Require Import ZArith Lia.
From S2P Require Import Prelude Machine EventLoop ThreadPool TcpServer TcpClient TcpConn EchoApp.
From S2P Require EchoServer EchoClient.
#[local] Open Scope Z_scope.

(** What [runEvery] is given to call. *)
Definition Info : Type := H (Z * Z * Z).

(** ** A program in [loop.start()] *)
Section process.
Context {W : Type} (wstep : W -> W -> Prop).

(** The loop, the handler of the timer, the objects of the program, and the
    functors the timer has called. *)
Record Process := mkProcess {
  p_loop : EventLoop;
  p_timer : option (task Info);
  p_world : W;
  p_called : list Info
}.

(** The timer expires. *)
Definition expires (p : Process) : option (Process + Error) :=
  t ← p_timer p;
  Some match EventLoop.run_task t with
       | inl rs => inl (mkProcess (p_loop p) (waiting rs) (p_world p) (p_called p ++ calls rs))
       | inr e => inr e
       end.

Inductive process_step : Process -> Process -> Prop :=
  | step_world p w : wstep (p_world p) w ->
      process_step p (mkProcess (p_loop p) (p_timer p) w (p_called p))
  | step_timer p p' : expires p = Some (inl p') -> process_step p p'.

(** [loop.start()] on thread [this_thread], after [runEvery] made the requests
    [timer]; its requests [NewWork] and [Run] are what the steps are. *)
Definition run_loop (loop : EventLoop) (this_thread : Z) (timer : list (request Info)) (w : W) : Process :=
  mkProcess (EventLoop.start (Functor := Info) loop this_thread).1 (waiting timer) w [].

(** The timer armed by [runEvery]: before its first expiry and after it. *)
Definition armed (delay : Z) (f : Info) (p : Process) : Prop :=
  (p_called p = [] /\ p_timer p = Some (TEvery (EveryLambda NoTarget) 0 delay f)) \/
  (p_called p = [f] /\ p_timer p = Some (TEvery NoTarget 0 delay f)).

Lemma armed_run_loop loop th delay f w : armed delay f (run_loop loop th (runEvery 0 delay f) w).
Proof. by left. Qed.

Lemma armed_step delay f p p' : armed delay f p -> process_step p p' -> armed delay f p'.
Proof.
  intros Ha Hs. destruct Hs as [p w _|p p' E]; [done|].
  destruct Ha as [[Hc Ht]|[Hc Ht]]; rewrite /expires Ht in E; cbn in E; [|done].
  injection E as <-. right. cbn. by rewrite Hc.
Qed.

Lemma armed_steps delay f p p' : armed delay f p -> rtc process_step p p' -> armed delay f p'.
Proof. intros Ha Hs. induction Hs as [|p p1 p' H1 _ IH]; [done|]. by eapply IH, armed_step. Qed.

(** What the next expiry does. *)
Lemma armed_expires delay f p : armed delay f p ->
  (p_called p = [] /\ exists p', expires p = Some (inl p') /\ p_called p' = [f]) \/
  (p_called p = [f] /\ expires p = Some (inr BadFunctionCall)).
Proof.
  intros [[Hc Ht]|[Hc Ht]]; [left|right]; (split; [done|]); rewrite /expires Ht; [|done].
  eexists. split; [done|]. cbn. by rewrite Hc.
Qed.

(** The objects only move by their own steps. *)
Lemma process_world p p' : rtc process_step p p' -> rtc wstep (p_world p) (p_world p').
Proof.
  induction 1 as [|p p1 p' H1 _ IH]; [done|]. destruct H1 as [p w Hw|p p1 E].
  - by eapply rtc_l.
  - rewrite /expires in E. destruct (p_timer p); [|done]. cbn in E. case_match; [|done]. by injection E as <-.
Qed.
End process.
Arguments Process : clear implicits.

(** ** The server *)

(** [_tmain] of echo_server.cpp up to [loop.start()]; [s] are the counters of the
    server object. *)
Definition server_main (ndebug : bool) (this_thread : Z) (s : Counters) : Process TcpServer.World + Error :=
  let loop := EventLoop_new in
  match EchoServer.start ndebug s (TcpServer.mkWorld EchoServer.tcp_server_ [] ∅ []) with
  | inl (w, timer) => inl (run_loop loop this_thread timer w)
  | inr e => inr e
  end.

(** ** The client *)

(** [int connection_cnt = 10000] *)
Definition connection_cnt : nat := Z.to_nat 10000.

Lemma connection_cnt_Z : Z.of_nat connection_cnt = 10000.
Proof. by apply Z2Nat.id. Qed.

(** [_tmain] of echo_client.cpp up to [loop.start()]; [c] is the object
    [mgr_test]. *)
Definition client_main (this_thread : Z) (c : EchoClient.EchoClient) : Process (gmap Z ClientWorld) :=
  let loop := EventLoop_new in
  let '(clients, timer) := EchoClient.start c connection_cnt in
  run_loop loop this_thread timer clients.

(** Any client takes a step. *)
Definition clients_step (ndebug : bool) (ws ws' : gmap Z ClientWorld) : Prop :=
  exists i w ch w', ws !! i = Some w /\ client_step ndebug ch w = inl w' /\ ws' = <[i := w']> ws.

Lemma tcpClients_lookup n k i :
  EchoClient.tcpClients_ k n !! i =
    if decide (k <= i < k + Z.of_nat n) then Some (connect client_init) else None.
Proof.
  revert k. induction n as [|n IH]; intros k; cbn [EchoClient.tcpClients_].
  - rewrite lookup_empty decide_False //. lia.
  - rewrite lookup_insert. case_decide as Hi; [subst; rewrite decide_True //; lia|].
    rewrite IH. apply decide_ext. lia.
Qed.

(** Every client is in a state of a run of its own. *)
Definition client_reachable (ndebug : bool) (w : ClientWorld) : Prop :=
  exists chs, client_run ndebug chs client_init = inl w.

Lemma client_run_snoc ndebug chs ch w w1 w2 :
  client_run ndebug chs w = inl w1 -> client_step ndebug ch w1 = inl w2 -> client_run ndebug (chs ++ [ch]) w = inl w2.
Proof.
  revert w. induction chs as [|c chs IH]; intros w H1 H2; cbn in *.
  - injection H1 as ->. by rewrite H2.
  - destruct (client_step ndebug c w); [by apply IH|done].
Qed.

Definition clients_ok (ndebug : bool) (n : Z) (ws : gmap Z ClientWorld) : Prop :=
  (forall i, is_Some (ws !! i) <-> 0 <= i < n) /\ forall i w, ws !! i = Some w -> client_reachable ndebug w.

Lemma clients_ok_init ndebug n : clients_ok ndebug (Z.of_nat n) (EchoClient.tcpClients_ 0 n).
Proof.
  split; intros i; rewrite tcpClients_lookup.
  - case_decide; split; intros; [lia|done|by destruct H0|lia].
  - case_decide; [|done]. intros w [= <-]. by exists [KCallConnect].
Qed.

Lemma clients_ok_step ndebug n ws ws' : clients_ok ndebug n ws -> clients_step ndebug ws ws' -> clients_ok ndebug n ws'.
Proof.
  intros [Hd Hr] (i & w & ch & w' & Hi & E & ->). split.
  - intros j. rewrite -Hd lookup_insert. case_decide; [subst; rewrite Hi|done]. by split.
  - intros j w1. rewrite lookup_insert. case_decide; [|by apply Hr]. intros [= <-].
    destruct (Hr i w Hi) as [chs Hc]. exists (chs ++ [ch]). by eapply client_run_snoc.
Qed.

Lemma clients_ok_steps ndebug n ws ws' :
  clients_ok ndebug n ws -> rtc (clients_step ndebug) ws ws' -> clients_ok ndebug n ws'.
Proof. intros Ho Hs. induction Hs as [|ws ws1 ws' H1 _ IH]; [done|]. by eapply IH, clients_ok_step. Qed.

(** C38. Both example programs start, and both end at the second expiry of
    their one-second timer.  [_tmain] of the server starts without a failed
    assertion; from then on the server is in a state that [TcpServer] reaches
    (the clients, numbers 0 to 9999, each in a state of a run of its own), the
    timer always waits, and it has called [showInfo] at most once.  Its first
    expiry calls it; its second, whatever the connections did in between, calls
    an empty function, and the exception leaves [loop.start()] and [_tmain]. *)
Theorem echo_programs_end_at_second_tick (ndebug : bool) (this_thread : Z) (s : Counters)
    (c : EchoClient.EchoClient) :
  (exists p0, server_main ndebug this_thread s = inl p0 /\ loop_status_ (p_loop p0) = kRunning /\
     forall p, rtc (process_step (server_step ndebug)) p0 p ->
       server_reachable ndebug (p_world p) /\
       let showInfo := lift (EchoServer.showInfo s) in
       ((p_called p = [] /\ exists p', expires p = Some (inl p') /\ p_called p' = [showInfo]) \/
        (p_called p = [showInfo] /\ expires p = Some (inr BadFunctionCall)))) /\
  (let p0 := client_main this_thread c in
   loop_status_ (p_loop p0) = kRunning /\
   forall p, rtc (process_step (clients_step ndebug)) p0 p ->
     clients_ok ndebug 10000 (p_world p) /\
     let showInfo := lift (EchoClient.showInfo c) in
     ((p_called p = [] /\ exists p', expires p = Some (inl p') /\ p_called p' = [showInfo]) \/
      (p_called p = [showInfo] /\ expires p = Some (inr BadFunctionCall)))).
Proof.
  split.
  - destruct (TcpServer.start ndebug (TcpServer.mkWorld EchoServer.tcp_server_ [] ∅ [])) as [w0|] eqn:E;
      [|by vm_compute in E].
    exists (run_loop EventLoop_new this_thread (runEvery 0 one_second (lift (EchoServer.showInfo s))) w0).
    split; [by rewrite /server_main /EchoServer.start E|]. split; [done|]. intros p Hp. split.
    + exists 0%nat, w0. split; [done|]. exact (process_world _ _ _ Hp).
    + eapply armed_expires, armed_steps; [|exact Hp]. apply armed_run_loop.
  - rewrite /client_main -connection_cnt_Z. generalize connection_cnt. intros n.
    split; [done|]. intros p Hp. split.
    + eapply clients_ok_steps; [apply clients_ok_init|exact (process_world _ _ _ Hp)].
    + eapply armed_expires, armed_steps; [|exact Hp]. apply armed_run_loop.
Qed.
