(* ===== verification/Session.v ===== *)
(** * Two parties and the streams between them

    A client process and a server process, each with a memory of its own, joined
    by the two byte streams of one TCP connection.  A step runs a handler asio
    holds for one of the connections: a pending read takes any number of the
    bytes that have arrived, a pending write is reported done, a new connection
    is established.  What a handler hands to [async_send] is appended to the
    stream towards the other side.

    [async_send] may take fewer bytes than it is given; [carried] says what it
    takes.  The theorems hold when it takes everything; ShortSend shows what
    happens otherwise. *)

From stdpp Require Import base tactics list numbers gmap strings.
From iris.proofmode Require Import proofmode.
From Stdlib Require Import ZArith Lia QArith_base.
From S2P Require Import Prelude Machine HeapLogic Piece Buffer BufferSpec ConnBuffers Streams Varint.
From S2P Require Import CodedOutput CodedInput WireFormat Echo Codec CodecSpec EventLoop ThreadPool TcpServer.
From S2P Require Import TcpClient TcpConn TcpConnIO CodecConn Chunks Dispatcher EchoApp Party.
#[local] Open Scope Z_scope.

(** ** Processes *)
Abbreviation Process := (TcpConn.World * Mem)%type.

Section linked.
Context {LT : LinkedTypes}.

(** What asio passes to a handler, [k] bytes of what has arrived to a read; and
    what is left of it. *)
Definition task_input (t : conn_task) (k : Z) (incoming : list Z) : option (list Z * list Z) :=
  match t with
  | TRead _ =>
      if (0 <? k) && (k <=? zlen incoming) && (k <=? kPieceCapacity)
      then Some (take (Z.to_nat k) incoming, drop (Z.to_nat k) incoming) else None
  | _ => Some ([], incoming)
  end.

(** Running the [i]-th handler of a process: the process, the bytes left in the
    incoming stream and the bytes given to [async_send].  [None] when it cannot
    run now. *)
Definition process_step (A : Application) (i : nat) (k : Z) (s : Process) (incoming : list Z) :
    option ((Process * list Z * list Z) + Error) :=
  let '(w, m) := s in
  t ← w_pending w !! i;
  '(data, rest) ← task_input t k incoming;
  Some match app_handler A t ec_success data (mkWorld (w_conn w) (delete i (w_pending w)) (w_log w)) m with
       | Ok (_, w') m' => inl (w', m', rest, transmitted (drop (length (w_log w)) (w_log w')))
       | Err e => inr e
       end.

(** ** The session *)
Record Session := mkSession {
  client : Process;
  server : Process;
  to_server : list Z;
  to_client : list Z
}.

Inductive event := AtClient (i : nat) (k : Z) | AtServer (i : nat) (k : Z).

Section steps.
Context (carried : list Z -> list Z) (C S : Application).

Definition session_step (e : event) (s : Session) : option (Session + Error) :=
  match e with
  | AtClient i k =>
      r ← process_step C i k (client s) (to_client s);
      Some match r with
           | inl (p, rest, sent) => inl (mkSession p (server s) (to_server s ++ carried sent) rest)
           | inr e => inr e
           end
  | AtServer i k =>
      r ← process_step S i k (server s) (to_server s);
      Some match r with
           | inl (p, rest, sent) => inl (mkSession (client s) p rest (to_client s ++ carried sent))
           | inr e => inr e
           end
  end.

(** Both connections have been made; nothing has been transmitted. *)
Definition session_start (sc ss : Socket) (idc ids : Z) (mc ms : Mem) : Session :=
  mkSession (mkWorld (TCPConn_new sc idc) [TEstablished] [], mc) (mkWorld (TCPConn_new ss ids) [TEstablished] [], ms)
    [] [].

(** [n] steps from [s] to [s']. *)
Inductive session_run : nat -> Session -> Session -> Prop :=
  | run_none s : session_run 0 s s
  | run_step n s s' s'' e :
      session_run n s s' -> session_step e s' = Some (inl s'') -> session_run (Datatypes.S n) s s''.

(** Running a schedule; events that cannot happen are skipped. *)
Fixpoint session_play (es : list event) (s : Session) : Session + Error :=
  match es with
  | [] => inl s
  | e :: es =>
      match session_step e s with
      | Some (inl s) => session_play es s
      | Some (inr err) => inr err
      | None => session_play es s
      end
  end.
End steps.

(** The bytes each side has handed to asio. *)
Definition client_sent (s : Session) : list Z := transmitted (w_log (client s).1).
Definition server_sent (s : Session) : list Z := transmitted (w_log (server s).1).

(** ** Steps of the abstract parties

    [None] is a party whose connection is not established yet. *)
Section abstract.
Context (A : Application).

Inductive p_step : option Party -> list Z -> option Party -> list Z -> list Z -> Prop :=
  | p_step_start inc : p_step None inc (Some (p_start A).1) inc (p_start A).2
  | p_step_receive p data rest : data <> [] ->
      p_step (Some p) (data ++ rest) (Some (p_receive A p data).1) rest (p_receive A p data).2
  | p_step_written p inc : p_busy p = true ->
      p_step (Some p) inc (Some (p_written p).1) inc (p_written p).2.

(** The incoming bytes, and [lost] after them, complete the message the party is
    waiting for, and then nothing is queued. *)
Definition expects_more (lost : list Z) (p : option Party) (incoming : list Z) : Prop :=
  match p with
  | Some p => incoming <> [] -> p_part p ++ incoming ++ lost = frame (hears A (p_heard p)) /\ p_queue p = []
  | None => True
  end.
Definition expects : option Party -> list Z -> Prop := expects_more [].
End abstract.

(** ** Processes refine abstract parties *)
Section refinement.
Context `{HPeak : Peak} (Hfew : 8 <= kMaxUsing <= 10).
Context (A : Application) `{!ApplicationLaws A}.

Definition represents (s : Process) (p : option Party) : Prop :=
  match p with
  | None => w_pending s.1 = [TEstablished] /\ newborn (mkWorld (w_conn s.1) [] (w_log s.1)) /\
            owns s.2 (initially A ∗ pool 0)%I
  | Some p => owns s.2 (party A s.1 p)
  end.

(** The result of a handler that satisfies one of Party's specifications. *)
Lemma handler_result t data (rest : list Z) w0 w m p' sent : w_log w0 = w_log w ->
  owns m (wp no_error (app_handler A t ec_success data w0)
            (λ x, ∃ w', ⟪x = (tt, w') /\ adds w0 w' sent⟫ ∗ party A w' p')%I) ->
  exists s', represents s' (Some p') /\
    match app_handler A t ec_success data w0 m with
    | Ok (_, w') m' => inl (w', m', rest, transmitted (drop (length (w_log w)) (w_log w')))
    | Err e => inr e
    end = inl (s', rest, sent) :> _ + Error /\
    transmitted (w_log s'.1) = transmitted (w_log w) ++ sent.
Proof using Type.
  intros Hlog Hm. destruct (owns_run _ _ _ _ Hm (reflexivity _)) as (x & m' & -> & Ho).
  apply owns_exist in Ho as [w' Ho]. apply owns_pure in Ho as [[-> (evs & Hevs & Ht)] Ho].
  exists (w', m'). split; [done|]. cbn beta iota. rewrite Hevs Hlog drop_app_length Ht. split; [done|].
  cbn. by rewrite transmitted_app Ht.
Qed.
Lemma writes_cases p ws :
  writes p ws ⊢ ⟪(p_busy p = false /\ ws = []) \/ (p_busy p = true /\ exists ow l, ws = [TWrite ow (Some l)])⟫ ∗
                writes p ws.
Proof using Type.
  rewrite /writes. destruct (p_busy p).
  - iIntros "(%ow & %l & %q & [%Ew %Hq] & Hl)". iSplitR; [iPureIntro; right; eauto|]. iExists ow, l, q. by iFrame.
  - iIntros "->". iSplitR; [iPureIntro; by left|done].
Qed.

(** The handlers of a party: a read, and a write when it is busy. *)
Lemma party_tasks w p m i t : owns m (party A w p) -> w_pending w !! i = Some t ->
  exists l q ws, w_pending w ≡ₚ TRead l :: ws /\ empty_piece q /\
    owns m (l ↦ q ∗ writes p ws ∗ endpoint A w p ∗
            pool (1 + Z.b2z (p_busy p) + pieces (p_queue p) + pieces (p_part p)))%I /\
    ((t = TRead l /\ delete i (w_pending w) ≡ₚ ws) \/
     (p_busy p = true /\ exists ow r, t = TWrite ow r /\ ws = [t] /\ delete i (w_pending w) ≡ₚ [TRead l])).
Proof using Type.
  intros Ho Hi. apply owns_exist in Ho as [l Ho]. apply owns_exist in Ho as [q Ho].
  apply owns_exist in Ho as [ws Ho]. apply owns_pure in Ho as [[Hws Hq] Ho].
  eapply (owns_mono _ _ (⟪(p_busy p = false /\ ws = []) \/ (p_busy p = true /\ exists ow l, ws = [TWrite ow (Some l)])⟫ ∗
    l ↦ q ∗ writes p ws ∗ endpoint A w p ∗ pool (1 + Z.b2z (p_busy p) + pieces (p_queue p) + pieces (p_part p)))%I) in Ho.
  2: { iIntros "($ & Hws & $ & $)". by iApply writes_cases. }
  apply owns_pure in Ho as [Hcase Ho]. exists l, q, ws. split_and!; [done..|].
  assert (TRead l :: ws ≡ₚ t :: delete i (w_pending w)) as Hd.
  { etrans; [symmetry; exact Hws|by apply delete_Permutation]. }
  assert (t ∈ TRead l :: ws) as [->|Hin]%elem_of_cons.
  { rewrite -Hws. by eapply list_elem_of_lookup_2. }
  - left. split; [done|]. symmetry. by eapply Permutation_cons_inv.
  - right. destruct Hcase as [[_ ->]|(Hb & ow & r & ->)]; [by apply not_elem_of_nil in Hin|].
    apply list_elem_of_singleton in Hin as ->. split; [done|]. exists ow, (Some r). split_and!; [done..|].
    rewrite Permutation_swap in Hd. symmetry. by eapply Permutation_cons_inv.
Qed.

Lemma task_input_read l k incoming data rest : task_input (TRead l) k incoming = Some (data, rest) ->
  incoming = data ++ rest /\ 0 < zlen data.
Proof using Type.
  cbn. case_match eqn:E; [|done]. intros. simplify_eq. bool_cases. rewrite take_drop. split; [done|].
  rewrite zlen_take; lia.
Qed.

Lemma p_receive_waits p data rest : rest <> [] -> p_part p ++ data ++ rest = frame (hears A (p_heard p)) ->
  p_receive A p data = (mkParty (p_heard p) (p_part p ++ data) (p_busy p) (p_queue p), []).
Proof using Type.
  intros Hl Hf. rewrite /p_receive bool_decide_false //. rewrite -Hf app_assoc. intros E.
  apply (f_equal length) in E. rewrite !length_app in E. destruct rest; [done|cbn in E; lia].
Qed.

Lemma zlen_pos {B} (l : list B) : l <> [] -> 0 < zlen l.
Proof using Type. destruct l as [|x l]; [done|]. rewrite zlen_cons. pose proof (zlen_nonneg l). lia. Qed.

(** No handler fails, and what it does is a step of the abstract party. *)
Lemma process_step_refines i k s p incoming lost r :
  represents s p -> expects_more A lost p incoming -> process_step A i k s incoming = Some r ->
  exists s' rest sent p', r = inl (s', rest, sent) /\ represents s' p' /\ p_step A p incoming p' rest sent /\
    transmitted (w_log s'.1) = transmitted (w_log s.1) ++ sent.
Proof using Type*.
  destruct s as [w m]. intros Hrep Hexp. rewrite /process_step.
  destruct (w_pending w !! i) as [t|] eqn:Ei; [|done]. cbn [mbind option_bind].
  destruct (task_input t k incoming) as [[data rest]|] eqn:Et; [|done]. intros [= <-].
  set (w0 := mkWorld _ (delete i _) _). destruct p as [p|].
  - destruct (party_tasks w p m i t Hrep Ei) as (l & q & ws & Hws & Hq & Ho & [[-> Hdel]|(Hb & ow & r & -> & -> & Hdel)]).
    + apply task_input_read in Et as [-> Hd]. destruct Hexp as [Hf Hqu]; [by destruct data|].
      rewrite -app_assoc in Hf. destruct (decide (rest ++ lost = [])) as [[-> ->]%app_nil|Hleft].
      * rewrite !app_nil_r in Hf |- *.
        destruct (handler_result (TRead l) data [] w0 w m (p_receive A p data).1 (p_receive A p data).2)
          as (s' & Hs' & Er & Htr); [done| |].
        { eapply owns_mono; [|exact Ho]. iIntros "H". iApply (party_answers Hfew A w0 with "H"); try done. by iIntros. }
        exists s', [], (p_receive A p data).2, (Some (p_receive A p data).1). split_and!; try done.
        rewrite -{1}(app_nil_r data). constructor. by destruct data.
      * destruct (handler_result (TRead l) data rest w0 w m
          (mkParty (p_heard p) (p_part p ++ data) (p_busy p) (p_queue p)) []) as (s' & Hs' & Er & Htr); [done| |].
        { eapply owns_mono; [|exact Ho]. iIntros "H".
          iApply (party_waits Hfew A w0 _ _ _ _ _ (rest ++ lost) with "H"); try done; [by apply zlen_pos|]. by iIntros. }
        exists s', rest, [], (Some (p_receive A p data).1). rewrite (p_receive_waits p data (rest ++ lost)) //.
        split_and!; try done.
        pose proof (p_step_receive A p data rest) as Hstep. rewrite (p_receive_waits p data (rest ++ lost)) // in Hstep.
        apply Hstep. by destruct data.
    + cbn in Et. simplify_eq.
      destruct (handler_result (TWrite ow r) [] rest w0 w m (p_written p).1 (p_written p).2)
        as (s' & Hs' & Er & Htr); [done| |].
      { eapply owns_mono; [|exact Ho]. iIntros "H".
        iApply (party_writes_on Hfew A w0 with "H"); try done. by iIntros. }
      exists s', rest, (p_written p).2, (Some (p_written p).1). split_and!; try done. by constructor.
  - destruct Hrep as (Hp & Hnew & Ho). cbn in Hp. rewrite Hp in Ei.
    destruct i; [|done]. cbn in Ei. simplify_eq. cbn in Et. simplify_eq.
    destruct (handler_result TEstablished [] rest w0 w m (p_start A).1 (p_start A).2) as (s' & Hs' & Er & Htr); [done| |].
    { eapply owns_mono; [|exact Ho]. rewrite /w0 Hp. iIntros "H".
      iApply (party_starts Hfew A with "H"); [done|]. by iIntros. }
    exists s', rest, (p_start A).2, (Some (p_start A).1). split_and!; try done. constructor.
Qed.
End refinement.

(** ** Taking turns

    [x] has said the frame [f] and [y] has not answered yet: the frame waits in
    the output of [x] behind a write in flight, or it is divided between the
    stream and the input of [y]; everything else is empty. *)
Definition outstanding (x y : Party) (wire f : list Z) : Prop :=
  (p_busy x = true /\ p_queue x = f /\ wire = [] /\ p_part y = []) \/
  (p_queue x = [] /\ wire <> [] /\ p_part y ++ wire = f).

Definition turn (x y : Party) (wx wy f : list Z) : Prop :=
  f <> [] /\ outstanding x y wx f /\ p_part x = [] /\ wy = [] /\ p_queue y = [].

(** The one who has spoken can only finish writing. *)
Lemma turn_speaker A x y wx wy f x' wy' sent :
  turn x y wx wy f -> p_step A (Some x) wy x' wy' sent -> exists x1, x' = Some x1 /\
  turn x1 y (wx ++ sent) wy' f /\ p_heard x1 = p_heard x /\ sent ++ p_queue x1 = p_queue x.
Proof.
  intros (Hf & Ho & Hx & -> & Hy) Hs. inversion Hs as [|p data rest Hd|p inc Hb]; subst.
  - by destruct data.
  - eexists. split; [done|]. rewrite /turn /outstanding /=.
    destruct Ho as [(Hb' & Eq & -> & Hpy)|(Eq & Hw & Hpy)]; rewrite Eq.
    + rewrite app_nil_r Hpy. split_and!; try done. right. by rewrite app_nil_l.
    + rewrite app_nil_r. split_and!; try done. by right.
Qed.

(** The other one receives more, or answers, and then it is its turn. *)
Lemma turn_hearer A x y wx wy y' wx' sent :
  (forall k, frame (says A k) <> []) ->
  turn x y wx wy (frame (hears A (p_heard y))) -> p_step A (Some y) wx y' wx' sent -> exists y1, y' = Some y1 /\
  ((turn x y1 wx' (wy ++ sent) (frame (hears A (p_heard y))) /\ p_heard y1 = p_heard y /\
    sent = [] /\ p_queue y1 = p_queue y) \/
   (turn y1 x (wy ++ sent) wx' (frame (says A (p_heard y))) /\ p_heard y1 = Datatypes.S (p_heard y) /\
    p_queue x = [] /\ sent ++ p_queue y1 = frame (says A (p_heard y)))).
Proof.
  intros Hsays (Hf & Ho & Hx & -> & Hy) Hs. inversion Hs as [|p data rest Hd|p inc Hb]; subst; eexists; (split; [done|]).
  - destruct Ho as [(_ & _ & Hw & _)|(Hqx & Hw & Hpy)]; [by destruct data|]. rewrite /p_receive.
    rewrite app_assoc in Hpy. case_bool_decide as E.
    + right. assert (wx' = []) as ->.
      { rewrite -E in Hpy. by apply (app_inv_head (p_part y ++ data)); rewrite app_nil_r. }
      rewrite /turn /outstanding /p_say /=. destruct (p_busy y); cbn.
      * split_and!; try done. left. by split_and!.
      * rewrite app_nil_r. split_and!; try done. right. by rewrite Hx.
    + left. rewrite /turn /outstanding /=. split_and!; try done. right. split_and!; try done.
      intros ->. by rewrite app_nil_r in Hpy.
  - left. rewrite /turn /outstanding /= Hy. by split_and!.
Qed.

(** What the hearer may expect. *)
Lemma turn_expects A x y wx wy : turn x y wx wy (frame (hears A (p_heard y))) -> expects A (Some y) wx.
Proof. intros (_ & [(_ & _ & -> & _)|(_ & _ & Hp)] & _ & _ & Hq) Hne; [done|]. by rewrite app_nil_r. Qed.

Lemma turn_idle A x y wx wy f : turn x y wx wy f -> expects A (Some x) wy.
Proof. by intros (_ & _ & _ & -> & _). Qed.

(** A step costs something, and only sending pays for it. *)
Definition p_cost (p : option Party) : Z := match p with Some p => Z.b2z (p_busy p) | None => 1 end.

Lemma p_step_cost A p inc p' inc' sent :
  (forall k, frame (says A k) <> []) -> (forall m, greeting A = Some m -> frame m <> []) ->
  p_step A p inc p' inc' sent ->
  p_cost p' + zlen inc' + zlen sent + 1 <= p_cost p + zlen inc + 2 * zlen sent.
Proof.
  intros Hsays Hgreet Hs. destruct Hs as [inc|p data rest Hd|p inc Hb]; cbn [p_cost].
  - rewrite /p_start. destruct (greeting A) as [m|] eqn:E; cbn [fst snd p_busy p_say Z.b2z]; [|rewrite zlen_nil; lia].
    pose proof (zlen_pos _ (Hgreet m eq_refl)). lia.
  - pose proof (zlen_pos _ Hd). pose proof (zlen_pos _ (Hsays (p_heard p))). rewrite zlen_app /p_receive.
    case_bool_decide; cbn [fst snd p_busy]; [|rewrite zlen_nil; lia].
    rewrite /p_say. cbn [p_busy]. destruct (p_busy p); cbn [fst snd p_busy Z.b2z]; rewrite ?zlen_nil; lia.
  - rewrite Hb /=. case_bool_decide as E; cbn [Z.b2z]; [pose proof (zlen_pos _ E)|pose proof (zlen_nonneg (p_queue p))]; lia.
Qed.

(** ** The session keeps step *)
Section lockstep.
Context `{HPeak : Peak} (Hfew : 8 <= kMaxUsing <= 10).
Context (C S : Application) `{!ApplicationLaws C} `{!ApplicationLaws S}.

(** The client speaks first; each side expects what the other one says. *)
Record matching : Prop := {
  client_greets : greeting C = Some (hears S 0);
  server_waits : greeting S = None;
  client_says k : says C k = hears S (Datatypes.S k);
  server_says k : says S k = hears C k
}.
Context (Hmatch : matching).

(** The first [n] frames of either side. *)
Definition asked (n : nat) : list Z := concat ((λ k, frame (hears S k)) <$> seq 0 n).
Definition answered (n : nat) : list Z := concat ((λ k, frame (hears C k)) <$> seq 0 n).

Lemma asked_S n : asked (Datatypes.S n) = asked n ++ frame (hears S n).
Proof using Type. rewrite /asked seq_S fmap_app concat_app. f_equal. apply app_nil_r. Qed.

Lemma answered_S n : answered (Datatypes.S n) = answered n ++ frame (hears C n).
Proof using Type. rewrite /answered seq_S fmap_app concat_app. f_equal. apply app_nil_r. Qed.

Definition silent : Party := mkParty 0 [] false [].

(** The client's and the server's party, the streams, and what has been
    transmitted. *)
Inductive lockstep : option Party -> option Party -> list Z -> list Z -> list Z -> list Z -> Prop :=
  | ls_start os : os = None \/ os = Some silent -> lockstep None os [] [] [] []
  | ls_asked c os s k ts tc txc txs :
      s = default silent os -> p_heard c = k -> p_heard s = k ->
      turn c s ts tc (frame (hears S k)) -> txc ++ p_queue c = asked (Datatypes.S k) ->
      txs = answered k -> lockstep (Some c) os ts tc txc txs
  | ls_answered c s k ts tc txc txs :
      p_heard c = k -> p_heard s = Datatypes.S k ->
      turn s c tc ts (frame (hears C k)) -> txs ++ p_queue s = answered (Datatypes.S k) ->
      txc = asked (Datatypes.S k) -> lockstep (Some c) (Some s) ts tc txc txs.

Lemma frames_nonempty k : frame (hears S k) <> [] /\ frame (hears C k) <> [] /\
  frame (says S k) <> [] /\ frame (says C k) <> [].
Proof using All.
  split_and!; apply frame_nonempty; [apply app_hears_good|apply app_hears_good|apply app_says_good|apply app_says_good].
Qed.

Lemma lockstep_expects oc os ts tc txc txs : lockstep oc os ts tc txc txs ->
  expects C oc tc /\ expects S os ts.
Proof using Type.
  intros [os' Hos|c os' s k ts' tc0 txc' txs' -> Hc Hk Ht Htx Hts|c s k ts' tc0 txc' txs' Hc Hk Ht Htx Htc].
  - split; [done|]. by destruct Hos as [-> | ->].
  - split; [by eapply turn_idle|]. destruct os' as [s|]; [|done]. cbn in *. rewrite -Hk in Ht. by eapply turn_expects.
  - rewrite -Hc in Ht. split; [by eapply turn_expects|by eapply turn_idle].
Qed.

Lemma lockstep_client oc os ts tc txc txs oc' tc' sent : lockstep oc os ts tc txc txs ->
  p_step C oc tc oc' tc' sent -> lockstep oc' os (ts ++ sent) tc' (txc ++ sent) txs.
Proof using All.
  intros [os' Hos|c os' s k ts' tc0 txc' txs' Hs Hc Hk Ht Htx ->|c s k ts' tc0 txc' txs' Hc Hk Ht Htx ->] Hstep.
  - inversion Hstep; subst. rewrite /p_start (client_greets Hmatch) /=.
    assert (silent = default silent os') as Hd by by destruct Hos as [-> | ->].
    destruct (frames_nonempty 0) as (Hne & _). eapply (ls_asked _ _ silent 0); try done.
    split_and!; try done. by right.
  - destruct (turn_speaker C _ _ _ _ _ _ _ _ Ht Hstep) as (c1 & -> & Ht1 & Hh & Hq).
    eapply (ls_asked _ _ s k); try done; [by rewrite Hh|]. by rewrite -Htx -app_assoc Hq.
  - rewrite -Hc in Ht. destruct (turn_hearer C s c tc0 ts' _ _ _ (λ k, proj2 (proj2 (proj2 (frames_nonempty k)))) Ht Hstep)
      as (c1 & -> & [(Ht1 & Hh & -> & Hq)|(Ht1 & Hh & Hqs & Hq)]); rewrite Hc in Ht1.
    + rewrite !app_nil_r in Ht1 |- *. by eapply (ls_answered _ s k); [rewrite Hh| |done|..].
    + rewrite Hqs app_nil_r in Htx. rewrite (client_says Hmatch) in Ht1.
      eapply (ls_asked _ _ s (Datatypes.S k)); [done|by rewrite Hh Hc|done|done| |done].
      by rewrite -app_assoc Hq Hc (client_says Hmatch) -asked_S.
Qed.

Lemma lockstep_server oc os ts tc txc txs os' ts' sent : lockstep oc os ts tc txc txs ->
  p_step S os ts os' ts' sent -> lockstep oc os' ts' (tc ++ sent) txc (txs ++ sent).
Proof using All.
  intros [os0 Hos|c os0 s k ts0 tc0 txc' txs' Hs Hc Hk Ht Htx ->|c s k ts0 tc0 txc' txs' Hc Hk Ht Htx ->] Hstep.
  - destruct Hos as [-> | ->]; inversion Hstep as [|p data rest Hd|p inc Hb]; subst; [|by destruct data|done].
    rewrite /p_start (server_waits Hmatch) /=. apply ls_start. by right.
  - destruct os0 as [s0|]; cbn in Hs; subst s0 || subst s.
    + rewrite -Hk in Ht. destruct (turn_hearer S c s ts0 tc0 _ _ _ (λ k, proj1 (proj2 (proj2 (frames_nonempty k)))) Ht Hstep)
        as (s1 & -> & [(Ht1 & Hh & -> & Hq)|(Ht1 & Hh & Hqc & Hq)]); rewrite Hk in Ht1.
      * rewrite !app_nil_r in Ht1 |- *. eapply (ls_asked _ _ s1 k); try done. by rewrite Hh.
      * rewrite Hqc app_nil_r in Htx. rewrite (server_says Hmatch) in Ht1.
        eapply (ls_answered _ _ k); [done|by rewrite Hh Hk|done| |done].
        by rewrite -app_assoc Hq Hk (server_says Hmatch) -answered_S.
    + inversion Hstep as [inc E1 E2| |]; clear Hstep. rewrite /p_start (server_waits Hmatch) /= !app_nil_r.
      subst ts'. by apply (ls_asked _ _ silent k).
  - destruct (turn_speaker S _ _ _ _ _ _ _ _ Ht Hstep) as (s1 & -> & Ht1 & Hh & Hq).
    eapply (ls_answered _ _ k); try done; [by rewrite Hh|]. by rewrite -Htx -app_assoc Hq.
Qed.

(** What every reachable session of [n] steps satisfies. *)
Definition session_inv (n : nat) (x : Session) : Prop :=
  exists oc os, represents C (client x) oc /\ represents S (server x) os /\
    lockstep oc os (to_server x) (to_client x) (client_sent x) (server_sent x) /\
    Z.of_nat n + p_cost oc + p_cost os + zlen (to_server x) + zlen (to_client x) <=
      2 + 2 * (zlen (client_sent x) + zlen (server_sent x)).

Abbreviation step := (session_step (λ bs, bs) C S).
Abbreviation run := (session_run (λ bs, bs) C S).

Lemma greetings_nonempty m : (greeting C = Some m \/ greeting S = Some m) -> frame m <> [].
Proof using All. intros [Hm|Hm]; apply frame_nonempty; [by apply (app_greeting_good (A := C))|by apply (app_greeting_good (A := S))]. Qed.

Lemma session_step_inv n e x r : session_inv n x -> step e x = Some r ->
  exists x', r = inl x' /\ session_inv (Datatypes.S n) x'.
Proof using All.
  intros (oc & os & Hc & Hs & Hl & Hn) Hstep. destruct (lockstep_expects _ _ _ _ _ _ Hl) as [Hec Hes].
  rewrite /session_step in Hstep. destruct e as [i k|i k].
  - destruct (process_step C i k _ _) as [rc|] eqn:Ec; [|done]. cbn in Hstep. simplify_eq.
    destruct (process_step_refines Hfew C i k _ _ _ _ _ Hc Hec Ec) as (c' & inc & sent & oc' & -> & Hc' & Hp & Hlog).
    eexists. split; [done|]. exists oc', os. rewrite /client_sent /server_sent /=.
    rewrite /client_sent /server_sent in Hl, Hn. rewrite Hlog.
    split_and!; [done..|by eapply lockstep_client|].
    apply p_step_cost in Hp; [|apply frames_nonempty|intros; apply greetings_nonempty; by left].
    rewrite !zlen_app. lia.
  - destruct (process_step S i k _ _) as [rc|] eqn:Ec; [|done]. cbn in Hstep. simplify_eq.
    destruct (process_step_refines Hfew S i k _ _ _ _ _ Hs Hes Ec) as (s' & inc & sent & os' & -> & Hs' & Hp & Hlog).
    eexists. split; [done|]. exists oc, os'. rewrite /client_sent /server_sent /=.
    rewrite /client_sent /server_sent in Hl, Hn. rewrite Hlog.
    split_and!; [done..|by eapply lockstep_server|].
    apply p_step_cost in Hp; [|apply frames_nonempty|intros; apply greetings_nonempty; by right].
    rewrite !zlen_app. lia.
Qed.

Lemma session_run_inv n x y : session_inv 0 x -> run n x y -> session_inv n y.
Proof using All.
  intros Hx Hrun. induction Hrun as [|n x x' x'' e Hrun IH Hstep]; [done|].
  destruct (session_step_inv _ _ _ _ (IH Hx) Hstep) as (y & [= ->] & Hy). done.
Qed.

(** *** Some handler can always run *)
Lemma process_reads A s p incoming : owns s.2 (party A s.1 p) -> incoming <> [] ->
  exists i r, process_step A i 1 s incoming = Some r.
Proof using Type.
  destruct s as [w m]. intros Ho Hin. apply owns_exist in Ho as [l Ho]. apply owns_exist in Ho as [q Ho].
  apply owns_exist in Ho as [ws Ho]. apply owns_pure in Ho as [[Hws _] _]. cbn in Hws.
  assert (TRead l ∈ w_pending w) as [i Hi]%list_elem_of_lookup_1 by (rewrite Hws; left).
  exists i. eexists. rewrite /process_step Hi /=. pose proof (zlen_pos _ Hin).
  rewrite (proj2 (Z.leb_le 1 _)); [|lia]. rewrite (proj2 (Z.leb_le 1 kPieceCapacity)); [done|].
  rewrite kPieceCapacity_eq. lia.
Qed.

Lemma process_writes A s p incoming : owns s.2 (party A s.1 p) -> p_busy p = true ->
  exists i r, process_step A i 0 s incoming = Some r.
Proof using Type.
  destruct s as [w m]. intros Ho Hb. apply owns_exist in Ho as [l Ho]. apply owns_exist in Ho as [q Ho].
  apply owns_exist in Ho as [ws Ho]. apply owns_pure in Ho as [[Hws _] Ho]. cbn in Hws.
  eapply (owns_mono _ _ (⟪exists ow r, ws = [TWrite ow (Some r)]⟫ ∗ True)%I) in Ho.
  2: { iIntros "(_ & Hw & _)". rewrite writes_cases Hb. iDestruct "Hw" as "[%Hw _]". iSplitR; [|done].
       iPureIntro. by destruct Hw as [[??]|[_ ?]]. }
  apply owns_pure in Ho as [(ow & r & ->) _].
  assert (TWrite ow (Some r) ∈ w_pending w) as [i Hi]%list_elem_of_lookup_1 by (rewrite Hws; right; left).
  exists i. eexists. by rewrite /process_step Hi /=.
Qed.

Lemma process_starts A s incoming : represents A s None -> exists i r, process_step A i 0 s incoming = Some r.
Proof using Type. destruct s as [w m]. intros (Hp & _). exists 0%nat. eexists. cbn in Hp |- *. by rewrite Hp. Qed.

Lemma session_can_step n x : session_inv n x -> exists e r, step e x = Some r.
Proof using All.
  intros (oc & os & Hc & Hs & Hl & _).
  assert ((exists i k r, process_step C i k (client x) (to_client x) = Some r) \/
          (exists i k r, process_step S i k (server x) (to_server x) = Some r)) as Hcan.
  { destruct Hl as [os' Hos|c os' s k ts tc txc txs -> _ _ (_ & Ho & _) _ _|c s k ts tc txc txs _ _ (_ & Ho & _) _ _].
    - left. destruct (process_starts C (client x) [] Hc) as (i & r & E). eauto.
    - destruct Ho as [(Hb & _)|(_ & Hw & _)].
      + left. destruct (process_writes C (client x) c tc Hc Hb) as (i & r & E). eauto.
      + right. destruct os' as [s|].
        * destruct (process_reads S (server x) s ts Hs Hw) as (i & r & E). eauto.
        * destruct (process_starts S (server x) ts Hs) as (i & r & E). eauto.
    - destruct Ho as [(Hb & _)|(_ & Hw & _)].
      + right. destruct (process_writes S (server x) s ts Hs Hb) as (i & r & E). eauto.
      + left. destruct (process_reads C (client x) c tc Hc Hw) as (i & r & E). eauto. }
  destruct Hcan as [(i & k & r & E)|(i & k & r & E)]; [exists (AtClient i k)|exists (AtServer i k)];
    eexists; cbn [session_step]; by rewrite E.
Qed.

(** *** What has been transmitted *)

(** The messages a party has answered. *)
Definition heard (p : option Party) : nat := p_heard (default silent p).

Lemma lockstep_transmitted oc os ts tc txc txs : lockstep oc os ts tc txc txs ->
  exists nc ns, txc = asked nc /\ txs = answered ns /\ (ns <= heard os <= nc)%nat /\ (nc <= Datatypes.S ns)%nat.
Proof using Type.
  intros [os' Hos|c os' s k ts' tc0 txc' txs' -> _ Hk (_ & Ho & _) Htx ->|c s k ts' tc0 txc' txs' _ Hk (_ & Ho & _) Htx ->];
    rewrite /heard.
  - exists 0%nat, 0%nat. destruct Hos as [-> | ->]; cbn; split_and!; try done; lia.
  - rewrite Hk. destruct Ho as [(_ & Hq & _)|(Hq & _)]; rewrite Hq in Htx.
    + exists k, k. rewrite asked_S in Htx. apply app_inv_tail in Htx. split_and!; [done..|lia|lia|lia].
    + exists (Datatypes.S k), k. rewrite app_nil_r in Htx. split_and!; [done..|lia|lia|lia].
  - cbn [default from_option id]. rewrite Hk. destruct Ho as [(_ & Hq & _)|(Hq & _)]; rewrite Hq in Htx.
    + exists (Datatypes.S k), k. rewrite answered_S in Htx. apply app_inv_tail in Htx.
      split_and!; [done..|lia|lia|lia].
    + exists (Datatypes.S k), (Datatypes.S k). rewrite app_nil_r in Htx. split_and!; [done..|lia|lia|lia].
Qed.

(** The memory of a party, whatever else it holds. *)
Lemma represents_memory A s p : represents A s p ->
  owns s.2 ((match p with None => initially A | Some p => after A (p_heard p) end) ∗ True)%I.
Proof using Type.
  destruct p as [p|]; cbn [represents].
  - apply owns_mono. iIntros "(%l & %q & %ws & _ & _ & _ & (_ & _ & _ & $) & _)".
  - intros (_ & _ & Ho). revert Ho. apply owns_mono. iIntros "[$ _]".
Qed.

Lemma zlen_frames (f : nat -> AnyMessage) n : (forall k, fits (f k)) ->
  zlen (concat ((λ k, frame (f k)) <$> seq 0 n)) <= kPieceCapacity * Z.of_nat n.
Proof using Type.
  intros Hf. induction n as [|n IH]; [rewrite kPieceCapacity_eq; done|].
  rewrite seq_S fmap_app concat_app zlen_app. change (concat ((λ k, frame (f k)) <$> [(0 + n)%nat])) with (frame (f n) ++ []).
  destruct (Hf n) as [_ Hn]. rewrite app_nil_r. lia.
Qed.

(** The number of messages after [n] steps, and what the server's memory holds. *)
Lemma session_progress n x : session_inv n x ->
  exists nc ns os, client_sent x = asked nc /\ server_sent x = answered ns /\
    (ns <= heard os <= nc)%nat /\ (nc <= Datatypes.S ns)%nat /\
    Z.of_nat n <= 2 + 2 * kPieceCapacity * (2 * Z.of_nat ns + 1) /\
    owns (server x).2 ((match os with None => initially S | Some p => after S (p_heard p) end) ∗ True)%I.
Proof using All.
  intros (oc & os & _ & Hs & Hl & Hn). destruct (lockstep_transmitted _ _ _ _ _ _ Hl) as (nc & ns & Hnc & Hns & Hle).
  exists nc, ns, os. split_and!; try done; try lia; [|by apply represents_memory]. rewrite Hnc Hns in Hn.
  pose proof (zlen_frames (hears S) nc (λ k, proj1 (app_hears_good k))) as H1.
  pose proof (zlen_frames (hears C) ns (λ k, proj1 (app_hears_good k))) as H2.
  fold (asked nc) in H1. fold (answered ns) in H2.
  pose proof (zlen_nonneg (to_server x)). pose proof (zlen_nonneg (to_client x)).
  assert (0 <= p_cost oc) by (destruct oc as [c|]; cbn; [destruct (p_busy c)|]; cbn; lia).
  assert (0 <= p_cost os) by (destruct os as [c|]; cbn; [destruct (p_busy c)|]; cbn; lia).
  rewrite kPieceCapacity_eq in H1, H2 |- *. nia.
Qed.

(** Runs of any length exist. *)
Lemma session_runs_exist x n : session_inv 0 x -> exists y, run n x y.
Proof using All.
  intros Hx. induction n as [|n [y Hy]]; [exists x; constructor|].
  pose proof (session_run_inv _ _ _ Hx Hy) as Hinv. destruct (session_can_step _ _ Hinv) as (e & r & Hr).
  destruct (session_step_inv _ _ _ _ Hinv Hr) as (z & -> & _). exists z. by eapply run_step.
Qed.

Lemma session_start_inv sc ss idc ids mc ms :
  owns mc (initially C ∗ pool 0)%I -> owns ms (initially S ∗ pool 0)%I ->
  session_inv 0 (session_start sc ss idc ids mc ms).
Proof using Type.
  intros Hc Hs. exists None, None. split_and!.
  - split_and!; [done|by exists sc, idc|done].
  - split_and!; [done|by exists ss, ids|done].
  - apply ls_start. by left.
  - by vm_compute.
Qed.
End lockstep.
End linked.
