(* ===== verification/ShortSend.v ===== *)
(** * A session after a short send

    [async_send] may transmit fewer bytes than it is given, and [handleWrite]
    ignores how many it took.  From the first time that happens the party the
    bytes were meant for starves: it waits for the rest of a frame the other party
    considers sent.  What the session does from there on, for any application and
    any schedule: a bounded number of steps, none of which sends anything. *)

From stdpp Require Import base tactics list numbers gmap strings.
From iris.proofmode Require Import proofmode.
From Stdlib Require Import ZArith Lia QArith_base.
From S2P Require Import Prelude Machine HeapLogic Piece Buffer BufferSpec ConnBuffers Streams Varint.
From S2P Require Import CodedOutput CodedInput WireFormat Echo Codec CodecSpec EventLoop ThreadPool TcpServer.
From S2P Require Import TcpClient TcpConn TcpConnIO CodecConn Chunks Dispatcher EchoApp Party Session.
#[local] Open Scope Z_scope.

Section linked.
Context {LT : LinkedTypes}.

(** ** Processes that only wait for bytes *)
Definition only_reads (ts : list conn_task) : bool := forallb (λ t, match t with TRead _ => true | _ => false end) ts.

Definition at_rest (s : Process) : Prop :=
  only_reads (w_pending s.1) = true /\ status_ (w_conn s.1) = kConnected /\ is_sending_ (w_conn s.1) = false.

Definition deadlocked (x : Session) : Prop :=
  at_rest (client x) /\ at_rest (server x) /\ to_server x = [] /\ to_client x = [].

Lemma process_stalled A i k p : only_reads (w_pending p.1) = true -> process_step A i k p [] = None.
Proof using Type.
  destruct p as [w m]. cbn. intros Hr%Is_true_eq_left%forallb_True.
  destruct (w_pending w !! i) as [t|] eqn:Et; [|done]. cbn.
  apply (Forall_lookup_1 _ _ _ _ Hr) in Et as Ht. destruct t as [| | | | |l]; try done. cbn [task_input].
  rewrite zlen_nil. destruct (0 <? k) eqn:E1; [|done]. bool_cases. by rewrite (proj2 (Z.leb_gt k 0)).
Qed.

Lemma deadlocked_ends carried C S x e : deadlocked x -> session_step carried C S e x = None.
Proof using Type.
  intros ([Hc _] & [Hs _] & Hts & Htc). destruct e as [i k|i k]; cbn [session_step].
  - by rewrite Htc process_stalled.
  - by rewrite Hts process_stalled.
Qed.

Lemma party_rests `{HPeak : Peak} A s p : owns s.2 (party A s.1 p) -> p_busy p = false -> at_rest s.
Proof using Type.
  destruct s as [w m]. intros Ho Hb. apply owns_exist in Ho as [l Ho]. apply owns_exist in Ho as [q Ho].
  apply owns_exist in Ho as [ws Ho]. apply owns_pure in Ho as [[Hws _] Ho]. cbn [fst snd] in *.
  eapply (owns_mono _ _ (⟪ws = [] /\ conn_up w false⟫ ∗ True)%I) in Ho.
  2: { iIntros "(_ & Hw & ([%Hup _] & _) & _)". rewrite /writes Hb in Hup |- *. iDestruct "Hw" as "->". by iSplit. }
  apply owns_pure in Ho as [[-> (Hst & _ & Hs)] _]. apply Permutation_singleton_r in Hws. by rewrite /at_rest Hws.
Qed.

(** ** A party that starves

    [a] is done speaking; [b] waits for a frame whose last bytes [lost] will
    never come.  At most [m] steps are left. *)
Section starved.
Context `{HPeak : Peak} (Hfew : 8 <= kMaxUsing <= 10).
Context (A B : Application) `{!ApplicationLaws A} `{!ApplicationLaws B}.

Definition starved (m : Z) (a b : Process) (wire : list Z) : Prop :=
  exists p oq lost, lost <> [] /\ represents A a (Some p) /\ p_queue p = [] /\
    represents B b oq /\ (oq = None -> greeting B = None) /\ p_queue (default silent oq) = [] /\
    p_part (default silent oq) ++ wire ++ lost = frame (hears B (p_heard (default silent oq))) /\
    p_cost (Some p) + p_cost oq + zlen wire <= m.

Lemma starved_speaker m i k a b wire r : starved m a b wire -> process_step A i k a [] = Some r ->
  exists a', r = inl (a', [], []) /\ starved (m - 1) a' b wire /\ transmitted (w_log a'.1) = transmitted (w_log a.1).
Proof using Hfew ApplicationLaws0.
  intros (p & oq & lost & Hl & Ha & Hp & Hb & Hg & Hq & Hf & Hm) E.
  destruct (process_step_refines Hfew A i k a (Some p) [] [] r Ha) as (a' & rest & sent & p' & -> & Ha' & Hs & Hlog); [done..|].
  inversion Hs as [|? data ? Hd Ed|? ? Hbusy]; subst.
  - by destruct data.
  - rewrite /p_written Hp in Ha', Hlog |- *. cbn [fst snd] in *. rewrite app_nil_r in Hlog.
    exists a'. split; [done|]. split; [|exact Hlog]. eexists _, oq, lost. split_and!; try done.
    cbn [p_cost p_busy] in *. rewrite Hbusy in Hm. rewrite bool_decide_false; [|by intros []]. cbn [Z.b2z] in *. lia.
Qed.

Lemma starved_hearer m i k a b wire r : starved m a b wire -> process_step B i k b wire = Some r ->
  exists b' wire', r = inl (b', wire', []) /\ starved (m - 1) a b' wire' /\
    transmitted (w_log b'.1) = transmitted (w_log b.1).
Proof using Hfew ApplicationLaws1.
  intros (p & oq & lost & Hl & Ha & Hp & Hb & Hg & Hq & Hf & Hm) E.
  destruct (process_step_refines Hfew B i k b oq wire lost r Hb) as (b' & rest & sent & p' & -> & Hb' & Hs & Hlog); [|done|].
  { destruct oq as [q|]; [|done]. by intros _. }
  inversion Hs as [|q data ? Hd|q ? Hbusy]; subst; cbn [default from_option id] in *.
  - rewrite /p_start (Hg eq_refl) in Hb', Hlog |- *. cbn [fst snd] in *. rewrite app_nil_r in Hlog.
    exists b', rest. split; [done|]. split; [|done]. eexists p, (Some silent), lost. split_and!; try done.
    cbn [p_cost p_busy silent Z.b2z] in *. lia.
  - assert (rest ++ lost <> []) as Hne by (by intros [_ ?]%app_nil).
    rewrite -app_assoc in Hf. rewrite (p_receive_waits B q data _ Hne Hf) in Hb', Hlog |- *. cbn [fst snd] in *.
    rewrite app_nil_r in Hlog. exists b', rest. split; [done|]. split; [|done].
    eexists p, (Some _), lost. split_and!; try done; [by rewrite /= -app_assoc|].
    pose proof (zlen_pos _ Hd). rewrite zlen_app in Hm. cbn [p_cost p_busy] in *. lia.
  - rewrite /p_written Hq in Hb', Hlog |- *. cbn [fst snd] in *. rewrite app_nil_r in Hlog.
    exists b', rest. split; [done|]. split; [|done]. eexists p, (Some _), lost. split_and!; try done.
    cbn [p_cost p_busy] in *. rewrite Hbusy in Hm. rewrite bool_decide_false; [|by intros []]. cbn [Z.b2z] in *. lia.
Qed.

Lemma starved_positive m a b wire : starved m a b wire -> 0 <= m.
Proof using Type.
  intros (p & oq & lost & _ & _ & _ & _ & _ & _ & _ & Hm). pose proof (zlen_nonneg wire).
  assert (0 <= p_cost oq) by (destruct oq as [q|]; cbn; [destruct (p_busy q)|]; cbn; lia).
  cbn in Hm. destruct (p_busy p); cbn in Hm; lia.
Qed.

Lemma starved_goes_on m a b wire : starved m a b wire ->
  (exists i k r, process_step A i k a [] = Some r) \/ (exists i k r, process_step B i k b wire = Some r) \/
  (at_rest a /\ at_rest b /\ wire = []).
Proof using Type.
  intros (p & oq & lost & _ & Ha & _ & Hb & _).
  destruct (p_busy p) eqn:Ep; [left; destruct (process_writes A a p [] Ha Ep) as (i & r & E); eauto|].
  destruct oq as [q|]; [|right; left; destruct (process_starts B b wire Hb) as (i & r & E); eauto].
  destruct (p_busy q) eqn:Eq; [right; left; destruct (process_writes B b q wire Hb Eq) as (i & r & E); eauto|].
  destruct (decide (wire = [])) as [->|Hw]; [|right; left; destruct (process_reads B b q wire Hb Hw) as (i & r & E); eauto].
  right; right. split_and!; [by eapply party_rests|by eapply party_rests|done].
Qed.
End starved.

(** ** The session after the first short send *)
Section session.
Context `{HPeak : Peak} (Hfew : 8 <= kMaxUsing <= 10).
Context (C S : Application) `{!ApplicationLaws C} `{!ApplicationLaws S} (Hmatch : matching C S).

(** After [n] steps of the session one of its parties starves. *)
Definition short (n : nat) (x : Session) : Prop := exists m,
  (starved C S m (client x) (server x) (to_server x) /\ to_client x = [] \/
   starved S C m (server x) (client x) (to_client x) /\ to_server x = []) /\
  Z.of_nat n + m <= 2 + 2 * (zlen (client_sent x) + zlen (server_sent x)).

Lemma lockstep_lost_request oc os w lost tc txc txs : lockstep C S oc os (w ++ lost) tc txc txs -> lost <> [] ->
  tc = [] /\ p_queue (default silent os) = [] /\
  p_part (default silent os) ++ w ++ lost = frame (hears S (p_heard (default silent os))) /\
  exists c, oc = Some c /\ p_queue c = [].
Proof using Type.
  intros Hl Hne. assert (w ++ lost <> []) as Hw by (by intros [_ ?]%app_nil).
  inversion Hl as [os' Hos|c os' s k ts tc' ? ? -> Hc Hk (_ & Ho & _ & Htc & Hq)|c s k ts tc' ? ? Hc Hk (_ & _ & _ & Hts & _)]; subst; try congruence.
  destruct Ho as [(_ & _ & ? & _)|(Hqc & _ & Hf)]; [done|]. split_and!; [done..|by rewrite Hf Hk|by exists c].
Qed.

Lemma lockstep_lost_response oc os ts w lost txc txs : lockstep C S oc os ts (w ++ lost) txc txs -> lost <> [] ->
  ts = [] /\ exists c s, oc = Some c /\ os = Some s /\ p_queue c = [] /\ p_queue s = [] /\
    p_part c ++ w ++ lost = frame (hears C (p_heard c)).
Proof using Type.
  intros Hl Hne. assert (w ++ lost <> []) as Hw by (by intros [_ ?]%app_nil).
  inversion Hl as [os' Hos|c os' s k ts' tc' ? ? -> Hc Hk (_ & _ & _ & Htc & _)|c s k ts' tc' ? ? Hc Hk (_ & Ho & _ & Hts & Hq)]; subst; try congruence.
  split; [done|]. destruct Ho as [(_ & _ & ? & _)|(Hqs & _ & Hf)]; [done|]. exists c, s. by split_and!.
Qed.

(** What [carried] leaves of the bytes, if not all. *)
Lemma carried_lost (carried : list Z -> list Z) bs : carried bs `prefix_of` bs -> carried bs <> bs ->
  exists lost, bs = carried bs ++ lost /\ lost <> [].
Proof using Type. intros [lost Hl] Hne. exists lost. split; [done|]. intros ->. by rewrite app_nil_r in Hl. Qed.

Abbreviation full_step := (session_step (λ bs, bs) C S).

(** The two processes do the same, however much is taken. *)
Lemma step_processes carried e x x1 : session_step carried C S e x = Some (inl x1) ->
  exists y, full_step e x = Some (inl y) /\ client y = client x1 /\ server y = server x1.
Proof using Type.
  destruct e as [i k|i k]; cbn [session_step];
    (destruct (process_step _ i k _ _) as [[[[a rest] sent]|err]|]; [|done..]); cbn; intros; simplify_eq; by eexists.
Qed.

Lemma short_send_starves carried n e x x1 : session_inv C S n x -> (forall bs, carried bs `prefix_of` bs) ->
  session_step carried C S e x = Some (inl x1) -> session_step carried C S e x <> full_step e x ->
  short (Datatypes.S n) x1.
Proof using All.
  intros Hinv Hpre Hstep Hcut. destruct e as [i k|i k]; cbn [session_step] in Hstep, Hcut.
  - destruct (process_step C i k _ _) as [[[[a rest] sent]|err]|] eqn:Ec; [|done..]. cbn in Hstep, Hcut. simplify_eq.
    destruct (carried_lost carried sent (Hpre _)) as (lost & Hs & Hlost); [by intros E; rewrite E in Hcut|].
    destruct (session_step_inv Hfew C S Hmatch n (AtClient i k) x
      (inl (mkSession a (server x) (to_server x ++ sent) rest)) Hinv) as (y & E & oc & os & Hc & Hv & Hl & Hn).
    { cbn [session_step]. by rewrite Ec. }
    simplify_eq. rewrite /client_sent /server_sent /= in Hc, Hv, Hl, Hn. rewrite {1}Hs app_assoc in Hl.
    destruct (lockstep_lost_request _ _ _ _ _ _ _ Hl Hlost) as (-> & Hqs & Hf & c & -> & Hqc).
    exists (p_cost (Some c) + p_cost os + zlen (to_server x ++ carried sent)).
    split; [left; split; [|done]; exists c, os, lost; split_and!; try done; by intros; apply Hmatch|].
    rewrite /client_sent /server_sent. cbn [client server to_server] in *. rewrite Hs app_assoc zlen_app zlen_nil in Hn.
    pose proof (zlen_nonneg lost). lia.
  - destruct (process_step S i k _ _) as [[[[a rest] sent]|err]|] eqn:Ec; [|done..]. cbn in Hstep, Hcut. simplify_eq.
    destruct (carried_lost carried sent (Hpre _)) as (lost & Hs & Hlost); [by intros E; rewrite E in Hcut|].
    destruct (session_step_inv Hfew C S Hmatch n (AtServer i k) x
      (inl (mkSession (client x) a rest (to_client x ++ sent))) Hinv) as (y & E & oc & os & Hc & Hv & Hl & Hn).
    { cbn [session_step]. by rewrite Ec. }
    simplify_eq. rewrite /client_sent /server_sent /= in Hc, Hv, Hl, Hn. rewrite {1}Hs app_assoc in Hl.
    destruct (lockstep_lost_response _ _ _ _ _ _ _ Hl Hlost) as (-> & c & s & -> & -> & Hqc & Hqs & Hf).
    exists (p_cost (Some s) + p_cost (Some c) + zlen (to_client x ++ carried sent)).
    split; [right; split; [|done]; exists s, (Some c), lost; by split_and!|].
    rewrite /client_sent /server_sent. cbn [client server to_client] in *. rewrite Hs app_assoc zlen_app zlen_nil in Hn.
    pose proof (zlen_nonneg lost). lia.
Qed.

Lemma short_step carried n e x r : short n x -> carried [] = [] -> session_step carried C S e x = Some r ->
  exists x', r = inl x' /\ short (Datatypes.S n) x' /\ client_sent x' = client_sent x /\ server_sent x' = server_sent x.
Proof using Hfew ApplicationLaws0 ApplicationLaws1.
  intros (m & Hcase & Hn) Hnil Hstep. destruct e as [i k|i k]; cbn [session_step] in Hstep.
  - destruct (process_step C i k _ _) as [rc|] eqn:Ec; [|done]. cbn in Hstep. simplify_eq.
    destruct Hcase as [[Hst Htc]|[Hst Hts]].
    + rewrite Htc in Ec. destruct (starved_speaker Hfew C S _ _ _ _ _ _ _ Hst Ec) as (a & -> & Hst' & Hlog).
      eexists. split; [done|]. rewrite /short /client_sent /server_sent /= Hlog Hnil app_nil_r.
      split; [|done]. exists (m - 1). split; [by left|]. rewrite /client_sent /server_sent in Hn. lia.
    + destruct (starved_hearer Hfew S C _ _ _ _ _ _ _ Hst Ec) as (a & wire & -> & Hst' & Hlog).
      eexists. split; [done|]. rewrite /short /client_sent /server_sent /= Hlog Hnil app_nil_r.
      split; [|done]. exists (m - 1). split; [by right|]. rewrite /client_sent /server_sent in Hn. lia.
  - destruct (process_step S i k _ _) as [rc|] eqn:Ec; [|done]. cbn in Hstep. simplify_eq.
    destruct Hcase as [[Hst Htc]|[Hst Hts]].
    + destruct (starved_hearer Hfew C S _ _ _ _ _ _ _ Hst Ec) as (a & wire & -> & Hst' & Hlog).
      eexists. split; [done|]. rewrite /short /client_sent /server_sent /= Hlog Hnil app_nil_r.
      split; [|done]. exists (m - 1). split; [by left|]. rewrite /client_sent /server_sent in Hn. lia.
    + rewrite Hts in Ec. destruct (starved_speaker Hfew S C _ _ _ _ _ _ _ Hst Ec) as (a & -> & Hst' & Hlog).
      eexists. split; [done|]. rewrite /short /client_sent /server_sent /= Hlog Hnil app_nil_r.
      split; [|done]. exists (m - 1). split; [by right|]. rewrite /client_sent /server_sent in Hn. lia.
Qed.

Lemma short_run carried k n x y : carried [] = [] -> short n x -> session_run carried C S k x y ->
  short (n + k) y /\ client_sent y = client_sent x /\ server_sent y = server_sent x.
Proof using Hfew ApplicationLaws0 ApplicationLaws1.
  intros Hnil Hx. induction 1 as [|k x x' y e _ IH Hstep]; [by rewrite Nat.add_0_r|].
  destruct (IH Hx) as (Hs & <- & <-). destruct (short_step _ _ _ _ _ Hs Hnil Hstep) as (z & [= ->] & Hz & Hc & Hv).
  by rewrite Nat.add_succ_r.
Qed.

(** A session of [n] steps that is short has not had many more, and either it
    has a step to take or it is over. *)
Lemma short_bound n x : short n x -> Z.of_nat n <= 2 + 2 * (zlen (client_sent x) + zlen (server_sent x)).
Proof using Type. intros (m & [[Hm%starved_positive _]|[Hm%starved_positive _]] & Hn); lia. Qed.

Lemma short_ends carried n x : short n x -> carried [] = [] ->
  (exists e x', session_step carried C S e x = Some (inl x')) \/ deadlocked x.
Proof using Hfew ApplicationLaws0 ApplicationLaws1.
  intros Hx Hnil. pose proof Hx as (m & Hcase & _).
  assert ((exists e r, session_step carried C S e x = Some r) \/ deadlocked x) as [(e & r & E)|Hd]; [|left|by right].
  { destruct Hcase as [[Hst Htc]|[Hst Hts]]; destruct (starved_goes_on _ _ _ _ _ _ Hst) as [(i & k & r & E)|[(i & k & r & E)|(? & ? & ?)]].
    - left. exists (AtClient i k). cbn [session_step]. rewrite Htc E. eauto.
    - left. exists (AtServer i k). cbn [session_step]. rewrite E. eauto.
    - by right.
    - left. exists (AtServer i k). cbn [session_step]. rewrite Hts E. eauto.
    - left. exists (AtClient i k). cbn [session_step]. rewrite E. eauto.
    - by right. }
  destruct (short_step _ _ _ _ _ Hx Hnil E) as (x' & -> & _). by exists e, x'.
Qed.
End session.
End linked.
