(* ===== verification/EchoSession.v ===== *)
(** * A session of the echo client and the echo server

    [EchoClient] and [EchoServer] as the two parties of Session: what the whole
    program does on one TCP connection, from the start of both processes. *)

From stdpp Require Import base tactics list numbers gmap strings.
From iris.proofmode Require Import proofmode.
From Stdlib Require Import ZArith Lia QArith_base.
From S2P Require Import Prelude Machine HeapLogic Piece Buffer BufferSpec ConnBuffers Streams Varint.
From S2P Require Import CodedOutput CodedInput WireFormat Utf8 Echo Codec CodecSpec EventLoop ThreadPool TcpServer.
From S2P Require Import TcpClient TcpConn TcpConnIO CodecConn Chunks Dispatcher EchoApp Party Session ShortSend EchoServer EchoClient.
#[local] Open Scope Z_scope.

(** A side of the session never has more than five pieces. *)
Definition session_peak : Peak.
Proof. by refine (mkPeak 10 _). Defined.

Lemma few : 8 <= @kMaxUsing session_peak <= 10.
Proof. done. Qed.

(** The messages of the session, from number 0. *)
Definition request (k : nat) : Request := make_request (Z.of_nat k) (replicate 1024 97).
Definition response (k : nat) : Response := response_to (request k).

Lemma request_is_small k : small (request k).
Proof.
  rewrite /small /echo_ok. pose proof (swrap_bound 64 (Z.of_nat k)). split_and!; try done; [cbn; lia..| |].
  - apply Forall_replicate. rewrite /is_byte. lia.
  - apply is_utf8_ascii, Forall_replicate. lia.
Qed.

Lemma int64_succ k : int64 (int64 k + 1) = int64 (k + 1).
Proof. rewrite -(swrap_wrap 64 (int64 k + 1)) -wrap_add_l wrap_swrap wrap_add_l. apply swrap_wrap. Qed.

Section linked.
Context {LT : LinkedTypes}.

(** ** The server as a party *)
Definition server_app (s : Counters) (close_cb : H unit) : Application := {|
  on_connection := EchoServer.onConnectionCallback s;
  on_message := onProtobufMessage (EchoServer.dispatcher_ s);
  on_error := defaultErrorCallback;
  on_close := close_cb;
  initially := (connection_cnt_ s ↦ₐ 0 ∗ last_second_recv_cnt_ s ↦ₐ 0 ∗ total_recv_cnt_ s ↦ₐ 0)%I;
  after k := (connection_cnt_ s ↦ₐ 1 ∗ last_second_recv_cnt_ s ↦ₐ int64 k ∗ total_recv_cnt_ s ↦ₐ int64 k)%I;
  greeting := None;
  hears k := MRequest (request k);
  says k := MResponse (response k)
|}.

Lemma server_app_laws s close_cb : ApplicationLaws (server_app s close_cb).
Proof.
  split.
  - iIntros (w Φ Hst) "(Hc & Ha & Ht) HΦ". cbn. rewrite /EchoServer.onConnectionCallback. h_get.
    rewrite /isConnected Hst bool_decide_true //. rewrite /ignore. h_lift.
    iApply (wp_fetch_add with "Hc"). iIntros "Hc". iApply "HΦ". iFrame.
  - iIntros (k w Φ) "(Hc & Ha & Ht) HΦ". cbn [on_message hears says server_app].
    change (onProtobufMessage _ (MRequest (request k))) with (onRequest s (request k)).
    rewrite /onRequest /count_received. h_lift. wp_bind. iApply (wp_fetch_add with "Ha"). iIntros "Ha".
    wp_bind. iApply (wp_fetch_add with "Ht"). iIntros "Ht". wp_ret. iApply "HΦ". cbn [after server_app].
    rewrite !int64_succ. replace (Z.of_nat k + 1) with (Z.of_nat (S k)) by lia. iFrame.
  - done.
  - intros k. apply request_fits, request_is_small.
  - intros k. apply response_fits, response_small, request_is_small.
Qed.

(** ** The client as a party *)
Definition client_app (c : EchoClient) (close_cb : H unit) : Application := {|
  on_connection := EchoClient.onConnectionCallback c;
  on_message := onProtobufMessage (EchoClient.dispatcher_ c 1);
  on_error := defaultErrorCallback;
  on_close := close_cb;
  initially := (next_request_id_ c ↦ₐ 0 ∗ connection_cnt_ (counters c) ↦ₐ 0 ∗
    last_second_recv_cnt_ (counters c) ↦ₐ 0 ∗ total_recv_cnt_ (counters c) ↦ₐ 0)%I;
  after k := (next_request_id_ c ↦ₐ wrap64 (k + 1) ∗ connection_cnt_ (counters c) ↦ₐ 1 ∗
    last_second_recv_cnt_ (counters c) ↦ₐ int64 k ∗ total_recv_cnt_ (counters c) ↦ₐ int64 k)%I;
  greeting := Some (MRequest (request 0));
  hears k := MResponse (response k);
  says k := MRequest (request (S k))
|}.

Lemma make_request_wrap i ask : make_request (wrap64 i) ask = make_request i ask.
Proof. by rewrite /make_request swrap_wrap. Qed.

Lemma client_app_laws c close_cb : fix_data_ c = replicate 1024 97 -> ApplicationLaws (client_app c close_cb).
Proof.
  intros Hfix. split.
  - iIntros (w Φ Hst) "(Hi & Hc & Ha & Ht) HΦ". cbn. rewrite /EchoClient.onConnectionCallback. h_get.
    rewrite /isConnected Hst bool_decide_true //. h_lift. iApply (wp_fetch_add with "Hc"). iIntros "Hc".
    rewrite /send_request. h_lift. iApply (wp_fetch_add with "Hi"). iIntros "Hi". rewrite Hfix. iApply "HΦ". iFrame.
  - iIntros (k w Φ) "(Hi & Hc & Ha & Ht) HΦ". cbn [on_message hears says client_app].
    rewrite client_dispatches /onResponse /count_received. h_lift. wp_bind.
    iApply (wp_fetch_add with "Ha"). iIntros "Ha". wp_bind. iApply (wp_fetch_add with "Ht"). iIntros "Ht". wp_ret.
    rewrite /send_request. h_lift. iApply (wp_fetch_add with "Hi"). iIntros "Hi".
    rewrite make_request_wrap wrap_add_l.
    replace (Z.of_nat k + 1) with (Z.of_nat (S k)) by lia. iApply "HΦ". cbn [after client_app].
    rewrite !int64_succ. replace (Z.of_nat k + 1) with (Z.of_nat (S k)) by lia. iFrame.
  - intros m [= <-]. apply request_fits, request_is_small.
  - intros k. apply response_fits, response_small, request_is_small.
  - intros k. apply request_fits, request_is_small.
Qed.

Lemma echo_matching c s cc sc : matching (client_app c cc) (server_app s sc).
Proof. by split. Qed.

(** ** The two processes start *)
Lemma Counters_new_spec : {{ emp }} Counters_new
  {{ s, connection_cnt_ s ↦ₐ 0 ∗ last_second_recv_cnt_ s ↦ₐ 0 ∗ total_recv_cnt_ s ↦ₐ 0 }}.
Proof.
  iIntros (Φ) "_ HΦ". rewrite /Counters_new. wp_bind. iApply wp_new_atomic. iIntros (a) "Ha".
  wp_bind. iApply wp_new_atomic. iIntros (b) "Hb". wp_bind. iApply wp_new_atomic. iIntros (d) "Hd".
  wp_ret. iApply "HΦ". iFrame.
Qed.

Lemma server_ready `{HPeak : Peak} fill ndebug s m close_cb :
  Counters_new (init_mem fill ndebug) = Ok s m -> owns m (initially (server_app s close_cb) ∗ pool 0)%I.
Proof.
  intros Hs. destruct (owns_run Counters_new (pool 0) (λ s, initially (server_app s close_cb) ∗ pool 0)%I
    (init_mem fill ndebug)) as (s' & m' & E & Ho); [apply init_owns| |rewrite E in Hs; by simplify_eq].
  iIntros "Hpool". iApply Counters_new_spec; [done|]. iIntros (s') "H". iFrame.
Qed.

Lemma client_ready `{HPeak : Peak} fill ndebug c m close_cb :
  EchoClient_new (init_mem fill ndebug) = Ok c m ->
  owns m (initially (client_app c close_cb) ∗ pool 0)%I /\ fix_data_ c = replicate 1024 97.
Proof.
  intros Hc. destruct (owns_run EchoClient_new (pool 0)
    (λ c, ⟪fix_data_ c = replicate 1024 97⟫ ∗ initially (client_app c close_cb) ∗ pool 0)%I (init_mem fill ndebug))
    as (c' & m' & E & Ho); [apply init_owns| |].
  - iIntros "Hpool". rewrite /EchoClient_new. wp_bind. iApply wp_new_atomic. iIntros (i) "Hi". wp_bind.
    iApply Counters_new_spec; [done|]. iIntros (s') "H". wp_ret. iSplitR; [done|]. by iFrame.
  - apply owns_pure in Ho as [Hfix Ho]. rewrite E in Hc. by simplify_eq.
Qed.

(** ** Claims *)
Section claims.
Context (close_c close_s : H unit) (sock_c sock_s : Socket) (id_c id_s : Z).
Context (fill_c fill_s : loc -> nat -> Z) (ndebug_c ndebug_s : bool).
Context (c : EchoClient) (s : Counters) (m_c m_s : Mem).

(** The frames of the first [n] requests and responses. *)
Definition requests (n : nat) : list Z := concat ((λ k, frame (MRequest (request k))) <$> seq 0 n).
Definition responses (n : nat) : list Z := concat ((λ k, frame (MResponse (response k))) <$> seq 0 n).

(** Both processes have started and the connection has been made. *)
Definition echo_start : Session := session_start sock_c sock_s id_c id_s m_c m_s.
Definition echo_step (carried : list Z -> list Z) : event -> Session -> option (Session + Error) :=
  session_step carried (client_app c close_c) (server_app s close_s).
Definition echo_run : nat -> Session -> Session -> Prop :=
  session_run (λ bs, bs) (client_app c close_c) (server_app s close_s).

Lemma echo_inv n x :
  EchoClient_new (init_mem fill_c ndebug_c) = Ok c m_c -> Counters_new (init_mem fill_s ndebug_s) = Ok s m_s ->
  echo_run n echo_start x ->
  ApplicationLaws (client_app c close_c) /\
  session_inv (HPeak := session_peak) (client_app c close_c) (server_app s close_s) n x.
Proof using Type.
  intros Hc Hs Hrun. destruct (client_ready (HPeak := session_peak) _ _ _ _ close_c Hc) as [Ho Hfix].
  pose proof (client_app_laws c close_c Hfix). pose proof (server_app_laws s close_s). split; [done|].
  eapply (session_run_inv (HPeak := session_peak) few _ _ (echo_matching c s close_c close_s)); [|exact Hrun].
  apply (session_start_inv (HPeak := session_peak)); [exact Ho|]. by eapply server_ready.
Qed.

(** C1. The echo client and the echo server keep in step, on one TCP connection
    from the start of both processes, whatever fresh memory contains, in Debug
    and Release builds, however the network cuts the two byte streams into reads
    and whatever the order in which asio runs the handlers of the two sides.  In
    every reachable state the client has transmitted exactly the frames of
    requests 0, 1, 2, ... (1024 times the letter a) and the server exactly the
    frames of their responses, in order; every response answers a request that
    was transmitted before, the client is at most one request ahead, and the
    server's [total_recv_cnt_] counts the requests: at least those answered, at
    most those transmitted. *)
Theorem echo_session_lockstep n x :
  EchoClient_new (init_mem fill_c ndebug_c) = Ok c m_c -> Counters_new (init_mem fill_s ndebug_s) = Ok s m_s ->
  echo_run n echo_start x ->
  exists nc ns counted, client_sent x = requests nc /\ server_sent x = responses ns /\
    (ns <= counted <= nc)%nat /\ (nc <= S ns)%nat /\
    m_heap (server x).2 !! total_recv_cnt_ s = Some (OAtomic (int64 counted)).
Proof using Type.
  intros Hc Hs Hrun. destruct (echo_inv n x Hc Hs Hrun) as [Hlaws Hinv]. pose proof (server_app_laws s close_s).
  destruct (session_progress (HPeak := session_peak) few _ _ (echo_matching c s close_c close_s) n x Hinv) as (nc & ns & os & Hnc & Hns & Hle & Hlt & _ & Ho).
  exists nc, ns, (heard os). split_and!; [exact Hnc|exact Hns|lia..|].
  eapply owns_lookup, (owns_mono _ _ (total_recv_cnt_ s ↦ₐ int64 (heard os) ∗ True)%I); [|exact Ho].
  destruct os as [p|]; iIntros "[(_ & _ & $) _]".
Qed.

(** C2. In no reachable state of the session can a handler fail: no assertion,
    no null dereference, no use of a piece that was given back, no access outside
    a piece, no call of an empty callback, on either side, for any read the
    network may deliver next. *)
Theorem echo_session_never_fails n x e err :
  EchoClient_new (init_mem fill_c ndebug_c) = Ok c m_c -> Counters_new (init_mem fill_s ndebug_s) = Ok s m_s ->
  echo_run n echo_start x -> echo_step (λ bs, bs) e x <> Some (inr err).
Proof using Type.
  intros Hc Hs Hrun Hstep. destruct (echo_inv n x Hc Hs Hrun) as [Hlaws Hinv]. pose proof (server_app_laws s close_s).
  destruct (session_step_inv (HPeak := session_peak) few _ _ (echo_matching c s close_c close_s) _ _ _ _ Hinv Hstep)
    as (x' & [=] & _).
Qed.

(** C3. The session goes on for ever: in every reachable state some handler can
    run, and the number of responses transmitted grows with the number of steps,
    so that no schedule can keep the two sides busy without answering requests. *)
Theorem echo_session_goes_on n x :
  EchoClient_new (init_mem fill_c ndebug_c) = Ok c m_c -> Counters_new (init_mem fill_s ndebug_s) = Ok s m_s ->
  echo_run n echo_start x ->
  (exists e x', echo_step (λ bs, bs) e x = Some (inl x')) /\
  exists ns, server_sent x = responses ns /\ Z.of_nat n <= 2 + 2 * kPieceCapacity * (2 * Z.of_nat ns + 1).
Proof using Type.
  intros Hc Hs Hrun. destruct (echo_inv n x Hc Hs Hrun) as [Hlaws Hinv]. pose proof (server_app_laws s close_s).
  split.
  - destruct (session_can_step (HPeak := session_peak) few _ _ (echo_matching c s close_c close_s) _ _ Hinv) as (e & r & Hr).
    destruct (session_step_inv (HPeak := session_peak) few _ _ (echo_matching c s close_c close_s) _ _ _ _ Hinv Hr)
      as (x' & -> & _). by exists e, x'.
  - destruct (session_progress (HPeak := session_peak) few _ _ (echo_matching c s close_c close_s) n x Hinv) as (nc & ns & os & _ & Hns & _ & _ & Hn & _). by exists ns.
Qed.

(** C40. What the session relies on is that [async_send] takes everything it is
    given, which asio does not promise ([socket_->async_send] may transmit a part
    of the buffer and report how much; [handleWrite] ignores the number).  Take
    any run of the session and the first send, by either side, of which the
    network takes only a part.  From there on, under every schedule: no handler
    fails and nothing more is given to asio by either side, so that each still
    believes it has sent the same whole frames; the number of steps is bounded;
    and when no step is possible any more the session is deadlocked: both
    connections are [kConnected] with nothing to write, each waits for bytes and
    there are none on the way. *)
Theorem short_send_stalls_session carried carried' n e x x1 k y :
  EchoClient_new (init_mem fill_c ndebug_c) = Ok c m_c -> Counters_new (init_mem fill_s ndebug_s) = Ok s m_s ->
  echo_run n echo_start x ->
  (forall bs, carried bs `prefix_of` bs) -> echo_step carried e x = Some (inl x1) ->
  echo_step carried e x <> echo_step (λ bs, bs) e x ->
  carried' [] = [] -> session_run carried' (client_app c close_c) (server_app s close_s) k x1 y ->
  exists nc ns, client_sent x1 = requests nc /\ server_sent x1 = responses ns /\ (ns <= nc <= S ns)%nat /\
    client_sent y = requests nc /\ server_sent y = responses ns /\
    Z.of_nat (S n + k) <= 2 + 2 * kPieceCapacity * (2 * Z.of_nat ns + 1) /\
    (forall e' err, echo_step carried' e' y <> Some (inr err)) /\
    ((exists e' y', echo_step carried' e' y = Some (inl y')) \/
     (deadlocked y /\ forall e', echo_step carried' e' y = None)).
Proof using Type.
  intros Hc Hs Hrun Hpre Hstep Hcut Hnil Hk. destruct (echo_inv n x Hc Hs Hrun) as [Hlaws Hinv].
  pose proof (server_app_laws s close_s) as Hlaws'. pose proof (echo_matching c s close_c close_s) as Hm.
  pose proof (short_send_starves (HPeak := session_peak) few _ _ Hm _ _ _ _ _ Hinv Hpre Hstep Hcut) as Hshort.
  destruct (short_run (HPeak := session_peak) few _ _ _ _ _ _ _ Hnil Hshort Hk) as (Hy & Ec & Es).
  destruct (step_processes _ _ _ _ _ _ Hstep) as (y0 & Hfull & Hpc & Hps).
  destruct (session_step_inv (HPeak := session_peak) few _ _ Hm _ _ _ _ Hinv Hfull) as (y1 & [= <-] & Hinv0).
  destruct (session_progress (HPeak := session_peak) few _ _ Hm _ _ Hinv0) as (nc & ns & os & Hnc & Hns & Hle & Hlt & _).
  rewrite /client_sent Hpc in Hnc. rewrite /server_sent Hps in Hns.
  exists nc, ns. rewrite Ec Es. split_and!; [exact Hnc|exact Hns|lia|lia|exact Hnc|exact Hns| | |].
  - pose proof (short_bound _ _ _ _ Hy) as Hb. rewrite Ec Es /client_sent /server_sent Hnc Hns in Hb.
    pose proof (zlen_frames (hears (server_app s close_s)) nc (λ k, proj1 (app_hears_good k))) as H1.
    pose proof (zlen_frames (hears (client_app c close_c)) ns (λ k, proj1 (app_hears_good k))) as H2.
    rewrite /asked /answered in Hb. rewrite kPieceCapacity_eq in H1, H2 |- *. lia.
  - intros e' err He. by destruct (short_step (HPeak := session_peak) few _ _ _ _ _ _ _ Hy Hnil He) as (? & ? & _).
  - destruct (short_ends (HPeak := session_peak) few _ _ carried' _ _ Hy Hnil) as [He|Hd]; [by left|right].
    split; [exact Hd|]. intros e'. by apply deadlocked_ends.
Qed.
End claims.

End linked.

(** ** Concrete sessions *)
#[local] Existing Instance no_linked.
Definition demo_socket : Socket := mkSocket true (mkEndpoint [] 0) (mkEndpoint [] 0).
Definition demo_mem : Mem := init_mem (λ _ _, 0) false.
Definition demo_client : EchoClient := mkEchoClient (mkCounters 3 4 5) 2 (replicate 1024 97).
Definition demo_counters : Counters := mkCounters 2 3 4.
Definition memory_of {A} (r : Res A) : Mem := match r with Ok _ m => m | Err _ => demo_mem end.

Definition demo_start : Session :=
  echo_start demo_socket demo_socket 1 1 (memory_of (EchoClient_new demo_mem)) (memory_of (Counters_new demo_mem)).
Definition demo_play (carried : list Z -> list Z) (es : list event) : Session + Error :=
  session_play carried (client_app demo_client (mret tt)) (server_app demo_counters (mret tt)) es demo_start.

(** A property of the session a schedule leads to. *)
Definition ends_with (r : Session + Error) (P : Session -> bool) : bool :=
  match r with inl x => P x | inr _ => false end.

Lemma ends_with_elim r P : ends_with r P = true -> exists x, r = inl x /\ P x = true.
Proof. destruct r as [x|]; [by exists x|done]. Qed.

(** The network takes at most 1000 bytes at a time: the session ends in the
    middle of the first request of 1048 bytes. *)
Definition short_schedule : list event := [AtClient 0 0; AtServer 0 0; AtServer 0 1000; AtClient 0 0].

Lemma demo_short_send :
  ends_with (demo_play (take 1000) short_schedule)
    (λ x, only_reads (w_pending (client x).1) && only_reads (w_pending (server x).1) &&
          bool_decide (to_server x = []) && bool_decide (to_client x = []) &&
          bool_decide (client_sent x = requests 1) && (zlen (requests 1) =? 1048) && bool_decide (server_sent x = []) &&
          (length_ (inb (server x).1) =? 1000)) = true.
Proof. by vm_compute. Qed.

(** Two rounds of the session, with reads that cut the frames anywhere. *)
Definition two_rounds : list event :=
  [AtServer 0 0; AtClient 0 0; AtServer 0 3; AtServer 0 1000; AtServer 0 45; AtClient 1 700; AtClient 1 349;
   AtServer 0 0; AtClient 0 0; AtServer 0 1050; AtClient 1 1051].

Lemma demo_two_rounds :
  ends_with (demo_play (λ bs, bs) two_rounds)
    (λ x, bool_decide (client_sent x = requests 2) && bool_decide (server_sent x = responses 2)) = true.
Proof. by vm_compute. Qed.

(** The hypotheses of the claims hold for [demo_start], and there are runs of
    any length. *)
Lemma demo_started :
  EchoClient_new demo_mem = Ok demo_client (memory_of (EchoClient_new demo_mem)) /\
  Counters_new demo_mem = Ok demo_counters (memory_of (Counters_new demo_mem)).
Proof. done. Qed.

Abbreviation demo_run n x := (echo_run (mret tt) (mret tt) demo_client demo_counters n demo_start x).

Lemma demo_runs n : exists x, demo_run n x.
Proof.
  destruct demo_started as [Hc Hs]. destruct (client_ready (HPeak := session_peak) _ _ _ _ (mret tt) Hc) as [Ho Hfix].
  pose proof (client_app_laws demo_client (mret tt) Hfix). pose proof (server_app_laws demo_counters (mret tt)).
  apply (session_runs_exist (HPeak := session_peak) few _ _ (echo_matching _ _ _ _)).
  apply (session_start_inv (HPeak := session_peak)); [exact Ho|]. by eapply server_ready.
Qed.

Lemma echo_session_lockstep_witness :
  ends_with (demo_play (λ bs, bs) two_rounds)
    (λ x, bool_decide (client_sent x = requests 2) && bool_decide (server_sent x = responses 2)) = true /\
  exists x, demo_run 20 x /\
    exists nc ns counted, client_sent x = requests nc /\ server_sent x = responses ns /\
      (ns <= counted <= nc)%nat /\ (nc <= S ns)%nat /\
      m_heap (server x).2 !! total_recv_cnt_ demo_counters = Some (OAtomic (int64 counted)).
Proof.
  split; [exact demo_two_rounds|]. destruct (demo_runs 20) as [x Hx]. destruct demo_started as [Hc Hs].
  exists x. split; [exact Hx|].
  exact (echo_session_lockstep (mret tt) (mret tt) demo_socket demo_socket 1 1 _ _ _ _ _ _ _ _ 20 x Hc Hs Hx).
Defined.

Lemma echo_session_never_fails_witness : exists x, demo_run 20 x /\
  forall e err, echo_step (mret tt) (mret tt) demo_client demo_counters (λ bs, bs) e x <> Some (inr err).
Proof.
  destruct (demo_runs 20) as [x Hx]. destruct demo_started as [Hc Hs]. exists x. split; [exact Hx|]. intros e err.
  exact (echo_session_never_fails (mret tt) (mret tt) demo_socket demo_socket 1 1 _ _ _ _ _ _ _ _ 20 x e err Hc Hs Hx).
Defined.

Lemma echo_session_goes_on_witness : exists x, demo_run 9000 x /\
  (exists e x', echo_step (mret tt) (mret tt) demo_client demo_counters (λ bs, bs) e x = Some (inl x')) /\
  exists ns, server_sent x = responses ns /\ Z.of_nat 9000 <= 2 + 2 * kPieceCapacity * (2 * Z.of_nat ns + 1).
Proof.
  destruct (demo_runs 9000) as [x Hx]. destruct demo_started as [Hc Hs]. exists x. split; [exact Hx|].
  exact (echo_session_goes_on (mret tt) (mret tt) demo_socket demo_socket 1 1 _ _ _ _ _ _ _ _ 9000 x Hc Hs Hx).
Defined.

(** The steps of a schedule, all of which must be possible. *)
Abbreviation demo_step := (echo_step (mret tt) (mret tt) demo_client demo_counters).
Fixpoint demo_steps (carried : list Z -> list Z) (es : list event) (x : Session) : option Session :=
  match es with
  | [] => Some x
  | e :: es => match demo_step carried e x with Some (inl x) => demo_steps carried es x | _ => None end
  end.

Lemma session_run_l carried C S n e x y z : session_step carried C S e x = Some (inl y) ->
  session_run carried C S n y z -> session_run carried C S (Datatypes.S n) x z.
Proof. intros Hs. induction 1; eapply run_step; eauto using run_none. Qed.

Definition all_possible (r : option Session) : bool := match r with Some _ => true | None => false end.

Lemma demo_steps_cons carried e es x : all_possible (demo_steps carried (e :: es) x) = true ->
  exists y x1, demo_step carried e x = Some (inl x1) /\ demo_steps carried es x1 = Some y.
Proof.
  cbn. destruct (demo_step carried e x) as [[x1|]|]; [|done..].
  destruct (demo_steps carried es x1) as [y|] eqn:E; [|done]. by exists y, x1.
Qed.

Lemma demo_short_steps :
  all_possible (demo_steps (take 1000) [AtClient 0 0; AtServer 0 0; AtServer 0 1000] demo_start) = true.
Proof. by vm_compute. Qed.

(** The client's first send is cut. *)
Lemma demo_short_cut : demo_step (take 1000) (AtClient 0 0) demo_start <> demo_step (λ bs, bs) (AtClient 0 0) demo_start.
Proof.
  intros E. apply (f_equal (λ r, match r with Some (inl x) => zlen (to_server x) | _ => 0 end)) in E.
  vm_compute in E. done.
Qed.

Lemma demo_steps_run carried es x y : demo_steps carried es x = Some y ->
  session_run carried (client_app demo_client (mret tt)) (server_app demo_counters (mret tt)) (length es) x y.
Proof.
  revert x. induction es as [|e es IH]; intros x; cbn; [intros [= ->]; constructor|].
  destruct (demo_step carried e x) as [[x'|err]|] eqn:E; [|done..]. intros Hy. by eapply session_run_l, IH.
Qed.

Lemma short_send_stalls_session_witness :
  ends_with (demo_play (take 1000) short_schedule)
    (λ x, only_reads (w_pending (client x).1) && only_reads (w_pending (server x).1) &&
          bool_decide (to_server x = []) && bool_decide (to_client x = []) &&
          bool_decide (client_sent x = requests 1) && (zlen (requests 1) =? 1048) && bool_decide (server_sent x = []) &&
          (length_ (inb (server x).1) =? 1000)) = true /\
  exists x1 y, demo_step (take 1000) (AtClient 0 0) demo_start = Some (inl x1) /\
    demo_steps (take 1000) [AtServer 0 0; AtServer 0 1000] x1 = Some y /\
    exists nc ns, client_sent x1 = requests nc /\ server_sent x1 = responses ns /\ (ns <= nc <= S ns)%nat /\
      client_sent y = requests nc /\ server_sent y = responses ns /\
      Z.of_nat (1 + 2) <= 2 + 2 * kPieceCapacity * (2 * Z.of_nat ns + 1) /\
      (forall e err, demo_step (take 1000) e y <> Some (inr err)) /\
      ((exists e y', demo_step (take 1000) e y = Some (inl y')) \/
       (deadlocked y /\ forall e, demo_step (take 1000) e y = None)).
Proof.
  split; [exact demo_short_send|]. destruct demo_started as [Hc Hs].
  pose proof demo_short_steps as (y & x1 & E1 & E2)%demo_steps_cons.
  exists x1, y. split; [exact E1|]. split; [exact E2|].
  refine (short_send_stalls_session (mret tt) (mret tt) demo_socket demo_socket 1 1 _ _ _ _ _ _ _ _
    (take 1000) (take 1000) 0 (AtClient 0 0) demo_start x1 2 y Hc Hs (run_none _ _ _ _) _ E1 _ eq_refl
    (demo_steps_run _ _ _ _ E2)).
  - intros bs. exists (drop 1000 bs). by rewrite take_drop.
  - exact demo_short_cut.
Defined.
